(* ===== verification/_CoqProject ===== *)
-Q . S2P
Prelude.v
Gmp.v
Ir.v
Refinement.v
ConstantFolding.v
ConstantFoldingFacts.v
StrengthReduction.v
StrengthReductionFacts.v
CfgGraph.v
CfgTraverse.v
Lattice.v
LatticeFacts.v
CfgDominators.v
CfgDominatorsFacts.v
CallGraph.v
CallGraphFacts.v
CallGraphScc.v
CfgIter.v
CfgIterFacts.v
Bitvec.v
BitvecFacts.v
BitvecSpec.v
DjSet.v
DjSetFacts.v
CongruenceFacts.v
DjSetSpec.v
SymValue.v
SymTree.v
SymRefine.v
SymFacts.v
SymTyped.v
SymEval.v
SymEvalFacts.v
ParserInterp.v
ParserInterpFacts.v
TypeSubst.v
TypeSubstFacts.v
TypeConstraints.v
TypeConstraintsFacts.v
TypeSolving.v
TypeMatching.v
DefUse.v
DefUseFacts.v
WriteSet.v
WriteSetFacts.v
WriteSetSound.v
WriteSetParser.v
WriteSetTerm.v
