(* ===== verification/Prelude.v ===== *)
(** * Verification of parts of FlexPlan

    FlexPlan's C++ code is [src/bf4], a fork of the P4 compiler with back ends
    that analyse P4 programs.  This library models, function by function, the
    code below that decides what the compiler and the analyses answer, and
    proves what each part promises.

    ** The parts and how they interact

    [frontends/] holds the passes that rewrite expressions before any analysis
    ([constantFolding.cpp], [strengthReduction.cpp]); they build IR nodes
    ([ir/]) whose constants are GMP integers ([lib/gmputil.*]).  The call graph
    ([frontends/p4/callGraph.h]) is a template that passes use on declarations
    and that [backends/analysis/cfg_algos.*] instantiates on the nodes of
    control-flow graphs to find out whether they have cycles.  The analyses of
    [backends/analysis] run on these control-flow graphs, and use the
    union-find structure of [dj_set_expl.*] and the lattices and worklist of
    [lattice/Lattice.*].  [midend/interpreter.*] evaluates expressions
    symbolically, with the constant folding for what is known, and
    [midend/parserUnroll.*] explores a parser with it.  The types all this
    relies on are found by unification ([frontends/p4/typeChecking]).  [lib/bitvec.*] is the set of
    small integers of the library.  [frontends/p4/def_use.*] finds out which statements
    may have written a location last; the simplification of definitions and uses asks it.

    ** Files

    - [Prelude]: results with diagnostics ([outcome], for [::error], [::warning]
      and [BUG]), [std::map] as a sorted association list with its laws
      ([Ordered], [OrderedLaws]), worklists, machine integers, tactics.
    - [Gmp]: [gmputil.h/.cpp].  GMP's scans are a class of operations
      ([Mpz]) whose documented behaviour is the class of laws [MpzLaws]; an
      instance computes them.
    - [Ir]: the types and expressions of [ir/type.def] and [ir/expression.def]
      the passes meet, the constructors of [ir/expression.cpp] with their type
      rules and [Constant::handleOverflow], and a semantics [eval] of
      expressions that does not depend on the passes.  [Refinement]: the order
      "keeps the value" on expressions and its congruence.
    - [ConstantFolding], [ConstantFoldingFacts]: one definition per [postorder]
      method of [DoConstantFolding], its helpers, and the bottom-up driver;
      soundness, the value of each folded operator, select resolution.
    - [StrengthReduction], [StrengthReductionFacts]: the same for
      [DoStrengthReduction].
    - [CfgGraph]: nodes, edges, and the functions of [cfg_algos] that build
      one graph from another ([reverse], [subgraph], [gmap], [clone],
      [freshClone], [find_start_nodes], ...).
    - [CfgTraverse]: the depth-first walks, [topo_sort], [find_back_edges],
      [removeDeadNodes], [findEndNodes] and [basic_blocks].
    - [Lattice], [LatticeFacts]: [Lattice.h/.cpp]: the lattices of tuples and
      maps, [WorklistAlgo] and [DefaultDiscipline].
    - [CfgDominators], [CfgDominatorsFacts]: [compute_dominators],
      [compute_idominators], [compute_cdg], [dom_frontier].
    - [CallGraph], [CallGraphFacts], [CallGraphScc]: the class [CallGraph<T>]
      with construction and removal, reachability, dominators, natural
      loops and Tarjan's algorithm ([strongConnect], [sccSort]).
    - [CfgIter], [CfgIterFacts]: [is_a_dag], [label_maker] and
      [chaotic_iterations], the composition of the control-flow graphs with the
      call graph.
    - [Bitvec], [BitvecFacts], [BitvecSpec]: [bitvec] on its 64-bit words; every
      operation refines an operation on numbers.
    - [DjSet], [DjSetFacts], [CongruenceFacts], [DjSetSpec]: [dj_set_expl],
      [congruence_closure_t] and [variable_context_t].
    - [SymValue]: the classes of [midend/interpreter.h]: objects in a store,
      one function per method of a class, the value factory, [ValueMap].
      [SymTree]: values as trees, [repr] between a store and a tree, the
      operations on trees.  [SymRefine], [SymFacts]: every method refines the
      operation on trees; the lattice of values.  [SymTyped]: the types of values.
    - [SymEval], [SymEvalFacts]: [ExpressionEvaluator], on top of
      [ConstantFolding]; its answers against [eval] of [Ir].
    - [ParserInterp], [ParserInterpFacts]: [ParserSymbolicInterpreter], on top of
      [SymEval].
    - [TypeSubst], [TypeSubstFacts]: canonical types with variables,
      [TypeMap::equivalent], [TypeVariableSubstitution] and its visitors; the
      algebra of substitutions.  [TypeConstraints]: [TypeUnification] and
      [TypeConstraints] of [frontends/p4/typeChecking].  [TypeConstraintsFacts]:
      what one step of unification leaves to be solved.  [TypeSolving]: what
      [solve] answers.  [TypeMatching]: where it is total.
    - [DefUse], [DefUseFacts]: storage locations, sets of locations, program points
      and [Definitions] of [frontends/p4/def_use.*].  [WriteSet]: its visitor
      [ComputeWriteSet], on a store of [Definitions] objects.  [WriteSetFacts]: paths
      through a body, and how the visitor follows them.  [WriteSetSound]: what holds of
      whole controls.  [WriteSetParser], [WriteSetTerm]: the loop over the
      states of a parser: what it answers, and that it ends.

    ** State and operations

    A class is a [Record] of its fields, a method that changes it a function
    that returns the new record, and a caller's vector or map that a function
    fills an argument and a part of the result.  [std::map]s and [std::set]s
    are association lists in the order of the comparison the source gives
    them (which in several places is not a total order); those only asked for
    membership are [gmap]s and [gset]s; [ordered_map] keeps insertion order.
    [None] stands for undefined behaviour (a read outside a vector, a null
    pointer, [end()] dereferenced) and for fuel that ran out; [Aborted] for a
    [BUG].  Template arguments and code that is not under [src/] are parameters.

    The symbolic values point to one another and are changed in place: they are
    kept in a store of objects, whose locations are their [id]s, and a method
    is a program of a state monad with diagnostics.  A node of an expression is
    evaluated where it occurs; the source keeps one value per node object, which
    matters only for nodes shared by several parents.  The maps whose order
    is that of pointers are in the order of declaration.

    ** Theorems

    - Rewriting passes: [constant_folding_sound], [strength_reduction_sound],
      [slice_sound], [binary_folds], [select_resolution_sound]: an expression
      that has a value keeps it when the pass reports no error.  Their
      hypotheses exclude exactly the cases the examples at the end of each
      file show to be folded wrongly.
    - Graphs: what the transformations do to edges ([reverse_spec],
      [subgraph_spec], [freshClone_isomorphic], [removeDeadNodes_spec], ...),
      that the walks end and in what order they list nodes ([topo_sort_spec],
      [topo_sort_dag], [sccSort_spec]), that the dominator computations are
      domination on paths ([dominators_spec] on every graph,
      [compute_dominators_dag] on acyclic ones), that the loops found are
      the natural loops ([compute_loops_spec], [natural_loops]), that the basic
      blocks partition the reachable nodes, and that one pass of
      [label_maker] solves the data-flow equations ([chaotic_iterations_dag]).
    - Bit vectors: every operator, scan, slice and shift against the number
      whose bits the words hold, and the invariant on the words.
    - Union-find: representatives are the classes of the united pairs,
      explanations are chains of united pairs, and the congruence closure
      is sound.
    - Data flow: [WorklistAlgo] ends with the least solution of the data-flow
      inequations ([worklist_algo_solves], [worklist_algo_least]) and
      [DefaultDiscipline] is an order ([DefaultDiscipline_spec]).
    - Symbolic values: clone, assign, merge, equality and forgetting are the
      operations on trees and touch no other object ([merge_refines], ...),
      merging is the least upper bound and settles ([merge_all_settles]), and
      values keep their type ([create_typed], [operations_keep_types]).
    - Symbolic evaluation: what the evaluator answers covers every value the
      expression has ([evaluate_sound]), it does answer ([evaluate_returns]), and
      what becomes of errors ([operand_errors]).  [extract] ([extract_spec]).
    - Parsers: the entries collected lie on paths of the parser
      ([run_collects_paths]), and on parsers without cycles the exploration
      ends ([run_terminates]); on others it need not.
    - Types: a substitution without circles is applied completely and once
      ([TypeSubstFacts]); a solution of the constraints makes their sides compatible,
      binds the arguments of calls, and composes with the bindings made before
      ([solve_sound]); matching, and calls with arguments of known types, are decided
      in a bounded number of steps ([matching_decided], [call_decided]).
    - Definitions: fields, elements and variables have disjoint storage
      ([storage_disjoint]), joining is the least upper bound ([joinDefinitions_least]),
      and in a control that calls no action or table the definitions at every node contain
      the last writers on every path ([control_covers_paths]); the loop over the states of a
      parser ends ([parser_loop_ends]) with the same for the paths of the parser
      ([parser_covers_paths]).
    - Examples that state a computed result record where the code departs from
      its intent; the comments say what goes wrong.

    ** Fuel

    A loop that is not structurally recursive takes fuel.  The fuel a
    definition supplies itself is enough by a theorem ([*_spec] theorems state
    that the result exists); where it is an argument the theorem gives a bound
    from which on every amount of fuel gives the same result.  The bounds are
    the number of pending edges for walks, the square of the number of nodes
    for dominator rounds, the number of paths for [compute_dominators], the
    length of a chain of parents for union-find and twice the pending equalities
    and uses for congruence closure; for [WorklistAlgo] the number of nodes times
    the height of the lattice, for the methods of symbolic values the counter of
    objects, which exceeds the height of any value ([fueled]), and for [run]
    the number of paths of the parser.  [typeFuel] bounds the nesting of types.
    [unify] takes the sizes of the two types; [solve] three steps per unit of [weight]
    of the sides without variables; in general it need not end, as [solve_cyclic]
    suggests.  The nesting of a body is enough for its visitor ([plain_body_fuel]); the
    [rounds] of a parser are bounded by its states times the pairs of a location and a point
    ([parser_loop_ends]).  [dom_frontier] and [compute_cdg] have no
    such theorem, because they need not end: the examples say when.

    ** Not modelled

    Printing and [toDot]; the IR predicates of [cfg_algos] ([is_assign] and the
    like), [ComputeGraph] and [ensure_basic_blocks], which walk IR nodes the
    model leaves abstract; [gfilter] and [summarize].  [dbprint] and [stateChain]; [AnalyzeParser],
    [ParserUnroller] and [SlashParser].  Sparse constant propagation, reaching definitions and loop unrolling over the IR.
    The simplification of
    definitions and uses, and the virtual functions of instances declared in a control.
    The visitors of the type checkers, which create the constraints, and the other
    rewriting passes, which need the whole IR and its generated visitors; the type of
    tables and the methods of externs, which no comparison of types looks at.  The solver-driven analyses, whose solver
    is not under [src/]; generated servers and grammars; the code generators,
    which print.  The copies of [backends/analysis] in [backends/smt*]. *)
From Stdlib Require Export ZArith Lia.
From stdpp Require Export base gmap sets strings sorting list.

(** ** Diagnostics and aborts

    The compiler reports problems through [::error] and [::warning] and goes
    on; [BUG]/[BUG_CHECK] throw and a null dereference is undefined.  A
    computation is [Done a ds] (the value and the diagnostics in emission
    order) or [Abort]. *)
Inductive diag :=
| DError (msg : string)
| DWarning (msg : string).

Inductive outcome (A : Type) :=
| Done (a : A) (ds : list diag)
| Aborted (why : string).
Arguments Done {A} _ _.
Arguments Aborted {A} _.

Definition oret {A} (a : A) : outcome A := Done a [].
Definition obind {A B} (m : outcome A) (k : A -> outcome B) : outcome B :=
  match m with
  | Aborted w => Aborted w
  | Done a ds =>
      match k a with
      | Aborted w => Aborted w
      | Done b ds' => Done b (ds ++ ds')
      end
  end.
Definition report {A} (d : diag) (a : A) : outcome A := Done a [d].

Declare Scope flexplan_scope.
Delimit Scope flexplan_scope with flex.
Notation "'do' x <- m ; k" := (obind m (fun x => k))
  (at level 10, x pattern, m at level 100, k at level 200) : flexplan_scope.

#[global] Instance diag_eq_dec : EqDecision diag.
Proof. solve_decision. Defined.

Lemma obind_Done {A B} (m : outcome A) (k : A -> outcome B) b ds :
  obind m k = Done b ds <->
  exists a ds1 ds2, m = Done a ds1 /\ k a = Done b ds2 /\ ds = ds1 ++ ds2.
Proof.
  destruct m as [a ds1|w]; simpl.
  - destruct (k a) as [b' ds2|w] eqn:E; split.
    + intros [= <- <-]. eauto 10.
    + intros (? & ? & ? & [= <- <-] & Hk & ->). congruence.
    + done.
    + intros (? & ? & ? & [= <- <-] & Hk & _). congruence.
  - split; [done|]. by intros (? & ? & ? & ? & _).
Qed.

Lemma oret_Done {A} (a b : A) ds : oret a = Done b ds -> a = b /\ ds = [].
Proof. by intros [= -> <-]. Qed.

(** Compilation stops after a pass that reported an error. *)
Definition is_error (d : diag) : bool := match d with DError _ => true | DWarning _ => false end.
Definition no_errors (ds : list diag) : bool := forallb (fun d => negb (is_error d)) ds.

Lemma no_errors_app ds1 ds2 : no_errors (ds1 ++ ds2) = no_errors ds1 && no_errors ds2.
Proof. apply forallb_app. Qed.

Lemma no_errors_split ds1 ds2 :
  no_errors (ds1 ++ ds2) = true -> no_errors ds1 = true /\ no_errors ds2 = true.
Proof. by rewrite no_errors_app, andb_true_iff. Qed.

(** Invert a successful sequence of steps. *)
Ltac odo H :=
  let a := fresh "r" in let ds1 := fresh "ds" in let ds2 := fresh "ds" in
  let H1 := fresh "Hm" in let Hds := fresh "Hds" in
  apply obind_Done in H as (a & ds1 & ds2 & H1 & H & Hds).

(** ** Ordered maps: [std::map]

    The key/value pairs in the order of the keys' comparison.  [operator[]=]
    and [emplace] insert in front of the first greater key. *)
Class Ordered (K : Type) := key_ltb : K -> K -> bool.
#[global] Hint Mode Ordered ! : typeclass_instances.
Create HintDb flexplan.

Class OrderedLaws (K : Type) {ord : Ordered K} : Prop := {
  key_ltb_irrefl (k : K) : key_ltb k k = false;
  key_ltb_trans (k1 k2 k3 : K) :
    key_ltb k1 k2 = true -> key_ltb k2 k3 = true -> key_ltb k1 k3 = true;
  key_ltb_total (k1 k2 : K) :
    key_ltb k1 k2 = false -> key_ltb k2 k1 = false -> k1 = k2
}.

Section ordered_map.
Context {K V : Type} `{EqDecision K} {ord : Ordered K}.
Implicit Types (k : K) (v : V) (m : list (K * V)).

Fixpoint ofind k m : option V :=
  match m with
  | [] => None
  | (k', v) :: m => if decide (k = k') then Some v else ofind k m
  end.

Fixpoint oreplace k v m : list (K * V) :=
  match m with
  | [] => []
  | (k', v') :: m' =>
      if decide (k = k') then (k, v) :: m' else (k', v') :: oreplace k v m'
  end.

Fixpoint oinsert k v m : list (K * V) :=
  match m with
  | [] => [(k, v)]
  | (k', v') :: m' =>
      if key_ltb k k' then (k, v) :: m else (k', v') :: oinsert k v m'
  end.

Definition oput k v m : list (K * V) :=
  match ofind k m with
  | Some _ => oreplace k v m
  | None => oinsert k v m
  end.

Definition oemplace k v m : list (K * V) :=
  match ofind k m with Some _ => m | None => oinsert k v m end.

Fixpoint oerase k m : list (K * V) :=
  match m with
  | [] => []
  | (k', v') :: m' => if decide (k = k') then oerase k m' else (k', v') :: oerase k m'
  end.

Definition ofind_or (d : V) k m : V := default d (ofind k m).

(** An update of the reference [m[k]]: a missing key is first
    default-constructed. *)
Definition oalter (d : V) (f : V -> V) k m : list (K * V) :=
  oput k (f (ofind_or d k m)) m.

Definition okeys m : list K := m.*1.

Lemma ofind_oreplace k v m k' :
  ofind k' (oreplace k v m) =
    if decide (k' = k) then (fun _ => v) <$> ofind k m else ofind k' m.
Proof.
  induction m as [|[k1 v1] m IH]; simpl; [by case_decide|].
  destruct (decide (k = k1)) as [->|]; simpl.
  - destruct (decide (k' = k1)); simpl; [done|done].
  - rewrite IH. repeat case_decide; congruence.
Qed.

Lemma ofind_oinsert k v m k' :
  ofind k m = None ->
  ofind k' (oinsert k v m) = if decide (k' = k) then Some v else ofind k' m.
Proof.
  induction m as [|[k1 v1] m IH]; simpl; [done|].
  destruct (decide (k = k1)); [done|]. intros Hk.
  destruct (key_ltb k k1); simpl; [done|]. rewrite IH by done.
  repeat case_decide; congruence.
Qed.

Lemma ofind_oput k v m k' :
  ofind k' (oput k v m) = if decide (k' = k) then Some v else ofind k' m.
Proof.
  unfold oput. destruct (ofind k m) eqn:E.
  - rewrite ofind_oreplace. case_decide; by rewrite ?E.
  - by apply ofind_oinsert.
Qed.

Lemma ofind_oput_eq k v m : ofind k (oput k v m) = Some v.
Proof. rewrite ofind_oput. by case_decide. Qed.

Lemma ofind_oput_ne k k' v m : k' <> k -> ofind k' (oput k v m) = ofind k' m.
Proof. intros. rewrite ofind_oput. by case_decide. Qed.

Lemma ofind_oemplace k v m k' :
  ofind k' (oemplace k v m) =
    if decide (k' = k) then Some (default v (ofind k m)) else ofind k' m.
Proof.
  unfold oemplace. destruct (ofind k m) eqn:E; simpl.
  - case_decide; congruence.
  - by apply ofind_oinsert.
Qed.

Lemma ofind_oalter d f k m k' :
  ofind k' (oalter d f k m) =
    if decide (k' = k) then Some (f (ofind_or d k m)) else ofind k' m.
Proof. apply ofind_oput. Qed.

Lemma ofind_oerase k m k' :
  ofind k' (oerase k m) = if decide (k' = k) then None else ofind k' m.
Proof.
  induction m as [|[k1 v1] m IH]; simpl; [by case_decide|].
  repeat (case_decide; simpl; simplify_eq); try done.
Qed.

Lemma ofind_Some_elem k v m : ofind k m = Some v -> (k, v) ∈ m.
Proof.
  induction m as [|[k1 v1] m IH]; simpl; [done|].
  case_decide; [subst|]; set_solver.
Qed.

Lemma ofind_None_keys k m : ofind k m = None <-> k ∉ okeys m.
Proof.
  unfold okeys. induction m as [|[k1 v1] m IH]; simpl; [set_solver|].
  case_decide; [subst|]; set_solver.
Qed.

Lemma ofind_is_Some k m : is_Some (ofind k m) <-> k ∈ okeys m.
Proof.
  rewrite <- not_eq_None_Some, ofind_None_keys.
  split; [intros Hk | tauto].
  destruct (decide (k ∈ okeys m)); tauto.
Qed.

Lemma elem_of_okeys k m : k ∈ okeys m <-> exists v, (k, v) ∈ m.
Proof.
  unfold okeys. rewrite list_elem_of_fmap. split.
  - intros ([k' v] & -> & ?); eauto.
  - intros [v ?]. by exists (k, v).
Qed.

Lemma NoDup_ofind k v m : NoDup (okeys m) -> (k, v) ∈ m -> ofind k m = Some v.
Proof.
  unfold okeys. induction m as [|[k1 v1] m IH]; simpl; [set_solver|].
  intros [Hn Hd]%NoDup_cons [[= <- <-]|Hin]%elem_of_cons.
  - by rewrite decide_True.
  - rewrite decide_False; [auto|]. intros ->. apply Hn.
    rewrite list_elem_of_fmap. by exists (k1, v).
Qed.

Lemma okeys_oput k v m x : x ∈ okeys (oput k v m) <-> x = k \/ x ∈ okeys m.
Proof.
  rewrite <- !ofind_is_Some, ofind_oput.
  case_decide; [naive_solver|]. split; [tauto|]. by intros [?|?].
Qed.

Lemma okeys_oreplace k v m : okeys (oreplace k v m) = okeys m.
Proof.
  unfold okeys. induction m as [|[k1 v1] m IH]; simpl; [done|].
  case_decide; simplify_eq/=; congruence.
Qed.

Lemma okeys_oinsert_perm k v m : okeys (oinsert k v m) ≡ₚ k :: okeys m.
Proof.
  unfold okeys. induction m as [|[k1 v1] m IH]; simpl; [done|].
  destruct (key_ltb k k1); simpl; [done|]. rewrite IH. apply Permutation_swap.
Qed.

Lemma NoDup_oput k v m : NoDup (okeys m) -> NoDup (okeys (oput k v m)).
Proof.
  intros Hd. unfold oput. destruct (ofind k m) eqn:E.
  - by rewrite okeys_oreplace.
  - rewrite okeys_oinsert_perm, NoDup_cons. by apply ofind_None_keys in E.
Qed.

Lemma NoDup_oerase k m : NoDup (okeys m) -> NoDup (okeys (oerase k m)).
Proof.
  unfold okeys. induction m as [|[k1 v1] m IH]; simpl; [done|].
  rewrite NoDup_cons. intros [Hn Hd]. case_decide; [auto|]. simpl.
  rewrite NoDup_cons. split; [|auto]. intros Hin. apply Hn. clear -Hin.
  induction m as [|[k2 v2] m IH]; simpl in *; [done|].
  case_decide; [subst|]; set_solver.
Qed.
End ordered_map.

(** The order invariant of [std::map], which every update preserves. *)
Section ordered_map_sorted.
Context {K V : Type} `{EqDecision K} {ord : Ordered K} {laws : OrderedLaws K}.
Implicit Types (k : K) (v : V) (m : list (K * V)).

Definition osorted m : Prop :=
  StronglySorted (fun a b => key_ltb a.1 b.1 = true) m.

Lemma osorted_NoDup m : osorted m -> NoDup (okeys m).
Proof.
  unfold okeys. induction 1 as [|[k v] m Hs IH Hall]; simpl; [constructor|].
  rewrite NoDup_cons. split; [|done]. intros Hin.
  apply list_elem_of_fmap in Hin as ([k' v'] & ? & Hin); simplify_eq/=.
  rewrite Forall_forall in Hall. specialize (Hall _ Hin); simpl in *.
  by rewrite key_ltb_irrefl in Hall.
Qed.

Lemma osorted_oput k v m : osorted m -> osorted (oput k v m).
Proof.
  intros Hs. unfold oput. destruct (ofind k m) eqn:E.
  - clear E. induction Hs as [|[k1 v1] m Hs IH Hall]; simpl; [constructor|].
    case_decide; simplify_eq; [by constructor|].
    constructor; [done|]. rewrite Forall_forall in Hall. apply Forall_forall. intros [k2 v2] Hin; simpl.
    assert (Hk : k2 ∈ okeys (oreplace k v m)) by (apply elem_of_okeys; eauto).
    rewrite okeys_oreplace in Hk. apply elem_of_okeys in Hk as [v3 Hk].
    by apply (Hall _ Hk).
  - apply ofind_None_keys in E. unfold okeys in E.
    induction Hs as [|[k1 v1] m Hs IH Hall]; simpl in *; [repeat constructor|].
    apply not_elem_of_cons in E as [Hne E].
    destruct (key_ltb k k1) eqn:Hlt.
    + constructor; [by constructor|]. constructor; [done|].
      eapply Forall_impl; [exact Hall|]. intros [k2 v2]; simpl.
      by apply key_ltb_trans.
    + constructor; [by apply IH|]. rewrite Forall_forall in Hall. apply Forall_forall. intros [k2 v2] Hin; simpl.
      assert (Hk : k2 ∈ okeys (oinsert k v m)) by (apply elem_of_okeys; eauto).
      rewrite okeys_oinsert_perm in Hk. apply elem_of_cons in Hk as [->|Hk].
      * destruct (key_ltb k1 k) eqn:H1; [done|]. by apply key_ltb_total in H1.
      * apply elem_of_okeys in Hk as [v3 Hk]. by apply (Hall _ Hk).
Qed.
End ordered_map_sorted.

#[export] Hint Resolve NoDup_oput NoDup_oerase : flexplan.

(** ** Sets with a comparison: [std::set]

    An element equivalent to one that is there is not inserted. *)
Fixpoint set_emplace {A} (ltb : A -> A -> bool) (x : A) (s : list A) : list A :=
  match s with
  | [] => [x]
  | y :: s' => if ltb x y then x :: s else if ltb y x then y :: set_emplace ltb x s' else s
  end.

Lemma set_emplace_sub {A} (ltb : A -> A -> bool) x y s : y ∈ set_emplace ltb x s -> y = x \/ y ∈ s.
Proof.
  induction s as [|z s IH]; simpl; [intros ->%list_elem_of_singleton; by left|]. destruct (ltb x z).
  - intros [->|Hy]%elem_of_cons; [by left|by right].
  - destruct (ltb z x); [|by right]. intros [->|Hy]%elem_of_cons; [right; by left|]. destruct (IH Hy) as [->|]; [by left|right; by right].
Qed.
Lemma set_emplace_old {A} (ltb : A -> A -> bool) x y s : y ∈ s -> y ∈ set_emplace ltb x s.
Proof.
  induction s as [|z s IH]; intros Hy; simpl; [by right|]. destruct (ltb x z); [by right|]. destruct (ltb z x); [|done].
  apply elem_of_cons in Hy as [->|Hy]; [by left|right; by apply IH].
Qed.
Lemma set_emplace_new {A} (ltb : A -> A -> bool) x s : (forall y, y ∈ s -> ltb x y = false -> ltb y x = false -> x = y) ->
  x ∈ set_emplace ltb x s.
Proof.
  induction s as [|z s IH]; intros Hs; simpl; [by left|]. destruct (ltb x z) eqn:E1; [by left|]. destruct (ltb z x) eqn:E2.
  - right. apply IH. intros y Hy. apply Hs. by right.
  - rewrite (Hs z ltac:(by left) E1 E2). by left.
Qed.
Lemma set_emplace_length {A} (ltb : A -> A -> bool) x s : (length (set_emplace ltb x s) <= S (length s))%nat.
Proof. induction s as [|z s IH]; simpl; [lia|]. destruct (ltb x z); simpl; [lia|]. destruct (ltb z x); simpl; lia. Qed.

(** ** Graph walks

    [g] lists every node's edges; the number of edges of the nodes that are
    not visited yet bounds the work a walk can still do. *)
Section pending.
Context {K V : Type} `{Countable K}.
Implicit Types (visited : gset K) (g : list (K * list V)).

Fixpoint pending visited g : nat :=
  match g with
  | [] => 0
  | p :: g => (if bool_decide (p.1 ∈ visited) then 0 else length p.2) + pending visited g
  end%nat.

Lemma pending_mono v1 v2 g : v1 ⊆ v2 -> (pending v2 g <= pending v1 g)%nat.
Proof.
  intros Hv. induction g as [|[k l] g IH]; simpl; [lia|].
  pose proof (Hv k). repeat case_bool_decide; try lia; exfalso; auto.
Qed.

Lemma pending_visit n l v g :
  ofind n g = Some l -> n ∉ v -> (pending ({[ n ]} ∪ v) g + length l <= pending v g)%nat.
Proof.
  intros Hl Hn. induction g as [|[k l'] g IH]; simpl in *; [done|].
  pose proof (pending_mono v ({[ n ]} ∪ v) g ltac:(set_solver)) as Hm.
  case_decide as Hk.
  - subst k. injection Hl as ->. rewrite bool_decide_eq_true_2 by set_solver.
    rewrite bool_decide_eq_false_2 by done. lia.
  - specialize (IH Hl). assert (k ∈ v -> k ∈ {[ n ]} ∪ v) by set_solver.
    assert (k ∈ {[ n ]} ∪ v -> k ∈ v) by set_solver.
    repeat case_bool_decide; try lia; exfalso; auto.
Qed.

Lemma pending_empty g : pending ∅ g = length (flat_map snd g).
Proof.
  induction g as [|[k l] g IH]; simpl; [done|].
  rewrite IH, length_app. case_bool_decide; [set_solver|done].
Qed.
End pending.

(** ** Integers and their bits *)
(** Truncation to [w] bits, the arithmetic of unsigned machine integers. *)
Definition wrapu (w z : Z) : Z := (z mod 2 ^ w)%Z.
(** Two's complement reading of the low [w] bits. *)
Definition wraps (w z : Z) : Z := ((z + 2 ^ (w - 1)) mod 2 ^ w - 2 ^ (w - 1))%Z.

Lemma pow2_pos n : (0 <= n -> 0 < 2 ^ n)%Z.
Proof. intros. apply Z.pow_pos_nonneg; lia. Qed.

Lemma pow2_split n : (1 <= n -> 2 ^ n = 2 * 2 ^ (n - 1))%Z.
Proof. intros. replace n with (Z.succ (n - 1)) at 1 by lia. apply Z.pow_succ_r. lia. Qed.

Lemma wrapu_range w z : (0 <= w -> 0 <= wrapu w z < 2 ^ w)%Z.
Proof. intros. apply Z.mod_pos_bound, pow2_pos. lia. Qed.

Lemma wrapu_small w z : (0 <= z < 2 ^ w -> wrapu w z = z)%Z.
Proof. apply Z.mod_small. Qed.

Lemma wraps_range w z : (1 <= w -> - 2 ^ (w - 1) <= wraps w z < 2 ^ (w - 1))%Z.
Proof.
  intros. unfold wraps. pose proof (pow2_split w ltac:(lia)).
  pose proof (Z.mod_pos_bound (z + 2 ^ (w - 1)) (2 ^ w) (pow2_pos w ltac:(lia))). lia.
Qed.

Lemma wraps_small w z : (1 <= w -> - 2 ^ (w - 1) <= z < 2 ^ (w - 1) -> wraps w z = z)%Z.
Proof.
  intros. unfold wraps. pose proof (pow2_split w ltac:(lia)).
  rewrite Z.mod_small; lia.
Qed.

Lemma testbit_above n p i : (0 <= n < 2 ^ p -> 0 <= p <= i -> Z.testbit n i = false)%Z.
Proof.
  intros. rewrite <- (Z.mod_small n (2 ^ p)) by lia. apply Z.mod_pow2_bits_high. lia.
Qed.

(** A non-negative number whose bits from [p] on are clear is below [2^p]. *)
Lemma bits_bound n p :
  (0 <= n -> 0 <= p -> (forall i, p <= i -> Z.testbit n i = false) -> n < 2 ^ p)%Z.
Proof.
  intros Hn Hp Hb. assert (n = n mod 2 ^ p)%Z as ->; [|apply Z.mod_pos_bound, pow2_pos; lia].
  apply Z.bits_inj'. intros i Hi. destruct (Z.lt_ge_cases i p).
  - by rewrite Z.mod_pow2_bits_low.
  - rewrite Z.mod_pow2_bits_high by lia. apply Hb. lia.
Qed.

Lemma testbit_lnot n i : (0 <= i -> Z.testbit (Z.lnot n) i = negb (Z.testbit n i))%Z.
Proof. apply Z.lnot_spec. Qed.

Lemma testbit_ones p i : (0 <= p -> 0 <= i -> Z.testbit (Z.ones p) i = (i <? p))%Z.
Proof.
  intros. destruct (Z.ltb_spec i p).
  - by apply Z.ones_spec_low.
  - by apply Z.ones_spec_high.
Qed.

Lemma testbit_pow2_sub1 p i : (0 <= p -> 0 <= i -> Z.testbit (2 ^ p - 1) i = (i <? p))%Z.
Proof. intros. rewrite <- testbit_ones by done. f_equal. rewrite Z.ones_equiv. lia. Qed.

Lemma testbit_mod_pow2 n p i :
  (0 <= p -> 0 <= i -> Z.testbit (n mod 2 ^ p) i = (i <? p) && Z.testbit n i)%Z.
Proof.
  intros. destruct (Z.ltb_spec i p); simpl.
  - by apply Z.mod_pow2_bits_low.
  - by apply Z.mod_pow2_bits_high.
Qed.

Lemma testbit_shiftl n k i :
  (0 <= i -> Z.testbit (Z.shiftl n k) i = (k <=? i) && Z.testbit n (i - k))%Z.
Proof.
  intros. rewrite Z.shiftl_spec by done. destruct (Z.leb_spec k i); simpl; [done|].
  apply Z.testbit_neg_r. lia.
Qed.

Lemma testbit_wrapu n p i :
  (0 <= p -> 0 <= i -> Z.testbit (wrapu p n) i = (i <? p) && Z.testbit n i)%Z.
Proof. apply testbit_mod_pow2. Qed.

#[export] Hint Rewrite Z.land_spec Z.lor_spec Z.lxor_spec Z.ldiff_spec Z.testbit_0_l : zbits.
#[export] Hint Rewrite testbit_lnot Z.shiftr_spec testbit_shiftl testbit_ones
  testbit_pow2_sub1 testbit_mod_pow2 testbit_wrapu using lia : zbits.

(** Bitwise equality: compare at every index, split on the index comparisons. *)
Ltac zbool_split :=
  repeat match goal with
  | |- context [(?a <? ?b)%Z] => destruct (Z.ltb_spec a b)
  | |- context [(?a <=? ?b)%Z] => destruct (Z.leb_spec a b)
  | |- context [(?a =? ?b)%Z] => destruct (Z.eqb_spec a b)
  end; simpl.

Ltac zbits :=
  apply Z.bits_inj'; intros ?i ?Hi; autorewrite with zbits; zbool_split;
  autorewrite with zbits.

(** Words side by side. *)
Lemma lor_shiftl_add a b w : (0 <= w -> 0 <= b < 2 ^ w -> Z.lor (Z.shiftl a w) b = a * 2 ^ w + b)%Z.
Proof.
  intros Hw Hb. assert (Hl : Z.land (Z.shiftl a w) b = 0%Z).
  { zbits; [|done]. rewrite (testbit_above b w) by lia. apply andb_false_r. }
  rewrite <- Z.shiftl_mul_pow2, <- Z.lxor_lor, Z.add_nocarry_lxor by done. done.
Qed.

Lemma land_ones_wrapu z w : (0 <= w -> Z.land z (2 ^ w - 1) = wrapu w z)%Z.
Proof.
  intros. unfold wrapu. rewrite <- Z.land_ones by done. by rewrite Z.ones_equiv, Z.sub_1_r.
Qed.

(** The result of an [int] operation; signed overflow is undefined. *)
Definition int_result (z : Z) : outcome Z :=
  if (- 2 ^ 31 <=? z)%Z && (z <? 2 ^ 31)%Z then oret z else Aborted "signed overflow".

Lemma int_result_Done z r ds : int_result z = Done r ds -> r = z /\ ds = [] /\ (- 2 ^ 31 <= z < 2 ^ 31)%Z.
Proof. unfold int_result. destruct (_ && _) eqn:E; [|done].
  intros [-> ->]%oret_Done. apply andb_true_iff in E as [?%Z.leb_le ?%Z.ltb_lt]. auto.
Qed.
