(* ===== verification/Gmp.v ===== *)
(** * Arbitrary-precision helpers: [lib/gmputil.h], [lib/gmputil.cpp]

    [mpz_class] values are [Z], with GMP's arithmetic operators as those of
    [Z].  GMP's bit scans, population count and conversions to machine
    integers are an interface ([Mpz]) with their documented behaviour as laws ([MpzLaws]); an
    executable instance witnesses that the laws can hold. *)
From Stdlib Require Import Ascii.
From S2P Require Import Prelude.
Local Open Scope Z_scope.

(** ** The interface of GMP *)
Fixpoint pos_popcount (p : positive) : Z :=
  match p with
  | xH => 1
  | xO p => pos_popcount p
  | xI p => 1 + pos_popcount p
  end.
(** The number of 1 bits of a non-negative integer. *)
Definition popcount (z : Z) : Z :=
  match z with Zpos p => pos_popcount p | _ => 0 end.

Class Mpz := {
  mpz_scan1 : Z -> Z -> Z;
  mpz_scan0 : Z -> Z -> Z;
  mpz_popcount : Z -> Z;
  mpz_get_si : Z -> Z;
  mpz_get_ui : Z -> Z
}.

(** [b] is the index of the first bit of [v], from [s] on, that equals [x]. *)
Definition first_bit (v s : Z) (x : bool) (b : Z) : Prop :=
  s <= b /\ Z.testbit v b = x /\ forall i, s <= i < b -> Z.testbit v i = negb x.

Class MpzLaws `{Mpz} : Prop := {
  mpz_scan1_law v s :
    0 <= v -> 0 <= s -> (exists i, s <= i /\ Z.testbit v i = true) ->
    first_bit v s true (mpz_scan1 v s);
  mpz_scan0_law v s :
    0 <= v -> 0 <= s -> first_bit v s false (mpz_scan0 v s);
  mpz_popcount_law v : 0 <= v -> mpz_popcount v = popcount v;
  mpz_get_si_law v : - 2 ^ 63 <= v < 2 ^ 63 -> mpz_get_si v = v;
  mpz_get_ui_law v : 0 <= v < 2 ^ 64 -> mpz_get_ui v = v
}.

(** ** The operations of [gmputil.cpp] *)
Module Util.
Definition shift_left (v bits : Z) : Z :=
  let exp := 2 ^ bits in v * exp.

Definition shift_right (v bits : Z) : Z := v / 2 ^ bits.

(** Returns the low bits; the reference argument becomes the second
    component. *)
Definition ripBits (value bits : Z) : Z * Z :=
  let last := value mod 2 ^ bits in
  let rest := value / 2 ^ bits in
  (last, rest).

Definition mask (bits : Z) : Z :=
  let result := shift_left 1 bits in result - 1.

(** [m + 1] is computed on [unsigned]. *)
Definition maskFromSlice (m l : Z) : outcome Z :=
  if m <? l then Aborted "wrong argument order in maskFromSlice"
  else oret (mask (wrapu 32 (m + 1)) - mask l).

Record BitRange := { lowIndex : Z; highIndex : Z; value : Z }.

Definition findOnes `{Mpz} (v : Z) : outcome BitRange :=
  if negb (v =? 0) then
    let low := wrapu 32 (mpz_scan1 v 0) in
    let high := wrapu 32 (mpz_scan0 v low - 1) in
    match maskFromSlice high low with
    | Done m ds => Done {| lowIndex := low; highIndex := high; value := m |} ds
    | Aborted w => Aborted w
    end
  else
    oret {| lowIndex := wrapu 32 (-1); highIndex := wrapu 32 (-1); value := 0 |}.

(** The digit value that [cvtInt]'s switch gives a character: [Some None]
    for the ignored underscore, [None] for the default case. *)
Definition cvt_digit (c : ascii) : option (option Z) :=
  let n := Z.of_nat (nat_of_ascii c) in
  if (48 <=? n) && (n <=? 57) then Some (Some (n - 48))
  else if (97 <=? n) && (n <=? 102) then Some (Some (n - 97 + 10))
  else if (65 <=? n) && (n <=? 70) then Some (Some (n - 65 + 10))
  else if n =? 95 then Some None
  else None.

Fixpoint cvtInt_loop (rv : Z) (s : string) (base : Z) : outcome Z :=
  match s with
  | EmptyString => oret rv
  | String c s =>
      match cvt_digit c with
      | Some (Some d) => cvtInt_loop (rv * base + d) s base
      | Some None => cvtInt_loop rv s base
      | None => Aborted "Unexpected character"
      end
  end.
Definition cvtInt (s : string) (base : Z) : outcome Z := cvtInt_loop 0 s base.
End Util.

(** [bitcount]: [while (v != 0) { v &= v-1; ++rv; }] on an [unsigned]
    counter; each turn clears one bit, so the bit length is enough fuel. *)
Fixpoint bitcount_loop (fuel : nat) (v rv : Z) : option Z :=
  if v =? 0 then Some rv
  else match fuel with
       | O => None
       | S fuel => bitcount_loop fuel (Z.land v (v - 1)) (wrapu 32 (rv + 1))
       end.
Definition bitcount (v : Z) : outcome Z :=
  if v <? 0 then Aborted "bitcount of negative number"
  else match bitcount_loop (Z.to_nat (Z.log2 v + 1)) v 0 with
       | Some rv => oret rv
       | None => Aborted "fuel"
       end.

Definition ffs `{Mpz} (v : Z) : Z := if v =? 0 then -1 else mpz_scan1 v 0.

(** [floor_log2]: [while (v > 0) { rv++; v /= 2; }]. *)
Fixpoint floor_log2_loop (fuel : nat) (v rv : Z) : option Z :=
  if 0 <? v then
    match fuel with
    | O => None
    | S fuel => floor_log2_loop fuel (Z.quot v 2) (rv + 1)
    end
  else Some rv.
Definition floor_log2 (v : Z) : option Z :=
  floor_log2_loop (Z.to_nat (Z.log2 v + 1)) v (-1).

(** ** Lemmas *)
Lemma popcount_double z : popcount (2 * z) = popcount z.
Proof. by destruct z. Qed.

Lemma popcount_succ_double z : 0 <= z -> popcount (2 * z + 1) = 1 + popcount z.
Proof. by destruct z. Qed.

Lemma popcount_nonneg z : 0 <= popcount z.
Proof. destruct z as [|p|p]; simpl; [lia| |lia]. induction p; simpl; lia. Qed.

Lemma popcount_pos z : 0 < z -> 0 < popcount z.
Proof. destruct z as [|p|p]; simpl; [lia| |lia]. intros _. induction p; simpl; lia. Qed.

Lemma land_double_succ a b : Z.land (2 * a) (2 * b + 1) = 2 * Z.land a b.
Proof.
  apply Z.bits_inj'. intros i Hi. rewrite Z.land_spec.
  destruct (Z.eq_dec i 0) as [->|]; [by rewrite !Z.testbit_even_0|].
  replace i with (Z.succ (i - 1)) by lia.
  rewrite Z.testbit_odd_succ, !Z.testbit_even_succ by lia. by rewrite Z.land_spec.
Qed.

Lemma land_succ_double a b : Z.land (2 * a + 1) (2 * b) = 2 * Z.land a b.
Proof. rewrite Z.land_comm, land_double_succ. by rewrite Z.land_comm. Qed.

(** [v & (v-1)] clears exactly one bit. *)
Lemma popcount_clear_low z :
  0 < z -> popcount (Z.land z (z - 1)) = popcount z - 1.
Proof.
  intros Hz. assert (0 <= z) as Hz0 by lia. revert Hz.
  induction z as [z IH] using (well_founded_induction (Z.lt_wf 0)). intros Hz.
  destruct (Z.Even_or_Odd z) as [[k ->]|[k ->]].
  - replace (2 * k - 1) with (2 * (k - 1) + 1) by lia.
    rewrite land_double_succ, !popcount_double. apply IH; lia.
  - replace (2 * k + 1 - 1) with (2 * k) by lia.
    rewrite land_succ_double, popcount_double, popcount_succ_double, Z.land_diag by lia. lia.
Qed.

Lemma popcount_le_log2 z : 0 < z -> popcount z <= Z.log2 z + 1.
Proof.
  intros Hz. assert (0 <= z) as Hz0 by lia. revert Hz.
  induction z as [z IH] using (well_founded_induction (Z.lt_wf 0)). intros Hz.
  destruct (Z.Even_or_Odd z) as [[k ->]|[k ->]].
  - rewrite popcount_double, Z.log2_double by lia. specialize (IH k). lia.
  - destruct (decide (k = 0)) as [->|]; [done|].
    rewrite popcount_succ_double, Z.log2_succ_double by lia. specialize (IH k). lia.
Qed.

Lemma bitcount_loop_spec fuel v rv :
  0 <= v -> 0 <= rv < 2 ^ 32 -> popcount v <= Z.of_nat fuel ->
  bitcount_loop fuel v rv = Some (wrapu 32 (rv + popcount v)).
Proof.
  revert v rv. induction fuel as [|fuel IH]; intros v rv Hv Hrv Hf; simpl;
    destruct (Z.eqb_spec v 0) as [->|Hne].
  - by rewrite Z.add_0_r, wrapu_small.
  - pose proof (popcount_pos v). lia.
  - by rewrite Z.add_0_r, wrapu_small.
  - rewrite IH.
    + rewrite popcount_clear_low by lia. f_equal. unfold wrapu.
      rewrite Z.add_mod_idemp_l by lia. f_equal. lia.
    + apply Z.land_nonneg. lia.
    + apply wrapu_range. lia.
    + rewrite popcount_clear_low by lia. lia.
Qed.

Lemma floor_log2_loop_spec fuel v rv :
  v < 2 ^ Z.of_nat fuel ->
  floor_log2_loop fuel v rv = Some (if 0 <? v then rv + 1 + Z.log2 v else rv).
Proof.
  revert v rv. induction fuel as [|fuel IH]; intros v rv Hv.
  - simpl in *. destruct (Z.ltb_spec 0 v); [lia|done].
  - cbn [floor_log2_loop]. destruct (Z.ltb_spec 0 v); [|done].
    rewrite Nat2Z.inj_succ, Z.pow_succ_r in Hv by lia.
    rewrite Z.quot_div_nonneg by lia. rewrite IH by (apply Z.div_lt_upper_bound; lia).
    f_equal. destruct (Z.ltb_spec 0 (v / 2)) as [Hd|Hd].
    + rewrite <- (Z.div_exact v 2) at 1 || idtac.
      assert (Z.log2 v = Z.succ (Z.log2 (v / 2))) as ->; [|lia].
      pose proof (Z.div_mod v 2 ltac:(lia)). pose proof (Z.mod_pos_bound v 2 ltac:(lia)).
      assert (v mod 2 = 0 \/ v mod 2 = 1) as [Hm|Hm] by lia; rewrite Hm in *.
      * rewrite H0 at 1. rewrite Z.add_0_r. apply Z.log2_double. lia.
      * rewrite H0 at 1. apply Z.log2_succ_double. lia.
    + assert (v = 1) as -> by (pose proof (Z.div_le_lower_bound v 2 1); lia). simpl. lia.
Qed.

Lemma shift_left_shiftl v n : 0 <= n -> Util.shift_left v n = Z.shiftl v n.
Proof. intros. unfold Util.shift_left. by rewrite Z.shiftl_mul_pow2. Qed.

Lemma shift_right_shiftr v n : 0 <= n -> Util.shift_right v n = Z.shiftr v n.
Proof. intros. unfold Util.shift_right. by rewrite Z.shiftr_div_pow2. Qed.

Lemma mask_ones n : 0 <= n -> Util.mask n = 2 ^ n - 1.
Proof. intros. unfold Util.mask, Util.shift_left. lia. Qed.

Lemma first_bit_unique v s x a b : first_bit v s x a -> first_bit v s x b -> a = b.
Proof.
  intros (H1 & H2 & H3) (H4 & H5 & H6).
  destruct (Z.lt_trichotomy a b) as [Hl|[->|Hl]]; [|done|].
  - assert (Z.testbit v a = negb x) by (apply H6; lia). destruct x; simpl in *; congruence.
  - assert (Z.testbit v b = negb x) by (apply H3; lia). destruct x; simpl in *; congruence.
Qed.

(** ** The executable instance *)
Fixpoint scan_from (fuel : nat) (v s : Z) (x : bool) : Z :=
  match fuel with
  | O => s
  | S fuel => if Bool.eqb (Z.testbit v s) x then s else scan_from fuel v (s + 1) x
  end.
#[export] Instance mpz_ref : Mpz := {
  mpz_scan1 v s := scan_from (Z.to_nat (Z.log2 v + 2)) v s true;
  mpz_scan0 v s := scan_from (Z.to_nat (Z.log2 v + 2)) v s false;
  mpz_popcount := popcount;
  mpz_get_si := wraps 64;
  mpz_get_ui := wrapu 64
}.

Lemma scan_from_spec fuel v s x :
  (exists i, s <= i < s + Z.of_nat fuel /\ Z.testbit v i = x) ->
  first_bit v s x (scan_from fuel v s x).
Proof.
  revert s. induction fuel as [|fuel IH]; intros s (i & Hi & Hx); [lia|]. simpl.
  destruct (Bool.eqb (Z.testbit v s) x) eqn:E.
  - apply Bool.eqb_prop in E. split; [lia|split; [done|lia]].
  - apply Bool.eqb_false_iff in E.
    destruct (IH (s + 1)) as (H1 & H2 & H3).
    { exists i. split; [|done]. assert (i <> s) by (intros ->; done). lia. }
    split; [lia|split; [done|]]. intros j Hj.
    destruct (decide (j = s)) as [->|]; [by destruct (Z.testbit v s), x|apply H3; lia].
Qed.

#[export] Instance mpz_ref_laws : @MpzLaws mpz_ref.
Proof.
  split; simpl.
  - intros v s Hv Hs (i & Hi & Hb). apply scan_from_spec. exists i. split; [|done].
    destruct (Z.lt_ge_cases (Z.log2 v) i).
    + by rewrite Z.bits_above_log2 in Hb by lia.
    + pose proof (Z.log2_nonneg v). lia.
  - intros v s Hv Hs. apply scan_from_spec. exists (Z.max s (Z.log2 v + 1)).
    pose proof (Z.log2_nonneg v).
    split; [|apply Z.bits_above_log2; lia].
    destruct (Z.max_spec s (Z.log2 v + 1)) as [[? ->]|[? ->]]; lia.
  - done.
  - intros v Hv. apply wraps_small; lia.
  - intros v Hv. apply wrapu_small; lia.
Qed.

(** ** Properties *)

Lemma maskFromSlice_ok m l :
  0 <= l <= m -> m < 2 ^ 32 - 1 ->
  exists z, Util.maskFromSlice m l = Done z [] /\
    forall i, 0 <= i -> Z.testbit z i = (l <=? i) && (i <=? m).
Proof.
  intros Hl Hm. unfold Util.maskFromSlice.
  destruct (Z.ltb_spec m l); [lia|]. eexists. split; [done|]. intros i Hi.
  rewrite wrapu_small, !mask_ones by lia.
  replace (2 ^ (m + 1) - 1 - (2 ^ l - 1)) with (Z.shiftl (2 ^ (m + 1 - l) - 1) l).
  - rewrite testbit_shiftl by done. destruct (Z.leb_spec l i); simpl; [|done].
    rewrite testbit_pow2_sub1 by lia.
    destruct (Z.ltb_spec (i - l) (m + 1 - l)), (Z.leb_spec i m); lia || done.
  - rewrite Z.shiftl_mul_pow2, Z.mul_sub_distr_r, <- Z.pow_add_r by lia.
    replace (m + 1 - l + l) with (m + 1) by lia. lia.
Qed.

(** The selected slice as a mask: exactly the bits from [l] to [m]. *)
Theorem maskFromSlice_bits m l :
  0 <= l -> m < 2 ^ 32 - 1 ->
  (m < l -> exists w, Util.maskFromSlice m l = Aborted w) /\
  (l <= m -> exists z, Util.maskFromSlice m l = Done z [] /\
     forall i, 0 <= i -> Z.testbit z i = (l <=? i) && (i <=? m)).
Proof.
  intros Hl Hm. split; intros H; [|apply maskFromSlice_ok; lia].
  unfold Util.maskFromSlice. destruct (Z.ltb_spec m l); [eauto|lia].
Qed.

Lemma maskFromSlice_bits_witness :
  exists z, Util.maskFromSlice 5 2 = Done z [] /\
    forall i, 0 <= i -> Z.testbit z i = (2 <=? i) && (i <=? 5).
Proof. apply (maskFromSlice_bits 5 2); lia. Defined.

(** [ripBits] splits a value: the parts recompose it, and the bits taken off
    are below the cut. *)
Theorem ripBits_recompose v n :
  0 <= n ->
  let '(last, rest) := Util.ripBits v n in
  v = Z.lor (Z.shiftl rest n) last /\ 0 <= last < 2 ^ n /\ rest = Util.shift_right v n.
Proof.
  intros Hn. unfold Util.ripBits. split; [|split; [|done]].
  - apply Z.bits_inj'. intros i Hi.
    rewrite Z.lor_spec, testbit_shiftl, testbit_mod_pow2 by done.
    destruct (Z.leb_spec n i), (Z.ltb_spec i n); simpl; try lia; [|done].
    rewrite Z.div_pow2_bits, orb_false_r by lia. f_equal. lia.
  - apply Z.mod_pos_bound, pow2_pos. lia.
Qed.

Lemma ripBits_recompose_witness :
  0 <= 3 /\ let '(last, rest) := Util.ripBits (-13) 3 in
  -13 = Z.lor (Z.shiftl rest 3) last /\ 0 <= last < 2 ^ 3 /\ rest = Util.shift_right (-13) 3.
Proof. split; [lia|]. apply (ripBits_recompose (-13) 3). lia. Defined.

(** [bitcount] counts the 1 bits (on its 32-bit counter), aborts exactly on
    negative numbers, and its loop ends. *)
Theorem bitcount_spec v :
  bitcount v = if v <? 0 then Aborted "bitcount of negative number"
               else Done (wrapu 32 (popcount v)) [].
Proof.
  unfold bitcount. destruct (Z.ltb_spec v 0); [done|].
  rewrite bitcount_loop_spec; [done|lia|lia|].
  destruct (decide (v = 0)) as [->|]; [done|].
  pose proof (popcount_le_log2 v). pose proof (Z.log2_nonneg v). lia.
Qed.

(** [floor_log2] is the position of the highest 1 bit, -1 when there is
    none; its loop ends. *)
Theorem floor_log2_spec v :
  floor_log2 v = Some (if 0 <? v then Z.log2 v else -1).
Proof.
  unfold floor_log2. rewrite floor_log2_loop_spec.
  - destruct (Z.ltb_spec 0 v); f_equal; lia.
  - pose proof (Z.log2_nonneg v). rewrite Z2Nat.id by lia.
    destruct (Z.lt_ge_cases 0 v); [apply Z.log2_spec; lia|].
    pose proof (pow2_pos (Z.log2 v + 1)). lia.
Qed.

Section scans.
Context `{MpzLaws}.

Lemma first_bit_low v :
  0 < v -> first_bit v 0 true (mpz_scan1 v 0).
Proof.
  intros Hv. apply mpz_scan1_law; [lia|lia|]. exists (Z.log2 v).
  split; [apply Z.log2_nonneg|]. by apply Z.bit_log2.
Qed.

Lemma first_bit_le_log2 v : 0 < v -> mpz_scan1 v 0 <= Z.log2 v.
Proof.
  intros Hv. destruct (first_bit_low v Hv) as (? & Hb & _).
  destruct (Z.le_gt_cases (mpz_scan1 v 0) (Z.log2 v)); [done|].
  by rewrite Z.bits_above_log2 in Hb by lia.
Qed.

Lemma scan0_le v s : 0 < v -> 0 <= s <= Z.log2 v -> mpz_scan0 v s <= Z.log2 v + 1.
Proof.
  intros Hv Hs. destruct (mpz_scan0_law v s) as (? & Hb & Hlow); [lia|lia|].
  destruct (Z.le_gt_cases (mpz_scan0 v s) (Z.log2 v + 1)); [done|].
  assert (Hc : Z.testbit v (Z.log2 v + 1) = true) by (apply Hlow; lia).
  by rewrite Z.bits_above_log2 in Hc by lia.
Qed.

(** [findOnes] of a positive value: the lowest maximal run of 1 bits, with
    its mask. *)
Theorem findOnes_spec v :
  0 < v -> Z.log2 v < 2 ^ 31 ->
  exists r, Util.findOnes v = Done r [] /\
    let l := Util.lowIndex r in let h := Util.highIndex r in
    l <= h /\ (forall i, 0 <= i < l -> Z.testbit v i = false) /\
    (forall i, l <= i <= h -> Z.testbit v i = true) /\
    Z.testbit v (h + 1) = false /\
    (forall i, 0 <= i -> Z.testbit (Util.value r) i = (l <=? i) && (i <=? h)).
Proof.
  intros Hv Hlog. unfold Util.findOnes.
  destruct (Z.eqb_spec v 0); [lia|]. simpl.
  destruct (first_bit_low v Hv) as (Hl0 & Hl1 & Hl2). pose proof (first_bit_le_log2 v Hv).
  set (l := mpz_scan1 v 0) in *.
  rewrite (wrapu_small 32 l) by lia.
  destruct (mpz_scan0_law v l) as (Hh0 & Hh1 & Hh2); [lia|lia|].
  pose proof (scan0_le v l Hv ltac:(lia)). set (h := mpz_scan0 v l) in *.
  assert (h <> l) by (intros He; congruence).
  rewrite wrapu_small by lia.
  destruct (maskFromSlice_ok (h - 1) l) as (z & -> & Hz); [lia|lia|]. eexists. split; [done|]. simpl.
  split; [lia|]. split; [by apply Hl2|]. split; [intros; apply Hh2; lia|].
  split; [by replace (h - 1 + 1) with h by lia|]. intros i Hi. apply Hz. lia.
Qed.
End scans.

Lemma findOnes_spec_witness :
  exists r, @Util.findOnes mpz_ref 12 = Done r [] /\
      let l := Util.lowIndex r in let h := Util.highIndex r in
      l <= h /\ (forall i, 0 <= i < l -> Z.testbit 12 i = false) /\
      (forall i, l <= i <= h -> Z.testbit 12 i = true) /\
      Z.testbit 12 (h + 1) = false /\
      (forall i, 0 <= i -> Z.testbit (Util.value r) i = (l <=? i) && (i <=? h)).
Proof. apply (findOnes_spec 12); [lia|vm_compute; reflexivity]. Defined.

(** ** Positional notation *)

(** The reference printer: digits of [n] in [base], most significant first,
    in front of [acc]; [up] selects the capital letters. *)
Definition digit_char (up : bool) (d : Z) : ascii :=
  ascii_of_nat (Z.to_nat (if d <? 10 then 48 + d else (if up then 65 else 97) + d - 10)).
Fixpoint to_base (fuel : nat) (up : bool) (base n : Z) (acc : string) : string :=
  match fuel with
  | O => acc
  | S fuel =>
      let acc := String (digit_char up (n mod base)) acc in
      if n / base =? 0 then acc else to_base fuel up base (n / base) acc
  end.

Lemma cvt_digit_char up d :
  0 <= d < 16 -> Util.cvt_digit (digit_char up d) = Some (Some d).
Proof.
  intros Hd.
  assert (Hin : In d [0;1;2;3;4;5;6;7;8;9;10;11;12;13;14;15]) by (simpl; lia).
  repeat destruct Hin as [<-|Hin]; try (by destruct up); done.
Qed.

Lemma cvtInt_loop_to_base fuel up base n acc :
  2 <= base <= 16 -> 0 <= n < base ^ Z.of_nat fuel -> (0 < fuel)%nat ->
  Util.cvtInt_loop 0 (to_base fuel up base n acc) base = Util.cvtInt_loop n acc base.
Proof.
  intros Hb. revert n acc. induction fuel as [|fuel IH]; intros n acc Hn Hf; [lia|].
  cbn [to_base]. pose proof (Z.mod_pos_bound n base ltac:(lia)) as Hm.
  pose proof (Z.div_mod n base ltac:(lia)) as Hdm.
  rewrite Nat2Z.inj_succ, Z.pow_succ_r in Hn by lia.
  destruct (Z.eqb_spec (n / base) 0) as [Hz|Hz].
  - cbn [Util.cvtInt_loop]. rewrite cvt_digit_char by lia. f_equal. lia.
  - destruct fuel as [|fuel].
    { exfalso. apply Hz. apply Z.div_small. simpl in Hn. lia. }
    rewrite IH; [|split; [apply Z.div_pos; lia|apply Z.div_lt_upper_bound; lia]|lia].
    cbn [Util.cvtInt_loop]. rewrite cvt_digit_char by lia. f_equal. lia.
Qed.

(** [cvtInt] reads back what positional notation writes, in every base up to
    sixteen, with small or capital letters. *)
Theorem cvtInt_roundtrip up base n :
  2 <= base <= 16 -> 0 <= n ->
  Util.cvtInt (to_base (S (Z.to_nat (Z.log2 n))) up base n "") base = Done n [].
Proof.
  intros Hb Hn. unfold Util.cvtInt. rewrite cvtInt_loop_to_base; [done|done| |lia].
  split; [done|]. destruct (decide (n = 0)) as [->|]; [simpl; lia|].
  pose proof (Z.log2_nonneg n). pose proof (Z.log2_spec n ltac:(lia)).
  rewrite Nat2Z.inj_succ, Z2Nat.id by lia.
  eapply Z.lt_le_trans; [apply Z.log2_spec; lia|]. apply Z.pow_le_mono_l. lia.
Qed.

Lemma cvtInt_roundtrip_witness :
  Util.cvtInt "BEEF" 16 = Done 48879 [] /\ Util.cvtInt "be_ef" 16 = Done 48879 [].
Proof.
  split; [|reflexivity].
  exact (cvtInt_roundtrip true 16 48879 ltac:(lia) ltac:(lia)).
Defined.
