(* ===== verification/Ir.v ===== *)
(** * The expression IR: [ir/type.def], [ir/expression.def], [ir/expression.cpp]

    The types and expressions the folding passes work on, [IR::Constant] with
    its overflow handling and conversions, and the meaning of expressions
    (the language's semantics, independent of the passes). *)
From S2P Require Import Prelude Gmp.
Local Open Scope Z_scope.
Local Open Scope flexplan_scope.

(** ** Types *)
Inductive Direction := DirNone | DirIn | DirOut | DirInOut.
#[global] Instance Direction_eq_dec : EqDecision Direction.
Proof. solve_decision. Defined.
Inductive Type_ :=
| Type_Unknown
| Type_InfInt
| Type_Boolean
| Type_Bits (size : Z) (isSigned : bool)
| Type_Stack (elementType : Type_) (size : Z)
| Type_StructLike (isHeader : bool) (fields : list (string * Type_))
| Type_Tuple (components : list Type_)
| Type_Enum (name : string)
| Type_SerEnum (name : string)
| Type_Newtype (name : string).

(** [width_bits]: the base class answers 0. *)
Fixpoint width_bits (t : Type_) : Z :=
  match t with
  | Type_Boolean => 1
  | Type_Bits size _ => size
  | Type_StructLike _ fields => foldr (fun f n => width_bits f.2 + n) 0 fields
  | Type_Tuple components => foldr (fun c n => width_bits c + n) 0 components
  | _ => 0
  end.

Definition is_InfInt (t : Type_) : bool :=
  match t with Type_InfInt => true | _ => false end.
Definition to_Bits (t : Type_) : option (Z * bool) :=
  match t with Type_Bits w s => Some (w, s) | _ => None end.

(** ** Expressions *)
Inductive unop := Neg | Cmpl | LNot.
Inductive binop :=
| Mul | Div | Mod | Add | Sub | AddSat | SubSat | Shl | Shr
| Equ | Neq | Lss | Leq | Grt | Geq | BAnd | BOr | BXor | LAnd | LOr
| Concat | Range | Mask.

#[global] Instance unop_eq_dec : EqDecision unop.
Proof. solve_decision. Defined.
#[global] Instance binop_eq_dec : EqDecision binop.
Proof. solve_decision. Defined.

(** The [type] argument of a node is its [type] field. *)
Inductive Expression :=
| Constant (type : Type_) (value base : Z)
| BoolLiteral (value : bool)
| PathExpression (type : Type_) (path : string)
| TypeNameExpression (type : Type_)
| Operation_Unary (op : unop) (type : Type_) (expr : Expression)
| Operation_Binary (op : binop) (type : Type_) (left right : Expression)
| Slice (type : Type_) (e0 e1 e2 : Expression)
| Mux (type : Type_) (e0 e1 e2 : Expression)
| Member (type : Type_) (expr : Expression) (member : string)
| Cast (destType : Type_) (expr : Expression)
| ListExpression (components : list Expression)
| StructInitializerExpression (components : list (string * Expression))
| DefaultExpression.

(** [Operation_Relation]: the six comparisons. *)
Definition is_relation (op : binop) : bool :=
  match op with Equ | Neq | Lss | Leq | Grt | Geq => true | _ => false end.

Definition type_of (e : Expression) : Type_ :=
  match e with
  | Constant t _ _ | PathExpression t _ | TypeNameExpression t
  | Operation_Unary _ t _ | Operation_Binary _ t _ _ | Slice t _ _ _
  | Mux t _ _ _ | Member t _ _ => t
  | Cast t _ => t
  | BoolLiteral _ => Type_Boolean
  | ListExpression _ | StructInitializerExpression _ | DefaultExpression => Type_Unknown
  end.

(** ** [IR::Constant] *)

(** [IR::Constant::handleOverflow]: the value the constructor stores. *)
Definition handleOverflow (type : Type_) (value : Z) (noWarning : bool) : outcome Z :=
  match type with
  | Type_InfInt => oret value
  | Type_Bits width isSigned =>
      let mask := Util.mask width in
      if isSigned then
        let max := Z.shiftl 1 (width - 1) - 1 in
        let min := - Z.shiftl 1 (width - 1) in
        if (value <? min) || (max <? value) then
          let masked := Z.land value mask in
          Done (if max <? masked then masked - Z.shiftl 1 width else masked)
               (if noWarning then [] else [DWarning "signed value does not fit"])
        else oret value
      else
        let ds :=
          if noWarning then []
          else if value <? 0 then [DWarning "negative value with unsigned type"]
          else if negb (Z.land value mask =? value) then [DWarning "value does not fit"]
          else [] in
        let masked := Z.land value mask in
        if masked <? 0 then Aborted "Negative value after masking"
        else Done masked ds
  | _ => Aborted "Unexpected type for constant"
  end.

(** The typed constructors of [IR::Constant]. *)
Definition mkConstant (type : Type_) (value base : Z) (noWarning : bool) : outcome Expression :=
  do v <- handleOverflow type value noWarning; oret (Constant type v base).
(** The untyped ones ([Type_InfInt], no overflow handling). *)
Definition intConstant (value : Z) : Expression := Constant Type_InfInt value 10.

Definition fitsInt (v : Z) : bool := (- 2 ^ 31 <=? v) && (v <? 2 ^ 31).
Definition fitsUint (v : Z) : bool := (0 <=? v) && (v <? 2 ^ 32).

(** [asInt], [asUnsigned]: out of range an error is reported and the
    conversion goes on with what GMP returns, narrowed to 32 bits. *)
Definition asInt `{Mpz} (v : Z) : outcome Z :=
  Done (wraps 32 (mpz_get_si v)) (if fitsInt v then [] else [DError "Value too large for int"]).
Definition asUnsigned `{Mpz} (v : Z) : outcome Z :=
  Done (wrapu 32 (mpz_get_ui v))
       (if fitsUint v then [] else [DError "Value too large for unsigned int"]).

(** ** Constructors of the operation nodes

    They compute a missing [type].  Types are compared by address: sized types
    and [bool] are shared, every [Type_InfInt] is a new object. *)
Definition same_address (t1 t2 : Type_) : bool :=
  match t1, t2 with
  | Type_Bits w1 s1, Type_Bits w2 s2 => (w1 =? w2) && Bool.eqb s1 s2
  | Type_Boolean, Type_Boolean | Type_Unknown, Type_Unknown => true
  | _, _ => false
  end.
Definition mkUnary (op : unop) (x : Expression) : Expression :=
  Operation_Unary op (type_of x) x.
Definition mkBinary (op : binop) (l r : Expression) : Expression :=
  Operation_Binary op (if same_address (type_of l) (type_of r) then type_of l else Type_Unknown) l r.
Definition mkRelation (op : binop) (l r : Expression) : Expression :=
  Operation_Binary op Type_Boolean l r.
Definition mkShift (op : binop) (l r : Expression) : Expression :=
  Operation_Binary op (type_of l) l r.
(** The operands' widths replace the given type. *)
Definition mkConcat (type : Type_) (l r : Expression) : Expression :=
  Operation_Binary Concat
    match to_Bits (type_of l), to_Bits (type_of r) with
    | Some (lw, ls), Some (rw, _) => Type_Bits (lw + rw) ls
    | _, _ => type
    end l r.
(** [Slice(Expression a, int hi, int lo)] *)
Definition mkSlice (a : Expression) (hi lo : Z) : Expression :=
  Slice (Type_Bits (hi - lo + 1) false) a (intConstant hi) (intConstant lo).

(** [Slice::getH], [Slice::getL]: the index must be a literal. *)
Definition getIndex `{Mpz} (e : Expression) : outcome Z :=
  match e with Constant _ v _ => asUnsigned v | _ => Aborted "null dereference" end.

(** [Slice::make(e, lo, hi)] *)
Definition Slice_make `{Mpz} (e : Expression) (lo hi : Z) : outcome Expression :=
  match e with
  | Constant _ v _ =>
      let width := wrapu 32 (hi - lo + 1) in
      if 32 <=? width then Aborted "shift past the width of unsigned"
      else oret (Constant (Type_Bits width false)
                   (Z.land (Util.shift_right v lo) (wrapu 32 (Z.shiftl 1 width - 1))) 10)
  | _ =>
      let src_width := wrapu 32 (width_bits (type_of e)) in
      if negb (src_width =? 0) && (src_width <=? lo)
      then mkConstant (Type_Bits (wrapu 32 (hi - lo + 1)) false) 0 10 false
      else
        let hi := if negb (src_width =? 0) && (src_width <=? hi) then src_width - 1 else hi in
        if negb (src_width =? 0) && (lo =? 0) && (hi =? src_width - 1) then oret e
        else
          match e with
          | Slice _ e0 e1 e2 =>
              do l <- getIndex e2;
              do h <- getIndex e1;
              let lo := wrapu 32 (lo + l) in
              let hi := wrapu 32 (hi + l) in
              if (l <=? lo) && (hi <=? h) then oret (mkSlice e0 hi lo)
              else Aborted "MakeSlice slice on slice type mismatch"
          | _ => oret (mkSlice e hi lo)
          end
  end.

(** [Member::lsb]: the widths of the fields after the member, from the last
    one back ([rbegin]). *)
Fixpoint lsb_loop (rfields : list (string * Type_)) (member : string) (rv : Z) : outcome Z :=
  match rfields with
  | [] => Aborted "past the end"
  | (n, t) :: rest =>
      if String.eqb n member then oret rv
      else match rest with
           | [] => Aborted "No field"
           | _ => lsb_loop rest member (rv + width_bits t)
           end
  end.
Definition Member_lsb (fields : list (string * Type_)) (member : string) : outcome Z :=
  lsb_loop (rev fields) member 0.
Definition Member_msb (fields : list (string * Type_)) (member : string) (type : Type_) : outcome Z :=
  do l <- Member_lsb fields member; oret (l + width_bits type - 1).

(** ** Meaning of expressions

    Values carry their type.  Arithmetic is strict in its operands' types, as
    it is after type inference has inserted the casts. *)
Inductive value := VBool (b : bool) | VInt (t : Type_) (z : Z).

Definition wrap (t : Type_) (z : Z) : Z :=
  match t with
  | Type_Bits w true => wraps w z
  | Type_Bits w false => wrapu w z
  | _ => z
  end.

(** Integer types with a sensible width. *)
Definition wf_int (t : Type_) : bool :=
  match t with
  | Type_InfInt => true
  | Type_Bits w _ => 1 <=? w
  | _ => false
  end.

Definition in_range (t : Type_) (z : Z) : bool :=
  match t with
  | Type_InfInt => true
  | Type_Bits w true => (- 2 ^ (w - 1) <=? z) && (z <? 2 ^ (w - 1))
  | Type_Bits w false => (0 <=? z) && (z <? 2 ^ w)
  | _ => false
  end.

Definition same_type (t1 t2 : Type_) : bool :=
  match t1, t2 with
  | Type_InfInt, Type_InfInt => true
  | Type_Bits w1 s1, Type_Bits w2 s2 => (w1 =? w2) && Bool.eqb s1 s2
  | _, _ => false
  end.

(** Saturation to the range of a sized type. *)
Definition clamp (t : Type_) (z : Z) : option Z :=
  match t with
  | Type_Bits w true => Some (Z.max (- 2 ^ (w - 1)) (Z.min z (2 ^ (w - 1) - 1)))
  | Type_Bits w false => Some (Z.max 0 (Z.min z (2 ^ w - 1)))
  | _ => None
  end.

Definition sem_arith (op : binop) (t : Type_) (a b : Z) : option value :=
  match op with
  | Add => Some (VInt t (wrap t (a + b)))
  | Sub => Some (VInt t (wrap t (a - b)))
  | Mul => Some (VInt t (wrap t (a * b)))
  | AddSat => VInt t <$> clamp t (a + b)
  | SubSat => VInt t <$> clamp t (a - b)
  | Div => if (0 <=? a) && (0 <? b) then Some (VInt t (a / b)) else None
  | Mod => if (0 <=? a) && (0 <? b) then Some (VInt t (a mod b)) else None
  | BAnd => Some (VInt t (wrap t (Z.land a b)))
  | BOr => Some (VInt t (wrap t (Z.lor a b)))
  | BXor => Some (VInt t (wrap t (Z.lxor a b)))
  | Equ => Some (VBool (a =? b))
  | Neq => Some (VBool (negb (a =? b)))
  | Lss => Some (VBool (a <? b))
  | Leq => Some (VBool (a <=? b))
  | Grt => Some (VBool (b <? a))
  | Geq => Some (VBool (b <=? a))
  | _ => None
  end.

Definition sem_unop (op : unop) (v : value) : option value :=
  match op, v with
  | Neg, VInt t z => Some (VInt t (wrap t (- z)))
  | Cmpl, VInt (Type_Bits w s) z => Some (VInt (Type_Bits w s) (wrap (Type_Bits w s) (Z.lnot z)))
  | LNot, VBool b => Some (VBool (negb b))
  | _, _ => None
  end.

Definition sem_binop (op : binop) (v1 v2 : value) : option value :=
  match op, v1, v2 with
  | Equ, VBool a, VBool b => Some (VBool (Bool.eqb a b))
  | Neq, VBool a, VBool b => Some (VBool (negb (Bool.eqb a b)))
  | LAnd, VBool a, VBool b => Some (VBool (a && b))
  | LOr, VBool a, VBool b => Some (VBool (a || b))
  | Shl, VInt t a, VInt _ k =>
      if 0 <=? k then Some (VInt t (wrap t (a * 2 ^ k))) else None
  | Shr, VInt t a, VInt _ k =>
      if 0 <=? k then Some (VInt t (a / 2 ^ k)) else None
  | Concat, VInt (Type_Bits w1 s1) a, VInt (Type_Bits w2 s2) b =>
      let t := Type_Bits (w1 + w2) s1 in
      Some (VInt t (wrap t (Z.lor (Z.shiftl a w2) (wrapu w2 b))))
  | (Shl | Shr | Concat | LAnd | LOr), _, _ => None
  | _, VInt t1 a, VInt t2 b => if same_type t1 t2 then sem_arith op t1 a b else None
  | _, _, _ => None
  end.

Definition sem_slice (v hi lo : value) : option value :=
  match v, hi, lo with
  | VInt (Type_Bits w s) z, VInt _ h, VInt _ l =>
      if (0 <=? l) && (l <=? h) && (h <? w)
      then Some (VInt (Type_Bits (h - l + 1) false) (wrapu (h - l + 1) (Z.shiftr z l)))
      else None
  | _, _, _ => None
  end.

Definition sem_cast (t : Type_) (v : value) : option value :=
  match v with
  | VInt t1 z =>
      match t with
      | Type_Bits _ _ => Some (VInt t (wrap t z))
      | Type_Boolean =>
          match to_Bits t1 with
          | Some (w, s) => if (w =? 1) && negb s then Some (VBool (z =? 1)) else None
          | None => None
          end
      | _ => None
      end
  | VBool b =>
      match t with
      | Type_Bits w s => if (w =? 1) && negb s then Some (VInt t (if b then 1 else 0)) else None
      | Type_Boolean => Some (VBool b)
      | _ => None
      end
  end.

(** The paths' values are the environment; [wf_int] keeps widths positive. *)
Section eval.
Context (env : string -> option value).

Fixpoint eval (e : Expression) : option value :=
  match e with
  | Constant t z _ => if wf_int t && in_range t z then Some (VInt t z) else None
  | BoolLiteral b => Some (VBool b)
  | PathExpression _ p =>
      match env p with
      | Some (VInt t z) => if wf_int t && in_range t z then Some (VInt t z) else None
      | v => v
      end
  | Operation_Unary op _ e => v ← eval e; sem_unop op v
  | Operation_Binary LAnd _ e1 e2 =>
      match eval e1 with
      | Some (VBool false) => Some (VBool false)
      | Some (VBool true) => match eval e2 with Some (VBool b) => Some (VBool b) | _ => None end
      | _ => None
      end
  | Operation_Binary LOr _ e1 e2 =>
      match eval e1 with
      | Some (VBool true) => Some (VBool true)
      | Some (VBool false) => match eval e2 with Some (VBool b) => Some (VBool b) | _ => None end
      | _ => None
      end
  | Operation_Binary op _ e1 e2 => v1 ← eval e1; v2 ← eval e2; sem_binop op v1 v2
  | Slice _ e0 e1 e2 => v ← eval e0; h ← eval e1; l ← eval e2; sem_slice v h l
  | Mux _ e0 e1 e2 =>
      match eval e0 with
      | Some (VBool b) => if b then eval e1 else eval e2
      | _ => None
      end
  | Cast t e => if (match t with Type_Bits _ _ => wf_int t | _ => true end)
                then v ← eval e; sem_cast t v else None
  | _ => None
  end.
End eval.

(** ** Lemmas on widths and ranges *)
Lemma in_range_wrap t z : wf_int t = true -> in_range t (wrap t z) = true.
Proof.
  destruct t as [| | |w s| | | | | |]; try done. simpl. rewrite Z.leb_le. intros Hw.
  destruct s.
  - pose proof (wraps_range w z Hw). lia.
  - pose proof (wrapu_range w z). lia.
Qed.

Lemma wrap_in_range t z : wf_int t = true -> in_range t z = true -> wrap t z = z.
Proof.
  destruct t as [| | |w s| | | | | |]; try done. simpl. rewrite Z.leb_le. intros Hw.
  destruct s; intros; [apply wraps_small|apply wrapu_small]; lia.
Qed.

Lemma wrap_congr w s a b :
  a mod 2 ^ w = b mod 2 ^ w -> wrap (Type_Bits w s) a = wrap (Type_Bits w s) b.
Proof.
  intros Hab. destruct s; simpl; [|done]. unfold wraps.
  by rewrite Zplus_mod, Hab, <- Zplus_mod.
Qed.

Lemma wrap_mod w s a : 0 <= w -> wrap (Type_Bits w s) a mod 2 ^ w = a mod 2 ^ w.
Proof.
  intros Hw. destruct s; simpl; unfold wraps, wrapu.
  - rewrite Zminus_mod_idemp_l. f_equal. lia.
  - apply Zmod_mod.
Qed.

Lemma wrap_idem t z : wf_int t = true -> wrap t (wrap t z) = wrap t z.
Proof. intros. apply wrap_in_range; [done|by apply in_range_wrap]. Qed.

Lemma handleOverflow_spec t z nw :
  wf_int t = true -> exists ds, handleOverflow t z nw = Done (wrap t z) ds.
Proof.
  destruct t as [| | |w s| | | | | |]; try done; simpl.
  { intros _. by eexists. }
  rewrite Z.leb_le. intros Hw. rewrite mask_ones, land_ones_wrapu by lia.
  rewrite !Z.shiftl_mul_pow2, !Z.mul_1_l by lia. destruct s.
  - pose proof (pow2_split w Hw). pose proof (wrapu_range w z ltac:(lia)) as Hu.
    destruct ((z <? _) || _) eqn:E; eexists; unfold oret; f_equal.
    + unfold wraps. destruct (Z.ltb_spec (2 ^ (w - 1) - 1) (wrapu w z)).
      * unfold wrapu in *. rewrite <- (Zplus_mod_idemp_l z).
        apply Zmod_unique_full with (q := 1) || idtac.
        assert ((z mod 2 ^ w + 2 ^ (w - 1)) mod 2 ^ w = z mod 2 ^ w + 2 ^ (w - 1) - 2 ^ w) as ->; [|lia].
        symmetry. apply Z.mod_unique with 1; lia.
      * unfold wrapu in *. rewrite <- (Zplus_mod_idemp_l z).
        rewrite (Z.mod_small (z mod 2 ^ w + _)) by lia. lia.
    + symmetry. apply wraps_small; lia.
  - pose proof (wrapu_range w z ltac:(lia)) as Hu.
    destruct (Z.ltb_spec (wrapu w z) 0); [lia|]. by eexists.
Qed.

(** In range, nothing is reported and the value is kept. *)
Lemma handleOverflow_in_range t z nw :
  wf_int t = true -> in_range t z = true -> handleOverflow t z nw = Done z [].
Proof.
  destruct t as [| | |w s| | | | | |]; try done. simpl. rewrite Z.leb_le. intros Hw.
  rewrite mask_ones, land_ones_wrapu by lia.
  rewrite !Z.shiftl_mul_pow2, !Z.mul_1_l by lia. destruct s; intros Hr.
  - destruct ((z <? _) || _) eqn:E; [lia|done].
  - rewrite !wrapu_small by lia. rewrite Z.eqb_refl. simpl.
    destruct (Z.ltb_spec z 0); [lia|]. by destruct nw.
Qed.

Lemma mkConstant_spec t z b nw :
  wf_int t = true -> exists ds, mkConstant t z b nw = Done (Constant t (wrap t z) b) ds.
Proof.
  intros Ht. unfold mkConstant. destruct (handleOverflow_spec t z nw Ht) as [ds ->]. by eexists.
Qed.

Lemma mkConstant_Done t z b nw e ds :
  wf_int t = true -> mkConstant t z b nw = Done e ds -> e = Constant t (wrap t z) b.
Proof. intros Ht. destruct (mkConstant_spec t z b nw Ht) as [ds' ->]. congruence. Qed.

Lemma eval_Constant env t z b :
  wf_int t = true -> eval env (Constant t (wrap t z) b) = Some (VInt t (wrap t z)).
Proof. intros Ht. simpl. by rewrite Ht, in_range_wrap. Qed.

Lemma same_type_eq t1 t2 : same_type t1 t2 = true -> t1 = t2 /\ wf_int t1 = wf_int t2.
Proof.
  destruct t1, t2; simpl; try done. rewrite andb_true_iff, Z.eqb_eq, Bool.eqb_true_iff.
  by intros [-> ->].
Qed.

(** A value of a sized type lies in that type's range. *)
Definition value_ok (v : value) : bool :=
  match v with VBool _ => true | VInt t z => wf_int t && in_range t z end.

Lemma in_range_between t z a :
  in_range t a = true -> (0 <= z <= a \/ a <= z < 0) -> in_range t z = true.
Proof.
  destruct t as [| | |w s| | | | | |]; simpl; try done. destruct s; intros; [|lia].
  destruct (Z.le_gt_cases 0 (w - 1)).
  - pose proof (pow2_pos (w - 1)). lia.
  - rewrite Z.pow_neg_r in * by lia. lia.
Qed.

Lemma sem_arith_ok op t a b v :
  wf_int t = true -> in_range t a = true -> in_range t b = true ->
  sem_arith op t a b = Some v -> value_ok v = true.
Proof.
  intros Ht Ha Hb Hv.
  assert (Hw : forall z, value_ok (VInt t (wrap t z)) = true)
    by (intros; simpl; by rewrite Ht, in_range_wrap).
  assert (Hc : forall z c, clamp t z = Some c -> value_ok (VInt t c) = true).
  { intros z c. destruct t as [| | |w s| | | | | |]; try done. simpl in *.
    rewrite Z.leb_le in Ht. pose proof (pow2_pos (w - 1) ltac:(lia)).
    pose proof (pow2_pos w ltac:(lia)). destruct s; intros [= <-]; lia. }
  destruct op; simplify_eq/=; try apply Hw; try done.
  - destruct (_ && _) eqn:E; simplify_eq. simpl. rewrite Ht. simpl.
    apply in_range_between with a; [done|]. left. split; [apply Z.div_pos; lia|].
    apply Z.div_le_upper_bound; nia.
  - destruct (_ && _) eqn:E; simplify_eq. simpl. rewrite Ht. simpl.
    apply in_range_between with a; [done|]. left.
    split; [apply Z.mod_pos_bound; lia|apply Z.mod_le; lia].
  - destruct (clamp t (a + b)) eqn:E; simplify_eq/=. by eapply Hc.
  - destruct (clamp t (a - b)) eqn:E; simplify_eq/=. by eapply Hc.
Qed.

Lemma shiftr_between a k : 0 <= k -> 0 <= a / 2 ^ k <= a \/ a <= a / 2 ^ k < 0.
Proof.
  intros Hk. pose proof (pow2_pos k Hk). destruct (Z.le_gt_cases 0 a).
  - left. split; [apply Z.div_pos; lia|]. apply Z.div_le_upper_bound; nia.
  - right. split; [apply Z.div_le_lower_bound; nia|]. apply Z.div_lt_upper_bound; nia.
Qed.

(** The operators whose integer operands must have one type. *)
Definition is_arith (op : binop) : bool :=
  match op with Shl | Shr | Concat | LAnd | LOr => false | _ => true end.

Lemma sem_binop_arith op t1 t2 a b :
  is_arith op = true ->
  sem_binop op (VInt t1 a) (VInt t2 b) = if same_type t1 t2 then sem_arith op t1 a b else None.
Proof. by destruct op. Qed.

Lemma value_ok_wrap t z : wf_int t = true -> value_ok (VInt t (wrap t z)) = true.
Proof. intros Ht. simpl. by rewrite Ht, in_range_wrap. Qed.

Lemma sem_binop_ok op v1 v2 v :
  value_ok v1 = true -> value_ok v2 = true ->
  sem_binop op v1 v2 = Some v -> value_ok v = true.
Proof.
  intros H1 H2 Hv.
  destruct v1 as [b1|t1 z1], v2 as [b2|t2 z2];
    [by destruct op; simplify_eq/=..| |].
  { destruct op, t1; by simplify_eq/=. }
  simpl in H1, H2. rewrite andb_true_iff in H1, H2. destruct H1, H2.
  destruct (is_arith op) eqn:Ho.
  { rewrite sem_binop_arith in Hv by done.
    destruct (same_type t1 t2) eqn:E; [|done]. apply same_type_eq in E as [-> ?].
    by eapply sem_arith_ok; [..|exact Hv]. }
  destruct op; try done; simpl in Hv.
  - destruct (Z.leb_spec 0 z2); simplify_eq. by apply value_ok_wrap.
  - destruct (Z.leb_spec 0 z2); simplify_eq. simpl. rewrite andb_true_iff. split; [done|].
    eapply in_range_between; [done|]. by apply shiftr_between.
  - destruct t1 as [| | |w1 s1| | | | | |], t2 as [| | |w2 s2| | | | | |]; simplify_eq.
    apply (value_ok_wrap (Type_Bits (w1 + w2) s1)). simpl in *. lia.
Qed.

Lemma sem_slice_ok v h l r : sem_slice v h l = Some r -> value_ok r = true.
Proof.
  destruct v as [|[| | |w s| | | | | |] z], h as [|th h], l as [|tl l]; try done. simpl.
  destruct (_ && _) eqn:E; [|done]. intros [= <-]. 
  apply (value_ok_wrap (Type_Bits (h - l + 1) false)). simpl. lia.
Qed.

Lemma sem_cast_ok t v r :
  (match t with Type_Bits _ _ => wf_int t | _ => true end) = true ->
  value_ok v = true -> sem_cast t v = Some r -> value_ok r = true.
Proof.
  intros Ht Hv Hr. destruct v as [b|t1 z], t as [| | |w s| | | | | |]; simplify_eq/=; try done.
  - destruct (_ && _) eqn:E; simplify_eq/=.
    apply andb_true_iff in E as [->%Z.eqb_eq E]. by destruct s, b.
  - destruct (to_Bits t1) as [[w s]|]; [|done]. by destruct ((w =? 1) && negb s); simplify_eq/=.
  - by apply (value_ok_wrap (Type_Bits w s)).
Qed.

Lemma sem_unop_ok op v r : value_ok v = true -> sem_unop op v = Some r -> value_ok r = true.
Proof.
  intros Hv Hr. destruct v as [b|t z]; simpl in Hv.
  - by destruct op; simplify_eq/=.
  - rewrite andb_true_iff in Hv. destruct Hv as [Hw Hz].
    destruct op; simplify_eq/=; try done.
    + by apply value_ok_wrap.
    + destruct t as [| | |w s| | | | | |]; simplify_eq.
      by apply (value_ok_wrap (Type_Bits w s)).
Qed.

Lemma eval_ok env e v : eval env e = Some v -> value_ok v = true.
Proof.
  revert v. induction e; intros v Hv; simpl in Hv; try done.
  - destruct (_ && _) eqn:E; simplify_eq. by simpl.
  - by simplify_eq.
  - destruct (env path) as [[|t z]|]; simplify_eq; [done|].
    destruct (_ && _) eqn:E; simplify_eq. by simpl.
  - destruct (eval env e) as [v1|]; [|done]. simpl in Hv.
    eapply sem_unop_ok; [|done]. by apply IHe.
  - destruct op; try by
      (apply bind_Some in Hv as (v1 & ? & (v2 & ? & Hv)%bind_Some);
       eapply sem_binop_ok; [| |exact Hv]; auto).
    + destruct (eval env e1) as [[[]|]|]; simplify_eq; [|done].
      destruct (eval env e2) as [[]|]; by simplify_eq.
    + destruct (eval env e1) as [[[]|]|]; simplify_eq; [done|].
      destruct (eval env e2) as [[]|]; by simplify_eq.
  - destruct (eval env e1), (eval env e2), (eval env e3); simplify_eq/=.
    by eapply sem_slice_ok.
  - destruct (eval env e1) as [[[]|]|]; [by apply IHe2|by apply IHe3|done|done].
  - destruct (match destType with Type_Bits _ _ => _ | _ => _ end) eqn:E; [|done].
    destruct (eval env e) as [v1|]; [|done]. simpl in Hv. eapply sem_cast_ok; eauto.
Qed.
