(* ===== verification/Refinement.v ===== *)
(** * Values kept by a rewriting of expressions

    The relation the passes preserve ([refines]), its congruence for every
    node, and the inversion lemmas of [eval] the passes share. *)
From S2P Require Import Prelude Gmp Ir.
Local Open Scope Z_scope.
Local Open Scope flexplan_scope.

Definition type_of_value (v : value) : Type_ :=
  match v with VBool _ => Type_Boolean | VInt t _ => t end.

(** [e'] has the value of [e], when [e] has one. *)
Definition refines (env : string -> option value) (e e' : Expression) : Prop :=
  forall v, eval env e = Some v -> eval env e' = Some v.

#[export] Instance refines_preorder env : PreOrder (refines env).
Proof. split; [by intros e v|]. intros e1 e2 e3 H1 H2 v Hv. by apply H2, H1. Qed.

Section congruence.
Context (env : string -> option value).
Implicit Types e : Expression.

Lemma refines_unary op t e e' :
  refines env e e' -> refines env (Operation_Unary op t e) (Operation_Unary op t e').
Proof.
  intros He v. simpl. destruct (eval env e) as [v1|] eqn:E; [|done]. by rewrite (He v1 E).
Qed.

Lemma refines_binary op t e1 e1' e2 e2' :
  refines env e1 e1' -> refines env e2 e2' ->
  refines env (Operation_Binary op t e1 e2) (Operation_Binary op t e1' e2').
Proof.
  intros H1 H2 v.
  destruct (eval env e1) as [v1|] eqn:E1; [apply H1 in E1 as E1'|by destruct op; simpl; rewrite E1].
  destruct (eval env e2) as [v2|] eqn:E2.
  - apply H2 in E2 as E2'. destruct op; simpl; by rewrite E1, E2, E1', E2'.
  - destruct op; simpl; rewrite E1, E2, ?E1'; try done; by destruct v1 as [[]|].
Qed.

Lemma refines_slice t e0 e0' e1 e1' e2 e2' :
  refines env e0 e0' -> refines env e1 e1' -> refines env e2 e2' ->
  refines env (Slice t e0 e1 e2) (Slice t e0' e1' e2').
Proof.
  intros H0 H1 H2 v. simpl.
  destruct (eval env e0) as [v0|] eqn:E0; [|done]. rewrite (H0 _ E0). simpl.
  destruct (eval env e1) as [v1|] eqn:E1; [|done]. rewrite (H1 _ E1). simpl.
  destruct (eval env e2) as [v2|] eqn:E2; [|done]. by rewrite (H2 _ E2).
Qed.

Lemma refines_mux t e0 e0' e1 e1' e2 e2' :
  refines env e0 e0' -> refines env e1 e1' -> refines env e2 e2' ->
  refines env (Mux t e0 e1 e2) (Mux t e0' e1' e2').
Proof.
  intros H0 H1 H2 v. simpl.
  destruct (eval env e0) as [[[]|]|] eqn:E0; try done; rewrite (H0 _ E0); auto.
Qed.

Lemma refines_cast t e e' : refines env e e' -> refines env (Cast t e) (Cast t e').
Proof.
  intros He v. simpl. destruct (match t with Type_Bits _ _ => _ | _ => _ end); [|done].
  destruct (eval env e) as [v1|] eqn:E; [|done]. by rewrite (He v1 E).
Qed.
End congruence.

(** A literal with a value has an integer type and lies in its range. *)
Lemma eval_Constant_inv env t z b v :
  eval env (Constant t z b) = Some v -> wf_int t = true /\ in_range t z = true /\ v = VInt t z.
Proof. simpl. destruct (_ && _) eqn:E; [|done]. apply andb_true_iff in E as []. by intros [= <-]. Qed.

Lemma eval_mkConstant env t z b nw e ds :
  wf_int t = true -> mkConstant t z b nw = Done e ds -> eval env e = Some (VInt t (wrap t z)).
Proof. intros Ht He. rewrite (mkConstant_Done _ _ _ _ _ _ Ht He). by apply eval_Constant. Qed.

Lemma mkConstant_in_range t z b nw :
  wf_int t = true -> in_range t z = true -> mkConstant t z b nw = Done (Constant t z b) [].
Proof. intros Ht Hz. unfold mkConstant. by rewrite handleOverflow_in_range. Qed.

(** The value of a strict binary operator comes from its operands'. *)
Definition is_strict (op : binop) : bool := match op with LAnd | LOr => false | _ => true end.

Lemma eval_arith_inv env op t l r v :
  is_strict op = true -> eval env (Operation_Binary op t l r) = Some v ->
  exists v1 v2, eval env l = Some v1 /\ eval env r = Some v2 /\ sem_binop op v1 v2 = Some v.
Proof.
  intros Ho Hv. destruct op; try done;
    apply bind_Some in Hv as (v1 & ? & (v2 & ? & Hv)%bind_Some); eauto.
Qed.

(** ** Literals and indices *)
Lemma asInt_clean `{MpzLaws} z r ds : asInt z = Done r ds -> no_errors ds = true -> r = z /\ - 2 ^ 31 <= z < 2 ^ 31.
Proof.
  unfold asInt. intros [= <- <-]. unfold fitsInt.
  destruct ((- 2 ^ 31 <=? z) && (z <? 2 ^ 31)) eqn:E; [|done]. intros _.
  rewrite mpz_get_si_law by lia. split; [|lia]. apply wraps_small; lia.
Qed.

Lemma wrapu_idem w z : wrapu w (wrapu w z) = wrapu w z.
Proof. apply Zmod_mod. Qed.

Lemma asUnsigned_clean `{MpzLaws} z r ds :
  asUnsigned z = Done r ds -> no_errors ds = true -> r = z /\ 0 <= z < 2 ^ 32.
Proof.
  unfold asUnsigned. intros [= <- <-]. unfold fitsUint.
  destruct ((0 <=? z) && (z <? 2 ^ 32)) eqn:E; [|done]. intros _.
  rewrite mpz_get_ui_law by lia. split; [|lia]. apply wrapu_small; lia.
Qed.

Lemma getIndex_clean `{MpzLaws} env e r ds :
  getIndex e = Done r ds -> no_errors ds = true ->
  (exists t b, e = Constant t r b) /\ 0 <= r < 2 ^ 32 /\
  (forall v, eval env e = Some v -> exists t, v = VInt t r).
Proof.
  intros Hg Hd. destruct e as [t z b| | | | | | | | | | | |]; try done.
  apply asUnsigned_clean in Hg as [-> Hz]; [|done]. split; [eauto|]. split; [lia|].
  intros v Hv. apply eval_Constant_inv in Hv as (_ & _ & ->). eauto.
Qed.

(** ** The low bits decide a value of a sized type *)
Lemma wrap_bits_eq w s a b :
  0 <= w -> (forall i, 0 <= i < w -> Z.testbit a i = Z.testbit b i) ->
  wrap (Type_Bits w s) a = wrap (Type_Bits w s) b.
Proof.
  intros Hw Hb. apply wrap_congr. apply Z.bits_inj'. intros i Hi.
  rewrite !testbit_mod_pow2 by lia. destruct (Z.ltb_spec i w); simpl; [|done]. apply Hb. lia.
Qed.

Lemma testbit_wrap_low w s a i :
  0 <= i < w -> Z.testbit (wrap (Type_Bits w s) a) i = Z.testbit a i.
Proof.
  intros Hi. rewrite <- (Z.mod_pow2_bits_low _ w), wrap_mod by lia. by rewrite Z.mod_pow2_bits_low by lia.
Qed.

Lemma wrap_add_r t a b : wf_int t = true -> wrap t (a + wrap t b) = wrap t (a + b).
Proof.
  destruct t as [| | |w s| | | | | |]; try done. simpl wf_int. rewrite Z.leb_le. intros Hw.
  apply wrap_congr. rewrite Zplus_mod, wrap_mod, <- Zplus_mod by lia. done.
Qed.

Lemma popcount_one_pow2 z : popcount z = 1 -> z = 2 ^ Z.log2 z.
Proof.
  intros Hp. assert (Hz : 0 < z) by (destruct z; simpl in Hp; lia).
  assert (0 <= z) as Hz0 by lia. revert Hz Hp.
  induction z as [z IH] using (well_founded_induction (Z.lt_wf 0)). intros Hz Hp.
  destruct (Z.Even_or_Odd z) as [[k Hk]|[k Hk]].
  - rewrite Hk, popcount_double in Hp. assert (Hl : Z.log2 z = Z.succ (Z.log2 k)).
    { rewrite Hk. apply Z.log2_double. lia. }
    rewrite Hl, Z.pow_succ_r by apply Z.log2_nonneg. rewrite <- IH; lia.
  - rewrite Hk, popcount_succ_double in Hp by lia.
    destruct (decide (k = 0)) as [->|]; [by rewrite Hk|]. pose proof (popcount_pos k). lia.
Qed.

Lemma popcount_width w : 0 <= w -> forall z, 0 <= z < 2 ^ w ->
  popcount z <= w /\ (popcount z = w -> z = 2 ^ w - 1).
Proof.
  intros Hw. pattern w. apply natlike_ind; [|clear w Hw; intros w Hw IH z Hz|exact Hw].
  { intros z Hz. simpl in Hz. assert (z = 0) as -> by lia. done. } rewrite Z.pow_succ_r in * by done.
  destruct (Z.Even_or_Odd z) as [[k ->]|[k ->]]; destruct (IH k ltac:(lia)) as [H1 H2].
  - rewrite popcount_double. lia.
  - rewrite popcount_succ_double by lia. split; [lia|]. intros. lia.
Qed.
