(* ===== verification/ConstantFolding.v ===== *)
(** * Constant folding: [frontends/common/constantFolding.cpp]

    [DoConstantFolding] as a function on the expression IR: every [postorder]
    method, the helpers [getConstant], [binary], [compare], [shift] and
    [setContains], and the bottom-up driver of [Transform].  The pass' inputs
    are the record [DoConstantFolding]: a missing [refMap] or [typeMap] is
    the null pointer. *)
From S2P Require Import Prelude Gmp Ir.
Local Open Scope Z_scope.
Local Open Scope flexplan_scope.

(** What [ReferenceMap::getDeclaration] finds for a path. *)
Inductive IDeclaration := Declaration_null | Declaration_Constant (name : string) | Declaration_other.

Record DoConstantFolding := {
  refMap : option (string -> IDeclaration);
  typeMap : option (Expression -> option Type_);
  warnings : bool;
  constants : gmap string Expression
}.
Definition typesKnown (p : DoConstantFolding) : bool :=
  match typeMap p with Some _ => true | None => false end.

(** [ptr != nullptr] *)
Definition nonnull {A} (o : option A) : bool := match o with Some _ => true | None => false end.
(** [::error(...); return r;] *)
Definition fail_with {A} (msg : string) (r : A) : outcome A := report (DError msg) r.

(** [typeMap->getType(e, notNull)] *)
Definition getType (p : DoConstantFolding) (e : Expression) (notNull : bool) : outcome (option Type_) :=
  match typeMap p with
  | None => Aborted "null typeMap"
  | Some tm =>
      match tm e with
      | None => if notNull then Aborted "Could not find type" else oret None
      | Some t => oret (Some t)
      end
  end.
Definition getTypeNotNull (p : DoConstantFolding) (e : Expression) : outcome Type_ :=
  do t <- getType p e true;
  match t with Some t => oret t | None => Aborted "Could not find type" end.

Definition omapM {A B} (f : A -> outcome B) : list A -> outcome (list B) :=
  fix go l :=
    match l with
    | [] => oret []
    | x :: l => do y <- f x; do ys <- go l; oret (y :: ys)
    end.

(** ** Helpers *)

(** [CloneConstants]: every integer literal is rebuilt by the typed
    constructor. *)
Fixpoint clone (e : Expression) : outcome Expression :=
  match e with
  | Constant t v b =>
      match t with
      | Type_Bits _ _ | Type_InfInt => mkConstant t v b false
      | _ => Aborted "unexpected type for constant"
      end
  | Operation_Unary op t x => do x <- clone x; oret (Operation_Unary op t x)
  | Operation_Binary op t l r =>
      do l <- clone l; do r <- clone r; oret (Operation_Binary op t l r)
  | Slice t e0 e1 e2 =>
      do e0 <- clone e0; do e1 <- clone e1; do e2 <- clone e2; oret (Slice t e0 e1 e2)
  | Mux t e0 e1 e2 =>
      do e0 <- clone e0; do e1 <- clone e1; do e2 <- clone e2; oret (Mux t e0 e1 e2)
  | Member t x m => do x <- clone x; oret (Member t x m)
  | Cast t x => do x <- clone x; oret (Cast t x)
  | ListExpression l => do l <- omapM clone l; oret (ListExpression l)
  | StructInitializerExpression l =>
      do l <- omapM (fun '(n, x) => do x <- clone x; oret (n, x)) l;
      oret (StructInitializerExpression l)
  | BoolLiteral _ | PathExpression _ _ | TypeNameExpression _ | DefaultExpression => oret e
  end.

(** [EnumInstance::resolve]: the enum's type and the member's name. *)
Definition EnumInstance_resolve (p : DoConstantFolding) (e : Expression)
    : outcome (option (Type_ * string)) :=
  match e with
  | Member _ (TypeNameExpression _) m =>
      do t <- getTypeNotNull p e;
      match t with
      | Type_Enum _ | Type_SerEnum _ => oret (Some (t, m))
      | _ => oret None
      end
  | _ => oret None
  end.

(** All the elements are constants: stop at the first that is not. *)
Definition oforallM {A} (f : A -> outcome bool) : list A -> outcome bool :=
  fix go l :=
    match l with
    | [] => oret true
    | x :: l => do b <- f x; if b : bool then go l else oret false
    end.

Section pass.
Context `{Mpz} (p : DoConstantFolding).

Fixpoint getConstant (expr : Expression) : outcome (option Expression) :=
  match expr with
  | Constant _ _ _ | BoolLiteral _ => oret (Some expr)
  | ListExpression l =>
      do b <- oforallM (fun x => do c <- getConstant x; oret (nonnull c)) l;
      oret (if b : bool then Some expr else None)
  | StructInitializerExpression l =>
      do b <- oforallM (fun '(_, x) => do c <- getConstant x; oret (nonnull c)) l;
      oret (if b : bool then Some expr else None)
  | Cast _ x =>
      do c <- getConstant x;
      match c with
      | Some _ => do e <- clone expr; oret (Some e)
      | None => oret None
      end
  | _ =>
      if typesKnown p then
        do ei <- EnumInstance_resolve p expr;
        oret (if nonnull ei then Some expr else None)
      else oret None
  end.

(** [DoConstantFolding::cast] *)
Definition cast (value base : Z) (type : Type_) : outcome Expression :=
  mkConstant type value base false.

(** The saturation of [binary]: clamp to the range of [resultType]. *)
Definition saturate (size : Z) (isSigned : bool) (value : Z) : Z :=
  let limit := if isSigned then Z.shiftl 1 (size - 1) else Z.shiftl 1 size in
  let value := if isSigned
               then (if value <? - limit then - limit else value)
               else (if value <? 0 then 0 else value) in
  if limit <=? value then limit - 1 else value.

(** [DoConstantFolding::binary]; [func] may report (division). *)
Definition binary (op : binop) (type : Type_) (left right : Expression)
    (func : Z -> Z -> outcome Z) (saturating : bool) : outcome Expression :=
  let e := Operation_Binary op type left right in
  do eleft <- getConstant left;
  do eright <- getConstant right;
  match eleft, eright with
  | Some cl, Some cr =>
      match cl with
      | Constant lt lv lbase =>
          match cr with
          | Constant rt rv rbase =>
              let lunk := is_InfInt lt in
              let runk := is_InfInt rt in
              do value <- func lv rv;
              let ltb := to_Bits lt in
              let rtb := to_Bits rt in
              if negb lunk && negb (nonnull ltb) then
                if typesKnown p
                then fail_with "Operation can only be applied to int<> or bit<> types" e
                else oret e
              else if negb runk && negb (nonnull rtb) then
                if typesKnown p
                then fail_with "Operation can only be applied to int<> or bit<> types" e
                else oret e
              else if negb lunk && negb runk && negb (same_type lt rt) then
                fail_with "operands have different types" e
              else
                (* the typed side's type; the casts of the other side only
                   report, the value is computed already *)
                let resultType := if negb lunk && negb runk then rt
                                  else if lunk && runk then lt
                                  else if lunk then rt else lt in
                do _ <- (if lunk && runk then oret (Constant lt lv lbase)
                         else if lunk then cast lv lbase rt
                         else if runk then cast rv lbase lt
                         else oret (Constant lt lv lbase));
                do value <-
                  (if saturating then
                     match to_Bits resultType with
                     | Some (size, isSigned) => oret (saturate size isSigned value)
                     | None => fail_with "saturating operation on untyped values" value
                     end
                   else oret value);
                if is_relation op then oret (BoolLiteral (negb (value =? 0)))
                else mkConstant resultType value lbase true
          | _ => fail_with "Expected an bit<> or int<> value" e
          end
      | _ => fail_with "Expected a bit<> or int<> value" e
      end
  | _, _ => oret e
  end.

Definition b2z (b : bool) : Z := if b then 1 else 0.

(** The functions the [postorder] methods pass to [binary]. *)
Definition fold_func (op : binop) (a b : Z) : outcome Z :=
  match op with
  | Add | AddSat => oret (a + b)
  | Sub | SubSat => oret (a - b)
  | Mul => oret (a * b)
  | BXor => oret (Z.lxor a b)
  | BAnd => oret (Z.land a b)
  | BOr => oret (Z.lor a b)
  | Equ => oret (b2z (a =? b))
  | Neq => oret (b2z (negb (a =? b)))
  | Lss => oret (b2z (a <? b))
  | Grt => oret (b2z (b <? a))
  | Leq => oret (b2z (a <=? b))
  | Geq => oret (b2z (b <=? a))
  | Div =>
      if (a <? 0) || (b <? 0) then fail_with "Division is not defined for negative numbers" 0
      else if b =? 0 then fail_with "Division by zero" 0
      else oret (Z.quot a b)
  | Mod =>
      if (a <? 0) || (b <? 0) then fail_with "Modulo is not defined for negative numbers" 0
      else if b =? 0 then fail_with "Modulo by zero" 0
      else oret (Z.rem a b)
  | _ => Aborted "not folded by binary"
  end.

(** ** The [postorder] methods *)
Definition postorder_binary (op : binop) (type : Type_) (left right : Expression)
    : outcome Expression :=
  binary op type left right (fold_func op)
         (match op with AddSat | SubSat => true | _ => false end).

Definition same_enum (t1 t2 : Type_) : bool :=
  match t1, t2 with
  | Type_Enum a, Type_Enum b | Type_SerEnum a, Type_SerEnum b => String.eqb a b
  | _, _ => false
  end.

(** [compare], for [==] ([eqTest]) and [!=].  [getConstant] answers a list
    with the list itself. *)
Fixpoint compare (eqTest : bool) (type : Type_) (left right : Expression) {struct left}
    : outcome Expression :=
  let op := if eqTest then Equ else Neq in
  let e := Operation_Binary op type left right in
  do eleft <- getConstant left;
  do eright <- getConstant right;
  match eleft, eright with
  | Some cl, Some cr =>
      match cl with
      | BoolLiteral a =>
          match cr with
          | BoolLiteral b => oret (BoolLiteral (Bool.eqb (Bool.eqb a b) eqTest))
          | _ => fail_with "both operands must be Boolean" e
          end
      | _ =>
          do r <-
            (if typesKnown p then
               do le <- EnumInstance_resolve p cl;
               do re <- EnumInstance_resolve p cr;
               match le, re with
               | Some (lt, lname), Some (rt, rname) =>
                   if same_enum lt rt
                   then oret (Some (BoolLiteral (Bool.eqb (String.eqb lname rname) eqTest)))
                   else Aborted "different enum types in comparison"
               | _, _ =>
                   match left, cr with
                   | ListExpression llist, ListExpression rlist =>
                       if negb (Nat.eqb (length llist) (length rlist))
                       then fail_with "comparing lists of different size" (Some e)
                       else
                         (fix go ll rl :=
                            match ll, rl with
                            | li :: ll, ri :: rl =>
                                do cmp <- compare eqTest Type_Boolean li ri;
                                match cmp with
                                | BoolLiteral v =>
                                    if Bool.eqb v eqTest then go ll rl
                                    else oret (Some (BoolLiteral v))
                                | _ => oret (Some e)
                                end
                            | _, _ => oret (Some (BoolLiteral eqTest))
                            end) llist rlist
                   | _, _ => oret None
                   end
               end
             else oret None);
          match r with
          | Some r => oret r
          | None => postorder_binary op type left right
          end
      end
  | _, _ => oret e
  end.

Definition postorder_Cmpl (type : Type_) (expr : Expression) : outcome Expression :=
  let e := Operation_Unary Cmpl type expr in
  do op <- getConstant expr;
  match op with
  | None => oret e
  | Some (Constant t v b) =>
      match t with
      | Type_InfInt =>
          fail_with "Operation cannot be applied to values with unknown width" e
      | Type_Bits _ _ => mkConstant t (Z.lnot v) b true
      | _ => if typesKnown p
             then fail_with "Operation can only be applied to int<> or bit<> types" e
             else oret e
      end
  | Some _ => fail_with "Expected an integer value" e
  end.

Definition postorder_Neg (type : Type_) (expr : Expression) : outcome Expression :=
  let e := Operation_Unary Neg type expr in
  do op <- getConstant expr;
  match op with
  | None => oret e
  | Some (Constant t v b) =>
      match t with
      | Type_InfInt => mkConstant t (- v) b false
      | Type_Bits _ _ => mkConstant t (- v) b true
      | _ => if typesKnown p
             then fail_with "Operation can only be applied to int<> or bit<> types" e
             else oret e
      end
  | Some _ => fail_with "Expected an integer value" e
  end.

Definition postorder_LNot (type : Type_) (expr : Expression) : outcome Expression :=
  let e := Operation_Unary LNot type expr in
  do op <- getConstant expr;
  match op with
  | None => oret e
  | Some (BoolLiteral b) => oret (BoolLiteral (negb b))
  | Some _ => fail_with "Expected a boolean value" e
  end.

(** [postorder(IR::Equ* )]: a literal operand of a boolean equality. *)
Definition postorder_Equ (type : Type_) (lefte righte : Expression) : outcome Expression :=
  let e := Operation_Binary Equ type lefte righte in
  if typesKnown p then
    do ltype <- getType p lefte false;
    match ltype with
    | None => Aborted "null type"
    | Some Type_Boolean =>
        do oleft <- getConstant lefte;
        do oright <- getConstant righte;
        match oleft, oright with
        | None, None => oret e
        | Some _, Some _ => compare true type lefte righte
        | _, _ =>
            let '(lit, other) := match oleft with
                                 | Some l => (Some l, righte)
                                 | None => (oright, lefte)
                                 end in
            match lit with
            | Some (BoolLiteral b) =>
                oret (if b then other else Operation_Unary LNot (type_of other) other)
            | _ => compare true type lefte righte
            end
        end
    | Some _ => compare true type lefte righte
    end
  else compare true type lefte righte.

(** [postorder(IR::LAnd* )] and [postorder(IR::LOr* )]; [unit] is the literal
    that yields the other operand. *)
Definition postorder_LAnd (type : Type_) (lefte righte : Expression) : outcome Expression :=
  let e := Operation_Binary LAnd type lefte righte in
  do oleft <- getConstant lefte;
  do oright <- getConstant righte;
  match oleft, oright with
  | None, None => oret e
  | _, _ =>
      let '(lit, other) := match oleft with
                           | Some l => (Some l, righte)
                           | None => (oright, lefte)
                           end in
      match lit with
      | Some (BoolLiteral true) => oret other
      | Some (BoolLiteral false) => oret (BoolLiteral false)
      | _ => fail_with "Expected a boolean value" e
      end
  end.

Definition postorder_LOr (type : Type_) (lefte righte : Expression) : outcome Expression :=
  let e := Operation_Binary LOr type lefte righte in
  do oleft <- getConstant lefte;
  do oright <- getConstant righte;
  match oleft, oright with
  | None, None => oret e
  | _, _ =>
      let '(lit, other) := match oleft with
                           | Some l => (Some l, righte)
                           | None => (oright, lefte)
                           end in
      match lit with
      | Some (BoolLiteral false) => oret other
      | Some (BoolLiteral true) => oret (BoolLiteral true)
      | _ => fail_with "Expected a boolean value" e
      end
  end.

Definition MaximumWidthSupported : Z := 2048.

(** [postorder(IR::Slice* )]; the shift count is an [int] converted to GMP's
    unsigned bit count. *)
Definition postorder_Slice (orig : Expression) (type : Type_) (x e1 e2 : Expression)
    : outcome Expression :=
  let e := Slice type x e1 e2 in
  do msb <- getConstant e1;
  do lsb <- getConstant e2;
  match msb, lsb with
  | Some msb, Some lsb =>
      if negb (typesKnown p) then oret e
      else
        do e0 <- getConstant x;
        match e0 with
        | None => oret e
        | Some e0 =>
            match msb, lsb, e0 with
            | Constant _ vm _, Constant _ vl _, Constant _ vbase bbase =>
                do m <- asInt vm;
                do l <- asInt vl;
                if m <? l then fail_with "bit slicing should be specified as [msb:lsb]" e
                else if (MaximumWidthSupported <? m) || (MaximumWidthSupported <? l)
                then fail_with "Compiler only supports limited widths" e
                else
                  let value := Z.shiftr vbase (wrapu 64 l) in
                  let mask := Z.shiftl 1 (m - l + 1) - 1 in
                  let value := Z.land value mask in
                  do resultType <- getTypeNotNull p orig;
                  match resultType with
                  | Type_Bits _ _ => mkConstant resultType value bbase true
                  | _ => Aborted "Type of slice is not Type_Bits"
                  end
            | _, _, _ => fail_with "Expected an integer value" e
            end
        end
  | _, _ => fail_with "bit indexes must be compile-time constants" e
  end.
(** The index of a field, by name. *)
Fixpoint field_index (fields : list (string * Type_)) (name : string) : option nat :=
  match fields with
  | [] => None
  | (n, _) :: fields =>
      if String.eqb n name then Some O else S <$> field_index fields name
  end.
Fixpoint find_component (l : list (string * Expression)) (name : string) : option Expression :=
  match l with
  | [] => None
  | (n, x) :: l => if String.eqb n name then Some x else find_component l name
  end.

(** [postorder(IR::Member* )]; [origexpr] is the original node's operand. *)
Definition postorder_Member (orig origexpr : Expression) (type : Type_) (expr : Expression)
    (member : string) : outcome Expression :=
  let e := Member type expr member in
  if negb (typesKnown p) then oret e
  else
    do otype <- getTypeNotNull p origexpr;
    do origtype <- getType p orig false;
    let general :=
      do c <- getConstant expr;
      match c with
      | None => oret e
      | Some c =>
          match otype with
          | Type_StructLike _ fields =>
              match c with
              | ListExpression l =>
                  match field_index fields member with
                  | None => Aborted "Could not find field"
                  | Some index =>
                      match l !! index with
                      | Some x => clone x
                      | None => Aborted "std::out_of_range"
                      end
                  end
              | StructInitializerExpression l =>
                  match origtype with
                  | None => Aborted "null origtype"
                  | Some ot =>
                      if (match ot with Type_StructLike true _ => true | _ => false end)
                         && String.eqb member "isValid"
                      then oret e
                      else match find_component l member with
                           | Some x => clone x
                           | None => Aborted "Could not find field in initializer"
                           end
                  end
              | _ => Aborted "Unexpected initializer"
              end
          | _ => Aborted "Expected a struct type"
          end
      end in
    match otype with
    | Type_Stack _ size =>
        if String.eqb member "size" then
          match origtype with
          | Some ot => mkConstant ot size 10 false
          | None => Aborted "null type"
          end
        else general
    | _ => general
    end.

Definition postorder_Concat (type : Type_) (left right : Expression) : outcome Expression :=
  let e := Operation_Binary Concat type left right in
  do eleft <- getConstant left;
  do eright <- getConstant right;
  match eleft, eright with
  | Some cl, Some cr =>
      match cl with
      | Constant lt lv lbase =>
          match cr with
          | Constant rt rv _ =>
              match to_Bits lt, to_Bits rt with
              | Some (lsize, lsigned), Some (rsize, _) =>
                  let resultType := Type_Bits (lsize + rsize) lsigned in
                  let value := Util.shift_left lv (wrapu 32 rsize) + rv in
                  mkConstant resultType value lbase false
              | _, _ => fail_with "both operand widths must be known" e
              end
          | _ => fail_with "Expected an bit<> or int<> value" e
          end
      | _ => fail_with "Expected a bit<> or int<> value" e
      end
  | _, _ => oret e
  end.

(** [postorder(IR::Mux* )]: a condition that is no literal is reported, and
    then dereferenced. *)
Definition postorder_Mux (type : Type_) (e0 e1 e2 : Expression) : outcome Expression :=
  do cond <- getConstant e0;
  match cond with
  | None => oret (Mux type e0 e1 e2)
  | Some (BoolLiteral b) => oret (if b then e1 else e2)
  | Some _ => Aborted "null dereference"
  end.

(** [shift], for [<<] and [>>]. *)
Definition shift (op : binop) (type : Type_) (left right : Expression) : outcome Expression :=
  let e := Operation_Binary op type left right in
  do oright <- getConstant right;
  match oright with
  | None => oret e
  | Some (Constant _ rv _) =>
      if rv <? 0 then fail_with "Shifts with negative amounts are not permitted" e
      else if rv =? 0 then oret left
      else
        do oleft <- getConstant left;
        match oleft with
        | None => oret e
        | Some (Constant lt lv lbase) =>
            do amount <- asInt rv;
            let shift := wrapu 32 amount in
            do _ <- (match to_Bits lt with
                     | Some (size, _) =>
                         if (wrapu 32 size <? shift) && warnings p
                         then report (DWarning "Shifting past the width") tt
                         else oret tt
                     | None => oret tt
                     end);
            let value := match op with
                         | Shl => Util.shift_left lv shift
                         | _ => Util.shift_right lv shift
                         end in
            mkConstant lt value lbase false
        | Some _ => fail_with "Expected an integer value" e
        end
  | Some _ => fail_with "Expected an integer value" e
  end.

Definition postorder_Cast (orig : Expression) (destType : Type_) (x : Expression)
    : outcome Expression :=
  let e := Cast destType x in
  do oexpr <- getConstant x;
  match oexpr with
  | None => oret e
  | Some expr =>
      do etype <- (if typesKnown p then getTypeNotNull p orig else oret destType);
      match etype with
      | Type_Bits _ _ =>
          match expr with
          | Constant _ v b => cast v b etype
          | BoolLiteral b => mkConstant etype (b2z b) 10 false
          | _ => oret e
          end
      | Type_Boolean =>
          match expr with
          | BoolLiteral _ => oret expr
          | Constant ctype v _ =>
              let convert :=
                do n <- asInt v;
                if (n <? 0) || (1 <? n)
                then fail_with "Only 0 and 1 can be cast to booleans" e
                else oret (BoolLiteral (n =? 1)) in
              match ctype with
              | Type_Bits size isSigned =>
                  if isSigned : bool then fail_with "Cannot cast signed value to boolean" e
                  else if negb (size =? 1)
                  then fail_with "Only bit<1> values can be cast to bool" e
                  else convert
              | Type_InfInt => convert
              | _ => Aborted "unexpected type for constant"
              end
          | _ => oret e
          end
      | Type_StructLike _ _ => clone expr
      | _ => oret e
      end
  end.

(** [postorder(IR::PathExpression* )]: a constant's initialiser replaces it. *)
Definition postorder_PathExpression (type : Type_) (path : string) : outcome Expression :=
  let e := PathExpression type path in
  match refMap p with
  | None => oret e
  | Some getDeclaration =>
      match getDeclaration path with
      | Declaration_Constant dc =>
          match constants p !! dc with
          | None => oret e
          | Some cst =>
              match cst with
              | ListExpression _ => if typesKnown p then clone cst else oret e
              | _ => clone cst
              end
          end
      | _ => oret e
      end
  end.

(** Dispatch on the (rebuilt) node; [orig] is the node before its children
    were visited. *)
Definition postorder (orig e : Expression) : outcome Expression :=
  match e with
  | PathExpression t x => postorder_PathExpression t x
  | Operation_Unary Cmpl t x => postorder_Cmpl t x
  | Operation_Unary Neg t x => postorder_Neg t x
  | Operation_Unary LNot t x => postorder_LNot t x
  | Operation_Binary Equ t l r => postorder_Equ t l r
  | Operation_Binary Neq t l r => compare false t l r
  | Operation_Binary LAnd t l r => postorder_LAnd t l r
  | Operation_Binary LOr t l r => postorder_LOr t l r
  | Operation_Binary Concat t l r => postorder_Concat t l r
  | Operation_Binary (Shl as op) t l r | Operation_Binary (Shr as op) t l r => shift op t l r
  | Operation_Binary (Range | Mask) _ _ _ => oret e
  | Operation_Binary op t l r => postorder_binary op t l r
  | Slice t e0 e1 e2 => postorder_Slice orig t e0 e1 e2
  | Mux t e0 e1 e2 => postorder_Mux t e0 e1 e2
  | Cast t x => postorder_Cast orig t x
  | Member t x m =>
      match orig with
      | Member _ ox _ => postorder_Member orig ox t x m
      | _ => Aborted "original is no Member"
      end
  | _ => oret e
  end.

(** [Transform]: the children from left to right, then the node. *)
Fixpoint apply_ (e : Expression) : outcome Expression :=
  match e with
  | Operation_Unary op t x => do x <- apply_ x; postorder e (Operation_Unary op t x)
  | Operation_Binary op t l r =>
      do l <- apply_ l; do r <- apply_ r; postorder e (Operation_Binary op t l r)
  | Slice t e0 e1 e2 =>
      do e0 <- apply_ e0; do e1 <- apply_ e1; do e2 <- apply_ e2;
      postorder e (Slice t e0 e1 e2)
  | Mux t e0 e1 e2 =>
      do e0 <- apply_ e0; do e1 <- apply_ e1; do e2 <- apply_ e2;
      postorder e (Mux t e0 e1 e2)
  | Member t x m => do x <- apply_ x; postorder e (Member t x m)
  | Cast t x => do x <- apply_ x; postorder e (Cast t x)
  | ListExpression l => do l <- omapM apply_ l; oret (ListExpression l)
  | StructInitializerExpression l =>
      do l <- omapM (fun '(n, x) => do x <- apply_ x; oret (n, x)) l;
      oret (StructInitializerExpression l)
  | _ => postorder e e
  end.
End pass.

(** ** Declarations, types, selects and statements *)

(** [postorder(IR::Type_Bits* )]: [expression] is the (folded) width
    expression, when there is one. *)
Definition postorder_Type_Bits `{Mpz} (size : Z) (expression : option Expression) (isSigned : bool)
    : outcome (Z * option Expression) :=
  match expression with
  | None => oret (size, None)
  | Some (Constant _ v _) =>
      do size <- asInt v;
      do size <- (if size <=? 0 then fail_with "type size" 64 else oret size);
      if (size =? 1) && isSigned
      then fail_with "signed type which is 1-bit wide" (size, None)
      else oret (size, None)
  | Some e => fail_with "Expected to evaluate to a constant" (size, Some e)
  end.

Definition postorder_Type_Varbits `{Mpz} (size : Z) (expression : option Expression)
    : outcome (Z * option Expression) :=
  match expression with
  | None => oret (size, None)
  | Some (Constant _ v _) =>
      do size <- asInt v;
      if size <=? 0 then fail_with "type size" (size, None) else oret (size, None)
  | Some e => fail_with "Expected to evaluate to a constant" (size, Some e)
  end.

(** [postorder(IR::Declaration_Constant* )]: the new initialiser, and the
    pass with the constant recorded ([emplace]: an earlier entry stays). *)
Definition postorder_Declaration_Constant (p : DoConstantFolding)
    (name : string) (type : Type_) (initializer : Expression)
    : outcome (DoConstantFolding * Expression) :=
  let record init :=
    {| refMap := refMap p; typeMap := typeMap p; warnings := warnings p;
       constants := match constants p !! name with
                    | Some _ => constants p
                    | None => <[name := init]> (constants p)
                    end |} in
  do oinit <- getConstant p initializer;
  match oinit with
  | None =>
      if typesKnown p
      then fail_with "Cannot evaluate initializer for constant" (p, initializer)
      else oret (p, initializer)
  | Some init =>
      if typesKnown p then oret (record init, initializer)
      else
        match init with
        | Constant ct v b =>
            match type with
            | Type_Bits _ _ =>
                if is_InfInt ct || (nonnull (to_Bits ct) && negb (same_type type ct)) then
                  do init <- mkConstant type v b false;
                  oret (record init, init)
                else oret (record init, init)
            | _ => oret (p, initializer)
            end
        | _ => oret (record init, init)
        end
  end.

Inductive Result := Yes | No | DontKnow.

Section selects.
Context `{Mpz} (p : DoConstantFolding).

(** A pointer that has just been reported null is dereferenced. *)
Definition deref_Constant (e : Expression) : outcome Z :=
  match e with Constant _ v _ => oret v | _ => Aborted "null dereference" end.

(** [setContains]: is the constant [select] in [keySet]? *)
Fixpoint setContains (keySet select : Expression) {struct select} : outcome Result :=
  match keySet with
  | DefaultExpression => oret Yes
  | _ =>
      match select with
      | ListExpression list =>
          match keySet with
          | ListExpression klist =>
              if negb (Nat.eqb (length list) (length klist)) then Aborted "size mismatch"
              else
                (fix go l kl :=
                   match l, kl with
                   | x :: l, k :: kl =>
                       do r <- setContains k x;
                       match r with Yes => go l kl | _ => oret r end
                   | _, _ => oret Yes
                   end) list klist
          | _ =>
              match list with
              | [x] => setContains keySet x
              | _ => Aborted "mismatch in list size"
              end
          end
      | BoolLiteral b =>
          do key <- getConstant p keySet;
          match key with
          | Some (BoolLiteral k) => oret (if Bool.eqb b k then Yes else No)
          | _ => Aborted "expected a boolean"
          end
      | Constant _ v _ =>
          match keySet with
          | Constant _ k _ => oret (if k =? v then Yes else No)
          | Operation_Binary Range _ kl kr =>
              do l <- getConstant p kl;
              match l with
              | None => fail_with "expression must evaluate to a constant" DontKnow
              | Some l =>
                  do r <- getConstant p kr;
                  match r with
                  | None => fail_with "expression must evaluate to a constant" DontKnow
                  | Some r =>
                      do lv <- deref_Constant l;
                      if negb (lv <=? v) then oret No
                      else do rv <- deref_Constant r;
                           oret (if v <=? rv then Yes else No)
                  end
              end
          | Operation_Binary Mask _ kl kr =>
              do l <- getConstant p kl;
              match l with
              | None => fail_with "expression must evaluate to a constant" DontKnow
              | Some l =>
                  do r <- getConstant p kr;
                  match r with
                  | None => fail_with "expression must evaluate to a constant" DontKnow
                  | Some r =>
                      do lv <- deref_Constant l;
                      do rv <- deref_Constant r;
                      oret (if Z.land lv rv =? Z.land rv v then Yes else No)
                  end
              end
          | _ => fail_with "unexpected expression" DontKnow
          end
      | _ => Aborted "expected a constant"
      end
  end.

(** A select expression, or the state it was resolved to. *)
Inductive SelectResult :=
| SelectExpression (select : Expression) (selectCases : list (Expression * string))
| SelectState (state : string).

Record select_loop := {
  cases : list (Expression * string);
  someUnknown : bool;
  changes : bool;
  finished : bool;
  result : option string
}.

Definition select_step (sel : Expression) (st : select_loop) (c : Expression * string)
    : outcome select_loop :=
  if finished st then
    Done st (if warnings p then [DWarning "unreachable case"] else [])
  else
    do inside <- setContains c.1 sel;
    oret match inside with
         | No => {| cases := cases st; someUnknown := someUnknown st; changes := true;
                    finished := finished st; result := result st |}
         | DontKnow => {| cases := cases st ++ [c]; someUnknown := true; changes := changes st;
                          finished := finished st; result := result st |}
         | Yes =>
             if someUnknown st
             then {| cases := cases st ++ [(DefaultExpression, c.2)]; someUnknown := true;
                     changes := true; finished := true; result := result st |}
             else {| cases := cases st; someUnknown := false; changes := true;
                     finished := true; result := Some c.2 |}
         end.

Fixpoint ofoldlM {A B} (f : A -> B -> outcome A) (a : A) (l : list B) : outcome A :=
  match l with
  | [] => oret a
  | x :: l => do a <- f a x; ofoldlM f a l
  end.

Definition postorder_SelectExpression (select : Expression) (selectCases : list (Expression * string))
    : outcome SelectResult :=
  if negb (typesKnown p) then oret (SelectExpression select selectCases)
  else
    do sel <- getConstant p select;
    match sel with
    | None => oret (SelectExpression select selectCases)
    | Some sel =>
        do st <- ofoldlM (select_step sel)
                   {| cases := []; someUnknown := false; changes := false;
                      finished := false; result := None |} selectCases;
        let selectCases' := if changes st then cases st else selectCases in
        let r := match result st with
                 | Some s => SelectState s
                 | None => SelectExpression select selectCases'
                 end in
        Done r (if changes st && bool_decide (length (cases st) = O) && negb (nonnull (result st))
                   && warnings p
                then [DWarning "no case matches"] else [])
    end.
End selects.

Inductive Statement :=
| EmptyStatement
| IfStatement (condition : Expression) (ifTrue : Statement) (ifFalse : option Statement)
| OtherStatement (n : nat).

Definition postorder_IfStatement (condition : Expression) (ifTrue : Statement)
    (ifFalse : option Statement) : Statement :=
  match condition with
  | BoolLiteral true => ifTrue
  | BoolLiteral false => match ifFalse with None => EmptyStatement | Some s => s end
  | _ => IfStatement condition ifTrue ifFalse
  end.
