(* ===== verification/ConstantFoldingFacts.v ===== *)
(** * Correctness of constant folding

    The value of an expression is preserved by every [postorder] method, and
    so by the whole pass; the helper lemmas are grouped by the function they
    are about. *)
From S2P Require Import Prelude Gmp Ir Refinement ConstantFolding.
Local Open Scope Z_scope.
Local Open Scope flexplan_scope.

(** ** [CloneConstants] *)
Lemma clone_refines env e : forall e' ds, clone e = Done e' ds -> refines env e e'.
Proof.
  induction e; intros e' ds He; simpl in He;
    try (by injection He as <- <-); try (by intros v Hv).
  - intros v Hv. apply eval_Constant_inv in Hv as Hc. destruct Hc as (Ht & Hz & ->).
    destruct type; try done; rewrite mkConstant_in_range in He by done; by injection He as <- <-.
  - odo He. injection He as <- <-. eapply refines_unary; eauto.
  - odo He. odo He. injection He as <- <-. eapply refines_binary; eauto.
  - odo He. odo He. odo He. injection He as <- <-. eapply refines_slice; eauto.
  - odo He. odo He. odo He. injection He as <- <-. eapply refines_mux; eauto.
  - odo He. injection He as <- <-. eapply refines_cast; eauto.
Qed.

(** ** [getConstant] *)
Section getConstant.
Context `{Mpz} (p : DoConstantFolding).

(** The constant is the expression itself, or a copy of a cast. *)
Lemma getConstant_shape e c ds :
  getConstant p e = Done (Some c) ds ->
  c = e \/ exists t x x', e = Cast t x /\ c = Cast t x'.
Proof.
  assert (Henum : forall r : outcome (option (Type_ * string)),
    (if typesKnown p then do ei <- r; oret (if nonnull ei then Some e else None)
     else oret None) = Done (Some c) ds -> c = e).
  { intros r Hr. destruct (typesKnown p); [|done]. odo Hr.
    apply oret_Done in Hr as [Hr _]. by destruct r0; simplify_eq/=. }
  intros Hc. destruct e;
    try (left; by apply (Henum (EnumInstance_resolve p _)) in Hc);
    simpl in Hc.
  - left. by injection Hc.
  - left. by injection Hc.
  - right. odo Hc. destruct r; [|done]. odo Hc. simpl in Hm0. odo Hm0.
    apply oret_Done in Hm0 as [<- ->]. apply oret_Done in Hc as [[= <-] _]. eauto.
  - left. odo Hc. apply oret_Done in Hc as [Hc _]. by destruct r; simplify_eq/=.
  - left. odo Hc. apply oret_Done in Hc as [Hc _]. by destruct r; simplify_eq/=.
Qed.

Lemma getConstant_int e t v b ds :
  getConstant p e = Done (Some (Constant t v b)) ds -> e = Constant t v b.
Proof. intros Hc. apply getConstant_shape in Hc as [->|(? & ? & ? & -> & ?)]; done. Qed.

Lemma getConstant_bool e b ds :
  getConstant p e = Done (Some (BoolLiteral b)) ds -> e = BoolLiteral b.
Proof. intros Hc. apply getConstant_shape in Hc as [->|(? & ? & ? & -> & ?)]; done. Qed.

(** An enum member or a list has no scalar value. *)
Lemma EnumInstance_resolve_Some env e c ds r ds' :
  getConstant p e = Done (Some c) ds -> EnumInstance_resolve p c = Done (Some r) ds' ->
  eval env e = None.
Proof.
  intros Hc Hr. apply getConstant_shape in Hc as [->|(? & ? & ? & -> & ->)]; [|done].
  by destruct e.
Qed.
End getConstant.

(** ** Arithmetic *)
Lemma saturate_clamp w s z :
  1 <= w -> clamp (Type_Bits w s) z = Some (saturate w s z).
Proof.
  intros Hw. unfold saturate. rewrite !Z.shiftl_mul_pow2, !Z.mul_1_l by lia.
  pose proof (pow2_pos (w - 1) ltac:(lia)). pose proof (pow2_pos w ltac:(lia)).
  destruct s; simpl; f_equal.
  - destruct (Z.ltb_spec z (- 2 ^ (w - 1)));
      [destruct (Z.leb_spec (2 ^ (w - 1)) (- 2 ^ (w - 1)))|destruct (Z.leb_spec (2 ^ (w - 1)) z)]; lia.
  - destruct (Z.ltb_spec z 0); [destruct (Z.leb_spec (2 ^ w) 0)|destruct (Z.leb_spec (2 ^ w) z)]; lia.
Qed.

Definition saturating (op : binop) : bool :=
  match op with AddSat | SubSat => true | _ => false end.

(** What the meaning of [op] at type [t] is, in terms of [fold_func]. *)
Definition folds_to (op : binop) (t : Type_) (x : Z) : option value :=
  if is_relation op then Some (VBool (negb (x =? 0)))
  else if saturating op then VInt t <$> clamp t x
  else Some (VInt t (wrap t x)).

Lemma b2z_nonzero b : negb (b2z b =? 0) = b.
Proof. by destruct b. Qed.

Lemma fold_func_sem op t a b v x ds :
  is_arith op = true -> wf_int t = true -> in_range t a = true -> in_range t b = true ->
  sem_arith op t a b = Some v -> fold_func op a b = Done x ds ->
  folds_to op t x = Some v.
Proof.
  intros Ho Ht Ha Hb Hv Hx.
  destruct op; try done; simpl in Hv; cbn [fold_func] in Hx; unfold folds_to; cbn [is_relation saturating];
    try (apply oret_Done in Hx as [<- _]; rewrite ?b2z_nonzero; done).
  - destruct ((0 <=? a) && (0 <? b)) eqn:E; [|done].
    destruct ((a <? 0) || (b <? 0)) eqn:E1; [lia|].
    destruct (Z.eqb_spec b 0); [lia|]. apply oret_Done in Hx as [<- _].
    rewrite Z.quot_div_nonneg by lia. rewrite <- Hv. do 2 f_equal.
    apply wrap_in_range; [done|]. apply in_range_between with a; [done|]. left.
    split; [apply Z.div_pos; lia|]. apply Z.div_le_upper_bound; nia.
  - destruct ((0 <=? a) && (0 <? b)) eqn:E; [|done].
    destruct ((a <? 0) || (b <? 0)) eqn:E1; [lia|].
    destruct (Z.eqb_spec b 0); [lia|]. apply oret_Done in Hx as [<- _].
    rewrite Z.rem_mod_nonneg by lia. rewrite <- Hv. do 2 f_equal.
    apply wrap_in_range; [done|]. apply in_range_between with a; [done|]. left.
    split; [apply Z.mod_pos_bound; lia|apply Z.mod_le; lia].
Qed.

Section soundness.
Context `{Mpz} {laws : MpzLaws} (p : DoConstantFolding) (env : string -> option value).

(** [binary] on two literals of one integer type. *)
Lemma binary_literals op ty t a b la lb x ds0 v e' ds :
  wf_int t = true -> fold_func op a b = Done x ds0 -> folds_to op t x = Some v ->
  postorder_binary p op ty (Constant t a la) (Constant t b lb) = Done e' ds ->
  eval env e' = Some v.
Proof.
  intros Ht Hx Hv Hb. unfold postorder_binary, binary in Hb. simpl in Hb.
  rewrite Hx in Hb. simpl in Hb. unfold folds_to in Hv.
  destruct t as [| | |w s| | | | | |]; try done; simpl in Hb.
  - destruct op; simplify_eq/=; try done;
      repeat (case_match; simplify_eq/=); done.
  - rewrite Z.eqb_refl, Bool.eqb_reflx in Hb. simpl in Hb.
    destruct (saturating op) eqn:Hs.
    + assert (is_relation op = false) as Hr by (by destruct op). rewrite Hr in *.
      rewrite saturate_clamp in Hv by (simpl in Ht; lia). injection Hv as <-.
      assert (Hb' : exists ds', mkConstant (Type_Bits w s) (saturate w s x) la true = Done e' ds')
        by (destruct op; try done; simpl in Hb; destruct (mkConstant _ _ _ _); simplify_eq/=; by eexists).
      destruct Hb' as [ds' Hm]. apply (eval_mkConstant env) in Hm as ->; [|done].
      do 2 f_equal. apply wrap_in_range; [done|].
      pose proof (saturate_clamp w s x ltac:(simpl in Ht; lia)) as Hc.
      simpl in Ht. pose proof (pow2_pos (w - 1) ltac:(lia)). pose proof (pow2_pos w ltac:(lia)).
      destruct s; simpl in Hc |- *; injection Hc as <-; lia.
    + destruct (is_relation op) eqn:Hr.
      * assert (Hb' : e' = BoolLiteral (negb (x =? 0)))
          by (destruct op; try done; simpl in Hb; by injection Hb as <- <-).
        by rewrite Hb'.
      * assert (Hb' : exists ds', mkConstant (Type_Bits w s) x la true = Done e' ds')
          by (destruct op; try done; simpl in Hb; destruct (mkConstant _ _ _ _); simplify_eq/=; by eexists).
        destruct Hb' as [ds' Hm]. apply (eval_mkConstant env) in Hm as ->; [|done]. done.
Qed.

(** The two operands of a folded operator are literals, or the node is kept. *)
Lemma binary_cases op ty l r f sat e' ds :
  binary p op ty l r f sat = Done e' ds ->
  e' = Operation_Binary op ty l r \/
  exists lt lv lb rt rv rb, l = Constant lt lv lb /\ r = Constant rt rv rb.
Proof.
  unfold binary. intros Hb. odo Hb. odo Hb.
  destruct r0 as [cl|]; [|left; by apply oret_Done in Hb as [<- _]].
  destruct r1 as [cr|]; [|left; by apply oret_Done in Hb as [<- _]].
  destruct cl; try (left; by injection Hb).
  destruct cr; try (left; by injection Hb).
  apply getConstant_int in Hm as ->. apply getConstant_int in Hm0 as ->. right. eauto 10.
Qed.

Lemma postorder_binary_sound op ty l r v e' ds :
  is_arith op = true -> op <> Range -> op <> Mask ->
  eval env (Operation_Binary op ty l r) = Some v ->
  postorder_binary p op ty l r = Done e' ds -> eval env e' = Some v.
Proof.
  intros Ho Hn1 Hn2 Hv Hb. assert (is_strict op = true) by (by destruct op).
  destruct (binary_cases _ _ _ _ _ _ _ _ Hb) as [->|(lt & lv & lb & rt & rv & rb & -> & ->)]; [done|].
  apply eval_arith_inv in Hv as (v1 & v2 & H1 & H2 & Hv); [|done].
  apply eval_Constant_inv in H1 as (Hw & Hr & ->). apply eval_Constant_inv in H2 as (Hw' & Hr' & ->).
  rewrite sem_binop_arith in Hv by done.
  destruct (same_type lt rt) eqn:E; [|done]. apply same_type_eq in E as [<- _].
  destruct (fold_func op lv rv) as [x ds0|w] eqn:Ef.
  - eapply binary_literals; [exact Hw|exact Ef| |exact Hb].
    eapply fold_func_sem; [exact Ho|exact Hw|exact Hr|exact Hr'|exact Hv|exact Ef].
  - unfold fold_func, oret, fail_with, report in Ef.
    destruct op; try done; by repeat case_match.
Qed.

(** [compare] on an expression that has a value, so is no list. *)
Lemma compare_scalar (eqTest : bool) ty l r :
  eval env l <> None ->
  let e := Operation_Binary (if eqTest then Equ else Neq) ty l r in
  compare p eqTest ty l r =
    do eleft <- getConstant p l;
    do eright <- getConstant p r;
    match eleft, eright with
    | Some cl, Some cr =>
        match cl with
        | BoolLiteral a =>
            match cr with
            | BoolLiteral b => oret (BoolLiteral (Bool.eqb (Bool.eqb a b) eqTest))
            | _ => fail_with "both operands must be Boolean" e
            end
        | _ =>
            do res <-
              (if typesKnown p then
                 do le <- EnumInstance_resolve p cl;
                 do re <- EnumInstance_resolve p cr;
                 match le, re with
                 | Some (lt, lname), Some (rt, rname) =>
                     if same_enum lt rt
                     then oret (Some (BoolLiteral (Bool.eqb (String.eqb lname rname) eqTest)))
                     else Aborted "different enum types in comparison"
                 | _, _ => oret None
                 end
               else oret None);
            match res with
            | Some res => oret res
            | None => postorder_binary p (if eqTest then Equ else Neq) ty l r
            end
        end
    | _, _ => oret e
    end.
Proof. by destruct l. Qed.

(** Scalars are no enum members: that part of [compare] is skipped. *)
Lemma enum_skipped l cl cr ds1 (eqTest : bool) (k : outcome Expression) e' ds :
  eval env l <> None -> getConstant p l = Done (Some cl) ds1 ->
  (do res <-
     (if typesKnown p then
        do le <- EnumInstance_resolve p cl;
        do re <- EnumInstance_resolve p cr;
        match le, re with
        | Some (lt, lname), Some (rt, rname) =>
            if same_enum lt rt
            then oret (Some (BoolLiteral (Bool.eqb (String.eqb lname rname) eqTest)))
            else Aborted "different enum types in comparison"
        | _, _ => oret None
        end
      else oret None);
   match res with Some res => oret res | None => k end) = Done e' ds ->
  exists ds', k = Done e' ds'.
Proof.
  intros Hl Hcl Hk. odo Hk. destruct (typesKnown p).
  - odo Hm. odo Hm. destruct r0 as [ei|].
    + exfalso. apply Hl. by eapply EnumInstance_resolve_Some.
    + apply oret_Done in Hm as [<- _]. eauto.
  - apply oret_Done in Hm as [<- _]. eauto.
Qed.

Lemma compare_sound (eqTest : bool) ty l r v e' ds :
  eval env (Operation_Binary (if eqTest then Equ else Neq) ty l r) = Some v ->
  compare p eqTest ty l r = Done e' ds -> eval env e' = Some v.
Proof.
  intros Hv Hc. apply eval_arith_inv in Hv as Hi; [|by destruct eqTest].
  destruct Hi as (v1 & v2 & H1 & H2 & Hs).
  rewrite compare_scalar in Hc by congruence. odo Hc. odo Hc.
  destruct r0 as [cl|]; [|by apply oret_Done in Hc as [<- _]].
  destruct r1 as [cr|]; [|by apply oret_Done in Hc as [<- _]].
  assert (Hbin : forall ds', postorder_binary p (if eqTest then Equ else Neq) ty l r = Done e' ds' ->
                   eval env e' = Some v).
  { intros ds' Hb. eapply postorder_binary_sound; [..|exact Hv|exact Hb]; by destruct eqTest. }
  assert (Hl : eval env l <> None) by congruence.
  destruct cl as [|a| | | | | | | | | | |];
    try (apply (enum_skipped l _ cr _ eqTest _ e' _ Hl Hm) in Hc as [? ?]; by eapply Hbin).
  destruct cr as [|b| | | | | | | | | | |]; try (by injection Hc as <- <-).
  apply getConstant_bool in Hm as ->. apply getConstant_bool in Hm0 as ->.
  apply oret_Done in Hc as [<- _]. simplify_eq/=.
  destruct eqTest, a, b; simplify_eq/=; done.
Qed.

Lemma postorder_Cmpl_sound ty x v e' ds :
  eval env (Operation_Unary Cmpl ty x) = Some v ->
  postorder_Cmpl p ty x = Done e' ds -> eval env e' = Some v.
Proof.
  intros Hv Hc. unfold postorder_Cmpl in Hc. odo Hc.
  destruct r as [c|]; [|by apply oret_Done in Hc as [<- _]].
  destruct c; try (by injection Hc as <- <-). apply getConstant_int in Hm as ->.
  simpl in Hv. destruct (_ && _) eqn:E; [|done]. apply andb_true_iff in E as [Ht Hz].
  destruct type; try done; try (by injection Hc as <- <-).
  apply (eval_mkConstant env) in Hc as ->; [|done]. done.
Qed.

Lemma postorder_Neg_sound ty x v e' ds :
  eval env (Operation_Unary Neg ty x) = Some v ->
  postorder_Neg p ty x = Done e' ds -> eval env e' = Some v.
Proof.
  intros Hv Hc. unfold postorder_Neg in Hc. odo Hc.
  destruct r as [c|]; [|by apply oret_Done in Hc as [<- _]].
  destruct c; try (by injection Hc as <- <-). apply getConstant_int in Hm as ->.
  simpl in Hv. destruct (_ && _) eqn:E; [|done]. apply andb_true_iff in E as [Ht Hz].
  destruct type; try done; try (by injection Hc as <- <-);
    apply (eval_mkConstant env) in Hc as ->; done.
Qed.

Lemma postorder_LNot_sound ty x v e' ds :
  eval env (Operation_Unary LNot ty x) = Some v ->
  postorder_LNot p ty x = Done e' ds -> eval env e' = Some v.
Proof.
  intros Hv Hc. unfold postorder_LNot in Hc. odo Hc.
  destruct r as [c|]; [|by apply oret_Done in Hc as [<- _]].
  destruct c; try (by injection Hc as <- <-). apply getConstant_bool in Hm as ->.
  by apply oret_Done in Hc as [<- _].
Qed.

(** A literal operand and the other one, as [LAnd], [LOr] and [Equ] pick them. *)
Lemma postorder_LAnd_sound ty l r v e' ds :
  eval env (Operation_Binary LAnd ty l r) = Some v ->
  postorder_LAnd p ty l r = Done e' ds -> eval env e' = Some v.
Proof.
  intros Hv Hc. unfold postorder_LAnd in Hc. odo Hc. odo Hc.
  destruct r0 as [cl|], r1 as [cr|]; try (by apply oret_Done in Hc as [<- _]).
  1,2: destruct cl as [|[]| | | | | | | | | | |]; try (by injection Hc as <- <-);
    apply getConstant_bool in Hm as ->; apply oret_Done in Hc as [<- _]; simpl in Hv;
    [destruct (eval env r) as [[]|]; by simplify_eq|by simplify_eq].
  destruct cr as [|[]| | | | | | | | | | |]; try (by injection Hc as <- <-);
    apply getConstant_bool in Hm0 as ->; apply oret_Done in Hc as [<- _]; simpl in Hv;
    destruct (eval env l) as [[[]|]|]; by simplify_eq.
Qed.

Lemma postorder_LOr_sound ty l r v e' ds :
  eval env (Operation_Binary LOr ty l r) = Some v ->
  postorder_LOr p ty l r = Done e' ds -> eval env e' = Some v.
Proof.
  intros Hv Hc. unfold postorder_LOr in Hc. odo Hc. odo Hc.
  destruct r0 as [cl|], r1 as [cr|]; try (by apply oret_Done in Hc as [<- _]).
  1,2: destruct cl as [|[]| | | | | | | | | | |]; try (by injection Hc as <- <-);
    apply getConstant_bool in Hm as ->; apply oret_Done in Hc as [<- _]; simpl in Hv;
    [by simplify_eq|destruct (eval env r) as [[]|]; by simplify_eq].
  destruct cr as [|[]| | | | | | | | | | |]; try (by injection Hc as <- <-);
    apply getConstant_bool in Hm0 as ->; apply oret_Done in Hc as [<- _]; simpl in Hv;
    destruct (eval env l) as [[[]|]|]; by simplify_eq.
Qed.

Lemma postorder_Equ_sound ty l r v e' ds :
  eval env (Operation_Binary Equ ty l r) = Some v ->
  postorder_Equ p ty l r = Done e' ds -> eval env e' = Some v.
Proof.
  intros Hv Hc. unfold postorder_Equ in Hc.
  destruct (typesKnown p); [|by eapply (compare_sound true)].
  odo Hc. destruct r0 as [t|]; [|done].
  destruct t; try (by eapply (compare_sound true)).
  odo Hc. odo Hc.
  apply eval_arith_inv in Hv as Hi; [|done]. destruct Hi as (v1 & v2 & H1 & H2 & Hs).
  assert (Hcmp : forall ds', compare p true ty l r = Done e' ds' -> eval env e' = Some v)
    by (intros ds' Hb; eapply (compare_sound true); [exact Hv|exact Hb]).
  destruct r0 as [cl|], r1 as [cr|]; try (by eapply Hcmp); try (by apply oret_Done in Hc as [<- _]).
  - destruct cl as [|b| | | | | | | | | | |]; try (by eapply Hcmp).
    apply getConstant_bool in Hm0 as ->. apply oret_Done in Hc as [<- _].
    simplify_eq/=. destruct v2 as [b2|]; simplify_eq/=.
    destruct b; simpl; rewrite ?H2; by destruct b2.
  - destruct cr as [|b| | | | | | | | | | |]; try (by eapply Hcmp).
    apply getConstant_bool in Hm1 as ->. apply oret_Done in Hc as [<- _].
    simplify_eq/=. destruct v1 as [b1|]; simplify_eq/=.
    destruct b; simpl; rewrite ?H1; by destruct b1.
Qed.

Lemma postorder_Mux_sound ty e0 e1 e2 v e' ds :
  eval env (Mux ty e0 e1 e2) = Some v ->
  postorder_Mux p ty e0 e1 e2 = Done e' ds -> eval env e' = Some v.
Proof.
  intros Hv Hc. unfold postorder_Mux in Hc. odo Hc.
  destruct r as [c|]; [|by apply oret_Done in Hc as [<- _]].
  destruct c as [|b| | | | | | | | | | |]; try done.
  apply getConstant_bool in Hm as ->. apply oret_Done in Hc as [<- _].
  simpl in Hv. by destruct b.
Qed.

(** What the inputs of the pass promise: the type map tells the types of
    values, and a recorded constant has the value of its name. *)
Definition typeMap_sound : Prop :=
  forall tm e t v, typeMap p = Some tm -> tm e = Some t -> eval env e = Some v ->
                   type_of_value v = t.
Definition refMap_sound : Prop :=
  forall getDeclaration path t dc cst,
    refMap p = Some getDeclaration -> getDeclaration path = Declaration_Constant dc ->
    constants p !! dc = Some cst -> refines env (PathExpression t path) cst.


Lemma getTypeNotNull_sound orig t v ds :
  typeMap_sound -> eval env orig = Some v -> getTypeNotNull p orig = Done t ds ->
  type_of_value v = t.
Proof.
  intros Hs Hv Ht. unfold getTypeNotNull, getType in Ht. odo Ht.
  destruct r as [t'|]; [|done]. apply oret_Done in Ht as [-> _].
  destruct (typeMap p) as [tm|] eqn:E; [|done].
  destruct (tm orig) as [t''|] eqn:E'; [|done]. apply oret_Done in Hm as [[= ->] _]. eauto.
Qed.


Lemma postorder_Slice_sound orig ty x e1 e2 v e' ds :
  typeMap_sound -> eval env orig = Some v -> no_errors ds = true ->
  eval env (Slice ty x e1 e2) = Some v ->
  postorder_Slice p orig ty x e1 e2 = Done e' ds -> eval env e' = Some v.
Proof.
  intros Htm Ho Hds Hv Hc. unfold postorder_Slice in Hc. odo Hc. odo Hc.
  destruct r as [msb|], r0 as [lsb|]; try (by injection Hc as <- <-).
  destruct (negb (typesKnown p)); [by injection Hc as <- <-|].
  odo Hc. destruct r as [c0|]; [|by injection Hc as <- <-].
  destruct msb as [tm vm bm| | | | | | | | | | | |]; try (by injection Hc as <- <-).
  destruct lsb as [tl vl bl| | | | | | | | | | | |]; try (by injection Hc as <- <-).
  destruct c0 as [t0 v0 b0| | | | | | | | | | | |]; try (by injection Hc as <- <-).
  apply getConstant_int in Hm as ->. apply getConstant_int in Hm0 as ->.
  apply getConstant_int in Hm1 as ->.
  odo Hc. odo Hc. subst. rewrite !no_errors_app, !andb_true_iff in Hds.
  destruct Hds as (_ & _ & _ & Hd1 & Hd2 & Hd3).
  apply asInt_clean in Hm as [-> Hm]; [|done]. apply asInt_clean in Hm0 as [-> Hm0]; [|done].
  destruct (vm <? vl) eqn:E1; [by injection Hc as <- <-|].
  destruct (_ || _); [by injection Hc as <- <-|]. odo Hc.
  apply (getTypeNotNull_sound _ _ _ _ Htm Ho) in Hm1. subst r.
  simpl in Hv. apply bind_Some in Hv as (w0 & Hw0 & (w1 & Hw1 & (w2 & Hw2 & Hv)%bind_Some)%bind_Some).
  change (eval env (Constant t0 v0 b0) = Some w0) in Hw0.
  apply eval_Constant_inv in Hw0 as (? & ? & ->).
  change (eval env (Constant tm vm bm) = Some w1) in Hw1.
  apply eval_Constant_inv in Hw1 as (? & ? & ->).
  change (eval env (Constant tl vl bl) = Some w2) in Hw2.
  apply eval_Constant_inv in Hw2 as (? & ? & ->).
  simpl in Hv. destruct t0; try done. destruct (_ && _) eqn:E; [|done]. injection Hv as <-.
  simpl in Hc.
  apply (eval_mkConstant env) in Hc as ->; [|simpl; lia]. simpl. do 2 f_equal.
  rewrite (wrapu_small 64 vl) by lia.
  rewrite Z.shiftl_mul_pow2, Z.mul_1_l, land_ones_wrapu by lia. apply wrapu_idem.
Qed.

(** [+] joins the operands only when the right one is not negative. *)
Definition concat_operand_ok (r : Expression) : Prop :=
  forall t z, eval env r = Some (VInt t z) -> 0 <= z /\ width_bits t < 2 ^ 31.


Lemma postorder_Concat_sound ty l r v e' ds :
  concat_operand_ok r -> eval env (Operation_Binary Concat ty l r) = Some v ->
  postorder_Concat p ty l r = Done e' ds -> eval env e' = Some v.
Proof.
  intros Hok Hv Hc. unfold postorder_Concat in Hc. odo Hc. odo Hc.
  destruct r0 as [cl|], r1 as [cr|]; try (by injection Hc as <- <-).
  destruct cl as [tl vl bl| | | | | | | | | | | |]; try (by injection Hc as <- <-).
  destruct cr as [tr vr br| | | | | | | | | | | |]; try (by injection Hc as <- <-).
  apply getConstant_int in Hm as ->. apply getConstant_int in Hm0 as ->.
  apply bind_Some in Hv as (v1 & Hv1 & (v2 & Hv2 & Hv)%bind_Some).
  destruct (eval_Constant_inv env _ _ bl _ Hv1) as (Hwl & Hrl & ->).
  destruct (eval_Constant_inv env _ _ br _ Hv2) as (Hwr & Hrr & ->).
  destruct (Hok _ _ Hv2) as [Hpos Hw].
  destruct tl as [| | |w1 s1| | | | | |], tr as [| | |w2 s2| | | | | |]; try done.
  simpl in Hv, Hc, Hw, Hwl, Hwr, Hrr. rewrite (wrapu_small 32) in Hc by lia.
  rewrite shift_left_shiftl, Z.shiftl_mul_pow2 in Hc by lia.
  assert (vr < 2 ^ w2).
  { destruct s2; [|lia]. pose proof (pow2_split w2). pose proof (pow2_pos (w2 - 1)). lia. }
  injection Hv as <-. rewrite wrapu_small, lor_shiftl_add by lia.
  by apply (eval_mkConstant env) in Hc as ->; [|simpl; lia].
Qed.

Lemma shift_sound (op : binop) ty l r v e' ds :
  op = Shl \/ op = Shr -> no_errors ds = true ->
  eval env (Operation_Binary op ty l r) = Some v ->
  shift p op ty l r = Done e' ds -> eval env e' = Some v.
Proof.
  intros Hop Hds Hv Hc. unfold shift in Hc. odo Hc.
  destruct r0 as [cr|]; [|by injection Hc as <- <-].
  destruct cr as [tr vr br| | | | | | | | | | | |]; try (by injection Hc as <- <-).
  apply getConstant_int in Hm as ->.
  destruct (vr <? 0) eqn:Hneg; [by injection Hc as <- <-|].
  assert (Hsem : exists t1 z1 t2, eval env l = Some (VInt t1 z1) /\
            eval env (Constant tr vr br) = Some (VInt t2 vr) /\
            v = VInt t1 (match op with Shl => wrap t1 (z1 * 2 ^ vr) | _ => z1 / 2 ^ vr end)).
  { apply eval_arith_inv in Hv as (v1 & v2 & Hv1 & Hv2 & Hv); [|by destruct Hop as [-> | ->]].
    destruct Hop as [-> | ->]; rewrite Hv1, Hv2; destruct (eval_Constant_inv env _ _ br _ Hv2) as (_ & _ & ->);
      destruct v1; simpl in Hv; try done; destruct (0 <=? vr); simplify_eq; eauto 10. }
  destruct Hsem as (t1 & z1 & t2 & Hl & Hr & ->).
  pose proof (eval_ok _ _ _ Hl) as Hok. simpl in Hok. apply andb_true_iff in Hok as [Hw Hz].
  destruct (Z.eqb_spec vr 0) as [->|Hnz].
  { apply oret_Done in Hc as [<- _]. rewrite Hl. do 2 f_equal.
    destruct Hop as [-> | ->]; [by rewrite Z.mul_1_r, wrap_in_range|by rewrite Z.div_1_r]. }
  odo Hc. destruct r as [cl|]; [|by injection Hc as <- <-].
  destruct cl as [tl vl bl| | | | | | | | | | | |]; try (by injection Hc as <- <-).
  apply getConstant_int in Hm as ->. odo Hc. odo Hc. subst.
  rewrite !no_errors_app, !andb_true_iff in Hds. destruct Hds as (_ & _ & Hd & _).
  apply asInt_clean in Hm as [-> Hm]; [|done].
  apply eval_Constant_inv in Hl as (_ & _ & [= -> ->]).
  apply (eval_mkConstant env) in Hc as ->; [|done].
  rewrite (wrapu_small 32 vr) by lia. do 2 f_equal.
  destruct Hop as [-> | ->]; [done|]. unfold Util.shift_right. apply wrap_in_range; [done|].
  eapply in_range_between; [exact Hz|]. apply shiftr_between. lia.
Qed.

Lemma eval_Cast_type t x v : eval env (Cast t x) = Some v -> type_of_value v = t.
Proof.
  simpl. destruct (match t with Type_Bits _ _ => _ | _ => _ end); [|done].
  destruct (eval env x) as [[b|t1 z]|]; [| |done]; simpl; destruct t; try done.
  - by intros [= <-].
  - destruct (_ && _); [|done]. by intros [= <-].
  - destruct (to_Bits t1) as [[w s]|]; [|done]. destruct (_ && _); [|done]. by intros [= <-].
  - by intros [= <-].
Qed.

Lemma postorder_Cast_sound orig t x v e' ds :
  typeMap_sound -> eval env orig = Some v ->
  eval env (Cast t x) = Some v ->
  postorder_Cast p orig t x = Done e' ds -> eval env e' = Some v.
Proof.
  intros Htm Ho Hv Hc. pose proof (eval_Cast_type _ _ _ Hv) as Ht.
  unfold postorder_Cast in Hc. odo Hc.
  destruct r as [c|]; [|by injection Hc as <- <-]. odo Hc.
  assert (r = t) as ->.
  { destruct (typesKnown p); [|by apply oret_Done in Hm0 as [-> _]].
    by apply (getTypeNotNull_sound _ _ _ _ Htm Ho) in Hm0 as <-. }
  pose proof Hv as Hkeep. simpl in Hv.
  destruct t as [| | |w s| | | | | |]; try (by injection Hc as <- <-).
  - destruct c as [ct cv cb|b| | | | | | | | | | |]; try (by injection Hc as <- <-).
    + apply getConstant_int in Hm as ->. simpl in Hv.
      destruct (wf_int ct && in_range ct cv) eqn:E; [|done]. simpl in Hv.
      destruct ct as [| | |w s| | | | | |]; try done. simpl in Hv.
      destruct s; [by rewrite andb_false_r in Hv|]. destruct (Z.eqb_spec w 1) as [->|]; [|done].
      simpl in Hv, E. injection Hv as <-. simpl in Hc.
      rewrite mpz_get_si_law, wraps_small in Hc by lia.
      destruct ((cv <? 0) || (1 <? cv)) eqn:E2; [lia|]. by injection Hc as <- _.
    + apply getConstant_bool in Hm as ->. apply oret_Done in Hc as [<- _]. done.
  - destruct (wf_int (Type_Bits w s)) eqn:Hw; [|done].
    destruct c as [ct cv cb|b| | | | | | | | | | |]; try (by injection Hc as <- <-).
    + apply getConstant_int in Hm as ->. simpl in Hv.
      destruct (wf_int ct && in_range ct cv) eqn:E; [|done]. injection Hv as <-.
      by apply (eval_mkConstant env) in Hc as ->.
    + apply getConstant_bool in Hm as ->. simpl in Hv.
      destruct (_ && _) eqn:E; [|done]. injection Hv as <-.
      apply (eval_mkConstant env) in Hc as ->; [|done]. do 2 f_equal.
      apply andb_true_iff in E as [->%Z.eqb_eq E]. by destruct s, b.
  - exfalso. simpl in Hv. destruct (eval env x) as [[]|]; done.
Qed.

Lemma postorder_PathExpression_sound t path v e' ds :
  refMap_sound -> eval env (PathExpression t path) = Some v ->
  postorder_PathExpression p t path = Done e' ds -> eval env e' = Some v.
Proof.
  intros Hrm Hv Hc. unfold postorder_PathExpression in Hc.
  destruct (refMap p) as [gd|] eqn:Eg; [|by injection Hc as <- <-].
  destruct (gd path) as [|dc|] eqn:Ed; try (by injection Hc as <- <-).
  destruct (constants p !! dc) as [cst|] eqn:Ec; [|by injection Hc as <- <-].
  pose proof (Hrm _ _ t _ _ Eg Ed Ec _ Hv) as Hcst.
  destruct cst; try done; exact (clone_refines env _ _ _ Hc _ Hcst).
Qed.

(** Every concatenation in [e] has a right operand that [+] can join. *)
Fixpoint concats_ok (e : Expression) : Prop :=
  match e with
  | Operation_Unary _ _ x | Cast _ x => concats_ok x
  | Operation_Binary op _ l r =>
      concats_ok l /\ concats_ok r /\ (op = Concat -> concat_operand_ok r)
  | Slice _ e0 e1 e2 | Mux _ e0 e1 e2 => concats_ok e0 /\ concats_ok e1 /\ concats_ok e2
  | _ => True
  end.

Lemma shift_operand_ok r r' :
  (exists v, eval env r = Some v) -> refines env r r' ->
  concat_operand_ok r -> concat_operand_ok r'.
Proof. intros [v Hv] Hr Hok t z Hz. apply Hr in Hv as Hv'. rewrite Hz in Hv'. by apply Hok; simplify_eq. Qed.

Lemma postorder_binop_sound op ty l r v orig e' ds :
  no_errors ds = true -> (op = Concat -> concat_operand_ok r) ->
  eval env (Operation_Binary op ty l r) = Some v ->
  postorder p orig (Operation_Binary op ty l r) = Done e' ds -> eval env e' = Some v.
Proof.
  intros Hds Hcc Hv Hp.
  destruct op; simpl in Hp;
    try (eapply postorder_binary_sound; [..|exact Hv|exact Hp]; done).
  - eapply shift_sound; [by left|exact Hds|exact Hv|exact Hp].
  - eapply shift_sound; [by right|exact Hds|exact Hv|exact Hp].
  - eapply postorder_Equ_sound; eauto.
  - eapply (compare_sound false); eauto.
  - eapply postorder_LAnd_sound; eauto.
  - eapply postorder_LOr_sound; eauto.
  - eapply postorder_Concat_sound; [by apply Hcc|exact Hv|exact Hp].
  - by injection Hp as <- <-.
  - by injection Hp as <- <-.
Qed.

Lemma apply_refines e :
  typeMap_sound -> refMap_sound -> concats_ok e ->
  forall e' ds, apply_ p e = Done e' ds -> no_errors ds = true -> refines env e e'.
Proof.
  intros Htm Hrm.
  induction e; intros Hcc e' ds He Hds v Hv; try done; simpl in He, Hcc.
  - by injection He as <- <-.
  - by injection He as <- <-.
  - eapply postorder_PathExpression_sound; eauto.
  - odo He. subst. apply no_errors_split in Hds as [Hd1 Hd2].
    assert (Hv' : eval env (Operation_Unary op type r) = Some v)
      by (eapply refines_unary; [|exact Hv]; eauto).
    destruct op; simpl in He;
      [exact (postorder_Neg_sound _ _ _ _ _ Hv' He)|exact (postorder_Cmpl_sound _ _ _ _ _ Hv' He)
      |exact (postorder_LNot_sound _ _ _ _ _ Hv' He)].
  - odo He. odo He. subst. apply no_errors_split in Hds as [Hd1 [Hd2 Hd3]%no_errors_split].
    destruct Hcc as (Hc1 & Hc2 & Hc3).
    assert (Hl : refines env e1 r) by eauto. assert (Hr : refines env e2 r0) by eauto.
    assert (Hv' : eval env (Operation_Binary op type r r0) = Some v)
      by (eapply refines_binary; eauto).
    eapply (postorder_binop_sound _ _ _ _ _ (Operation_Binary op type e1 e2));
      [exact Hd3| |exact Hv'|exact He].
    intros ->. eapply shift_operand_ok; [|exact Hr|auto].
    apply eval_arith_inv in Hv as (? & v2 & _ & ? & _); eauto.
  - odo He. odo He. odo He. subst. apply no_errors_split in Hds as [Hd1 [Hd2 [Hd3 Hd4]%no_errors_split]%no_errors_split].
    destruct Hcc as (Hc1 & Hc2 & Hc3).
    assert (Hv' : eval env (Slice type r r0 r1) = Some v)
      by (eapply refines_slice; [..|exact Hv]; eauto).
    eapply postorder_Slice_sound; [exact Htm|exact Hv|exact Hd4|exact Hv'|exact He].
  - odo He. odo He. odo He. subst. apply no_errors_split in Hds as [Hd1 [Hd2 [Hd3 Hd4]%no_errors_split]%no_errors_split].
    destruct Hcc as (Hc1 & Hc2 & Hc3).
    assert (Hv' : eval env (Mux type r r0 r1) = Some v)
      by (eapply refines_mux; [..|exact Hv]; eauto).
    eapply postorder_Mux_sound; [exact Hv'|exact He].
  - odo He. subst. apply no_errors_split in Hds as [Hd1 Hd2].
    assert (Hv' : eval env (Cast destType r) = Some v)
      by (eapply refines_cast; [|exact Hv]; eauto).
    eapply postorder_Cast_sound; [exact Htm|exact Hv|exact Hv'|exact He].
Qed.
End soundness.

(** ** Select expressions *)

(** What a key set matches, for a selected value of literals. *)
Section select_meaning.
Context (env : string -> option value).

Definition eval_int (e : Expression) : option Z :=
  match eval env e with Some (VInt _ z) => Some z | _ => None end.

Fixpoint matches (key sel : Expression) {struct sel} : option bool :=
  match key with
  | DefaultExpression => Some true
  | _ =>
      match sel with
      | ListExpression l =>
          match key with
          | ListExpression kl =>
              (fix go l kl :=
                 match l, kl with
                 | [], [] => Some true
                 | x :: l, k :: kl =>
                     match matches k x, go l kl with
                     | Some b1, Some b2 => Some (b1 && b2)
                     | _, _ => None
                     end
                 | _, _ => None
                 end) l kl
          | _ => match l with [x] => matches key x | _ => None end
          end
      | BoolLiteral b =>
          match eval env key with Some (VBool k) => Some (Bool.eqb b k) | _ => None end
      | Constant _ v _ =>
          match key with
          | Operation_Binary Range _ lo hi =>
              lo ← eval_int lo; hi ← eval_int hi; Some ((lo <=? v) && (v <=? hi))
          | Operation_Binary Mask _ val mask =>
              val ← eval_int val; mask ← eval_int mask;
              Some (Z.land v mask =? Z.land val mask)
          | _ => k ← eval_int key; Some (k =? v)
          end
      | _ => None
      end
  end.

(** The first case that matches gives the state; [None] inside is "no
    match", [None] outside an undefined key. *)
Fixpoint run_select (sel : Expression) (cs : list (Expression * string))
    : option (option string) :=
  match cs with
  | [] => Some None
  | (k, s) :: cs =>
      match matches k sel with
      | Some true => Some (Some s)
      | Some false => run_select sel cs
      | None => None
      end
  end.

Definition run_result (sel : Expression) (r : SelectResult) : option (option string) :=
  match r with
  | SelectState s => Some (Some s)
  | SelectExpression _ cs => run_select sel cs
  end.

Lemma run_select_app sel l1 l2 :
  run_select sel (l1 ++ l2) =
    match run_select sel l1 with Some None => run_select sel l2 | r => r end.
Proof.
  induction l1 as [|[k s] l1 IH]; simpl; [done|].
  destruct (matches k sel) as [[]|]; [done| |done]. apply IH.
Qed.
End select_meaning.

(** Structural induction that reaches the elements of lists. *)
Section Expression_list_induction.
Context (P : Expression -> Prop)
  (Hlist : forall l, Forall P l -> P (ListExpression l))
  (Hother : forall e, (forall l, e <> ListExpression l) -> P e).

Fixpoint Expression_list_ind (e : Expression) : P e :=
  match e with
  | ListExpression l =>
      Hlist l ((fix go l : Forall P l :=
                  match l with
                  | [] => Forall_nil_2 P
                  | x :: l => Forall_cons_2 P x l (Expression_list_ind x) (go l)
                  end) l)
  | e => ltac:(apply Hother; discriminate)
  end.
End Expression_list_induction.

Section select_soundness.
Context `{Mpz} (p : DoConstantFolding) (env : string -> option value).

Lemma deref_getConstant e c v ds ds' z :
  getConstant p e = Done (Some c) ds -> deref_Constant c = Done v ds' ->
  eval_int env e = Some z -> z = v.
Proof.
  intros Hc Hd Hz. destruct c; try done. apply getConstant_int in Hc as ->.
  apply oret_Done in Hd as [-> _]. unfold eval_int in Hz.
  destruct (eval env _) as [[|t' z']|] eqn:E; [done| |done].
  apply eval_Constant_inv in E as (_ & _ & [= -> ->]). congruence.
Qed.

Definition answers (r : Result) (m : bool) : Prop :=
  match r with Yes => m = true | No => m = false | DontKnow => True end.

Lemma eval_int_Constant t k b z : eval_int env (Constant t k b) = Some z -> z = k.
Proof.
  unfold eval_int. destruct (eval env _) as [[|]|] eqn:E; [done| |done].
  apply eval_Constant_inv in E as (_ & _ & [= -> ->]). congruence.
Qed.

Lemma setContains_integer key t v b r ds m :
  setContains p key (Constant t v b) = Done r ds -> matches env key (Constant t v b) = Some m ->
  answers r m.
Proof.
  intros Hs Hm. destruct key; simpl in Hs, Hm;
    try (apply oret_Done in Hs as [<- _]; by simplify_eq/=);
    try (unfold fail_with, report in Hs; by injection Hs as <- _).
  - apply oret_Done in Hs as [<- _].
    apply bind_Some in Hm as (k & Hk & Hm). apply eval_int_Constant in Hk as ->. simplify_eq.
    by destruct (value =? v) eqn:E.
  - destruct op; try (unfold fail_with, report in Hs; by injection Hs as <- _);
      odo Hs; (destruct r0 as [c1|]; [|by injection Hs as <- _]);
      odo Hs; (destruct r0 as [c2|]; [|by injection Hs as <- _]); odo Hs;
      apply bind_Some in Hm as (z1 & Hz1 & (z2 & Hz2 & [= <-])%bind_Some);
      pose proof (deref_getConstant _ _ _ _ _ _ Hm0 Hm2 Hz1) as ->.
    + destruct (Z.leb_spec r0 v); simpl in Hs; [|by apply oret_Done in Hs as [<- _]].
      odo Hs. pose proof (deref_getConstant _ _ _ _ _ _ Hm1 Hm Hz2) as ->.
      apply oret_Done in Hs as [<- _]. simpl. by destruct (v <=? r1).
    + odo Hs. pose proof (deref_getConstant _ _ _ _ _ _ Hm1 Hm Hz2) as ->.
      apply oret_Done in Hs as [<- _].
      rewrite (Z.land_comm r1 v), Z.eqb_sym. by destruct (_ =? _) eqn:E.
Qed.

Lemma setContains_bool key b r ds m :
  setContains p key (BoolLiteral b) = Done r ds -> matches env key (BoolLiteral b) = Some m ->
  answers r m.
Proof.
  intros Hs Hm.
  assert (Hcase : key = DefaultExpression \/
    (setContains p key (BoolLiteral b) =
       (do c <- getConstant p key;
        match c with
        | Some (BoolLiteral k) => oret (if Bool.eqb b k then Yes else No)
        | _ => Aborted "expected a boolean"
        end) /\
     matches env key (BoolLiteral b) =
       match eval env key with Some (VBool k) => Some (Bool.eqb b k) | _ => None end))
    by (destruct key; auto).
  destruct Hcase as [->|[Hs' Hm']]; [by injection Hs as <- _; injection Hm as <-|]. rewrite Hs' in Hs. rewrite Hm' in Hm.
  odo Hs. destruct r0 as [[]|]; try done. apply getConstant_bool in Hm0 as ->.
  apply oret_Done in Hs as [<- _]. simplify_eq/=. by destruct (Bool.eqb b value).
Qed.

(** [setContains] answers as the key set means. *)
Lemma setContains_answers sel : forall key r ds m,
  setContains p key sel = Done r ds -> matches env key sel = Some m -> answers r m.
Proof.
  induction sel as [l IH|sel Hl] using Expression_list_ind; intros key r ds m Hs Hm.
  - assert (Hsing : forall x, l = [x] -> setContains p key x = Done r ds ->
              matches env key x = Some m -> answers r m).
    { intros x ->. apply Forall_cons in IH as [IH _]. eauto. }
    destruct key; simpl in Hs, Hm;
      try (by apply oret_Done in Hs as [<- _]; simplify_eq/=);
      try (destruct l as [|x [|]]; try done; by apply (Hsing x)).
    clear Hsing. rename components into kl.
    destruct (Nat.eqb (length l) (length kl)); [|done]. simpl in Hs.
    revert kl r ds m Hs Hm. induction IH as [|x l Hx _ IHl]; intros [|k kl] r ds m Hs Hm; simplify_eq/=.
    { by apply oret_Done in Hs as [<- _]. }
    odo Hs. destruct (matches env k x) as [b1|] eqn:E1; [|done].
    match type of Hm with match ?g with _ => _ end = _ => destruct g as [b2|] eqn:E2; [|done] end.
    simplify_eq/=.
    pose proof (Hx _ _ _ _ Hm0 E1) as Ha. destruct r0; simpl in Ha; subst.
    + eapply IHl; eauto.
    + by apply oret_Done in Hs as [<- _].
    + by apply oret_Done in Hs as [<- _].
  - destruct sel; try (by destruct key; simplify_eq/=; apply oret_Done in Hs as [<- _]; simplify_eq/=).
    + by eapply setContains_integer.
    + by eapply setContains_bool.
    + by destruct (Hl components).
Qed.

(** What a state of the loop over the cases, and the cases still to come,
    select. *)
Definition loop_meaning (sel : Expression) (st : select_loop) (rest : list (Expression * string))
    : option (option string) :=
  match result st with
  | Some s => Some (Some s)
  | None => run_select env sel (cases st ++ (if finished st then [] else rest))
  end.

(** Without an unknown case every case so far was dropped; a result ends
    the loop. *)
Definition loop_ok (st : select_loop) : Prop :=
  (someUnknown st = false -> cases st = []) /\
  (result st <> None -> finished st = true).

Lemma select_step_meaning sel st c rest st' ds r :
  loop_ok st -> select_step p sel st c = Done st' ds ->
  loop_meaning sel st (c :: rest) = Some r ->
  loop_ok st' /\ loop_meaning sel st' rest = Some r.
Proof.
  intros [Hu Hr] Hs Hm. unfold select_step in Hs.
  destruct (finished st) eqn:Hf.
  { injection Hs as <- _. split; [by split|]. unfold loop_meaning in *. by rewrite Hf in *. }
  assert (Hnone : result st = None) by (destruct (result st); [|done]; by specialize (Hr ltac:(done)); congruence).
  unfold loop_meaning in Hm. rewrite Hnone, Hf in Hm. odo Hs.
  apply oret_Done in Hs as [<- _]. rewrite run_select_app in Hm. destruct c as [k s].
  destruct r0; unfold loop_ok, loop_meaning; simpl.
  - assert (Hyes : run_select env sel (cases st ++ [(DefaultExpression, s)]) = Some r /\
                   (cases st = [] -> r = Some s)).
    { rewrite run_select_app. destruct (run_select env sel (cases st)) as [[]|] eqn:E; try done.
      - split; [done|]. intros Hnil. by rewrite Hnil in E.
      - simpl in Hm. destruct (matches env k sel) as [m|] eqn:Em; [|done].
        pose proof (setContains_answers _ _ _ _ _ Hm0 Em) as Ha. simpl in Ha. subst m.
        injection Hm as <-. split; [by destruct sel|done]. }
    destruct Hyes as [H1 H2]. destruct (someUnknown st); simpl.
    + rewrite Hnone, app_nil_r. split; [|done]. by split.
    + rewrite H2 by auto. split; [|done]. split; [auto|done].
  - rewrite Hnone. split; [done|]. rewrite run_select_app.
    destruct (run_select env sel (cases st)) as [[]|]; try done.
    simpl in Hm. destruct (matches env k sel) as [m|] eqn:Em; [|done].
    pose proof (setContains_answers _ _ _ _ _ Hm0 Em) as Ha. simpl in Ha. by subst m.
  - rewrite Hnone. split; [done|]. rewrite !run_select_app. simpl.
    destruct (run_select env sel (cases st)) as [[]|]; try done. simpl in Hm.
    by destruct (matches env k sel) as [[]|].
Qed.

Lemma select_loop_meaning sel l : forall st st' ds r,
  loop_ok st -> ofoldlM (select_step p sel) st l = Done st' ds ->
  loop_meaning sel st l = Some r -> loop_ok st' /\ loop_meaning sel st' [] = Some r.
Proof.
  induction l as [|c l IH]; intros st st' ds r Hok Hl Hm; simpl in Hl.
  - by apply oret_Done in Hl as [<- _].
  - odo Hl. destruct (select_step_meaning _ _ _ _ _ _ _ Hok Hm0 Hm). eauto.
Qed.

(** Resolving a select over literals keeps its choice: the state is that of
    the first matching case, and the cases that are dropped or replaced by
    a default are not missed. *)
Lemma postorder_SelectExpression_ok select sel cs r out ds ds' :
  getConstant p select = Done (Some sel) ds ->
  postorder_SelectExpression p select cs = Done out ds' ->
  run_select env sel cs = Some r -> run_result env sel out = Some r.
Proof.
  intros Hsel Ho Hr. unfold postorder_SelectExpression in Ho.
  destruct (typesKnown p); [|by injection Ho as <- _]. simpl in Ho. rewrite Hsel in Ho. simpl in Ho.
  destruct (ofoldlM (select_step p sel) _ cs) as [st ds1|] eqn:Hf; [|done].
  apply (select_loop_meaning _ _ _ _ _ r) in Hf as [_ Hm]; [|by split|done].
  unfold loop_meaning in Hm.
  assert (Hc : (if finished st then [] else []) = @nil (Expression * string)) by (by destruct (finished st)).
  rewrite Hc, app_nil_r in Hm.
  injection Ho as <- _. destruct (result st) as [s|]; [done|]. simpl. by destruct (changes st).
Qed.
End select_soundness.

(** ** Properties *)

(** The literal with a given value. *)
Definition literal_of (base : Z) (v : value) : Expression :=
  match v with VBool b => BoolLiteral b | VInt t z => Constant t z base end.

Lemma handleOverflow_nowarning t z :
  wf_int t = true -> handleOverflow t z true = Done (wrap t z) [].
Proof.
  intros Ht. destruct (handleOverflow_spec t z true Ht) as [ds Hd]. rewrite Hd. f_equal.
  destruct t as [| | |w s| | | | | |]; try done; cbn -[Z.shiftl Z.land Util.mask wrap] in Hd;
    [by injection Hd|].
  destruct s; [destruct (_ || _)|destruct (_ <? _)]; try done; by injection Hd as _ <-.
Qed.

Lemma fold_func_Done op t a b v :
  op <> Range -> op <> Mask -> sem_arith op t a b = Some v -> exists x, fold_func op a b = Done x [].
Proof.
  intros ? ? Hv. destruct op; try done; simpl in Hv |- *; try (by eexists);
    (destruct ((0 <=? a) && (0 <? b)) eqn:E; [|done]);
    (destruct ((a <? 0) || (b <? 0)) eqn:E1; [lia|]);
    (destruct (Z.eqb_spec b 0); [lia|]); by eexists.
Qed.


Definition folding_example : Expression :=
  let b8 := Type_Bits 8 false in
  Mux b8 (Operation_Binary Grt Type_Boolean (PathExpression b8 "limit") (Constant b8 3 10))
    (Operation_Binary Concat Type_Unknown (Constant (Type_Bits 4 false) 10 10)
       (Slice Type_Unknown (Constant b8 200 10) (intConstant 6) (intConstant 3)))
    (PathExpression b8 "x").
Definition folding_example_pass : DoConstantFolding := {|
  refMap := Some (fun path => if String.eqb path "limit" then Declaration_Constant "limit"
                              else Declaration_null);
  typeMap := Some (fun e => match e with
                              | Slice _ _ (Constant _ 6 _) (Constant _ 3 _) => Some (Type_Bits 4 false)
                              | _ => None
                              end);
  warnings := true;
  constants := {[ "limit" := Constant (Type_Bits 8 false) 7 10 ]}
|}.
Definition folding_example_env (path : string) : option value :=
  if String.eqb path "limit" then Some (VInt (Type_Bits 8 false) 7) else None.


Lemma literals_fold `{Mpz} p op ty t a b la lb v :
  is_arith op = true -> op <> Range -> op <> Mask ->
  wf_int t = true -> in_range t a = true -> in_range t b = true ->
  sem_arith op t a b = Some v ->
  postorder_binary p op ty (Constant t a la) (Constant t b lb) = Done (literal_of la v) [].
Proof.
  intros Ho Hr Hm Ht Ha Hb Hv. destruct (fold_func_Done op t a b v Hr Hm Hv) as [x Hx].
  pose proof (fold_func_sem _ _ _ _ _ _ _ Ho Ht Ha Hb Hv Hx) as Hf.
  unfold postorder_binary, binary. simpl. rewrite Hx. simpl. unfold folds_to in Hf.
  destruct t as [| | |w s| | | | | |]; try done; simpl.
  - destruct op; try done; simpl in *; by simplify_eq/=.
  - rewrite Z.eqb_refl, Bool.eqb_reflx. simpl.
    destruct (saturating op) eqn:Hs.
    + assert (Hrel : is_relation op = false) by (by destruct op). rewrite Hrel in *.
      rewrite saturate_clamp in Hf by (simpl in Ht; lia). injection Hf as <-.
      assert (Hin : in_range (Type_Bits w s) (saturate w s x) = true).
      { assert (Hok : value_ok (VInt (Type_Bits w s) (saturate w s x)) = true); 
          [|apply andb_true_iff in Hok as [_ Hok]; exact Hok].
        eapply sem_arith_ok; [exact Ht|exact Ha|exact Hb|exact Hv]. }
      destruct op; try done; simpl; rewrite mkConstant_in_range by done; done.
    + assert (Hmk : mkConstant (Type_Bits w s) x la true =
                      Done (Constant (Type_Bits w s) (wrap (Type_Bits w s) x) la) [])
        by (unfold mkConstant; by rewrite handleOverflow_nowarning).
      destruct op; try done; cbn -[mkConstant wrap] in *; rewrite ?Hmk; by simplify_eq/=.
Qed.

(** Folding is complete for arithmetic: on two literals of one type whose
    operation has a value, the result is the literal with that value and
    nothing is reported. *)
Theorem binary_folds `{Mpz} p op ty t a b la lb v :
  is_arith op = true -> op <> Range -> op <> Mask ->
  wf_int t = true -> in_range t a = true -> in_range t b = true ->
  sem_arith op t a b = Some v ->
  postorder_binary p op ty (Constant t a la) (Constant t b lb) = Done (literal_of la v) [].
Proof. by apply literals_fold. Qed.

Lemma binary_folds_witness :
  postorder_binary folding_example_pass AddSat Type_Unknown
    (Constant (Type_Bits 8 true) 100 16) (Constant (Type_Bits 8 true) 100 10) =
  Done (Constant (Type_Bits 8 true) 127 16) [].
Proof. by apply (binary_folds _ AddSat _ (Type_Bits 8 true) 100 100 16 10 (VInt (Type_Bits 8 true) 127)). Defined.

(** C37. Resolving a select keeps its choice: the state is that of the first
    matching case, and cases that are dropped, or replaced by a default, are
    not missed. *)
Theorem select_resolution_sound `{Mpz} p env select sel cs r out ds ds' :
  getConstant p select = Done (Some sel) ds ->
  postorder_SelectExpression p select cs = Done out ds' ->
  run_select env sel cs = Some r -> run_result env sel out = Some r.
Proof. apply postorder_SelectExpression_ok. Qed.

Definition select_example : list (Expression * string) :=
  let b8 z := Constant (Type_Bits 8 false) z 10 in
  [(ListExpression [b8 1; b8 2], "a");
   (ListExpression [Operation_Binary Range Type_Unknown (b8 1) (b8 9);
                    Operation_Binary Mask Type_Unknown (b8 0xF0) (b8 0xF0)], "b");
   (DefaultExpression, "c")].
Definition select_example_on : Expression :=
  ListExpression [Constant (Type_Bits 8 false) 7 10; Constant (Type_Bits 8 false) 0xF3 10].

Lemma select_resolution_sound_witness :
  postorder_SelectExpression folding_example_pass select_example_on select_example =
    Done (SelectState "b") [DWarning "unreachable case"] /\
  run_result (fun _ => None) select_example_on (SelectState "b") = Some (Some "b").
Proof.
  split; [vm_compute; reflexivity|].
  apply (select_resolution_sound folding_example_pass (fun _ => None) select_example_on
           select_example_on select_example (Some "b") _ [] [DWarning "unreachable case"]);
    vm_compute; reflexivity.
Defined.

(** The behaviours outside the theorems' hypotheses. *)

(** A negative right operand borrows from the left one: [4s0 ++ 4s-1] is -1
    instead of [0x0F]. *)
Example concat_of_negative_operand :
  let e := Operation_Binary Concat Type_Unknown
             (Constant (Type_Bits 4 true) 0 10) (Constant (Type_Bits 4 true) (-1) 10) in
  eval (fun _ => None) e = Some (VInt (Type_Bits 8 true) 15) /\
  apply_ folding_example_pass e = Done (Constant (Type_Bits 8 true) (-1) 10) [].
Proof. by vm_compute. Qed.

(** An untyped operand is compared before it is cast: [8w1 == 257] folds to
    false, while the cast it reports on makes the operands equal. *)
Example untyped_operand_compared_before_cast :
  let e1 := Constant (Type_Bits 8 false) 1 10 in
  postorder_binary folding_example_pass Equ Type_Boolean e1 (intConstant 257) =
    Done (BoolLiteral false) [DWarning "value does not fit"] /\
  cast 257 10 (Type_Bits 8 false) =
    Done (Constant (Type_Bits 8 false) 1 10) [DWarning "value does not fit"].
Proof. by vm_compute. Qed.
