(* ===== verification/StrengthReduction.v ===== *)
(** * Strength reduction: [frontends/p4/strengthReduction.cpp]

    [DoStrengthReduction]: the helpers, every [postorder] method and the
    bottom-up driver.  [int] arithmetic that would overflow aborts. *)
From S2P Require Import Prelude Gmp Ir.
Local Open Scope Z_scope.
Local Open Scope flexplan_scope.

Module DoStrengthReduction.

Definition isOne (e : Expression) : bool :=
  match e with Constant _ v _ => v =? 1 | _ => false end.
Definition isZero (e : Expression) : bool :=
  match e with Constant _ v _ => v =? 0 | _ => false end.
Definition isTrue (e : Expression) : bool :=
  match e with BoolLiteral b => b | _ => false end.
Definition isFalse (e : Expression) : bool :=
  match e with BoolLiteral b => negb b | _ => false end.

Definition to_Cmpl (e : Expression) : option Expression :=
  match e with Operation_Unary Cmpl _ x => Some x | _ => None end.

Section pass.
Context `{Mpz}.

(** The bit index is narrowed to [int]. *)
Definition isPowerOf2 (e : Expression) : Z :=
  match e with
  | Constant _ v _ =>
      if v <=? 0 then -1
      else if negb (mpz_popcount v =? 1) then -1
      else wraps 32 (mpz_scan1 v 0)
  | _ => -1
  end.

Definition isAllOnes (e : Expression) : bool :=
  match e with
  | Constant t v _ =>
      if v <=? 0 then false else mpz_popcount v =? wrapu 64 (width_bits t)
  | _ => false
  end.

Definition postorder_Cmpl (type : Type_) (x : Expression) : Expression :=
  match to_Cmpl x with Some a => a | None => Operation_Unary Cmpl type x end.

Definition postorder_BAnd (type : Type_) (l r : Expression) : Expression :=
  if isZero l then l
  else if isZero r then r
  else if isAllOnes l then r
  else if isAllOnes r then l
  else match to_Cmpl l, to_Cmpl r with
       | Some l', Some r' => mkUnary Cmpl (mkBinary BOr l' r')
       | _, _ => Operation_Binary BAnd type l r
       end.

Definition postorder_BOr (type : Type_) (l r : Expression) : Expression :=
  if isZero l then r
  else if isZero r then l
  else match to_Cmpl l, to_Cmpl r with
       | Some l', Some r' => mkUnary Cmpl (mkBinary BAnd l' r')
       | _, _ => Operation_Binary BOr type l r
       end.

(** The operands' complements are stripped in place. *)
Definition postorder_BXor (type : Type_) (l r : Expression) : Expression :=
  if isZero l then r
  else if isZero r then l
  else
    let '(l, cmpl) := match to_Cmpl l with Some l' => (l', true) | None => (l, false) end in
    let '(r, cmpl) := match to_Cmpl r with Some r' => (r', negb cmpl) | None => (r, cmpl) end in
    let e := Operation_Binary BXor type l r in
    if cmpl : bool then mkUnary Cmpl e else e.

Definition postorder_LAnd (type : Type_) (l r : Expression) : Expression :=
  if isFalse l then l
  else if isTrue l then r
  else if isTrue r then l
  else Operation_Binary LAnd type l r.

Definition postorder_LOr (type : Type_) (l r : Expression) : Expression :=
  if isFalse l then r
  else if isTrue l then l
  else if isFalse r then l
  else Operation_Binary LOr type l r.

Definition postorder_LNot (type : Type_) (x : Expression) : Expression :=
  match x with
  | Operation_Binary Equ _ l r => mkRelation Neq l r
  | Operation_Binary Neq _ l r => mkRelation Equ l r
  | Operation_Binary Leq _ l r => mkRelation Grt l r
  | Operation_Binary Geq _ l r => mkRelation Lss l r
  | Operation_Binary Lss _ l r => mkRelation Geq l r
  | Operation_Binary Grt _ l r => mkRelation Leq l r
  | _ => Operation_Unary LNot type x
  end.

Definition postorder_Sub (type : Type_) (l r : Expression) : outcome Expression :=
  if isZero r then oret l
  else if isZero l then oret (mkUnary Neg r)
  else match r with
       | Constant t v b =>
           do neg <- mkConstant t (- v) b true;
           oret (mkBinary Add l neg)
       | _ => oret (Operation_Binary Sub type l r)
       end.

Definition postorder_Add (type : Type_) (l r : Expression) : Expression :=
  if isZero r then l
  else if isZero l then r
  else Operation_Binary Add type l r.

(** [<<] and [>>] *)
Definition postorder_shift (op : binop) (type : Type_) (l r : Expression) : Expression :=
  if isZero r || isZero l then l else Operation_Binary op type l r.

Definition postorder_Mul (type : Type_) (l r : Expression) : Expression :=
  if isZero l then l
  else if isZero r then r
  else if isOne l then r
  else if isOne r then l
  else
    let exp := isPowerOf2 l in
    if 0 <=? exp then mkShift Shl r (intConstant exp)
    else
      let exp := isPowerOf2 r in
      if 0 <=? exp then mkShift Shl l (intConstant exp)
      else Operation_Binary Mul type l r.

Definition postorder_Div (type : Type_) (l r : Expression) : outcome Expression :=
  if isZero r then report (DError "Division by zero") (Operation_Binary Div type l r)
  else if isZero l then oret l
  else if isOne r then oret l
  else
    let exp := isPowerOf2 r in
    if 0 <=? exp then oret (mkShift Shr l (intConstant exp))
    else oret (Operation_Binary Div type l r).

Definition postorder_Mod (type : Type_) (l r : Expression) : outcome Expression :=
  if isZero r then report (DError "Modulo by zero") (Operation_Binary Mod type l r)
  else if isZero l then oret l
  else
    let exp := isPowerOf2 r in
    if 0 <=? exp then
      let mask := Z.shiftl 1 exp - 1 in
      do amt <- mkConstant (type_of r) mask 10 false;
      oret (mkBinary BAnd l amt)
    else oret (Operation_Binary Mod type l r).

(** The [while] loop of [postorder(IR::Slice* )]: walk down concatenations.
    The index arithmetic is on [unsigned]. *)
Fixpoint slice_loop (type : Type_) (e0 e1 e2 : Expression) : outcome Expression :=
  match e0 with
  | Operation_Binary Concat _ cl cr =>
      let rwidth := wrapu 32 (width_bits (type_of cr)) in
      do l <- getIndex e2;
      if rwidth <=? l then
        do h <- getIndex e1;
        slice_loop type cl (intConstant (wrapu 32 (h - rwidth))) (intConstant (wrapu 32 (l - rwidth)))
      else
        do h <- getIndex e1;
        if h <? rwidth then slice_loop type cr e1 e2
        else oret (mkConcat type (mkSlice cl (wraps 32 (h - rwidth)) 0)
                                 (mkSlice cr (wraps 32 (rwidth - 1)) (wraps 32 l)))
  | _ => oret (Slice type e0 e1 e2)
  end.

(** The shift that is sliced: its amount (negative for [<<]) and operand. *)
Definition shift_operand (e0 : Expression) : outcome (option (Z * Expression)) :=
  match e0 with
  | Operation_Binary Shr _ x (Constant _ k _) => do k <- asInt k; oret (Some (k, x))
  | Operation_Binary Shl _ x (Constant _ k _) =>
      do k <- asInt k; do k <- int_result (- k); oret (Some (k, x))
  | _ => oret None
  end.

Definition postorder_Slice (type : Type_) (e0 e1 e2 : Expression) : outcome Expression :=
  do sh <- shift_operand e0;
  match sh with
  | None => slice_loop type e0 e1 e2
  | Some (shift_amt, shift_of) =>
      match type_of shift_of with
      | Type_Bits size false =>
          do hi <- getIndex e1;
          do lo <- getIndex e2;
          let hi := wraps 32 hi in
          let lo := wraps 32 lo in
          do hi' <- int_result (hi + shift_amt);
          do lo' <- int_result (lo + shift_amt);
          let '(e0, e1, e2) :=
            if (0 <=? lo') && (hi' <? size)
            then (shift_of, intConstant hi', intConstant lo') else (e0, e1, e2) in
          if hi' <=? 0 then mkConstant (Type_Bits (hi - lo + 1) false) 0 10 false
          else if lo' <? 0 then
            do zero <- mkConstant (Type_Bits (- lo') false) 0 10 false;
            oret (mkConcat type (Slice type shift_of (intConstant hi') (intConstant 0)) zero)
          else slice_loop type e0 e1 e2
      | _ => oret (Slice type e0 e1 e2)
      end
  end.

Definition postorder (e : Expression) : outcome Expression :=
  match e with
  | Operation_Unary Cmpl t x => oret (postorder_Cmpl t x)
  | Operation_Unary LNot t x => oret (postorder_LNot t x)
  | Operation_Binary BAnd t l r => oret (postorder_BAnd t l r)
  | Operation_Binary BOr t l r => oret (postorder_BOr t l r)
  | Operation_Binary BXor t l r => oret (postorder_BXor t l r)
  | Operation_Binary LAnd t l r => oret (postorder_LAnd t l r)
  | Operation_Binary LOr t l r => oret (postorder_LOr t l r)
  | Operation_Binary Sub t l r => postorder_Sub t l r
  | Operation_Binary Add t l r => oret (postorder_Add t l r)
  | Operation_Binary Shl t l r => oret (postorder_shift Shl t l r)
  | Operation_Binary Shr t l r => oret (postorder_shift Shr t l r)
  | Operation_Binary Mul t l r => oret (postorder_Mul t l r)
  | Operation_Binary Div t l r => postorder_Div t l r
  | Operation_Binary Mod t l r => postorder_Mod t l r
  | Slice t e0 e1 e2 => postorder_Slice t e0 e1 e2
  | _ => oret e
  end.

(** [Transform]: the children from left to right, then the node. *)
Fixpoint apply_ (e : Expression) : outcome Expression :=
  match e with
  | Operation_Unary op t x => do x <- apply_ x; postorder (Operation_Unary op t x)
  | Operation_Binary op t l r =>
      do l <- apply_ l; do r <- apply_ r; postorder (Operation_Binary op t l r)
  | Slice t e0 e1 e2 =>
      do e0 <- apply_ e0; do e1 <- apply_ e1; do e2 <- apply_ e2; postorder (Slice t e0 e1 e2)
  | Mux t e0 e1 e2 =>
      do e0 <- apply_ e0; do e1 <- apply_ e1; do e2 <- apply_ e2; postorder (Mux t e0 e1 e2)
  | Member t x m => do x <- apply_ x; postorder (Member t x m)
  | Cast t x => do x <- apply_ x; postorder (Cast t x)
  | ListExpression l =>
      do l <- (fix go l :=
                 match l with
                 | [] => oret []
                 | x :: l => do y <- apply_ x; do ys <- go l; oret (y :: ys)
                 end) l;
      oret (ListExpression l)
  | StructInitializerExpression l =>
      do l <- (fix go (l : list (string * Expression)) :=
                 match l with
                 | [] => oret []
                 | (n, x) :: l => do y <- apply_ x; do ys <- go l; oret ((n, y) :: ys)
                 end) l;
      oret (StructInitializerExpression l)
  | _ => postorder e
  end.
End pass.
End DoStrengthReduction.
