(* ===== verification/StrengthReductionFacts.v ===== *)
(** * Correctness of strength reduction

    The rewritten expressions keep their values; the lemmas follow the
    [postorder] methods. *)
From S2P Require Import Prelude Gmp Ir Refinement StrengthReduction.
Import DoStrengthReduction.
Local Open Scope Z_scope.
Local Open Scope flexplan_scope.
#[local] Arguments wrap : simpl never.

(** ** Types of nodes

    The pass reads widths off the [type] fields of nodes; type checking has
    filled them in. *)
Definition fits (v : value) (t : Type_) : Prop :=
  match v with
  | VInt (Type_Bits w s) _ => t = Type_Bits w s /\ w < 2 ^ 31
  | VInt _ z => Z.log2 (Z.abs z) < 2 ^ 31
  | VBool _ => True
  end.

Definition annot (env : string -> option value) (e : Expression) : Prop :=
  forall v, eval env e = Some v -> fits v (type_of e).

(** Every node is annotated. *)
Fixpoint annotated (env : string -> option value) (e : Expression) : Prop :=
  annot env e /\
  match e with
  | Operation_Unary _ _ x | Cast _ x => annotated env x
  | Operation_Binary _ _ l r => annotated env l /\ annotated env r
  | Slice _ e0 e1 e2 | Mux _ e0 e1 e2 => annotated env e0 /\ annotated env e1 /\ annotated env e2
  | _ => True
  end.

(** Operators whose operands' annotations may be read later. *)
Definition reads (op : binop) : bool := negb (is_relation op) && is_strict op.

(** The nodes whose types may be read are annotated. *)
Fixpoint typed (env : string -> option value) (e : Expression) : Prop :=
  annot env e /\
  match e with
  | Operation_Unary (Cmpl | Neg) _ x => typed env x
  | Operation_Binary op _ l r => if reads op then typed env l /\ typed env r else True
  | Slice _ e0 _ _ => typed env e0
  | _ => True
  end.

Lemma typed_annot env e : typed env e -> annot env e.
Proof. destruct e; simpl; tauto. Qed.

Lemma annotated_annot env e : annotated env e -> annot env e.
Proof. destruct e; simpl; tauto. Qed.

(** [e] has the value [v] and can be built upon. *)
Definition good (env : string -> option value) (v : value) (e : Expression) : Prop :=
  eval env e = Some v /\ typed env e.

Section good.
Context (env : string -> option value).
Implicit Types (e l r x : Expression) (v : value).

Lemma good_fits v e : good env v e -> fits v (type_of e).
Proof. intros [Hv Ht]. by apply typed_annot in Ht; apply Ht. Qed.

Lemma good_ok v e : good env v e -> value_ok v = true.
Proof. intros [Hv _]. by eapply eval_ok. Qed.

Lemma eval_strict op t l r :
  is_strict op = true ->
  eval env (Operation_Binary op t l r) = v1 ← eval env l; v2 ← eval env r; sem_binop op v1 v2.
Proof. by destruct op. Qed.

Lemma annot_intro e v : eval env e = Some v -> fits v (type_of e) -> annot env e.
Proof. intros He Hf v' Hv'. by rewrite He in Hv'; injection Hv' as <-. Qed.

Lemma good_binary op t l r v1 v2 v :
  reads op = true -> good env v1 l -> good env v2 r -> sem_binop op v1 v2 = Some v ->
  fits v t -> good env v (Operation_Binary op t l r).
Proof.
  intros Ho [Hl Htl] [Hr Htr] Hv Hf.
  assert (He : eval env (Operation_Binary op t l r) = Some v).
  { apply andb_true_iff in Ho as [_ Ho]. rewrite eval_strict by done. by rewrite Hl, Hr. }
  split; [done|]. simpl. rewrite Ho. split; [|done]. by eapply annot_intro.
Qed.

Lemma good_unary op t x v1 v :
  op <> LNot -> good env v1 x -> sem_unop op v1 = Some v -> fits v t ->
  good env v (Operation_Unary op t x).
Proof.
  intros Ho [Hx Htx] Hv Hf.
  assert (He : eval env (Operation_Unary op t x) = Some v) by (simpl; by rewrite Hx).
  split; [done|]. simpl. split; [by eapply annot_intro|]. by destruct op.
Qed.

Lemma sem_binop_reads_int op v1 v2 b : reads op = true -> sem_binop op v1 v2 <> Some (VBool b).
Proof.
  intros Ho Hs. destruct op; try done; destruct v1 as [|t1 z1], v2 as [|t2 z2]; try done; simpl in Hs;
    try (destruct (same_type t1 t2); [|done]; simpl in Hs;
         try (by apply fmap_Some in Hs as (? & _ & ?)); by repeat case_match);
    by repeat case_match.
Qed.

(** Booleans need no annotations. *)
Lemma good_bool b e : eval env e = Some (VBool b) -> good env (VBool b) e.
Proof.
  intros He. split; [done|]. assert (Ha : annot env e) by (by eapply annot_intro).
  destruct e; try done; simpl; split; try done.
  - destruct op; try done; simpl in He; destruct (eval env e) as [[|[]]|]; simplify_eq/=.
  - destruct (reads op) eqn:Ho; [|done]. exfalso.
    apply andb_true_iff in Ho as Ho'. destruct Ho' as [_ Hs]. rewrite eval_strict in He by done.
    apply bind_Some in He as (v1 & _ & (v2 & _ & He)%bind_Some). by eapply sem_binop_reads_int.
  - exfalso. apply bind_Some in He as (v0 & _ & (v1 & _ & (v2 & _ & He)%bind_Some)%bind_Some).
    destruct v0 as [|[] ?], v1, v2; simplify_eq/=. by case_match.
Qed.

Lemma good_inv_unary op t x v :
  op <> LNot -> good env v (Operation_Unary op t x) ->
  exists v1, good env v1 x /\ sem_unop op v1 = Some v.
Proof.
  intros Ho [He Ht]. apply bind_Some in He as (v1 & Hx & Hs). exists v1.
  split; [|done]. split; [done|]. simpl in Ht. by destruct op; destruct Ht.
Qed.

Lemma good_inv_binary op t l r v :
  reads op = true -> good env v (Operation_Binary op t l r) ->
  exists v1 v2, good env v1 l /\ good env v2 r /\ sem_binop op v1 v2 = Some v.
Proof.
  intros Ho [He Ht]. apply andb_true_iff in Ho as Ho'. destruct Ho' as [_ Hs].
  rewrite eval_strict in He by done.
  apply bind_Some in He as (v1 & Hl & (v2 & Hr & He)%bind_Some).
  simpl in Ht. rewrite Ho in Ht. destruct Ht as (_ & Htl & Htr). by exists v1, v2.
Qed.

(** ** Nodes the pass builds: the operand's type is the value's *)
Lemma fits_type v t v1 t1 :
  fits v t -> fits v1 t1 -> type_of_value v = type_of_value v1 -> fits v t1.
Proof. by destruct v as [|[] z], v1 as [|[] z1]; simpl; try done; intros ? [? ?] [= -> ->]. Qed.

Lemma sem_unop_type op v1 v : sem_unop op v1 = Some v -> type_of_value v = type_of_value v1.
Proof. destruct op, v1 as [|[] ?]; simpl; intros; by simplify_eq. Qed.

Lemma sem_arith_type op t a b v : is_relation op = false -> sem_arith op t a b = Some v -> type_of_value v = t.
Proof.
  intros Ho Hs. destruct op; simplify_eq/=; try done; try (by destruct (_ && _); simplify_eq);
    by apply fmap_Some in Hs as (? & _ & ->).
Qed.

Lemma sem_binop_type op v1 v2 v :
  is_arith op = true -> is_relation op = false -> sem_binop op v1 v2 = Some v ->
  exists t a b, v1 = VInt t a /\ v2 = VInt t b /\ type_of_value v = t /\ sem_arith op t a b = Some v.
Proof.
  intros Ha Hr Hs. destruct v1 as [|t1 a], v2 as [|t2 c]; try (by destruct op).
  rewrite sem_binop_arith in Hs by done. destruct (same_type t1 t2) eqn:E; [|done].
  apply same_type_eq in E as [-> _]. exists t2, a, c. by repeat split; try eapply sem_arith_type.
Qed.

Lemma good_mkUnary op x v1 v t :
  op <> LNot -> good env v1 x -> sem_unop op v1 = Some v -> fits v t -> good env v (mkUnary op x).
Proof.
  intros Ho Hx Hs Hf. eapply good_unary; [done|done|done|].
  eapply fits_type; [done|by apply good_fits|]. by eapply sem_unop_type.
Qed.

Lemma good_mkBinary op l r v1 v2 v t :
  is_arith op = true -> is_relation op = false -> good env v1 l -> good env v2 r ->
  sem_binop op v1 v2 = Some v -> fits v t -> good env v (mkBinary op l r).
Proof.
  intros Ha Hrel Hl Hr Hs Hf.
  eapply good_binary; [by destruct op|done|done|done|].
  pose proof (good_fits _ _ Hl) as Hfl. pose proof (good_fits _ _ Hr) as Hfr.
  destruct (sem_binop_type _ _ _ _ Ha Hrel Hs) as (ty & a & b & -> & -> & Ht & _).
  destruct ty; destruct v as [|ty' z]; simplify_eq/=; try done.
  destruct Hfl as [-> ?], Hfr as [-> ?]. simpl. by rewrite Z.eqb_refl, Bool.eqb_reflx.
Qed.

Lemma good_mkShift op l r v1 v2 v t :
  op = Shl \/ op = Shr -> good env v1 l -> good env v2 r ->
  sem_binop op v1 v2 = Some v -> fits v t -> good env v (mkShift op l r).
Proof.
  intros Ho Hl Hr Hs Hf. eapply good_binary; [by destruct Ho as [-> | ->]|done|done|done|].
  eapply fits_type; [done|by apply good_fits|].
  destruct Ho as [-> | ->]; destruct v1, v2; simplify_eq/=; by destruct (0 <=? _); simplify_eq.
Qed.

Lemma good_Constant t z b v :
  eval env (Constant t z b) = Some v -> fits v t -> good env v (Constant t z b).
Proof. intros He Hf. split; [done|]. split; [|done]. by eapply annot_intro. Qed.

Lemma good_Constant_inv t z b v :
  good env v (Constant t z b) ->
  v = VInt t z /\ wf_int t = true /\ in_range t z = true /\ Z.log2 (Z.abs z) < 2 ^ 31.
Proof.
  intros Hg. pose proof (good_fits _ _ Hg) as Hf. destruct Hg as [He _].
  apply eval_Constant_inv in He as (Hw & Hr & ->). repeat split; try done.
  destruct t as [| | |w s| | | | | |]; try done. destruct Hf as [_ Hf]. simpl in Hw, Hr.
  destruct (decide (z = 0)) as [->|]; [done|].
  assert (Z.abs z < 2 ^ w).
  { destruct s; [|lia]. pose proof (pow2_split w). lia. }
  assert (Z.log2 (Z.abs z) < w) by (apply Z.log2_lt_pow2; lia). lia.
Qed.

(** The exponent [e] of a sized literal with value 1, 2, 4, ... *)
Lemma isPowerOf2_good `{MpzLaws} x v :
  good env v x -> 0 <= isPowerOf2 x ->
  exists t b, x = Constant t (2 ^ isPowerOf2 x) b /\ v = VInt t (2 ^ isPowerOf2 x).
Proof.
  intros Hg Hp. destruct x as [t z b| | | | | | | | | | | |]; try done.
  apply good_Constant_inv in Hg as (-> & Hw & Hr & Hl). unfold isPowerOf2 in *.
  destruct (Z.leb_spec z 0); [lia|].
  rewrite mpz_popcount_law in * by lia. destruct (Z.eqb_spec (popcount z) 1) as [Hc|]; [|simpl in Hp; lia].
  simpl in *. apply popcount_one_pow2 in Hc. rewrite Z.abs_eq in Hl by lia.
  pose proof (Z.log2_nonneg z).
  assert (Hs : mpz_scan1 z 0 = Z.log2 z).
  { apply (first_bit_unique z 0 true); [apply mpz_scan1_law; [lia|lia|]|].
    - exists (Z.log2 z). split; [lia|]. by apply Z.bit_log2.
    - split; [lia|]. split; [by apply Z.bit_log2|]. intros i Hi. rewrite Hc. simpl.
      apply Z.pow2_bits_false. lia. }
  rewrite Hs, wraps_small, <- Hc by lia. eauto.
Qed.

Lemma isAllOnes_good `{MpzLaws} x v :
  good env v x -> isAllOnes x = true ->
  exists w b, v = VInt (Type_Bits w false) (2 ^ w - 1) /\ 1 <= w /\
              x = Constant (Type_Bits w false) (2 ^ w - 1) b.
Proof.
  intros Hg Hp. destruct x as [t z b| | | | | | | | | | | |]; try done.
  pose proof (good_fits _ _ Hg) as Hf.
  apply good_Constant_inv in Hg as (-> & Hw & Hr & Hl). unfold isAllOnes in *.
  destruct (Z.leb_spec z 0); [done|]. rewrite mpz_popcount_law in Hp by lia.
  pose proof (popcount_pos z ltac:(lia)).
  apply Z.eqb_eq in Hp. destruct t as [| | |w s| | | | | |]; try done.
  { change (width_bits Type_InfInt) with 0 in Hp. rewrite wrapu_small in Hp; lia. }
  simpl in *. destruct Hf as [_ Hf]. rewrite wrapu_small in Hp by lia. destruct s.
  - destruct (popcount_width (w - 1) ltac:(lia) z ltac:(lia)). lia.
  - destruct (popcount_width w ltac:(lia) z ltac:(lia)) as [_ Hall].
    exists w, b. rewrite <- Hall by done. auto with lia.
Qed.
End good.

(** ** The [postorder] methods *)
Section methods.
Context `{MpzLaws} (env : string -> option value).
Implicit Types (l r x : Expression) (v : value).

Lemma to_Cmpl_good x x' v :
  to_Cmpl x = Some x' -> good env v x ->
  exists w s z, good env (VInt (Type_Bits w s) z) x' /\ 1 <= w /\
    v = VInt (Type_Bits w s) (wrap (Type_Bits w s) (Z.lnot z)).
Proof.
  intros Hc Hg. destruct x; try done. destruct op; try done. injection Hc as ->.
  apply good_inv_unary in Hg as (v1 & Hg & Hs); [|done].
  pose proof (good_ok _ _ _ Hg) as Hok.
  destruct v1 as [|[] z]; simplify_eq/=. exists size, isSigned, z. split; [done|]. split; [lia|done].
Qed.

Lemma postorder_Cmpl_good t x v1 v :
  good env v1 x -> sem_unop Cmpl v1 = Some v -> fits v t -> good env v (postorder_Cmpl t x).
Proof.
  intros Hx Hs Hf. unfold postorder_Cmpl. destruct (to_Cmpl x) as [a|] eqn:E; [|by eapply good_unary].
  destruct (to_Cmpl_good _ _ _ E Hx) as (w & s & z & Ha & Hw & ->).
  simpl in Hs. injection Hs as <-. pose proof (good_ok _ _ _ Ha) as Hok. simpl in Hok.
  apply andb_true_iff in Hok as [Hw' Hr].
  assert (Heq : wrap (Type_Bits w s) (Z.lnot (wrap (Type_Bits w s) (Z.lnot z))) = z); [|by rewrite Heq].
  rewrite <- (wrap_in_range (Type_Bits w s) z) at 2 by done.
  apply wrap_bits_eq; [lia|]. intros i Hi.
  by rewrite testbit_lnot, testbit_wrap_low, testbit_lnot, negb_involutive by lia.
Qed.

(** Integer operands of one type. *)
Lemma good_same_type op l r v1 v2 v :
  sem_binop op v1 v2 = Some v -> good env v1 l -> good env v2 r ->
  is_arith op = true -> is_relation op = false ->
  exists t a b, v1 = VInt t a /\ v2 = VInt t b /\ wf_int t = true /\
    in_range t a = true /\ in_range t b = true /\ sem_arith op t a b = Some v.
Proof.
  intros Hs Hl Hr Ha Hrel.
  destruct (sem_binop_type _ _ _ _ Ha Hrel Hs) as (t & a & b & -> & -> & _ & Hsem).
  pose proof (good_ok _ _ _ Hl) as Hok1. pose proof (good_ok _ _ _ Hr) as Hok2. simpl in *.
  apply andb_true_iff in Hok1 as [? ?]. apply andb_true_iff in Hok2 as [? ?].
  by exists t, a, b.
Qed.

Lemma isZero_good x v : good env v x -> isZero x = true -> exists t, v = VInt t 0.
Proof.
  intros Hg Hz. destruct x; try done. apply good_Constant_inv in Hg as (-> & _).
  apply Z.eqb_eq in Hz as ->. eauto.
Qed.
Lemma isOne_good x v : good env v x -> isOne x = true -> exists t, v = VInt t 1.
Proof.
  intros Hg Hz. destruct x; try done. apply good_Constant_inv in Hg as (-> & _).
  apply Z.eqb_eq in Hz as ->. eauto.
Qed.

(** Start a binary method: name the operands' values. *)
Ltac operands Hl Hr Hs :=
  let t := fresh "ty" in let a := fresh "a" in let b := fresh "b" in
  destruct (good_same_type _ _ _ _ _ _ Hs Hl Hr eq_refl eq_refl)
    as (t & a & b & -> & -> & ? & ? & ? & Hv);
  injection Hv as <-.

Ltac zero_operand Hg E := destruct (isZero_good _ _ Hg E) as [? [= <- ->]].

Lemma wrap_id t z : wf_int t = true -> in_range t z = true -> VInt t (wrap t z) = VInt t z.
Proof. intros. by rewrite wrap_in_range. Qed.

(** De Morgan on sized operands: [~a op ~b] is [~(a op' b)]. *)
Lemma complement_operands (f g : Z -> Z -> Z) w s a b :
  0 <= w ->
  (forall (x y : Z) i, 0 <= i -> Z.testbit (f x y) i = negb (Z.testbit (g (Z.lnot x) (Z.lnot y)) i)) ->
  (forall (x y x' y' : Z) i, 0 <= i -> Z.testbit x i = Z.testbit x' i -> Z.testbit y i = Z.testbit y' i ->
     Z.testbit (f x y) i = Z.testbit (f x' y') i) ->
  (forall (x y x' y' : Z) i, 0 <= i -> Z.testbit x i = Z.testbit x' i -> Z.testbit y i = Z.testbit y' i ->
     Z.testbit (g x y) i = Z.testbit (g x' y') i) ->
  wrap (Type_Bits w s) (f (wrap (Type_Bits w s) (Z.lnot a)) (wrap (Type_Bits w s) (Z.lnot b))) =
  wrap (Type_Bits w s) (Z.lnot (wrap (Type_Bits w s) (g a b))).
Proof.
  intros Hw Hfg Hf Hg. apply wrap_bits_eq; [done|]. intros i Hi.
  rewrite testbit_lnot, !testbit_wrap_low by lia.
  rewrite (Hf _ _ (Z.lnot a) (Z.lnot b)) by (try apply testbit_wrap_low; lia).
  rewrite Hfg by lia. f_equal. apply Hg; [lia|by rewrite Z.lnot_involutive..].
Qed.

Lemma good_complement op w s x y a b v t :
  is_arith op = true -> is_relation op = false ->
  good env (VInt (Type_Bits w s) a) x -> good env (VInt (Type_Bits w s) b) y ->
  fits v t -> type_of_value v = Type_Bits w s ->
  (exists z, sem_arith op (Type_Bits w s) a b = Some (VInt (Type_Bits w s) z) /\
     v = VInt (Type_Bits w s) (wrap (Type_Bits w s) (Z.lnot z))) ->
  good env v (mkUnary Cmpl (mkBinary op x y)).
Proof.
  intros Ha Hr Hx Hy Hf Ht (z & Hz & ->).
  assert (Hxy : good env (VInt (Type_Bits w s) z) (mkBinary op x y)).
  { eapply good_mkBinary; [done|done|exact Hx|exact Hy| |].
    - rewrite sem_binop_arith by done. simpl. by rewrite Z.eqb_refl, Bool.eqb_reflx.
    - exact (good_fits _ _ _ Hx). }
  eapply good_mkUnary; [done|exact Hxy|done|done].
Qed.

Lemma postorder_BAnd_good t l r v1 v2 v :
  good env v1 l -> good env v2 r -> sem_binop BAnd v1 v2 = Some v -> fits v t ->
  good env v (postorder_BAnd t l r).
Proof.
  intros Hl Hr Hs Hf. unfold postorder_BAnd. operands Hl Hr Hs.
  destruct (isZero l) eqn:E1; [zero_operand Hl E1; by rewrite Z.land_0_l, wrap_id|].
  destruct (isZero r) eqn:E2; [zero_operand Hr E2; by rewrite Z.land_0_r, wrap_id|].
  assert (Hones : forall z w, wf_int (Type_Bits w false) = true -> in_range (Type_Bits w false) z = true ->
            wrap (Type_Bits w false) (Z.land z (2 ^ w - 1)) = z).
  { intros z w Hw Hz. simpl in Hw. rewrite land_ones_wrapu by lia.
    change (wrapu w z) with (wrap (Type_Bits w false) z). by rewrite wrap_idem, wrap_in_range. }
  destruct (isAllOnes l) eqn:E3.
  { destruct (isAllOnes_good _ _ _ Hl E3) as (w & ? & [= -> ->] & ? & _).
    by rewrite Z.land_comm, Hones. }
  destruct (isAllOnes r) eqn:E4.
  { destruct (isAllOnes_good _ _ _ Hr E4) as (w & ? & [= -> ->] & ? & _). by rewrite Hones. }
  destruct (to_Cmpl l) as [l'|] eqn:E5; [|by eapply good_binary].
  destruct (to_Cmpl r) as [r'|] eqn:E6; [|by eapply good_binary].
  destruct (to_Cmpl_good _ _ _ E5 Hl) as (w & s & z1 & Hl' & Hw & [= -> ->]).
  destruct (to_Cmpl_good _ _ _ E6 Hr) as (w' & s' & z2 & Hr' & _ & [= <- <- ->]).
  eapply (good_complement BOr); [done|done|exact Hl'|exact Hr'|exact Hf|done|].
  eexists. split; [done|]. f_equal. apply complement_operands; [lia|..].
  - intros x y i Hi. by rewrite Z.land_spec, Z.lor_spec, !testbit_lnot, negb_orb, !negb_involutive.
  - intros x y x' y' i Hi Hx Hy. by rewrite !Z.land_spec, Hx, Hy.
  - intros x y x' y' i Hi Hx Hy. by rewrite !Z.lor_spec, Hx, Hy.
Qed.

Lemma postorder_BOr_good t l r v1 v2 v :
  good env v1 l -> good env v2 r -> sem_binop BOr v1 v2 = Some v -> fits v t ->
  good env v (postorder_BOr t l r).
Proof.
  intros Hl Hr Hs Hf. unfold postorder_BOr. operands Hl Hr Hs.
  destruct (isZero l) eqn:E1; [zero_operand Hl E1; by rewrite Z.lor_0_l, wrap_id|].
  destruct (isZero r) eqn:E2; [zero_operand Hr E2; by rewrite Z.lor_0_r, wrap_id|].
  destruct (to_Cmpl l) as [l'|] eqn:E5; [|by eapply good_binary].
  destruct (to_Cmpl r) as [r'|] eqn:E6; [|by eapply good_binary].
  destruct (to_Cmpl_good _ _ _ E5 Hl) as (w & s & z1 & Hl' & Hw & [= -> ->]).
  destruct (to_Cmpl_good _ _ _ E6 Hr) as (w' & s' & z2 & Hr' & _ & [= <- <- ->]).
  eapply (good_complement BAnd); [done|done|exact Hl'|exact Hr'|exact Hf|done|].
  eexists. split; [done|]. f_equal. apply complement_operands; [lia|..].
  - intros x y i Hi. by rewrite Z.land_spec, Z.lor_spec, !testbit_lnot, negb_andb, !negb_involutive.
  - intros x y x' y' i Hi Hx Hy. by rewrite !Z.lor_spec, Hx, Hy.
  - intros x y x' y' i Hi Hx Hy. by rewrite !Z.land_spec, Hx, Hy.
Qed.

Lemma xor_complements (c1 c2 : bool) w s a b :
  0 <= w ->
  wrap (Type_Bits w s) (Z.lxor (if c1 then wrap (Type_Bits w s) (Z.lnot a) else a)
                               (if c2 then wrap (Type_Bits w s) (Z.lnot b) else b)) =
  wrap (Type_Bits w s) (if xorb c1 c2 then Z.lnot (wrap (Type_Bits w s) (Z.lxor a b)) else Z.lxor a b).
Proof.
  intros Hw. apply wrap_bits_eq; [done|]. intros i Hi.
  destruct c1, c2; simpl; rewrite ?testbit_lnot, ?Z.lxor_spec, ?testbit_wrap_low, ?testbit_lnot, ?Z.lxor_spec by lia;
    by destruct (Z.testbit a i), (Z.testbit b i).
Qed.

(** The exclusive or of stripped operands, complemented or not. *)
Lemma good_BXor (c1 c2 : bool) t l r w s a b v :
  1 <= w -> good env (VInt (Type_Bits w s) a) l -> good env (VInt (Type_Bits w s) b) r ->
  v = VInt (Type_Bits w s) (wrap (Type_Bits w s)
        (Z.lxor (if c1 then wrap (Type_Bits w s) (Z.lnot a) else a)
                (if c2 then wrap (Type_Bits w s) (Z.lnot b) else b))) ->
  fits v t ->
  good env v (let e := Operation_Binary BXor t l r in if xorb c1 c2 then mkUnary Cmpl e else e).
Proof.
  intros Hw Hl Hr -> Hf. rewrite xor_complements in * by lia.
  assert (Hx : good env (VInt (Type_Bits w s) (wrap (Type_Bits w s) (Z.lxor a b)))
                 (Operation_Binary BXor t l r)).
  { eapply good_binary; [done|exact Hl|exact Hr| |exact Hf].
    rewrite sem_binop_arith by done. simpl. by rewrite Z.eqb_refl, Bool.eqb_reflx. }
  simpl. destruct (xorb c1 c2); [|exact Hx]. by eapply good_mkUnary.
Qed.

Lemma postorder_BXor_good t l r v1 v2 v :
  good env v1 l -> good env v2 r -> sem_binop BXor v1 v2 = Some v -> fits v t ->
  good env v (postorder_BXor t l r).
Proof.
  intros Hl Hr Hs Hf. unfold postorder_BXor. operands Hl Hr Hs.
  destruct (isZero l) eqn:E1; [zero_operand Hl E1; by rewrite Z.lxor_0_l, wrap_id|].
  destruct (isZero r) eqn:E2; [zero_operand Hr E2; by rewrite Z.lxor_0_r, wrap_id|].
  destruct (to_Cmpl l) as [l'|] eqn:E5.
  - destruct (to_Cmpl_good _ _ _ E5 Hl) as (w & s & z1 & Hl' & Hw & [= -> ->]).
    destruct (to_Cmpl r) as [r'|] eqn:E6.
    + destruct (to_Cmpl_good _ _ _ E6 Hr) as (w' & s' & z2 & Hr' & _ & [= <- <- ->]).
      by apply (good_BXor true true t l' r' w s z1 z2).
    + by apply (good_BXor true false t l' r w s z1 b).
  - destruct (to_Cmpl r) as [r'|] eqn:E6; [|by eapply good_binary].
    destruct (to_Cmpl_good _ _ _ E6 Hr) as (w & s & z2 & Hr' & Hw & [= -> ->]).
    by apply (good_BXor false true t l r' w s a z2).
Qed.

Lemma postorder_Sub_good t l r v1 v2 v e' ds :
  good env v1 l -> good env v2 r -> sem_binop Sub v1 v2 = Some v -> fits v t ->
  postorder_Sub t l r = Done e' ds -> good env v e'.
Proof.
  intros Hl Hr Hs Hf He. unfold postorder_Sub in He. pose proof Hs as Hs'. operands Hl Hr Hs.
  destruct (isZero r) eqn:E1.
  { apply oret_Done in He as [<- _]. zero_operand Hr E1. by rewrite Z.sub_0_r, wrap_id. }
  destruct (isZero l) eqn:E2.
  { apply oret_Done in He as [<- _]. zero_operand Hl E2.
    eapply good_mkUnary; [done|exact Hr| |exact Hf]. simpl. do 3 f_equal. }
  destruct r; try (by injection He as <- _; eapply good_binary).
  odo He. apply oret_Done in He as [<- _].
  pose proof Hr as Hfr. apply good_fits in Hfr.
  apply good_Constant_inv in Hr as ([= -> ->] & _ & _ & Hlog).
  rename type into ty, value into b.
  apply (mkConstant_Done _ _ _ _ _ _ H1) in Hm as ->.
  assert (Hneg : good env (VInt ty (wrap ty (- b))) (Constant ty (wrap ty (- b)) base)).
  { apply good_Constant; [by apply eval_Constant|].
    destruct ty; try done. simpl in *. unfold wrap. by rewrite Z.abs_opp. }
  eapply good_mkBinary; [done|done|exact Hl|exact Hneg| |exact Hf].
  rewrite sem_binop_arith by done. replace (same_type ty ty) with true.
  - simpl. by rewrite wrap_add_r, Z.add_opp_r.
  - destruct ty; try done. simpl. by rewrite Z.eqb_refl, Bool.eqb_reflx.
Qed.

Lemma postorder_Add_good t l r v1 v2 v :
  good env v1 l -> good env v2 r -> sem_binop Add v1 v2 = Some v -> fits v t ->
  good env v (postorder_Add t l r).
Proof.
  intros Hl Hr Hs Hf. unfold postorder_Add. operands Hl Hr Hs.
  destruct (isZero r) eqn:E1; [zero_operand Hr E1; by rewrite Z.add_0_r, wrap_id|].
  destruct (isZero l) eqn:E2; [zero_operand Hl E2; by rewrite wrap_id|].
  by eapply good_binary.
Qed.

Lemma good_exponent k : 0 <= k < 2 ^ 31 -> good env (VInt Type_InfInt k) (intConstant k).
Proof.
  intros Hk. apply good_Constant; [done|]. simpl. rewrite Z.abs_eq by lia.
  destruct (decide (k = 0)) as [->|]; [done|].
  assert (Z.log2 k < 31) by (apply Z.log2_lt_pow2; lia). lia.
Qed.

Lemma isPowerOf2_lt x : isPowerOf2 x < 2 ^ 31.
Proof.
  unfold isPowerOf2. destruct x; try lia. destruct (_ <=? _); [lia|]. destruct (negb _); [lia|].
  pose proof (wraps_range 32 (mpz_scan1 value 0)). lia.
Qed.

Lemma postorder_shift_good op t l r v1 v2 v :
  op = Shl \/ op = Shr ->
  good env v1 l -> good env v2 r -> sem_binop op v1 v2 = Some v -> fits v t ->
  good env v (postorder_shift op t l r).
Proof.
  intros Ho Hl Hr Hs Hf. unfold postorder_shift.
  destruct (isZero r || isZero l) eqn:E; [|eapply good_binary; try done; by destruct Ho as [-> | ->]].
  assert (Hv : v = v1); [|by subst].
  pose proof (good_ok _ _ _ Hl) as Hok.
  destruct v1 as [|t1 a], v2 as [|t2 k]; try (by destruct Ho as [-> | ->]).
  simpl in Hok. apply andb_true_iff in Hok as [Hw Hin].
  apply orb_true_iff in E as [E|E];
    [destruct (isZero_good _ _ Hr E) as [? [= -> ->]]|destruct (isZero_good _ _ Hl E) as [? [= -> ->]]];
    destruct Ho as [-> | ->]; simpl in Hs; try (destruct (0 <=? k) eqn:Hk; [|done]); injection Hs as <-;
    rewrite ?Z.mul_0_l, ?Z.mul_1_r, ?Z.div_1_r, ?wrap_in_range by done; try done.
Qed.

Lemma postorder_Mul_good t l r v1 v2 v :
  good env v1 l -> good env v2 r -> sem_binop Mul v1 v2 = Some v -> fits v t ->
  good env v (postorder_Mul t l r).
Proof.
  intros Hl Hr Hs Hf. unfold postorder_Mul. operands Hl Hr Hs.
  destruct (isZero l) eqn:E1; [zero_operand Hl E1; by rewrite wrap_id|].
  destruct (isZero r) eqn:E2; [zero_operand Hr E2; by rewrite Z.mul_0_r, wrap_id|].
  destruct (isOne l) eqn:E3.
  { destruct (isOne_good _ _ Hl E3) as [? [= <- ->]]. by rewrite Z.mul_1_l, wrap_id. }
  destruct (isOne r) eqn:E4.
  { destruct (isOne_good _ _ Hr E4) as [? [= <- ->]]. by rewrite Z.mul_1_r, wrap_id. }
  destruct (Z.leb_spec 0 (isPowerOf2 l)) as [E5|].
  { pose proof (isPowerOf2_lt l). destruct (isPowerOf2_good _ _ _ Hl E5) as (? & ? & ? & [= <- ->]).
    eapply good_mkShift; [by left|exact Hr|by apply good_exponent| |exact Hf].
    simpl. destruct (Z.leb_spec 0 (isPowerOf2 l)); [|lia]. by rewrite Z.mul_comm. }
  destruct (Z.leb_spec 0 (isPowerOf2 r)) as [E6|]; [|by eapply good_binary].
  pose proof (isPowerOf2_lt r). destruct (isPowerOf2_good _ _ _ Hr E6) as (? & ? & ? & [= <- ->]).
  eapply good_mkShift; [by left|exact Hl|by apply good_exponent| |exact Hf].
  simpl. destruct (Z.leb_spec 0 (isPowerOf2 r)); [done|lia].
Qed.

Lemma postorder_Div_good t l r v1 v2 v e' ds :
  good env v1 l -> good env v2 r -> sem_binop Div v1 v2 = Some v -> fits v t ->
  postorder_Div t l r = Done e' ds -> good env v e'.
Proof.
  intros Hl Hr Hs Hf He. unfold postorder_Div in He. pose proof Hs as Hs'.
  destruct (good_same_type _ _ _ _ _ _ Hs Hl Hr eq_refl eq_refl) as (ty & a & b & -> & -> & Hw & Ha & Hb & Hv).
  simpl in Hv. destruct ((0 <=? a) && (0 <? b)) eqn:E; [|done]. injection Hv as <-.
  destruct (isZero r) eqn:E1; [zero_operand Hr E1; lia|].
  destruct (isZero l) eqn:E2; [apply oret_Done in He as [<- _]; by zero_operand Hl E2|].
  destruct (isOne r) eqn:E3.
  { apply oret_Done in He as [<- _]. destruct (isOne_good _ _ Hr E3) as [? [= <- ->]].
    by rewrite Z.div_1_r in *. }
  destruct (Z.leb_spec 0 (isPowerOf2 r)) as [E6|]; apply oret_Done in He as [<- _]; [|by eapply good_binary].
  pose proof (isPowerOf2_lt r). destruct (isPowerOf2_good _ _ _ Hr E6) as (? & ? & ? & [= <- ->]).
  eapply good_mkShift; [by right|exact Hl|by apply good_exponent| |exact Hf].
  simpl. destruct (Z.leb_spec 0 (isPowerOf2 r)); [done|lia].
Qed.

Lemma postorder_Mod_good t l r v1 v2 v e' ds :
  good env v1 l -> good env v2 r -> sem_binop Mod v1 v2 = Some v -> fits v t ->
  postorder_Mod t l r = Done e' ds -> good env v e'.
Proof.
  intros Hl Hr Hs Hf He. unfold postorder_Mod in He. pose proof Hs as Hs'.
  destruct (good_same_type _ _ _ _ _ _ Hs Hl Hr eq_refl eq_refl) as (ty & a & b & -> & -> & Hw & Ha & Hb & Hv).
  simpl in Hv. destruct ((0 <=? a) && (0 <? b)) eqn:E; [|done]. injection Hv as <-.
  destruct (isZero r) eqn:E1; [zero_operand Hr E1; lia|].
  destruct (isZero l) eqn:E2; [apply oret_Done in He as [<- _]; by zero_operand Hl E2|].
  destruct (Z.leb_spec 0 (isPowerOf2 r)) as [E6|]; [|apply oret_Done in He as [<- _]; by eapply good_binary].
  pose proof (isPowerOf2_lt r). destruct (isPowerOf2_good _ _ _ Hr E6) as (ty' & base & Hreq & [= <- ->]).
  rewrite Hreq in He at 1. simpl in He.
  set (k := isPowerOf2 r) in *. clearbody k.
  pose proof (good_fits _ _ _ Hr) as Hfr. rewrite Hreq in Hfr. simpl type_of in Hfr.
  rewrite Z.shiftl_mul_pow2, Z.mul_1_l in He by done. odo He. apply oret_Done in He as [<- _].
  apply (mkConstant_Done _ _ _ _ _ _ Hw) in Hm as ->. pose proof (pow2_pos k E6).
  assert (Hmask : in_range ty (2 ^ k - 1) = true)
    by (apply in_range_between with (2 ^ k); [done|lia]).
  rewrite wrap_in_range by done.
  assert (Hamt : good env (VInt ty (2 ^ k - 1)) (Constant ty (2 ^ k - 1) 10)).
  { apply good_Constant; [|].
    - rewrite <- (wrap_in_range ty (2 ^ k - 1)) by done. by apply eval_Constant.
    - destruct ty; try done. simpl fits in *. rewrite Z.abs_eq in * by lia.
      apply (Z.le_lt_trans _ (Z.log2 (2 ^ k))); [apply Z.log2_le_mono; lia|exact Hfr]. }
  eapply good_mkBinary; [done|done|exact Hl|exact Hamt| |exact Hf].
  rewrite sem_binop_arith by done. replace (same_type ty ty) with true.
  - simpl. rewrite land_ones_wrapu by done. unfold wrapu. rewrite wrap_in_range; [done..|].
    apply in_range_between with a; [done|]. left. split; [apply Z.mod_pos_bound; lia|apply Z.mod_le; lia].
  - destruct ty; try done. simpl. by rewrite Z.eqb_refl, Bool.eqb_reflx.
Qed.

End methods.

(** ** Slices *)
Section slices.
Context `{mpz : Mpz} {laws : MpzLaws} (env : string -> option value).
Definition slice_value (z h l : Z) : value := VInt (Type_Bits (h - l + 1) false) (wrapu (h - l + 1) (Z.shiftr z l)).

Lemma slice_value_eq z z' h l h' l' :
  h - l = h' - l' -> 0 <= l <= h -> 0 <= l' ->
  (forall i, 0 <= i <= h - l -> Z.testbit z (i + l) = Z.testbit z' (i + l')) ->
  slice_value z h l = slice_value z' h' l'.
Proof.
  intros Hd Hl Hl' Hb. unfold slice_value. replace (h' - l' + 1) with (h - l + 1) by lia. f_equal.
  change (wrap (Type_Bits (h - l + 1) false) (Z.shiftr z l) = wrap (Type_Bits (h - l + 1) false) (Z.shiftr z' l')).
  apply wrap_bits_eq; [lia|]. intros i Hi. rewrite !Z.shiftr_spec by lia. apply Hb. lia.
Qed.

(** What a slice with a value is made of. *)
Lemma sem_slice_inv v0 v1 v2 v :
  sem_slice v0 v1 v2 = Some v ->
  exists w s z th h tl l, v0 = VInt (Type_Bits w s) z /\ v1 = VInt th h /\ v2 = VInt tl l /\
    0 <= l <= h /\ h < w /\ v = slice_value z h l.
Proof.
  intros Hs. destruct v0 as [|[] z], v1 as [|th h], v2 as [|tl l]; try done. simpl in Hs.
  destruct (_ && _) eqn:E; [|done]. injection Hs as <-.
  eexists _, _, _, _, _, _, _. repeat split; try done; lia.
Qed.

Lemma sem_slice_intro w s z th h tl l :
  0 <= l <= h -> h < w ->
  sem_slice (VInt (Type_Bits w s) z) (VInt th h) (VInt tl l) = Some (slice_value z h l).
Proof.
  intros. simpl. destruct (_ && _) eqn:E; [done|]. exfalso.
  apply not_true_iff_false in E. apply E. rewrite !andb_true_iff. lia.
Qed.

Lemma good_Slice t e0 e1 e2 w s z th h tl l :
  good env (VInt (Type_Bits w s) z) e0 ->
  eval env e1 = Some (VInt th h) -> eval env e2 = Some (VInt tl l) ->
  0 <= l <= h -> h < w -> fits (slice_value z h l) t ->
  good env (slice_value z h l) (Slice t e0 e1 e2).
Proof.
  intros [H0 Ht] H1 H2 Hl Hh Hf.
  assert (He : eval env (Slice t e0 e1 e2) = Some (slice_value z h l)).
  { simpl. rewrite H0, H1, H2. by apply sem_slice_intro. }
  split; [done|]. simpl. split; [|done]. by eapply annot_intro.
Qed.

Lemma good_mkSlice e0 w s z h l :
  good env (VInt (Type_Bits w s) z) e0 -> 0 <= l <= h -> h < w ->
  good env (slice_value z h l) (mkSlice e0 h l).
Proof.
  intros Hg Hl Hh. pose proof (good_fits _ _ _ Hg) as [_ Hw].
  eapply good_Slice; [exact Hg|done|done|done|done|]. simpl. split; [done|lia].
Qed.

(** A concatenation's bits. *)
Lemma sem_concat_inv v1 v2 w s z :
  sem_binop Concat v1 v2 = Some (VInt (Type_Bits w s) z) ->
  exists w1 w2 s2 a b, v1 = VInt (Type_Bits w1 s) a /\ v2 = VInt (Type_Bits w2 s2) b /\ w = w1 + w2 /\
    z = wrap (Type_Bits w s) (Z.lor (Z.shiftl a w2) (wrapu w2 b)).
Proof.
  intros Hs. destruct v1 as [|[] a], v2 as [|[] a']; try done.
  simpl in Hs. injection Hs as <- <- <-. eauto 10.
Qed.

Lemma concat_bit w s w2 a b i :
  0 <= w2 -> 0 <= i < w ->
  Z.testbit (wrap (Type_Bits w s) (Z.lor (Z.shiftl a w2) (wrapu w2 b))) i =
    if i <? w2 then Z.testbit b i else Z.testbit a (i - w2).
Proof.
  intros Hw2 Hi. rewrite testbit_wrap_low by done. autorewrite with zbits.
  destruct (Z.ltb_spec i w2), (Z.leb_spec w2 i); simpl; try lia; [done|].
  by rewrite orb_false_r.
Qed.

Lemma slice_loop_good t e0 : forall e1 e2 w s z th h tl l e' ds,
  good env (VInt (Type_Bits w s) z) e0 ->
  eval env e1 = Some (VInt th h) -> eval env e2 = Some (VInt tl l) ->
  0 <= l <= h -> h < w -> fits (slice_value z h l) t ->
  slice_loop t e0 e1 e2 = Done e' ds -> no_errors ds = true -> good env (slice_value z h l) e'.
Proof.
  induction e0; intros e1 e2 w s z th h tl l e' ds H0 H1 H2 Hl Hh Hf He Hds;
    try (injection He as <- _; by eapply good_Slice).
  destruct op; try (injection He as <- _; by eapply good_Slice).
  rename e0_1 into cl, e0_2 into cr. simpl in He.
  apply good_inv_binary in H0 as Hinv; [|done]. destruct Hinv as (v1 & v2 & Hcl & Hcr & Hs).
  apply sem_concat_inv in Hs as (w1 & w2 & s2 & a & b & -> & -> & -> & ->).
  pose proof (good_fits _ _ _ Hcl) as [_ Hb1]. pose proof (good_fits _ _ _ Hcr) as [Htr Hb2].
  pose proof (good_fits _ _ _ H0) as [_ Hb3].
  pose proof (good_ok _ _ _ Hcl) as Hok1. pose proof (good_ok _ _ _ Hcr) as Hok2.
  simpl in Hok1, Hok2. apply andb_true_iff in Hok1 as [Hw1%Z.leb_le _].
  apply andb_true_iff in Hok2 as [Hw2%Z.leb_le _].
  rewrite Htr in He. simpl in He. rewrite (wrapu_small 32 w2) in He by lia.
  odo He. subst ds. apply no_errors_split in Hds as [Hds Hds'].
  apply (getIndex_clean env) in Hm as (_ & _ & Hm); [|done].
  destruct (Hm _ H2) as [? [= -> <-]]. clear Hm. destruct (Z.leb_spec w2 l).
  - odo He. subst. apply no_errors_split in Hds' as [Hd1 Hd2].
    apply (getIndex_clean env) in Hm as (_ & _ & Hm); [|done]. destruct (Hm _ H1) as [? [= -> <-]].
    rewrite !wrapu_small in He by lia.
    assert (Heq : slice_value (wrap (Type_Bits (w1 + w2) s) (Z.lor (Z.shiftl a w2) (wrapu w2 b))) h l =
                  slice_value a (h - w2) (l - w2)).
    { apply slice_value_eq; [lia..|]. intros i Hi. rewrite concat_bit by lia.
      destruct (Z.ltb_spec (i + l) w2); [lia|]. f_equal. lia. }
    rewrite Heq in Hf |- *. eapply (IHe0_1 _ _ _ _ _ _ _ _ _ _ _ Hcl); [..|exact He|done]; try done; lia.
  - odo He. subst. apply no_errors_split in Hds' as [Hd1 Hd2].
    apply (getIndex_clean env) in Hm as (_ & _ & Hm); [|done]. destruct (Hm _ H1) as [? [= -> <-]].
    destruct (Z.ltb_spec h w2).
    + assert (Heq : slice_value (wrap (Type_Bits (w1 + w2) s) (Z.lor (Z.shiftl a w2) (wrapu w2 b))) h l =
                    slice_value b h l).
      { apply slice_value_eq; [lia..|]. intros i Hi. rewrite concat_bit by lia.
        destruct (Z.ltb_spec (i + l) w2); [done|lia]. }
      rewrite Heq in Hf |- *. eapply (IHe0_2 _ _ _ _ _ _ _ _ _ _ _ Hcr); [..|exact He|done]; try done; lia.
    + apply oret_Done in He as [<- _]. rewrite !wraps_small by lia.
      assert (Hgl : good env (slice_value a (h - w2) 0) (mkSlice cl (h - w2) 0)) by (eapply good_mkSlice; [exact Hcl|lia..]).
      assert (Hgr : good env (slice_value b (w2 - 1) l) (mkSlice cr (w2 - 1) l)) by (eapply good_mkSlice; [exact Hcr|lia..]).
      eapply good_binary; [done|exact Hgl|exact Hgr| |].
      * simpl. f_equal. unfold slice_value.
        replace (h - w2 - 0 + 1 + (w2 - 1 - l + 1)) with (h - l + 1) by lia. f_equal.
        change (wrapu (h - l + 1) ?y) with (wrap (Type_Bits (h - l + 1) false) y).
        apply wrap_bits_eq; [lia|]. intros i Hi. autorewrite with zbits.
        rewrite concat_bit by lia.
        destruct (Z.ltb_spec (i + l) w2), (Z.leb_spec (w2 - 1 - l + 1) i), (Z.ltb_spec i (w2 - 1 - l + 1));
          simpl; try lia; [done|].
        rewrite testbit_wrapu, Z.shiftr_0_r by lia.
        destruct (Z.ltb_spec (i - (w2 - 1 - l + 1)) (h - w2 - 0 + 1)); [|lia]. simpl.
        rewrite orb_false_r. f_equal. lia.
      * simpl. split; [f_equal; lia|lia].
Qed.

(** The sliced shift: bit [i] of the shifted value is bit [i + amt] of the
    operand. *)
Lemma shift_operand_good e0 w s z amt x ds :
  shift_operand e0 = Done (Some (amt, x)) ds -> no_errors ds = true ->
  good env (VInt (Type_Bits w s) z) e0 ->
  exists a, good env (VInt (Type_Bits w s) a) x /\
    (s = false -> forall i, 0 <= i < w ->
       Z.testbit z i = (0 <=? i + amt) && Z.testbit a (i + amt)).
Proof.
  intros Hsh Hds Hg.
  destruct e0 as [| | | | |op ty l r| | | | | | |]; try done.
  destruct op; try done; destruct r as [kt k kb| | | | | | | | | | | |]; try done;
    cbn [shift_operand] in Hsh; apply obind_Done in Hsh as (k' & ds1 & ds2 & Hk & Hsh & ->);
    apply no_errors_split in Hds as [Hd1 Hd2]; apply asInt_clean in Hk as [-> Hk]; try done;
    apply good_inv_binary in Hg as (v1 & v2 & Hl & Hr & Hs); try done;
    apply good_Constant_inv in Hr as (-> & _); destruct v1 as [|t1 a]; try done;
    simpl in Hs; destruct (Z.leb_spec 0 k); try done; injection Hs as -> <-.
  - odo Hsh. apply int_result_Done in Hm as (-> & -> & _). apply oret_Done in Hsh as [[= <- <-] _].
    exists a. split; [done|]. intros -> i Hi.
    rewrite testbit_wrap_low, <- Z.shiftl_mul_pow2, testbit_shiftl by lia.
    destruct (Z.leb_spec k i), (Z.leb_spec 0 (i + - k)); simpl; try lia.
    f_equal.
  - apply oret_Done in Hsh as [[= <- <-] _].
    exists a. split; [done|]. intros -> i Hi. rewrite <- Z.shiftr_div_pow2, Z.shiftr_spec by lia.
    by destruct (Z.leb_spec 0 (i + k)); [|lia].
Qed.

Lemma postorder_Slice_good t e0 e1 e2 w s z th h tl l e' ds :
  good env (VInt (Type_Bits w s) z) e0 ->
  eval env e1 = Some (VInt th h) -> eval env e2 = Some (VInt tl l) ->
  0 <= l <= h -> h < w -> fits (slice_value z h l) t ->
  (forall amt x ds, shift_operand e0 = Done (Some (amt, x)) ds -> h + amt <> 0) ->
  postorder_Slice t e0 e1 e2 = Done e' ds -> no_errors ds = true ->
  eval env e' = Some (slice_value z h l) /\
  ((forall amt x ds, shift_operand e0 = Done (Some (amt, x)) ds -> 0 <= amt) -> typed env e').
Proof.
  intros H0 H1 H2 Hl Hh Hf Hnz He Hds. unfold postorder_Slice in He. odo He. subst ds.
  apply no_errors_split in Hds as [Hd1 Hd2].
  assert (Hgood : forall e, good env (slice_value z h l) e ->
    eval env e = Some (slice_value z h l) /\
    ((forall amt x ds, shift_operand e0 = Done (Some (amt, x)) ds -> 0 <= amt) -> typed env e))
    by (intros e [? ?]; done).
  destruct r as [[amt x]|]; [|apply Hgood; by eapply slice_loop_good].
  pose proof (Hnz _ _ _ Hm) as Hnz'.
  destruct (shift_operand_good _ _ _ _ _ _ _ Hm Hd1 H0) as (a & Hx & Hbits).
  destruct (good_fits _ _ _ Hx) as [Ht Hw]. rewrite Ht in He.
  destruct s; [apply Hgood; injection He as <- _; by eapply good_Slice|]. specialize (Hbits eq_refl).
  odo He. odo He. odo He. odo He. subst.
  do 4 (apply no_errors_split in Hd2; let H := fresh in destruct Hd2 as [H Hd2]).
  apply (getIndex_clean env) in Hm0 as (_ & _ & Hi1); [|done]. destruct (Hi1 _ H1) as [? [= -> <-]].
  apply (getIndex_clean env) in Hm1 as (_ & _ & Hi2); [|done]. destruct (Hi2 _ H2) as [? [= -> <-]].
  rewrite !wraps_small in * by lia.
  apply int_result_Done in Hm2 as (-> & -> & _). apply int_result_Done in Hm3 as (-> & -> & _).
  destruct (Z.leb_spec 0 (l + amt)), (Z.ltb_spec (h + amt) w); cbn [andb] in He.
  - destruct (Z.leb_spec (h + amt) 0); [lia|]. destruct (Z.ltb_spec (l + amt) 0); [lia|].
    assert (Heq : slice_value z h l = slice_value a (h + amt) (l + amt)).
    { apply slice_value_eq; [lia..|]. intros i Hi. rewrite Hbits by lia.
      destruct (Z.leb_spec 0 (i + l + amt)); [|lia]. simpl. f_equal. lia. }
    apply Hgood. rewrite Heq in Hf |- *.
    eapply (slice_loop_good _ _ (intConstant (h + amt)) (intConstant (l + amt)));
      [exact Hx|done|done|lia|lia|exact Hf|exact He|done].
  - destruct (Z.leb_spec (h + amt) 0); [lia|]. destruct (Z.ltb_spec (l + amt) 0); [lia|].
    apply Hgood. by eapply slice_loop_good.
  - assert (Hzero : h + amt <= 0 -> good env (slice_value z h l) (Constant (Type_Bits (h - l + 1) false) 0 10)).
    { intros Hle. assert (Hz : slice_value z h l = VInt (Type_Bits (h - l + 1) false) 0).
      { transitivity (slice_value 0 h l).
        - apply slice_value_eq; [lia..|]. intros i Hi. rewrite Hbits, Z.testbit_0_l by lia.
          by destruct (Z.leb_spec 0 (i + l + amt)); [lia|].
        - unfold slice_value. by rewrite Z.shiftr_0_l. }
      rewrite Hz. apply good_Constant; [|split; [done|lia]].
      apply (eval_Constant env (Type_Bits (h - l + 1) false) 0). simpl. lia. }
    destruct (Z.leb_spec (h + amt) 0).
    + apply (mkConstant_Done (Type_Bits _ _)) in He as ->; [|simpl; lia]. by apply Hgood, Hzero.
    + destruct (Z.ltb_spec (l + amt) 0); [|lia]. odo He. apply oret_Done in He as [<- _].
      apply (mkConstant_Done (Type_Bits _ _)) in Hm0 as ->; [|simpl; lia].
      rewrite (wrap_in_range _ 0) by (simpl; pose proof (pow2_pos (- (l + amt))); lia).
      split; [|intros Hamt; specialize (Hamt _ _ _ Hm); lia].
      unfold mkConcat. rewrite eval_strict by done.
      assert (Hsl : eval env (Slice t x (intConstant (h + amt)) (intConstant 0)) =
                    Some (slice_value a (h + amt) 0)).
      { transitivity (sem_slice (VInt (Type_Bits w false) a) (VInt Type_InfInt (h + amt)) (VInt Type_InfInt 0)).
        - destruct Hx as [Hxv _]. simpl. by rewrite Hxv.
        - apply sem_slice_intro; lia. }
      rewrite Hsl.
      assert (Hz0 : eval env (Constant (Type_Bits (- (l + amt)) false) 0 10) =
                    Some (VInt (Type_Bits (- (l + amt)) false) 0)).
      { apply (eval_Constant env (Type_Bits (- (l + amt)) false) 0). simpl. lia. }
      rewrite Hz0. simpl. f_equal. unfold slice_value.
      replace (h + amt - 0 + 1 + - (l + amt)) with (h - l + 1) by lia. f_equal.
      change (wrapu (h - l + 1) ?y) with (wrap (Type_Bits (h - l + 1) false) y).
      apply wrap_bits_eq; [lia|]. intros i Hi. rewrite Z.shiftr_spec, Hbits by lia.
      rewrite Z.lor_spec, testbit_shiftl, (testbit_wrapu 0), Z.testbit_0_l, andb_false_r, orb_false_r by lia.
      destruct (Z.leb_spec (- (l + amt)) i), (Z.leb_spec 0 (i + l + amt)); simpl; try lia.
      rewrite testbit_wrapu, Z.shiftr_0_r by lia.
      destruct (Z.ltb_spec (i - - (l + amt)) (h + amt - 0 + 1)); [|lia]. simpl. f_equal. lia.
  - lia.
Qed.
End slices.

(** ** The pass *)
Section pass_soundness.
Context `{mpz : Mpz} {laws : MpzLaws} (env : string -> option value).

Lemma eval_bool_binop_inv op t l r b :
  is_relation op = true -> eval env (Operation_Binary op t l r) = Some (VBool b) ->
  exists v1 v2, eval env l = Some v1 /\ eval env r = Some v2 /\ sem_binop op v1 v2 = Some (VBool b).
Proof. intros Ho He. apply eval_arith_inv in He; [done|by destruct op]. Qed.

(** The negated comparison. *)
Definition negated (op : binop) : binop :=
  match op with Equ => Neq | Neq => Equ | Leq => Grt | Geq => Lss | Lss => Geq | Grt => Leq | op => op end.

Lemma sem_negated op v1 v2 b :
  is_relation op = true -> sem_binop op v1 v2 = Some (VBool b) ->
  sem_binop (negated op) v1 v2 = Some (VBool (negb b)).
Proof.
  intros Ho Hs. destruct op; try done; destruct v1, v2; simpl in *; try done;
    try (destruct (same_type _ _); [|done]; simpl in * ); injection Hs as <-;
    rewrite ?negb_involutive; try done; do 2 f_equal; lia.
Qed.

Lemma postorder_LNot_good t x b :
  eval env x = Some (VBool b) -> good env (VBool (negb b)) (postorder_LNot t x).
Proof.
  intros Hx. apply good_bool.
  assert (Hkeep : eval env (Operation_Unary LNot t x) = Some (VBool (negb b))) by (simpl; by rewrite Hx).
  destruct x as [| | | | |op t' l r| | | | | | |]; try done.
  destruct (is_relation op) eqn:Ho; [|by destruct op].
  apply eval_bool_binop_inv in Hx as (v1 & v2 & H1 & H2 & Hs); [|done].
  apply sem_negated in Hs; [|done].
  destruct op; try done; simpl; by rewrite H1, H2.
Qed.

Lemma isTrue_inv x : isTrue x = true -> x = BoolLiteral true.
Proof. destruct x; try done. simpl. by intros ->. Qed.
Lemma isFalse_inv x : isFalse x = true -> x = BoolLiteral false.
Proof. destruct x; try done. by destruct value. Qed.

Lemma postorder_LAnd_good t l r v :
  eval env (Operation_Binary LAnd t l r) = Some v -> good env v (postorder_LAnd t l r).
Proof.
  intros Hv. assert (Hb : exists b, v = VBool b).
  { simpl in Hv. destruct (eval env l) as [[[]|]|]; simplify_eq; eauto.
    destruct (eval env r) as [[]|]; simplify_eq; eauto. }
  destruct Hb as [b ->]. apply good_bool. unfold postorder_LAnd.
  destruct (isFalse l) eqn:E1; [by apply isFalse_inv in E1 as ->|].
  destruct (isTrue l) eqn:E2.
  { apply isTrue_inv in E2 as ->. simpl in Hv. destruct (eval env r) as [[]|]; by simplify_eq. }
  destruct (isTrue r) eqn:E3; [|done]. apply isTrue_inv in E3 as ->.
  simpl in Hv. destruct (eval env l) as [[[]|]|]; by simplify_eq.
Qed.

Lemma postorder_LOr_good t l r v :
  eval env (Operation_Binary LOr t l r) = Some v -> good env v (postorder_LOr t l r).
Proof.
  intros Hv. assert (Hb : exists b, v = VBool b).
  { simpl in Hv. destruct (eval env l) as [[[]|]|]; simplify_eq; eauto.
    destruct (eval env r) as [[]|]; simplify_eq; eauto. }
  destruct Hb as [b ->]. apply good_bool. unfold postorder_LOr.
  destruct (isFalse l) eqn:E1.
  { apply isFalse_inv in E1 as ->. simpl in Hv. destruct (eval env r) as [[]|]; by simplify_eq. }
  destruct (isTrue l) eqn:E2; [by apply isTrue_inv in E2 as ->|].
  destruct (isFalse r) eqn:E3; [|done]. apply isFalse_inv in E3 as ->.
  simpl in Hv. destruct (eval env l) as [[[]|]|]; by simplify_eq.
Qed.

(** No slice of a left shift by a literal (nor of a shift by 0) arises. *)
Fixpoint slices_ok (e : Expression) : Prop :=
  match e with
  | Operation_Unary _ _ x | Cast _ x => slices_ok x
  | Operation_Binary _ _ l r => slices_ok l /\ slices_ok r
  | Mux _ e0 e1 e2 => slices_ok e0 /\ slices_ok e1 /\ slices_ok e2
  | Slice _ e0 e1 e2 =>
      slices_ok e0 /\ slices_ok e1 /\ slices_ok e2 /\
      forall e0' ds amt x ds', apply_ e0 = Done e0' ds ->
        shift_operand e0' = Done (Some (amt, x)) ds' -> 0 < amt
  | _ => True
  end.

(** The strict operators. *)
Lemma postorder_binop_good op t l r v1 v2 v e' ds :
  is_strict op = true -> good env v1 l -> good env v2 r -> sem_binop op v1 v2 = Some v -> fits v t ->
  postorder (Operation_Binary op t l r) = Done e' ds -> good env v e'.
Proof.
  intros Ho Hl Hr Hs Hf He.
  destruct (is_relation op) eqn:Hrel.
  { assert (He' : e' = Operation_Binary op t l r) by (by destruct op; simplify_eq/=; apply oret_Done in He as [<- _]).
    subst e'. assert (Hv : eval env (Operation_Binary op t l r) = Some v).
    { rewrite eval_strict by done. destruct Hl as [-> _], Hr as [-> _]. done. }
    assert (Hb : exists b, v = VBool b); [|destruct Hb as [b ->]; by apply good_bool].
    clear -Hs Hrel. destruct op; try done; destruct v1, v2; simpl in Hs; simplify_eq; eauto;
      (destruct (same_type _ _); [|done]); injection Hs as <-; eauto. }
  assert (Hreads : reads op = true) by (unfold reads; by rewrite Hrel, Ho).
  destruct op; try done; cbn [postorder] in He; try (apply oret_Done in He as [<- _]);
    try (by eapply good_binary).
  - by eapply postorder_Mul_good.
  - eapply postorder_Div_good; [exact Hl|exact Hr|exact Hs|exact Hf|exact He].
  - eapply postorder_Mod_good; [exact Hl|exact Hr|exact Hs|exact Hf|exact He].
  - by eapply postorder_Add_good.
  - eapply postorder_Sub_good; [exact Hl|exact Hr|exact Hs|exact Hf|exact He].
  - eapply postorder_shift_good; [by left|done..].
  - eapply postorder_shift_good; [by right|done..].
  - by eapply postorder_BAnd_good.
  - by eapply postorder_BOr_good.
  - by eapply postorder_BXor_good.
Qed.

Lemma apply_good e : annotated env e -> slices_ok e ->
  forall e' ds v, apply_ e = Done e' ds -> no_errors ds = true -> eval env e = Some v -> good env v e'.
Proof.
  induction e; intros Ha Hs e' ds v He Hds Hv; try done; cbn [apply_] in He;
    pose proof (annotated_annot _ _ Ha _ Hv) as Hf.
  - apply oret_Done in He as [<- _]. split; [done|]. split; [|done]. by apply annotated_annot in Ha.
  - apply oret_Done in He as [<- _]. injection Hv as <-. by apply good_bool.
  - apply oret_Done in He as [<- _]. split; [done|]. split; [|done]. by apply annotated_annot in Ha.
  - odo He. subst. apply no_errors_split in Hds as [Hd1 Hd2]. destruct Ha as [_ Ha].
    apply bind_Some in Hv as (v1 & Hx & Hv). pose proof (IHe Ha Hs _ _ _ Hm Hd1 Hx) as Hg.
    destruct op; cbn [postorder] in He; apply oret_Done in He as [<- _].
    + by eapply good_unary.
    + by eapply postorder_Cmpl_good.
    + destruct v1 as [b|]; [|done]. injection Hv as <-. apply postorder_LNot_good, Hg.
  - odo He. odo He. subst. apply no_errors_split in Hds as [Hd1 [Hd2 Hd3]%no_errors_split].
    destruct Ha as (_ & Ha1 & Ha2), Hs as [Hs1 Hs2].
    destruct (is_strict op) eqn:Ho.
    + apply eval_arith_inv in Hv as (v1 & v2 & H1 & H2 & Hv); [|done].
      eapply postorder_binop_good; [done| | |exact Hv|exact Hf|exact He]; eauto.
    + assert (Hv' : eval env (Operation_Binary op type r r0) = Some v).
      { eapply refines_binary; [..|exact Hv].
        - intros v1 Hv1. by destruct (IHe1 Ha1 Hs1 _ _ _ Hm Hd1 Hv1).
        - intros v2 Hv2. by destruct (IHe2 Ha2 Hs2 _ _ _ Hm0 Hd2 Hv2). }
      destruct op; try done; cbn [postorder] in He; apply oret_Done in He as [<- _];
        [by apply postorder_LAnd_good|by apply postorder_LOr_good].
  - odo He. odo He. odo He. subst.
    apply no_errors_split in Hds as [Hd1 [Hd2 [Hd3 Hd4]%no_errors_split]%no_errors_split].
    destruct Ha as (_ & Ha1 & Ha2 & Ha3), Hs as (Hs1 & Hs2 & Hs3 & Hsh).
    apply bind_Some in Hv as (v0 & H0 & (v1 & H1 & (v2 & H2 & Hv)%bind_Some)%bind_Some).
    apply sem_slice_inv in Hv as (w & s & z & th & h & tl & l & -> & -> & -> & Hl & Hh & ->).
    destruct (IHe2 Ha2 Hs2 _ _ _ Hm0 Hd2 H1) as [H1' _].
    destruct (IHe3 Ha3 Hs3 _ _ _ Hm1 Hd3 H2) as [H2' _].
    pose proof (IHe1 Ha1 Hs1 _ _ _ Hm Hd1 H0) as Hg0. cbn [postorder] in He.
    assert (Hpos : forall amt x dsx, shift_operand r = Done (Some (amt, x)) dsx -> 0 < amt)
      by (intros amt x dsx Hx; by eapply Hsh).
    destruct (postorder_Slice_good env _ _ _ _ _ _ _ _ _ _ _ e' ds5 Hg0 H1' H2' Hl Hh Hf) as [Hv' Ht'];
      [|exact He|exact Hd4|].
    + intros amt x dsx Hx. specialize (Hpos _ _ _ Hx). lia.
    + split; [exact Hv'|]. apply Ht'. intros amt x dsx Hx. specialize (Hpos _ _ _ Hx). lia.
  - odo He. odo He. odo He. subst.
    apply no_errors_split in Hds as [Hd1 [Hd2 [Hd3 Hd4]%no_errors_split]%no_errors_split].
    destruct Ha as (_ & Ha1 & Ha2 & Ha3), Hs as (Hs1 & Hs2 & Hs3).
    cbn [postorder] in He. apply oret_Done in He as [<- _].
    assert (Hv' : eval env (Mux type r r0 r1) = Some v).
    { eapply refines_mux; [..|exact Hv]; intros v' Hv'.
      - by destruct (IHe1 Ha1 Hs1 _ _ _ Hm Hd1 Hv').
      - by destruct (IHe2 Ha2 Hs2 _ _ _ Hm0 Hd2 Hv').
      - by destruct (IHe3 Ha3 Hs3 _ _ _ Hm1 Hd3 Hv'). }
    split; [done|]. split; [|done]. by eapply annot_intro.
  - odo He. subst. apply no_errors_split in Hds as [Hd1 Hd2]. destruct Ha as [_ Ha].
    cbn [postorder] in He. apply oret_Done in He as [<- _].
    assert (Hv' : eval env (Cast destType r) = Some v).
    { eapply refines_cast; [|exact Hv]. intros v' Hv'. by destruct (IHe Ha Hs _ _ _ Hm Hd1 Hv'). }
    split; [done|]. split; [|done]. by eapply annot_intro.
Qed.
End pass_soundness.

(** ** Properties *)

(** C2. Strength reduction is sound: when the pass ends without reporting an
    error, every expression that has a value keeps it.  The nodes carry the
    types of their values, and no slice of a left shift by a literal
    arises. *)
Theorem strength_reduction_sound `{MpzLaws} env e e' ds :
  annotated env e -> slices_ok e ->
  apply_ e = Done e' ds -> no_errors ds = true -> refines env e e'.
Proof. intros Ha Hs He Hds v Hv. exact (proj1 (apply_good env e Ha Hs e' ds v He Hds Hv)). Qed.

Definition reduction_example : Expression :=
  let b8 := Type_Bits 8 false in
  let x := PathExpression b8 "x" in
  Slice (Type_Bits 6 false)
    (Operation_Binary Concat (Type_Bits 16 false)
       (Operation_Binary Mul b8 x (Constant b8 8 10))
       (Operation_Binary BAnd b8 (Operation_Unary Cmpl b8 x) (Operation_Unary Cmpl b8 (Constant b8 1 10))))
    (intConstant 10) (intConstant 5).
Definition reduction_example_env (path : string) : option value :=
  if String.eqb path "x" then Some (VInt (Type_Bits 8 false) 5) else None.

Lemma strength_reduction_sound_witness :
  let b8 := Type_Bits 8 false in
  let x := PathExpression b8 "x" in
  let e' := Operation_Binary Concat (Type_Bits 6 false)
              (mkSlice (mkShift Shl x (intConstant 3)) 2 0)
              (mkSlice (mkUnary Cmpl (mkBinary BOr x (Constant b8 1 10))) 7 5) in
  apply_ reduction_example = Done e' [] /\
  eval reduction_example_env reduction_example = Some (VInt (Type_Bits 6 false) 7) /\
  refines reduction_example_env reduction_example e'.
Proof.
  split; [vm_compute; reflexivity|]. split; [vm_compute; reflexivity|].
  apply (strength_reduction_sound reduction_example_env _ _ []).
  - repeat split; intros v Hv; vm_compute in Hv; injection Hv as <-; by vm_compute.
  - repeat split. intros e0' ds amt x ds' He Hx. vm_compute in He. by injection He as <- <-.
  - vm_compute; reflexivity.
  - reflexivity.
Defined.

(** C22. A slice of a shift, or of concatenations, is rewritten without changing
    its value, unless its high index is exactly the amount of a left shift
    by a literal. *)
Theorem slice_sound `{MpzLaws} env t e0 e1 e2 v e' ds :
  typed env e0 -> eval env (Slice t e0 e1 e2) = Some v -> fits v t ->
  (forall amt x ds, shift_operand e0 = Done (Some (amt, x)) ds ->
     forall h ty, eval env e1 = Some (VInt ty h) -> h + amt <> 0) ->
  postorder_Slice t e0 e1 e2 = Done e' ds -> no_errors ds = true ->
  eval env e' = Some v.
Proof.
  intros Ht Hv Hf Hnz He Hds.
  apply bind_Some in Hv as (v0 & Hv0 & (v1 & Hv1 & (v2 & Hv2 & Hv)%bind_Some)%bind_Some).
  apply sem_slice_inv in Hv as (w & s & z & th & h & tl & l & -> & -> & -> & Hl & Hh & ->).
  assert (Hg : good env (VInt (Type_Bits w s) z) e0) by done.
  refine (proj1 (postorder_Slice_good env _ _ _ _ _ _ _ _ _ _ _ _ _ Hg Hv1 Hv2 Hl Hh Hf _ He Hds)).
  intros amt x ds' Hx. by eapply Hnz.
Qed.

Lemma slice_sound_witness :
  let b8 := Type_Bits 8 false in
  let x := PathExpression b8 "x" in
  let sh := Operation_Binary Shl b8 x (intConstant 4) in
  let e' := mkConcat (Type_Bits 6 false) (Slice (Type_Bits 6 false) x (intConstant 3) (intConstant 0))
              (Constant (Type_Bits 2 false) 0 10) in
  postorder_Slice (Type_Bits 6 false) sh (intConstant 7) (intConstant 2) = Done e' [] /\
  eval reduction_example_env e' = Some (VInt (Type_Bits 6 false) 20).
Proof.
  split; [vm_compute; reflexivity|].
  apply (slice_sound reduction_example_env (Type_Bits 6 false)
           (Operation_Binary Shl (Type_Bits 8 false) (PathExpression (Type_Bits 8 false) "x") (intConstant 4))
           (intConstant 7) (intConstant 2) (VInt (Type_Bits 6 false) 20) _ []).
  - repeat split; intros v Hv; vm_compute in Hv; injection Hv as <-; by vm_compute.
  - vm_compute; reflexivity.
  - by vm_compute.
  - intros amt x ds Hx h ty Hh. vm_compute in Hx, Hh. by injection Hx as <- <- _; injection Hh as _ <-.
  - vm_compute; reflexivity.
  - reflexivity.
Defined.

(** The behaviours outside the theorems' hypotheses. *)

(** [(x << 1)[1:1]] is bit 0 of [x], but becomes 0: the test is
    [hi + shift_amt <= 0] where [< 0] is meant. *)
Example slice_at_shift_amount_is_lost :
  let b8 := Type_Bits 8 false in
  let e := Slice (Type_Bits 1 false)
             (Operation_Binary Shl b8 (PathExpression b8 "x") (intConstant 1)) (intConstant 1) (intConstant 1) in
  eval reduction_example_env e = Some (VInt (Type_Bits 1 false) 1) /\
  apply_ e = Done (Constant (Type_Bits 1 false) 0 10) [].
Proof. by vm_compute. Qed.

(** The low part of a sliced left shift keeps the type of the whole slice, so
    the concatenation's type is too wide and an enclosing slice reads the
    wrong operand: here the value would be [y]'s, and the result has none. *)
Example sliced_shift_has_wrong_type :
  let b8 := Type_Bits 8 false in
  let inner := Slice (Type_Bits 6 false)
                 (Operation_Binary Shl b8 (PathExpression b8 "x") (intConstant 4)) (intConstant 7) (intConstant 2) in
  let e := Slice (Type_Bits 2 false)
             (Operation_Binary Concat (Type_Bits 14 false) (PathExpression b8 "x") inner)
             (intConstant 7) (intConstant 6) in
  eval reduction_example_env e = Some (VInt (Type_Bits 2 false) 1) /\
  exists e', apply_ e = Done e' [] /\ eval reduction_example_env e' = None.
Proof. split; [by vm_compute|]. eexists. split; [by vm_compute|]. by vm_compute. Qed.
