(* ===== verification/CfgGraph.v ===== *)
(** * Control-flow graphs: [backends/analysis/cfg_algos.h], [cfg_algos.cpp]

    Nodes, edges and the graph representation ([EdgeHolder], an ordered map
    from nodes to their outgoing edges), and the operations that build one
    graph from another.  A node's [node] field is the address of its IR node;
    the null pointer is 0. *)
From stdpp Require Import countable.
From S2P Require Import Prelude.
Local Open Scope flexplan_scope.

(** ** Nodes and edges *)
Inductive NodeType := NORMAL | CALL | RETURN | START | END | UNKNOWN.

Record node_t := Node { node : Z; type : NodeType; label : Z }.

#[global] Instance NodeType_eq_dec : EqDecision NodeType.
Proof. solve_decision. Defined.
#[global] Instance node_t_eq_dec : EqDecision node_t.
Proof. solve_decision. Defined.

(** The enumerators' values. *)
Definition NodeType_num (t : NodeType) : Z :=
  match t with NORMAL => 0 | CALL => 1 | RETURN => 2 | START => 3 | END => 4 | UNKNOWN => 5 end.
Definition NodeType_of_num (z : Z) : NodeType :=
  if decide (z = 0)%Z then NORMAL else if decide (z = 1)%Z then CALL else if decide (z = 2)%Z then RETURN
  else if decide (z = 3)%Z then START else if decide (z = 4)%Z then END else UNKNOWN.

#[global] Instance node_t_countable : Countable node_t.
Proof.
  apply (inj_countable' (fun n => (node n, (NodeType_num (type n), label n)))
                        (fun p => Node p.1 (NodeType_of_num p.2.1) p.2.2)).
  by intros [n [] l].
Defined.

(** [node_t::operator<]: lexicographic. *)
#[global] Instance node_t_ltb : Ordered node_t := fun a b =>
  if negb (node a =? node b)%Z then (node a <? node b)%Z
  else if negb (NodeType_num (type a) =? NodeType_num (type b))%Z
  then (NodeType_num (type a) <? NodeType_num (type b))%Z
  else (label a <? label b)%Z.

Lemma NodeType_num_inj t1 t2 : NodeType_num t1 = NodeType_num t2 -> t1 = t2.
Proof. by destruct t1, t2. Qed.

(** [std::map] needs a strict weak order; this one is total, and its
    equivalence is [operator==]. *)
#[global] Instance node_t_laws : OrderedLaws node_t.
Proof.
  split; unfold key_ltb, node_t_ltb.
  - intros k. rewrite !Z.eqb_refl. simpl. apply Z.ltb_irrefl.
  - intros [n1 t1 l1] [n2 t2 l2] [n3 t3 l3]; simpl.
    zbool_split; intros; try done; exfalso; lia.
  - intros [n1 t1 l1] [n2 t2 l2]; simpl.
    zbool_split; try lia; try done; intros.
    assert (t1 = t2) as -> by (by apply NodeType_num_inj). f_equal; lia.
Qed.

Inductive EdgeType := E_NORMAL | E_CALL | E_RETURN | E_CALL_TO_RETURN | E_GOTO | E_UNKNOWN.
#[global] Instance EdgeType_eq_dec : EqDecision EdgeType.
Proof. solve_decision. Defined.

Definition toNumber (e : EdgeType) : Z :=
  match e with
  | E_NORMAL => 0 | E_CALL => -1 | E_RETURN => -2 | E_CALL_TO_RETURN => -3 | E_GOTO => -4
  | E_UNKNOWN => -255
  end.

Definition edgeType (et : Z) : EdgeType :=
  if (0 <=? et)%Z then E_NORMAL
  else if (et =? -1)%Z then E_CALL
  else if (et =? -2)%Z then E_RETURN
  else if (et =? -3)%Z then E_CALL_TO_RETURN
  else if (et =? -4)%Z then E_GOTO
  else E_UNKNOWN.

Definition Edge : Type := node_t * Z.
Record FullEdge_t := FullEdge { source : node_t; dst : node_t; elabel : Z }.
#[global] Instance FullEdge_eq_dec : EqDecision FullEdge_t.
Proof. solve_decision. Defined.

(** [a != b] on nodes: there is no [operator!=], so both are converted to
    pointers to their IR nodes. *)
Definition node_neq (a b : node_t) : bool := negb (node a =? node b)%Z.

(** [AbsEdge::operator<] *)
#[global] Instance FullEdge_ltb : Ordered FullEdge_t := fun a b =>
  if node_neq (source a) (source b) then key_ltb (source a) (source b)
  else if node_neq (dst a) (dst b) then key_ltb (dst a) (dst b)
  else (elabel a <? elabel b)%Z.

(** [node_t::before] *)
Definition before : node_t := Node 0 UNKNOWN 0.
Definition node_clone (n : node_t) (lbl : Z) : node_t := Node (node n) (type n) lbl.

(** ** Graphs *)
Definition EdgeEnumerator : Type := list Edge.
Definition EdgeHolder : Type := list (node_t * EdgeEnumerator).

Definition neighbors_or_empty (h : EdgeHolder) (n : node_t) : EdgeEnumerator :=
  default [] (ofind n h).
Definition neighbors_or_null (h : EdgeHolder) (n : node_t) : option EdgeEnumerator := ofind n h.
Definition nr_neighbors (h : EdgeHolder) (n : node_t) : nat :=
  match neighbors_or_null h n with Some l => length l | None => 0 end.
Definition neighbors_empty (h : EdgeHolder) (n : node_t) : bool := Nat.eqb (nr_neighbors h n) 0.

(** [h[n].emplace_back(e)] *)
Definition add_edge (n : node_t) (e : Edge) (h : EdgeHolder) : EdgeHolder :=
  oalter [] (fun l => l ++ [e]) n h.

(** [subgraph]; [next[n]] is created before its edges are filtered in. *)
Definition subgraph (g : EdgeHolder) (filter : node_t -> bool) : EdgeHolder :=
  fold_left (fun next p =>
    if filter p.1
    then oalter [] (fun neighs => neighs ++ List.filter (fun e => filter e.1) p.2) p.1 next
    else next) g [].

(** [reverse]: the predecessors, in the order the edges are met. *)
Definition reverse (g : EdgeHolder) : EdgeHolder :=
  fold_left (fun bw p =>
    fold_left (fun bw e => add_edge e.1 (p.1, e.2) bw) p.2 bw) g [].

(** [CFG::add] *)
Definition CFG_add (holder other : EdgeHolder) : EdgeHolder :=
  fold_left (fun holder h => oalter [] (fun crt => crt ++ h.2) h.1 holder) other holder.

Definition relabel (L : Z) (n : node_t) : node_t := node_clone n L.

(** [setLabel(holder, L)] *)
Definition setLabel (holder : EdgeHolder) (L : Z) : EdgeHolder :=
  fold_left (fun nxt n => oput (relabel L n.1) (map (fun c => (relabel L c.1, c.2)) n.2) nxt) holder [].

(** [clone]: the counter [node_t::LABEL] is threaded through; the first
    result is the new value of [newstart]. *)
Definition clone (LABEL : Z) (holder : EdgeHolder) (newstart : node_t) : Z * (node_t * EdgeHolder) :=
  (LABEL + 1, (relabel LABEL newstart, setLabel holder LABEL))%Z.

(** [gmap]: later nodes with an equal image replace earlier ones. *)
Definition gmap_graph (h : EdgeHolder) (f : node_t -> node_t) : EdgeHolder * bool :=
  fold_left (fun '(c, change) n =>
    let res := f n.1 in
    let change := change || node_neq res n.1 in
    let neighs := map (fun e => (f e.1, e.2)) n.2 in
    let change := change || existsb (fun e => node_neq (f e.1) e.1) n.2 in
    (oput res neighs c, change)) h ([], false).

(** [getOrEmplace] on the mapping of [freshClone]. *)
Definition fresh_name (st : Z * list (node_t * node_t)) (n : node_t)
    : node_t * (Z * list (node_t * node_t)) :=
  let '(LABEL, mappings) := st in
  match ofind n mappings with
  | Some c => (c, st)
  | None =>
      let LABEL := (LABEL + 1)%Z in
      let c := node_clone n LABEL in
      (c, (LABEL, oput n c mappings))
  end.

Fixpoint fresh_edges (st : Z * list (node_t * node_t)) (l : EdgeEnumerator)
    : EdgeEnumerator * (Z * list (node_t * node_t)) :=
  match l with
  | [] => ([], st)
  | e :: l =>
      let '(c, st) := fresh_name st e.1 in
      let '(l, st) := fresh_edges st l in
      ((c, e.2) :: l, st)
  end.

Fixpoint fresh_graph (st : Z * list (node_t * node_t)) (h : EdgeHolder) (c : EdgeHolder)
    : EdgeHolder * (Z * list (node_t * node_t)) :=
  match h with
  | [] => (c, st)
  | n :: h =>
      let '(res, st) := fresh_name st n.1 in
      let '(neighs, st) := fresh_edges st n.2 in
      fresh_graph st h (oput res neighs c)
  end.

(** [freshClone]: the start, the end, then the graph's nodes as [gmap] meets
    them.  The result: the renamed start, end and graph, the counter and the
    mapping (the inverse of [parents]). *)
Definition freshClone (LABEL : Z) (h : EdgeHolder) (start end_ : node_t)
    : (node_t * node_t * EdgeHolder) * (Z * list (node_t * node_t)) :=
  let '(start, st) := fresh_name (LABEL, []) start in
  let '(end_, st) := fresh_name st end_ in
  let '(c, st) := fresh_graph st h [] in
  ((start, end_, c), st).

(** [find_start_nodes]: one pass; a target met before its own entry is
    remembered in [with_neighs].  [std::set] is a map to [unit]. *)
Definition find_start_edge (st : list (node_t * unit) * gset node_t) (t : Edge)
    : list (node_t * unit) * gset node_t := (oerase t.1 st.1, {[ t.1 ]} ∪ st.2).
Definition find_start_step (st : list (node_t * unit) * gset node_t) (p : node_t * EdgeEnumerator)
    : list (node_t * unit) * gset node_t :=
  let '(encountered, with_neighs) := st in
  let encountered := if bool_decide (p.1 ∈ with_neighs) then encountered else oput p.1 tt encountered in
  fold_left find_start_edge p.2 (encountered, with_neighs).
Definition find_start_nodes (g : EdgeHolder) : list node_t :=
  okeys (fold_left find_start_step g ([], ∅)).1.
(** [*encountered.begin()] *)
Definition find_start_node (g : EdgeHolder) : option node_t := head (find_start_nodes g).

(** [terminals] *)
Definition terminals (h : EdgeHolder) : gset node_t :=
  fold_left (fun end_ n =>
    let end_ := match n.2 with [] => {[ n.1 ]} ∪ end_ | _ => end_ end in
    fold_left (fun end_ x =>
      match ofind x.1 h with None => {[ x.1 ]} ∪ end_ | Some _ => end_ end) n.2 end_) h ∅.

(** ** Edges as a relation *)
Definition edge (g : EdgeHolder) (u : node_t) (e : Edge) : Prop := e ∈ neighbors_or_empty g u.
Definition step (g : EdgeHolder) (u v : node_t) : Prop := exists l, edge g u (v, l).
Definition reach (g : EdgeHolder) : node_t -> node_t -> Prop := rtc (step g).

(** ** Lemmas on graphs *)

(** All the edges listed for [u], over every entry. *)
Definition edges_from (g : EdgeHolder) (u : node_t) : EdgeEnumerator :=
  flat_map (fun p => if decide (p.1 = u) then p.2 else []) g.

Lemma edges_from_notin g u : u ∉ okeys g -> edges_from g u = [].
Proof.
  unfold okeys. induction g as [|[k l] g IH]; simpl; [done|]. intros Hu.
  rewrite decide_False by set_solver. apply IH. set_solver.
Qed.

Lemma edges_from_neighbors g u : NoDup (okeys g) -> edges_from g u = neighbors_or_empty g u.
Proof.
  unfold neighbors_or_empty, okeys. induction g as [|[k l] g IH]; simpl; [done|].
  intros [Hk Hd]%NoDup_cons. destruct (decide (k = u)) as [->|Hne].
  - rewrite decide_True by done. simpl. rewrite edges_from_notin by done. by rewrite app_nil_r.
  - rewrite decide_False by done. by apply IH.
Qed.

Lemma edge_entry g u e : NoDup (okeys g) -> edge g u e <-> exists l, (u, l) ∈ g /\ e ∈ l.
Proof.
  intros Hd. unfold edge, neighbors_or_empty. split.
  - destruct (ofind u g) as [l|] eqn:E; simpl; [|set_solver].
    apply ofind_Some_elem in E. eauto.
  - intros (l & Hl & He). by rewrite (NoDup_ofind _ _ _ Hd Hl).
Qed.

Lemma edge_add_edge h n e u x : edge (add_edge n e h) u x <-> edge h u x \/ (u = n /\ x = e).
Proof.
  unfold edge, add_edge, neighbors_or_empty. rewrite ofind_oalter. unfold ofind_or.
  case_decide; [subst|naive_solver]. simpl. rewrite elem_of_app, list_elem_of_singleton. naive_solver.
Qed.

Lemma NoDup_add_edge h n e : NoDup (okeys h) -> NoDup (okeys (add_edge n e h)).
Proof. intros. unfold add_edge, oalter. by apply NoDup_oput. Qed.

Lemma neighbors_oalter h n f u :
  neighbors_or_empty (oalter [] f n h) u =
    if decide (u = n) then f (neighbors_or_empty h n) else neighbors_or_empty h u.
Proof. unfold neighbors_or_empty. rewrite ofind_oalter. by case_decide. Qed.

(** ** [subgraph] *)
Lemma subgraph_fold g (f : node_t -> bool) acc u :
  neighbors_or_empty (fold_left (fun (next : EdgeHolder) (p : node_t * EdgeEnumerator) =>
    if f p.1
    then oalter [] (fun neighs => neighs ++ List.filter (fun e => f e.1) p.2) p.1 next
    else next) g acc) u =
  neighbors_or_empty acc u ++
    if f u then List.filter (fun e => f e.1) (edges_from g u) else [].
Proof.
  revert acc. induction g as [|[k l] g IH]; intros acc; simpl.
  - by destruct (f u); rewrite app_nil_r.
  - rewrite IH. destruct (f k) eqn:Ek.
    + rewrite neighbors_oalter. destruct (decide (u = k)) as [->|].
      * rewrite Ek, decide_True by done. by rewrite List.filter_app, app_assoc.
      * by rewrite decide_False by done.
    + destruct (decide (k = u)) as [->|]; [by rewrite Ek|done].
Qed.

Lemma neighbors_subgraph g f u :
  NoDup (okeys g) ->
  neighbors_or_empty (subgraph g f) u =
    if f u then List.filter (fun e => f e.1) (neighbors_or_empty g u) else [].
Proof. intros Hd. unfold subgraph. rewrite subgraph_fold. by rewrite edges_from_neighbors. Qed.

Lemma okeys_oalter {V} (d : V) f n (h : list (node_t * V)) x :
  x ∈ okeys (oalter d f n h) <-> x = n \/ x ∈ okeys h.
Proof. apply okeys_oput. Qed.

Lemma okeys_subgraph g f x : x ∈ okeys (subgraph g f) <-> x ∈ okeys g /\ f x = true.
Proof.
  unfold subgraph. assert (Hg : forall acc, x ∈ okeys (fold_left (fun (next : EdgeHolder) (p : node_t * EdgeEnumerator) =>
    if f p.1 then oalter [] (fun neighs => neighs ++ List.filter (fun e => f e.1) p.2) p.1 next
    else next) g acc) <-> x ∈ okeys acc \/ (x ∈ okeys g /\ f x = true)).
  { induction g as [|[k l] g IH]; intros acc; simpl; [set_solver|]. rewrite IH.
    change (okeys ((k, l) :: g)) with (k :: okeys g). rewrite elem_of_cons.
    destruct (f k) eqn:Ek; [rewrite okeys_oalter|]; split; intros Hx;
      repeat match goal with
      | H : _ \/ _ |- _ => destruct H
      | H : _ /\ _ |- _ => destruct H
      end; subst; try congruence; tauto. }
  rewrite Hg. set_solver.
Qed.

Lemma NoDup_fold {A} (f : EdgeHolder -> A -> EdgeHolder) (l : list A) acc :
  (forall h a, NoDup (okeys h) -> NoDup (okeys (f h a))) ->
  NoDup (okeys acc) -> NoDup (okeys (fold_left f l acc)).
Proof. intros Hf. revert acc. induction l as [|a l IH]; simpl; auto. Qed.

Lemma NoDup_subgraph g f : NoDup (okeys (subgraph g f)).
Proof.
  apply NoDup_fold; [|constructor]. intros h p Hh. destruct (f p.1); [|done].
  by apply NoDup_oput.
Qed.

(** ** [reverse] *)
Lemma reverse_inner p l acc u x :
  edge (fold_left (fun (bw : EdgeHolder) (e : Edge) => add_edge e.1 (p, e.2) bw) l acc) u x <->
  edge acc u x \/ (x.1 = p /\ (u, x.2) ∈ l).
Proof.
  revert acc. induction l as [|[v lb] l IH]; intros acc; simpl; [set_solver|].
  rewrite IH, edge_add_edge, elem_of_cons. destruct x as [q lx]. simpl. naive_solver.
Qed.

Lemma reverse_fold g acc u x :
  edge (fold_left (fun (bw : EdgeHolder) (p : node_t * EdgeEnumerator) => fold_left (fun bw e => add_edge e.1 (p.1, e.2) bw) p.2 bw) g acc) u x <->
  edge acc u x \/ exists l, (x.1, l) ∈ g /\ (u, x.2) ∈ l.
Proof.
  revert acc. induction g as [|[k l] g IH]; intros acc; simpl; [set_solver|].
  rewrite IH, reverse_inner. setoid_rewrite elem_of_cons. naive_solver.
Qed.

Lemma NoDup_reverse g : NoDup (okeys (reverse g)).
Proof.
  apply NoDup_fold; [|constructor]. intros h p Hh.
  apply NoDup_fold; [|done]. intros. by apply NoDup_add_edge.
Qed.

Lemma edge_reverse g v u l : NoDup (okeys g) -> edge (reverse g) v (u, l) <-> edge g u (v, l).
Proof.
  intros Hd. unfold reverse. rewrite reverse_fold, (edge_entry g) by done. simpl.
  split; [intros [H|H]; [by apply elem_of_nil in H|exact H]|by right].
Qed.

(** ** [CFG::add] *)
Lemma CFG_add_fold holder other u e :
  edge (CFG_add holder other) u e <-> edge holder u e \/ exists l, (u, l) ∈ other /\ e ∈ l.
Proof.
  unfold CFG_add. revert holder. induction other as [|[k l] other IH]; intros holder; simpl; [set_solver|].
  rewrite IH. unfold edge. rewrite neighbors_oalter. setoid_rewrite elem_of_cons.
  destruct (decide (u = k)) as [->|]; [rewrite elem_of_app|]; naive_solver.
Qed.

(** ** [find_start_nodes] *)
Definition target (g : EdgeHolder) (v : node_t) : Prop := exists u l e, (u, l) ∈ g /\ e ∈ l /\ e.1 = v.

Lemma find_start_inner (l : EdgeEnumerator) (enc : list (node_t * unit)) (wn : gset node_t) x :
  let r := fold_left find_start_edge l (enc, wn) in
  (x ∈ okeys r.1 <-> x ∈ okeys enc /\ x ∉ l.*1) /\ (x ∈ r.2 <-> x ∈ wn \/ x ∈ l.*1).
Proof.
  revert enc wn. induction l as [|[v lb] l IH]; intros enc wn; simpl; [set_solver|].
  destruct (IH (oerase v enc) ({[v]} ∪ wn)) as [H1 H2]. rewrite H1, H2.
  rewrite <- !ofind_is_Some, ofind_oerase. split; [|set_solver].
  destruct (decide (x = v)) as [->|]; [|set_solver].
  split; [intros [[] _]; done|]. intros [_ Hn]. exfalso. apply Hn. set_solver.
Qed.

Lemma find_start_fold g enc wn x :
  NoDup (okeys g) -> (forall y, y ∈ okeys enc -> y ∉ wn) ->
  (forall y, y ∈ okeys enc -> y ∉ okeys g) ->
  let r := fold_left find_start_step g (enc, wn) in
  x ∈ okeys r.1 <-> (x ∈ okeys enc \/ (x ∈ okeys g /\ x ∉ wn)) /\ ~ target g x.
Proof.
  revert enc wn. induction g as [|[k l] g IH]; intros enc wn Hd Hwn Hg; simpl.
  { assert (~ target [] x) by (intros (? & ? & ? & ? & _); set_solver). set_solver. }
  change (okeys ((k, l) :: g)) with (k :: okeys g) in *. apply NoDup_cons in Hd as [Hk Hd].
  set (enc' := if bool_decide (k ∈ wn) then enc else oput k tt enc).
  assert (Henc' : forall y, y ∈ okeys enc' <-> y ∈ okeys enc \/ (y = k /\ k ∉ wn)).
  { intros y. unfold enc'. case_bool_decide; [naive_solver|]. rewrite okeys_oput. naive_solver. }
  destruct (fold_left find_start_edge l (enc', wn)) as [enc2 wn2] eqn:E2.
  assert (Hin : forall y, (y ∈ okeys enc2 <-> y ∈ okeys enc' /\ y ∉ l.*1) /\ (y ∈ wn2 <-> y ∈ wn \/ y ∈ l.*1)).
  { intros y. pose proof (find_start_inner l enc' wn y) as Hi. simpl in Hi. by rewrite E2 in Hi. }
  rewrite IH; [|done|..].
  - assert (Ht : target ((k, l) :: g) x <-> x ∈ l.*1 \/ target g x).
    { unfold target. setoid_rewrite elem_of_cons. rewrite list_elem_of_fmap. split.
      - intros (u & l' & e & [[= -> ->]|H'] & He & <-); [left; eauto|right; eauto 10].
      - intros [(e & -> & He)|(u & l' & e & H' & He & <-)]; eauto 10. }
    rewrite Ht. change (okeys ((k, l) :: g)) with (k :: okeys g). rewrite elem_of_cons.
    destruct (Hin x) as [H1 H2]. rewrite H1, H2, Henc'.
    assert (x = k -> k ∉ okeys g) by done. assert (x ∈ okeys enc -> x <> k) by (intros Hx ->; by apply Hg in Hx; set_solver).
    clear -H H0 Hwn Hk. pose proof (Hwn x). clear Hwn. destruct (decide (x = k)) as [->|]; [|tauto]. tauto.
  - intros y Hy. destruct (Hin y) as [H1 H2]. rewrite H2. apply H1 in Hy as [Hy Hl].
    apply Henc' in Hy as [Hy|[-> Hy]]; [|tauto]. apply Hwn in Hy. tauto.
  - intros y Hy. destruct (Hin y) as [H1 _]. apply H1 in Hy as [Hy _].
    apply Henc' in Hy as [Hy|[-> Hy]]; [|done]. apply Hg in Hy. set_solver.
Qed.

Lemma elem_of_find_start_nodes g x :
  NoDup (okeys g) -> x ∈ find_start_nodes g <-> x ∈ okeys g /\ ~ target g x.
Proof.
  intros Hd. unfold find_start_nodes. rewrite find_start_fold by (done || set_solver). set_solver.
Qed.

(** ** [terminals] *)
Lemma terminals_inner (h : EdgeHolder) (l : EdgeEnumerator) acc x :
  x ∈ fold_left (fun end_ (x : Edge) =>
      match ofind x.1 h with None => {[ x.1 ]} ∪ end_ | Some _ => end_ end) l acc <->
  x ∈ (acc : gset node_t) \/ (x ∈ l.*1 /\ x ∉ okeys h).
Proof.
  revert acc. induction l as [|[v lb] l IH]; intros acc; simpl; [set_solver|]. rewrite IH.
  rewrite <- (ofind_None_keys x h). destruct (ofind v h) eqn:E.
  - rewrite elem_of_cons. split; [tauto|]. intros [?|[[->|?] ?]]; [tauto|congruence|tauto].
  - rewrite elem_of_union, elem_of_singleton, elem_of_cons.
    split; [intros [[->|?]|?]; tauto|]. intros [?|[[->|?] ?]]; tauto.
Qed.

Lemma elem_of_terminals h x :
  x ∈ terminals h <-> (x, []) ∈ h \/ (target h x /\ x ∉ okeys h).
Proof.
  unfold terminals, target.
  assert (Hg : forall l acc, x ∈ fold_left (fun end_ (n : node_t * EdgeEnumerator) =>
    let end_ := match n.2 with [] => {[ n.1 ]} ∪ end_ | _ => end_ end in
    fold_left (fun end_ (x : Edge) =>
      match ofind x.1 h with None => {[ x.1 ]} ∪ end_ | Some _ => end_ end) n.2 end_) l acc <->
    x ∈ (acc : gset node_t) \/ (x, []) ∈ l \/
      ((exists u es, (u, es) ∈ l /\ x ∈ es.*1) /\ x ∉ okeys h)).
  { induction l as [|[k es] l IH]; intros acc; simpl; [set_solver|].
    rewrite IH, terminals_inner. setoid_rewrite elem_of_cons.
    destruct es as [|e es]; [rewrite elem_of_union, elem_of_singleton|]; simpl; split; intros Hx.
    - destruct Hx as [[[->|?]|[Hx _]]|[?|[(u & es' & ? & ?) ?]]]; try tauto; [by apply elem_of_nil in Hx|].
      right. right. split; [eauto|done].
    - destruct Hx as [?|[[Heq|?]|[(u & es' & [Heq|?] & Hx) ?]]]; try tauto; simplify_eq; [tauto|set_solver|].
      right. right. split; [eauto|done].
    - destruct Hx as [[?|[? ?]]|[?|[(u & es' & ? & ?) ?]]]; try tauto.
      + right. right. split; [|done]. eexists _, _. split; [by left|done].
      + right. right. split; [eauto|done].
    - destruct Hx as [?|[[?|?]|[(u & es' & [Heq|?] & Hx) ?]]]; try tauto; simplify_eq; [tauto|].
      right. right. split; [eauto|done]. }
  rewrite Hg. rewrite elem_of_empty. setoid_rewrite list_elem_of_fmap. split.
  - intros [?|[?|[(u & es & ? & e & -> & ?) ?]]]; [done|tauto|]. right. split; [eauto 10|done].
  - intros [?|[(u & es & e & ? & ? & <-) ?]]; [tauto|]. right. right. split; [eauto 10|done].
Qed.

(** ** [gmap]: renaming nodes *)
Definition rename_edges (f : node_t -> node_t) (l : EdgeEnumerator) : EdgeEnumerator :=
  map (fun e => (f e.1, e.2)) l.
Definition rename_graph (f : node_t -> node_t) (h c : EdgeHolder) : EdgeHolder :=
  fold_left (fun c n => oput (f n.1) (rename_edges f n.2) c) h c.

Lemma gmap_graph_renames h f : (gmap_graph h f).1 = rename_graph f h [].
Proof.
  unfold gmap_graph, rename_graph.
  assert (Hg : forall c b, (fold_left (fun '(c, change) (n : node_t * EdgeEnumerator) =>
    let res := f n.1 in
    let change := change || node_neq res n.1 in
    let neighs := map (fun e => (f e.1, e.2)) n.2 in
    let change := change || existsb (fun e => node_neq (f e.1) e.1) n.2 in
    (oput res neighs c, change)) h (c, b)).1 = rename_graph f h c).
  { induction h as [|n h IH]; intros c b; simpl; [done|]. apply IH. }
  apply Hg.
Qed.

(** A renaming that keeps the entries apart gives an isomorphic graph. *)
Lemma neighbors_rename f h c u :
  NoDup (f <$> okeys h) ->
  neighbors_or_empty (rename_graph f h c) u =
    match find (fun p => bool_decide (f p.1 = u)) h with
    | Some p => rename_edges f p.2
    | None => neighbors_or_empty c u
    end.
Proof.
  revert c. induction h as [|[k l] h IH]; intros c Hd; simpl; [done|].
  apply NoDup_cons in Hd as [Hk Hd]. rewrite IH by done.
  case_bool_decide as Heq.
  - subst u. destruct (find _ h) as [[k' l']|] eqn:E.
    + exfalso. apply find_some in E as [Hin E]. apply bool_decide_eq_true in E. apply Hk.
      simpl in E |- *. rewrite <- E. apply list_elem_of_fmap_2. unfold okeys.
      apply list_elem_of_fmap. exists (k', l'). split; [done|]. by apply list_elem_of_In.
    + unfold neighbors_or_empty. by rewrite ofind_oput_eq.
  - destruct (find _ h) as [[k' l']|]; [done|].
    unfold neighbors_or_empty. rewrite ofind_oput_ne; [done|]. intros ->. done.
Qed.

Lemma edge_rename f h u v l :
  NoDup (f <$> okeys h) ->
  edge (rename_graph f h []) u (v, l) <->
  exists u0 v0, u = f u0 /\ v = f v0 /\ edge h u0 (v0, l).
Proof.
  intros Hd. unfold edge at 1. rewrite neighbors_rename by done.
  assert (Hd' : NoDup (okeys h)) by (by apply NoDup_fmap_1 in Hd).
  setoid_rewrite edge_entry; [|done]. split.
  - destruct (find _ h) as [[k es]|] eqn:E; [|intros Hin; by apply elem_of_nil in Hin].
    apply find_some in E as [Hin E]. apply bool_decide_eq_true in E. simpl in *.
    intros He. unfold rename_edges in He.
    apply list_elem_of_In, in_map_iff in He as ([v0 l0] & [= <- <-] & He).
    exists k, v0; repeat split; try done; exists es; split; by apply list_elem_of_In.
  - intros (u0 & v0 & -> & -> & es & Hin & He).
    destruct (find _ h) as [[k es']|] eqn:E.
    + apply find_some in E as [Hin' E]. apply bool_decide_eq_true in E. simpl in *.
      apply list_elem_of_In in Hin'.
      assert (Hk : (k, es') = (u0, es)).
      { apply list_elem_of_lookup in Hin as [i Hi]. apply list_elem_of_lookup in Hin' as [j Hj].
        assert (i = j); [|congruence]. eapply (NoDup_lookup _ _ _ (f u0) Hd); unfold okeys.
        - by rewrite !list_lookup_fmap, Hi.
        - rewrite !list_lookup_fmap, Hj. simpl. by rewrite E. }
      injection Hk as -> ->. unfold rename_edges. apply list_elem_of_In, in_map_iff.
      exists (v0, l). split; [done|]. by apply list_elem_of_In.
    + exfalso. apply list_elem_of_In in Hin. pose proof (find_none _ _ E _ Hin) as Hf.
      simpl in Hf. by apply bool_decide_eq_false in Hf.
Qed.

Lemma setLabel_renames h L : setLabel h L = rename_graph (relabel L) h [].
Proof. done. Qed.

(** ** [freshClone] *)
Section fresh.
Context (L0 : Z).
Notation state := (Z * list (node_t * node_t))%type.

(** The names given so far: new labels, all different. *)
Definition fresh_ok (st : state) : Prop :=
  (L0 <= st.1)%Z /\
  (forall n c, ofind n st.2 = Some c -> exists k, c = node_clone n k /\ (L0 < k <= st.1)%Z) /\
  (forall n1 n2 c1 c2, ofind n1 st.2 = Some c1 -> ofind n2 st.2 = Some c2 ->
                       label c1 = label c2 -> n1 = n2).

Definition extends (st st' : state) : Prop :=
  forall n c, ofind n st.2 = Some c -> ofind n st'.2 = Some c.

Definition name_of (st : state) (n : node_t) : node_t := default n (ofind n st.2).

Lemma clone_extends_trans st1 st2 st3 : extends st1 st2 -> extends st2 st3 -> extends st1 st3.
Proof. unfold extends. eauto. Qed.

Lemma name_of_extends st st' n :
  extends st st' -> is_Some (ofind n st.2) -> name_of st' n = name_of st n.
Proof. intros He [c Hc]. unfold name_of. by rewrite (He _ _ Hc), Hc. Qed.

Lemma fresh_name_spec st n c st' :
  fresh_ok st -> fresh_name st n = (c, st') ->
  fresh_ok st' /\ extends st st' /\ ofind n st'.2 = Some c.
Proof.
  destruct st as [LABEL m]. intros (Hl & Hm & Hinj) Hn. unfold fresh_name in Hn.
  destruct (ofind n m) as [c'|] eqn:E; injection Hn as <- <-;
    [split; [by repeat split|]; split; [by intros ? ?|done]|]. simpl in *.
  assert (Hext : forall n1 c1, ofind n1 (oput n (node_clone n (LABEL + 1)) m) = Some c1 ->
            (n1 = n /\ c1 = node_clone n (LABEL + 1)) \/ (n1 <> n /\ ofind n1 m = Some c1)).
  { intros n1 c1. rewrite ofind_oput. case_decide; naive_solver. }
  split; [|split].
  - split; [simpl; lia|]. split; simpl.
    + intros n1 c1 [[-> ->]|[? Hc]]%Hext; [eexists; split; [done|lia]|].
      destruct (Hm _ _ Hc) as (k & -> & ?). exists k. split; [done|lia].
    + intros n1 n2 c1 c2 [[-> ->]|[? Hc1]]%Hext [[-> ->]|[? Hc2]]%Hext Hlab; simpl in *; [done| | |eauto].
      * destruct (Hm _ _ Hc2) as (k & -> & ?). simpl in *. lia.
      * destruct (Hm _ _ Hc1) as (k & -> & ?). simpl in *. lia.
  - intros n1 c1 Hc. simpl in *. rewrite ofind_oput. case_decide; [congruence|done].
  - simpl. apply ofind_oput_eq.
Qed.

Lemma fresh_edges_spec l : forall st l' st',
  fresh_ok st -> fresh_edges st l = (l', st') ->
  fresh_ok st' /\ extends st st' /\ (forall e, e ∈ l -> is_Some (ofind e.1 st'.2)) /\
  l' = rename_edges (name_of st') l.
Proof.
  induction l as [|[v lb] l IH]; intros st l' st' Hok Hf; simpl in Hf.
  { injection Hf as <- <-. split; [done|]. split; [by intros ? ?|]. split; [|done].
    intros e He. by apply elem_of_nil in He. }
  destruct (fresh_name st v) as [c st1] eqn:E1.
  destruct (fresh_edges st1 l) as [l1 st2] eqn:E2. injection Hf as <- <-.
  destruct (fresh_name_spec _ _ _ _ Hok E1) as (Hok1 & He1 & Hc).
  destruct (IH _ _ _ Hok1 E2) as (Hok2 & He2 & Hin & ->).
  split; [done|]. split; [by eapply clone_extends_trans|]. apply He2 in Hc as Hc2. split.
  - intros e [->|He]%elem_of_cons; [by eexists|auto].
  - simpl. f_equal. unfold name_of. by rewrite Hc2.
Qed.

Lemma rename_edges_ext f g l :
  (forall e, e ∈ l -> f e.1 = g e.1) -> rename_edges f l = rename_edges g l.
Proof.
  intros Hfg. unfold rename_edges. apply map_ext_in. intros e He.
  rewrite Hfg; [done|]. by apply list_elem_of_In.
Qed.

(** Every node of the graph has a name. *)
Definition named (st : state) (h : EdgeHolder) : Prop :=
  forall k l, (k, l) ∈ h ->
    is_Some (ofind k st.2) /\ forall e, e ∈ l -> is_Some (ofind e.1 st.2).

Lemma fresh_graph_spec h : forall st c c' st',
  fresh_ok st -> fresh_graph st h c = (c', st') ->
  fresh_ok st' /\ extends st st' /\ named st' h /\ c' = rename_graph (name_of st') h c.
Proof.
  induction h as [|[k l] h IH]; intros st c c' st' Hok Hf; simpl in Hf.
  { injection Hf as <- <-. split; [done|]. split; [by intros ? ?|]. split; [|done].
    intros k l Hkl. by apply elem_of_nil in Hkl. }
  destruct (fresh_name st k) as [ck st1] eqn:E1. simpl in Hf.
  destruct (fresh_edges st1 l) as [l1 st2] eqn:E2.
  destruct (fresh_name_spec _ _ _ _ Hok E1) as (Hok1 & He1 & Hc).
  destruct (fresh_edges_spec _ _ _ _ Hok1 E2) as (Hok2 & He2 & Hin & ->).
  destruct (IH _ _ _ _ Hok2 Hf) as (Hok3 & He3 & Hnamed & ->).
  assert (Hck : ofind k st'.2 = Some ck) by auto.
  assert (Hes : forall e, e ∈ l -> is_Some (ofind e.1 st'.2)).
  { intros e He. destruct (Hin _ He) as [ce Hce]. apply He3 in Hce. eauto. }
  split; [done|]. split; [by eapply clone_extends_trans; [|eapply clone_extends_trans]|]. split.
  - intros k' l' [[= -> ->]|Hkl]%elem_of_cons; [eauto|by apply Hnamed].
  - simpl. f_equal. unfold name_of at 2. rewrite Hck. simpl. f_equal.
    apply rename_edges_ext. intros e He. symmetry. apply name_of_extends; auto.
Qed.
End fresh.

Lemma name_of_inj L0 st n1 n2 :
  fresh_ok L0 st -> is_Some (ofind n1 st.2) -> is_Some (ofind n2 st.2) ->
  name_of st n1 = name_of st n2 -> n1 = n2.
Proof.
  intros (_ & _ & Hinj) [c1 H1] [c2 H2]. unfold name_of. rewrite H1, H2. simpl. intros ->. eauto.
Qed.

(** ** Properties *)

(** Removing nodes keeps exactly the edges between the nodes that stay, in
    their order. *)
Theorem subgraph_spec g f u :
  NoDup (okeys g) ->
  NoDup (okeys (subgraph g f)) /\
  (u ∈ okeys (subgraph g f) <-> u ∈ okeys g /\ f u = true) /\
  neighbors_or_empty (subgraph g f) u =
    (if f u then List.filter (fun e => f e.1) (neighbors_or_empty g u) else []).
Proof. intros Hd. split; [apply NoDup_subgraph|]. split; [apply okeys_subgraph|by apply neighbors_subgraph]. Qed.

(** A small graph for the witnesses: 1 -> 2, 1 -> 3, 2 -> 3, 3 -> 2 (a cycle
    below the start). *)
Definition nd (k : Z) : node_t := Node k NORMAL 0.
Definition sample : EdgeHolder :=
  [(nd 1, [(nd 2, 0%Z); (nd 3, 1%Z)]); (nd 2, [(nd 3, 0%Z)]); (nd 3, [(nd 2, 0%Z)])].

Lemma sample_NoDup : NoDup (okeys sample).
Proof. apply (bool_decide_eq_true_1 (NoDup (okeys sample))). by vm_compute. Qed.

Lemma subgraph_spec_witness :
  subgraph sample (fun n => negb (node n =? 2)%Z) = [(nd 1, [(nd 3, 1%Z)]); (nd 3, [])] /\
  (NoDup (okeys (subgraph sample (fun n => negb (node n =? 2)%Z))) /\
   (nd 1 ∈ okeys (subgraph sample (fun n => negb (node n =? 2)%Z)) <-> nd 1 ∈ okeys sample /\ true = true) /\
   neighbors_or_empty (subgraph sample (fun n => negb (node n =? 2)%Z)) (nd 1) =
     List.filter (fun e => negb (node e.1 =? 2)%Z) (neighbors_or_empty sample (nd 1))).
Proof.
  split; [by vm_compute|].
  apply (subgraph_spec sample (fun n => negb (node n =? 2)%Z) (nd 1)). apply sample_NoDup.
Defined.

(** Reversing twice gives back the edges; one reversal turns each of them
    around and keeps its label. *)
Theorem reverse_spec g u v l :
  NoDup (okeys g) ->
  (edge (reverse g) v (u, l) <-> edge g u (v, l)) /\
  (edge (reverse (reverse g)) u (v, l) <-> edge g u (v, l)).
Proof.
  intros Hd. split; [by apply edge_reverse|].
  rewrite edge_reverse by apply NoDup_reverse. by apply edge_reverse.
Qed.

Lemma reverse_spec_witness :
  reverse sample = [(nd 2, [(nd 1, 0%Z); (nd 3, 0%Z)]); (nd 3, [(nd 1, 1%Z); (nd 2, 0%Z)])] /\
  (edge (reverse sample) (nd 3) (nd 1, 1%Z) <-> edge sample (nd 1) (nd 3, 1%Z)).
Proof. split; [by vm_compute|]. apply (reverse_spec sample (nd 1) (nd 3) 1%Z), sample_NoDup. Defined.

(** The start nodes are the nodes with an entry and no incoming edge. *)
Theorem find_start_nodes_spec g x :
  NoDup (okeys g) ->
  x ∈ find_start_nodes g <-> x ∈ okeys g /\ ~ exists u l, edge g u (x, l).
Proof.
  intros Hd. rewrite elem_of_find_start_nodes by done. unfold target.
  setoid_rewrite edge_entry; [|done]. split; intros [Hx Hn]; (split; [done|]); intros Ht; apply Hn.
  - destruct Ht as (u & l & es & ? & ?). exists u, es, (x, l). done.
  - destruct Ht as (u & es & [v l] & ? & ? & <-). exists u, l, es. done.
Qed.

Lemma find_start_nodes_spec_witness :
  find_start_nodes sample = [nd 1] /\
  (nd 1 ∈ find_start_nodes sample <-> nd 1 ∈ okeys sample /\ ~ exists u l, edge sample u (nd 1, l)).
Proof. split; [by vm_compute|]. apply find_start_nodes_spec, sample_NoDup. Defined.

(** [freshClone] returns an isomorphic copy on new labels: a renaming that is
    injective on the graph's nodes, whose images carry labels the counter had
    not handed out, and under which the edges correspond. *)
Theorem freshClone_isomorphic LABEL h start end_ start' end' c LABEL' m :
  NoDup (okeys h) ->
  freshClone LABEL h start end_ = ((start', end', c), (LABEL', m)) ->
  exists rho, start' = rho start /\ end' = rho end_ /\
    (forall n, n ∈ [start; end_] \/ n ∈ okeys h \/ target h n ->
       exists k, rho n = node_clone n k /\ (LABEL < k <= LABEL')%Z) /\
    (forall n1 n2, (n1 ∈ [start; end_] \/ n1 ∈ okeys h \/ target h n1) ->
       (n2 ∈ [start; end_] \/ n2 ∈ okeys h \/ target h n2) -> rho n1 = rho n2 -> n1 = n2) /\
    (forall u v l, edge c u (v, l) <-> exists u0 v0, u = rho u0 /\ v = rho v0 /\ edge h u0 (v0, l)).
Proof.
  intros Hd Hf. unfold freshClone in Hf.
  destruct (fresh_name (LABEL, []) start) as [s1 st1] eqn:E1.
  destruct (fresh_name st1 end_) as [e1 st2] eqn:E2.
  destruct (fresh_graph st2 h []) as [c1 st3] eqn:E3. injection Hf as <- <- <- Hst3.
  assert (Hok0 : fresh_ok LABEL (LABEL, [])) by (split; [simpl; lia|]; split; done).
  destruct (fresh_name_spec _ _ _ _ _ Hok0 E1) as (Hok1 & _ & Hs).
  destruct (fresh_name_spec _ _ _ _ _ Hok1 E2) as (Hok2 & He2 & He).
  destruct (fresh_graph_spec _ _ _ _ _ _ Hok2 E3) as (Hok3 & He3 & Hnamed & ->).
  apply He2, He3 in Hs. apply He3 in He.
  assert (Hall : forall n, n ∈ [start; end_] \/ n ∈ okeys h \/ target h n -> is_Some (ofind n st3.2)).
  { intros n [Hn|[Hn|Hn]].
    - apply elem_of_cons in Hn as [->|Hn%list_elem_of_singleton]; subst; eauto.
    - apply elem_of_okeys in Hn as [l Hl]. by apply (Hnamed _ _ Hl).
    - destruct Hn as (u & l & e & Hl & Hel & <-). by apply (Hnamed _ _ Hl). }
  exists (name_of st3). split; [by unfold name_of; rewrite Hs|]. split; [by unfold name_of; rewrite He|].
  split; [|split].
  - intros n Hn. destruct (Hall _ Hn) as [cn Hcn]. unfold name_of. rewrite Hcn. simpl.
    destruct Hok3 as (_ & Hm & _). rewrite Hst3 in *. by apply Hm.
  - intros n1 n2 H1 H2. eapply name_of_inj; eauto.
  - intros u v l. apply edge_rename. apply NoDup_fmap_2_strong; [|done].
    intros n1 n2 H1 H2. eapply name_of_inj; eauto.
Qed.

Lemma freshClone_isomorphic_witness :
  exists rho, Node 1 NORMAL 8 = rho (nd 1) /\
    (edge (freshClone 7 sample (nd 1) (nd 3)).1.2 (Node 2 NORMAL 10) (Node 3 NORMAL 9, 0%Z) <->
     exists u0 v0, Node 2 NORMAL 10 = rho u0 /\ Node 3 NORMAL 9 = rho v0 /\ edge sample u0 (v0, 0%Z)).
Proof.
  destruct (freshClone_isomorphic 7 sample (nd 1) (nd 3) (Node 1 NORMAL 8) (Node 3 NORMAL 9)
              (freshClone 7 sample (nd 1) (nd 3)).1.2 10
              (freshClone 7 sample (nd 1) (nd 3)).2.2 sample_NoDup)
    as (rho & Hs & _ & _ & _ & Hedge); [by vm_compute|].
  exists rho. split; [exact Hs|apply Hedge].
Defined.

(** [!=] on nodes compares the IR nodes only: two edges that [==] tells apart
    are equivalent keys of a [std::map]. *)
Example FullEdge_order_conflates :
  let e1 := FullEdge (Node 1 CALL 0) (nd 2) 0 in
  let e2 := FullEdge (Node 1 RETURN 0) (nd 2) 0 in
  e1 <> e2 /\ key_ltb e1 e2 = false /\ key_ltb e2 e1 = false.
Proof. by vm_compute. Qed.
