(* ===== verification/CfgTraverse.v ===== *)
(** * Traversals of control-flow graphs: [cfg_algos.h], [cfg_algos.cpp]

    The stack-based depth-first walk and what is built on it, the recursive
    topological sort, the timed walk that classifies edges, and the
    splitting into basic blocks.  Loops carry fuel; the lemmas say how much is
    enough. *)
From S2P Require Import Prelude CfgGraph.
Local Open Scope flexplan_scope.

(** ** [traverse_df], [traverse_df_with_check]

    The callbacks transform a state: [pn] runs on every node, [pe] on every
    edge of a visited node and decides whether the target is pushed. *)
Section traverse.
Context {S : Type} (g : EdgeHolder) (pn : node_t -> S -> S)
  (pe : node_t -> Edge -> S -> bool * S).

(** The loop over the neighbours; [stack] has its top first. *)
Fixpoint push_neighbours (n : node_t) (l : EdgeEnumerator) (stack : list node_t) (s : S)
    : list node_t * S :=
  match l with
  | [] => (stack, s)
  | e :: l =>
      let '(b, s) := pe n e s in
      push_neighbours n l (if b : bool then e.1 :: stack else stack) s
  end.

Fixpoint traverse_loop (fuel : nat) (stack : list node_t) (visited : gset node_t) (s : S)
    : option (gset node_t * S) :=
  match stack with
  | [] => Some (visited, s)
  | n :: stack =>
      match fuel with
      | O => None
      | Datatypes.S fuel =>
          if bool_decide (n ∈ visited) then traverse_loop fuel stack visited s
          else
            let visited := {[ n ]} ∪ visited in
            let s := pn n s in
            match ofind n g with
            | Some l =>
                let '(stack, s) := push_neighbours n l stack s in
                traverse_loop fuel stack visited s
            | None => traverse_loop fuel stack visited s
            end
      end
  end.

(** Every edge is pushed at most once. *)
Definition traverse_fuel : nat := Datatypes.S (length (flat_map snd g)).
Definition traverse_df_with_check (start : node_t) (s : S) : option S :=
  snd <$> traverse_loop traverse_fuel [start] ∅ s.
End traverse.

Definition traverse_df {S} (g : EdgeHolder) (start : node_t) (pn : node_t -> S -> S)
    (pe : node_t -> Edge -> S -> S) (s : S) : option S :=
  traverse_df_with_check g pn (fun n e s => (true, pe n e s)) start s.
Definition traverse_df_pernode {S} (g : EdgeHolder) (start : node_t) (pn : node_t -> S -> S) (s : S)
    : option S :=
  traverse_df g start pn (fun _ _ s => s) s.

(** [removeDeadNodes] *)
Definition removeDeadNodes (h : EdgeHolder) (start : node_t) (d : node_t -> bool) : option EdgeHolder :=
  found ← traverse_df_pernode h start (fun n found => if d n then found else {[ n ]} ∪ found) (∅ : gset node_t);
  Some (subgraph h (fun n => bool_decide (n ∈ found))).

(** [findEndNodes] *)
Definition findEndNodes (h : EdgeHolder) (start : node_t) : option (gset node_t) :=
  traverse_df_pernode h start (fun n end_ =>
    match ofind n h with
    | Some [] | None => {[ n ]} ∪ end_
    | Some _ => end_
    end) ∅.

(** [take_starting_from]: a breadth-first walk ([push_front], [pop_back])
    that stops once more than [limit] nodes were met.  The queue has its back
    first. *)
Fixpoint take_loop (fuel : nat) (h : EdgeHolder) (limit : nat) (q : list node_t)
    (total : gset node_t) (sub : EdgeHolder) : option EdgeHolder :=
  match q with
  | [] => Some sub
  | last :: q =>
      match fuel with
      | O => None
      | S fuel =>
          if bool_decide (last ∈ total) then take_loop fuel h limit q total sub
          else
            let total := {[ last ]} ∪ total in
            if (limit <? size total)%nat then Some sub
            else
              match ofind last h with
              | Some l =>
                  take_loop fuel h limit (q ++ l.*1) total
                    (fold_left (fun sub nxt => add_edge last nxt sub) l sub)
              | None => take_loop fuel h limit q total sub
              end
      end
  end.
Definition take_starting_from (h : EdgeHolder) (last : node_t) (limit : nat) : option EdgeHolder :=
  take_loop (S (length (flat_map snd h))) h limit [last] ∅ [].

(** ** [topo_sort]: the recursion [topo_sort_util]; fuel bounds its depth. *)
Section topo.
Context (g : EdgeHolder).

(** The loop over the neighbours, given the recursive call. *)
Definition topo_neighbours (rec : node_t -> gset node_t * list node_t -> option (gset node_t * list node_t))
    : EdgeEnumerator -> gset node_t * list node_t -> option (gset node_t * list node_t) :=
  fix go l st :=
    match l with
    | [] => Some st
    | e :: l =>
        if bool_decide (e.1 ∈ st.1) then go l st
        else st ← rec e.1 st; go l st
    end.

Fixpoint topo_sort_util (fuel : nat) (v : node_t) (st : gset node_t * list node_t)
    : option (gset node_t * list node_t) :=
  match fuel with
  | O => None
  | S fuel =>
      let '(visited, sorted) := st in
      st ← topo_neighbours (topo_sort_util fuel) (neighbors_or_empty g v) ({[ v ]} ∪ visited, sorted);
      Some (st.1, st.2 ++ [v])
  end.

Definition nodes_of : gset node_t := list_to_set (okeys g) ∪ list_to_set ((flat_map snd g).*1).
Definition topo_fuel (v : node_t) : nat := S (size ({[ v ]} ∪ nodes_of)).

Definition topo_sort_from (start : node_t) : option (list node_t) :=
  snd <$> topo_sort_util (topo_fuel start) start (∅, []).

Fixpoint topo_sort_all (keys : list node_t) (st : gset node_t * list node_t)
    : option (gset node_t * list node_t) :=
  match keys with
  | [] => Some st
  | k :: keys =>
      if bool_decide (k ∈ st.1) then topo_sort_all keys st
      else st ← topo_sort_util (topo_fuel k) k st; topo_sort_all keys st
  end.
Definition topo_sort : option (list node_t) := snd <$> topo_sort_all (okeys g) (∅, []).
End topo.

(** ** [classify] and [find_back_edges]: entry and exit times. *)
Record times := {
  start_times : list (node_t * Z);
  end_times : list (node_t * Z);
  tvisited : gset node_t;
  clock : Z
}.

Definition enter (v : node_t) (st : times) : times := {|
  start_times := oput v (clock st) (start_times st);
  end_times := end_times st;
  tvisited := {[ v ]} ∪ tvisited st;
  clock := clock st + 1
|}.
Definition leave (v : node_t) (st : times) : times := {|
  start_times := start_times st;
  end_times := oput v (clock st) (end_times st);
  tvisited := tvisited st;
  clock := clock st + 1
|}.

Definition classify_neighbours (rec : node_t -> times -> option times)
    : EdgeEnumerator -> times -> option times :=
  fix go l st :=
    match l with
    | [] => Some st
    | e :: l =>
        if bool_decide (e.1 ∈ tvisited st) then go l st
        else st ← rec e.1 st; go l st
    end.

Fixpoint classify_util (g : EdgeHolder) (fuel : nat) (v : node_t) (st : times) : option times :=
  match fuel with
  | O => None
  | S fuel =>
      st ← classify_neighbours (classify_util g fuel) (neighbors_or_empty g v) (enter v st);
      Some (leave v st)
  end.

Definition times0 : times := {| start_times := []; end_times := []; tvisited := ∅; clock := 0 |}.
Definition classify (g : EdgeHolder) (start : node_t) : option times :=
  classify_util g (topo_fuel g start) start times0.

(** [operator[]] answers 0 for a node the walk did not meet. *)
Definition start_of (st : times) (n : node_t) : Z := ofind_or 0%Z n (start_times st).
Definition end_of (st : times) (n : node_t) : Z := ofind_or 0%Z n (end_times st).

Record edge_classes := { back : list FullEdge_t; tree : list FullEdge_t; cross : list FullEdge_t }.

Definition classify_edge (st : times) (u : node_t) (e : Edge) (c : edge_classes) : edge_classes :=
  let fe := FullEdge u e.1 e.2 in
  let su := start_of st u in let sv := start_of st e.1 in
  let eu := end_of st u in let ev := end_of st e.1 in
  {| cross := if (sv <? su)%Z && (ev <? eu)%Z then cross c ++ [fe] else cross c;
     back := if (sv <? su)%Z && (eu <? ev)%Z then back c ++ [fe] else back c;
     tree := if (su <? sv)%Z && (ev <? eu)%Z then tree c ++ [fe] else tree c |}.

Definition find_back_edges (g : EdgeHolder) (start : node_t) : option edge_classes :=
  st ← classify g start;
  Some (fold_left (fun c p => fold_left (fun c e => classify_edge st p.1 e c) p.2 c) g
          {| back := []; tree := []; cross := [] |}).

(** ** [basic_blocks]

    [resolved] maps a node to the index of its block; [alloc i] is the
    address of the [i]-th instruction vector.  The stack has its top first. *)
Definition BasicBlock : Type := list node_t.

(** Push the successors that no block has taken yet. *)
Definition push_succs (resolved : list (node_t * nat)) (succs : EdgeEnumerator) (stack : list BasicBlock)
    : list BasicBlock :=
  fold_left (fun stack s =>
    match ofind s.1 resolved with None => [s.1] :: stack | Some _ => stack end) succs stack.

(** The inner loop: extend the block [crt], whose last node is [last]. *)
Fixpoint extend_block (fuel : nat) (graph rgraph : EdgeHolder) (idx : nat) (crt : BasicBlock)
    (last : node_t) (resolved : list (node_t * nat)) (stack : list BasicBlock)
    : option (outcome (BasicBlock * list (node_t * nat) * list BasicBlock)) :=
  match fuel with
  | O => None
  | S fuel =>
      match ofind last resolved with
      | Some _ => Some (Aborted "processing twice the same node")
      | None =>
          let resolved := oput last idx resolved in
          match ofind last graph with
          | Some [succ] =>
              match ofind succ.1 rgraph with
              | Some (_ :: _ :: _) =>
                  Some (oret (crt, resolved,
                          match ofind succ.1 resolved with None => [succ.1] :: stack | Some _ => stack end))
              | _ => extend_block fuel graph rgraph idx (crt ++ [succ.1]) succ.1 resolved stack
              end
          | Some succs =>
              Some (oret (crt, resolved, push_succs resolved succs stack))
          | None => Some (oret (crt, resolved, stack))
          end
      end
  end.

Fixpoint block_loop (fuel : nat) (graph rgraph : EdgeHolder) (stack : list BasicBlock)
    (resolved : list (node_t * nat)) (blocks : list BasicBlock)
    : option (outcome (list BasicBlock * list (node_t * nat))) :=
  match stack with
  | [] => Some (oret (blocks, resolved))
  | crt :: stack =>
      match fuel, last crt with
      | S fuel', Some lst =>
          match extend_block fuel graph rgraph (length blocks) crt lst resolved stack with
          | None => None
          | Some (Aborted w) => Some (Aborted w)
          | Some (Done (crt, resolved, stack) _) =>
              block_loop fuel' graph rgraph stack resolved (blocks ++ [crt])
          end
      | _, _ => None
      end
  end.

(** The edges between blocks; [resolved[n]] inserts index 0 when [n] was not
    met. *)
Definition block_edges (alloc : nat -> Z) (resolved : list (node_t * nat)) (j : nat)
    (l : EdgeEnumerator) (h : EdgeHolder) : EdgeHolder :=
  fold_left (fun h e =>
    add_edge (Node (alloc j) NORMAL 0) (Node (alloc (ofind_or O e.1 resolved)) NORMAL 0, e.2) h) l h.

Fixpoint connect_blocks (alloc : nat -> Z) (graph rgraph : EdgeHolder) (resolved : list (node_t * nat))
    (j : nat) (blocks : list BasicBlock) (bbg rbbg : EdgeHolder) : EdgeHolder * EdgeHolder :=
  match blocks with
  | [] => (bbg, rbbg)
  | blk :: blocks =>
      let bbg := match last blk with
                 | Some n => block_edges alloc resolved j (neighbors_or_empty graph n) bbg
                 | None => bbg
                 end in
      let rbbg := match head blk with
                  | Some n => block_edges alloc resolved j (neighbors_or_empty rgraph n) rbbg
                  | None => rbbg
                  end in
      connect_blocks alloc graph rgraph resolved (S j) blocks bbg rbbg
  end.

Definition blocks_fuel (graph : EdgeHolder) (start : node_t) : nat :=
  S (length (flat_map snd graph) + size ({[ start ]} ∪ nodes_of graph)).

(** [basic_blocks]: the blocks, the two block graphs and the start block. *)
Definition basic_blocks (alloc : nat -> Z) (graph rgraph : EdgeHolder) (start : node_t)
    : option (outcome (list BasicBlock * EdgeHolder * EdgeHolder * node_t)) :=
  match block_loop (blocks_fuel graph start) graph rgraph [[start]] [] [] with
  | None => None
  | Some (Aborted w) => Some (Aborted w)
  | Some (Done (blocks, resolved) _) =>
      let '(bbg, rbbg) := connect_blocks alloc graph rgraph resolved 0 blocks [] [] in
      Some (oret (blocks, bbg, rbbg, Node (alloc (ofind_or O start resolved)) NORMAL 0))
  end.

(** ** Lemmas: the depth-first walk *)

Lemma push_neighbours_length {S} (pe : node_t -> Edge -> S -> bool * S) n l stack s :
  (length (push_neighbours pe n l stack s).1 <= length stack + length l)%nat.
Proof.
  revert stack s. induction l as [|e l IH]; intros stack s; simpl; [lia|].
  destruct (pe n e s) as [b s']. specialize (IH (if b then e.1 :: stack else stack) s').
  destruct b; simpl in *; lia.
Qed.

Lemma traverse_loop_total {S} (g : EdgeHolder) pn (pe : node_t -> Edge -> S -> bool * S) fuel :
  forall stack visited s, (length stack + pending visited g <= fuel)%nat ->
  is_Some (traverse_loop g pn pe fuel stack visited s).
Proof.
  induction fuel as [|fuel IH]; intros [|n stack] visited s Hf; simpl in *; try done; try lia; try by eexists.
  case_bool_decide as Hn; [apply IH; lia|].
  destruct (ofind n g) as [l|] eqn:E.
  - destruct (push_neighbours pe n l stack (pn n s)) as [stack' s'] eqn:Ep. apply IH.
    pose proof (push_neighbours_length pe n l stack (pn n s)) as Hl. rewrite Ep in Hl. simpl in Hl.
    pose proof (pending_visit _ _ _ _ E Hn). lia.
  - apply IH. pose proof (pending_mono visited ({[ n ]} ∪ visited) g ltac:(set_solver)). lia.
Qed.

Lemma traverse_df_with_check_total {S} (g : EdgeHolder) pn (pe : node_t -> Edge -> S -> bool * S) start s :
  is_Some (traverse_df_with_check g pn pe start s).
Proof.
  unfold traverse_df_with_check, traverse_fuel.
  destruct (traverse_loop_total g pn pe (Datatypes.S (length (flat_map snd g))) [start] ∅ s) as [r ->];
    [|by eexists]. rewrite pending_empty. simpl. lia.
Qed.

Section pernode.
Context {S : Type} (g : EdgeHolder) (pn : node_t -> S -> S).
Notation visit_all := (fold_left (fun s n => pn n s)).

Lemma push_all n l stack (s : S) :
  push_neighbours (fun _ _ s => (true, s)) n l stack s = (rev l.*1 ++ stack, s).
Proof.
  revert stack. induction l as [|e l IH]; intros stack; simpl; [done|].
  rewrite IH. by rewrite <- app_assoc.
Qed.

Lemma step_ofind n m : step g n m <-> exists l, ofind n g = Some l /\ m ∈ l.*1.
Proof.
  unfold step, edge, neighbors_or_empty. split.
  - intros [lb Hm]. destruct (ofind n g) as [l|]; simpl in Hm; [|by apply elem_of_nil in Hm].
    exists l. split; [done|]. apply list_elem_of_fmap. by exists (m, lb).
  - intros (l & -> & ([m' lb] & -> & Hm)%list_elem_of_fmap). by exists lb.
Qed.

(** The nodes met by the loop, in order. *)
Lemma traverse_loop_order fuel : forall stack visited s vis' s',
  traverse_loop g pn (fun _ _ s => (true, s)) fuel stack visited s = Some (vis', s') ->
  exists order, s' = visit_all order s /\ vis' = visited ∪ list_to_set order /\
    NoDup order /\ (forall n, n ∈ order -> n ∉ visited) /\
    (forall n, n ∈ order -> exists m, m ∈ stack /\ reach g m n) /\
    (forall n, n ∈ stack -> n ∈ vis') /\
    (forall n m, n ∈ order -> step g n m -> m ∈ vis').
Proof.
  induction fuel as [|fuel IH]; intros stack visited s vis' s' Ht.
  { destruct stack; [|done]. injection Ht as <- <-. exists []. set_solver by eauto using NoDup_nil_2. }
  destruct stack as [|n stack]; simpl in Ht.
  { injection Ht as <- <-. exists []. set_solver by eauto using NoDup_nil_2. }
  case_bool_decide as Hn.
  - destruct (IH _ _ _ _ _ Ht) as (order & H1 & -> & H2 & H3 & H4 & H5 & H6).
    exists order. split; [done|]. split; [done|]. split; [done|]. split; [done|]. split; [|split].
    + intros x Hx. destruct (H4 _ Hx) as (m & Hm & ?). exists m. set_solver.
    + intros x [->|Hx]%elem_of_cons; [set_solver|auto].
    + done.
  - assert (Hcase : exists stack', (forall m, m ∈ stack' <-> m ∈ stack \/ step g n m) /\
      traverse_loop g pn (fun _ _ s => (true, s)) fuel stack' ({[ n ]} ∪ visited) (pn n s) = Some (vis', s')).
    { destruct (ofind n g) as [l|] eqn:E.
      - rewrite push_all in Ht. eexists. split; [|exact Ht]. intros m.
        rewrite elem_of_app, list_elem_of_In, <- in_rev, <- list_elem_of_In, step_ofind, E. naive_solver.
      - exists stack. split; [|done]. intros m. rewrite step_ofind, E. naive_solver. }
    destruct Hcase as (stack' & Hst & Ht'). clear Ht.
    destruct (IH _ _ _ _ _ Ht') as (order & H1 & -> & H2 & H3 & H4 & H5 & H6).
    exists (n :: order). split; [done|]. split; [set_solver|]. split.
    { apply NoDup_cons. split; [|done]. intros Hin. apply H3 in Hin. set_solver. }
    split; [intros x [->|Hx]%elem_of_cons; [done|apply H3 in Hx; set_solver]|].
    split; [|split].
    + intros x [->|Hx]%elem_of_cons; [exists n; split; [set_solver|constructor]|].
      destruct (H4 _ Hx) as (m & [Hm|Hm]%Hst & Hr); [exists m; set_solver|].
      exists n. split; [set_solver|]. by eapply rtc_l.
    + intros x [->|Hx]%elem_of_cons; [set_solver|]. apply H5, Hst. by left.
    + intros x m [->|Hx]%elem_of_cons Hs; [apply H5, Hst; by right|by eapply H6].
Qed.

(** The walk meets each reachable node exactly once. *)
Lemma traverse_df_pernode_order start s :
  exists order, traverse_df_pernode g start pn s = Some (visit_all order s) /\
    NoDup order /\ (forall n, n ∈ order <-> reach g start n).
Proof.
  unfold traverse_df_pernode, traverse_df, traverse_df_with_check.
  destruct (traverse_loop_total g pn (fun n e s => (true, s)) (traverse_fuel g) [start] ∅ s) as [[vis' s'] Ht].
  { unfold traverse_fuel. rewrite pending_empty. simpl. lia. }
  rewrite Ht. destruct (traverse_loop_order _ _ _ _ _ _ Ht) as (order & -> & -> & H2 & _ & H4 & H5 & H6).
  exists order. split; [done|]. split; [done|]. intros n. split.
  - intros Hn. destruct (H4 _ Hn) as (m & ->%list_elem_of_singleton & ?). done.
  - intros Hr. assert (Hs : start ∈ order) by (specialize (H5 start); set_solver).
    revert Hs. clear -Hr H6. induction Hr as [|x y z Hxy Hyz IH]; [done|]. intros Hx. apply IH.
    specialize (H6 _ _ Hx Hxy). set_solver.
Qed.
End pernode.

(** ** Lemmas: the topological sort *)
Section topo_lemmas.
Context (g : EdgeHolder).
Notation state := (gset node_t * list node_t)%type.

(** Every edge goes to an earlier element, or closes a cycle. *)
Definition ordered (sorted : list node_t) : Prop :=
  forall i u w, sorted !! i = Some u -> step g u w ->
    (exists j, (j < i)%nat /\ sorted !! j = Some w) \/ reach g w u.

(** The nodes visited but not sorted yet are on the call stack: they reach
    the current node [v]. *)
Record topo_ok (v : node_t) (st : state) : Prop := {
  ok_sub : forall n, n ∈ st.2 -> n ∈ st.1;
  ok_nodup : NoDup st.2;
  ok_ordered : ordered st.2;
  ok_closed : forall u w, u ∈ st.2 -> step g u w -> w ∈ st.1;
  ok_gray : forall n, n ∈ st.1 -> n ∉ st.2 -> reach g n v
}.

Definition topo_ext (v : node_t) (st st' : state) : Prop :=
  exists new, st'.2 = st.2 ++ new /\ st'.1 = st.1 ∪ list_to_set new /\
    (forall n, n ∈ new -> n ∉ st.1 /\ reach g v n).

Lemma topo_ext_refl v st : topo_ext v st st.
Proof. exists []. rewrite app_nil_r. set_solver. Qed.

Lemma topo_ext_trans v st1 st2 st3 : topo_ext v st1 st2 -> topo_ext v st2 st3 -> topo_ext v st1 st3.
Proof.
  intros (n1 & H1 & H2 & H3) (n2 & H4 & H5 & H6). exists (n1 ++ n2).
  rewrite H4, H1, H5, H2, app_assoc, list_to_set_app_L. split; [done|]. split; [set_solver|].
  intros n [Hn|Hn]%elem_of_app; [auto|]. apply H6 in Hn as [Hn ?]. split; [|done]. set_solver.
Qed.

Lemma topo_ext_reach u v st st' : reach g u v -> topo_ext v st st' -> topo_ext u st st'.
Proof.
  intros Hr (new & H1 & H2 & H3). exists new. split; [done|]. split; [done|].
  intros n Hn. destruct (H3 _ Hn). split; [done|]. by etrans.
Qed.

Lemma topo_ok_gray_change u v st st' :
  topo_ok u st' -> topo_ext u st st' -> (forall n, n ∈ st.1 -> n ∉ st.2 -> reach g n v) -> topo_ok v st'.
Proof.
  intros [H1 H2 H3 H4 H5] (new & E1 & E2 & _) Hg. split; try done.
  rewrite E1, E2. intros n Hn Hs.
  apply elem_of_union in Hn as [Hn|Hn%elem_of_list_to_set]; [apply Hg; [done|]|];
    contradict Hs; apply elem_of_app; auto.
Qed.

(** Appending the node whose neighbours are all visited. *)
Lemma topo_ok_append v st :
  topo_ok v st -> v ∈ st.1 -> v ∉ st.2 -> (forall w, step g v w -> w ∈ st.1) ->
  topo_ok v (st.1, st.2 ++ [v]).
Proof.
  intros [H1 H2 H3 H4 H5] Hv Hns Hall. split; simpl.
  - intros n [Hn|Hn]%elem_of_app; [auto|]. apply list_elem_of_singleton in Hn as ->. done.
  - apply NoDup_app. split; [done|]. split; [set_solver|apply NoDup_singleton].
  - intros i u w Hi Hs. apply lookup_app_Some in Hi as [Hi|[Hlen Hi]].
    + destruct (H3 _ _ _ Hi Hs) as [(j & Hj & Hw)|]; [|by right]. left. exists j.
      split; [done|]. by apply lookup_app_l_Some.
    + apply list_lookup_singleton_Some in Hi as [Hi ->].
      destruct (decide (w ∈ st.2)) as [Hw|Hw]; [left|right; auto].
      apply list_elem_of_lookup in Hw as [j Hj]. exists j.
      split; [apply lookup_lt_Some in Hj; lia|by apply lookup_app_l_Some].
  - intros u w [Hu|Hu]%elem_of_app Hs; [by eapply H4|]. apply list_elem_of_singleton in Hu as ->. auto.
  - intros n Hn Hns'. apply H5; [done|set_solver].
Qed.

Lemma topo_neighbours_ok rec v l : forall st st',
  (forall w st st', topo_ok w st -> w ∉ st.1 -> rec w st = Some st' ->
     topo_ok w st' /\ topo_ext w st st' /\ w ∈ st'.1) ->
  (forall e, e ∈ l -> step g v e.1) -> topo_ok v st ->
  topo_neighbours rec l st = Some st' ->
  topo_ok v st' /\ topo_ext v st st' /\ (forall e, e ∈ l -> e.1 ∈ st'.1).
Proof.
  induction l as [|e l IH]; intros st st' Hrec Hl Hok Hgo; simpl in Hgo.
  - injection Hgo as <-. split; [done|]. split; [apply topo_ext_refl|]. intros e He. by apply elem_of_nil in He.
  - assert (Hl' : forall e, e ∈ l -> step g v e.1) by set_solver.
    case_bool_decide as He.
    + destruct (IH _ _ Hrec Hl' Hok Hgo) as (H1 & H2 & H3). split; [done|]. split; [done|].
      intros e' [->|He']%elem_of_cons; [|auto]. destruct H2 as (new & _ & -> & _). set_solver.
    + apply bind_Some in Hgo as (st1 & Hr & Hgo).
      assert (Hstep : reach g v e.1) by (apply rtc_once; set_solver).
      assert (Hok1 : topo_ok e.1 st).
      { destruct Hok. split; try done. intros n Hn Hs. etrans; [by apply ok_gray0|done]. }
      destruct (Hrec _ _ _ Hok1 He Hr) as (Hok2 & Hext & Hin).
      assert (Hok3 : topo_ok v st1) by (eapply topo_ok_gray_change; [done|done|apply Hok]).
      destruct (IH _ _ Hrec Hl' Hok3 Hgo) as (H1 & H2 & H3). split; [done|].
      split; [eapply topo_ext_trans; [by eapply topo_ext_reach|done]|].
      intros e' [->|He']%elem_of_cons; [|auto]. destruct H2 as (new & _ & -> & _). set_solver.
Qed.

Lemma topo_sort_util_ok fuel : forall v st st',
  topo_ok v st -> v ∉ st.1 -> topo_sort_util g fuel v st = Some st' ->
  topo_ok v st' /\ topo_ext v st st' /\ v ∈ st'.1 /\ v ∈ st'.2.
Proof.
  induction fuel as [|fuel IH]; intros v [vis sorted] st' Hok Hv Ht; simpl in Ht; [done|].
  apply bind_Some in Ht as (st1 & Hgo & [= <-]). simpl in Hv.
  assert (Hns : v ∉ sorted) by (intros Hin; by apply (ok_sub _ _ Hok) in Hin).
  assert (Hok0 : topo_ok v ({[ v ]} ∪ vis, sorted)).
  { destruct Hok as [H1 H2 H3 H4 H5]; simpl in *. split; simpl; try done; [set_solver|set_solver|].
    intros n Hn Hs. apply elem_of_union in Hn as [->%elem_of_singleton|Hn]; [done|auto]. }
  apply (topo_neighbours_ok _ v) in Hgo as (Hok1 & Hext & Hall); [| |intros [w lb] He; by exists lb|done].
  2: { intros w st2 st2' Hw Hnw Hr. destruct (IH _ _ _ Hw Hnw Hr) as (? & ? & ? & ?). done. }
  destruct Hext as (new & E1 & E2 & Hnew). simpl in E1, E2, Hnew.
  assert (Hns1 : v ∉ st1.2) by (rewrite E1; set_solver).
  assert (Hv1 : v ∈ st1.1) by set_solver.
  split; [|split; [|split; [done|set_solver]]].
  - apply topo_ok_append; try done. intros w [lb Hw]. by apply (Hall _ Hw).
  - exists (new ++ [v]). simpl. rewrite E1, E2, app_assoc, list_to_set_app_L. split; [done|].
    split; [set_solver|]. intros n [Hn|Hn]%elem_of_app; [apply Hnew in Hn; set_solver|].
    apply list_elem_of_singleton in Hn as ->. done.
Qed.

(** ** Fuel: one unit per node not visited yet. *)
Context (U : gset node_t) (HU : forall u w, u ∈ U -> step g u w -> w ∈ U).

Lemma topo_neighbours_total rec l : forall st,
  (forall w st', w ∈ U -> w ∉ st'.1 -> st.1 ⊆ st'.1 -> exists st'', rec w st' = Some st'' /\ st'.1 ⊆ st''.1) ->
  (forall e, e ∈ l -> e.1 ∈ U) ->
  exists st', topo_neighbours rec l st = Some st' /\ st.1 ⊆ st'.1.
Proof.
  induction l as [|e l IH]; intros st Hrec Hl; simpl; [by exists st|].
  case_bool_decide as He; [apply IH; [done|set_solver]|].
  destruct (Hrec e.1 st) as (st1 & -> & Hs1); [set_solver|done|done|]. simpl.
  destruct (IH st1) as (st2 & -> & Hs2).
  - intros w st' Hw Hn Hsub. apply Hrec; [done|done|set_solver].
  - set_solver.
  - exists st2. split; [done|set_solver].
Qed.

Lemma topo_sort_util_total fuel : forall v st,
  v ∈ U -> v ∉ st.1 -> (size (U ∖ st.1) <= fuel)%nat ->
  exists st', topo_sort_util g fuel v st = Some st' /\ st.1 ⊆ st'.1.
Proof.
  induction fuel as [|fuel IH]; intros v [vis sorted] Hv Hn Hf; simpl in *.
  { assert (Hs : v ∈ U ∖ vis) by set_solver.
    assert (size (U ∖ vis) = 0)%nat as Hz by lia. apply size_empty_inv in Hz. set_solver. }
  destruct (topo_neighbours_total (topo_sort_util g fuel) (neighbors_or_empty g v) ({[ v ]} ∪ vis, sorted))
    as (st1 & -> & Hs1).
  - intros w st' Hw Hnw Hsub. apply IH; [done|done|]. simpl in Hsub.
    assert (Hlt : (size (U ∖ st'.1) < size (U ∖ vis))%nat); [|lia].
    apply subset_size. split; [set_solver|]. intros Hc. assert (v ∈ U ∖ st'.1) by set_solver. set_solver.
  - intros [w lb] He. eapply HU; [exact Hv|]. by exists lb.
  - simpl. eexists. split; [done|]. simpl in *. set_solver.
Qed.
End topo_lemmas.

(** ** Lemmas: the timed walk *)
Section classify_lemmas.
Context (g : EdgeHolder).

(** The nodes [new] were entered and left between the clocks of [st] and
    [st'], and nested intervals mean reachability. *)
Record classify_ext (v : node_t) (st st' : times) (new : gset node_t) : Prop := {
  ce_visited : tvisited st' = tvisited st ∪ new;
  ce_new : forall n, n ∈ new -> n ∉ tvisited st /\ reach g v n;
  ce_clock : (clock st <= clock st')%Z;
  ce_times : forall n, n ∈ new ->
    (clock st <= start_of st' n < clock st')%Z /\ (clock st <= end_of st' n < clock st')%Z;
  ce_old : forall n, n ∉ new -> ofind n (start_times st') = ofind n (start_times st) /\
    ofind n (end_times st') = ofind n (end_times st);
  ce_nested : forall n m, n ∈ new -> m ∈ new ->
    (start_of st' m < start_of st' n)%Z -> (end_of st' n < end_of st' m)%Z -> reach g m n
}.

Lemma classify_ext_refl v st : classify_ext v st st ∅.
Proof. split; try done; try lia; set_solver. Qed.

Lemma start_of_old v st st' new n : classify_ext v st st' new -> n ∉ new -> start_of st' n = start_of st n.
Proof. intros He Hn. unfold start_of, ofind_or. by rewrite (proj1 (ce_old _ _ _ _ He n Hn)). Qed.
Lemma end_of_old v st st' new n : classify_ext v st st' new -> n ∉ new -> end_of st' n = end_of st n.
Proof. intros He Hn. unfold end_of, ofind_or. by rewrite (proj2 (ce_old _ _ _ _ He n Hn)). Qed.

Lemma classify_ext_trans v w st1 st2 st3 n1 n2 :
  reach g v w -> classify_ext v st1 st2 n1 -> classify_ext w st2 st3 n2 ->
  classify_ext v st1 st3 (n1 ∪ n2).
Proof.
  intros Hvw H1 H2. pose proof (ce_clock _ _ _ _ H1). pose proof (ce_clock _ _ _ _ H2).
  assert (Hdisj : forall n, n ∈ n1 -> n ∉ n2).
  { intros n Hn Hn2. apply (ce_new _ _ _ _ H2) in Hn2 as [Hn2 _]. apply Hn2.
    rewrite (ce_visited _ _ _ _ H1). set_solver. }
  assert (Ht : forall n, n ∈ n1 -> start_of st3 n = start_of st2 n /\ end_of st3 n = end_of st2 n).
  { intros n Hn. split; [eapply start_of_old|eapply end_of_old]; eauto. }
  split.
  - rewrite (ce_visited _ _ _ _ H2), (ce_visited _ _ _ _ H1). set_solver.
  - intros n [Hn|Hn]%elem_of_union; [by apply (ce_new _ _ _ _ H1)|].
    apply (ce_new _ _ _ _ H2) in Hn as [Hn Hr]. rewrite (ce_visited _ _ _ _ H1) in Hn.
    split; [set_solver|by etrans].
  - lia.
  - intros n [Hn|Hn]%elem_of_union.
    + destruct (Ht _ Hn) as [-> ->]. pose proof (ce_times _ _ _ _ H1 _ Hn). lia.
    + pose proof (ce_times _ _ _ _ H2 _ Hn). lia.
  - intros n Hn. destruct (ce_old _ _ _ _ H1 n ltac:(set_solver)) as [<- <-].
    apply (ce_old _ _ _ _ H2). set_solver.
  - intros n m [Hn|Hn]%elem_of_union [Hm|Hm]%elem_of_union.
    + destruct (Ht _ Hn) as [-> ->], (Ht _ Hm) as [-> ->]. by apply (ce_nested _ _ _ _ H1).
    + destruct (Ht _ Hn) as [-> ->]. pose proof (ce_times _ _ _ _ H1 _ Hn).
      pose proof (ce_times _ _ _ _ H2 _ Hm). lia.
    + destruct (Ht _ Hm) as [-> ->]. pose proof (ce_times _ _ _ _ H1 _ Hm).
      pose proof (ce_times _ _ _ _ H2 _ Hn). lia.
    + by apply (ce_nested _ _ _ _ H2).
Qed.

Lemma classify_neighbours_ok rec v l : forall st st',
  (forall w st st', w ∉ tvisited st -> rec w st = Some st' ->
     exists new, classify_ext w st st' new /\ w ∈ new) ->
  (forall e, e ∈ l -> step g v e.1) ->
  classify_neighbours rec l st = Some st' ->
  exists new, classify_ext v st st' new /\ (forall e, e ∈ l -> e.1 ∈ tvisited st').
Proof.
  induction l as [|e l IH]; intros st st' Hrec Hl Hgo; simpl in Hgo.
  - injection Hgo as <-. exists ∅. split; [apply classify_ext_refl|]. intros e He. by apply elem_of_nil in He.
  - assert (Hl' : forall e, e ∈ l -> step g v e.1) by set_solver.
    case_bool_decide as He.
    + destruct (IH _ _ Hrec Hl' Hgo) as (new & H1 & H2). exists new. split; [done|].
      intros e' [->|He']%elem_of_cons; [|auto]. rewrite (ce_visited _ _ _ _ H1). set_solver.
    + apply bind_Some in Hgo as (st1 & Hr & Hgo).
      destruct (Hrec _ _ _ He Hr) as (n1 & Hext & Hin).
      destruct (IH _ _ Hrec Hl' Hgo) as (n2 & H1 & H2).
      assert (Hstep : reach g v e.1) by (apply rtc_once; set_solver).
      exists (n1 ∪ n2). split.
      * apply classify_ext_trans with v st1; [done| |done].
        destruct Hext. split; try done. intros n Hn. destruct (ce_new0 n Hn). split; [done|]. by etrans.
      * intros e' [->|He']%elem_of_cons; [|auto].
        rewrite (ce_visited _ _ _ _ H1), (ce_visited _ _ _ _ Hext). set_solver.
Qed.

Lemma start_enter v st n : start_of (enter v st) n = if decide (n = v) then clock st else start_of st n.
Proof. unfold start_of, ofind_or. simpl. rewrite ofind_oput. by case_decide. Qed.
Lemma end_leave v st n : end_of (leave v st) n = if decide (n = v) then clock st else end_of st n.
Proof. unfold end_of, ofind_or. simpl. rewrite ofind_oput. by case_decide. Qed.

Lemma classify_util_ok fuel : forall v st st',
  v ∉ tvisited st -> classify_util g fuel v st = Some st' ->
  exists new, classify_ext v st st' new /\ v ∈ new /\
    (forall w, step g v w -> w ∈ tvisited st').
Proof.
  induction fuel as [|fuel IH]; intros v st st' Hv Ht; simpl in Ht; [done|].
  apply bind_Some in Ht as (st1 & Hgo & [= <-]).
  apply (classify_neighbours_ok _ v) in Hgo as (new & Hext & Hall);
    [|intros w st2 st2' Hw Hr; destruct (IH _ _ _ Hw Hr) as (n & ? & ? & _); eauto
     |intros [w lb] He; by exists lb].
  assert (Hvn : v ∉ new).
  { intros Hin. apply (ce_new _ _ _ _ Hext) in Hin as [Hin _]. apply Hin. simpl. set_solver. }
  pose proof (ce_clock _ _ _ _ Hext) as Hclk. simpl in Hclk.
  assert (Hs : forall n, start_of (leave v st1) n = start_of st1 n) by done.
  assert (Hsv : start_of st1 v = clock st).
  { rewrite (start_of_old _ _ _ _ _ Hext Hvn), start_enter. by rewrite decide_True. }
  assert (Hne : forall n, n ∈ new -> n <> v) by (intros n Hn ->; done).
  exists ({[ v ]} ∪ new). split; [|split; [set_solver|]].
  - split.
    + simpl. rewrite (ce_visited _ _ _ _ Hext). simpl. set_solver.
    + intros n [->%elem_of_singleton|Hn]%elem_of_union; [done|].
      apply (ce_new _ _ _ _ Hext) in Hn as [Hn Hr]. simpl in Hn. split; [set_solver|done].
    + simpl. lia.
    + intros n [->%elem_of_singleton|Hn]%elem_of_union.
      * rewrite Hs, Hsv, end_leave, decide_True by done. simpl. lia.
      * rewrite Hs, end_leave, decide_False by auto.
        pose proof (ce_times _ _ _ _ Hext _ Hn) as Htm. simpl in *. lia.
    + intros n Hn. simpl. destruct (ce_old _ _ _ _ Hext n ltac:(set_solver)) as [-> He].
      simpl in *. rewrite !ofind_oput_ne by set_solver. done.
    + intros n m Hn Hm. rewrite !Hs, !end_leave.
      apply elem_of_union in Hn as [->%elem_of_singleton|Hn];
        apply elem_of_union in Hm as [->%elem_of_singleton|Hm]; try done.
      * rewrite Hsv. pose proof (ce_times _ _ _ _ Hext _ Hm) as Htm. simpl in Htm. lia.
      * intros _ _. by apply (ce_new _ _ _ _ Hext).
      * rewrite !decide_False by auto. by apply (ce_nested _ _ _ _ Hext).
  - intros w [lb Hw]. simpl. by apply (Hall _ Hw).
Qed.
End classify_lemmas.

Section classify_total.
Context (g : EdgeHolder) (U : gset node_t) (HU : forall u w, u ∈ U -> step g u w -> w ∈ U).

Lemma classify_neighbours_total rec l : forall st,
  (forall w st', w ∈ U -> w ∉ tvisited st' -> tvisited st ⊆ tvisited st' ->
     exists st'', rec w st' = Some st'' /\ tvisited st' ⊆ tvisited st'') ->
  (forall e, e ∈ l -> e.1 ∈ U) ->
  exists st', classify_neighbours rec l st = Some st' /\ tvisited st ⊆ tvisited st'.
Proof.
  induction l as [|e l IH]; intros st Hrec Hl; simpl; [by exists st|].
  case_bool_decide as He; [apply IH; [done|set_solver]|].
  destruct (Hrec e.1 st) as (st1 & -> & Hs1); [set_solver|done|done|]. simpl.
  destruct (IH st1) as (st2 & -> & Hs2).
  - intros w st' Hw Hn Hsub. apply Hrec; [done|done|set_solver].
  - set_solver.
  - exists st2. split; [done|set_solver].
Qed.

Lemma classify_util_total fuel : forall v st,
  v ∈ U -> v ∉ tvisited st -> (size (U ∖ tvisited st) <= fuel)%nat ->
  exists st', classify_util g fuel v st = Some st' /\ tvisited st ⊆ tvisited st'.
Proof.
  induction fuel as [|fuel IH]; intros v st Hv Hn Hf; simpl.
  { assert (Hs : v ∈ U ∖ tvisited st) by set_solver.
    assert (size (U ∖ tvisited st) = 0)%nat as Hz by lia. apply size_empty_inv in Hz. set_solver. }
  destruct (classify_neighbours_total (classify_util g fuel) (neighbors_or_empty g v) (enter v st))
    as (st1 & -> & Hs1).
  - intros w st' Hw Hnw Hsub. apply IH; [done|done|]. simpl in Hsub.
    assert (Hlt : (size (U ∖ tvisited st') < size (U ∖ tvisited st))%nat); [|lia].
    apply subset_size. split; [set_solver|]. intros Hc. assert (v ∈ U ∖ tvisited st') by set_solver. set_solver.
  - intros [w lb] He. eapply HU; [exact Hv|]. by exists lb.
  - simpl. eexists. split; [done|]. simpl in *. set_solver.
Qed.
End classify_total.

(** The nodes of a graph are closed under its edges. *)
Lemma step_target g u w : step g u w -> w ∈ nodes_of g.
Proof.
  intros (l & Hl & Hw)%step_ofind. apply ofind_Some_elem in Hl.
  unfold nodes_of. apply elem_of_union_r, elem_of_list_to_set.
  apply list_elem_of_fmap in Hw as (e & -> & He). apply list_elem_of_fmap_2.
  apply list_elem_of_In, in_flat_map. exists (u, l). split; by apply list_elem_of_In.
Qed.

Lemma nodes_of_closed g v u w :
  u ∈ {[ v ]} ∪ nodes_of g -> step g u w -> w ∈ {[ v ]} ∪ nodes_of g.
Proof. intros _ Hs. apply elem_of_union_r. by eapply step_target. Qed.

Lemma reach_nodes_of g u w : u ∈ nodes_of g -> reach g u w -> w ∈ nodes_of g.
Proof.
  intros Hu Hr. revert Hu. induction Hr as [|x y z Hxy _ IH]; [done|].
  intros _. apply IH. by eapply step_target.
Qed.

Lemma elem_of_nodes_of g n :
  NoDup (okeys g) -> n ∈ nodes_of g <-> n ∈ okeys g \/ exists k, k ∈ okeys g /\ step g k n.
Proof.
  intros Hd. unfold nodes_of. rewrite elem_of_union, !elem_of_list_to_set. split.
  - intros [?|(e & -> & He)%list_elem_of_fmap]; [by left|]. right.
    apply list_elem_of_In, in_flat_map in He as ([k l] & Hk & He).
    apply list_elem_of_In in Hk, He. exists k. split; [apply elem_of_okeys; eauto|].
    apply step_ofind. exists l. split; [by apply NoDup_ofind|]. by apply list_elem_of_fmap_2.
  - intros [?|(k & _ & Hs)]; [by left|]. apply step_target in Hs. unfold nodes_of in Hs.
    by rewrite elem_of_union, !elem_of_list_to_set in Hs.
Qed.

Lemma classify_total_ok g start :
  exists st new, classify g start = Some st /\
    classify_ext g start times0 st new /\ start ∈ new.
Proof.
  destruct (classify_util_total g ({[ start ]} ∪ nodes_of g) (nodes_of_closed g start) (topo_fuel g start) start
              times0) as (st & Hst & _).
  - set_solver.
  - simpl. set_solver.
  - unfold topo_fuel. simpl. rewrite difference_empty_L. lia.
  - destruct (classify_util_ok g _ start times0 st ltac:(simpl; set_solver) Hst) as (new & He & Hin & _).
    by exists st, new.
Qed.

(** Membership in the classes. *)
Lemma classify_edges_back st (g : EdgeHolder) fe : forall c,
  fe ∈ back (fold_left (fun c p => fold_left (fun c e => classify_edge st p.1 e c) p.2 c) g c) ->
  fe ∈ back c \/ (exists l, (source fe, l) ∈ g /\ (dst fe, elabel fe) ∈ l /\
    (start_of st (dst fe) < start_of st (source fe))%Z /\ (end_of st (source fe) < end_of st (dst fe))%Z).
Proof.
  assert (Hinner : forall u l c, fe ∈ back (fold_left (fun c e => classify_edge st u e c) l c) ->
    fe ∈ back c \/ (source fe = u /\ (dst fe, elabel fe) ∈ l /\
    (start_of st (dst fe) < start_of st (source fe))%Z /\ (end_of st (source fe) < end_of st (dst fe))%Z)).
  { intros u l. induction l as [|[v lb] l IH]; intros c Hc; simpl in Hc; [by left|].
    apply IH in Hc as [Hc|(-> & ? & ? & ?)]; [|right; set_solver]. simpl in Hc.
    destruct ((start_of st v <? start_of st u)%Z && (end_of st u <? end_of st v)%Z) eqn:E; [|by left].
    apply elem_of_app in Hc as [Hc| ->%list_elem_of_singleton]; [by left|]. right. simpl.
    split; [done|]. split; [set_solver|]. lia. }
  induction g as [|[k l] g IH]; intros c Hc; simpl in Hc; [by left|].
  apply IH in Hc as [Hc|(l' & ? & ?)]; [|right; exists l'; set_solver].
  apply Hinner in Hc as [Hc|(<- & ?)]; [by left|]. right. exists l. set_solver.
Qed.

Lemma topo_sort_from_total g start :
  exists st, topo_sort_util g (topo_fuel g start) start (∅, []) = Some st.
Proof.
  destruct (topo_sort_util_total g ({[ start ]} ∪ nodes_of g) (nodes_of_closed g start) (topo_fuel g start) start (∅, []))
    as (st & Hst & _).
  - set_solver.
  - simpl. set_solver.
  - unfold topo_fuel. simpl. rewrite difference_empty_L. lia.
  - by exists st.
Qed.

Lemma topo_ok_empty g v : topo_ok g v (∅, []).
Proof.
  split; simpl; try (intros; set_solver); [constructor|].
  intros i u w Hi. by rewrite lookup_nil in Hi.
Qed.

(** When the walk returns, no node is on the call stack. *)
Lemma topo_ext_sorted g v st st' :
  topo_ok g v st' -> topo_ext g v st st' -> (forall n, n ∈ st.1 -> n ∈ st.2) ->
  (forall n, n ∈ st'.1 -> n ∈ st'.2).
Proof. intros Hok (new & -> & -> & _) Hn n [?|?]%elem_of_union; set_solver. Qed.

(** The loop over all the entries; between two walks nothing is pending. *)
Lemma topo_sort_all_ok g keys : forall st,
  (forall v, topo_ok g v st) -> (forall n, n ∈ st.1 -> n ∈ st.2) ->
  (forall k, k ∈ keys -> k ∈ okeys g) ->
  exists st', topo_sort_all g keys st = Some st' /\ (forall v, topo_ok g v st') /\
    (forall n, n ∈ st'.1 -> n ∈ st'.2) /\ st.1 ⊆ st'.1 /\ (forall k, k ∈ keys -> k ∈ st'.1) /\
    (forall n, n ∈ st'.1 -> n ∈ st.1 \/ exists k, k ∈ keys /\ reach g k n).
Proof.
  induction keys as [|k keys IH]; intros st Hok Hfull Hk; cbn [topo_sort_all].
  { exists st. set_solver. }
  case_bool_decide as Hin.
  - destruct (IH st Hok Hfull ltac:(set_solver)) as (st' & H1 & H2 & H3 & H4 & H5 & H6).
    exists st'. split; [done|]. split; [done|]. split; [done|]. split; [done|]. split.
    + intros k' [->|?]%elem_of_cons; set_solver.
    + intros n Hn. destruct (H6 _ Hn) as [?|(k' & ? & ?)]; [by left|right; exists k'; set_solver].
  - destruct (topo_sort_util_total g ({[ k ]} ∪ nodes_of g) (nodes_of_closed g k) (topo_fuel g k) k st)
      as (st1 & Hst1 & _); [set_solver|done| |].
    { unfold topo_fuel. etrans; [apply subseteq_size|apply Nat.le_succ_diag_r]. set_solver. }
    rewrite Hst1. cbn [mbind option_bind]. destruct (topo_sort_util_ok _ _ _ _ _ (Hok k) Hin Hst1) as (Hok1 & Hext & Hk1 & _).
    assert (Hfull1 : forall n, n ∈ st1.1 -> n ∈ st1.2) by (eapply topo_ext_sorted; eauto).
    assert (Hok1' : forall v, topo_ok g v st1).
    { intros v. destruct Hok1. split; try done. intros n Hn Hns. by apply Hfull1 in Hn. }
    destruct (IH st1 Hok1' Hfull1 ltac:(set_solver)) as (st' & H1 & H2 & H3 & H4 & H5 & H6).
    destruct Hext as (new & E1 & E2 & Hnew).
    exists st'. split; [done|]. split; [done|]. split; [done|]. split; [set_solver|]. split.
    + intros k' [->|?]%elem_of_cons; set_solver.
    + intros n Hn. destruct (H6 _ Hn) as [Hn1|(k' & ? & ?)]; [|right; exists k'; set_solver].
      rewrite E2 in Hn1. apply elem_of_union in Hn1 as [?|Hn1%elem_of_list_to_set]; [by left|].
      right. exists k. split; [set_solver|]. by apply Hnew.
Qed.

(** ** Lemmas: basic blocks *)
Section blocks.
Context (graph rgraph : EdgeHolder) (start : node_t).

(** [a] is followed by [b] inside a block: [a] has no other successor and
    [b] no other predecessor. *)
Definition linked (a b : node_t) : Prop :=
  (exists lb, neighbors_or_empty graph a = [(b, lb)]) /\
  (length (neighbors_or_empty rgraph b) <= 1)%nat.
Fixpoint chain (blk : BasicBlock) : Prop :=
  match blk with
  | a :: (b :: _) as rest => linked a b /\ chain rest
  | _ => True
  end.

Notation has m n := (is_Some (ofind n m)).

Lemma push_unresolved (resolved : list (node_t * nat)) succs : forall stack b,
  b ∈ push_succs resolved succs stack <->
  b ∈ stack \/ exists s, s ∈ succs /\ b = [s.1] /\ ofind s.1 resolved = None.
Proof.
  unfold push_succs. induction succs as [|s succs IH]; intros stack b; simpl; [set_solver|].
  rewrite IH. destruct (ofind s.1 resolved) eqn:E.
  - split; [intros [?|(s' & ? & ? & ?)]; [by left|right; set_solver]|].
    intros [?|(s' & [->|?]%elem_of_cons & ? & ?)]; [by left|congruence|right; set_solver].
  - set_solver.
Qed.

Record extend_ok (idx : nat) (lst : node_t) (resolved resolved' : list (node_t * nat))
    (stack stack' : list BasicBlock) (ext : BasicBlock) : Prop := {
  eo_new : forall n, n ∈ lst :: ext -> ofind n resolved = None /\ ofind n resolved' = Some idx;
  eo_old : forall n, n ∉ lst :: ext -> ofind n resolved' = ofind n resolved;
  eo_nodup : NoDup (lst :: ext);
  eo_chain : chain (lst :: ext);
  eo_reach : forall n, n ∈ lst :: ext -> reach graph lst n;
  eo_stack : forall b, b ∈ stack' -> b ∈ stack \/ exists n m, n ∈ lst :: ext /\ step graph n m /\ b = [m];
  eo_closed : forall n m, n ∈ lst :: ext -> step graph n m -> has resolved' m \/ [m] ∈ stack';
  eo_sub : forall b, b ∈ stack -> b ∈ stack'
}.

Lemma step_neighbours n m l : ofind n graph = Some l -> step graph n m <-> m ∈ l.*1.
Proof. rewrite step_ofind. intros ->. naive_solver. Qed.

(** The block ends at [lst]. *)
Lemma extend_ok_stop idx lst resolved stack stack' :
  ofind lst resolved = None ->
  (forall b, b ∈ stack' -> b ∈ stack \/ exists m, step graph lst m /\ b = [m]) ->
  (forall m, step graph lst m -> has (oput lst idx resolved) m \/ [m] ∈ stack') ->
  (forall b, b ∈ stack -> b ∈ stack') ->
  extend_ok idx lst resolved (oput lst idx resolved) stack stack' [].
Proof.
  intros Hn Hs Hc Hsub. split; try done.
  - intros n ->%list_elem_of_singleton. by rewrite ofind_oput_eq.
  - intros n Hne. apply ofind_oput_ne. set_solver.
  - apply NoDup_singleton.
  - intros n ->%list_elem_of_singleton. constructor.
  - intros b Hb. destruct (Hs _ Hb) as [?|(m & ? & ->)]; [by left|]. right. exists lst, m. set_solver.
  - intros n m ->%list_elem_of_singleton. apply Hc.
Qed.

(** The block goes on with [m]. *)
Lemma extend_ok_cons idx lst m resolved resolved' stack stack' ext :
  ofind lst resolved = None -> linked lst m ->
  extend_ok idx m (oput lst idx resolved) resolved' stack stack' ext ->
  extend_ok idx lst resolved resolved' stack stack' (m :: ext).
Proof.
  intros Hn Hl [H1 H2 H3 H4 H5 H6 H7 H8].
  assert (Hlst : lst ∉ m :: ext).
  { intros Hin. apply H1 in Hin as [Hin _]. by rewrite ofind_oput_eq in Hin. }
  assert (Hstep : forall x, step graph lst x <-> x = m).
  { intros x. destruct Hl as [[lb Hl] _]. unfold step, edge. rewrite Hl. set_solver. }
  split.
  - intros n [->|Hin]%elem_of_cons; [by rewrite H2, ofind_oput_eq|].
    destruct (H1 _ Hin) as [Hn1 Hn2]. split; [|done]. rewrite ofind_oput_ne in Hn1; [done|]. by intros ->.
  - intros n Hne. rewrite H2 by set_solver. apply ofind_oput_ne. set_solver.
  - by apply NoDup_cons.
  - by split.
  - intros n [->|Hin]%elem_of_cons; [constructor|]. eapply rtc_l; [by apply Hstep|by apply H5].
  - intros b Hb. destruct (H6 _ Hb) as [?|(n & x & ? & ? & ->)]; [by left|]. right. exists n, x. set_solver.
  - intros n x [->|Hin]%elem_of_cons Hs; [|by apply (H7 n)]. apply Hstep in Hs as ->. left.
    destruct (H1 m) as [_ ->]; [set_solver|by eexists].
  - done.
Qed.

Lemma extend_block_ok fuel : forall idx crt lst resolved stack crt' resolved' stack' ds,
  extend_block fuel graph rgraph idx crt lst resolved stack = Some (Done (crt', resolved', stack') ds) ->
  exists ext, crt' = crt ++ ext /\ extend_ok idx lst resolved resolved' stack stack' ext.
Proof.
  induction fuel as [|fuel IH]; intros idx crt lst resolved stack crt' resolved' stack' ds He; [done|].
  cbn [extend_block] in He. destruct (ofind lst resolved) eqn:Hn; [done|].
  destruct (ofind lst graph) as [succs|] eqn:Hg.
  2: { injection He as <- <- <- _. exists []. rewrite app_nil_r. split; [done|]. apply extend_ok_stop; try done.
       - by left.
       - intros m Hm. apply step_ofind in Hm as (l & Hl & _). congruence. }
  assert (Hmany : forall ds', oret (crt, oput lst idx resolved,
              push_succs (oput lst idx resolved) succs stack)
            = Done (crt', resolved', stack') ds' ->
            exists ext, crt' = crt ++ ext /\ extend_ok idx lst resolved resolved' stack stack' ext).
  { intros ds' [= <- <- <- _]. exists []. rewrite app_nil_r. split; [done|]. apply extend_ok_stop; try done.
    - intros b Hb. apply push_unresolved in Hb as [?|(s & Hs & -> & _)]; [by left|]. right. exists s.1.
      split; [|done]. apply (step_neighbours _ _ _ Hg), list_elem_of_fmap_2. done.
    - intros m Hm. apply (step_neighbours _ _ _ Hg), list_elem_of_fmap in Hm as (s & -> & Hs).
      destruct (ofind s.1 (oput lst idx resolved)) eqn:E; [left; by eexists|]. right.
      apply push_unresolved. right. by exists s.
    - intros b Hb. apply push_unresolved. by left. }
  destruct succs as [|[m lb] [|]]; try (apply (Hmany ds), (inj Some), He).
  assert (Hext : linked lst m ->
    extend_block fuel graph rgraph idx (crt ++ [m]) m (oput lst idx resolved) stack =
      Some (Done (crt', resolved', stack') ds) ->
    exists ext, crt' = crt ++ ext /\ extend_ok idx lst resolved resolved' stack stack' ext).
  { intros Hl Hr. destruct (IH _ _ _ _ _ _ _ _ _ Hr) as (ext & -> & Hok). exists (m :: ext).
    rewrite <- app_assoc. split; [done|]. by apply extend_ok_cons. }
  assert (Hlink : (length (neighbors_or_empty rgraph m) <= 1)%nat -> linked lst m).
  { intros Hlen. split; [|done]. exists lb. unfold neighbors_or_empty. by rewrite Hg. }
  unfold neighbors_or_empty in Hlink. simpl in He.
  destruct (ofind m rgraph) as [[|p1 [|p2 ps]]|] eqn:Er; try (apply Hext; [apply Hlink; simpl; lia|done]).
  injection He as <- <- <- _. exists []. rewrite app_nil_r. split; [done|]. apply extend_ok_stop; try done.
  - intros b Hb. destruct (ofind m (oput lst idx resolved)); [by left|]. apply elem_of_cons in Hb as [->|?]; [|by left]. right.
    exists m. split; [|done]. apply (step_neighbours _ _ _ Hg). set_solver.
  - intros x Hx. apply (step_neighbours _ _ _ Hg) in Hx. simpl in Hx. apply list_elem_of_singleton in Hx as ->.
    destruct (ofind m (oput lst idx resolved)) eqn:E; [left; by eexists|right; set_solver].
  - intros b Hb. destruct (ofind m (oput lst idx resolved)); set_solver.
Qed.

(** ** The loop over the stack *)
Record blocks_ok (stack : list BasicBlock) (resolved : list (node_t * nat)) (blocks : list BasicBlock) : Prop := {
  bo_nodup : NoDup (concat blocks);
  bo_resolved : forall n i, ofind n resolved = Some i <-> exists blk, blocks !! i = Some blk /\ n ∈ blk;
  bo_chain : forall blk, blk ∈ blocks -> chain blk /\ blk <> [];
  bo_reach : forall n, n ∈ concat blocks -> reach graph start n;
  bo_stack : forall b, b ∈ stack -> exists n, b = [n] /\ reach graph start n;
  bo_closed : forall n m, n ∈ concat blocks -> step graph n m -> m ∈ concat blocks \/ [m] ∈ stack;
  bo_start : start ∈ concat blocks \/ [start] ∈ stack
}.

Lemma elem_of_concat n (blocks : list BasicBlock) :
  n ∈ concat blocks <-> exists i blk, blocks !! i = Some blk /\ n ∈ blk.
Proof.
  rewrite list_elem_of_In, in_concat. split.
  - intros (blk & Hb & Hn). apply list_elem_of_In, list_elem_of_lookup in Hb as [i Hi].
    exists i, blk. split; [done|]. by apply list_elem_of_In.
  - intros (i & blk & Hi & Hn). exists blk. apply list_elem_of_lookup_2 in Hi.
    split; by apply list_elem_of_In.
Qed.

Lemma blocks_ok_has stack resolved blocks n :
  blocks_ok stack resolved blocks -> has resolved n <-> n ∈ concat blocks.
Proof.
  intros Hok. rewrite elem_of_concat. split.
  - intros [i Hi]. apply (bo_resolved _ _ _ Hok) in Hi as (blk & ? & ?). eauto.
  - intros (i & Hi). exists i. by apply (bo_resolved _ _ _ Hok).
Qed.

Lemma blocks_ok_step lst stack stack' resolved resolved' blocks ext :
  blocks_ok ([lst] :: stack) resolved blocks ->
  extend_ok (length blocks) lst resolved resolved' stack stack' ext ->
  blocks_ok stack' resolved' (blocks ++ [lst :: ext]).
Proof.
  intros Hok Hext. pose proof (fun n => blocks_ok_has _ _ _ n Hok) as Hhas.
  assert (Hlst : reach graph start lst) by (destruct (bo_stack _ _ _ Hok [lst]) as (n & [= ->] & ?); set_solver).
  assert (Hc : forall n, n ∈ concat (blocks ++ [lst :: ext]) <-> n ∈ concat blocks \/ n ∈ lst :: ext).
  { intros n. rewrite concat_app, elem_of_app. simpl. by rewrite app_nil_r. }
  assert (Hdisj : forall n, n ∈ lst :: ext -> n ∉ concat blocks).
  { intros n Hn. apply (eo_new _ _ _ _ _ _ _ Hext) in Hn as [Hn _]. rewrite <- (Hhas n).
    intros [? ?]. congruence. }
  assert (Hres : forall n i, ofind n resolved' = Some i <->
            exists blk, (blocks ++ [lst :: ext]) !! i = Some blk /\ n ∈ blk).
  { intros n i. destruct (decide (n ∈ lst :: ext)) as [Hin|Hout].
    - rewrite (proj2 (eo_new _ _ _ _ _ _ _ Hext _ Hin)). split.
      + intros [= <-]. exists (lst :: ext). split; [|done]. by apply list_lookup_middle.
      + intros (blk & Hi & Hn). f_equal. apply lookup_app_Some in Hi as [Hi|[Hlen Hi]].
        * exfalso. apply (Hdisj _ Hin), elem_of_concat. eauto.
        * apply list_lookup_singleton_Some in Hi as [Hi _]. lia.
    - rewrite (eo_old _ _ _ _ _ _ _ Hext _ Hout), (bo_resolved _ _ _ Hok). split.
      + intros (blk & Hi & Hn). exists blk. split; [|done]. by apply lookup_app_l_Some.
      + intros (blk & Hi & Hn). apply lookup_app_Some in Hi as [Hi|[Hlen Hi]]; [eauto|].
        apply list_lookup_singleton_Some in Hi as [_ <-]. done. }
  split.
  - rewrite concat_app. simpl. rewrite app_nil_r. apply NoDup_app. split; [apply Hok|].
    split; [|apply Hext]. intros n Hn Hn'. by apply (Hdisj n).
  - done.
  - intros blk [Hb| ->%list_elem_of_singleton]%elem_of_app; [by apply (bo_chain _ _ _ Hok)|].
    split; [apply Hext|done].
  - intros n [Hn|Hn]%Hc; [by apply (bo_reach _ _ _ Hok)|]. etrans; [exact Hlst|by apply (eo_reach _ _ _ _ _ _ _ Hext)].
  - intros b Hb. apply (eo_stack _ _ _ _ _ _ _ Hext) in Hb as [Hb|(n & m & Hn & Hs & ->)].
    + apply (bo_stack _ _ _ Hok). set_solver.
    + exists m. split; [done|]. etrans; [exact Hlst|]. etrans; [by apply (eo_reach _ _ _ _ _ _ _ Hext)|by apply rtc_once].
  - intros n m [Hn|Hn]%Hc Hs; rewrite Hc.
    + destruct (bo_closed _ _ _ Hok n m Hn Hs) as [?|[[= ->]|Hst]%elem_of_cons]; [tauto|left; right; set_solver|].
      right. by apply (eo_sub _ _ _ _ _ _ _ Hext).
    + destruct (eo_closed _ _ _ _ _ _ _ Hext n m Hn Hs) as [[i Hi]|?]; [|by right]. left.
      apply Hres in Hi as (blk & Hi & Hm). apply Hc, elem_of_concat. eauto.
  - rewrite Hc. destruct (bo_start _ _ _ Hok) as [?|[[= ->]|Hst]%elem_of_cons]; [tauto|left; right; set_solver|].
    right. by apply (eo_sub _ _ _ _ _ _ _ Hext).
Qed.

Lemma block_loop_ok fuel : forall stack resolved blocks blocks' resolved' ds,
  blocks_ok stack resolved blocks ->
  block_loop fuel graph rgraph stack resolved blocks = Some (Done (blocks', resolved') ds) ->
  blocks_ok [] resolved' blocks'.
Proof.
  induction fuel as [|fuel IH]; intros stack resolved blocks blocks' resolved' ds Hok Hl;
    destruct stack as [|crt stack]; try (injection Hl as <- <- _; done); try done.
  cbn [block_loop] in Hl. destruct (bo_stack _ _ _ Hok crt) as (lst & -> & _); [set_solver|].
  cbn [last] in Hl.
  destruct (extend_block _ _ _ _ _ _ _ _) as [[[[crt' resolved1] stack1] ds1|]|] eqn:E; try done.
  destruct (extend_block_ok _ _ _ _ _ _ _ _ _ _ E) as (ext & -> & Hext).
  eapply IH; [|exact Hl]. by eapply blocks_ok_step.
Qed.

(** ** Fuel *)
Definition rset (resolved : list (node_t * nat)) : gset node_t := list_to_set (okeys resolved).

Lemma elem_of_rset n resolved : n ∈ rset resolved <-> has resolved n.
Proof. unfold rset. by rewrite elem_of_list_to_set, ofind_is_Some. Qed.

Lemma rset_oput n i resolved : rset (oput n i resolved) = {[ n ]} ∪ rset resolved.
Proof. apply set_eq. intros x. unfold rset. rewrite !elem_of_union, !elem_of_list_to_set, okeys_oput. set_solver. Qed.

Lemma push_unresolved_length (resolved : list (node_t * nat)) (succs : EdgeEnumerator) : forall stack,
  (length (push_succs resolved succs stack) <= length stack + length succs)%nat.
Proof.
  unfold push_succs. induction succs as [|s succs IH]; intros stack; simpl; [lia|].
  etrans; [apply IH|]. destruct (ofind s.1 resolved); simpl; lia.
Qed.

Context (U : gset node_t) (HU : forall u w, u ∈ U -> step graph u w -> w ∈ U).

Lemma extend_block_total fuel : forall idx crt lst resolved stack,
  lst ∈ U -> (size (U ∖ rset resolved) < fuel)%nat ->
  exists r, extend_block fuel graph rgraph idx crt lst resolved stack = Some r /\
    forall crt' resolved' stack' ds, r = Done (crt', resolved', stack') ds ->
      (length stack' + pending (rset resolved') graph <= length stack + pending (rset resolved) graph)%nat /\
      (size (U ∖ rset resolved') < size (U ∖ rset resolved))%nat.
Proof.
  induction fuel as [|fuel IH]; intros idx crt lst resolved stack Hlst Hf; [lia|].
  cbn [extend_block]. destruct (ofind lst resolved) eqn:Hn; [by eexists|].
  assert (Hnot : lst ∉ rset resolved) by (rewrite elem_of_rset, Hn; by intros [? ?]).
  assert (Hlt : (size (U ∖ rset (oput lst idx resolved)) < size (U ∖ rset resolved))%nat).
  { rewrite rset_oput. apply subset_size. split; [set_solver|]. intros Hc.
    assert (lst ∈ U ∖ ({[lst]} ∪ rset resolved)) by set_solver. set_solver. }
  destruct (ofind lst graph) as [succs|] eqn:Hg.
  2: { eexists. split; [done|]. intros crt' resolved' stack' ds [= <- <- <- _]. split; [|done].
       rewrite rset_oput. pose proof (pending_mono (rset resolved) ({[lst]} ∪ rset resolved) graph ltac:(set_solver)). lia. }
  pose proof (pending_visit _ _ _ _ Hg Hnot) as Hp. rewrite <- (rset_oput lst idx) in Hp.
  assert (Hmany : exists r, Some (oret (crt, oput lst idx resolved,
              push_succs (oput lst idx resolved) succs stack)) = Some r /\
    forall crt' resolved' stack' ds, r = Done (crt', resolved', stack') ds ->
      (length stack' + pending (rset resolved') graph <= length stack + pending (rset resolved) graph)%nat /\
      (size (U ∖ rset resolved') < size (U ∖ rset resolved))%nat).
  { eexists. split; [done|]. intros crt' resolved' stack' ds [= <- <- <- _]. split; [|done].
    pose proof (push_unresolved_length (oput lst idx resolved) succs stack). lia. }
  destruct succs as [|[m lb] [|]]; try exact Hmany. clear Hmany. simpl.
  destruct (IH idx (crt ++ [m]) m (oput lst idx resolved) stack) as (r & Hr & Hb);
    [eapply HU; [exact Hlst|]; apply (step_neighbours lst m _ Hg), list_elem_of_here|lia|].
  assert (Hgo : exists r, extend_block fuel graph rgraph idx (crt ++ [m]) m (oput lst idx resolved) stack = Some r /\
    forall crt' resolved' stack' ds, r = Done (crt', resolved', stack') ds ->
      (length stack' + pending (rset resolved') graph <= length stack + pending (rset resolved) graph)%nat /\
      (size (U ∖ rset resolved') < size (U ∖ rset resolved))%nat).
  { exists r. split; [done|]. intros crt' resolved' stack' ds Hd. destruct (Hb _ _ _ _ Hd). simpl in Hp. lia. }
  destruct (ofind m rgraph) as [[|p1 [|p2 ps]]|]; try exact Hgo.
  eexists. split; [done|]. intros crt' resolved' stack' ds [= <- <- <- _]. split; [|done].
  simpl in Hp. destruct (ofind m (oput lst idx resolved)); simpl; lia.
Qed.

Lemma block_loop_total fuel : forall stack resolved blocks,
  start ∈ U -> blocks_ok stack resolved blocks ->
  (length stack + pending (rset resolved) graph <= fuel)%nat ->
  (size (U ∖ rset resolved) < fuel)%nat ->
  is_Some (block_loop fuel graph rgraph stack resolved blocks).
Proof.
  induction fuel as [|fuel IH]; intros stack resolved blocks Hst Hok Hp Hs;
    destruct stack as [|crt stack]; try by eexists. { simpl in Hp. lia. }
  cbn [block_loop]. destruct (bo_stack _ _ _ Hok crt) as (lst & -> & Hr); [set_solver|]. cbn [last].
  assert (Hlst : lst ∈ U) by (clear -Hst Hr HU; induction Hr; eauto).
  destruct (extend_block_total (S fuel) (length blocks) [lst] lst resolved stack Hlst ltac:(lia)) as (r & Hx & Hb).
  rewrite Hx. destruct r as [[[crt' resolved'] stack'] ds|]; [|by eexists].
  destruct (Hb _ _ _ _ eq_refl) as [H1 H2]. destruct (extend_block_ok _ _ _ _ _ _ _ _ _ _ Hx) as (ext & -> & Hext).
  apply IH; [done|by eapply blocks_ok_step|simpl in Hp; lia|lia].
Qed.
End blocks.

Lemma blocks_ok_start graph rgraph start : blocks_ok graph rgraph start [[start]] [] [].
Proof.
  split; try done; try (intros; set_solver).
  - constructor.
Qed.

(** ** Properties *)

Lemma topo_sort_from_ok g start :
  exists sorted, topo_sort_from g start = Some sorted /\ NoDup sorted /\
    (forall n, n ∈ sorted <-> reach g start n) /\ last sorted = Some start /\ ordered g sorted.
Proof.
  destruct (topo_sort_from_total g start) as [st Hst].
  destruct (topo_sort_util_ok _ _ _ _ _ (topo_ok_empty g start) ltac:(set_solver) Hst) as (Hok & Hext & Hv & Hv2).
  pose proof (topo_ext_sorted _ _ _ _ Hok Hext ltac:(set_solver)) as Hfull.
  exists st.2. unfold topo_sort_from. rewrite Hst. split; [done|]. split; [apply Hok|].
  split; [|split; [|apply Hok]].
  - intros n. destruct Hext as (new & E1 & E2 & Hnew). simpl in E1. split.
    + intros Hn. rewrite E1 in Hn. by apply Hnew.
    + intros Hr. pose proof (ok_closed _ _ _ Hok) as Hcl. revert Hv2. clear -Hr Hcl Hfull.
      induction Hr as [|x y z Hxy Hyz IH]; [done|]. intros Hx. apply IH. by apply Hfull, (Hcl x).
  - unfold topo_fuel in Hst. cbn [topo_sort_util] in Hst. apply bind_Some in Hst as (st1 & _ & [= <-]). simpl.
    by rewrite last_snoc.
Qed.

(** [topo_sort(graph, start)] ends and lists exactly the nodes reachable from
    [start], once each, [start] last; every edge leads to an earlier node
    unless it closes a cycle. *)
Theorem topo_sort_from_spec g start :
  exists sorted, topo_sort_from g start = Some sorted /\ NoDup sorted /\
    (forall n, n ∈ sorted <-> reach g start n) /\ last sorted = Some start /\ ordered g sorted.
Proof. exact (topo_sort_from_ok g start). Qed.

Lemma topo_sort_ok g :
  NoDup (okeys g) ->
  exists sorted, topo_sort g = Some sorted /\ NoDup sorted /\
    (forall n, n ∈ sorted <-> n ∈ nodes_of g) /\ ordered g sorted.
Proof.
  intros Hd.
  destruct (topo_sort_all_ok g (okeys g) (∅, [])) as (st & Hst & Hok & Hfull & _ & Hkeys & Hreach);
    [apply topo_ok_empty|set_solver|done|].
  exists st.2. unfold topo_sort. rewrite Hst. split; [done|]. split; [apply (Hok before)|].
  split; [|apply (Hok before)]. intros n. split.
  - intros Hn. apply (ok_sub _ _ _ (Hok before)) in Hn.
    destruct (Hreach _ Hn) as [?|(k & Hk & Hr)]; [set_solver|].
    eapply reach_nodes_of; [|exact Hr]. apply elem_of_nodes_of; auto.
  - intros [Hk|(k & Hk & Hs)]%elem_of_nodes_of; [auto| |done].
    apply Hfull, (ok_closed _ _ _ (Hok before) k); auto.
Qed.

Lemma step_okeys g u v : step g u v -> u ∈ okeys g.
Proof.
  intros (l & Hl & _)%step_ofind. apply ofind_Some_elem in Hl. apply list_elem_of_fmap. by exists (u, l).
Qed.

(** An acyclic graph has a ranking that falls along its edges: the position in
    the sorted list. *)
Definition acyclic (g : EdgeHolder) : Prop := forall a b, step g a b -> ~ reach g b a.

Lemma ordered_dag g sorted u w : ordered g sorted -> acyclic g -> u ∈ sorted -> step g u w ->
  exists i j, sorted !! i = Some w /\ sorted !! j = Some u /\ (i < j)%nat.
Proof.
  intros Ho Hdag [j Hj]%list_elem_of_lookup Hs. destruct (Ho _ _ _ Hj Hs) as [(i & Hi & Hw)|Hr]; [eauto|].
  by destruct (Hdag _ _ Hs).
Qed.

Lemma dag_rank g : NoDup (okeys g) -> acyclic g -> exists rank : node_t -> nat, forall u v, step g u v -> (rank v < rank u)%nat.
Proof.
  intros Hd Hdag. destruct (topo_sort_ok g Hd) as (sorted & _ & Hnd & Hall & Ho).
  exists (fun n => default 0%nat (list_find (fun x => x = n) sorted ≫= fun p => Some p.1)).
  assert (Hfind : forall i n, sorted !! i = Some n -> list_find (fun x => x = n) sorted = Some (i, n)).
  { intros i n Hi. apply list_find_Some. split; [done|]. split; [done|]. intros j y Hj Hlt ->.
    pose proof (NoDup_lookup _ _ _ _ Hnd Hi Hj). lia. }
  intros u v Hs. destruct (ordered_dag g sorted u v) as (i & j & Hi & Hj & Hlt); [done|done| |done|].
  - apply Hall, elem_of_nodes_of; [done|]. left. by apply (step_okeys g u v).
  - by rewrite (Hfind _ _ Hi), (Hfind _ _ Hj).
Qed.

(** [topo_sort(graph)] ends and lists every node of the graph once, sources
    and targets; every edge leads to an earlier node unless it closes a
    cycle. *)
Theorem topo_sort_spec g :
  NoDup (okeys g) ->
  exists sorted, topo_sort g = Some sorted /\ NoDup sorted /\
    (forall n, n ∈ sorted <-> n ∈ nodes_of g) /\ ordered g sorted.
Proof. exact (topo_sort_ok g). Qed.

Lemma topo_sort_spec_witness :
  topo_sort sample = Some [nd 3; nd 2; nd 1] /\
  exists sorted, topo_sort sample = Some sorted /\ NoDup sorted /\
    (forall n, n ∈ sorted <-> n ∈ nodes_of sample) /\ ordered sample sorted.
Proof. split; [by vm_compute|]. apply topo_sort_spec, sample_NoDup. Defined.

(** On an acyclic graph the order is a reverse topological one. *)
Theorem topo_sort_dag g sorted u w :
  NoDup (okeys g) -> acyclic g ->
  topo_sort g = Some sorted -> u ∈ nodes_of g -> step g u w ->
  exists i j, sorted !! i = Some w /\ sorted !! j = Some u /\ (i < j)%nat.
Proof.
  intros Hd Hdag Hs Hu Hstep. destruct (topo_sort_ok g Hd) as (sorted' & Hs' & _ & Hall & Ho).
  rewrite Hs in Hs'. injection Hs' as <-. apply (ordered_dag g); [done..| |done]. by apply Hall.
Qed.

Definition diamond : EdgeHolder :=
  [(nd 1, [(nd 2, 1%Z); (nd 3, 0%Z)]); (nd 2, [(nd 4, 0%Z)]); (nd 3, [(nd 4, 0%Z)])].

Lemma diamond_edges a b : step diamond a b -> (node a < node b)%Z.
Proof.
  intros (l & Hl & ([b' lb] & -> & Hb)%list_elem_of_fmap)%step_ofind. apply ofind_Some_elem in Hl.
  unfold diamond in Hl. rewrite !elem_of_cons, elem_of_nil in Hl.
  destruct Hl as [[= -> ->]|[[= -> ->]|[[= -> ->]|[]]]]; rewrite !elem_of_cons, elem_of_nil in Hb;
    destruct_or! Hb; simplify_eq; done.
Qed.

Lemma topo_sort_dag_witness :
  topo_sort diamond = Some [nd 4; nd 2; nd 3; nd 1] /\
  exists i j, [nd 4; nd 2; nd 3; nd 1] !! i = Some (nd 4) /\ [nd 4; nd 2; nd 3; nd 1] !! j = Some (nd 3) /\ (i < j)%nat.
Proof.
  split; [by vm_compute|]. apply (topo_sort_dag diamond).
  - apply (bool_decide_eq_true_1 (NoDup (okeys diamond))). by vm_compute.
  - intros a b Hs Hr. apply diamond_edges in Hs.
    assert (Hle : (node b <= node a)%Z); [|lia]. clear Hs.
    induction Hr as [|x y z Hxy Hyz IH]; [lia|]. apply diamond_edges in Hxy. lia.
  - by vm_compute.
  - apply (bool_decide_eq_true_1 (nd 3 ∈ nodes_of diamond)). by vm_compute.
  - exists 0%Z. apply (bool_decide_eq_true_1 ((nd 4, 0%Z) ∈ neighbors_or_empty diamond (nd 3))). by vm_compute.
Defined.

(** Every edge reported as a back edge is an edge of the graph that closes a
    cycle through nodes reachable from the start. *)
Theorem find_back_edges_sound g start :
  NoDup (okeys g) ->
  exists c, find_back_edges g start = Some c /\
    forall fe, fe ∈ back c ->
      edge g (source fe) (dst fe, elabel fe) /\ reach g start (dst fe) /\ reach g (dst fe) (source fe).
Proof.
  intros Hd. destruct (classify_total_ok g start) as (st & new & Hst & Hext & Hin).
  unfold find_back_edges. rewrite Hst. eexists. split; [done|]. intros fe Hfe.
  apply classify_edges_back in Hfe as [Hfe|(l & Hl & Hfe & Hs & He)]; [by apply elem_of_nil in Hfe|].
  split; [apply edge_entry; eauto|].
  assert (Hnew : forall n, n ∉ new -> start_of st n = 0%Z /\ end_of st n = 0%Z).
  { intros n Hn. rewrite (start_of_old _ _ _ _ _ _ Hext Hn), (end_of_old _ _ _ _ _ _ Hext Hn). done. }
  assert (Hsrc : source fe ∈ new).
  { destruct (decide (source fe ∈ new)) as [|Hn]; [done|]. destruct (Hnew _ Hn) as [H0 _]. rewrite H0 in Hs.
    destruct (decide (dst fe ∈ new)) as [Hdn|Hdn].
    - pose proof (ce_times _ _ _ _ _ Hext _ Hdn). simpl in *. lia.
    - destruct (Hnew _ Hdn) as [H1 _]. lia. }
  assert (Hdst : dst fe ∈ new).
  { destruct (decide (dst fe ∈ new)) as [|Hn]; [done|]. destruct (Hnew _ Hn) as [_ H0]. rewrite H0 in He.
    pose proof (ce_times _ _ _ _ _ Hext _ Hsrc). simpl in *. lia. }
  split; [by apply (ce_new _ _ _ _ _ Hext)|]. by apply (ce_nested _ _ _ _ _ Hext).
Qed.

Lemma find_back_edges_sound_witness :
  (back <$> find_back_edges sample (nd 1)) = Some [FullEdge (nd 3) (nd 2) 0] /\
  exists c, find_back_edges sample (nd 1) = Some c /\
    forall fe, fe ∈ back c ->
      edge sample (source fe) (dst fe, elabel fe) /\ reach sample (nd 1) (dst fe) /\ reach sample (dst fe) (source fe).
Proof. split; [by vm_compute|]. apply find_back_edges_sound, sample_NoDup. Defined.

(** A self-loop is in no class: its two times are equal. *)
Example self_loop_is_no_back_edge :
  find_back_edges [(nd 1, [(nd 1, 0%Z)])] (nd 1) = Some {| back := []; tree := []; cross := [] |}.
Proof. by vm_compute. Qed.

(** [removeDeadNodes] keeps exactly the reachable live nodes, and between
    them every edge. *)
Theorem removeDeadNodes_spec h start d :
  NoDup (okeys h) ->
  exists h', removeDeadNodes h start d = Some h' /\
    (forall n, n ∈ okeys h' <-> n ∈ okeys h /\ reach h start n /\ d n = false) /\
    (forall u v l, edge h' u (v, l) <-> edge h u (v, l) /\ (reach h start u /\ d u = false) /\ d v = false).
Proof.
  intros Hd. unfold removeDeadNodes.
  destruct (traverse_df_pernode_order h (fun n found => if d n then found else {[ n ]} ∪ found) start (∅ : gset node_t))
    as (order & -> & _ & Hin). simpl. eexists. split; [done|].
  assert (Hf : forall n, n ∈ fold_left (fun found n => if d n then found else {[ n ]} ∪ found) order (∅ : gset node_t)
                 <-> reach h start n /\ d n = false).
  { intros n. rewrite <- Hin. assert (Hg : forall acc, n ∈ fold_left (fun found n => if d n then found else {[ n ]} ∪ found) order acc
      <-> n ∈ (acc : gset node_t) \/ (n ∈ order /\ d n = false)).
    { clear Hin. induction order as [|x order IH]; intros acc; simpl; [set_solver|]. rewrite IH.
      destruct (d x) eqn:E; rewrite elem_of_cons; [|rewrite elem_of_union, elem_of_singleton];
        (split; [|]); intros Hx; destruct (decide (n = x)) as [->|]; rewrite ?E in *; set_solver. }
    rewrite Hg. set_solver. }
  set (found := fold_left _ order _) in *. clearbody found. split.
  - intros n. rewrite okeys_subgraph, bool_decide_eq_true, Hf. tauto.
  - intros u v l. unfold edge at 1. rewrite neighbors_subgraph by done. case_bool_decide as Hu.
    + rewrite list_elem_of_In, filter_In, <- list_elem_of_In, bool_decide_eq_true, Hf. simpl. apply Hf in Hu.
      split; [intros (He & _ & ?); done|]. intros (He & _ & Hv). split; [done|]. split; [|done].
      etrans; [apply Hu|]. apply rtc_once. by exists l.
    + split; [intros He; by apply elem_of_nil in He|]. intros (_ & Hu' & _). by apply Hf in Hu'.
Qed.

Lemma removeDeadNodes_spec_witness :
  removeDeadNodes sample (nd 2) (fun _ => false) = Some [(nd 2, [(nd 3, 0%Z)]); (nd 3, [(nd 2, 0%Z)])] /\
  exists h', removeDeadNodes sample (nd 2) (fun _ => false) = Some h' /\
    (forall n, n ∈ okeys h' <-> n ∈ okeys sample /\ reach sample (nd 2) n /\ false = false) /\
    (forall u v l, edge h' u (v, l) <-> edge sample u (v, l) /\ (reach sample (nd 2) u /\ false = false) /\ false = false).
Proof. split; [by vm_compute|]. apply (removeDeadNodes_spec sample (nd 2) (fun _ => false)), sample_NoDup. Defined.

(** The end nodes are the reachable nodes without outgoing edges. *)
Theorem findEndNodes_spec h start :
  exists ends, findEndNodes h start = Some ends /\
    forall n, n ∈ ends <-> reach h start n /\ neighbors_or_empty h n = [].
Proof.
  unfold findEndNodes.
  destruct (traverse_df_pernode_order h (fun n end_ =>
    match ofind n h with Some [] | None => {[ n ]} ∪ end_ | Some _ => end_ end) start (∅ : gset node_t))
    as (order & -> & _ & Hin). eexists. split; [done|]. intros n. rewrite <- Hin.
  assert (Hg : forall acc, n ∈ fold_left (fun end_ n =>
    match ofind n h with Some [] | None => {[ n ]} ∪ end_ | Some _ => end_ end) order acc
      <-> n ∈ (acc : gset node_t) \/ (n ∈ order /\ neighbors_or_empty h n = [])).
  { clear Hin. unfold neighbors_or_empty. induction order as [|x order IH]; intros acc; simpl; [set_solver|].
    rewrite IH, elem_of_cons. destruct (decide (n = x)) as [->|Hne].
    - destruct (ofind x h) as [[|]|]; set_solver.
    - destruct (ofind x h) as [[|]|]; set_solver. }
  rewrite Hg. set_solver.
Qed.

(** C32. When it does not abort, [basic_blocks] partitions the reachable nodes
    into blocks; inside a block each node is the only successor of the one
    before it and has no other predecessor.  The loops end. *)
Theorem basic_blocks_partition alloc graph rgraph start :
  exists r, basic_blocks alloc graph rgraph start = Some r /\
    forall blocks bbg rbbg bbstart ds, r = Done (blocks, bbg, rbbg, bbstart) ds ->
      NoDup (concat blocks) /\ (forall n, n ∈ concat blocks <-> reach graph start n) /\
      (forall blk, blk ∈ blocks -> chain graph rgraph blk /\ blk <> []) /\
      exists i blk, blocks !! i = Some blk /\ start ∈ blk /\ bbstart = Node (alloc i) NORMAL 0.
Proof.
  unfold basic_blocks. pose proof (blocks_ok_start graph rgraph start) as Hok0.
  destruct (block_loop_total graph rgraph start ({[ start ]} ∪ nodes_of graph) (nodes_of_closed graph start)
              (blocks_fuel graph start) [[start]] [] []) as [r Hr]; [set_solver|done|..].
  { unfold blocks_fuel. change (rset []) with (∅ : gset node_t). rewrite pending_empty. simpl. lia. }
  { unfold blocks_fuel. change (rset []) with (∅ : gset node_t). rewrite difference_empty_L. lia. }
  rewrite Hr. destruct r as [[blocks resolved] ds|w]; [|by eexists].
  pose proof (block_loop_ok _ _ _ _ _ _ _ _ _ _ Hok0 Hr) as Hok.
  destruct (connect_blocks _ _ _ _ _ _ _ _) as [bbg rbbg]. eexists. split; [done|].
  intros blocks' bbg' rbbg' bbstart ds' [= <- <- <- <- _].
  assert (Hstart : start ∈ concat blocks).
  { destruct (bo_start _ _ _ _ _ _ Hok) as [?|Hin]; [done|by apply elem_of_nil in Hin]. }
  split; [apply Hok|]. split; [|split; [apply Hok|]].
  - intros n. split; [apply (bo_reach _ _ _ _ _ _ Hok)|]. intros Hreach.
    assert (Hcl : forall x y, reach graph x y -> x ∈ concat blocks -> y ∈ concat blocks); [|by apply (Hcl start)].
    clear -Hok. intros x y Hxy. induction Hxy as [|x y z Hxy _ IH]; [done|]. intros Hx. apply IH.
    destruct (bo_closed _ _ _ _ _ _ Hok _ _ Hx Hxy) as [?|Hin]; [done|]. by apply elem_of_nil in Hin.
  - apply elem_of_concat in Hstart as (i & blk & Hi & Hs). exists i, blk. split; [done|]. split; [done|].
    unfold ofind_or. assert (ofind start resolved = Some i) as ->; [|done].
    apply (bo_resolved _ _ _ _ _ _ Hok). eauto.
Qed.

(** An [if] with two empty branches gives two edges to the node after it;
    that node is pushed twice and the second visit is reported as a bug. *)
Example basic_blocks_double_edge :
  let g := [(nd 1, [(nd 2, 0%Z); (nd 2, 1%Z)])] in
  basic_blocks Z.of_nat g (reverse g) (nd 1) = Some (Aborted "processing twice the same node").
Proof. by vm_compute. Qed.
