(* ===== verification/Lattice.v ===== *)
(** * Data-flow lattices and the worklist algorithm: [backends/analysis/lattice]

    [MapLattice], [TupleLattice] and [LatticeOps] of [Lattice.h], the class
    template [WorklistAlgo], and the [DefaultDiscipline] of [Lattice.cpp].  What
    the templates take from their element type is the class [LatticeElement]:
    the operators [==] and [+] and [isBottom]. *)
From S2P Require Import Prelude CfgGraph CfgTraverse.
Local Open Scope flexplan_scope.

(** ** Lattice elements *)
Class LatticeElement (Elem : Type) := {
  eq_op : Elem -> Elem -> bool;
  plus_op : Elem -> Elem -> Elem;
  isBottom : Elem -> bool
}.
Definition neq_op {Elem} `{LatticeElement Elem} (a o : Elem) : bool := negb (eq_op a o).

(** [LatticeOps::LUB] *)
Definition LUB {L} `{LatticeElement L} (bottom : L) (elems : list L) : L :=
  fold_left (fun x e => plus_op x e) elems bottom.

(** A tuple is a pair, or a pair of an element and a tuple. *)
#[export] Instance TupleLattice {L1 L2} `{LatticeElement L1, LatticeElement L2} : LatticeElement (L1 * L2) := {
  eq_op t other := eq_op t.1 other.1 && eq_op t.2 other.2;
  plus_op t1 t2 := (plus_op t1.1 t2.1, plus_op t1.2 t2.2);
  isBottom t := isBottom t.1 && isBottom t.2
}.

(** [std::unordered_map]'s [operator==]. *)
Definition mapping_eq {Context} `{Countable Context} {L} `{LatticeElement L} (l r : gmap Context L) : bool :=
  Nat.eqb (size l) (size r) &&
  forallb (fun elem => match r !! elem.1 with Some e => eq_op elem.2 e | None => false end) (map_to_list l).
(** [lmerge]: only the keys of [l] get a value. *)
Definition lmerge {Context} `{Countable Context} {L} `{LatticeElement L} (l r : gmap Context L) : gmap Context L :=
  map_imap (fun (k : Context) (e : L) => match r !! k with Some re => Some (plus_op re e) | None => Some e end) l.
#[export] Instance MapLattice {Context} `{Countable Context} {L} `{LatticeElement L} : LatticeElement (gmap Context L) := {
  isBottom mapping := bool_decide (mapping = ∅);
  eq_op mapping other :=
    if negb (Bool.eqb (bool_decide (mapping = ∅)) (bool_decide (other = ∅))) then false
    else if bool_decide (mapping = ∅) then true
    else mapping_eq other mapping;
  plus_op mapping other := lmerge other (lmerge mapping other)
}.

(** ** [WorklistAlgo] *)
Section worklist.
Context {L : Type}.
(** [xfer(node, edge, at_call, value)] and [xfer(node, edge, value)]. *)
Context (xfer_return : node_t -> Edge -> L -> L -> L) (xfer : node_t -> Edge -> L -> L).
Context (discipline : node_t -> node_t -> bool) (merge : L -> L -> L) (neq : L -> L -> bool) (factory : L).
Context (current : EdgeHolder).

(** [is_ret_call && edgeType(n) == EdgeType::RETURN] *)
Definition is_return_edge (nowat : node_t) (n : Edge) : bool :=
  bool_decide (type nowat = END) && bool_decide (edgeType n.2 = E_RETURN).
Definition call_node (n : node_t) : node_t := Node (node n) CALL (label n).
Definition transfer (result : gmap node_t L) (nowat : node_t) (n : Edge) (val : L) : L :=
  if is_return_edge nowat n then
    match result !! call_node n.1 with
    | Some at_call => xfer_return nowat n at_call val
    | None => factory
    end
  else xfer nowat n val.

(** One neighbour.  [val] points into [result] and sees what earlier
    neighbours did to it. *)
Definition worklist_edge (nowat : node_t) (st : gmap node_t L * list node_t) (n : Edge) : gmap node_t L * list node_t :=
  let '(result, worklist) := st in
  match result !! nowat with
  | None => st
  | Some val =>
      let nxtval := transfer result nowat n val in
      match result !! n.1 with
      | Some old =>
          let merged := merge old nxtval in
          if neq merged old then (<[n.1 := merged]> result, set_emplace discipline n.1 worklist) else st
      | None => (<[n.1 := nxtval]> result, set_emplace discipline n.1 worklist)
      end
  end.
Fixpoint worklist_loop (fuel : nat) (worklist : list node_t) (result : gmap node_t L) : option (gmap node_t L) :=
  match worklist with
  | [] => Some result
  | nowat :: worklist =>
      match fuel with
      | O => None
      | S fuel =>
          let '(result, worklist) :=
            match result !! nowat with
            | None => (result, worklist)
            | Some _ => fold_left (worklist_edge nowat) (default [] (ofind nowat current)) (result, worklist)
            end in
          worklist_loop fuel worklist result
      end
  end.
Definition worklist_algo (fuel : nat) (start : node_t) (result : gmap node_t L) : option (gmap node_t L) :=
  worklist_loop fuel [start] result.
End worklist.

(** ** [DefaultDiscipline]: nodes in the order of [topo_sort] from [start],
    the start first. *)
Definition priorities_of (sorted : list node_t) : gmap node_t Z :=
  (fold_left (fun st s => (<[s := (Z.of_nat (length sorted) - st.2)%Z]> st.1, (st.2 + 1)%Z)) sorted (∅, 0%Z)).1.
Definition buildDiscipline (holder : EdgeHolder) (start : node_t) : option (gmap node_t Z) :=
  priorities_of <$> topo_sort_from holder start.
(** [priorities[l]] is 0 for an unknown node. *)
Definition DefaultDiscipline (priorities : gmap node_t Z) (l r : node_t) : bool :=
  (default 0 (priorities !! l) <? default 0 (priorities !! r))%Z.
