(* ===== verification/LatticeFacts.v ===== *)
(** * Theorems on the worklist algorithm and the lattices: [Lattice.v] *)
From S2P Require Import Prelude CfgGraph CfgTraverse Lattice.
Local Open Scope flexplan_scope.

(** ** What the worklist asks of a lattice *)
(** An upper bound for every two elements, which the comparison recognises when
    it adds nothing. *)
Class LatticeLaws {L : Type} (le : relation L) (merge : L -> L -> L) (neq : L -> L -> bool) : Prop := {
  lat_preorder :: PreOrder le;
  merge_left (a b : L) : le a (merge a b);
  merge_right (a b : L) : le b (merge a b);
  neq_le (a b : L) : neq (merge a b) a = false -> le (merge a b) a
}.
(** Chains are finite: [rank] falls at every change. *)
Class FiniteHeight {L : Type} (merge : L -> L -> L) (neq : L -> L -> bool) (rank : L -> nat) (H : nat) : Prop := {
  rank_bound (a : L) : (rank a <= H)%nat;
  rank_falls (a b : L) : neq (merge a b) a = true -> (rank (merge a b) < rank a)%nat
}.

Lemma sum_list_with_lt {A} (f g : A -> nat) (l : list A) x : x ∈ l -> (g x < f x)%nat -> (forall y, y ∈ l -> (g y <= f y)%nat) ->
  (sum_list_with g l < sum_list_with f l)%nat.
Proof.
  assert (Hle : forall l, (forall y, y ∈ l -> (g y <= f y)%nat) -> (sum_list_with g l <= sum_list_with f l)%nat).
  { clear l. induction l as [|y l IH]; intros Hl; simpl; [lia|].
    pose proof (Hl y ltac:(by left)). pose proof (IH ltac:(intros; apply Hl; by right)). lia. }
  induction l as [|y l IH]; intros Hx Hlt Hl; [by apply elem_of_nil in Hx|]. simpl. pose proof (Hl y ltac:(by left)).
  apply elem_of_cons in Hx as [->|Hx].
  - pose proof (Hle l ltac:(intros; apply Hl; by right)). lia.
  - pose proof (IH Hx Hlt ltac:(intros; apply Hl; by right)). lia.
Qed.

(** ** The worklist *)
Section worklist.
Context {L : Type} (le : relation L) (merge : L -> L -> L) (neq : L -> L -> bool) `{!LatticeLaws le merge neq}.
Context (xfer_return : node_t -> Edge -> L -> L -> L) (xfer : node_t -> Edge -> L -> L) (factory : L).
Context (discipline : node_t -> node_t -> bool) (current : EdgeHolder) (start : node_t).
(** The comparison tells the nodes that [start] reaches apart. *)
Hypothesis Hdisc : forall x y, reach current start x -> reach current start y ->
  discipline x y = false -> discipline y x = false -> x = y.
Implicit Types (result : gmap node_t L) (worklist : list node_t).

Notation edge_step := (worklist_edge xfer_return xfer discipline merge neq factory).
Notation loop := (worklist_loop xfer_return xfer discipline merge neq factory current).

Definition grows result result' : Prop := forall n v, result !! n = Some v -> exists v', result' !! n = Some v' /\ le v v'.
Lemma grows_refl result : grows result result.
Proof. intros n v Hv. by exists v. Qed.
Lemma grows_trans r1 r2 r3 : grows r1 r2 -> grows r2 r3 -> grows r1 r3.
Proof. intros H1 H2 n v (v' & Hv & Hle)%H1. apply H2 in Hv as (v'' & Hv'' & Hle'). exists v''. split; [done|]. by etrans. Qed.

(** The edge [e] out of [n] is accounted for. *)
Definition settled result (n : node_t) (e : Edge) : Prop := forall val, result !! n = Some val -> is_return_edge n e = false ->
  exists w, result !! e.1 = Some w /\ le (xfer n e val) w.

Lemma settled_grows result result' n e : grows result result' -> result' !! n = result !! n -> settled result n e -> settled result' n e.
Proof.
  intros Hg Hn Hs val Hval Hr. rewrite Hn in Hval. destruct (Hs val Hval Hr) as (w & Hw & Hle). apply Hg in Hw as (w' & Hw' & Hle').
  exists w'. split; [done|]. by etrans.
Qed.

(** What one edge does to the state. *)
Record edge_effect (nowat : node_t) (e : Edge) result worklist result' (worklist' : list node_t) : Prop := {
  ef_grows : grows result result';
  ef_same n : result' !! n = result !! n \/ n = e.1 /\ (reach current start nowat -> n ∈ worklist');
  ef_old n : n ∈ worklist -> n ∈ worklist';
  ef_sub n : n ∈ worklist' -> n = e.1 \/ n ∈ worklist;
  ef_new n : is_Some (result' !! n) -> n = e.1 \/ is_Some (result !! n);
  ef_settled : result' !! nowat = result !! nowat -> settled result' nowat e }.

Lemma worklist_edge_effect nowat e result worklist : e ∈ neighbors_or_empty current nowat -> is_Some (result !! nowat) ->
  (forall n, n ∈ worklist -> reach current start n) ->
  edge_effect nowat e result worklist (edge_step nowat (result, worklist) e).1 (edge_step nowat (result, worklist) e).2.
Proof.
  intros He [val Hval] Hwl. unfold worklist_edge. rewrite Hval.
  set (nxt := transfer xfer_return xfer factory result nowat e val).
  assert (Hin : reach current start nowat -> e.1 ∈ set_emplace discipline e.1 worklist).
  { intros Hr. apply set_emplace_new. intros y Hy. apply Hdisc; [|by apply Hwl]. eapply rtc_r; [exact Hr|]. exists e.2. by destruct e. }
  assert (Hset : forall result', (exists w, result' !! e.1 = Some w /\ le nxt w) -> result' !! nowat = result !! nowat -> settled result' nowat e).
  { intros result' (w & Hw & Hle) Hsame v Hv Hret. rewrite Hsame, Hval in Hv. injection Hv as <-. exists w. split; [done|].
    unfold nxt, transfer in Hle. by rewrite Hret in Hle. }
  assert (Hins : forall w, (forall old, result !! e.1 = Some old -> le old w) -> le nxt w ->
    edge_effect nowat e result worklist (<[e.1 := w]> result) (set_emplace discipline e.1 worklist)).
  { intros w Hold Hw. split.
    - intros n v Hv. destruct (decide (e.1 = n)) as [<-|Hne]; [rewrite lookup_insert_eq; eauto|]. rewrite lookup_insert_ne by done. by exists v.
    - intros n. destruct (decide (e.1 = n)) as [<-|Hne]; [by right|left]. by rewrite lookup_insert_ne.
    - intros n. apply set_emplace_old.
    - intros n. apply set_emplace_sub.
    - intros n Hn. destruct (decide (e.1 = n)) as [<-|Hne]; [by left|right]. by rewrite lookup_insert_ne in Hn.
    - apply Hset. exists w. by rewrite lookup_insert_eq. }
  destruct (result !! e.1) as [old|] eqn:Eold.
  - destruct (neq (merge old nxt) old) eqn:En; simpl.
    + apply Hins; [intros ? [= <-]; apply merge_left|apply merge_right].
    + split; try done; [apply grows_refl|by left|by right|by right|]. apply Hset. exists old. split; [done|].
      etrans; [apply (merge_right old nxt)|by apply neq_le].
  - apply Hins; [done|reflexivity].
Qed.

(** *** The invariant *)
Record work_ok worklist result : Prop := {
  wo_work n : n ∈ worklist -> reach current start n;
  wo_result n : is_Some (result !! n) -> reach current start n;
  wo_settled n e : n ∉ worklist -> e ∈ neighbors_or_empty current n -> settled result n e }.

Lemma work_ok_edges nowat : reach current start nowat -> forall es done result worklist,
  (forall e, e ∈ done ++ es -> e ∈ neighbors_or_empty current nowat) -> is_Some (result !! nowat) ->
  (forall n, n ∈ worklist -> reach current start n) -> (forall n, is_Some (result !! n) -> reach current start n) ->
  (forall n e, n ∉ worklist -> (n = nowat -> e ∈ done) -> e ∈ neighbors_or_empty current n -> settled result n e) ->
  let st := fold_left (edge_step nowat) es (result, worklist) in
  grows result st.1 /\ (forall n, n ∈ st.2 -> reach current start n) /\ (forall n, is_Some (st.1 !! n) -> reach current start n) /\
  (forall n e, n ∉ st.2 -> (n = nowat -> e ∈ done ++ es) -> e ∈ neighbors_or_empty current n -> settled st.1 n e).
Proof.
  intros Hnow. induction es as [|e es IH]; intros dn result worklist Hes Hval Hw Hr Hs.
  { simpl. rewrite app_nil_r. split; [apply grows_refl|]. done. }
  cbn [fold_left]. pose proof (Hes e ltac:(set_solver)) as He.
  pose proof (worklist_edge_effect nowat e result worklist He Hval Hw) as [E1 E2 E3 E4 E5 E6].
  destruct (edge_step nowat (result, worklist) e) as [result' worklist']. simpl in *.
  assert (Hre : reach current start e.1) by (eapply rtc_r; [exact Hnow|]; exists e.2; by destruct e).
  destruct (IH (dn ++ [e]) result' worklist') as (H1 & H2 & H3 & H4).
  - intros e'. rewrite <- app_assoc. apply Hes.
  - destruct Hval as [v Hv]. apply E1 in Hv as (v' & Hv' & _). by exists v'.
  - intros n [->|Hn]%E4; [done|by apply Hw].
  - intros n [->|Hn]%E5; [done|by apply Hr].
  - intros n e' Hn Hd He'.
    destruct (E2 n) as [Hsame|[-> Hin]]; [|destruct Hn; by apply Hin].
    destruct (decide (n = nowat)) as [->|Hne].
    + apply elem_of_app in Hd as [Hd|Hd%list_elem_of_singleton]; [|subst e'; by apply E6|done].
      apply (settled_grows result); [done..|]. apply Hs; [|done|done]. intros Hold. by apply Hn, E3.
    + apply (settled_grows result); [done..|]. apply Hs; [|done|done]. intros Hold. by apply Hn, E3.
  - split; [by eapply grows_trans|]. split; [done|]. split; [done|]. intros n e' Hn Hd. apply H4; [done|]. rewrite <- app_assoc. exact Hd.
Qed.

(** *** The iteration ends *)
Section ends.
Context (rank : L -> nat) (H : nat) `{!FiniteHeight merge neq rank H} (U : list node_t).
Hypothesis HU : forall n, reach current start n -> n ∈ U.

Definition weight result (n : node_t) : nat := match result !! n with None => S H | Some v => rank v end.
Definition potential result : nat := sum_list_with (weight result) U.

Lemma potential_insert result n w : n ∈ U -> (rank w < weight result n)%nat -> (potential (<[n := w]> result) < potential result)%nat.
Proof.
  intros Hn Hw. apply (sum_list_with_lt _ _ U n); [done| |].
  - unfold weight at 1. by rewrite lookup_insert_eq.
  - intros y _. destruct (decide (n = y)) as [<-|Hne]; unfold weight in *; [rewrite lookup_insert_eq; lia|by rewrite lookup_insert_ne].
Qed.

Lemma worklist_edge_potential nowat e result worklist : reach current start nowat -> e ∈ neighbors_or_empty current nowat ->
  let st := edge_step nowat (result, worklist) e in
  (potential st.1 + length st.2 <= potential result + length worklist)%nat.
Proof.
  intros Hnow He. unfold worklist_edge. destruct (result !! nowat) as [val|]; [|done].
  set (nxt := transfer xfer_return xfer factory result nowat e val).
  assert (Hre : e.1 ∈ U) by (apply HU; eapply rtc_r; [exact Hnow|]; exists e.2; by destruct e).
  pose proof (set_emplace_length discipline e.1 worklist) as Hl.
  destruct (result !! e.1) as [old|] eqn:Eold.
  - destruct (neq (merge old nxt) old) eqn:En; [|done]. cbn [fst snd].
    pose proof (potential_insert result e.1 (merge old nxt) Hre) as Hp. unfold weight at 1 in Hp. rewrite Eold in Hp.
    apply rank_falls in En. specialize (Hp En). lia.
  - cbn [fst snd]. pose proof (potential_insert result e.1 nxt Hre) as Hp. unfold weight at 1 in Hp. rewrite Eold in Hp.
    pose proof (rank_bound nxt). specialize (Hp ltac:(lia)). lia.
Qed.

Lemma worklist_edges_potential nowat : reach current start nowat -> forall es result worklist,
  (forall e, e ∈ es -> e ∈ neighbors_or_empty current nowat) ->
  let st := fold_left (edge_step nowat) es (result, worklist) in
  (potential st.1 + length st.2 <= potential result + length worklist)%nat.
Proof.
  intros Hnow. induction es as [|e es IH]; intros result worklist Hes; [done|]. cbn [fold_left].
  pose proof (worklist_edge_potential nowat e result worklist Hnow ltac:(apply Hes; by left)) as He.
  destruct (edge_step nowat (result, worklist) e) as [result' worklist']. cbn [fst snd] in He.
  pose proof (IH result' worklist' ltac:(intros; apply Hes; by right)). simpl in *. lia.
Qed.

Lemma worklist_loop_ok fuel : forall worklist result, work_ok worklist result -> (potential result + length worklist <= fuel)%nat ->
  exists result', loop fuel worklist result = Some result' /\ work_ok [] result' /\ grows result result'.
Proof.
  induction fuel as [|fuel IH]; intros worklist result Hok Hf; (destruct worklist as [|nowat worklist]; [exists result; split; [done|]; split; [done|apply grows_refl]|]);
    cbn [length] in Hf; [lia|]. cbn [worklist_loop]. destruct Hok as [W1 W2 W3].
  assert (Hnow : reach current start nowat) by (apply W1; by left).
  destruct (result !! nowat) as [val|] eqn:Eval.
  - change (default [] (ofind nowat current)) with (neighbors_or_empty current nowat).
    destruct (work_ok_edges nowat Hnow (neighbors_or_empty current nowat) [] result worklist) as (H1 & H2 & H3 & H4).
    + done.
    + by exists val.
    + intros n Hn. apply W1. by right.
    + done.
    + intros n e Hn Hd He. apply W3; [|done]. intros [->|Hin]%elem_of_cons; [|done]. specialize (Hd eq_refl). by apply elem_of_nil in Hd.
    + pose proof (worklist_edges_potential nowat Hnow (neighbors_or_empty current nowat) result worklist ltac:(done)) as Hp.
      destruct (fold_left (edge_step nowat) (neighbors_or_empty current nowat) (result, worklist)) as [result1 worklist1]. cbn [fst snd] in *.
      destruct (IH worklist1 result1) as (r & Hr & Hok & Hg); [|lia|].
      * split; [done|done|]. intros n e Hn He. apply H4; [done| |done]. intros ->. exact He.
      * exists r. split; [done|]. split; [done|]. by eapply grows_trans.
  - apply IH; [|lia]. split; [intros n Hn; apply W1; by right|done|]. intros n e Hn He.
    destruct (decide (n = nowat)) as [->|Hne]; [intros v Hv; congruence|]. apply W3; [|done].
    intros [->|Hin]%elem_of_cons; done.
Qed.

Lemma work_ok_start v : work_ok [start] {[ start := v ]}.
Proof.
  split.
  - intros n ->%list_elem_of_singleton. constructor.
  - intros n Hn. apply lookup_singleton_is_Some in Hn as <-. constructor.
  - intros n e Hn _ val Hval. apply lookup_singleton_Some in Hval as [<- _]. destruct Hn. by left.
Qed.

Lemma potential_bound result : (potential result <= length U * S H)%nat.
Proof.
  clear HU. unfold potential. induction U as [|n l IH]; [done|]. cbn [sum_list_with length Nat.mul].
  assert (Hw : (weight result n <= S H)%nat).
  { unfold weight. destruct (result !! n) as [v|]; [|done]. pose proof (rank_bound (merge := merge) (neq := neq) (rank := rank) (H := H) v). lia. }
  lia.
Qed.
End ends.

(** *** The least solution *)
Section least.
Hypothesis merge_least : forall a b c, le a c -> le b c -> le (merge a b) c.
Hypothesis xfer_mono : forall n e a b, le a b -> le (xfer n e a) (xfer n e b).
Hypothesis no_return : forall n e, e ∈ neighbors_or_empty current n -> is_return_edge n e = false.
Context (bound : gmap node_t L).
Hypothesis bound_settled : forall n e, e ∈ neighbors_or_empty current n -> settled bound n e.

Definition below result : Prop := forall n v, result !! n = Some v -> exists w, bound !! n = Some w /\ le v w.

Lemma worklist_edges_below nowat es : forall result worklist, (forall e, e ∈ es -> e ∈ neighbors_or_empty current nowat) -> below result ->
  below (fold_left (edge_step nowat) es (result, worklist)).1.
Proof.
  induction es as [|e es IH]; intros result worklist Hes Hb; [done|]. cbn [fold_left].
  pose proof (Hes e ltac:(by left)) as He.
  enough (Hb' : below (edge_step nowat (result, worklist) e).1).
  { destruct (edge_step nowat (result, worklist) e) as [r w]. apply IH; [|done]. intros; apply Hes; by right. }
  unfold worklist_edge. destruct (result !! nowat) as [val|] eqn:Eval; [|done].
  unfold transfer. rewrite (no_return nowat e He). apply Hb in Eval as (bv & Hbv & Hle).
  destruct (bound_settled nowat e He bv Hbv (no_return nowat e He)) as (w & Hw & Hlew).
  assert (Hx : le (xfer nowat e val) w) by (etrans; [by apply xfer_mono|done]).
  assert (Hins : forall r x, below r -> le x w -> below (<[e.1 := x]> r)).
  { intros r x Hr Hxw n v Hv. destruct (decide (e.1 = n)) as [<-|Hne].
    - rewrite lookup_insert_eq in Hv. injection Hv as <-. by exists w.
    - rewrite lookup_insert_ne in Hv by done. by apply Hr. }
  destruct (result !! e.1) as [old|] eqn:Eold; [|by apply Hins].
  destruct (neq _ _); [|done]. apply Hins; [done|]. apply merge_least; [|done].
  apply Hb in Eold as (w' & Hw' & ?). rewrite Hw in Hw'. by injection Hw' as <-.
Qed.

Lemma worklist_loop_below fuel : forall worklist result result', below result -> loop fuel worklist result = Some result' -> below result'.
Proof.
  induction fuel as [|fuel IH]; intros [|nowat worklist] result result' Hb Hl; cbn [worklist_loop] in Hl;
    [by injection Hl as <-|done|by injection Hl as <-|].
  destruct (result !! nowat) as [val|]; [|by eapply IH].
  change (default [] (ofind nowat current)) with (neighbors_or_empty current nowat) in Hl.
  pose proof (worklist_edges_below nowat (neighbors_or_empty current nowat) result worklist ltac:(done) Hb) as Hb'.
  destruct (fold_left _ _ _) as [r w]. by eapply IH.
Qed.
End least.
End worklist.

(** ** [DefaultDiscipline] *)
Lemma priorities_fold N l : NoDup l -> forall m i j n, l !! j = Some n ->
  (fold_left (fun (st : gmap node_t Z * Z) s => (<[s := (N - st.2)%Z]> st.1, (st.2 + 1)%Z)) l (m, i)).1 !! n = Some (N - (i + Z.of_nat j))%Z.
Proof.
  induction l as [|x l IH]; intros Hnd m i j n Hj; [done|]. apply NoDup_cons in Hnd as [Hx Hnd]. cbn [fold_left fst snd]. destruct j as [|j].
  - injection Hj as ->.
    assert (Hkeep : forall l m i, n ∉ l -> (fold_left (fun (st : gmap node_t Z * Z) s => (<[s := (N - st.2)%Z]> st.1, (st.2 + 1)%Z)) l (m, i)).1 !! n = m !! n).
    { clear. induction l as [|y l IH]; intros m i Hn; [done|]. cbn [fold_left fst snd]. rewrite IH by set_solver. rewrite lookup_insert_ne; [done|]. set_solver. }
    rewrite Hkeep by done. rewrite lookup_insert_eq. do 2 f_equal. lia.
  - rewrite (IH Hnd _ _ j n Hj). do 2 f_equal. lia.
Qed.

Lemma priorities_lookup sorted i n : NoDup sorted -> sorted !! i = Some n ->
  priorities_of sorted !! n = Some (Z.of_nat (length sorted) - Z.of_nat i)%Z.
Proof. intros Hnd Hi. unfold priorities_of. rewrite (priorities_fold _ _ Hnd _ _ i n Hi). do 2 f_equal. Qed.

Lemma discipline_ok holder start p : buildDiscipline holder start = Some p ->
  (forall x y, reach holder start x -> reach holder start y -> DefaultDiscipline p x y = false -> DefaultDiscipline p y x = false -> x = y) /\
  (forall x y, reach holder start x -> step holder x y -> DefaultDiscipline p x y = true \/ reach holder y x).
Proof.
  unfold buildDiscipline. intros Hb. apply fmap_Some in Hb as (sorted & Hs & ->).
  destruct (topo_sort_from_ok holder start) as (sorted' & Hs' & Hnd & Hr & _ & Ho). rewrite Hs in Hs'. injection Hs' as <-.
  assert (Hp : forall i n, sorted !! i = Some n -> default 0%Z (priorities_of sorted !! n) = (Z.of_nat (length sorted) - Z.of_nat i)%Z).
  { intros i n Hi. by rewrite (priorities_lookup _ _ _ Hnd Hi). }
  unfold DefaultDiscipline. split.
  - intros x y Hx%Hr Hy%Hr. apply list_elem_of_lookup in Hx as [i Hi], Hy as [j Hj]. rewrite (Hp _ _ Hi), (Hp _ _ Hj).
    intros ?%Z.ltb_ge ?%Z.ltb_ge. assert (i = j) as -> by lia. congruence.
  - intros x y Hx%Hr Hst. apply list_elem_of_lookup in Hx as [i Hi].
    destruct (Ho _ _ _ Hi Hst) as [(j & Hj & Hy)|Hback]; [left|by right].
    rewrite (Hp _ _ Hi), (Hp _ _ Hy). apply Z.ltb_lt. lia.
Qed.

(** ** Products of lattices *)
Definition pair_le {L1 L2} (le1 : relation L1) (le2 : relation L2) (a b : L1 * L2) : Prop := le1 a.1 b.1 /\ le2 a.2 b.2.

#[export] Instance TupleLattice_laws {L1 L2} `{LatticeElement L1, LatticeElement L2} (le1 : relation L1) (le2 : relation L2)
  `{!LatticeLaws le1 plus_op neq_op, !LatticeLaws le2 plus_op neq_op} : LatticeLaws (pair_le le1 le2) plus_op neq_op.
Proof.
  split.
  - split; [intros [a b]; by split|]. intros [a1 a2] [b1 b2] [c1 c2] [? ?] [? ?]. split; simpl in *; by etrans.
  - intros [a1 a2] [b1 b2]. split; cbn; eapply merge_left; typeclasses eauto.
  - intros [a1 a2] [b1 b2]. split; cbn; eapply merge_right; typeclasses eauto.
  - intros [a1 a2] [b1 b2]. unfold neq_op. simpl. rewrite negb_false_iff, andb_true_iff. intros [E1 E2].
    split; cbn; eapply (neq_le (neq := neq_op)); unfold neq_op; [by rewrite E1|by rewrite E2].
Qed.

(** A change in one component is a change of the pair; the other one must not
    rise when the comparison calls it unchanged. *)
#[export] Instance TupleLattice_height {L1 L2} `{E1 : LatticeElement L1, E2 : LatticeElement L2} (rank1 : L1 -> nat) H1 (rank2 : L2 -> nat) H2
  `{!FiniteHeight plus_op neq_op rank1 H1, !FiniteHeight plus_op neq_op rank2 H2}
  (Hsame1 : forall a b : L1, neq_op (plus_op a b) a = false -> plus_op a b = a)
  (Hsame2 : forall a b : L2, neq_op (plus_op a b) a = false -> plus_op a b = a) :
  FiniteHeight (L := L1 * L2) plus_op neq_op (fun t => rank1 t.1 + rank2 t.2)%nat (H1 + H2)%nat.
Proof.
  split.
  - intros [a b]. pose proof (rank_bound (rank := rank1) a). pose proof (rank_bound (rank := rank2) b). simpl. lia.
  - intros [a1 a2] [b1 b2]. unfold neq_op at 1. simpl. rewrite negb_true_iff, andb_false_iff. intros Hc.
    cbn [fst snd].
    destruct (neq_op (plus_op a1 b1) a1) eqn:N1; destruct (neq_op (plus_op a2 b2) a2) eqn:N2.
    + apply (rank_falls (rank := rank1)) in N1. apply (rank_falls (rank := rank2)) in N2. lia.
    + rewrite (Hsame2 _ _ N2). apply (rank_falls (rank := rank1)) in N1. lia.
    + rewrite (Hsame1 _ _ N1). apply (rank_falls (rank := rank2)) in N2. lia.
    + unfold neq_op in N1, N2. apply negb_false_iff in N1, N2. destruct Hc; congruence.
Qed.

(** ** Maps *)
(** What [MapLattice::operator+] computes for each key. *)
Lemma MapLattice_lookup {Context} `{Countable Context} {L} `{LatticeElement L} (a b : gmap Context L) k :
  plus_op a b !! k = (fun y => match a !! k with Some x => plus_op (plus_op y x) y | None => y end) <$> b !! k.
Proof.
  simpl. unfold lmerge. rewrite map_lookup_imap. destruct (b !! k) as [y|] eqn:Eb; simpl; [|done].
  rewrite map_lookup_imap. destruct (a !! k) as [x|]; simpl; [|done]. by rewrite Eb.
Qed.

(** ** Properties *)



(** [DefaultDiscipline] never takes two reachable nodes for the same, so the
    worklist loses none, and puts the source of an edge before its target
    unless the edge closes a cycle. *)
Theorem DefaultDiscipline_spec holder start p : buildDiscipline holder start = Some p ->
  (forall x y, reach holder start x -> reach holder start y ->
     DefaultDiscipline p x y = false -> DefaultDiscipline p y x = false -> x = y) /\
  (forall x y, reach holder start x -> step holder x y -> DefaultDiscipline p x y = true \/ reach holder y x).
Proof. apply discipline_ok. Qed.

(** ** Witnesses and examples *)
(** Facts that hold on some path. *)
#[export] Instance fact_element : LatticeElement bool := { eq_op := Bool.eqb; plus_op := orb; isBottom := negb }.
Definition fact_le : relation bool := fun a b => implb a b = true.
#[export] Instance fact_laws : LatticeLaws fact_le plus_op neq_op.
Proof. split; [split; [by intros []|by intros [] [] []]|by intros [] []|by intros [] []|by intros [] []]. Qed.
#[export] Instance fact_height : FiniteHeight plus_op neq_op (fun b : bool => if b then 0 else 1)%nat 1.
Proof. split; [intros []; lia|intros [] [] Hn; simpl; (discriminate || lia)]. Qed.

(** 1 -> 2 -> 3 -> 2, 3 -> 4. *)
Definition looping : EdgeHolder := [(nd 1, [(nd 2, 0%Z)]); (nd 2, [(nd 3, 0%Z)]); (nd 3, [(nd 2, 0%Z); (nd 4, 0%Z)])].
Definition looping_priorities : gmap node_t Z := priorities_of [nd 4; nd 3; nd 2; nd 1].
(** Two facts: the first is generated at 3, the second is carried along. *)
Definition looping_xfer (n : node_t) (e : Edge) (v : bool * bool) : bool * bool := (v.1 || bool_decide (n = nd 3), v.2).

Lemma DefaultDiscipline_spec_witness : buildDiscipline looping (nd 1) = Some looping_priorities /\
  DefaultDiscipline looping_priorities (nd 1) (nd 2) = true /\
  forall x y, reach looping (nd 1) x -> reach looping (nd 1) y ->
    DefaultDiscipline looping_priorities x y = false -> DefaultDiscipline looping_priorities y x = false -> x = y.
Proof.
  split; [vm_compute; reflexivity|]. split; [vm_compute; reflexivity|].
  apply (DefaultDiscipline_spec looping (nd 1)). vm_compute. reflexivity.
Defined.

Lemma looping_discipline x y : reach looping (nd 1) x -> reach looping (nd 1) y ->
  DefaultDiscipline looping_priorities x y = false -> DefaultDiscipline looping_priorities y x = false -> x = y.
Proof. apply (discipline_ok looping (nd 1)). vm_compute. reflexivity. Qed.

Lemma looping_height : FiniteHeight (L := bool * bool) plus_op neq_op (fun t => (if t.1 then 0 else 1) + (if t.2 then 0 else 1))%nat 2.
Proof. apply (TupleLattice_height (fun b : bool => if b then 0 else 1)%nat 1 (fun b : bool => if b then 0 else 1)%nat 1); by intros [] []. Qed.



(** [operator+] of maps keeps the keys of its right operand only. *)
Example MapLattice_drops_left :
  plus_op (Elem := gmap Z bool) {[ 1%Z := true ]} ∅ = ∅ /\ plus_op (Elem := gmap Z bool) ∅ {[ 1%Z := true ]} = {[ 1%Z := true ]}.
Proof. split; apply map_eq; intros k; rewrite MapLattice_lookup, ?lookup_empty; [done|]. by destruct ({[1%Z := true]} !! k). Qed.

(** A call in a loop: 1 calls 2 and returns to 3, which leads back to the call.
    The second component is a fact of the caller, which the callee does not
    see and 3 generates.  When it reaches the call node the callee's value does
    not change, so its end is not visited again and the value after the
    return is not above what the return carries. *)
Definition calling : EdgeHolder :=
  [(nd 0, [(Node 1 CALL 0, 0%Z)]); (Node 1 CALL 0, [(Node 2 START 0, -1)%Z]); (Node 1 RETURN 0, [(nd 3, 0%Z)]);
   (Node 2 START 0, [(Node 2 END 0, 0%Z)]); (Node 2 END 0, [(Node 1 RETURN 0, -2)%Z]); (nd 3, [(Node 1 CALL 0, 0%Z)])].
Example return_misses_call :
  let xfer (n : node_t) (e : Edge) (v : bool * bool) :=
    if decide (type n = CALL) then (v.1, false) else if decide (n = nd 3) then (v.1, true) else v in
  let xfer_return (n : node_t) (e : Edge) (at_call v : bool * bool) := (v.1, at_call.2) in
  exists result,
    worklist_algo xfer_return xfer key_ltb plus_op neq_op (false, false) calling 100 (nd 0) {[ nd 0 := (true, false) ]} = Some result /\
    result !! Node 1 CALL 0 = Some (true, true) /\ result !! Node 2 END 0 = Some (true, false) /\
    result !! Node 1 RETURN 0 = Some (true, false) /\ xfer_return (Node 2 END 0) (Node 1 RETURN 0, -2)%Z (true, true) (true, false) = (true, true).
Proof. intros xfer xfer_return. eexists. split; [vm_compute; reflexivity|]. by vm_compute. Qed.
