(* ===== verification/CfgDominators.v ===== *)
(** * Dominators and control dependence of control-flow graphs:
      [backends/analysis/cfg_algos.cpp]

    The worklist computation of dominators, immediate dominators, the control
    dependence graph, and the dominance frontier after Cooper, Harvey and
    Kennedy.  A set that is only asked for membership or merged is a [gset];
    loops carry fuel, and running out of it, reading outside a vector and
    moving an iterator past its end are [None]. *)
From S2P Require Import Prelude CfgGraph CfgTraverse.
Local Open Scope flexplan_scope.

Definition dominators_t : Type := list (node_t * gset node_t).

(** ** [compute_dominators] *)
(** The loop over the predecessors: [all] says that no predecessor with an
    entry was met; one without an entry makes [new_set] empty. *)
Fixpoint meet_preds (dominators : dominators_t) (preds : EdgeEnumerator) (all : bool) (new_set : gset node_t)
    : bool * gset node_t :=
  match preds with
  | [] => (all, new_set)
  | pred :: preds =>
      if negb all && bool_decide (new_set = ∅) then (all, new_set)
      else
        match ofind pred.1 dominators with
        | Some d => meet_preds dominators preds false (if all then d else d ∩ new_set)
        | None => meet_preds dominators preds all ∅
        end
  end.

(** One iteration: the new dominators and whether the successors are
    pushed. *)
Definition dominators_step (bw : EdgeHolder) (last : node_t) (dominators : dominators_t) : dominators_t * bool :=
  let '(all, new_set) :=
    match ofind last bw with
    | None | Some [] => (false, ∅)
    | Some preds => meet_preds dominators preds true ∅
    end in
  let new_set := if all then new_set else {[ last ]} ∪ new_set in
  match ofind last dominators with
  | Some mylast =>
      if all then (oerase last dominators, true)
      else if bool_decide (new_set = mylast) then (dominators, false)
      else (oput last new_set dominators, true)
  | None => if all then (dominators, false) else (oput last new_set dominators, true)
  end.

(** The worklist has its back first. *)
Fixpoint compute_dominators_loop (fuel : nat) (graph bw : EdgeHolder) (worklist : list node_t) (dominators : dominators_t)
    : option dominators_t :=
  match worklist with
  | [] => Some dominators
  | last :: worklist =>
      match fuel with
      | O => None
      | S fuel =>
          let '(dominators, trigger) := dominators_step bw last dominators in
          let worklist := if trigger then rev (neighbors_or_empty graph last).*1 ++ worklist else worklist in
          compute_dominators_loop fuel graph bw worklist dominators
      end
  end.
Definition compute_dominators (fuel : nat) (graph bw : EdgeHolder) (start : node_t) (dominators : dominators_t)
    : option dominators_t :=
  compute_dominators_loop fuel graph bw [start] dominators.

(** ** [compute_idominators]: [M] is mapped to the nodes it immediately
    dominates; [M != N] compares the addresses of the IR nodes. *)
Definition is_idom (dominators : dominators_t) (N : node_t) (dN : gset node_t) (M : node_t) : bool :=
  forallb (fun P =>
    if node_neq P N then
      match ofind M dominators with
      | None => false
      | Some dM => bool_decide (P ∈ dM)
      end
    else true) (elements dN).
Definition idominators_of (dominators : dominators_t) : dominators_t :=
  fold_left (fun idoms d =>
    fold_left (fun idoms M =>
      if node_neq M d.1 && is_idom dominators d.1 d.2 M
      then oalter ∅ (fun s => {[ d.1 ]} ∪ s) M idoms else idoms) (elements d.2) idoms) dominators [].
Definition compute_idominators (fuel : nat) (graph bw : EdgeHolder) (start : node_t) (dominators : dominators_t)
    : option dominators_t :=
  idominators_of <$> compute_dominators fuel graph bw start dominators.

(** ** [compute_ancestors], [compute_cdg] *)
Fixpoint compute_ancestors (fuel : nat) (tree_parents : gmap node_t node_t) (crt : node_t) : option (list node_t) :=
  match tree_parents !! crt with
  | None => Some []
  | Some p => match fuel with O => None | S fuel => cons crt <$> compute_ancestors fuel tree_parents p end
  end.
(** [while (!bAncestor)]: is [B] on the path from [crt] up? *)
Fixpoint is_ancestor (fuel : nat) (tree_parents : gmap node_t node_t) (crt B : node_t) : option bool :=
  if decide (crt = B) then Some true
  else
    match tree_parents !! crt with
    | None => Some false
    | Some p => match fuel with O => None | S fuel => is_ancestor fuel tree_parents p B end
    end.
(** [while ( *IA == *IB)]: dereferencing [rend()] is undefined; the rest of
    [BAncestors] from [IB] on. *)
Fixpoint skip_common (IA IB : list node_t) : option (list node_t) :=
  match IA, IB with
  | a :: IA', b :: IB' => if decide (a = b) then skip_common IA' IB' else Some IB
  | _, _ => None
  end.
Definition tree_parents_of (postdoms : dominators_t) : gmap node_t node_t :=
  fold_left (fun tp d => fold_left (fun tp n => <[n := d.1]> tp) (elements d.2) tp) postdoms ∅.

Fixpoint cdg_edges (fuel : nat) (tree_parents : gmap node_t node_t) (edges : list (node_t * node_t)) : option (list (node_t * node_t)) :=
  match edges with
  | [] => Some []
  | (A, B) :: edges =>
      b ← is_ancestor fuel tree_parents A B;
      found ← cdg_edges fuel tree_parents edges;
      Some (if b : bool then found else (A, B) :: found)
  end.
Fixpoint cdg_dependencies (fuel : nat) (tree_parents : gmap node_t node_t) (found : list (node_t * node_t))
    (dependency : gmap node_t (gset node_t)) : option (gmap node_t (gset node_t)) :=
  match found with
  | [] => Some dependency
  | (A, B) :: found =>
      AAncestors ← compute_ancestors fuel tree_parents A;
      BAncestors ← compute_ancestors fuel tree_parents B;
      IB ← skip_common (rev AAncestors) (rev BAncestors);
      L ← head IB;
      let includesA := bool_decide (L = A) in
      let deps := list_to_set (List.filter (fun b => node_neq b A || includesA) IB) in
      cdg_dependencies fuel tree_parents found (<[A := deps ∪ default ∅ (dependency !! A)]> dependency)
  end.
Definition compute_cdg (fuel : nat) (graph bw : EdgeHolder) (dependency : gmap node_t (gset node_t))
    : option (gmap node_t (gset node_t)) :=
  start ← find_start_node bw;
  postdoms ← compute_idominators fuel bw graph start [];
  let tree_parents := tree_parents_of postdoms in
  found ← cdg_edges fuel tree_parents (flat_map (fun p => map (fun e => (p.1, e.1)) p.2) graph);
  cdg_dependencies fuel tree_parents found dependency.

(** ** [dom_frontier] *)
Section frontier.
Context (sorted : list node_t) (rgraph : EdgeHolder).
Let n := length sorted.

(** [reverseSorted]; [operator[]] answers 0 for an unknown node. *)
Definition position (b : node_t) : nat :=
  default 0%nat (list_find (fun x => x = b) (rev sorted) ≫= fun p => Some (n - 1 - p.1))%nat.

(** [while (finger1 < finger2) finger1 = ddoms[finger1]] *)
Fixpoint climb_below (fuel : nat) (ddoms : list nat) (finger1 finger2 : nat) : option nat :=
  if (finger1 <? finger2)%nat then
    match fuel with O => None | S fuel => f ← ddoms !! finger1; climb_below fuel ddoms f finger2 end
  else Some finger1.
Fixpoint intersect (fuel : nat) (ddoms : list nat) (finger1 finger2 : nat) : option nat :=
  if (finger1 =? finger2)%nat then Some finger1
  else
    match fuel with
    | O => None
    | S fuel =>
        finger1 ← climb_below (S n) ddoms finger1 finger2;
        finger2 ← climb_below (S n) ddoms finger2 finger1;
        intersect fuel ddoms finger1 finger2
    end.

Fixpoint meet_idoms (ddoms : list nat) (preds : EdgeEnumerator) (newidom : nat) : option nat :=
  match preds with
  | [] => Some newidom
  | J :: preds =>
      let p := position J.1 in
      dp ← ddoms !! p;
      newidom ← (if negb (dp =? n)%nat then intersect (S n) ddoms p newidom else Some newidom);
      meet_idoms ddoms preds newidom
  end.
(** The body of the loop over [i]. *)
Definition idom_step (i : nat) (st : list nat * bool) : option (list nat * bool) :=
  let '(ddoms, changed) := st in
  b ← sorted !! i;
  match ofind b rgraph with
  | Some (J :: preds) =>
      newidom ← meet_idoms ddoms preds (position J.1);
      di ← ddoms !! i;
      Some (if (di =? newidom)%nat then st else (<[i := newidom]> ddoms, true))
  | _ => Some st
  end.
(** [for (i = sorted.size() - 2; i >= 0; --i)] *)
Fixpoint idom_round (k : nat) (st : list nat * bool) : option (list nat * bool) :=
  match k with
  | O => Some st
  | S k => st ← idom_step k st; idom_round k st
  end.
Fixpoint idom_loop (fuel : nat) (ddoms : list nat) : option (list nat) :=
  '(ddoms, changed) ← idom_round (n - 1) (ddoms, false);
  if changed : bool then match fuel with O => None | S fuel => idom_loop fuel ddoms end else Some ddoms.

#[local] Instance frontier_ltb : Ordered (nat * Z) := fun a b =>
  ((a.1 <? b.1)%nat || ((a.1 =? b.1)%nat && (a.2 <? b.2)%Z)).
Definition frontier_set : Type := list ((nat * Z) * unit).

Fixpoint run_up (fuel : nat) (ddoms : list nat) (i : nat) (lbl : Z) (stop runner : nat) (df : list frontier_set)
    : option (list frontier_set) :=
  if (runner =? stop)%nat then Some df
  else
    match fuel with
    | O => None
    | S fuel =>
        r ← ddoms !! runner;
        run_up fuel ddoms i lbl stop r (alter (M := list frontier_set) (oemplace (i, lbl) tt) runner df)
    end.
Fixpoint frontier_preds (ddoms : list nat) (i : nat) (preds : EdgeEnumerator) (df : list frontier_set) : option (list frontier_set) :=
  match preds with
  | [] => Some df
  | pp :: preds =>
      stop ← ddoms !! i;
      df ← run_up (S n) ddoms i pp.2 stop (position pp.1) df;
      frontier_preds ddoms i preds df
  end.
Fixpoint frontiers (ddoms : list nat) (is_ : list nat) (df : list frontier_set) : option (list frontier_set) :=
  match is_ with
  | [] => Some df
  | i :: is_ =>
      b ← sorted !! i;
      df ← (match ofind b rgraph with
            | Some ((_ :: _ :: _) as preds) => frontier_preds ddoms i preds df
            | _ => Some df
            end);
      frontiers ddoms is_ df
  end.

(** [domf[b]] and its edges. *)
Definition frontier_edges (df : frontier_set) : EdgeEnumerator :=
  omap (fun p => (fun x => (x, p.1.2)) <$> sorted !! p.1.1) df.
Definition collect_frontiers (df : list frontier_set) (domf : EdgeHolder) : EdgeHolder :=
  fold_left (fun domf p => oalter [] (fun xx => xx ++ frontier_edges p.2) p.1 domf) (combine sorted df) domf.
(** [for (i = sorted.size() - 2; i >= 0; --i) children[sorted[ddoms[i]]]...] *)
Fixpoint collect_children (ddoms : list nat) (k : nat) (children : gmap node_t (list node_t)) : option (gmap node_t (list node_t)) :=
  match k with
  | O => Some children
  | S k =>
      parent ← ddoms !! k;
      p ← sorted !! parent;
      c ← sorted !! k;
      collect_children ddoms k (<[p := default [] (children !! p) ++ [c]]> children)
  end.
End frontier.

Definition dom_frontier (fuel : nat) (graph rgraph : EdgeHolder) (start : node_t)
    (children : gmap node_t (list node_t)) (domf : EdgeHolder) : option (gmap node_t (list node_t) * EdgeHolder) :=
  sorted ← topo_sort graph;
  back ← last sorted;
  if decide (back = start) then
    let n := length sorted in
    ddoms ← idom_loop sorted rgraph fuel (replicate (n - 1) n ++ [n - 1]%nat);
    df ← frontiers sorted rgraph ddoms (seq 0 n) (replicate n []);
    children ← collect_children sorted ddoms (n - 1) children;
    Some (children, collect_frontiers sorted df domf)
  else None.
