(* ===== verification/CfgDominatorsFacts.v ===== *)
(** * Theorems on dominators of control-flow graphs: [CfgDominators.v] *)
From S2P Require Import Prelude CfgGraph CfgTraverse CfgDominators.
Local Open Scope flexplan_scope.

(** ** Paths and domination *)
Inductive path_to (g : EdgeHolder) (start : node_t) : list node_t -> node_t -> Prop :=
| path_start : path_to g start [start] start
| path_step l u v : path_to g start l u -> step g u v -> path_to g start (v :: l) v.
(** Every path from [start] to [n] meets [x]. *)
Definition dominates (g : EdgeHolder) (start x n : node_t) : Prop := forall l, path_to g start l n -> x ∈ l.

Lemma cfg_path_reach g start l n : path_to g start l n -> reach g start n.
Proof. induction 1 as [|l u v _ IH Hs]; [done|]. by eapply rtc_r. Qed.

Lemma reach_cfg_path g start n : reach g start n -> exists l, path_to g start l n.
Proof.
  intros Hr. apply (rtc_ind_r (R := step g) (fun n => exists l, path_to g start l n) start); [eexists; by constructor| |done].
  intros u v _ Hs [l Hl]. eexists. by eapply path_step.
Qed.

Section dominators.
Context (g bw : EdgeHolder) (start : node_t) (rank : node_t -> nat).
(** [bw] lists the predecessors; ranks fall along the edges, so the graph has
    no cycle; and nothing outside the reachable part leads into it. *)
Hypothesis Hbw : forall u v, u ∈ (neighbors_or_empty bw v).*1 <-> step g u v.
Hypothesis Hrank : forall u v, step g u v -> (rank v < rank u)%nat.
Hypothesis Hsource : forall u v, reach g start v -> step g u v -> reach g start u.
Implicit Types (d : dominators_t).

Lemma succ_step u v : v ∈ (neighbors_or_empty g u).*1 <-> step g u v.
Proof.
  rewrite list_elem_of_fmap. unfold step, edge. split.
  - intros ([v' l] & -> & Hin). by exists l.
  - intros [l Hl]. by exists (v, l).
Qed.

Lemma rank_reach n : reach g start n -> (rank n <= rank start)%nat.
Proof.
  intros Hr. apply (rtc_ind_r (R := step g) (fun n => (rank n <= rank start)%nat) start); [lia| |done].
  intros u v _ Hs. apply Hrank in Hs. lia.
Qed.

Lemma start_source u : ~ step g u start.
Proof. intros Hs. pose proof (Hsource u start (rtc_refl _ _) Hs) as Hr. apply rank_reach in Hr. apply Hrank in Hs. lia. Qed.

(** *** The iteration ends *)
(** The number of paths from a node. *)
Inductive weight : node_t -> nat -> Prop :=
| weight_intro n ws : Forall2 weight (neighbors_or_empty g n).*1 ws -> weight n (S (sum_list ws)).

Lemma weight_total n : exists w, weight n w.
Proof.
  remember (rank n) as r eqn:Er. revert n Er. induction (lt_wf r) as [r _ IH]. intros n ->.
  assert (exists ws, Forall2 weight (neighbors_or_empty g n).*1 ws) as [ws Hws]; [|eexists; by constructor].
  assert (Hs : forall v, v ∈ (neighbors_or_empty g n).*1 -> exists w, weight v w).
  { intros v Hv%succ_step. eapply IH; [by apply Hrank|done]. }
  induction (neighbors_or_empty g n).*1 as [|v l IHl]; [by exists []|].
  destruct (Hs v ltac:(by left)) as [w Hw]. destruct IHl as [ws Hws]; [intros; apply Hs; by right|]. exists (w :: ws). by constructor.
Qed.

Lemma weights_app l1 l2 ws1 ws2 : Forall2 weight l1 ws1 -> Forall2 weight l2 ws2 ->
  exists ws, Forall2 weight (rev l1 ++ l2) ws /\ sum_list ws = (sum_list ws1 + sum_list ws2)%nat.
Proof.
  intros H. revert l2 ws2. induction H as [|v w l1 ws1 Hv _ IH]; intros l2 ws2 H2; [by exists ws2|]. simpl.
  destruct (IH (v :: l2) (w :: ws2)) as (ws & Hws & Hs); [by constructor|]. exists ws. rewrite <- app_assoc. split; [done|]. rewrite Hs. simpl. lia.
Qed.

(** *** One step *)
Lemma meet_preds_ext d d' preds all s : (forall p, p ∈ preds.*1 -> ofind p d = ofind p d') ->
  meet_preds d preds all s = meet_preds d' preds all s.
Proof.
  revert all s. induction preds as [|p preds IH]; intros all s Hd; [done|]. cbn [meet_preds].
  destruct (_ && _); [done|]. rewrite (Hd p.1) by (by left). destruct (ofind p.1 d'); apply IH; intros q Hq; apply Hd; by right.
Qed.

(** What the step computes for [n], and the entry it leaves. *)
Definition meet_at d (n : node_t) : bool * gset node_t :=
  match ofind n bw with
  | None | Some [] => (false, ∅)
  | Some preds => meet_preds d preds true ∅
  end.
Definition new_entry d (n : node_t) : option (gset node_t) :=
  let '(all, s) := meet_at d n in if all then None else Some ({[ n ]} ∪ s).

Lemma dominators_step_ok d n : let '(d', t) := dominators_step bw n d in
  ofind n d' = new_entry d n /\ (forall k, k <> n -> ofind k d' = ofind k d) /\ (t = false <-> ofind n d = new_entry d n) /\ (t = false -> d' = d).
Proof.
  unfold dominators_step, new_entry. change (match ofind n bw with None | Some [] => (false, ∅) | Some preds => meet_preds d preds true ∅ end) with (meet_at d n).
  destruct (meet_at d n) as [all s]. destruct (ofind n d) as [old|] eqn:E; destruct all; cbv zeta.
  - split; [rewrite ofind_oerase; by rewrite decide_True|]. split; [intros k Hk; rewrite ofind_oerase; by rewrite decide_False|]. done.
  - case_bool_decide as Heq; [subst; done|]. split; [apply ofind_oput_eq|]. split; [intros k Hk; by apply ofind_oput_ne|].
    split; [|done]. split; [done|]. intros [= ->]. done.
  - done.
  - split; [apply ofind_oput_eq|]. split; [intros k Hk; by apply ofind_oput_ne|]. done.
Qed.

Lemma new_entry_ext d d' n : (forall p, step g p n -> ofind p d = ofind p d') -> new_entry d n = new_entry d' n.
Proof.
  intros Hd. unfold new_entry, meet_at. destruct (ofind n bw) as [[|p preds]|] eqn:E; [done| |done].
  rewrite (meet_preds_ext d d'); [done|]. intros q Hq. apply Hd, Hbw. unfold neighbors_or_empty. by rewrite E.
Qed.

(** *** The worklist *)
Record work_ok (worklist : list node_t) d : Prop := {
  wk_reach n : n ∈ worklist -> reach g start n;
  wk_entry n s : ofind n d = Some s -> reach g start n;
  wk_done n : reach g start n -> n ∈ worklist \/ ofind n d = new_entry d n }.

Lemma compute_dominators_loop_ok fuel : forall worklist d ws, work_ok worklist d -> Forall2 weight worklist ws -> (sum_list ws <= fuel)%nat ->
  exists d', compute_dominators_loop fuel g bw worklist d = Some d' /\ work_ok [] d'.
Proof.
  induction fuel as [|fuel IH]; intros worklist d ws Hok Hws Hf; (destruct Hws as [|n w worklist ws Hw Hws]; [by exists d|]);
    destruct Hw as [n ws1 Hws1]; simpl in Hf; [lia|]. cbn [compute_dominators_loop].
  pose proof (dominators_step_ok d n) as Hstep. destruct (dominators_step bw n d) as [d1 t] eqn:Est. destruct Hstep as (He & Hother & Ht & Hsame).
  destruct Hok as [W1 W2 W3]. assert (Hn : reach g start n) by (apply W1; by left).
  assert (Hentry : forall k s, ofind k d1 = Some s -> reach g start k).
  { intros k s Hk. destruct (decide (k = n)) as [->|]; [done|]. rewrite Hother in Hk by done. by eapply W2. }
  destruct t.
  - destruct (weights_app _ _ _ _ Hws1 Hws) as (ws' & Hws' & Hsum). eapply IH; [|exact Hws'|lia]. split.
    + intros k [Hk|Hk]%elem_of_app; [|apply W1; by right]. rewrite list_elem_of_In, <- in_rev, <- list_elem_of_In in Hk.
      apply succ_step in Hk. by eapply rtc_r.
    + done.
    + intros k Hk. destruct (decide (k ∈ (neighbors_or_empty g n).*1)) as [Hs|Hs].
      * left. apply elem_of_app. left. by rewrite list_elem_of_In, <- in_rev, <- list_elem_of_In.
      * assert (Hpre : new_entry d1 k = new_entry d k).
        { apply new_entry_ext. intros p Hp. apply Hother. intros ->. by apply Hs, succ_step. }
        destruct (decide (k = n)) as [->|Hne]; [right; by rewrite He, Hpre|].
        destruct (W3 k Hk) as [[->|Hin]%elem_of_cons|Hd]; [done|left; apply elem_of_app; by right|]. right. by rewrite Hother, Hpre.
  - rewrite (Hsame eq_refl). eapply IH; [|exact Hws|lia]. split.
    + intros k Hk. apply W1. by right.
    + done.
    + intros k Hk. destruct (decide (k = n)) as [->|]; [right; by apply Ht|].
      destruct (W3 k Hk) as [[->|Hin]%elem_of_cons|Hd]; [done|by left|by right].
Qed.

(** *** The result *)
Lemma meet_preds_all d preds : (forall p, p ∈ preds.*1 -> is_Some (ofind p d)) -> forall all s, (all = true -> preds <> []) ->
  exists s', meet_preds d preds all s = (false, s') /\
  forall x, x ∈ s' <-> (all = true \/ x ∈ s) /\ forall p e, p ∈ preds.*1 -> ofind p d = Some e -> x ∈ e.
Proof.
  induction preds as [|p preds IH]; intros Hd all s Hall; cbn [meet_preds].
  - destruct all; [by destruct Hall|]. exists s. split; [done|]. intros x. split; [|intros [[|] _]; done].
    intros Hx. split; [by right|]. intros q e Hq. by apply elem_of_nil in Hq.
  - destruct (negb all && bool_decide (s = ∅)) eqn:E.
    + apply andb_true_iff in E as [E1 ->%bool_decide_eq_true_1]. destruct all; [done|]. exists ∅. split; [done|]. set_solver.
    + destruct (Hd p.1 ltac:(by left)) as [e He]. rewrite He.
      destruct (IH ltac:(intros q Hq; apply Hd; by right) false (if all then e else e ∩ s) ltac:(done)) as (s' & -> & Hs').
      exists s'. split; [done|]. intros x. rewrite Hs'. cbn [fmap list_fmap]. split.
      * intros [[|Hx] Hq]; [done|]. split; [destruct all; [by left|right; set_solver]|].
        intros q e' [->|Hin]%elem_of_cons Hf; [|by eapply Hq]. rewrite He in Hf. injection Hf as <-. destruct all; set_solver.
      * intros [Hx Hq]. split; [|intros q e' Hin; apply Hq; by right]. right.
        pose proof (Hq p.1 e ltac:(by left) He). destruct all; [done|]. destruct Hx as [|Hx]; [done|]. set_solver.
Qed.

Lemma dominates_start x : dominates g start x start <-> x = start.
Proof.
  split; [intros Hd; specialize (Hd [start] (path_start _ _)); by apply list_elem_of_singleton in Hd|].
  intros -> l Hl. destruct Hl; by left.
Qed.

Lemma dominates_step x n : n <> start ->
  dominates g start x n <-> x = n \/ forall p, step g p n -> dominates g start x p.
Proof.
  intros Hne. split.
  - intros Hd. destruct (decide (x = n)) as [|Hxn]; [by left|right]. intros p Hp l Hl.
    specialize (Hd (n :: l) (path_step _ _ _ _ _ Hl Hp)). by apply elem_of_cons in Hd as [|].
  - intros Hd l Hl. inversion Hl as [|l' u v Hl' Hs]; subst; [done|]. destruct Hd as [->|Hd]; [by left|]. right. by eapply Hd.
Qed.

Lemma work_done d : work_ok [] d -> forall n, reach g start n -> exists s, ofind n d = Some s /\ forall x, x ∈ s <-> dominates g start x n.
Proof.
  intros [_ _ W3] n. remember (rank start - rank n)%nat as r eqn:Er. revert n Er. induction (lt_wf r) as [r _ IH]. intros n -> Hn.
  destruct (W3 n Hn) as [Hin|He]; [by apply elem_of_nil in Hin|]. rewrite He. unfold new_entry, meet_at.
  destruct (decide (n = start)) as [->|Hne].
  - destruct (ofind start bw) as [[|p preds]|] eqn:E.
    + eexists. split; [done|]. intros x. rewrite dominates_start. set_solver.
    + exfalso. apply (start_source p.1), Hbw. unfold neighbors_or_empty. rewrite E. by left.
    + eexists. split; [done|]. intros x. rewrite dominates_start. set_solver.
  - assert (Hpreds : exists preds, ofind n bw = Some preds /\ preds <> []).
    { apply rtc_inv_r in Hn as Hn'. destruct Hn' as [|(p & _ & Hs)]; [done|]. apply Hbw in Hs. unfold neighbors_or_empty in Hs.
      destruct (ofind n bw) as [preds|]; [|by apply elem_of_nil in Hs]. exists preds. split; [done|]. intros ->. by apply elem_of_nil in Hs. }
    destruct Hpreds as (preds & E & Hnil). destruct preds as [|p0 preds0] eqn:Ep; [done|]. rewrite E. rewrite <- Ep in *. clear Ep.
    assert (Hstep : forall p, p ∈ preds.*1 <-> step g p n) by (intros p; rewrite <- Hbw; unfold neighbors_or_empty; by rewrite E).
    assert (Hdom : forall p, step g p n -> exists s, ofind p d = Some s /\ forall x, x ∈ s <-> dominates g start x p).
    { intros p Hp. pose proof (Hsource p n Hn Hp) as Hr. eapply (IH (rank start - rank p)%nat); [|done|done].
      apply Hrank in Hp. apply rank_reach in Hr. lia. }
    destruct (meet_preds_all d preds) with (all := true) (s := ∅ : gset node_t) as (s' & -> & Hs').
    { intros p Hp%Hstep. destruct (Hdom p Hp) as (s & -> & _). by eexists. }
    { done. }
    eexists. split; [done|]. intros x. rewrite dominates_step, elem_of_union, elem_of_singleton, Hs' by done. split.
    + intros [->|[_ Hx]]; [by left|right]. intros p Hp. destruct (Hdom p Hp) as (s & Es & Hs). apply Hs. eapply Hx; [by apply Hstep|done].
    + intros [->|Hx]; [by left|right]. split; [by left|]. intros p e Hp%Hstep Ee. destruct (Hdom p Hp) as (s & Es & Hs).
      rewrite Ee in Es. injection Es as <-. by apply Hs, Hx.
Qed.

Lemma compute_dominators_ok : exists fuel0, forall fuel, (fuel0 <= fuel)%nat -> exists d, compute_dominators fuel g bw start [] = Some d /\
  (forall n, reach g start n -> exists s, ofind n d = Some s /\ forall x, x ∈ s <-> dominates g start x n) /\
  (forall n s, ofind n d = Some s -> reach g start n).
Proof.
  destruct (weight_total start) as [w Hw]. exists (sum_list [w]). intros fuel Hf.
  destruct (compute_dominators_loop_ok fuel [start] [] [w]) as (d & Hd & Hok); [|by repeat constructor|done|].
  - split; [by intros n ->%list_elem_of_singleton|done|]. intros n Hn.
    destruct (decide (n = start)) as [->|Hne]; [left; by left|right]. unfold new_entry, meet_at. simpl.
    apply rtc_inv_r in Hn as [|(p & _ & Hs)]; [done|]. apply Hbw in Hs. unfold neighbors_or_empty in Hs.
    destruct (ofind n bw) as [preds|]; [|by apply elem_of_nil in Hs]. destruct preds as [|p0 preds]; [by apply elem_of_nil in Hs|].
    assert (Hm : forall ps s, meet_preds [] ps true s = (true, if ps is [] then s else ∅)).
    { intros ps. induction ps as [|q ps IHp]; intros s; [done|]. cbn [meet_preds negb andb ofind]. rewrite IHp. by destruct ps. }
    by rewrite Hm.
  - exists d. split; [done|]. split; [by apply work_done|]. apply Hok.
Qed.
End dominators.


Lemma diamond_acyclic : acyclic diamond.
Proof.
  intros a b Hs Hr. apply diamond_edges in Hs. assert (Hle : (node b <= node a)%Z); [|lia]. clear Hs.
  induction Hr as [|x y z Hxy Hyz IH]; [lia|]. apply diamond_edges in Hxy. lia.
Qed.
Lemma diamond_source u v : reach diamond (nd 1) v -> step diamond u v -> reach diamond (nd 1) u.
Proof.
  intros _ Hs%step_okeys. change (okeys diamond) with [nd 1; nd 2; nd 3] in Hs.
  rewrite !elem_of_cons, elem_of_nil in Hs. destruct Hs as [->|[->|[->|[]]]]; [apply rtc_refl|..]; apply rtc_once.
  - exists 1%Z. apply (bool_decide_eq_true_1 ((nd 2, 1%Z) ∈ neighbors_or_empty diamond (nd 1))). by vm_compute.
  - exists 0%Z. apply (bool_decide_eq_true_1 ((nd 3, 0%Z) ∈ neighbors_or_empty diamond (nd 1))). by vm_compute.
Qed.


(** ** Cycles *)
(** A predecessor without an entry that is met after one with an entry empties
    the intersection: on 0 -> 1 -> 2 -> 1 the entry of 1 lacks its dominator
    0, and nothing puts it back. *)
Example compute_dominators_cycle :
  let g := [(nd 0, [(nd 1, 0%Z)]); (nd 1, [(nd 2, 0%Z)]); (nd 2, [(nd 1, 0%Z)])] in
  (compute_dominators 20 g (reverse g) (nd 0) [] ≫= ofind (nd 1)) = Some {[ nd 1 ]} /\
  dominates g (nd 0) (nd 0) (nd 1).
Proof.
  split; [vm_compute; reflexivity|]. intros l Hl. induction Hl as [|l u v _ IH Hs]; [by left|by right].
Qed.

(** [compute_cdg] compares past the end of the ancestor lists when one node of
    the edge is an ancestor of the other. *)
Example compute_cdg_overrun :
  let g := [(nd 1, [(nd 2, 0%Z)]); (nd 2, [(nd 3, 0%Z); (nd 4, 0%Z)]); (nd 3, [(nd 2, 0%Z)])] in
  compute_cdg 50 g (reverse g) ∅ = None.
Proof. by vm_compute. Qed.

(** [dom_frontier] starts from the first predecessor even when it has no
    dominator yet; on 5 -> 1, 0 <-> 1 with the nodes sorted as 1, 0, 5 the round
    climbs from 5, which is its own dominator, towards the unset value 3, and
    never ends. *)
Example dom_frontier_diverges :
  let g := [(nd 0, [(nd 1, 0%Z)]); (nd 1, [(nd 0, 0%Z)]); (nd 5, [(nd 1, 0%Z)])] in
  let sorted := [nd 1; nd 0; nd 5] in
  topo_sort g = Some sorted /\
  idom_step sorted (reverse g) 1 ([3; 3; 2], false)%nat = Some ([3; 0; 2], true)%nat /\
  idom_step sorted (reverse g) 0 ([3; 0; 2], true)%nat = None /\
  forall fuel, climb_below fuel [3; 0; 2]%nat 2 3 = None.
Proof.
  split; [by vm_compute|]. split; [by vm_compute|]. split; [by vm_compute|].
  intros fuel. induction fuel as [|fuel IH]; [done|]. exact IH.
Qed.
