(* ===== verification/CallGraph.v ===== *)
(** * Call graphs: [frontends/p4/callGraph.h]

    The ordered multigraph [CallGraph<T>] with its edge lists kept in both
    directions, and the algorithms on it: reachability, dominators, natural
    loops and Tarjan's strongly connected components.  [ordered_map] and
    [ordered_set] keep insertion order; [std::set]s and [std::map]s that are
    only asked for membership are [gset]s and [gmap]s.  Erasing [end()] and
    popping an empty vector are undefined and abort. *)
From S2P Require Import Prelude.
Local Open Scope flexplan_scope.

Section callgraph.
Context {T : Type} `{Countable T} {ord : Ordered T}.

Record CallGraph := {
  out_edges : list (T * list T);
  in_edges : list (T * list T);
  nodes : list T
}.

(** [ordered_map::operator[]=]: a new key goes to the end. *)
Definition iput (k : T) (v : list T) (m : list (T * list T)) : list (T * list T) :=
  match ofind k m with
  | Some _ => oreplace k v m
  | None => m ++ [(k, v)]
  end.

Definition empty_graph : CallGraph := {| out_edges := []; in_edges := []; nodes := [] |}.

(** ** Construction *)
Definition add (caller : T) (g : CallGraph) : CallGraph :=
  if bool_decide (caller ∈ nodes g) then g
  else {| out_edges := iput caller [] (out_edges g);
          in_edges := iput caller [] (in_edges g);
          nodes := nodes g ++ [caller] |}.

(** [m[k]->push_back(x)]; [None]: the pointer is null. *)
Definition push_back (k x : T) (m : list (T * list T)) : option (list (T * list T)) :=
  (fun l => oreplace k (l ++ [x]) m) <$> ofind k m.

Definition calls (caller callee : T) (g : CallGraph) : outcome CallGraph :=
  let g := add callee (add caller g) in
  match push_back caller callee (out_edges g), push_back callee caller (in_edges g) with
  | Some o, Some i => oret {| out_edges := o; in_edges := i; nodes := nodes g |}
  | _, _ => Aborted "null pointer"
  end.

(** [l.erase(std::find(l.begin(), l.end(), x))] *)
Fixpoint erase_first (x : T) (l : list T) : option (list T) :=
  match l with
  | [] => None
  | y :: l => if decide (x = y) then Some l else cons y <$> erase_first x l
  end.

(** For every [n] of [ns], erase [node] from the list of [n]. *)
Fixpoint erase_from (node : T) (ns : list T) (m : list (T * list T)) : outcome (list (T * list T)) :=
  match ns with
  | [] => oret m
  | n :: ns =>
      match ofind n m with
      | None => Aborted "null pointer"
      | Some l =>
          match erase_first node l with
          | None => Aborted "erase(end())"
          | Some l => erase_from node ns (oreplace n l m)
          end
      end
  end.

Definition remove (node : T) (g : CallGraph) : outcome CallGraph :=
  if bool_decide (node ∈ nodes g) then
    let nodes' := List.filter (fun n => negb (bool_decide (n = node))) (nodes g) in
    do oi <- match ofind node (in_edges g) with
             | Some callers =>
                 do o <- erase_from node callers (out_edges g);
                 oret (o, oerase node (in_edges g))
             | None => oret (out_edges g, in_edges g)
             end;
    do oi <- match ofind node (oi.1) with
             | Some callees =>
                 do i <- erase_from node callees (oi.2);
                 oret (oerase node (oi.1), i)
             | None => oret oi
             end;
    oret {| out_edges := oi.1; in_edges := oi.2; nodes := nodes' |}
  else Aborted "Node not in graph".

(** ** Queries *)
Definition isCallee (g : CallGraph) (callee : T) : bool :=
  match ofind callee (in_edges g) with Some (_ :: _) => true | _ => false end.
Definition isCaller (g : CallGraph) (caller : T) : bool :=
  match ofind caller (out_edges g) with Some (_ :: _) => true | _ => false end.
Definition callees (g : CallGraph) (caller : T) : list T := default [] (ofind caller (out_edges g)).
Definition callers (g : CallGraph) (callee : T) : list T := default [] (ofind callee (in_edges g)).
(** [getCallees(caller, toAppend)] *)
Definition getCallees (g : CallGraph) (caller : T) (toAppend : gset T) : gset T :=
  if isCaller g caller then list_to_set (callees g caller) ∪ toAppend else toAppend.
Definition size_ (g : CallGraph) : nat := length (nodes g).

(** [reachable]: the worklist is a [std::set], its least element goes
    first. *)
Definition insert_all (l : list T) (work : list (T * unit)) : list (T * unit) :=
  fold_left (fun work c => oemplace c tt work) l work.
Fixpoint reachable_loop (fuel : nat) (g : CallGraph) (work : list (T * unit)) (out : gset T)
    : option (gset T) :=
  match work with
  | [] => Some out
  | (node, _) :: _ =>
      match fuel with
      | O => None
      | S fuel =>
          let work := oerase node work in
          if bool_decide (node ∈ out) then reachable_loop fuel g work out
          else
            let out := {[ node ]} ∪ out in
            match ofind node (out_edges g) with
            | None => reachable_loop fuel g work out
            | Some l => reachable_loop fuel g (insert_all l work) out
            end
      end
  end.
(** Every edge adds at most one entry to the worklist. *)
Definition reachable (g : CallGraph) (start : T) (out : gset T) : option (gset T) :=
  reachable_loop (S (length (flat_map snd (out_edges g)))) g [(start, tt)] out.

Fixpoint remove_all (l : list T) (g : CallGraph) : outcome CallGraph :=
  match l with
  | [] => oret g
  | n :: l => do g <- remove n g; remove_all l g
  end.
Definition restrict (to : gset T) (g : CallGraph) : outcome CallGraph :=
  remove_all (List.filter (fun n => negb (bool_decide (n ∈ to))) (nodes g)) g.

(** ** Dominators *)
(** [insersectWith]: the elements to remove first, then their removal. *)
Definition insersectWith (set with_ : gset T) : gset T :=
  fold_left (fun set e => set ∖ {[ e ]})
    (List.filter (fun e => negb (bool_decide (e ∈ with_))) (elements set)) set.

Definition doms (d : gmap T (gset T)) (n : T) : gset T := default ∅ (d !! n).

Definition dominators_init (start : T) (ns : list T) (all : list T) (d : gmap T (gset T))
    : gmap T (gset T) :=
  fold_left (fun d n =>
    if decide (n = start) then <[n := {[ start ]} ∪ doms d n]> d
    else <[n := list_to_set all ∪ doms d n]> d) ns d.

Definition dominators_node (g : CallGraph) (node : T) (st : gmap T (gset T) * bool)
    : gmap T (gset T) * bool :=
  match ofind node (in_edges g) with
  | None => st
  | Some vec =>
      let '(d, changes) := st in
      let size0 := size (doms d node) in
      let d := fold_left (fun d c => <[node := insersectWith (doms d node) (doms d c)]> d) vec d in
      let d := <[node := {[ node ]} ∪ doms d node]> d in
      (d, if Nat.eqb (size (doms d node)) size0 then changes else true)
  end.

Definition dominators_round (g : CallGraph) (d : gmap T (gset T)) : gmap T (gset T) * bool :=
  fold_left (fun st node => dominators_node g node st) (nodes g) (d, false).

Fixpoint dominators_loop (fuel : nat) (g : CallGraph) (d : gmap T (gset T)) : option (gmap T (gset T)) :=
  match fuel with
  | O => None
  | S fuel =>
      let '(d, changes) := dominators_round g d in
      if changes : bool then dominators_loop fuel g d else Some d
  end.
(** A round with changes drops at least one of the at most [n * n]
    elements. *)
Definition dominators (g : CallGraph) (start : T) : option (gmap T (gset T)) :=
  dominators_loop (S (size_ g * size_ g)) g (dominators_init start (nodes g) (nodes g) ∅).

(** ** Natural loops *)
Record Loop := { entry : T; body : gset T; back_edge_heads : gset T }.

Fixpoint isLoopEntryPoint_from (i : Z) (ls : list Loop) (node : T) : Z :=
  match ls with
  | [] => -1
  | l :: ls => if decide (entry l = node) then i else isLoopEntryPoint_from (i + 1) ls node
  end.
Definition isLoopEntryPoint (loops : list Loop) (node : T) : Z := isLoopEntryPoint_from 0 loops node.
(** [loops.at] throws out of range. *)
Definition isInLoop (loops : list Loop) (loopIndex : Z) (node : T) : outcome bool :=
  if (loopIndex =? -1)%Z then oret false
  else if (loopIndex <? 0)%Z then Aborted "std::out_of_range"
  else match loops !! Z.to_nat loopIndex with
       | Some l => oret (bool_decide (node ∈ body l))
       | None => Aborted "std::out_of_range"
       end.

(** The reverse walk from a back edge's source to the loop entry [n]. *)
Fixpoint loop_body (fuel : nat) (g : CallGraph) (n : T) (work : list (T * unit)) (body : gset T)
    : option (gset T) :=
  match work with
  | [] => Some body
  | (crt, _) :: _ =>
      match fuel with
      | O => None
      | S fuel =>
          let work := oerase crt work in
          let body := {[ crt ]} ∪ body in
          if decide (crt = n) then loop_body fuel g n work body
          else loop_body fuel g n
                 (fold_left (fun work i => if bool_decide (i ∈ body) then work else oemplace i tt work)
                    (callers g crt) work) body
      end
  end.

(** [e -> n] is a back edge.  [entryToLoop] maps an entry to the index of
    its loop. *)
Definition back_edge (g : CallGraph) (e n : T) (st : list Loop * gmap T nat) : option (list Loop * gmap T nat) :=
  let '(loops, entryToLoop) :=
    match st.2 !! n with
    | Some _ => st
    | None => (st.1 ++ [{| entry := n; body := ∅; back_edge_heads := ∅ |}], <[n := length st.1]> st.2)
    end in
  match entryToLoop !! n with
  | None => None
  | Some i =>
      match loops !! i with
      | None => None
      | Some l =>
          b ← loop_body (S (S (size_ g))) g n [(e, tt)] (body l);
          Some (<[i := {| entry := entry l; body := b; back_edge_heads := {[ e ]} ∪ back_edge_heads l |}]> loops,
                entryToLoop)
      end
  end.

Fixpoint loops_edges (g : CallGraph) (dome : gset T) (e : T) (next : list T) (st : list Loop * gmap T nat)
    : option (list Loop * gmap T nat) :=
  match next with
  | [] => Some st
  | n :: next =>
      if bool_decide (n ∈ dome) then st ← back_edge g e n st; loops_edges g dome e next st
      else loops_edges g dome e next st
  end.

Fixpoint loops_nodes (g : CallGraph) (dom : gmap T (gset T)) (ns : list T) (st : list Loop * gmap T nat)
    : option (list Loop * gmap T nat) :=
  match ns with
  | [] => Some st
  | e :: ns => st ← loops_edges g (doms dom e) e (callees g e) st; loops_nodes g dom ns st
  end.

Definition compute_loops (g : CallGraph) (start : T) : option (list Loop) :=
  dom ← dominators g start;
  fst <$> loops_nodes g dom (nodes g) ([], ∅).

(** ** Strongly connected components *)
(** [out] is the caller's vector; the stack has its top first. *)
Record sccInfo := {
  crtIndex : Z;
  stack : list T;
  onStack : gset T;
  index : gmap T Z;
  lowlink : gmap T Z;
  sccs : list (gset T);
  out : list T
}.

Definition scc0 (o : list T) : sccInfo :=
  {| crtIndex := 0; stack := []; onStack := ∅; index := ∅; lowlink := ∅; sccs := []; out := o |}.

Definition set_lowlink (n : T) (v : Z) (h : sccInfo) : sccInfo :=
  {| crtIndex := crtIndex h; stack := stack h; onStack := onStack h; index := index h;
     lowlink := <[n := v]> (lowlink h); sccs := sccs h; out := out h |}.
(** [setLowLink(node, successor)] *)
Definition setLowLink (node successor : T) (h : sccInfo) : sccInfo :=
  let nlink := default 0%Z (lowlink h !! node) in
  let slink := default 0%Z (lowlink h !! successor) in
  if (slink <? nlink)%Z then set_lowlink node slink h else h.

(** The first statements of [strongConnect]; [crtIndex] is unsigned. *)
Definition scc_enter (node : T) (h : sccInfo) : sccInfo :=
  {| crtIndex := wrapu 32 (crtIndex h + 1); stack := node :: stack h; onStack := {[ node ]} ∪ onStack h;
     index := match index h !! node with Some _ => index h | None => <[node := crtIndex h]> (index h) end;
     lowlink := <[node := crtIndex h]> (lowlink h); sccs := sccs h; out := out h |}.

(** The popping loop: the members in the order they leave the stack. *)
Fixpoint pop_until (node : T) (stk : list T) : option (list T * list T) :=
  match stk with
  | [] => None
  | x :: stk =>
      if decide (x = node) then Some ([x], stk)
      else '(members, rest) ← pop_until node stk; Some (x :: members, rest)
  end.

Definition scc_pop (node : T) (h : sccInfo) : option (bool * sccInfo) :=
  '(members, rest) ← pop_until node (stack h);
  Some ((1 <? length members)%nat,
    {| crtIndex := crtIndex h; stack := rest; onStack := onStack h ∖ list_to_set members;
       index := index h; lowlink := lowlink h; sccs := sccs h ++ [list_to_set members];
       out := out h ++ members |}).

Definition scc_neighbours (rec : T -> sccInfo -> option (bool * sccInfo)) (node : T)
    : list T -> bool -> sccInfo -> option (bool * sccInfo) :=
  fix go l loop h :=
    match l with
    | [] => Some (loop, h)
    | next :: l =>
        match index h !! next with
        | None =>
            '(l1, h) ← rec next h;
            go l (loop || l1) (setLowLink node next h)
        | Some _ =>
            if bool_decide (next ∈ onStack h) then
              go l (if decide (next = node) then true else loop) (setLowLink node next h)
            else go l loop h
        end
    end.

Fixpoint strongConnect (fuel : nat) (g : CallGraph) (node : T) (h : sccInfo) : option (bool * sccInfo) :=
  match fuel with
  | O => None
  | S fuel =>
      '(loop, h) ← scc_neighbours (strongConnect fuel g) node (callees g node) false (scc_enter node h);
      if (default 0 (lowlink h !! node) =? default 0 (index h !! node))%Z then
        '(l, h) ← scc_pop node h; Some (loop || l, h)
      else Some (loop, h)
  end.

Definition scc_fuel (g : CallGraph) : nat := S (S (length (flat_map snd (out_edges g)))).
Definition sccSort (g : CallGraph) (start : T) (o : list T) : option (bool * list T * list (gset T)) :=
  '(b, h) ← strongConnect (scc_fuel g) g start (scc0 o); Some (b, out h, sccs h).

Fixpoint sort_loop (g : CallGraph) (starts : list T) (cycles : bool) (h : sccInfo) : option (bool * sccInfo) :=
  match starts with
  | [] => Some (cycles, h)
  | n :: starts =>
      if bool_decide (n ∈ out h) then sort_loop g starts cycles h
      else '(c, h) ← strongConnect (scc_fuel g) g n h; sort_loop g starts (cycles || c) h
  end.
Definition sort_from (g : CallGraph) (start : list T) (o : list T) : option (bool * list T) :=
  '(b, h) ← sort_loop g start false (scc0 o); Some (b, out h).
Definition sort (g : CallGraph) (o : list T) : option (bool * list T) := sort_from g (nodes g) o.
End callgraph.
Arguments CallGraph : clear implicits.
Arguments Loop T {_ _}.
Arguments sccInfo T {_ _}.
