(* ===== verification/CallGraphFacts.v ===== *)
(** * Theorems on call graphs: [CallGraph.v]

    The well-formedness of the two edge maps, the effect of every update on
    the edges, and the specifications of reachability, dominators, natural
    loops and strongly connected components. *)
From S2P Require Import Prelude CallGraph.
Local Open Scope flexplan_scope.

Section wf.
Context {T : Type} `{Countable T} {ord : Ordered T}.
Implicit Types (g : CallGraph T) (m : list (T * list T)) (l : list T).

(** How often [x] occurs in [l]. *)
Definition count (x : T) l : nat := count_occ (fun a b => decide (a = b)) l x.
Arguments count : simpl never.
Definition entries m (n : T) : list T := default [] (ofind n m).

Lemma callees_entries g n : callees g n = entries (out_edges g) n.
Proof. done. Qed.
Lemma callers_entries g n : callers g n = entries (in_edges g) n.
Proof. done. Qed.

(** The three parts list the same nodes, and every edge is recorded on both
    sides equally often. *)
Record wf g : Prop := {
  wf_nodup : NoDup (nodes g);
  wf_out : okeys (out_edges g) = nodes g;
  wf_in : okeys (in_edges g) = nodes g;
  wf_count : forall a b, count b (callees g a) = count a (callers g b)
}.

Definition calls_edge g (a b : T) : Prop := b ∈ callees g a.

Lemma count_elem x l : x ∈ l <-> (0 < count x l)%nat.
Proof. rewrite list_elem_of_In. apply count_occ_In. Qed.

Lemma count_app x l1 l2 : count x (l1 ++ l2) = (count x l1 + count x l2)%nat.
Proof. apply count_occ_app. Qed.

Lemma count_cons x y l : count x (y :: l) = ((if decide (x = y) then 1 else 0) + count x l)%nat.
Proof. unfold count. simpl. repeat case_decide; simplify_eq; done. Qed.

Lemma count_if (a b x y : T) :
  count y (if decide (x = a) then [b] else []) = if decide (x = a /\ y = b) then 1%nat else 0%nat.
Proof.
  destruct (decide (x = a)) as [->|]; [|by rewrite decide_False by tauto].
  rewrite count_cons. simpl. destruct (decide (y = b)); [by rewrite decide_True by tauto|].
  by rewrite decide_False by tauto.
Qed.

Lemma callers_elem g a b : wf g -> a ∈ callers g b <-> calls_edge g a b.
Proof. intros Hw. unfold calls_edge. by rewrite !count_elem, (wf_count g Hw). Qed.

Lemma entries_key m n x : x ∈ entries m n -> n ∈ okeys m.
Proof.
  unfold entries. intros Hx. apply ofind_is_Some. destruct (ofind n m); [by eexists|].
  by apply elem_of_nil in Hx.
Qed.

Lemma calls_edge_nodes g a b : wf g -> calls_edge g a b -> a ∈ nodes g /\ b ∈ nodes g.
Proof.
  intros Hw He. split.
  - rewrite <- (wf_out g Hw). by eapply entries_key.
  - rewrite <- (wf_in g Hw). apply (callers_elem g a b Hw) in He. by eapply entries_key.
Qed.

Lemma entries_oreplace m k v n :
  k ∈ okeys m -> entries (oreplace k v m) n = if decide (n = k) then v else entries m n.
Proof.
  intros Hk. unfold entries. rewrite ofind_oreplace. apply ofind_is_Some in Hk as [w Hk].
  case_decide; [by rewrite Hk|done].
Qed.

Lemma ofind_app (m1 m2 : list (T * list T)) k :
  ofind k (m1 ++ m2) = match ofind k m1 with Some v => Some v | None => ofind k m2 end.
Proof. induction m1 as [|[k' v] m1 IH]; simpl; [done|]. by case_decide. Qed.

Lemma ofind_iput k v m n : ofind n (iput k v m) = if decide (n = k) then Some v else ofind n m.
Proof.
  unfold iput. destruct (ofind k m) eqn:E.
  - rewrite ofind_oreplace, E. done.
  - rewrite ofind_app. simpl. destruct (decide (n = k)) as [->|]; [by rewrite E|].
    by destruct (ofind n m).
Qed.

Lemma okeys_iput_new k v m : k ∉ okeys m -> okeys (iput k v m) = okeys m ++ [k].
Proof.
  intros Hk. unfold iput. apply ofind_None_keys in Hk as ->. unfold okeys. by rewrite fmap_app.
Qed.

Lemma entries_iput_nil k m n : k ∉ okeys m -> entries (iput k [] m) n = entries m n.
Proof.
  intros Hk. unfold entries. rewrite ofind_iput. case_decide; [subst|done].
  by apply ofind_None_keys in Hk as ->.
Qed.

Lemma wf_empty : wf empty_graph.
Proof. split; try done. constructor. Qed.

Lemma add_callees g n a : wf g -> callees (add n g) a = callees g a /\ callers (add n g) a = callers g a.
Proof.
  intros Hw. unfold add. case_bool_decide as Hn; [done|].
  rewrite !callees_entries, !callers_entries. simpl.
  rewrite !entries_iput_nil; rewrite ?(wf_out g Hw), ?(wf_in g Hw); done.
Qed.

Lemma add_nodes g n a : a ∈ nodes (add n g) <-> a = n \/ a ∈ nodes g.
Proof.
  unfold add. case_bool_decide as Hn; simpl; [naive_solver|].
  rewrite elem_of_app, list_elem_of_singleton. naive_solver.
Qed.

Lemma wf_add g n : wf g -> wf (add n g).
Proof.
  intros Hw. split.
  - unfold add. case_bool_decide; [apply Hw|]. simpl. apply NoDup_app. split; [apply Hw|].
    split; [|apply NoDup_singleton]. intros x Hx ->%list_elem_of_singleton. done.
  - unfold add. case_bool_decide as Hn; [apply Hw|]. simpl. rewrite <- (wf_out g Hw) in Hn |- *.
    by rewrite okeys_iput_new.
  - unfold add. case_bool_decide as Hn; [apply Hw|]. simpl. rewrite <- (wf_in g Hw) in Hn |- *.
    by rewrite okeys_iput_new.
  - intros a b. destruct (add_callees g n a Hw) as [-> _], (add_callees g n b Hw) as [_ ->]. apply Hw.
Qed.

Lemma push_back_Some k x m : k ∈ okeys m -> exists m', push_back k x m = Some m' /\ okeys m' = okeys m /\
  forall n, entries m' n = entries m n ++ (if decide (n = k) then [x] else []).
Proof.
  intros Hk. unfold push_back. pose proof Hk as [l Hl]%ofind_is_Some. rewrite Hl.
  eexists. split; [done|]. split; [apply okeys_oreplace|]. intros n. rewrite entries_oreplace by done.
  case_decide; [subst|by rewrite app_nil_r]. unfold entries. by rewrite Hl.
Qed.

Lemma calls_ok g a b : wf g -> exists g', calls a b g = oret g' /\ wf g' /\
  (forall n, n ∈ nodes g' <-> n = a \/ n = b \/ n ∈ nodes g) /\
  forall x y, count y (callees g' x) = (count y (callees g x) + if decide (x = a /\ y = b) then 1 else 0)%nat.
Proof.
  intros Hw. set (g1 := add b (add a g)).
  assert (Hw1 : wf g1) by (by repeat apply wf_add).
  assert (Hn : forall n, n ∈ nodes g1 <-> n = a \/ n = b \/ n ∈ nodes g).
  { intros n. unfold g1. rewrite !add_nodes. tauto. }
  assert (Hc1 : forall n, callees g1 n = callees g n).
  { intros n. unfold g1. destruct (add_callees (add a g) b n) as [-> _]; [by apply wf_add|].
    by destruct (add_callees g a n Hw) as [-> _]. }
  destruct (push_back_Some a b (out_edges g1)) as (o & Ho & Hko & Heo).
  { rewrite (wf_out g1 Hw1). apply Hn. by left. }
  destruct (push_back_Some b a (in_edges g1)) as (i & Hi & Hki & Hei).
  { rewrite (wf_in g1 Hw1). apply Hn. right. by left. }
  unfold calls. fold g1. rewrite Ho, Hi. eexists. split; [done|].
  assert (Hcount : forall x y, count y (entries o x) = (count y (callees g x) + if decide (x = a /\ y = b) then 1 else 0)%nat).
  { intros x y. rewrite Heo, count_app. f_equal; [by rewrite <- Hc1|].
    apply count_if. }
  split; [|split; [exact Hn|exact Hcount]]. split; simpl.
  - apply Hw1.
  - by rewrite Hko, (wf_out g1 Hw1).
  - by rewrite Hki, (wf_in g1 Hw1).
  - intros x y. rewrite callees_entries, callers_entries. simpl. rewrite Heo, Hei, !count_app.
    rewrite <- callees_entries, <- callers_entries, (wf_count g1 Hw1). f_equal.
    rewrite !count_if. repeat case_decide; naive_solver.
Qed.

(** ** Removal *)
Lemma erase_first_Some x l : x ∈ l -> exists l', erase_first x l = Some l' /\
  forall y, count y l' = (count y l - if decide (y = x) then 1 else 0)%nat.
Proof.
  induction l as [|z l IH]; intros Hx; [by apply elem_of_nil in Hx|]. simpl. case_decide as Hz.
  - subst z. exists l. split; [done|]. intros y. rewrite count_cons. case_decide; lia.
  - destruct IH as (l' & -> & Hl); [set_solver|]. exists (z :: l'). split; [done|]. intros y.
    rewrite !count_cons, Hl. repeat case_decide; subst; try done; try lia.
Qed.

Lemma erase_from_ok node ns : forall m,
  (forall n, count n ns <= count node (entries m n))%nat ->
  exists m', erase_from node ns m = oret m' /\ okeys m' = okeys m /\
    forall n x, count x (entries m' n) = (count x (entries m n) - if decide (x = node) then count n ns else 0)%nat.
Proof.
  induction ns as [|k ns IH]; intros m Hc; simpl.
  { exists m. split; [done|]. split; [done|]. intros n x. change (count n []) with 0%nat. case_decide; lia. }
  assert (Hin : node ∈ entries m k).
  { apply count_elem. specialize (Hc k). rewrite count_cons, decide_True in Hc by done. lia. }
  pose proof Hin as Hk%entries_key. unfold entries in Hin. pose proof Hk as [l Hl]%ofind_is_Some.
  rewrite Hl in Hin |- *. simpl in Hin. destruct (erase_first_Some _ _ Hin) as (l' & -> & Hl').
  assert (He : forall n x, count x (entries (oreplace k l' m) n) =
    (count x (entries m n) - if decide (n = k /\ x = node) then 1 else 0)%nat).
  { intros n x. rewrite entries_oreplace by done. destruct (decide (n = k)) as [->|Hne].
    - rewrite Hl'. unfold entries. rewrite Hl. simpl. destruct (decide (x = node)).
      + rewrite decide_True by done. lia.
      + rewrite decide_False by tauto. lia.
    - rewrite decide_False by tauto. lia. }
  destruct (IH (oreplace k l' m)) as (m' & -> & Hkeys & Hm').
  { intros n. specialize (Hc n). rewrite count_cons in Hc. rewrite He.
    destruct (decide (n = k)), (decide (n = k /\ node = node)); intuition; lia. }
  exists m'. split; [done|]. split; [by rewrite Hkeys, okeys_oreplace|]. intros n x.
  rewrite Hm', He, count_cons. repeat case_decide; intuition; lia.
Qed.

Lemma okeys_oerase k m : okeys (oerase k m) = List.filter (fun n => negb (bool_decide (n = k))) (okeys m).
Proof.
  unfold okeys. induction m as [|[k' v] m IH]; simpl; [done|].
  case_decide as E; [subst; rewrite bool_decide_eq_true_2 by done|rewrite bool_decide_eq_false_2 by congruence];
    simpl; [exact IH|f_equal; exact IH].
Qed.

Lemma entries_oerase k m n : entries (oerase k m) n = if decide (n = k) then [] else entries m n.
Proof. unfold entries. rewrite ofind_oerase. by case_decide. Qed.

Lemma remove_ok g n : wf g -> n ∈ nodes g -> exists g', remove n g = oret g' /\ wf g' /\
  nodes g' = List.filter (fun x => negb (bool_decide (x = n))) (nodes g) /\
  forall a b, count b (callees g' a) = if decide (a = n \/ b = n) then 0%nat else count b (callees g a).
Proof.
  intros Hw Hn. unfold remove. rewrite bool_decide_eq_true_2 by done.
  assert (Hi : n ∈ okeys (in_edges g)) by (by rewrite (wf_in g Hw)).
  pose proof Hi as [cs Hcs]%ofind_is_Some. rewrite Hcs.
  assert (Hcs' : cs = callers g n) by (unfold callers; by rewrite Hcs). subst cs.
  destruct (erase_from_ok n (callers g n) (out_edges g)) as (o & Ho & Hko & Heo).
  { intros x. rewrite <- callees_entries. by rewrite (wf_count g Hw). }
  rewrite Ho. cbn [oret obind app fst snd].
  assert (Hno : n ∈ okeys o) by (by rewrite Hko, (wf_out g Hw)).
  pose proof Hno as [l Hl]%ofind_is_Some. rewrite Hl.
  assert (Hcount : forall a b, count b (entries o a) = if decide (b = n) then 0%nat else count b (callees g a)).
  { intros a b. rewrite Heo, <- callees_entries. case_decide; [subst|lia]. rewrite (wf_count g Hw). lia. }
  assert (Hl' : l = entries o n) by (unfold entries; by rewrite Hl). subst l.
  destruct (erase_from_ok n (entries o n) (oerase n (in_edges g))) as (i & Hi' & Hki & Hei).
  { intros x. rewrite Hcount, entries_oerase. case_decide; [lia|].
    rewrite <- callers_entries, <- (wf_count g Hw). lia. }
  rewrite Hi'. cbn [oret obind app fst snd]. eexists. split; [done|].
  assert (Hfinal : forall a b, count b (entries (oerase n o) a) = if decide (a = n \/ b = n) then 0%nat else count b (callees g a)).
  { intros a b. rewrite entries_oerase. case_decide; [rewrite decide_True by tauto; done|].
    rewrite Hcount. case_decide; [rewrite decide_True by tauto; done|]. by rewrite decide_False by tauto. }
  split; [|split; [done|exact Hfinal]]. split; simpl.
  - apply NoDup_ListNoDup, List.NoDup_filter, NoDup_ListNoDup, Hw.
  - by rewrite okeys_oerase, Hko, (wf_out g Hw).
  - by rewrite Hki, okeys_oerase, (wf_in g Hw).
  - intros a b. change (callees _ a) with (entries (oerase n o) a). change (callers _ b) with (entries i b).
    rewrite Hfinal, Hei, entries_oerase, Hcount.
    destruct (decide (b = n)) as [->|Hb].
    + rewrite decide_True by tauto. simpl. change (count a []) with 0%nat. lia.
    + rewrite <- callers_entries, <- (wf_count g Hw).
      destruct (decide (a = n)) as [->|Ha]; [rewrite decide_True by tauto; lia|].
      rewrite decide_False by tauto. lia.
Qed.

Lemma remove_all_ok l : forall g, wf g -> NoDup l -> (forall x, x ∈ l -> x ∈ nodes g) ->
  exists g', remove_all l g = oret g' /\ wf g' /\
    nodes g' = List.filter (fun x => negb (bool_decide (x ∈ l))) (nodes g) /\
    forall a b, count b (callees g' a) = if decide (a ∈ l \/ b ∈ l) then 0%nat else count b (callees g a).
Proof.
  induction l as [|n l IH]; intros g Hw Hd Hl; cbn [remove_all].
  { exists g. split; [done|]. split; [done|]. split.
    - symmetry. apply forallb_filter_id, forallb_forall. intros x _. by rewrite bool_decide_eq_false_2 by set_solver.
    - intros a b. rewrite decide_False; [done|]. set_solver. }
  apply NoDup_cons in Hd as [Hn Hd]. destruct (remove_ok g n Hw) as (g1 & -> & Hw1 & Hn1 & Hc1); [set_solver|].
  destruct (IH g1 Hw1 Hd) as (g2 & Hg2 & Hw2 & Hn2 & Hc2).
  { intros x Hx. rewrite Hn1. apply list_elem_of_In, filter_In. split; [apply list_elem_of_In; set_solver|].
    rewrite bool_decide_eq_false_2; [done|]. by intros ->. }
  cbn [oret obind]. rewrite Hg2. cbn [oret app]. exists g2. split; [done|]. split; [done|]. split.
  - rewrite Hn2, Hn1. clear. induction (nodes g) as [|x ns IH]; simpl; [done|].
    destruct (decide (x = n)) as [->|Hne].
    + rewrite bool_decide_eq_true_2 by done. rewrite bool_decide_eq_true_2 by set_solver. done.
    + rewrite (bool_decide_eq_false_2 (x = n)) by done. simpl.
      rewrite (bool_decide_ext (x ∈ n :: l) (x ∈ l)) by set_solver. by rewrite IH.
  - intros a b. rewrite Hc2, Hc1. repeat case_decide; try done; set_solver.
Qed.
End wf.

(** ** Reachability *)
Section reachability.
Context {T : Type} `{Countable T} {ord : Ordered T}.
Implicit Types (g : CallGraph T) (work : list (T * unit)) (out : gset T).

Definition creach g : T -> T -> Prop := rtc (calls_edge g).

Lemma okeys_oemplace c work n : n ∈ okeys (oemplace c tt work) <-> n = c \/ n ∈ okeys work.
Proof.
  rewrite <- !ofind_is_Some, ofind_oemplace. case_decide; [naive_solver|]. split; [tauto|]. by intros [?|?].
Qed.

Lemma okeys_insert_all l : forall work n, n ∈ okeys (insert_all l work) <-> n ∈ l \/ n ∈ okeys work.
Proof.
  unfold insert_all. induction l as [|c l IH]; intros work n; simpl; [set_solver|].
  rewrite IH, okeys_oemplace. set_solver.
Qed.

Lemma oemplace_length c work : (length (oemplace c tt work) <= S (length work))%nat.
Proof.
  unfold oemplace. destruct (ofind c work); [lia|].
  induction work as [|[k []] work IH]; simpl; [lia|]. destruct (key_ltb c k); simpl in *; lia.
Qed.

Lemma insert_all_length l : forall work, (length (insert_all l work) <= length work + length l)%nat.
Proof.
  unfold insert_all. induction l as [|c l IH]; intros work; simpl; [lia|].
  etrans; [apply IH|]. pose proof (oemplace_length c work). lia.
Qed.

Lemma oerase_length k work : (length (oerase k work) <= length work)%nat.
Proof. induction work as [|[k' []] work IH]; simpl; [lia|]. case_decide; simpl; lia. Qed.

Lemma oerase_head k u work : (length (oerase k ((k, u) :: work)) <= length work)%nat.
Proof. simpl. rewrite decide_True by done. apply oerase_length. Qed.

Lemma okeys_oerase_elem k work n : n ∈ okeys (oerase k work) <-> n <> k /\ n ∈ okeys work.
Proof.
  rewrite <- !ofind_is_Some, ofind_oerase. case_decide; [|naive_solver].
  split; [by intros [? ?]|]. tauto.
Qed.

Lemma reachable_loop_ok g fuel : forall work out,
  (length work + pending out (out_edges g) <= fuel)%nat ->
  (forall n m, n ∈ out -> calls_edge g n m -> m ∈ out \/ m ∈ okeys work) ->
  exists out', reachable_loop fuel g work out = Some out' /\ out ⊆ out' /\
    (forall n, n ∈ okeys work -> n ∈ out') /\
    (forall n m, n ∈ out' -> calls_edge g n m -> m ∈ out') /\
    (forall n, n ∈ out' -> n ∈ out \/ exists m, m ∈ okeys work /\ creach g m n).
Proof.
  induction fuel as [|fuel IH]; intros [|[k []] work] out Hf Hcl; simpl in Hf; try lia;
    try (exists out; split; [done|]; split; [done|]; split; [intros n Hn; by apply elem_of_nil in Hn|];
         split; [intros n m Hn Hs; destruct (Hcl n m Hn Hs) as [?|Hm]; [done|by apply elem_of_nil in Hm]|by left]).
  assert (Hkeys : forall n, n ∈ okeys ((k, tt) :: work) <-> n = k \/ n ∈ okeys (oerase k ((k, tt) :: work))).
  { intros n. rewrite okeys_oerase_elem. change (okeys ((k, tt) :: work)) with (k :: okeys work).
    rewrite elem_of_cons. destruct (decide (n = k)); tauto. }
  pose proof (oerase_head k tt work) as Hlen. cbn [reachable_loop]. set (w := oerase k _) in *. clearbody w.
  case_bool_decide as Hk.
  - destruct (IH w out ltac:(lia)) as (out' & H1 & H2 & H3 & H4 & H5).
    { intros n m Hn Hs. destruct (Hcl n m Hn Hs) as [?|[->|?]%Hkeys]; auto. }
    exists out'. split; [done|]. split; [done|]. split; [intros n [->|?]%Hkeys; auto|]. split; [done|].
    intros n Hn. destruct (H5 n Hn) as [?|(m & ? & ?)]; [by left|]. right. exists m.
    split; [|done]. apply Hkeys. by right.
  - assert (Hstep : exists w', (forall m, m ∈ okeys w' <-> m ∈ okeys w \/ calls_edge g k m) /\
      (length w' + pending ({[ k ]} ∪ out) (out_edges g) <= fuel)%nat /\
      match ofind k (out_edges g) with
      | None => reachable_loop fuel g w ({[ k ]} ∪ out)
      | Some l => reachable_loop fuel g (insert_all l w) ({[ k ]} ∪ out)
      end = reachable_loop fuel g w' ({[ k ]} ∪ out)).
    { unfold calls_edge, callees. destruct (ofind k (out_edges g)) as [l|] eqn:E.
      - exists (insert_all l w). split; [intros m; rewrite okeys_insert_all; simpl; tauto|]. split; [|done].
        pose proof (pending_visit _ _ _ _ E Hk). pose proof (insert_all_length l w). lia.
      - exists w. split; [intros m; simpl; set_solver|]. split; [|done].
        pose proof (pending_mono out ({[ k ]} ∪ out) (out_edges g) ltac:(set_solver)). lia. }
    destruct Hstep as (w' & Hw' & Hm & ->). destruct (IH w' ({[ k ]} ∪ out) Hm) as (out' & H1 & H2 & H3 & H4 & H5).
    { intros n m [->%elem_of_singleton|Hn]%elem_of_union Hs; [right; apply Hw'; by right|].
      destruct (Hcl n m Hn Hs) as [?|[->|?]%Hkeys]; [set_solver|set_solver|right; apply Hw'; by left]. }
    exists out'. split; [done|]. split; [set_solver|]. split; [|split; [done|]].
    + intros n [->|?]%Hkeys; [set_solver|]. apply H3, Hw'. by left.
    + intros n Hn. destruct (H5 n Hn) as [[->%elem_of_singleton|?]%elem_of_union|(m & [Hm'|Hm']%Hw' & Hr)].
      * right. exists k. split; [apply Hkeys; by left|constructor].
      * by left.
      * right. exists m. split; [apply Hkeys; by right|done].
      * right. exists k. split; [apply Hkeys; by left|]. by eapply rtc_l.
Qed.

Lemma closed_reach g (P : T -> Prop) a b :
  (forall n m, P n -> calls_edge g n m -> P m) -> P a -> creach g a b -> P b.
Proof. intros Hcl Ha Hr. induction Hr as [|x y z Hxy _ IH]; [done|]. apply IH. by eapply Hcl. Qed.
End reachability.

(** ** Dominators *)
Section dominators.
Context {T : Type} `{Countable T} {ord : Ordered T}.
Implicit Types (g : CallGraph T) (d : gmap T (gset T)).

(** The paths from [start], last node first. *)
Inductive path_to g (start : T) : list T -> T -> Prop :=
| path_start : path_to g start [start] start
| path_step l a b : path_to g start l a -> calls_edge g a b -> path_to g start (b :: l) b.

(** [x] is on every path from [start] to [n]. *)
Definition dominates g (start x n : T) : Prop := forall l, path_to g start l n -> x ∈ l.

Lemma path_reach g start l n : path_to g start l n -> creach g start n.
Proof. induction 1; [constructor|]. etrans; [done|]. by apply rtc_once. Qed.

Lemma reach_path g start n : creach g start n -> exists l, path_to g start l n.
Proof.
  intros Hr. pattern n. eapply rtc_ind_r; [|intros y z _ Hyz (l & Hl)|exact Hr].
  - eexists. constructor.
  - eexists. by eapply path_step.
Qed.

Lemma dominates_caller g start x c n :
  dominates g start x n -> calls_edge g c n -> x = n \/ dominates g start x c.
Proof.
  intros Hd Hc. destruct (decide (x = n)) as [|Hne]; [by left|]. right. intros l Hl.
  apply (path_step _ _ _ _ _ Hl) in Hc. apply Hd in Hc. set_solver.
Qed.

Lemma elem_of_insersectWith (A B : gset T) x : x ∈ insersectWith A B <-> x ∈ A /\ x ∈ B.
Proof.
  unfold insersectWith. set (l := List.filter _ _).
  assert (Hl : x ∈ l <-> x ∈ A /\ x ∉ B).
  { unfold l. rewrite list_elem_of_In, filter_In, <- list_elem_of_In, elem_of_elements, negb_true_iff.
    by rewrite bool_decide_eq_false. }
  assert (Hf : forall S : gset T, x ∈ fold_left (fun set e => set ∖ {[ e ]}) l S <-> x ∈ S /\ x ∉ l).
  { clear Hl. induction l as [|e l IH]; intros S; simpl; [set_solver|]. rewrite IH. set_solver. }
  rewrite Hf, Hl. destruct (decide (x ∈ B)); tauto.
Qed.

Lemma doms_insert d n S k : doms (<[n := S]> d) k = if decide (k = n) then S else doms d k.
Proof.
  unfold doms. case_decide as Hk; [subst; by rewrite lookup_insert_eq|by rewrite lookup_insert_ne by congruence].
Qed.

Lemma intersect_all vec node : forall d, let d' :=
    fold_left (fun d c => <[node := insersectWith (doms d node) (doms d c)]> d) vec d in
  (forall n, n <> node -> doms d' n = doms d n) /\
  (forall x, x ∈ doms d' node <-> x ∈ doms d node /\ forall c, c ∈ vec -> x ∈ doms d c).
Proof.
  induction vec as [|c vec IH]; intros d; simpl; [set_solver|].
  destruct (IH (<[node := insersectWith (doms d node) (doms d c)]> d)) as [H1 H2]. split.
  - intros n Hn. rewrite H1 by done. rewrite doms_insert. by case_decide.
  - intros x. rewrite H2, doms_insert, decide_True, elem_of_insersectWith by done. split.
    + intros [[Hx Hc] Hv]. split; [done|]. intros c' [->|Hc']%elem_of_cons; [done|].
      specialize (Hv c' Hc'). rewrite doms_insert in Hv. case_decide; [subst|done].
      by apply elem_of_insersectWith in Hv as [? _].
    + intros [Hx Hc]. split; [set_solver|]. intros c' Hc'. rewrite doms_insert.
      case_decide; [|set_solver]. apply elem_of_insersectWith. set_solver.
Qed.

Context (g : CallGraph T) (start : T) (Hw : wf g) (Hstart : start ∈ nodes g).

Record dom_inv d : Prop := {
  di_self : forall n, n ∈ nodes g -> n ∈ doms d n;
  di_sub : forall n x, n ∈ nodes g -> x ∈ doms d n -> x ∈ nodes g;
  di_dom : forall n x, n ∈ nodes g -> x ∈ nodes g -> dominates g start x n -> x ∈ doms d n;
  di_start : forall x, x ∈ doms d start -> x = start
}.

Definition dom_eqn d (n : T) : Prop :=
  forall x c, x ∈ doms d n -> calls_edge g c n -> x = n \/ x ∈ doms d c.

Lemma dominators_node_ok n d ch : n ∈ nodes g -> dom_inv d ->
  exists d' ch', dominators_node g n (d, ch) = (d', ch') /\ dom_inv d' /\
    (forall k, doms d' k ⊆ doms d k) /\
    (ch' = false -> ch = false /\ (forall k, doms d' k = doms d k) /\ dom_eqn d n) /\
    (ch = false -> ch' = true -> (size (doms d' n) < size (doms d n))%nat).
Proof.
  intros Hn Hi. unfold dominators_node.
  assert (Hin : is_Some (ofind n (in_edges g))) by (apply ofind_is_Some; by rewrite (wf_in g Hw)).
  destruct Hin as [vec Hvec]. rewrite Hvec.
  assert (Hv : forall c, c ∈ vec <-> calls_edge g c n).
  { intros c. rewrite <- callers_elem by done. unfold callers. by rewrite Hvec. }
  pose proof (intersect_all vec n d) as Hint. cbv zeta in Hint. set (d1 := fold_left _ vec d) in *.
  destruct Hint as [H1 H2]. clearbody d1. set (d2 := <[n := {[ n ]} ∪ doms d1 n]> d1).
  assert (Hne : forall k, k <> n -> doms d2 k = doms d k).
  { intros k Hk. unfold d2. rewrite doms_insert, decide_False by done. by apply H1. }
  assert (Hn2 : forall x, x ∈ doms d2 n <-> x = n \/ (x ∈ doms d n /\ forall c, calls_edge g c n -> x ∈ doms d c)).
  { intros x. unfold d2. rewrite doms_insert, decide_True, elem_of_union, elem_of_singleton, H2 by done.
    by setoid_rewrite Hv. }
  assert (Hsub : forall k, doms d2 k ⊆ doms d k).
  { intros k x Hx. destruct (decide (k = n)) as [->|Hk]; [|by rewrite <- Hne].
    apply Hn2 in Hx as [->|[? _]]; [by apply Hi|done]. }
  assert (Hi2 : dom_inv d2).
  { split.
    - intros k Hk. destruct (decide (k = n)) as [->|Hkn]; [apply Hn2; by left|]. rewrite Hne by done. by apply Hi.
    - intros k x Hk Hx. by apply (di_sub d Hi k), Hsub.
    - intros k x Hk Hx Hd. destruct (decide (k = n)) as [->|Hkn]; [|rewrite Hne by done; by apply Hi].
      apply Hn2. destruct (decide (x = n)) as [|Hxn]; [by left|]. right. split; [by apply Hi|].
      intros c Hc. apply Hi; [by destruct (calls_edge_nodes g c n Hw Hc)|done|].
      by destruct (dominates_caller _ _ _ _ _ Hd Hc).
    - intros x Hx. by apply (di_start d Hi), Hsub. }
  eexists d2, _. split; [done|]. split; [done|]. split; [done|].
  pose proof (Hsub n) as Hsn. pose proof (subseteq_size _ _ Hsn) as Hle.
  destruct (Nat.eqb_spec (size (doms d2 n)) (size (doms d n))) as [Heq|Hlt].
  - assert (Hsame : doms d2 n = doms d n).
    { apply set_eq. intros x. split; [apply Hsn|]. intros Hx.
      destruct (decide (x ∈ doms d2 n)) as [|Hx2]; [done|].
      assert (doms d2 n ⊂ doms d n) as Hss%subset_size by set_solver. lia. }
    split; [|congruence]. intros ->. split; [done|]. split.
    + intros k. destruct (decide (k = n)) as [->|]; auto.
    + intros x c Hx Hc. rewrite <- Hsame in Hx. apply Hn2 in Hx as [?|[_ ?]]; auto.
  - split; [done|]. intros _ _. lia.
Qed.

Definition mu d (ns : list T) : nat := sum_list_with (fun n => size (doms d n)) ns.

Lemma mu_le d d' ns : (forall k, doms d' k ⊆ doms d k) -> (mu d' ns <= mu d ns)%nat.
Proof.
  intros Hs. unfold mu. induction ns as [|n ns IH]; simpl; [lia|].
  pose proof (subseteq_size _ _ (Hs n)). lia.
Qed.

Lemma mu_lt d d' ns n : (forall k, doms d' k ⊆ doms d k) -> n ∈ ns ->
  (size (doms d' n) < size (doms d n))%nat -> (mu d' ns < mu d ns)%nat.
Proof.
  intros Hs Hn Hlt. induction ns as [|k ns IH]; [by apply elem_of_nil in Hn|].
  apply elem_of_cons in Hn as [->|Hn]; unfold mu in *; simpl.
  - pose proof (mu_le d d' ns Hs) as Hle. unfold mu in Hle. lia.
  - specialize (IH Hn). pose proof (subseteq_size _ _ (Hs k)). lia.
Qed.

Lemma dominators_fold_ok ns : forall d ch, (forall n, n ∈ ns -> n ∈ nodes g) -> dom_inv d ->
  exists d' ch', fold_left (fun st node => dominators_node g node st) ns (d, ch) = (d', ch') /\ dom_inv d' /\
    (forall k, doms d' k ⊆ doms d k) /\
    (ch' = false -> ch = false /\ (forall k, doms d' k = doms d k) /\ forall n, n ∈ ns -> dom_eqn d n) /\
    (ch = false -> ch' = true -> (mu d' (nodes g) < mu d (nodes g))%nat).
Proof.
  induction ns as [|n ns IH]; intros d ch Hns Hi; cbn [fold_left].
  { exists d, ch. split; [done|]. split; [done|]. split; [done|]. split; [|congruence].
    intros ->. split; [done|]. split; [done|]. intros n Hn. by apply elem_of_nil in Hn. }
  destruct (dominators_node_ok n d ch) as (d1 & ch1 & -> & Hi1 & Hs1 & Hf1 & Ht1); [set_solver|done|].
  destruct (IH d1 ch1) as (d2 & ch2 & Hfold & Hi2 & Hs2 & Hf2 & Ht2); [set_solver|done|].
  exists d2, ch2. split; [done|]. split; [done|]. split; [intros k; by etrans; [apply Hs2|]|]. split.
  - intros Hch2. destruct (Hf2 Hch2) as (-> & He2 & Hq2). destruct (Hf1 eq_refl) as (-> & He1 & Hq1).
    split; [done|]. split; [intros k; by rewrite He2|]. intros m [->|Hm]%elem_of_cons; [done|].
    intros x c Hx Hc. rewrite <- He1. apply (Hq2 m Hm); [by rewrite He1|done].
  - intros -> ->. destruct ch1.
    + eapply Nat.le_lt_trans; [apply mu_le, Hs2|]. apply (mu_lt _ _ _ n); [done|set_solver|by apply Ht1].
    + destruct (Hf1 eq_refl) as (_ & He1 & _). specialize (Ht2 eq_refl eq_refl).
      pose proof (mu_le d d1 (nodes g) Hs1). lia.
Qed.

Lemma dominators_loop_ok fuel : forall d, (mu d (nodes g) < fuel)%nat -> dom_inv d ->
  exists d', dominators_loop fuel g d = Some d' /\ dom_inv d' /\ forall n, n ∈ nodes g -> dom_eqn d' n.
Proof.
  induction fuel as [|fuel IH]; intros d Hf Hi; [lia|]. cbn [dominators_loop]. unfold dominators_round.
  destruct (dominators_fold_ok (nodes g) d false) as (d1 & ch & -> & Hi1 & Hs1 & Hf1 & Ht1); [done..|].
  destruct ch; [apply IH; [specialize (Ht1 eq_refl eq_refl); lia|done]|].
  exists d1. split; [done|]. split; [done|]. destruct (Hf1 eq_refl) as (_ & He & Hq).
  intros n Hn x c Hx Hc. rewrite !He in *. by apply (Hq n Hn).
Qed.

Lemma dominators_init_doms ns all : forall d k, NoDup ns ->
  doms (dominators_init start ns all d) k =
    if decide (k ∈ ns) then (if decide (k = start) then {[ start ]} else list_to_set all) ∪ doms d k else doms d k.
Proof.
  unfold dominators_init. induction ns as [|n ns IH]; intros d k Hd; cbn [fold_left].
  { rewrite decide_False; [done|]. apply not_elem_of_nil. }
  apply NoDup_cons in Hd as [Hn Hd]. rewrite IH by done. set (d1 := if decide (n = start) then _ else _).
  assert (Hd1 : doms d1 k = if decide (k = n) then (if decide (k = start) then {[ start ]} else list_to_set all) ∪ doms d k else doms d k).
  { unfold d1. destruct (decide (n = start)) as [->|Hns]; rewrite doms_insert.
    - destruct (decide (k = start)) as [->|]; [|done]. by rewrite ?decide_True.
    - destruct (decide (k = n)) as [->|]; [|done]. by rewrite decide_False. }
  rewrite Hd1. destruct (decide (k = n)) as [->|Hk].
  - rewrite decide_False by done. destruct (decide (n ∈ n :: ns)) as [|Hc]; [done|].
    destruct Hc. apply list_elem_of_here.
  - destruct (decide (k ∈ ns)), (decide (k ∈ n :: ns)) as [Hc|Hc]; rewrite elem_of_cons in Hc; tauto.
Qed.

Lemma dominators_ok : exists d, dominators g start = Some d /\ dom_inv d /\ forall n, n ∈ nodes g -> dom_eqn d n.
Proof.
  pose proof (wf_nodup g Hw) as Hd. unfold dominators. set (d0 := dominators_init _ _ _ _).
  assert (Hdoms : forall n, n ∈ nodes g -> doms d0 n = if decide (n = start) then {[ start ]} else list_to_set (nodes g)).
  { intros n Hn. unfold d0. rewrite dominators_init_doms, decide_True by done. unfold doms at 1.
    rewrite lookup_empty. simpl. by rewrite union_empty_r_L. }
  apply dominators_loop_ok.
  - apply Nat.lt_succ_r. unfold size_.
    assert (Hle : forall ns, (forall n, n ∈ ns -> n ∈ nodes g) -> (mu d0 ns <= length ns * length (nodes g))%nat); [|by apply Hle].
    induction ns as [|n ns IH]; intros Hns; unfold mu in *; simpl; [lia|]. specialize (IH ltac:(set_solver)).
    assert (size (doms d0 n) <= length (nodes g))%nat; [|lia]. rewrite Hdoms by set_solver.
    case_decide; [rewrite size_singleton; destruct (nodes g); [by apply elem_of_nil in Hstart|simpl; lia]|].
    by rewrite size_list_to_set.
  - split.
    + intros n Hn. rewrite Hdoms by done. case_decide; set_solver.
    + intros n x Hn. rewrite Hdoms by done. case_decide; set_solver.
    + intros n x Hn Hx Hdom. rewrite Hdoms by done. case_decide; [subst|set_solver].
      specialize (Hdom _ (path_start g start)). set_solver.
    + intros x. rewrite Hdoms by done. rewrite decide_True by done. set_solver.
Qed.

Lemma dominators_sound d : dom_inv d -> (forall n, n ∈ nodes g -> dom_eqn d n) ->
  forall n x, n ∈ nodes g -> x ∈ doms d n <-> x ∈ nodes g /\ dominates g start x n.
Proof.
  intros Hi Hq n x Hn. split; [|intros [? ?]; by apply Hi]. intros Hx. split; [by eapply di_sub|].
  intros l Hl. revert Hn Hx. induction Hl as [|l a b Hl IH Hab]; intros Hn Hx.
  - apply (di_start d Hi) in Hx. set_solver.
  - destruct (Hq b Hn x a Hx Hab) as [->|Ha]; [set_solver|].
    apply elem_of_cons. right. apply IH; [by destruct (calls_edge_nodes g a b Hw Hab)|done].
Qed.
End dominators.

(** ** Natural loops *)
Section loops.
Context {T : Type} `{Countable T} {ord : Ordered T}.
Implicit Types (work : list (T * unit)) (body : gset T).
Context (g : CallGraph T) (Hw : wf g).

(** One step of the reverse walk towards [n]: from [a] to a caller of [a],
    unless [a] is [n] itself. *)
Definition back_step (n a b : T) : Prop := a <> n /\ calls_edge g b a.

Lemma okeys_push_callers (b : gset T) l : forall work x,
  x ∈ okeys (fold_left (fun work i => if bool_decide (i ∈ b) then work else oemplace i tt work) l work) <->
  x ∈ okeys work \/ (x ∈ l /\ x ∉ b).
Proof.
  induction l as [|c l IH]; intros work x; simpl; [set_solver|]. rewrite IH.
  case_bool_decide; [|rewrite okeys_oemplace]; set_solver.
Qed.

Lemma loop_body_ok n fuel : forall work body,
  (size (list_to_set (nodes g) ∖ body) <= fuel)%nat ->
  (forall x, x ∈ okeys work -> x ∈ nodes g /\ x ∉ body) ->
  (forall x y, x ∈ body -> back_step n x y -> y ∈ body \/ y ∈ okeys work) ->
  exists body', loop_body fuel g n work body = Some body' /\ body ⊆ body' /\
    (forall x, x ∈ okeys work -> x ∈ body') /\
    (forall x y, x ∈ body' -> back_step n x y -> y ∈ body') /\
    (forall x, x ∈ body' -> x ∈ body \/ exists e, e ∈ okeys work /\ rtc (back_step n) e x).
Proof.
  induction fuel as [|fuel IH]; intros [|[k []] work] body Hf Hwk Hcl;
    try (exists body; split; [done|]; split; [done|]; split; [intros x Hx; by apply elem_of_nil in Hx|];
         split; [intros x y Hx Hs; destruct (Hcl x y Hx Hs) as [?|Hy]; [done|by apply elem_of_nil in Hy]|by left]).
  { destruct (Hwk k) as [Hk Hkb]; [apply elem_of_okeys; exists tt; apply list_elem_of_here|].
    apply Nat.le_0_r, size_empty_inv in Hf. exfalso. set_solver. }
  assert (Hkeys : forall x, x ∈ okeys ((k, tt) :: work) <-> x = k \/ x ∈ okeys (oerase k ((k, tt) :: work))).
  { intros x. rewrite okeys_oerase_elem. change (okeys ((k, tt) :: work)) with (k :: okeys work).
    rewrite elem_of_cons. destruct (decide (x = k)); tauto. }
  assert (Hnk : k ∉ okeys (oerase k ((k, tt) :: work))) by (rewrite okeys_oerase_elem; tauto).
  cbn [loop_body]. set (w := oerase k _) in *. clearbody w.
  assert (Hstep : exists w', (forall x, x ∈ okeys w' <-> x ∈ okeys w \/ (back_step n k x /\ x ∉ {[ k ]} ∪ body)) /\
    (if decide (k = n) then loop_body fuel g n w ({[ k ]} ∪ body)
     else loop_body fuel g n (fold_left (fun work i => if bool_decide (i ∈ {[ k ]} ∪ body) then work else oemplace i tt work)
            (callers g k) w) ({[ k ]} ∪ body)) = loop_body fuel g n w' ({[ k ]} ∪ body)).
  { unfold back_step. destruct (decide (k = n)) as [->|Hkn]; eexists; (split; [|done]); intros x; [naive_solver|].
    rewrite okeys_push_callers, callers_elem by done. naive_solver. }
  destruct Hstep as (w' & Hw' & ->). destruct (Hwk k) as [Hkn Hkb]; [apply Hkeys; by left|].
  destruct (IH w' ({[ k ]} ∪ body)) as (body' & H1 & H2 & H3 & H4 & H5).
  - assert (list_to_set (nodes g) ∖ ({[ k ]} ∪ body) ⊂ list_to_set (nodes g) ∖ body) as Hss; [|apply subset_size in Hss; lia].
    split; [set_solver|]. intros Hc. assert (k ∈ list_to_set (nodes g) ∖ body) by set_solver. set_solver.
  - intros x [Hx|[[_ Hx] ?]]%Hw'; [|by destruct (calls_edge_nodes g x k Hw Hx)].
    destruct (Hwk x) as [? ?]; [apply Hkeys; by right|]. split; [done|]. intros [->%elem_of_singleton|?]%elem_of_union; done.
  - intros x y Hx Hs. destruct (decide (y ∈ {[ k ]} ∪ body)) as [|Hy]; [by left|]. right. apply Hw'.
    apply elem_of_union in Hx as [->%elem_of_singleton|Hx]; [by right|]. left.
    destruct (Hcl x y Hx Hs) as [?|[->|?]%Hkeys]; [set_solver|set_solver|done].
  - exists body'. split; [done|]. split; [set_solver|]. split; [|split; [done|]].
    + intros x [->|Hx]%Hkeys; [set_solver|]. apply H3, Hw'. by left.
    + intros x Hx. destruct (H5 x Hx) as [[->%elem_of_singleton|?]%elem_of_union|(e & [He|[He _]]%Hw' & Hr)].
      * right. exists k. split; [apply Hkeys; by left|constructor].
      * by left.
      * right. exists e. split; [apply Hkeys; by right|done].
      * right. exists k. split; [apply Hkeys; by left|]. by eapply rtc_l.
Qed.

Lemma rtc_closed (R : T -> T -> Prop) (P : T -> Prop) a b :
  (forall x y, P x -> R x y -> P y) -> P a -> rtc R a b -> P b.
Proof. intros Hcl Ha Hr. induction Hr as [|x y z Hxy _ IH]; [done|]. apply IH. by eapply Hcl. Qed.

(** From a back edge's source, whatever an earlier back edge left in
    [body]. *)
Lemma loop_body_edge n e body :
  e ∈ nodes g -> (forall x y, x ∈ body -> back_step n x y -> y ∈ body) ->
  exists body', loop_body (S (S (size_ g))) g n [(e, tt)] body = Some body' /\
    forall x, x ∈ body' <-> x ∈ body \/ rtc (back_step n) e x.
Proof.
  intros He Hcl.
  assert (Hsz : (size (list_to_set (nodes g) ∖ ({[ e ]} ∪ body)) <= S (size_ g))%nat).
  { etrans; [apply subseteq_size, subseteq_difference_l; done|]. unfold size_.
    rewrite size_list_to_set by apply Hw. lia. }
  assert (Hgo : exists w', (forall x, x ∈ okeys w' <-> back_step n e x /\ x ∉ {[ e ]} ∪ body) /\
    loop_body (S (S (size_ g))) g n [(e, tt)] body = loop_body (S (size_ g)) g n w' ({[ e ]} ∪ body)).
  { generalize (S (size_ g)) as ks. intros ks. cbn [loop_body].
    assert (oerase e [(e, tt)] = []) as -> by (simpl; by rewrite decide_True). unfold back_step.
    destruct (decide (e = n)) as [->|Hn].
    - exists []. split; [|done]. intros x. split; [intros Hx; by apply elem_of_nil in Hx|naive_solver].
    - eexists. split; [|done]. intros x. rewrite okeys_push_callers, callers_elem by done.
      split; [intros [Hx|?]; [by apply elem_of_nil in Hx|tauto]|tauto]. }
  destruct Hgo as (w' & Hw' & ->).
  destruct (loop_body_ok n (S (size_ g)) w' ({[ e ]} ∪ body) Hsz) as (body' & Hb & H2 & H3 & H4 & H5).
  - intros x [[_ Hx] ?]%Hw'. split; [by destruct (calls_edge_nodes g x e Hw Hx)|done].
  - intros x y Hx Hs. destruct (decide (y ∈ {[ e ]} ∪ body)) as [|Hy]; [by left|]. right. apply Hw'.
    apply elem_of_union in Hx as [->%elem_of_singleton|Hx]; [done|]. destruct Hy. apply elem_of_union_r. by apply (Hcl x).
  - exists body'. split; [done|]. intros x. split.
    + intros Hx. destruct (H5 x Hx) as [[->%elem_of_singleton|?]%elem_of_union|(e' & [He' _]%Hw' & Hr)].
      * right. constructor.
      * by left.
      * right. by eapply rtc_l.
    + intros [Hx|Hr]; [apply H2; set_solver|]. apply (rtc_closed (back_step n) (fun y => y ∈ body') e x); [exact H4| |done].
      apply H2. set_solver.
Qed.

(** [P e n]: the back edge from [e] to [n] was processed. *)
Definition loop_ok (P : T -> T -> Prop) (l : Loop T) : Prop :=
  (forall e, e ∈ back_edge_heads l <-> P e (entry l)) /\
  (forall x, x ∈ body l <-> exists e, P e (entry l) /\ rtc (back_step (entry l)) e x).

Record loops_ok (P : T -> T -> Prop) (st : list (Loop T) * gmap T nat) : Prop := {
  lo_index : forall n i, st.2 !! n = Some i <-> exists l, st.1 !! i = Some l /\ entry l = n;
  lo_loop : forall l, l ∈ st.1 -> loop_ok P l;
  lo_all : forall e n, P e n -> is_Some (st.2 !! n);
  lo_some : forall l, l ∈ st.1 -> exists e, P e (entry l)
}.

(** The loop of [n], created if needed; [ P] tells nothing of [n] then. *)
Lemma loop_of P st n : loops_ok P st -> exists loops entryToLoop i l,
  match st.2 !! n with
  | Some _ => st
  | None => (st.1 ++ [{| entry := n; body := ∅; back_edge_heads := ∅ |}], <[n := length st.1]> st.2)
  end = (loops, entryToLoop) /\
  entryToLoop !! n = Some i /\ loops !! i = Some l /\ entry l = n /\ loop_ok P l /\
  (forall k j, entryToLoop !! k = Some j <-> exists l, loops !! j = Some l /\ entry l = k) /\
  (forall j l, loops !! j = Some l -> j <> i -> l ∈ st.1) /\ (forall k, is_Some (st.2 !! k) -> is_Some (entryToLoop !! k)).
Proof.
  intros Hok. destruct (st.2 !! n) as [i|] eqn:E.
  - destruct (proj1 (lo_index _ _ Hok n i) E) as (l & Hl & He). exists st.1, st.2, i, l.
    split; [by destruct st|]. split; [done|]. split; [done|]. split; [done|].
    split; [apply Hok; by eapply list_elem_of_lookup_2|]. split; [apply Hok|]. split; [|done].
    intros j l' Hj _. by eapply list_elem_of_lookup_2.
  - eexists _, _, (length st.1), _. split; [done|]. split; [by rewrite lookup_insert_eq|].
    split; [by apply list_lookup_middle|]. split; [done|].
    assert (Hno : forall e, ~ P e n).
    { intros e He. apply (lo_all _ _ Hok) in He as [? ?]. congruence. }
    split; [split; simpl; [set_solver|]; intros x; split; [set_solver|]; intros (e & He & _); by destruct (Hno e)|].
    split; [|split].
    + intros k j. destruct (decide (k = n)) as [->|Hk].
      * rewrite lookup_insert_eq. split; [intros [= <-]; eexists; split; [by apply list_lookup_middle|done]|].
        intros (l & [Hj|[Hlen Hj]]%lookup_app_Some & He).
        -- assert (st.2 !! n = Some j) by (apply Hok; eauto). congruence.
        -- apply list_lookup_singleton_Some in Hj as [? _]. f_equal. lia.
      * rewrite lookup_insert_ne by congruence. rewrite (lo_index _ _ Hok). split; intros (l & Hj & He).
        -- exists l. split; [by apply lookup_app_l_Some|done].
        -- apply lookup_app_Some in Hj as [Hj|[Hlen Hj]]; [eauto|].
           apply list_lookup_singleton_Some in Hj as [_ <-]. done.
    + intros j l Hj Hne. apply lookup_app_Some in Hj as [Hj|[Hlen Hj]]; [by eapply list_elem_of_lookup_2|].
      apply list_lookup_singleton_Some in Hj as [? _]. lia.
    + intros k Hk. destruct (decide (k = n)) as [->|]; [by rewrite lookup_insert_eq|by rewrite lookup_insert_ne by congruence].
Qed.

Lemma back_edge_ok P st e n : e ∈ nodes g -> loops_ok P st ->
  exists st', back_edge g e n st = Some st' /\ loops_ok (fun a b => P a b \/ (a = e /\ b = n)) st'.
Proof.
  intros He Hok. destruct (loop_of P st n Hok) as (loops & m & i & l & E & Hi & Hl & Hn & [Hh Hb] & Hidx & Hold & Hkeys).
  unfold back_edge. rewrite E, Hi, Hl. destruct (loop_body_edge n e (body l) He) as (b & Hloop & Hb').
  { intros x y Hx Hs. apply Hb in Hx as (e' & He' & Hr). apply Hb. exists e'. split; [done|].
    rewrite Hn in *. etrans; [done|by apply rtc_once]. }
  rewrite Hloop. cbn [mbind option_bind]. eexists. split; [done|].
  set (l' := {| entry := entry l; body := b; back_edge_heads := {[ e ]} ∪ back_edge_heads l |}).
  pose proof (lookup_lt_Some _ _ _ Hl) as Hlen.
  assert (Hlook : forall j l2, <[i := l']> loops !! j = Some l2 <-> (j = i /\ l2 = l') \/ (j <> i /\ loops !! j = Some l2)).
  { intros j l2. destruct (decide (j = i)) as [->|Hj].
    - rewrite list_lookup_insert_eq by done. naive_solver.
    - rewrite list_lookup_insert_ne by congruence. naive_solver. }
  assert (Hl2 : forall l2, l2 ∈ <[i := l']> loops -> l2 = l' \/ (l2 ∈ st.1 /\ entry l2 <> n)).
  { intros l2 [j [[_ ->]|[Hj Hl2]]%Hlook]%list_elem_of_lookup; [by left|]. right. split; [by eapply Hold|].
    intros Hen. assert (m !! n = Some j) by (apply Hidx; eauto). congruence. }
  split; simpl.
  - intros k j. rewrite Hidx. setoid_rewrite Hlook. split.
    + intros (l2 & Hl2' & Hk). destruct (decide (j = i)) as [->|]; [|naive_solver].
      exists l'. assert (l2 = l) as -> by congruence. naive_solver.
    + intros (l2 & [[-> ->]|[Hj Hl2']] & Hk); [|eauto]. exists l. done.
  - intros l2 [->|[Hin Hne]]%Hl2.
    + split; simpl; rewrite Hn in *.
      * intros x. rewrite elem_of_union, elem_of_singleton, Hh. naive_solver.
      * intros x. rewrite Hb', Hb. naive_solver.
    + destruct (lo_loop _ _ Hok l2 Hin) as [Hh2 Hb2]. split.
      * intros x. rewrite Hh2. naive_solver.
      * intros x. rewrite Hb2. naive_solver.
  - intros a k [Ha|[-> ->]]; [|by eexists]. by apply Hkeys, (lo_all _ _ Hok a).
  - intros l2 [->|[Hin Hne]]%Hl2; [exists e; right; by rewrite <- Hn|].
    destruct (lo_some _ _ Hok l2 Hin) as [a Ha]. exists a. by left.
Qed.

Lemma loops_ok_ext P Q st : (forall a b, P a b <-> Q a b) -> loops_ok P st -> loops_ok Q st.
Proof.
  intros HPQ [H1 H2 H3 H4]. split; try done.
  - intros l Hl. destruct (H2 l Hl) as [Hh Hb]. split; [intros e; by rewrite Hh|].
    intros x. rewrite Hb. by setoid_rewrite HPQ.
  - intros e n He. by apply (H3 e), HPQ.
  - intros l Hl. destruct (H4 l Hl) as [e He]. exists e. by apply HPQ.
Qed.

Lemma loops_edges_ok dome e next : forall P st, e ∈ nodes g -> loops_ok P st ->
  exists st', loops_edges g dome e next st = Some st' /\
    loops_ok (fun a b => P a b \/ (a = e /\ b ∈ next /\ b ∈ dome)) st'.
Proof.
  induction next as [|n next IH]; intros P st He Hok; cbn [loops_edges].
  { exists st. split; [done|]. eapply loops_ok_ext; [|done]. intros a b.
    split; [by left|]. intros [?|(_ & Hb & _)]; [done|]. by apply elem_of_nil in Hb. }
  case_bool_decide as Hn.
  - destruct (back_edge_ok P st e n He Hok) as (st1 & -> & Hok1). cbn [mbind option_bind].
    destruct (IH _ st1 He Hok1) as (st2 & Hst2 & Hok2). exists st2. split; [done|].
    eapply loops_ok_ext; [|exact Hok2]. intros a b. rewrite elem_of_cons. naive_solver.
  - destruct (IH P st He Hok) as (st2 & Hst2 & Hok2). exists st2. split; [done|].
    eapply loops_ok_ext; [|exact Hok2]. intros a b. rewrite elem_of_cons. naive_solver.
Qed.

Lemma loops_nodes_ok dom ns : forall P st, (forall n, n ∈ ns -> n ∈ nodes g) -> loops_ok P st ->
  exists st', loops_nodes g dom ns st = Some st' /\
    loops_ok (fun a b => P a b \/ (a ∈ ns /\ calls_edge g a b /\ b ∈ doms dom a)) st'.
Proof.
  induction ns as [|e ns IH]; intros P st Hns Hok; cbn [loops_nodes].
  { exists st. split; [done|]. eapply loops_ok_ext; [|done]. intros a b.
    split; [by left|]. intros [?|(Hb & _)]; [done|]. by apply elem_of_nil in Hb. }
  destruct (loops_edges_ok (doms dom e) e (callees g e) P st) as (st1 & -> & Hok1); [set_solver|done|].
  cbn [mbind option_bind]. destruct (IH _ st1 ltac:(set_solver) Hok1) as (st2 & Hst2 & Hok2). exists st2.
  split; [done|]. eapply loops_ok_ext; [|exact Hok2]. intros a b. rewrite elem_of_cons. unfold calls_edge.
  naive_solver.
Qed.

Lemma loops_ok_empty : loops_ok (fun _ _ => False) ([], ∅).
Proof.
  split; simpl; try done.
  - intros n i. rewrite lookup_empty. split; [done|]. intros (l & Hl & _). by rewrite lookup_nil in Hl.
  - intros l Hl. by apply elem_of_nil in Hl.
  - intros l Hl. by apply elem_of_nil in Hl.
Qed.

(** The edge from [e] to [n] is a back edge: [n] dominates [e]. *)
Definition is_back_edge (start e n : T) : Prop := calls_edge g e n /\ dominates g start n e.

Lemma compute_loops_ok start : start ∈ nodes g ->
  exists ls m, compute_loops g start = Some ls /\ loops_ok (is_back_edge start) (ls, m).
Proof.
  intros Hs. destruct (dominators_ok g start Hw Hs) as (d & Hd & Hi & Hq). unfold compute_loops. rewrite Hd.
  cbn [mbind option_bind]. destruct (loops_nodes_ok d (nodes g) _ _ ltac:(done) loops_ok_empty) as ([ls m] & -> & Hok).
  exists ls, m. split; [done|]. eapply loops_ok_ext; [|exact Hok]. intros a b. unfold is_back_edge. split.
  - intros [[]|(Ha & He & Hb)]. split; [done|]. by apply (dominators_sound g start Hw Hs d Hi Hq a b Ha) in Hb as [_ ?].
  - intros [He Hb]. right. destruct (calls_edge_nodes g a b Hw He) as [Ha Hbn]. split; [done|]. split; [done|].
    by apply (dominators_sound g start Hw Hs d Hi Hq a b Ha).
Qed.
End loops.

(** ** A graph from a list of calls *)
Section build.
Context {T : Type} `{Countable T} {ord : Ordered T}.

Definition from_calls (l : list (T * T)) : CallGraph T :=
  fold_left (fun g e => match calls e.1 e.2 g with Done g' _ => g' | Aborted _ => g end) l empty_graph.

Lemma wf_from_calls l : wf (from_calls l).
Proof.
  unfold from_calls. generalize (wf_empty (T := T)). generalize (empty_graph (T := T)).
  induction l as [|[a b] l IH]; intros g Hw; [done|]. cbn [fold_left fst snd]. apply IH.
  destruct (calls_ok g a b Hw) as (g' & -> & Hw' & _). done.
Qed.
End build.

#[global] Instance Z_ordered : Ordered Z := Z.ltb.

(** Two nested loops: [1 -> 2 -> 3 -> 2], [3 -> 4 -> 1], and a way out. *)
Definition nested : CallGraph Z := from_calls [(1, 2); (2, 3); (3, 2); (3, 4); (4, 1); (4, 5)]%Z.

(** ** More lemmas on paths and reachability *)
Section paths.
Context {T : Type} `{Countable T} {ord : Ordered T}.
Implicit Types (g : CallGraph T).

(** From any node of a path, the rest of the path leads to its end. *)
Lemma path_suffix g start l x : path_to g start l x -> forall n, n ∈ l -> creach g n x.
Proof.
  induction 1 as [|l a b Hl IH Hab]; intros n Hn.
  - apply list_elem_of_singleton in Hn as ->. constructor.
  - apply elem_of_cons in Hn as [->|Hn]; [constructor|]. etrans; [by apply IH|by apply rtc_once].
Qed.

(** Walking a path backwards reaches its last occurrence of [n]. *)
Lemma path_back g start n l x : path_to g start l x -> n ∈ l -> rtc (back_step g n) x n.
Proof.
  induction 1 as [|l a b Hl IH Hab]; intros Hn.
  - apply list_elem_of_singleton in Hn as ->. constructor.
  - destruct (decide (b = n)) as [->|Hb]; [constructor|].
    apply elem_of_cons in Hn as [->|Hn]; [done|]. eapply rtc_l; [by split|by apply IH].
Qed.

Lemma reachable_ok g start :
  exists out, reachable g start ∅ = Some out /\ forall n, n ∈ out <-> creach g start n.
Proof.
  unfold reachable. destruct (reachable_loop_ok g (S (length (flat_map snd (out_edges g)))) [(start, tt)] ∅)
    as (out & Hout & _ & Hw & Hcl & Hr).
  - rewrite pending_empty. simpl. lia.
  - set_solver.
  - assert (Hs : start ∈ okeys [(start, tt)]) by apply list_elem_of_here.
    exists out. split; [done|]. intros n. split.
    + intros Hn. destruct (Hr n Hn) as [?|(m & Hm & ?)]; [set_solver|]. by apply list_elem_of_singleton in Hm as ->.
    + intros Hn. apply (closed_reach g (fun x => x ∈ out) start); [done| |done]. by apply Hw.
Qed.

Lemma reachable_nodes g start n : n ∈ default ∅ (reachable g start ∅) -> creach g start n.
Proof. destruct (reachable_ok g start) as (out & -> & Ho). apply Ho. Qed.
End paths.

Definition summary (ls : list (Loop Z)) : list (Z * list Z) :=
  map (fun l => (entry l, elements (body l))) ls.

(** ** Properties *)

(** [calls] never aborts, keeps the graph well formed and adds one edge (and
    its two nodes), recorded on both sides. *)
Theorem calls_spec {T} `{Countable T} (g : CallGraph T) a b :
  wf g ->
  exists g', calls a b g = oret g' /\ wf g' /\
    (forall n, n ∈ nodes g' <-> n = a \/ n = b \/ n ∈ nodes g) /\
    forall x y, count y (callees g' x) = (count y (callees g x) + if decide (x = a /\ y = b) then 1 else 0)%nat.
Proof. apply calls_ok. Qed.

Lemma calls_spec_witness :
  wf nested /\ exists g', calls 5%Z 1%Z nested = oret g' /\ wf g' /\
    (forall n, n ∈ nodes g' <-> n = 5%Z \/ n = 1%Z \/ n ∈ nodes nested) /\
    forall x y, count y (callees g' x) = (count y (callees nested x) + if decide (x = 5%Z /\ y = 1%Z) then 1 else 0)%nat.
Proof. split; [apply wf_from_calls|]. apply calls_spec, wf_from_calls. Defined.

(** [restrict] (a sequence of [remove]s) never aborts on a well-formed graph:
    it keeps exactly the nodes of the set, in their order, and exactly the
    edges between them, on both sides. *)
Theorem restrict_spec {T} `{Countable T} (g : CallGraph T) (to : gset T) :
  wf g ->
  exists g', restrict to g = oret g' /\ wf g' /\
    nodes g' = List.filter (fun n => bool_decide (n ∈ to)) (nodes g) /\
    forall a b, count b (callees g' a) = if decide (a ∈ to /\ b ∈ to) then count b (callees g a) else 0%nat.
Proof.
  intros Hw. unfold restrict. set (l := List.filter (fun n => negb (bool_decide (n ∈ to))) (nodes g)).
  assert (Hl : forall n, n ∈ l <-> n ∈ nodes g /\ n ∉ to).
  { intros n. unfold l. by rewrite list_elem_of_In, filter_In, <- list_elem_of_In, negb_true_iff, bool_decide_eq_false. }
  destruct (remove_all_ok l g Hw) as (g' & Hg' & Hw' & Hn & Hc).
  - apply NoDup_ListNoDup, List.NoDup_filter, NoDup_ListNoDup, Hw.
  - intros x Hx. by apply Hl in Hx as [? _].
  - exists g'. split; [done|]. split; [done|]. split.
    + rewrite Hn. apply filter_ext_in. intros n Hin%list_elem_of_In.
      destruct (decide (n ∈ to)) as [Ht|Ht].
      * rewrite (bool_decide_eq_true_2 _ Ht), bool_decide_eq_false_2; [done|]. rewrite Hl. tauto.
      * rewrite (bool_decide_eq_false_2 _ Ht), bool_decide_eq_true_2; [done|]. rewrite Hl. tauto.
    + intros a b. rewrite Hc. destruct (decide (b ∈ callees g a)) as [He|He].
      * destruct (calls_edge_nodes g a b Hw He). pose proof (Hl a). pose proof (Hl b). repeat case_decide; tauto.
      * assert (count b (callees g a) = 0%nat) as ->; [|by repeat case_decide].
        destruct (count b (callees g a)) eqn:E; [done|]. destruct He. apply count_elem. lia.
Qed.

Lemma restrict_spec_witness :
  wf nested /\ exists g', restrict {[ 2; 3; 4 ]}%Z nested = oret g' /\ wf g' /\
    nodes g' = [2; 3; 4]%Z /\
    forall a b, count b (callees g' a) = if decide (a ∈ ({[ 2; 3; 4 ]}%Z : gset Z) /\ b ∈ ({[ 2; 3; 4 ]}%Z : gset Z)) then count b (callees nested a) else 0%nat.
Proof.
  split; [apply wf_from_calls|].
  assert (List.filter (fun n => bool_decide (n ∈ ({[ 2; 3; 4 ]}%Z : gset Z))) (nodes nested) = [2; 3; 4]%Z) as <- by (by vm_compute).
  apply (restrict_spec nested {[ 2; 3; 4 ]}%Z), wf_from_calls.
Defined.

(** [reachable(start, out)] with an empty [out] ends, and fills it with the
    nodes reachable from [start]. *)
Theorem reachable_spec {T} `{Countable T} {ord : Ordered T} (g : CallGraph T) start :
  exists out, reachable g start ∅ = Some out /\ forall n, n ∈ out <-> creach g start n.
Proof. apply reachable_ok. Qed.

(** C10. [dominators] reaches its fixpoint, and the set of [n] is exactly the set
    of the nodes that lie on every path from [start] to [n]. *)
Theorem dominators_spec {T} `{Countable T} {ord : Ordered T} (g : CallGraph T) start :
  wf g -> start ∈ nodes g ->
  exists d, dominators g start = Some d /\
    forall n x, n ∈ nodes g -> x ∈ doms d n <-> x ∈ nodes g /\ dominates g start x n.
Proof.
  intros Hw Hs. destruct (dominators_ok g start Hw Hs) as (d & Hd & Hi & Hq). exists d. split; [done|].
  intros n x Hn. by apply (dominators_sound g start Hw Hs d Hi Hq).
Qed.

Lemma dominators_spec_witness :
  wf nested /\ 1%Z ∈ nodes nested /\
  exists d, dominators nested 1%Z = Some d /\
    forall n x, n ∈ nodes nested -> x ∈ doms d n <-> x ∈ nodes nested /\ dominates nested 1%Z x n.
Proof.
  assert (Hs : 1%Z ∈ nodes nested) by (apply (bool_decide_eq_true_1 (1%Z ∈ nodes nested)); by vm_compute).
  split; [apply wf_from_calls|]. split; [done|]. apply dominators_spec; [apply wf_from_calls|done].
Defined.

(** C18. [compute_loops] ends.  It makes one loop for every node that is the target
    of a back edge (one whose target dominates its source), its
    [back_edge_heads] are the sources of these edges, and its body is the set
    of the nodes that reach one of them without passing through the entry. *)
Theorem compute_loops_spec {T} `{Countable T} {ord : Ordered T} (g : CallGraph T) start :
  wf g -> start ∈ nodes g ->
  exists ls : list (Loop T), compute_loops g start = Some ls /\ NoDup (entry <$> ls) /\
    (forall n, (exists l, l ∈ ls /\ entry l = n) <-> exists e, is_back_edge g start e n) /\
    forall l, l ∈ ls ->
      (forall e, e ∈ back_edge_heads l <-> is_back_edge g start e (entry l)) /\
      (forall x, x ∈ body l <-> exists e, is_back_edge g start e (entry l) /\ rtc (back_step g (entry l)) e x).
Proof.
  intros Hw Hs. destruct (compute_loops_ok g Hw start Hs) as (ls & m & Hls & [H1 H2 H3 H4]). simpl in *.
  exists ls. split; [done|]. split; [|split; [|done]].
  - apply NoDup_alt. intros i j n Hi Hj. rewrite list_lookup_fmap, fmap_Some in Hi, Hj.
    destruct Hi as (l1 & Hi & ->), Hj as (l2 & Hj & Hn).
    assert (Hmi : m !! entry l1 = Some i) by (apply H1; eauto).
    assert (Hmj : m !! entry l1 = Some j) by (apply H1; eauto). congruence.
  - intros n. split.
    + intros (l & Hl & <-). by apply H4.
    + intros (e & He). destruct (H3 e n He) as [i Hi]. apply H1 in Hi as (l & Hl & Hn).
      exists l. split; [by eapply list_elem_of_lookup_2|done].
Qed.

Lemma compute_loops_spec_witness :
  (summary <$> compute_loops nested 1%Z)
    = Some [(2, [3; 2]); (1, [3; 4; 2; 1])]%Z /\
  exists ls : list (Loop Z), compute_loops nested 1%Z = Some ls /\ NoDup (entry <$> ls) /\
    (forall n, (exists l, l ∈ ls /\ entry l = n) <-> exists e, is_back_edge nested 1%Z e n) /\
    forall l, l ∈ ls ->
      (forall e, e ∈ back_edge_heads l <-> is_back_edge nested 1%Z e (entry l)) /\
      (forall x, x ∈ body l <-> exists e, is_back_edge nested 1%Z e (entry l) /\ rtc (back_step nested (entry l)) e x).
Proof.
  split; [by vm_compute|]. apply (compute_loops_spec nested 1%Z); [apply wf_from_calls|].
  apply (bool_decide_eq_true_1 (1%Z ∈ nodes nested)). by vm_compute.
Defined.



(** A node that [start] does not reach is dominated by every node, so each of
    its edges counts as a back edge. *)
Example unreachable_back_edge :
  (summary <$>
     compute_loops (from_calls [(1, 2); (3, 2)]%Z) 1%Z) = Some [(2, [3])]%Z.
Proof. by vm_compute. Qed.
