(* ===== verification/CallGraphScc.v ===== *)
(** * Strongly connected components of call graphs: [strongConnect], [sccSort]

    The proof of Tarjan's algorithm in [CallGraph.v].  A node is either not yet
    indexed, on the stack, or in the output; the invariant [scc_inv] relates
    the three, and [scc_post] is what a call of [strongConnect] guarantees. *)
From S2P Require Import Prelude CallGraph CallGraphFacts.
Local Open Scope flexplan_scope.
Local Open Scope Z_scope.

Section scc.
Context {T : Type} `{Countable T} {ord : Ordered T} (g : CallGraph T).
(** A closed set of nodes, few enough for the unsigned index. *)
Context (X : gset T).
Hypothesis X_closed : forall x y, x ∈ X -> calls_edge g x y -> y ∈ X.
Hypothesis X_small : Z.of_nat (size X) < 2 ^ 32.
Implicit Types (h : sccInfo T).

Definition idx h (x : T) : Z := default 0 (index h !! x).
Definition low h (x : T) : Z := default 0 (lowlink h !! x).
Definition known h : gset T := dom (index h).

(** All of [C] reach each other, and nothing else does. *)
Definition is_scc (C : gset T) : Prop :=
  C <> ∅ /\ forall x, x ∈ C -> forall y, y ∈ C <-> creach g x y /\ creach g y x.

Record scc_inv h : Prop := {
  si_crt : crtIndex h = Z.of_nat (size (known h));
  si_known : known h ⊆ X;
  si_index x : x ∈ known h -> 0 <= idx h x < crtIndex h;
  si_on x : x ∈ onStack h <-> x ∈ stack h;
  si_visited x : x ∈ known h <-> x ∈ stack h \/ x ∈ out h;
  si_nodup : NoDup (stack h ++ out h);
  si_sorted s1 x s2 y : stack h = s1 ++ x :: s2 -> y ∈ s2 -> idx h y < idx h x;
  si_low x : x ∈ stack h -> exists y, y ∈ stack h /\ low h x = idx h y /\ idx h y <= idx h x /\ creach g x y;
  si_closed x y : x ∈ out h -> calls_edge g x y -> y ∈ out h;
  si_order o1 x o2 y : out h = o1 ++ x :: o2 -> calls_edge g x y -> y ∈ o1 \/ creach g y x;
  si_sccs : exists ms, out h = concat ms /\ sccs h = list_to_set <$> ms /\ Forall (fun m => is_scc (list_to_set m)) ms }.

(** Nodes that the call has indexed. *)
Definition fresh h h' (x : T) : Prop := x ∈ known h' /\ x ∉ known h.

(** What changes from [h] to [h']: new entries, the tops of the stack [s], the
    new components [cs]. *)
Record scc_step h h' (s : list T) (cs : list (gset T)) : Prop := {
  ss_known : known h ⊆ known h';
  ss_index x : x ∈ known h -> idx h' x = idx h x;
  ss_stack : stack h' = s ++ stack h;
  ss_new x : x ∈ s -> x ∉ known h;
  ss_low x : x ∈ known h -> low h' x = low h x;
  ss_sccs : sccs h' = sccs h ++ cs }.

Record scc_post (node : T) h (b : bool) h' (s : list T) (cs : list (gset T)) : Prop := {
  sp_inv : scc_inv h';
  sp_step : scc_step h h' s cs;
  sp_node : node ∈ known h';
  sp_idx : idx h' node = crtIndex h;
  sp_case : (s = [] /\ low h' node = idx h' node) \/ (node ∈ s /\ low h' node < idx h' node);
  sp_black x : x ∈ s -> low h' x < idx h' x;
  sp_fresh x : fresh h h' x -> creach g node x /\ forall y, calls_edge g x y -> y ∈ known h';
  sp_bound x y : x ∈ s -> y ∈ stack h -> calls_edge g x y -> low h' node <= idx h y;
  sp_flag : b = true <-> (exists C, C ∈ cs /\ (2 <= size C)%nat) \/ exists x, fresh h h' x /\ calls_edge g x x }.

(** The loop over the successors of [node], of which [l1] are done. *)
Record scc_loop (node : T) h0 (l1 : list T) (b : bool) h (s : list T) (cs : list (gset T)) : Prop := {
  sl_inv : scc_inv h;
  sl_step : scc_step h0 h (s ++ [node]) cs;
  sl_idx : idx h node = crtIndex h0;
  sl_black x : x ∈ s -> low h x < idx h x;
  sl_fresh x : fresh h0 h x -> creach g node x /\ (x <> node -> forall y, calls_edge g x y -> y ∈ known h);
  sl_done y : y ∈ l1 -> y ∈ known h;
  sl_bound x y : y ∈ stack h0 -> (x ∈ s /\ calls_edge g x y) \/ y ∈ l1 -> low h node <= idx h y;
  sl_flag : b = true <-> (exists C, C ∈ cs /\ (2 <= size C)%nat) \/
    (exists x, fresh h0 h x /\ x <> node /\ calls_edge g x x) \/ node ∈ l1 }.

Lemma crt_small h : scc_inv h -> crtIndex h <= Z.of_nat (size X).
Proof. intros Hi. rewrite (si_crt h Hi). pose proof (subseteq_size _ _ (si_known h Hi)). lia. Qed.

(** ** Lowlinks *)
Lemma scc_inv_set_lowlink h x y : scc_inv h -> x ∈ stack h -> y ∈ stack h -> idx h y <= idx h x -> creach g x y ->
  scc_inv (set_lowlink x (idx h y) h).
Proof.
  intros [] Hx Hy Hle Hr. split; try done. intros z Hz. simpl in Hz. destruct (decide (z = x)) as [->|Hne].
  - exists y. split; [done|]. split; [|done]. unfold low. simpl. by rewrite lookup_insert_eq.
  - destruct (si_low0 z Hz) as (w & Hw & Hl & ?). exists w. split; [done|]. split; [|done].
    unfold low. simpl. rewrite lookup_insert_ne by done. done.
Qed.

Lemma low_set_lowlink h x v z : low (set_lowlink x v h) z = if decide (z = x) then v else low h z.
Proof.
  unfold low. simpl. case_decide as E; [subst; by rewrite lookup_insert_eq|by rewrite lookup_insert_ne].
Qed.

(** [setLowLink] takes the smaller one. *)
Lemma setLowLink_ok h node next : scc_inv h -> node ∈ stack h -> next ∈ known h -> creach g node next ->
  (next ∈ stack h \/ low h node <= low h next) ->
  scc_inv (setLowLink node next h) /\ low (setLowLink node next h) node = Z.min (low h node) (low h next) /\
  forall z, z <> node -> low (setLowLink node next h) z = low h z.
Proof.
  intros Hi Hnode Hk Hr Hcase. unfold setLowLink. fold (low h node) (low h next).
  destruct (Z.ltb_spec (low h next) (low h node)) as [Hlt|Hge].
  - destruct Hcase as [Hnext|]; [|lia]. destruct (si_low h Hi next Hnext) as (y & Hy & Hl & Hle & Hry).
    destruct (si_low h Hi node Hnode) as (y' & _ & Hl' & Hle' & _). rewrite Hl in *.
    split; [apply scc_inv_set_lowlink; [done|done|done|lia|by etrans]|].
    split; [rewrite low_set_lowlink, decide_True by done; lia|]. intros z Hz. by rewrite low_set_lowlink, decide_False.
  - split; [done|]. split; [lia|done].
Qed.

Lemma setLowLink_same node next h :
  index (setLowLink node next h) = index h /\ stack (setLowLink node next h) = stack h /\
  sccs (setLowLink node next h) = sccs h /\ out (setLowLink node next h) = out h.
Proof. unfold setLowLink. by destruct (_ <? _). Qed.

(** ** Entering a node *)
Lemma not_known node h : node ∉ known h -> index h !! node = None.
Proof. apply not_elem_of_dom. Qed.

Lemma known_enter node h : node ∉ known h -> known (scc_enter node h) = {[ node ]} ∪ known h.
Proof.
  intros Hn. unfold known, scc_enter. simpl. rewrite (not_known node h Hn). by rewrite dom_insert_L.
Qed.

Lemma idx_enter node h x : node ∉ known h -> idx (scc_enter node h) x = if decide (x = node) then crtIndex h else idx h x.
Proof.
  intros Hn. unfold idx, scc_enter. simpl. rewrite (not_known node h Hn).
  case_decide as E; [subst; by rewrite lookup_insert_eq|by rewrite lookup_insert_ne].
Qed.

Lemma low_enter node h x : low (scc_enter node h) x = if decide (x = node) then crtIndex h else low h x.
Proof.
  unfold low, scc_enter. simpl. case_decide as E; [subst; by rewrite lookup_insert_eq|by rewrite lookup_insert_ne].
Qed.

Lemma si_stack_known h x : scc_inv h -> x ∈ stack h -> x ∈ known h.
Proof. intros Hi Hx. apply (si_visited h Hi). by left. Qed.

Lemma scc_enter_ok node h : scc_inv h -> node ∈ X -> node ∉ known h -> scc_loop node h [] false (scc_enter node h) [] [].
Proof.
  intros Hi HX Hn. pose proof (crt_small h Hi) as Hc.
  assert (Hk := known_enter node h Hn). assert (Hix := fun x => idx_enter node h x Hn). assert (Hlo := low_enter node h).
  assert (Hold : forall x, x ∈ known h -> idx (scc_enter node h) x = idx h x) by (intros; rewrite Hix, decide_False; [done|congruence]).
  assert (Hsz : size (known (scc_enter node h)) = S (size (known h))).
  { rewrite Hk, size_union, size_singleton by set_solver. done. }
  assert (Hlt : Z.of_nat (S (size (known h))) <= Z.of_nat (size X)).
  { rewrite <- Hsz, Hk. apply Nat2Z.inj_le, subseteq_size. pose proof (si_known h Hi). set_solver. }
  assert (Hcr : crtIndex (scc_enter node h) = crtIndex h + 1).
  { simpl. apply wrapu_small. rewrite (si_crt h Hi) in *. lia. }
  assert (Hst : node ∉ stack h /\ node ∉ out h) by (split; intros Hx; apply Hn, (si_visited h Hi); auto).
  split; try done.
  - split; rewrite ?Hcr, ?Hsz.
    + rewrite (si_crt h Hi). lia.
    + rewrite Hk. pose proof (si_known h Hi). set_solver.
    + intros x. rewrite Hk, Hix. intros Hx. pose proof (si_crt h Hi). case_decide; [lia|].
      pose proof (si_index h Hi x ltac:(set_solver)). lia.
    + intros x. simpl. rewrite elem_of_union, elem_of_singleton, elem_of_cons. by rewrite (si_on h Hi).
    + intros x. rewrite Hk. simpl. rewrite elem_of_union, elem_of_singleton, elem_of_cons, (si_visited h Hi). tauto.
    + simpl. constructor; [|apply Hi]. rewrite elem_of_app. tauto.
    + intros [|a s1] x s2 y E Hy; simpl in E; injection E as -> E.
      * subst s2. pose proof (si_stack_known h y Hi Hy) as Hyk. rewrite (Hold y Hyk), Hix, decide_True by done.
        by apply (si_index h Hi).
      * assert (Hxs : x ∈ stack h) by (rewrite E; set_solver). assert (Hys : y ∈ stack h) by (rewrite E; set_solver).
        rewrite !Hold by by apply si_stack_known. by eapply (si_sorted h Hi).
    + intros x [->|Hx]%elem_of_cons.
      * exists node. split; [by left|]. rewrite Hlo, Hix, !decide_True by done. by split_and!.
      * pose proof (si_stack_known h x Hi Hx). destruct (si_low h Hi x Hx) as (y & Hy & Hl & Hle & Hr).
        pose proof (si_stack_known h y Hi Hy). exists y. split; [by right|]. rewrite Hlo, decide_False, !Hold by congruence. done.
    + apply Hi.
    + apply Hi.
    + apply Hi.
  - split; try done.
    + rewrite Hk. set_solver.
    + intros x Hx. apply list_elem_of_singleton in Hx as ->. done.
    + intros x Hx. rewrite Hlo, decide_False by congruence. done.
    + simpl. by rewrite app_nil_r.
  - by rewrite Hix, decide_True.
  - intros x Hx. by apply elem_of_nil in Hx.
  - intros x [Hx Hnx]. rewrite Hk in Hx. assert (x = node) as -> by set_solver. done.
  - intros y Hy. by apply elem_of_nil in Hy.
  - intros x y _ [[Hx _]|Hx]; by apply elem_of_nil in Hx.
  - split; [done|]. intros [(C & HC & _)|[(x & [Hx Hnx] & Hne & _)|Hx]].
    + by apply elem_of_nil in HC.
    + rewrite Hk in Hx. set_solver.
    + by apply elem_of_nil in Hx.
Qed.

(** ** The loop *)
Section loop.
Context (node : T) (h0 : sccInfo T).
Hypothesis Hi0 : scc_inv h0.

Lemma loop_stack l1 b h s cs : scc_loop node h0 l1 b h s cs -> stack h = s ++ node :: stack h0.
Proof. intros [_ [] _ _ _ _ _ _]. by rewrite ss_stack0, <- app_assoc. Qed.

Lemma loop_node l1 b h s cs : scc_loop node h0 l1 b h s cs -> node ∈ stack h.
Proof. intros Hl. rewrite (loop_stack _ _ _ _ _ Hl), elem_of_app. right. left. Qed.

(** A successor that is already in a component. *)
Lemma loop_out l1 b h s cs next : scc_loop node h0 l1 b h s cs ->
  next ∈ known h -> next ∉ stack h -> scc_loop node h0 (l1 ++ [next]) b h s cs.
Proof.
  intros Hl Hk Hn. pose proof (loop_node _ _ _ _ _ Hl) as Hnode. destruct Hl as [L1 L2 L3 L4 L5 L6 L7 L8]. split; try done.
  - intros y [Hy|Hy]%elem_of_app; [by apply L6|]. by apply list_elem_of_singleton in Hy as ->.
  - intros x y Hy Hc. apply (L7 x y Hy). destruct Hc as [Hc|[Hc|Hc]%elem_of_app]; [by left|by right|].
    apply list_elem_of_singleton in Hc as ->. exfalso. apply Hn. rewrite (ss_stack _ _ _ _ L2). set_solver.
  - rewrite L8, elem_of_app, list_elem_of_singleton. assert (node <> next) by congruence. tauto.
Qed.

(** A successor that is on the stack. *)
Lemma loop_on l1 b h s cs next : scc_loop node h0 l1 b h s cs -> calls_edge g node next -> next ∈ stack h ->
  scc_loop node h0 (l1 ++ [next]) (if decide (next = node) then true else b) (setLowLink node next h) s cs.
Proof.
  intros Hl He Hst. pose proof (loop_node _ _ _ _ _ Hl) as Hnode. pose proof (loop_stack _ _ _ _ _ Hl) as Hstack. destruct Hl as [L1 L2 L3 L4 L5 L6 L7 L8].
  pose proof (si_stack_known h next L1 Hst) as Hk.
  destruct (setLowLink_ok h node next L1 Hnode Hk ltac:(by apply rtc_once) ltac:(by left)) as (S1 & S2 & S3).
  destruct (setLowLink_same node next h) as (E1 & E2 & E3 & E4).
  assert (Eidx : forall x, idx (setLowLink node next h) x = idx h x) by (intros; unfold idx; by rewrite E1).
  assert (Ek : known (setLowLink node next h) = known h) by (unfold known; by rewrite E1).
  pose proof (si_nodup h L1) as Hnd. rewrite Hstack in Hnd.
  split; try done.
  - destruct L2 as [K1 K2 K3 K4 K5 K6]. split; rewrite ?Ek, ?E2, ?E3; try done.
    + intros x Hx. rewrite Eidx. by apply K2.
    + intros x Hx. rewrite S3; [by apply K5|]. intros ->. apply (K4 node); [set_solver|done].
  - by rewrite Eidx.
  - intros x Hx. rewrite Eidx, S3; [by apply L4|]. intros ->. rewrite <- app_assoc in Hnd.
    apply NoDup_app in Hnd as (_ & Hd & _). apply (Hd node Hx). set_solver.
  - intros x. unfold fresh. rewrite Ek. apply L5.
  - intros y. rewrite Ek. intros [Hy|Hy]%elem_of_app; [by apply L6|]. by apply list_elem_of_singleton in Hy as ->.
  - intros x y Hy Hc. rewrite S2, Eidx. destruct Hc as [Hc|[Hc|Hc]%elem_of_app].
    + pose proof (L7 x y Hy (or_introl Hc)). lia.
    + pose proof (L7 x y Hy (or_intror Hc)). lia.
    + apply list_elem_of_singleton in Hc as ->. destruct (si_low h L1 next Hst) as (w & _ & E & Hle & _). lia.
  - unfold fresh. rewrite Ek, elem_of_app, list_elem_of_singleton. case_decide as E.
    + split; [|done]. intros _. right. right. by right.
    + unfold fresh in L8. rewrite L8. assert (node <> next) by congruence. tauto.
Qed.

(** A successor that is new: the recursive call, then its lowlink. *)
Lemma loop_new l1 b h s cs next l h1 s2 cs2 : scc_loop node h0 l1 b h s cs -> calls_edge g node next -> next ∉ known h ->
  scc_post next h l h1 s2 cs2 ->
  scc_loop node h0 (l1 ++ [next]) (b || l) (setLowLink node next h1) (s2 ++ s) (cs ++ cs2).
Proof.
  intros Hl He Hn [P1 P2 P3 P4 P5 P6 P7 P8 P9]. pose proof (loop_node _ _ _ _ _ Hl) as Hnode.
  pose proof (loop_stack _ _ _ _ _ Hl) as Hstack. destruct Hl as [L1 L2 L3 L4 L5 L6 L7 L8].
  pose proof (si_stack_known h node L1 Hnode) as Hnk. destruct P2 as [Q1 Q2 Q3 Q4 Q5 Q6]. destruct L2 as [K1 K2 K3 K4 K5 K6].
  assert (Hnode1 : node ∈ stack h1) by (rewrite Q3; set_solver).
  assert (Hcase : next ∈ stack h1 \/ low h1 node <= low h1 next).
  { destruct P5 as [[_ E]|[Hin _]]; [right|left; rewrite Q3; set_solver]. rewrite E, P4, Q5 by done.
    destruct (si_low h L1 node Hnode) as (w & _ & E' & Hle & _). pose proof (si_index h L1 node Hnk). lia. }
  destruct (setLowLink_ok h1 node next P1 Hnode1 P3 ltac:(by apply rtc_once) Hcase) as (S1 & S2 & S3).
  destruct (setLowLink_same node next h1) as (E1 & E2 & E3 & E4).
  assert (Eidx : forall x, idx (setLowLink node next h1) x = idx h1 x) by (intros; unfold idx; by rewrite E1).
  assert (Ek : known (setLowLink node next h1) = known h1) by (unfold known; by rewrite E1).
  pose proof (si_nodup h L1) as Hnd. rewrite Hstack in Hnd.
  assert (Hsn : forall x, x ∈ s -> x <> node).
  { intros x Hx ->. rewrite <- app_assoc in Hnd. apply NoDup_app in Hnd as (_ & Hd & _). apply (Hd node Hx). set_solver. }
  assert (Hsk : forall x, x ∈ s -> x ∈ known h) by (intros x Hx; apply si_stack_known; [done|]; rewrite Hstack; set_solver).
  assert (Hfresh : forall x, fresh h0 h1 x <-> fresh h0 h x \/ fresh h h1 x).
  { intros x. unfold fresh. destruct (decide (x ∈ known h)); set_solver. }
  split; try done.
  - split; rewrite ?Ek, ?E2, ?E3.
    + set_solver.
    + intros x Hx. rewrite Eidx, Q2 by set_solver. by apply K2.
    + rewrite Q3, K3, <- !app_assoc. done.
    + intros x. rewrite <- app_assoc, elem_of_app. intros [Hx|Hx]; [|by apply K4]. intros Hx0. apply (Q4 x Hx). set_solver.
    + intros x Hx. rewrite S3; [rewrite Q5 by set_solver; by apply K5|]. intros ->. apply (K4 node); [set_solver|done].
    + by rewrite Q6, K6, app_assoc.
  - by rewrite Eidx, Q2.
  - intros x Hx. rewrite Eidx. apply elem_of_app in Hx as [Hx|Hx].
    + rewrite S3; [by apply P6|]. intros ->. by apply (Q4 node).
    + rewrite S3, Q2, Q5 by auto. by apply L4.
  - intros x. unfold fresh. rewrite Ek. fold (fresh h0 h1 x). rewrite Hfresh. intros [Hx|Hx].
    + destruct (L5 x Hx) as [Hr Hs]. split; [done|]. intros Hne y Hy. apply Q1. by apply Hs.
    + destruct (P7 x Hx) as [Hr Hs]. split; [|intros _; apply Hs]. etrans; [by apply rtc_once|done].
  - intros y. rewrite Ek. intros [Hy|Hy]%elem_of_app; [by apply Q1, L6|]. by apply list_elem_of_singleton in Hy as ->.
  - intros x y Hy Hc. assert (Hyh : y ∈ stack h) by (rewrite Hstack; set_solver).
    rewrite S2, Eidx, (Q2 y), (Q5 node) by by apply si_stack_known.
    destruct Hc as [[[Hx|Hx]%elem_of_app Hc]|[Hc|Hc]%elem_of_app].
    + pose proof (P8 x y Hx Hyh Hc). lia.
    + pose proof (L7 x y Hy (or_introl (conj Hx Hc))). lia.
    + pose proof (L7 x y Hy (or_intror Hc)). lia.
    + apply list_elem_of_singleton in Hc as ->. exfalso. by apply Hn, si_stack_known.
  - unfold fresh. rewrite Ek. fold (fresh h0 h1). rewrite orb_true_iff, L8, P9, elem_of_app, list_elem_of_singleton.
    assert (node <> next) by congruence. split.
    + intros [[(C & HC & Hsz)|[(x & Hx & Hne & Hs)|Hin]]|[(C & HC & Hsz)|(x & Hx & Hs)]].
      * left. exists C. split; [set_solver|done].
      * right. left. exists x. split; [apply Hfresh; by left|done].
      * right. right. by left.
      * left. exists C. split; [set_solver|done].
      * right. left. exists x. split; [apply Hfresh; by right|]. split; [|done]. intros ->. by destruct Hx.
    + intros [(C & [HC|HC]%elem_of_app & Hsz)|[(x & [Hx|Hx]%Hfresh & Hne & Hs)|[Hin|]]]; try done.
      * left. left. by exists C.
      * right. left. by exists C.
      * left. right. left. by exists x.
      * right. right. by exists x.
      * left. right. by right.
Qed.
End loop.

Lemma neighbours_ok fuel rec node h0 : scc_inv h0 -> node ∈ X ->
  (forall next h, scc_inv h -> next ∈ X -> next ∉ known h -> (pending (known h) (out_edges g) < fuel)%nat ->
     exists b h' s cs, rec next h = Some (b, h') /\ scc_post next h b h' s cs) ->
  forall l2 l1 b h s cs, callees g node = l1 ++ l2 -> scc_loop node h0 l1 b h s cs ->
  (l2 = [] \/ (pending (known h) (out_edges g) < fuel)%nat) ->
  exists b' h' s' cs', scc_neighbours rec node l2 b h = Some (b', h') /\ scc_loop node h0 (callees g node) b' h' s' cs'.
Proof.
  intros Hi0 HX Hrec. induction l2 as [|next l2 IH]; intros l1 b h s cs Hc Hl Hf.
  - rewrite Hc, app_nil_r. do 4 eexists. by split.
  - destruct Hf as [|Hf]; [done|]. cbn [scc_neighbours]. fold (scc_neighbours rec node).
    assert (He : calls_edge g node next) by (unfold calls_edge; rewrite Hc; set_solver).
    assert (Hc' : callees g node = (l1 ++ [next]) ++ l2) by (by rewrite <- app_assoc).
    pose proof (sl_inv _ _ _ _ _ _ _ Hl) as Hi. destruct (index h !! next) as [i|] eqn:Ei.
    + assert (Hk : next ∈ known h) by (by eapply elem_of_dom_2). case_bool_decide as Hon.
      * apply (IH (l1 ++ [next]) _ _ s cs Hc'); [apply loop_on; try done; by apply (si_on h Hi)|].
        right. unfold known. destruct (setLowLink_same node next h) as (-> & _). done.
      * apply (IH (l1 ++ [next]) _ _ s cs Hc'); [|by right]. apply loop_out; try done.
        intros Hst. by apply Hon, (si_on h Hi).
    + assert (Hk : next ∉ known h) by (by apply not_elem_of_dom).
      destruct (Hrec next h Hi (X_closed node next HX He) Hk Hf) as (l & h1 & s2 & cs2 & -> & Hp). cbn [mbind option_bind].
      apply (IH (l1 ++ [next]) _ _ (s2 ++ s) (cs ++ cs2) Hc'); [by eapply loop_new|]. right.
      unfold known. destruct (setLowLink_same node next h1) as (-> & _). fold (known h1).
      eapply Nat.le_lt_trans; [|exact Hf]. apply pending_mono. apply (ss_known _ _ _ _ (sp_step _ _ _ _ _ _ Hp)).
Qed.

(** ** Leaving a node *)
Lemma NoDup_split_unique (l1 l2 k1 k2 : list T) x : NoDup (l1 ++ x :: l2) -> l1 ++ x :: l2 = k1 ++ x :: k2 -> l1 = k1.
Proof.
  revert k1. induction l1 as [|a l1 IH]; intros k1 Hd E; destruct k1 as [|c k1]; simpl in *; try done.
  - injection E as -> E. apply NoDup_cons in Hd as [Hn _]. subst l2. set_solver.
  - injection E as -> E. apply NoDup_cons in Hd as [Hn _]. set_solver.
  - injection E as -> E. f_equal. apply NoDup_cons in Hd as [_ Hd]. by apply IH.
Qed.

Lemma app_prefix (l k o1 o2 : list T) x : l ++ k = o1 ++ x :: o2 -> x ∉ l -> exists q, o1 = l ++ q.
Proof.
  revert o1. induction l as [|a l IH]; intros o1 E Hx; [by exists o1|]. destruct o1 as [|c o1]; simpl in E; injection E as -> E.
  - set_solver.
  - destruct (IH o1 E ltac:(set_solver)) as [q ->]. by exists q.
Qed.

Lemma pop_until_ok (node : T) s rest : node ∉ s -> pop_until node (s ++ node :: rest) = Some (s ++ [node], rest).
Proof.
  induction s as [|x s IH]; intros Hn; cbn [app pop_until].
  - by rewrite decide_True.
  - rewrite decide_False by set_solver. rewrite IH by set_solver. done.
Qed.

Section leave.
Context (node : T) (h0 h : sccInfo T) (b : bool) (s : list T) (cs : list (gset T)).
Hypothesis Hi0 : scc_inv h0.
Hypothesis Hnew : node ∉ known h0.
Hypothesis Hl : scc_loop node h0 (callees g node) b h s cs.

Lemma leave_members x : x ∈ s ++ [node] -> creach g node x /\ (forall y, calls_edge g x y -> y ∈ known h) /\ x ∈ stack h /\ x ∉ known h0.
Proof.
  intros Hx. pose proof (loop_stack _ _ _ _ _ _ _ Hl) as Hstack. destruct Hl as [L1 L2 L3 L4 L5 L6 L7 L8].
  assert (Hst : x ∈ stack h) by (rewrite Hstack; set_solver). pose proof (si_stack_known h x L1 Hst) as Hk.
  assert (Hn : x ∉ known h0) by (by apply (ss_new _ _ _ _ L2)). destruct (L5 x (conj Hk Hn)) as [Hr Hs].
  split; [done|]. split; [|done]. destruct (decide (x = node)) as [->|Hne]; [|by apply Hs]. intros y Hy. by apply L6.
Qed.

Lemma leave_below y : y ∈ stack h0 -> idx h y < idx h node /\ y ∉ s ++ [node].
Proof.
  intros Hy. pose proof (loop_stack _ _ _ _ _ _ _ Hl) as Hstack. destruct Hl as [L1 L2 L3 L4 L5 L6 L7 L8]. split.
  - by eapply (si_sorted h L1 s node).
  - intros Hin. apply (ss_new _ _ _ _ L2 y Hin). by apply si_stack_known.
Qed.

Lemma leave_fresh_flag : (b = true <-> (exists C, C ∈ cs /\ (2 <= size C)%nat) \/ exists x, fresh h0 h x /\ calls_edge g x x).
Proof.
  pose proof (loop_node _ _ _ _ _ _ _ Hl) as Hnode. destruct Hl as [L1 L2 L3 L4 L5 L6 L7 L8]. rewrite L8.
  assert (Hf : fresh h0 h node) by (split; [by apply si_stack_known|done]). split.
  - intros [?|[(x & Hx & _ & Hs)|Hin]]; [by left|right; by exists x|right; by exists node].
  - intros [?|(x & Hx & Hs)]; [by left|]. right. destruct (decide (x = node)) as [->|]; [by right|left; by exists x].
Qed.

(** The node stays: part of an older component. *)
Lemma leave_stay : low h node <> idx h node -> scc_post node h0 b h (s ++ [node]) cs.
Proof.
  intros Hne. pose proof (loop_node _ _ _ _ _ _ _ Hl) as Hnode. pose proof leave_members as Hmem. pose proof leave_fresh_flag as Hflag.
  destruct Hl as [L1 L2 L3 L4 L5 L6 L7 L8]. destruct (si_low h L1 node Hnode) as (w & _ & E & Hle & _).
  split; try done.
  - by apply si_stack_known.
  - right. split; [set_solver|lia].
  - intros x [Hx|Hx]%elem_of_app; [by apply L4|]. apply list_elem_of_singleton in Hx as ->. lia.
  - intros x Hx. destruct (L5 x Hx) as [Hr Hs]. split; [done|]. destruct (decide (x = node)) as [->|]; [|by apply Hs].
    intros y Hy. by apply L6.
  - intros x y Hx Hy He. rewrite <- (ss_index _ _ _ _ L2 y) by by apply si_stack_known.
    apply (L7 x y Hy). apply elem_of_app in Hx as [Hx|Hx]; [by left|]. apply list_elem_of_singleton in Hx as ->. by right.
Qed.

(** The node is the root of a component, which is popped. *)
Section root.
Hypothesis Hroot : low h node = idx h node.

Lemma leave_edge x y : x ∈ s ++ [node] -> calls_edge g x y -> y ∈ s ++ [node] \/ y ∈ out h.
Proof.
  intros Hx He. destruct (leave_members x Hx) as (_ & Hk & _ & _). specialize (Hk y He).
  pose proof (loop_stack _ _ _ _ _ _ _ Hl) as Hstack. apply (si_visited h (sl_inv _ _ _ _ _ _ _ Hl)) in Hk as [Hy|]; [|by right].
  rewrite Hstack, (cons_middle node s), app_assoc in Hy. apply elem_of_app in Hy as [|Hy]; [by left|]. exfalso.
  destruct (leave_below y Hy) as [Hlt _]. pose proof (sl_bound _ _ _ _ _ _ _ Hl x y Hy) as Hb.
  assert (low h node <= idx h y); [|lia]. apply Hb. apply elem_of_app in Hx as [Hx|Hx]; [by left|].
  apply list_elem_of_singleton in Hx as ->. by right.
Qed.

Lemma leave_reach x y : x ∈ s ++ [node] -> creach g x y -> y ∈ s ++ [node] \/ y ∈ out h.
Proof.
  intros Hx Hr. apply (closed_reach g (fun z => z ∈ s ++ [node] \/ z ∈ out h) x y); [|by left|done].
  intros u v [Hu|Hu] He; [by apply (leave_edge u)|right; by eapply (si_closed h (sl_inv _ _ _ _ _ _ _ Hl))].
Qed.

Lemma leave_disjoint x : x ∈ stack h -> x ∉ out h.
Proof.
  intros Hx Ho. pose proof (si_nodup h (sl_inv _ _ _ _ _ _ _ Hl)) as Hnd. apply NoDup_app in Hnd as (_ & Hd & _). by apply (Hd x).
Qed.

Lemma leave_back x : x ∈ s ++ [node] -> creach g x node.
Proof.
  assert (Hind : forall n x, Z.to_nat (idx h x) = n -> x ∈ s ++ [node] -> creach g x node).
  2: { intros Hx. by eapply Hind. }
  intros n. induction (lt_wf n) as [n _ IH]. intros z E Hz. apply elem_of_app in Hz as Hz'. destruct Hz' as [Hs|Hz'].
  2: { apply list_elem_of_singleton in Hz' as ->. done. }
  destruct (leave_members z Hz) as (_ & _ & Hst & _). destruct Hl as [L1 L2 L3 L4 L5 L6 L7 L8].
  destruct (si_low h L1 z Hst) as (y & Hy & El & Hle & Hr). pose proof (L4 z Hs) as Hlt.
  pose proof (si_index h L1 y ltac:(by apply si_stack_known)). etrans; [exact Hr|].
  assert (Hyin : y ∈ s ++ [node]).
  { destruct (leave_reach z y Hz Hr) as [|Ho]; [done|]. by apply leave_disjoint in Hy. }
  eapply (IH (Z.to_nat (idx h y))); [lia|done|done].
Qed.

Lemma leave_scc : is_scc (list_to_set (s ++ [node])).
Proof.
  split; [set_solver|]. intros x Hx y. rewrite elem_of_list_to_set in Hx. rewrite elem_of_list_to_set. split.
  - intros Hy. split; (etrans; [by apply leave_back|]); by apply leave_members.
  - intros [Hxy Hyx]. destruct (leave_reach x y Hx Hxy) as [|Ho]; [done|]. exfalso.
    destruct (leave_members x Hx) as (_ & _ & Hst & _). apply (leave_disjoint x Hst).
    apply (closed_reach g (fun z => z ∈ out h) y x); [|done|done]. intros u v Hu He.
    by eapply (si_closed h (sl_inv _ _ _ _ _ _ _ Hl)).
Qed.

Definition popped : sccInfo T :=
  {| crtIndex := crtIndex h; stack := stack h0; onStack := onStack h ∖ list_to_set (s ++ [node]);
     index := index h; lowlink := lowlink h; sccs := sccs h ++ [list_to_set (s ++ [node])];
     out := out h ++ (s ++ [node]) |}.

Lemma leave_notin : node ∉ s.
Proof.
  pose proof (si_nodup h (sl_inv _ _ _ _ _ _ _ Hl)) as Hnd. rewrite (loop_stack _ _ _ _ _ _ _ Hl), <- app_assoc in Hnd.
  apply NoDup_app in Hnd as (_ & Hd & _). intros Hin. apply (Hd node Hin). set_solver.
Qed.

Lemma leave_pop : scc_pop node h = Some ((1 <? length (s ++ [node]))%nat, popped).
Proof. unfold scc_pop. rewrite (loop_stack _ _ _ _ _ _ _ Hl), pop_until_ok by apply leave_notin. done. Qed.

Lemma popped_inv : scc_inv popped.
Proof.
  pose proof (loop_stack _ _ _ _ _ _ _ Hl) as Hstack. pose proof leave_below as Hbelow. pose proof leave_edge as Hedge.
  pose proof leave_back as Hback. pose proof leave_members as Hmem. pose proof leave_scc as Hscc.
  destruct Hl as [L1 L2 L3 L4 L5 L6 L7 L8].
  assert (Hst : stack h = (s ++ [node]) ++ stack h0) by (by rewrite Hstack, <- app_assoc).
  destruct L1 as [W1 W2 W3 W4 W5 W6 W7 W8 W9 W10 (ms & E1 & E2 & W11)].
  split; try done; cbn [popped stack onStack out sccs].
  - intros x. rewrite elem_of_difference, W4, Hst, elem_of_list_to_set, elem_of_app. split; [tauto|].
    intros Hx. split; [by right|]. by apply Hbelow.
  - intros x. change (known popped) with (known h). rewrite W5, Hst, !elem_of_app. tauto.
  - rewrite Hst in W6. eapply NoDup_Permutation_proper; [|exact W6]. rewrite app_assoc. rewrite <- (app_assoc (s ++ [node])).
    rewrite (Permutation_app_comm (stack h0 ++ out h)). done.
  - intros s1 x s2 y E Hy. apply (W7 ((s ++ [node]) ++ s1) x s2 y); [|done]. rewrite Hst, E. by rewrite !app_assoc.
  - intros x Hx. destruct (W8 x) as (y & Hy & El & Hle & Hr); [rewrite Hst; set_solver|]. exists y. split; [|done].
    rewrite Hst in Hy. apply elem_of_app in Hy as [Hy|]; [|done]. exfalso. destruct (Hbelow x Hx) as [Hlt _].
    change (idx popped y <= idx popped x) with (idx h y <= idx h x) in Hle.
    assert (idx h node <= idx h y); [|lia]. apply elem_of_app in Hy as [Hy|Hy].
    + apply list_elem_of_split in Hy as (t1 & t2 & ->). pose proof (W7 t1 y (t2 ++ node :: stack h0) node) as Hs.
      assert (idx h node < idx h y); [|lia]. apply Hs; [|set_solver]. rewrite Hstack. by rewrite <- app_assoc.
    + apply list_elem_of_singleton in Hy as ->. done.
  - intros x y. rewrite !elem_of_app. rewrite <- (elem_of_app s [node] y). intros [Hx|Hx] He.
    + left. by eapply W9.
    + rewrite <- elem_of_app in Hx. destruct (Hedge x y Hx He); [by right|by left].
  - intros o1 x o2 y E He. destruct (decide (x ∈ out h)) as [Ho|Hno].
    + assert (exists o3, out h = o1 ++ x :: o3) as [o3 E3]; [|by eapply W10].
      apply list_elem_of_split in Ho as (p1 & p2 & Ep). rewrite Ep, <- app_assoc in E. cbn [app] in E.
      assert (Hd : NoDup (p1 ++ x :: p2 ++ s ++ [node])).
      { assert (NoDup (out h ++ (s ++ [node]))) as Hd'; [|by rewrite Ep, <- app_assoc in Hd'].
        rewrite Hst in W6. rewrite <- app_assoc in W6. rewrite (Permutation_app_comm (s ++ [node])) in W6.
        rewrite <- app_assoc in W6. by apply NoDup_app in W6 as (_ & _ & ?). }
      exists p2. rewrite Ep. f_equal. eapply NoDup_split_unique; [exact Hd|exact E].
    + assert (Hx : x ∈ s ++ [node]) by (assert (x ∈ out h ++ (s ++ [node])) by (rewrite E; set_solver); set_solver).
      destruct (Hedge x y Hx He) as [Hy|Hy].
      * right. etrans; [by apply Hback|]. by apply Hmem.
      * left. assert (Hsub : exists q, o1 = out h ++ q).
        { eapply app_prefix; [exact E|done]. }
        destruct Hsub as [q ->]. set_solver.
  - exists (ms ++ [s ++ [node]]). rewrite concat_app, fmap_app, E1, E2. cbn [concat]. rewrite app_nil_r.
    split; [done|]. split; [done|]. apply Forall_app. split; [done|]. by constructor.
Qed.

Lemma leave_popped : scc_post node h0 (b || (1 <? length (s ++ [node]))%nat) popped [] (cs ++ [list_to_set (s ++ [node])]).
Proof.
  pose proof popped_inv as Hpi. pose proof leave_fresh_flag as Hflag. pose proof leave_members as Hmem. pose proof (loop_node _ _ _ _ _ _ _ Hl) as Hnode.
  pose proof (loop_stack _ _ _ _ _ _ _ Hl) as Hstack.
  assert (Hsz : size (list_to_set (C := gset T) (s ++ [node])) = length (s ++ [node])).
  { apply size_list_to_set. pose proof (si_nodup h (sl_inv _ _ _ _ _ _ _ Hl)) as Hnd.
    assert (E : stack h ++ out h = (s ++ [node]) ++ (stack h0 ++ out h)) by (by rewrite Hstack, <- !app_assoc).
    rewrite E in Hnd. by apply NoDup_app in Hnd as (? & _). }
  destruct Hl as [L1 L2 L3 L4 L5 L6 L7 L8]. destruct L2 as [K1 K2 K3 K4 K5 K6].
  split; try done.
  - split; try done. + intros x Hx. by apply elem_of_nil in Hx. + cbn [popped sccs]. by rewrite K6, app_assoc.
  - by apply (si_stack_known h node).
  - left. by split.
  - intros x Hx. by apply elem_of_nil in Hx.
  - intros x Hx. destruct (L5 x Hx) as [Hr Hs]. split; [done|]. destruct (decide (x = node)) as [->|]; [|by apply Hs].
    intros y Hy. by apply L6.
  - intros x y Hx. by apply elem_of_nil in Hx.
  - change (fresh h0 popped) with (fresh h0 h). rewrite orb_true_iff, Hflag, Nat.ltb_lt, <- Hsz. split.
    + intros [[(C & HC & Hc)|Hs]|Hm]; [left; exists C; split; [set_solver|done]|by right|].
      left. eexists. split; [apply elem_of_app; right; by apply list_elem_of_singleton|lia].
    + intros [(C & [HC|HC]%elem_of_app & Hc)|Hs]; [left; left; by exists C| |left; by right].
      apply list_elem_of_singleton in HC as ->. right. lia.
Qed.
End root.
End leave.

(** ** [strongConnect] *)
Lemma strongConnect_ok fuel : forall node h, scc_inv h -> node ∈ X -> node ∉ known h -> (pending (known h) (out_edges g) < fuel)%nat ->
  exists b h' s cs, strongConnect fuel g node h = Some (b, h') /\ scc_post node h b h' s cs.
Proof.
  induction fuel as [|fuel IH]; intros node h Hi HX Hn Hf; [lia|]. cbn [strongConnect].
  pose proof (scc_enter_ok node h Hi HX Hn) as Hent.
  destruct (neighbours_ok fuel (strongConnect fuel g) node h Hi HX IH (callees g node) [] false (scc_enter node h) [] [] eq_refl Hent)
    as (b & h' & s & cs & -> & Hl).
  { unfold callees. destruct (ofind node (out_edges g)) as [l|] eqn:E; [|by left]. simpl. destruct l as [|y l]; [by left|right].
    rewrite known_enter by done. pose proof (pending_visit node (y :: l) (known h) (out_edges g) E Hn). simpl in *. lia. }
  cbn [mbind option_bind]. fold (low h' node) (idx h' node). destruct (Z.eqb_spec (low h' node) (idx h' node)) as [Hroot|Hne].
  - rewrite (leave_pop node h h' b s cs) by done. cbn [mbind option_bind]. do 4 eexists. split; [done|]. by apply leave_popped.
  - do 4 eexists. split; [done|]. by apply leave_stay.
Qed.

Lemma scc_inv_0 : scc_inv (scc0 []).
Proof.
  split; unfold known; simpl; rewrite ?dom_empty_L; try set_solver.
  - constructor.
  - intros s1 x s2 y E. by destruct s1.
  - intros o1 x o2 y E. by destruct o1.
  - exists []. by split_and!.
Qed.

Lemma sccSort_ok start : start ∈ X -> exists b h cs, sccSort g start [] = Some (b, out h, sccs h) /\
  scc_post start (scc0 []) b h [] cs /\ (forall x, x ∈ known h <-> x ∈ out h) /\ sccs h = cs.
Proof.
  intros HX. unfold sccSort. destruct (strongConnect_ok (scc_fuel g) start (scc0 []) scc_inv_0 HX) as (b & h & s & cs & -> & Hp).
  - unfold known. simpl. rewrite dom_empty_L. set_solver.
  - unfold known. simpl. rewrite dom_empty_L, pending_empty. unfold scc_fuel. lia.
  - cbn [mbind option_bind]. exists b, h, cs. split; [done|]. pose proof (sp_inv _ _ _ _ _ _ Hp) as Hi.
    pose proof (ss_stack _ _ _ _ (sp_step _ _ _ _ _ _ Hp)) as Hst. simpl in Hst. rewrite app_nil_r in Hst.
    assert (s = []) as ->.
    { destruct (sp_case _ _ _ _ _ _ Hp) as [[-> _]|[Hin Hlt]]; [done|]. exfalso. rewrite <- Hst in Hin.
      destruct (si_low h Hi start Hin) as (y & Hy & El & _). pose proof (sp_idx _ _ _ _ _ _ Hp) as Hix. simpl in Hix.
      pose proof (si_index h Hi y ltac:(by apply si_stack_known)). lia. }
    split; [done|]. split; [|apply (ss_sccs _ _ _ _ (sp_step _ _ _ _ _ _ Hp))].
    intros x. rewrite (si_visited h Hi), Hst. split; [intros [Hx|]; [by apply elem_of_nil in Hx|done]|by right].
Qed.
End scc.

(** ** The specification *)
Section spec.
Context {T : Type} `{Countable T} {ord : Ordered T}.
Implicit Types (g : CallGraph T).

Lemma nodes_closed g x y : wf g -> x ∈ (list_to_set (nodes g) : gset T) -> calls_edge g x y -> y ∈ (list_to_set (nodes g) : gset T).
Proof. intros Hw _ He. apply elem_of_list_to_set. by apply (calls_edge_nodes g x y). Qed.

Lemma size_two (C : gset T) x y : x ∈ C -> y ∈ C -> x <> y -> (2 <= size C)%nat.
Proof.
  intros Hx Hy Hne. assert (Hs : ({[ x; y ]} : gset T) ⊆ C) by set_solver.
  apply subseteq_size in Hs. rewrite size_union, !size_singleton in Hs by set_solver. lia.
Qed.

Lemma two_members (C : gset T) : (2 <= size C)%nat -> exists x y, x ∈ C /\ y ∈ C /\ x <> y.
Proof.
  intros Hs. destruct (size_pos_elem_of C) as [x Hx]; [lia|]. exists x.
  destruct (size_pos_elem_of (C ∖ {[ x ]})) as [y Hy].
  - rewrite size_difference, size_singleton by set_solver. lia.
  - exists y. set_solver.
Qed.

Lemma creach_tc g x y : creach g x y -> x <> y -> tc (calls_edge g) x y.
Proof. intros Hr Hne. by apply rtc_tc in Hr as [|]. Qed.

Lemma sccSort_correct g start : wf g -> start ∈ nodes g -> (Z.of_nat (size_ g) < 2 ^ 32)%Z ->
  exists b o cs, sccSort g start [] = Some (b, o, cs) /\ NoDup o /\ (forall x, x ∈ o <-> creach g start x) /\
  (exists ms, o = concat ms /\ cs = list_to_set <$> ms) /\ Forall (is_scc g) cs /\
  (forall o1 x o2 y, o = o1 ++ x :: o2 -> calls_edge g x y -> y ∈ o1 \/ creach g y x) /\
  (b = true <-> exists x, creach g start x /\ tc (calls_edge g) x x).
Proof.
  intros Hw Hs Hsz. pose proof (wf_nodup g Hw) as Hnd.
  destruct (sccSort_ok g (list_to_set (nodes g))) with (start := start) as (b & h & cs & Hsort & Hp & Hk & Hcs).
  { intros x y. by apply nodes_closed. }
  { by rewrite size_list_to_set. }
  { by apply elem_of_list_to_set. }
  pose proof (sp_inv _ _ _ _ _ _ _ _ Hp) as [_ _ _ _ _ Hno _ _ Hcl Hord (ms & Eo & Ec & Hscc)].
  exists b, (out h), (sccs h). split; [done|].
  assert (Hreach : forall x, x ∈ out h <-> creach g start x).
  { intros x. split.
    - intros Hx. apply (sp_fresh _ _ _ _ _ _ _ _ Hp x). split; [by apply Hk|]. unfold known. simpl. rewrite dom_empty_L. set_solver.
    - intros Hr. apply (closed_reach g (fun z => z ∈ out h) start x); [intros u v; apply Hcl|apply Hk, (sp_node _ _ _ _ _ _ _ _ Hp)|done]. }
  split; [by apply NoDup_app in Hno as (_ & _ & ?)|]. split; [done|]. split; [by exists ms|].
  assert (Hall : Forall (is_scc g) (sccs h)) by (rewrite Ec; by apply Forall_fmap). split; [done|]. split; [exact Hord|].
  rewrite (sp_flag _ _ _ _ _ _ _ _ Hp), <- Hcs. split.
  - intros [(C & HC & H2)|(x & [Hx _] & He)].
    + destruct (two_members C H2) as (x & y & Hx & Hy & Hne). pose proof HC as HC'. rewrite Forall_forall in Hall.
      destruct (Hall C HC) as [_ Hmem]. destruct (proj1 (Hmem x Hx y) Hy) as [Hxy Hyx]. exists x. split.
      * apply Hreach. rewrite Eo. rewrite Ec in HC'. apply list_elem_of_fmap in HC' as (m & -> & Hm).
        apply elem_of_list_to_set in Hx. apply list_elem_of_In, in_concat. exists m. rewrite <- !list_elem_of_In. done.
      * etrans; apply creach_tc; done.
    + exists x. split; [by apply Hreach, Hk|by apply tc_once].
  - intros (x & Hr & Hc). apply Hreach in Hr as Hx.
    assert (exists y, calls_edge g x y /\ creach g y x) as (y & He & Hyx) by (inversion Hc as [? ? He|? z ? He Hzx]; subst; [by exists x|exists z; split; [done|by apply tc_rtc]]).
    destruct (decide (x = y)) as [<-|Hne].
    + right. exists x. split; [split; [by apply Hk|]|done]. unfold known. simpl. rewrite dom_empty_L. set_solver.
    + left. rewrite Eo in Hx. apply list_elem_of_In, in_concat in Hx as (m & Hm & Hxm). apply list_elem_of_In in Hm, Hxm.
      rewrite Forall_forall in Hscc. destruct (Hscc m Hm) as [_ Hmem]. exists (list_to_set m). split.
      * rewrite Ec. apply list_elem_of_fmap. by exists m.
      * apply (size_two _ x y); [by apply elem_of_list_to_set| |done]. apply (Hmem x); [by apply elem_of_list_to_set|].
        split; [by apply rtc_once|done].
Qed.

(** C11. [sccSort] ends; it lists every node that [start] reaches, once; the
    listed sets are strongly connected components, each one a consecutive part
    of the list; an edge leads to an earlier node of the list or stays inside a
    component; and the answer is whether the reachable part has a cycle. *)
Theorem sccSort_spec g start : wf g -> start ∈ nodes g -> (Z.of_nat (size_ g) < 2 ^ 32)%Z ->
  exists b o cs, sccSort g start [] = Some (b, o, cs) /\ NoDup o /\ (forall x, x ∈ o <-> creach g start x) /\
  (exists ms, o = concat ms /\ cs = list_to_set <$> ms) /\ Forall (is_scc g) cs /\
  (forall o1 x o2 y, o = o1 ++ x :: o2 -> calls_edge g x y -> y ∈ o1 \/ creach g y x) /\
  (b = true <-> exists x, creach g start x /\ tc (calls_edge g) x x).
Proof. apply sccSort_correct. Qed.
End spec.

Lemma sccSort_spec_witness : wf nested /\ exists b o cs, sccSort nested 1%Z [] = Some (b, o, cs) /\ NoDup o /\ 5%Z ∈ o.
Proof.
  assert (Hw : wf nested) by apply wf_from_calls. split; [assumption|].
  destruct (sccSort_spec nested 1%Z Hw) as (b & o & cs & Hs & Hnd & Hr & _).
  - change (nodes nested) with [1; 2; 3; 4; 5]%Z. left.
  - change (size_ nested) with 5%nat. lia.
  - exists b, o, cs. split; [assumption|]. split; [assumption|]. apply Hr.
    apply rtc_l with 2%Z; [change (2 ∈ [2])%Z; left|]. apply rtc_l with 3%Z; [change (3 ∈ [3])%Z; left|].
    apply rtc_l with 4%Z; [change (4 ∈ [2; 4])%Z; right; left|]. apply rtc_once. change (5 ∈ [1; 5])%Z. right; left.
Defined.
