(* ===== verification/CfgIter.v ===== *)
(** * Labelling the nodes of a control-flow graph: [cfg_algos.h], [cfg_algos.cpp]

    [label_maker] carries labels along the edges in one pass over a sorted
    graph; [chaotic_iterations] chooses between it and a worklist after asking
    [is_a_dag], which builds a [P4::CallGraph] and runs Tarjan's algorithm on
    it.  The transformer, the merger, the fixed-point test and the default
    constructor are template arguments of the source: functions of the label
    values they are given, with the label they write to as part of their
    result. *)
From S2P Require Import Prelude CfgGraph CallGraph.
Local Open Scope flexplan_scope.

(** ** Call graphs of control-flow graphs *)
(** [is_a_dag]'s loop over the neighbours of [n]. *)
Definition dag_neighbours (n : node_t) (neighs : EdgeEnumerator) (callGraph : CallGraph node_t) : outcome (CallGraph node_t) :=
  fold_left (fun r e => do cg <- r; calls n e.1 (add e.1 cg)) neighs (oret callGraph).
Definition dag_graph (holder : EdgeHolder) : outcome (CallGraph node_t) :=
  fold_left (fun r p => do cg <- r; dag_neighbours p.1 p.2 (add p.1 cg)) holder (oret empty_graph).
Definition is_a_dag (holder : EdgeHolder) (start : node_t) (sorted : list node_t) : option (bool * list node_t) :=
  match dag_graph holder with
  | Done cg _ => '(cyclic, sorted, _) ← sccSort cg start sorted; Some (negb cyclic, sorted)
  | Aborted _ => None
  end.

Definition mk_neighbours (n : node_t) (neighs : EdgeEnumerator) (thisgraph : CallGraph node_t) : outcome (CallGraph node_t) :=
  fold_left (fun r e => do cg <- r; calls n e.1 cg) neighs (oret thisgraph).
Definition mkCallGraph (holder : EdgeHolder) : outcome (CallGraph node_t) :=
  fold_left (fun r n => do cg <- r; mk_neighbours n.1 n.2 (add n.1 cg)) holder (oret empty_graph).

Definition sccIndices (sccs : list (gset node_t)) : gmap node_t Z :=
  (fold_left (fun st scc => (set_fold (fun n => <[n := st.2]>) st.1 scc, wrapu 32 (st.2 + 1))) sccs (∅, 0%Z)).1.

(** ** [label_maker] and [chaotic_iterations] *)
Section labels.
Context {Label : Type}.
(** [t(crt, neigh, label, dst)]: the answer, and [dst] afterwards. *)
Context (t : node_t -> Edge -> Label -> Label -> bool * Label).
(** [m(label, dst)]: [label] afterwards. *)
Context (m : Label -> Label -> Label).
(** [fp(label, dst, n)]: nothing new for [n]. *)
Context (fp : Label -> Label -> node_t -> bool).
(** [_dc()] *)
Context (dc : Label).

(** One edge out of [crt].  The label of [crt] is read through a reference,
    so a merge into it, along a self-loop, is seen by the next edge. *)
Definition label_edge (crt : node_t) (labels : gmap node_t Label) (neigh : Edge) : gmap node_t Label :=
  match labels !! crt with
  | None => labels
  | Some label =>
      let '(propagated, dst) := t crt neigh label dc in
      if propagated then
        match labels !! neigh.1 with
        | None => <[neigh.1 := dst]> labels
        | Some ex => <[neigh.1 := m ex dst]> labels
        end
      else labels
  end.
Definition label_node (graph : EdgeHolder) (labels : gmap node_t Label) (crt : node_t) : gmap node_t Label :=
  match labels !! crt with
  | None => labels
  | Some _ =>
      match ofind crt graph with
      | None => labels
      | Some neighvec => fold_left (label_edge crt) neighvec labels
      end
  end.
(** [std::find(sorted.rbegin(), sorted.rend(), start_node)] *)
Fixpoint find_from (start_node : node_t) (l : list node_t) : list node_t :=
  match l with
  | [] => []
  | n :: l' => if decide (n = start_node) then l else find_from start_node l'
  end.
(** [None]: [back()] of an empty vector. *)
Definition label_maker (graph : EdgeHolder) (start_node : node_t) (sorted : list node_t) (labels : gmap node_t Label)
    : option (gmap node_t Label) :=
  start_node ← (if (node start_node =? 0)%Z then last sorted else Some start_node);
  Some (fold_left (label_node graph) (find_from start_node (rev sorted)) labels).

(** [std::set<node_t, decltype(compare)>]: [compare] reads [priorities], whose
    entries are only ever created, as 0, by reading them. *)
Definition compare (priorities : gmap Z Z) (l r : node_t) : bool :=
  if (node l =? node r)%Z then false
  else (default 0 (priorities !! node l) <? default 0 (priorities !! node r))%Z.
Definition heap_emplace (x : node_t) (heap : list node_t) : list node_t := set_emplace (compare ∅) x heap.
Definition chaotic_edge (top : node_t) (st : gmap node_t Label * list node_t) (nxt : Edge) : gmap node_t Label * list node_t :=
  let '(lattice, heap) := st in
  match lattice !! top with
  | None => st
  | Some crt =>
      let '(propd, dst) := t top nxt crt dc in
      if propd then
        match lattice !! nxt.1 with
        | None => (<[nxt.1 := dst]> lattice, heap_emplace nxt.1 heap)
        | Some old =>
            if fp old dst nxt.1 then st else (<[nxt.1 := m old dst]> lattice, heap_emplace nxt.1 heap)
        end
      else st
  end.
(** A node without an entry in [holder] is [end()], which is dereferenced. *)
Fixpoint chaotic_loop (fuel : nat) (holder : EdgeHolder) (lattice : gmap node_t Label) (heap : list node_t)
    : option (gmap node_t Label) :=
  match heap with
  | [] => Some lattice
  | top :: heap =>
      match fuel with
      | O => None
      | S fuel =>
          match lattice !! top with
          | None => chaotic_loop fuel holder lattice heap
          | Some _ =>
              neighs ← ofind top holder;
              let '(lattice, heap) := fold_left (chaotic_edge top) neighs (lattice, heap) in
              chaotic_loop fuel holder lattice heap
          end
      end
  end.
Definition chaotic_iterations (fuel : nat) (lattice : gmap node_t Label) (start : node_t) (holder : EdgeHolder)
    : option (gmap node_t Label) :=
  '(isdag, sorted) ← is_a_dag holder start [];
  if isdag : bool then label_maker holder start sorted lattice
  else chaotic_loop fuel holder lattice (heap_emplace start []).
End labels.
