(* ===== verification/CfgIterFacts.v ===== *)
(** * Theorems on the labelling of control-flow graphs: [CfgIter.v]

    One pass in topological order gives every node the merge of what its
    predecessors send with their final labels; [chaotic_iterations] takes that
    pass exactly when nothing reachable lies on a cycle. *)
From S2P Require Import Prelude CfgGraph CfgTraverse CallGraph CallGraphFacts CallGraphScc CfgIter.
Local Open Scope flexplan_scope.

(** ** The call graph of a control-flow graph *)
Section callgraph.
Implicit Types (cg : CallGraph node_t).

Lemma calls_edge_added cg cg' a b :
  (forall x y, count y (callees cg' x) = (count y (callees cg x) + if decide (x = a /\ y = b) then 1 else 0)%nat) ->
  forall x y, calls_edge cg' x y <-> calls_edge cg x y \/ x = a /\ y = b.
Proof. intros Hc x y. unfold calls_edge. rewrite !count_elem, Hc. case_decide as E; split; [intros; by right|lia|intros; left; lia|intros [?|?]; [lia|done]]. Qed.

Lemma dag_neighbours_ok n neighs cg : wf cg -> n ∈ nodes cg ->
  exists cg', dag_neighbours n neighs cg = oret cg' /\ wf cg' /\
  (forall x, x ∈ nodes cg' <-> x ∈ nodes cg \/ x ∈ neighs.*1) /\
  (forall x y, calls_edge cg' x y <-> calls_edge cg x y \/ x = n /\ y ∈ neighs.*1).
Proof.
  unfold dag_neighbours. revert cg. induction neighs as [|e neighs IH]; intros cg Hw Hn.
  - exists cg. split; [done|]. split; [done|]. set_solver.
  - cbn [fold_left]. pose proof (wf_add cg e.1 Hw) as Hwa. destruct (calls_ok (add e.1 cg) n e.1 Hwa) as (cg1 & Hc & Hw1 & Hn1 & He1).
    cbn [obind oret]. rewrite Hc. cbn [oret app].
    destruct (IH cg1 Hw1) as (cg' & Hc' & Hw' & Hn' & He'); [apply Hn1; by left|].
    exists cg'. split; [exact Hc'|]. split; [done|]. split.
    + intros x. rewrite Hn', Hn1, add_nodes. cbn [fmap list_fmap]. rewrite elem_of_cons. naive_solver.
    + intros x y. rewrite He', (calls_edge_added _ _ _ _ He1). unfold calls_edge. rewrite (proj1 (add_callees cg e.1 x Hw)).
      cbn [fmap list_fmap]. rewrite elem_of_cons. naive_solver.
Qed.

Lemma dag_graph_fold h cg : wf cg ->
  exists cg', fold_left (fun r p => do cg <- r; dag_neighbours p.1 p.2 (add p.1 cg)) h (oret cg) = oret cg' /\ wf cg' /\
  (forall x, x ∈ nodes cg' <-> x ∈ nodes cg \/ exists p, p ∈ h /\ (x = p.1 \/ x ∈ p.2.*1)) /\
  (forall x y, calls_edge cg' x y <-> calls_edge cg x y \/ exists p, p ∈ h /\ x = p.1 /\ y ∈ p.2.*1).
Proof.
  revert cg. induction h as [|p h IH]; intros cg Hw.
  - exists cg. split; [done|]. split; [done|]. split; intros; set_solver.
  - cbn [fold_left]. destruct (dag_neighbours_ok p.1 p.2 (add p.1 cg)) as (cg1 & Hc & Hw1 & Hn1 & He1); [by apply wf_add|apply add_nodes; by left|].
    cbn [obind oret]. rewrite Hc. destruct (IH cg1 Hw1) as (cg' & Hc' & Hw' & Hn' & He'). exists cg'.
    split; [exact Hc'|]. split; [done|]. split.
    + intros x. rewrite Hn', Hn1, add_nodes. setoid_rewrite elem_of_cons. naive_solver.
    + intros x y. rewrite He', He1. unfold calls_edge. rewrite (proj1 (add_callees cg p.1 x Hw)). setoid_rewrite elem_of_cons. naive_solver.
Qed.

Lemma dag_graph_ok h : NoDup (okeys h) -> exists cg, dag_graph h = oret cg /\ wf cg /\
  (forall x, x ∈ nodes cg <-> x ∈ nodes_of h) /\ (forall x y, calls_edge cg x y <-> step h x y).
Proof.
  intros Hd. destruct (dag_graph_fold h empty_graph wf_empty) as (cg & Hc & Hw & Hn & He). exists cg. split; [exact Hc|]. split; [done|].
  assert (Hs : forall x y, (exists p, p ∈ h /\ x = p.1 /\ y ∈ p.2.*1) <-> step h x y).
  { intros x y. unfold step. setoid_rewrite (edge_entry h x _ Hd). setoid_rewrite list_elem_of_fmap. split.
    - intros ([k es] & Hp & -> & ([v l] & -> & Hin)). by exists l, es.
    - intros (l & es & Hp & Hin). exists (x, es). split; [done|]. split; [done|]. by exists (y, l). }
  split.
  - intros x. rewrite Hn, elem_of_nodes_of by done. setoid_rewrite <- Hs. simpl. unfold okeys. rewrite elem_of_nil, list_elem_of_fmap. split.
    + intros [[]|(p & Hp & [->|Hx])]; [left; eauto|]. right. exists p.1. split; [|eauto]. apply list_elem_of_fmap. eauto.
    + intros [(p & -> & Hp)|(k & _ & p & Hp & _ & Hx)]; eauto 6.
  - intros x y. rewrite He, Hs. unfold calls_edge, callees. simpl. rewrite elem_of_nil. tauto.
Qed.
End callgraph.

(** ** [is_a_dag] *)
Definition on_cycle (h : EdgeHolder) (x : node_t) : Prop := tc (step h) x x.

Lemma calls_edge_reach (h : EdgeHolder) (cg : CallGraph node_t) x y :
  (forall x y, calls_edge cg x y <-> step h x y) -> creach cg x y <-> reach h x y.
Proof. intros He. split; apply rtc_subrel; intros u v; apply He. Qed.

Lemma calls_edge_tc (h : EdgeHolder) (cg : CallGraph node_t) x y :
  (forall x y, calls_edge cg x y <-> step h x y) -> tc (calls_edge cg) x y <-> tc (step h) x y.
Proof.
  intros He. split; (induction 1 as [u v Huv|u v w Huv _ IH]; [by apply tc_once, He|eapply tc_l; [by apply He|done]]).
Qed.

Lemma is_a_dag_ok h start : NoDup (okeys h) -> start ∈ nodes_of h -> (Z.of_nat (size (nodes_of h)) < 2 ^ 32)%Z ->
  exists b o, is_a_dag h start [] = Some (b, o) /\ NoDup o /\ (forall x, x ∈ o <-> reach h start x) /\
  (forall o1 x o2 y, o = o1 ++ x :: o2 -> step h x y -> y ∈ o1 \/ reach h y x) /\
  (b = true <-> forall x, reach h start x -> ~ on_cycle h x).
Proof.
  intros Hd Hs Hsz. destruct (dag_graph_ok h Hd) as (cg & Hc & Hw & Hn & He).
  assert (Hsize : size_ cg = size (nodes_of h)).
  { unfold size_. rewrite <- (size_list_to_set (C := gset node_t) (nodes cg)) by apply (wf_nodup cg Hw). f_equal. apply set_eq. intros x.
    by rewrite elem_of_list_to_set, Hn. }
  destruct (sccSort_correct cg start Hw) as (b & o & cs & Hsort & Hnd & Hr & _ & _ & Ho & Hb); [by apply Hn|by rewrite Hsize|].
  exists (negb b), o. unfold is_a_dag. rewrite Hc. cbn [oret]. rewrite Hsort. split; [done|]. split; [done|].
  split; [intros x; by rewrite Hr, (calls_edge_reach h cg)|]. split.
  - intros o1 x o2 y Heq Hst. apply He in Hst. destruct (Ho _ _ _ _ Heq Hst) as [|Hc']; [by left|right]. by apply (calls_edge_reach h cg).
  - assert (Hex : (exists x, creach cg start x /\ tc (calls_edge cg) x x) <-> exists x, reach h start x /\ on_cycle h x).
    { unfold on_cycle. split; intros (x & Hx & Hcy); exists x; (split; [by apply (calls_edge_reach h cg)|]);
        by apply (calls_edge_tc h cg). }
    rewrite negb_true_iff, <- not_true_iff_false, Hb, Hex. naive_solver.
Qed.

(** ** One pass over an ordered graph *)
Section labels.
Context {Label : Type} (t : node_t -> Edge -> Label -> Label -> bool * Label) (m : Label -> Label -> Label) (dc : Label).
Context (g : EdgeHolder).
Implicit Types (L : gmap node_t Label).

(** What an edge out of [crt] sends when the labels are [L]. *)
Definition sent L (crt : node_t) (e : Edge) : option Label :=
  label ← L !! crt; let '(propagated, dst) := t crt e label dc in if propagated then Some dst else None.
(** What the nodes of [l] send to [n], in order. *)
Definition sent_from L (n crt : node_t) : list Label :=
  omap (fun e => if decide (e.1 = n) then sent L crt e else None) (neighbors_or_empty g crt).
Definition received L (l : list node_t) (n : node_t) : list Label := flat_map (sent_from L n) l.
Definition merge_into (old : option Label) (dst : Label) : option Label :=
  Some (match old with None => dst | Some ex => m ex dst end).
(** [old] after the labels [ds] are merged into it. *)
Definition merged (old : option Label) (ds : list Label) : option Label := fold_left merge_into ds old.

Lemma label_edge_lookup crt e L n : label_edge t m dc crt L e !! n =
  match (if decide (e.1 = n) then sent L crt e else None) with Some d => merge_into (L !! n) d | None => L !! n end.
Proof.
  unfold label_edge, sent. destruct (L !! crt) as [lab|]; [|by case_decide]. cbn [mbind option_bind].
  destruct (t crt e lab dc) as [[] dst]; [|by case_decide]. unfold merge_into.
  destruct (decide (e.1 = n)) as [<-|Hne]; destruct (L !! e.1); by rewrite ?lookup_insert_eq, ?lookup_insert_ne.
Qed.

Lemma label_edges_ok crt es : forall L, (forall e, e ∈ es -> e.1 <> crt) -> forall n,
  fold_left (label_edge t m dc crt) es L !! n = merged (L !! n) (omap (fun e => if decide (e.1 = n) then sent L crt e else None) es).
Proof.
  induction es as [|e es IH]; intros L Hne n; [done|]. cbn [fold_left omap list_omap]. rewrite IH by (intros; apply Hne; by right).
  assert (Hcrt : label_edge t m dc crt L e !! crt = L !! crt) by (rewrite label_edge_lookup, decide_False; [done|apply Hne; by left]).
  rewrite label_edge_lookup.
  rewrite (list_omap_ext _ (fun e => if decide (e.1 = n) then sent L crt e else None) es es).
  - destruct (if decide (e.1 = n) then sent L crt e else None); done.
  - apply Forall_Forall2_diag, Forall_true. intros e'. unfold sent. by rewrite Hcrt.
Qed.

Lemma label_node_ok crt L : ~ step g crt crt -> forall n,
  label_node t m dc g L crt !! n = merged (L !! n) (sent_from L n crt).
Proof.
  intros Hself n. unfold label_node, sent_from, neighbors_or_empty. destruct (L !! crt) as [lab|] eqn:E.
  - destruct (ofind crt g) as [es|] eqn:Eg; [|done]. apply label_edges_ok. intros [v l] Hin Hv. simpl in Hv. subst v.
    apply Hself. exists l. unfold edge, neighbors_or_empty. by rewrite Eg.
  - assert (Hnone : forall es, omap (fun e : Edge => if decide (e.1 = n) then sent L crt e else None) es = []).
    { intros es. induction es as [|e es IH]; [done|]. cbn [omap list_omap]. unfold sent at 1. rewrite E. simpl. by destruct (decide _). }
    by rewrite Hnone.
Qed.

(** Edges only lead to later nodes. *)
Fixpoint forward (l : list node_t) : Prop :=
  match l with
  | [] => True
  | x :: l => (forall y, y ∈ x :: l -> ~ step g y x) /\ forward l
  end.

Lemma sent_from_nil L n crt : ~ step g crt n -> sent_from L n crt = [].
Proof.
  intros Hs. unfold sent_from. assert (Hin : forall e, e ∈ neighbors_or_empty g crt -> e.1 <> n).
  { intros [v l] He Hv. simpl in Hv. subst v. apply Hs. by exists l. }
  induction (neighbors_or_empty g crt) as [|e es IH]; [done|]. cbn [omap list_omap].
  rewrite decide_False by (apply Hin; by left). apply IH. intros e' He'. apply Hin. by right.
Qed.

Lemma received_nil L l n : (forall y, y ∈ l -> ~ step g y n) -> received L l n = [].
Proof.
  induction l as [|x l IH]; intros Hl; [done|]. unfold received. cbn [flat_map]. rewrite sent_from_nil by (apply Hl; by left).
  apply IH. intros y Hy. apply Hl. by right.
Qed.

Lemma label_nodes_ok l : forward l -> forall L L', L' = fold_left (label_node t m dc g) l L ->
  forall n, L' !! n = merged (L !! n) (received L' l n).
Proof.
  induction l as [|x l IH]; intros Hf L L' HL n; [by rewrite HL|]. destruct Hf as [Hx Hf]. cbn [fold_left] in HL.
  pose proof (Hx x ltac:(by left)) as Hself.
  assert (Hsame : L' !! x = L !! x).
  { rewrite (IH Hf _ _ HL), received_nil by (intros y Hy; apply Hx; by right). simpl. by rewrite label_node_ok, sent_from_nil. }
  rewrite (IH Hf _ _ HL), label_node_ok by done. unfold received at 2. cbn [flat_map]. unfold merged. rewrite fold_left_app.
  do 2 f_equal. unfold sent_from, sent. by rewrite Hsame.
Qed.

End labels.

(** ** [label_maker] in the order of [is_a_dag] *)
Lemma forward_rev h o : NoDup o -> (forall o1 x o2 y, o = o1 ++ x :: o2 -> step h x y -> y ∈ o1) -> forward h (rev o).
Proof.
  induction o as [|x o IH] using rev_ind; intros Hnd Ho; [done|]. rewrite rev_app_distr. cbn [rev app forward].
  pose proof (proj1 (NoDup_app _ _) Hnd) as (Hnd1 & Hx & _). split.
  - intros y Hy Hs. assert (Hin : y ∈ o ++ [x]).
    { apply elem_of_app. apply elem_of_cons in Hy as [->|Hy]; [right; by left|left]. by rewrite list_elem_of_In, in_rev, <- list_elem_of_In. }
    apply list_elem_of_split in Hin as (o1 & o2 & Heq). pose proof (Ho _ _ _ _ Heq Hs) as Hx1.
    rewrite Heq in Hnd. apply NoDup_app in Hnd as (_ & Hd & _). apply (Hd x Hx1).
    assert (Hl : last (o1 ++ y :: o2) = Some x) by (rewrite <- Heq; by rewrite last_snoc).
    rewrite last_app_cons in Hl. by apply last_Some_elem_of in Hl.
  - apply IH; [done|]. intros o1 z o2 y -> Hs. apply (Ho o1 z (o2 ++ [x])); [by rewrite <- app_assoc|done].
Qed.

Lemma last_start h o start : NoDup o -> (forall x, x ∈ o <-> reach h start x) ->
  (forall o1 x o2 y, o = o1 ++ x :: o2 -> step h x y -> y ∈ o1) -> last o = Some start.
Proof.
  intros Hnd Hr Ho. assert (Hs : start ∈ o) by (apply Hr; constructor). apply list_elem_of_split in Hs as (o1 & o2 & ->).
  assert (Hcl : forall z, reach h start z -> z ∈ o1 ++ [start]).
  { intros z. apply (rtc_ind_r (R := step h) (fun z => z ∈ o1 ++ [start]) start); [apply elem_of_app; right; by left|].
    intros u v _ Huv Hu. apply elem_of_app. left. apply elem_of_app in Hu as [Hu|Hu].
    - apply list_elem_of_split in Hu as (a & b & ->). apply elem_of_app. left.
      apply (Ho a u (b ++ start :: o2)); [by rewrite <- app_assoc|done].
    - apply list_elem_of_singleton in Hu as ->. by apply (Ho o1 start o2). }
  destruct o2 as [|z o2]; [by rewrite last_snoc|]. exfalso.
  assert (Hz : z ∈ o1 ++ [start]) by (apply Hcl, Hr, elem_of_app; right; right; by left).
  change (start :: z :: o2) with ([start] ++ z :: o2) in Hnd. rewrite app_assoc in Hnd.
  apply NoDup_app in Hnd as (_ & Hd & _). apply (Hd z Hz). by left.
Qed.

Section dag.
Context {Label : Type} (t : node_t -> Edge -> Label -> Label -> bool * Label) (m : Label -> Label -> Label)
  (fp : Label -> Label -> node_t -> bool) (dc : Label).

(** C21. On a graph without a cycle that [start] reaches, [chaotic_iterations] ends
    with the solution of the data-flow equations: there is an order of exactly
    the reachable nodes in which edges only lead forward, and the label of every
    node is its label before, merged with what the nodes of the order send to it
    when they have their final labels. *)
Theorem chaotic_iterations_dag lattice start h :
  NoDup (okeys h) -> start ∈ nodes_of h -> (Z.of_nat (size (nodes_of h)) < 2 ^ 32)%Z ->
  (forall x, reach h start x -> ~ on_cycle h x) ->
  exists order lattice', NoDup order /\ (forall x, x ∈ order <-> reach h start x) /\ forward h order /\
    (forall fuel, chaotic_iterations t m fp dc fuel lattice start h = Some lattice') /\
    forall n, lattice' !! n = merged m (lattice !! n) (received t dc h lattice' order n).
Proof.
  intros Hd Hs Hsz Hdag. destruct (is_a_dag_ok h start Hd Hs Hsz) as (b & o & Hda & Hnd & Hr & Ho & Hb).
  rewrite (proj2 Hb Hdag) in Hda. clear b Hb.
  assert (Ho' : forall o1 x o2 y, o = o1 ++ x :: o2 -> step h x y -> y ∈ o1).
  { intros o1 x o2 y Heq Hst. destruct (Ho _ _ _ _ Heq Hst) as [|Hback]; [done|].
    destruct (Hdag x); [apply Hr; rewrite Heq; apply elem_of_app; right; by left|]. unfold on_cycle. by eapply tc_rtc_r; [apply tc_once|]. }
  pose proof (forward_rev h o Hnd Ho') as Hf. pose proof (last_start h o start Hnd Hr Ho') as Hlast.
  exists (rev o), (fold_left (label_node t m dc h) (rev o) lattice). split; [by rewrite <- Permutation_rev|].
  split; [intros x; by rewrite <- Hr, <- Permutation_rev|]. split; [done|]. split.
  - intros fuel. unfold chaotic_iterations. rewrite Hda. cbn [mbind option_bind]. unfold label_maker.
    assert (Est : (if (node start =? 0)%Z then last o else Some start) = Some start) by by destruct (_ =? _)%Z.
    rewrite Est. cbn [mbind option_bind]. do 2 f_equal. apply last_Some in Hlast as [o' ->]. rewrite rev_app_distr. cbn [rev app find_from].
    by rewrite decide_True.
  - intros n. by apply (label_nodes_ok t m dc h).
Qed.
End dag.

(** Labels that count the paths from the start. *)
Definition count_t (crt : node_t) (e : Edge) (label dst : Z) : bool * Z := (true, label).

Lemma chaotic_iterations_dag_witness :
  (chaotic_iterations count_t Z.add (fun _ _ _ => false) 0%Z 0 {[ nd 1 := 1%Z ]} (nd 1) diamond ≫= lookup (nd 4)) = Some 2%Z /\
  exists order lattice', NoDup order /\ (forall x, x ∈ order <-> reach diamond (nd 1) x) /\ forward diamond order /\
    (forall fuel, chaotic_iterations count_t Z.add (fun _ _ _ => false) 0%Z fuel {[ nd 1 := 1%Z ]} (nd 1) diamond = Some lattice') /\
    forall n, lattice' !! n = merged Z.add (({[ nd 1 := 1%Z ]} : gmap node_t Z) !! n) (received count_t 0%Z diamond lattice' order n).
Proof.
  split; [vm_compute; reflexivity|]. apply (chaotic_iterations_dag count_t Z.add (fun _ _ _ => false) 0%Z).
  - apply (bool_decide_eq_true_1 (NoDup (okeys diamond))). vm_compute. reflexivity.
  - apply (bool_decide_eq_true_1 (nd 1 ∈ nodes_of diamond)). vm_compute. reflexivity.
  - vm_compute. reflexivity.
  - assert (Htc : forall a b, tc (step diamond) a b -> (node a < node b)%Z).
    { intros a b Hc. induction Hc as [u v Huv|u v w Huv _ IH]; apply diamond_edges in Huv; lia. }
    intros x _ Hc. apply Htc in Hc. lia.
Defined.

(** In a graph with a cycle the comparison of the heap finds any two nodes
    equivalent, so the heap never holds more than one: of the two successors of
    1 only the first is processed, and 4, behind the second, gets no label. *)
Lemma heap_emplace_full x y heap : heap_emplace x (y :: heap) = y :: heap.
Proof.
  assert (Hc : forall a b, compare ∅ a b = false) by (intros a b; unfold compare; rewrite !lookup_empty; by destruct (_ =? _)%Z).
  unfold heap_emplace. cbn [set_emplace]. by rewrite !Hc.
Qed.
Example chaotic_iterations_drops :
  let g := [(nd 1, [(nd 2, 0%Z); (nd 3, 0%Z)]); (nd 2, [(nd 1, 0%Z)]); (nd 3, [(nd 4, 0%Z)]); (nd 4, [])] in
  (exists lattice', chaotic_iterations (fun _ _ l _ => (true, l)) (fun l _ => l) (fun _ _ _ => true) tt 50 {[ nd 1 := tt ]} (nd 1) g = Some lattice' /\
     lattice' !! nd 3 = Some tt /\ lattice' !! nd 4 = None) /\
  reach g (nd 1) (nd 4).
Proof.
  split; [eexists; split; [vm_compute; reflexivity|by vm_compute]|].
  apply rtc_l with (nd 3); [exists 0%Z; by right; left|]. apply rtc_once. exists 0%Z. by left.
Qed.
