(* ===== verification/Bitvec.v ===== *)
(** * Bit vectors: [lib/bitvec.h], [lib/bitvec.cpp]

    A [bitvec] is the list of its words, least significant first; [size] is
    the list's length, at least 1 (the single word of a vector of size 1 is the
    field [data], the others are [ptr[0..size-1]]).  [uintptr_t] and
    [uintmax_t] have 64 bits.  Counting and scanning follow the portable loops
    of the source, which the compiler builtins replace on GCC and Clang. *)
From S2P Require Import Prelude Gmp.
Local Open Scope Z_scope.
Local Open Scope flexplan_scope.

Definition bitvec : Type := list Z.

(** ** Words *)
Definition bits_per_unit : Z := 64.
Definition all_ones : Z := Z.ones 64.
(** [a << k], [~a], [a + b] on 64 bits. *)
Definition shl (a k : Z) : Z := wrapu 64 (Z.shiftl a k).
Definition bnot (a : Z) : Z := wrapu 64 (Z.lnot a).
Definition uadd (a b : Z) : Z := wrapu 64 (a + b).
(** The last bit of a range, [idx + sz - 1]. *)
Definition last_bit (idx sz : Z) : Z := wrapu 64 (idx + sz - 1).
(** [~(~1 << (sz-1))]: [sz] ones, for [1 <= sz <= 64]. *)
Definition low_mask (sz : Z) : Z := bnot (shl (bnot 1) (sz - 1)).

Definition size (v : bitvec) : Z := Z.of_nat (length v).
Definition word (v : bitvec) (i : Z) : Z := nth (Z.to_nat i) v 0.
Definition nbits (v : bitvec) : Z := size v * bits_per_unit.
(** [ptr[i] = f(ptr[i])] *)
Definition upd (i : Z) (f : Z -> Z) (v : bitvec) : bitvec := alter (M := list Z) f (Z.to_nat i) v.

(** [builtin_ctz]: whole zero bytes first, then bits. *)
Fixpoint ctz_bytes (fuel : nat) (rv val : Z) : Z * Z :=
  match fuel with
  | O => (rv, val)
  | S fuel => if Z.land val 255 =? 0 then ctz_bytes fuel (rv + 8) (Z.shiftr val 8) else (rv, val)
  end.
Fixpoint ctz_bits (fuel : nat) (rv val : Z) : Z :=
  match fuel with
  | O => rv
  | S fuel => if Z.land val 1 =? 0 then ctz_bits fuel (rv + 1) (Z.shiftr val 1) else rv
  end.
Definition builtin_ctz (w : Z) : Z := let '(rv, val) := ctz_bytes 8 0 w in ctz_bits 8 rv val.
(** [builtin_clz] *)
Fixpoint clz_bits (fuel : nat) (w : Z) : Z :=
  match fuel with
  | O => 0
  | S fuel => if Z.shiftr w 63 =? 0 then 1 + clz_bits fuel (shl w 1) else 0
  end.
Definition builtin_clz (w : Z) : Z := clz_bits 64 w.

(** ** Construction and growth *)
Definition empty_bitvec : bitvec := [0].
Definition of_word (v : Z) : bitvec := [v].

(** [expand]: at most [7 * 2^k] words. *)
Definition expand_size (newsize : Z) : Z :=
  let m := Z.shiftr newsize 3 in
  if m =? 0 then newsize
  else
    let m := Z.lor m (Z.shiftr m 1) in
    let m := Z.lor m (Z.shiftr m 2) in
    let m := Z.lor m (Z.shiftr m 4) in
    let m := Z.lor m (Z.shiftr m 8) in
    let m := Z.lor m (Z.shiftr m 16) in
    Z.land (newsize + m) (Z.lnot m).
Definition expand (newsize : Z) (v : bitvec) : bitvec :=
  v ++ replicate (Z.to_nat (expand_size newsize - size v)) 0.

Definition clear (v : bitvec) : bitvec := replicate (length v) 0.

(** ** Single bits *)
Definition setbit (idx : Z) (v : bitvec) : bitvec :=
  let v := if nbits v <=? idx then expand (1 + idx / 64) v else v in
  upd (idx / 64) (fun w => Z.lor w (shl 1 (idx mod 64))) v.
Definition clrbit (idx : Z) (v : bitvec) : bitvec :=
  if nbits v <=? idx then v
  else upd (idx / 64) (fun w => Z.land w (bnot (shl 1 (idx mod 64)))) v.
Definition getbit (v : bitvec) (idx : Z) : bool :=
  negb (Z.land (Z.shiftr (word v (idx / 64)) (idx mod 64)) 1 =? 0).

(** ** Ranges *)
(** [while (++i < last) ptr[i] = w], from [i] on; [n] bounds the steps. *)
Fixpoint fill (n : nat) (i last : Z) (w : Z) (v : bitvec) : Z * bitvec :=
  match n with
  | O => (i, v)
  | S n => if i <? last then fill n (i + 1) last w (upd i (fun _ => w) v) else (i, v)
  end.

(** [if (idx+sz > size * bits_per_unit) expand(...)] *)
Definition grow (idx sz : Z) (v : bitvec) : bitvec :=
  if nbits v <? uadd idx sz then expand (1 + last_bit idx sz / 64) v else v.

Definition setrange (idx sz : Z) (v : bitvec) : bitvec :=
  if sz =? 0 then v
  else
    let v := grow idx sz v in
    if size v =? 1 then upd 0 (fun w => Z.lor w (shl (low_mask sz) idx)) v
    else if idx / 64 =? last_bit idx sz / 64 then
      upd (idx / 64) (fun w => Z.lor w (shl (low_mask sz) (idx mod 64))) v
    else
      let i := idx / 64 in
      let v := upd i (fun w => Z.lor w (shl all_ones (idx mod 64))) v in
      let idx := uadd idx sz in
      let '(i, v) := fill (length v) (i + 1) (idx / 64) all_ones v in
      if i <? size v then upd i (fun w => Z.lor w (shl 1 (idx mod 64) - 1)) v else v.

Definition of_range (lo cnt : Z) : bitvec := setrange lo cnt empty_bitvec.

Definition setraw (raw : Z) (v : bitvec) : bitvec :=
  raw :: replicate (length v - 1) 0.
Definition setraw_words (raw : list Z) (v : bitvec) : bitvec :=
  let v := if size v <? Z.of_nat (length raw) then expand (Z.of_nat (length raw)) v else v in
  raw ++ replicate (length v - length raw) 0.

Definition clrrange (idx sz : Z) (v : bitvec) : bitvec :=
  if sz =? 0 then v
  else
    let sz := if size v <? sz / 64 then nbits v else sz in
    if nbits v <=? idx then v
    else if size v =? 1 then
      upd 0 (fun w => Z.land w (bnot (shl (if uadd idx sz <? 64 then low_mask sz else all_ones) idx))) v
    else if idx / 64 =? last_bit idx sz / 64 then
      upd (idx / 64) (fun w => Z.land w (bnot (shl (low_mask sz) (idx mod 64)))) v
    else
      let i := idx / 64 in
      let v := upd i (fun w => Z.land w (bnot (shl all_ones (idx mod 64)))) v in
      let idx := uadd idx sz in
      let '(i, v) := fill (length v) (i + 1) (Z.min (idx / 64) (size v)) 0 v in
      if i <? size v then upd i (fun w => Z.land w (bnot (shl 1 (idx mod 64) - 1))) v else v.

(** The loop of [getrange]: the following words, shifted into place. *)
Fixpoint getrange_loop (n : nat) (v : bitvec) (idx shift sz rv : Z) : Z :=
  match n with
  | O => rv
  | S n =>
      if shift <? sz then
        let idx := idx + 1 in
        if size v <=? idx then rv
        else getrange_loop n v idx (shift + 64) sz (Z.lor rv (shl (word v idx) shift))
      else rv
  end.
Definition getrange (v : bitvec) (idx sz : Z) : outcome Z :=
  if (0 <? sz) && (sz <=? 64) then
    oret
      (if nbits v <=? idx then 0
       else if 1 <? size v then
         let shift := idx mod 64 in
         let idx := idx / 64 in
         Z.land (getrange_loop 2 v idx (64 - shift) sz (Z.shiftr (word v idx) shift)) (low_mask sz)
       else Z.land (Z.shiftr (word v 0) idx) (low_mask sz))
  else Aborted "assertion failed".

(** The next word exists, as the vector has been grown to hold the range. *)
Fixpoint putrange_loop (n : nat) (mask val : Z) (idx shift sz : Z) (v : bitvec) : bitvec :=
  match n with
  | O => v
  | S n =>
      if shift <? sz then
        let idx := idx + 1 in
        let v := upd idx (fun w => Z.lor (Z.land w (bnot (Z.shiftr mask shift))) (Z.shiftr val shift)) v in
        putrange_loop n mask val idx (shift + 64) sz v
      else v
  end.
Definition putrange (idx sz val : Z) (v : bitvec) : outcome bitvec :=
  if (0 <? sz) && (sz <=? 64) then
    let mask := Z.shiftr all_ones (64 - sz) in
    let val := Z.land val mask in
    let v := grow idx sz v in
    oret
      (if size v =? 1 then upd 0 (fun w => Z.lor (Z.land w (bnot (shl mask idx))) (shl val idx)) v
       else
         let shift := idx mod 64 in
         let idx := idx / 64 in
         let v := upd idx (fun w => Z.lor (Z.land w (bnot (shl mask shift))) (shl val shift)) v in
         putrange_loop 2 mask val idx (64 - shift) sz v)
  else Aborted "assertion failed".

(** The loop of [getslice]; [src] is the source and [rv] the result.  Reading
    past the end of [src] is undefined. *)
Fixpoint getslice_loop (is_ : list nat) (src : bitvec) (idx shift : Z) (rv : bitvec) : outcome bitvec :=
  match is_ with
  | [] => oret rv
  | i :: is_ =>
      match src !! Z.to_nat (idx + Z.of_nat i) with
      | None => Aborted "read out of bounds"
      | Some w =>
          let rv := if negb (shift =? 0) && negb (i =? 0)%nat
                    then upd (Z.of_nat i - 1) (fun x => Z.lor x (shl w (64 - shift))) rv else rv in
          getslice_loop is_ src idx shift (upd (Z.of_nat i) (fun _ => Z.shiftr w shift) rv)
      end
  end.
Definition getslice (v : bitvec) (idx sz : Z) : outcome bitvec :=
  if sz =? 0 then oret empty_bitvec
  else if nbits v <=? idx then oret empty_bitvec
  else
    let sz := if nbits v <? uadd idx sz then nbits v - idx else sz in
    if 1 <? size v then
      let shift := idx mod 64 in
      let idx := idx / 64 in
      if 64 <? sz then
        let rv := expand ((sz - 1) / 64 + 1) empty_bitvec in
        do rv <- getslice_loop (seq 0 (length rv)) v idx shift rv;
        let sz := sz mod 64 in
        oret (if sz =? 0 then rv else upd (size rv - 1) (fun w => Z.land w (low_mask sz)) rv)
      else
        let data := Z.shiftr (word v idx) shift in
        let data := if negb (shift =? 0) && (idx + 1 <? size v)
                    then Z.lor data (shl (word v (idx + 1)) (64 - shift)) else data in
        oret [Z.land data (low_mask sz)]
    else oret [Z.land (Z.shiftr (word v 0) idx) (low_mask sz)].

(** ** Scanning *)
Fixpoint ffs_loop (n : nat) (v : bitvec) (idx val : Z) : Z * Z :=
  match n with
  | O => (idx, val)
  | S n =>
      if idx <? size v then
        let val := Z.land val (word v idx) in
        if val =? 0 then ffs_loop n v (idx + 1) all_ones else (idx, val)
      else (idx, val)
  end.
Definition ffs (v : bitvec) (start : Z) : Z :=
  let '(idx, val) := ffs_loop (S (length v)) v (start / 64) (shl all_ones (start mod 64)) in
  if size v <=? idx then -1 else idx * 64 + builtin_ctz val.

Fixpoint ffz_loop (n : nat) (v : bitvec) (idx val : Z) : Z * Z :=
  match n with
  | O => (idx, val)
  | S n =>
      let val := Z.lor val (word v idx) in
      if bnot val =? 0 then ffz_loop n v (idx + 1) 0 else (idx, val)
  end.
Definition ffz (v : bitvec) (start : Z) : Z :=
  let '(idx, val) := ffz_loop (S (length v)) v (start / 64) (bnot (shl (bnot 0) (start mod 64))) in
  idx * 64 + builtin_ctz (bnot val).

(** [bitref::operator++]: the next set bit, or -1; [operator--]: the previous
    one. *)
Fixpoint next_loop (n : nat) (v : bitvec) (idx : Z) : Z :=
  match n with
  | O => -1
  | S n =>
      let idx := idx + 1 in
      if idx <? nbits v then
        let w := Z.shiftr (word v (idx / 64)) (idx mod 64) in
        if w =? 0 then next_loop n v (idx / 64 * 64 + 64 - 1) else idx + builtin_ctz w
      else -1
  end.
Definition next (v : bitvec) (idx : Z) : Z := next_loop (S (length v)) v idx.

Fixpoint prev_loop (n : nat) (v : bitvec) (idx : Z) : Z :=
  match n with
  | O => -1
  | S n =>
      let idx := idx - 1 in
      if 0 <=? idx then
        let w := shl (word v (idx / 64)) (64 - 1 - idx mod 64) in
        if w =? 0 then prev_loop n v (idx / 64 * 64) else idx - builtin_clz w
      else idx
  end.
Definition prev (v : bitvec) (idx : Z) : Z :=
  prev_loop (S (length v)) v (if idx <? 0 then nbits v else idx).

Definition min (v : bitvec) : Z := ffs v 0.
Definition max (v : bitvec) : Z := prev v (nbits v).

(** [for (int b : v)]: from [begin()] to [end()]. *)
Fixpoint iterate (fuel : nat) (v : bitvec) (idx : Z) : option (list Z) :=
  if idx =? -1 then Some []
  else match fuel with
       | O => None
       | S fuel => cons idx <$> iterate fuel v (next v idx)
       end.
Definition indices (v : bitvec) : option (list Z) := iterate (64 * length v) v (min v).

Definition empty (v : bitvec) : bool := forallb (fun w => w =? 0) v.

(** ** Bitwise operations; the flag tells whether the vector changed. *)
Fixpoint and_words (v a : bitvec) : bitvec * bool :=
  match v, a with
  | w :: v, x :: a =>
      let '(r, rv) := and_words v a in
      (Z.land w x :: r, negb (Z.land w x =? w) || rv)
  | v, [] => (replicate (length v) 0, existsb (fun w => negb (w =? 0)) v)
  | [], _ => ([], false)
  end.
Definition and_assign (v a : bitvec) : bitvec * bool := and_words v a.
Definition and (v a : bitvec) : bitvec :=
  if size v <=? size a then (and_assign v a).1 else (and_assign a v).1.

Fixpoint or_words (v a : bitvec) : bitvec * bool :=
  match v, a with
  | w :: v, x :: a =>
      let '(r, rv) := or_words v a in
      (Z.lor w x :: r, negb (Z.lor w x =? w) || rv)
  | v, _ => (v, false)
  end.
Definition or_assign (v a : bitvec) : bitvec * bool :=
  or_words (if size v <? size a then expand (size a) v else v) a.
Definition or_assign_word (v : bitvec) (a : Z) : bitvec * bool :=
  (upd 0 (fun w => Z.lor w a) v, negb (Z.lor (word v 0) a =? word v 0)).
Definition or (v a : bitvec) : bitvec := (or_assign v a).1.

Fixpoint xor_words (v a : bitvec) : bitvec :=
  match v, a with
  | w :: v, x :: a => Z.lxor w x :: xor_words v a
  | v, _ => v
  end.
Definition xor (v a : bitvec) : bitvec :=
  xor_words (if size v <? size a then expand (size a) v else v) a.

Fixpoint sub_words (v a : bitvec) : bitvec * bool :=
  match v, a with
  | w :: v, x :: a =>
      let '(r, rv) := sub_words v a in
      (Z.land w (bnot x) :: r, negb (Z.land w (bnot x) =? w) || rv)
  | v, _ => (v, false)
  end.
Definition sub_assign (v a : bitvec) : bitvec * bool := sub_words v a.
Definition sub (v a : bitvec) : bitvec := (sub_assign v a).1.

(** ** Comparisons *)
Definition eqb (v a : bitvec) : bool :=
  forallb (fun i => word v (Z.of_nat i) =? word a (Z.of_nat i)) (seq 0 (Nat.max (length v) (length a))).
(** From the most significant word down. *)
Fixpoint ltb_from (i : nat) (v a : bitvec) : bool :=
  match i with
  | O => false
  | S i =>
      if word v (Z.of_nat i) <? word a (Z.of_nat i) then true
      else if word a (Z.of_nat i) <? word v (Z.of_nat i) then false
      else ltb_from i v a
  end.
Definition ltb (v a : bitvec) : bool := ltb_from (Nat.max (length v) (length a)) v a.
Definition intersects (v a : bitvec) : bool :=
  existsb (fun i => negb (Z.land (word v (Z.of_nat i)) (word a (Z.of_nat i)) =? 0))
    (seq 0 (Nat.min (length v) (length a))).
Definition contains (v a : bitvec) : bool :=
  forallb (fun i => Z.land (word v (Z.of_nat i)) (word a (Z.of_nat i)) =? word a (Z.of_nat i))
    (seq 0 (Nat.min (length v) (length a))) &&
  forallb (fun i => word a (Z.of_nat i) =? 0) (seq (length v) (length a - length v)).

(** ** Shifts: in place, word by word *)
Definition shr_step (off count : Z) (v : bitvec) (i : nat) : bitvec :=
  let i := Z.of_nat i in
  if i + off <? size v then
    let v := upd i (fun _ => Z.shiftr (word v (i + off)) count) v in
    if negb (count =? 0) && (i + off + 1 <? size v)
    then upd i (fun w => Z.lor w (shl (word v (i + off + 1)) (64 - count))) v else v
  else upd i (fun _ => 0) v.
(** [while (size > 1 && !ptr[size-1]) size--] *)
Fixpoint trim (v : bitvec) : bitvec :=
  match v with
  | [] => []
  | [w] => [w]
  | w :: v => match trim v with [0] => [w] | r => w :: r end
  end.
Definition shift_right (v : bitvec) (count : Z) : bitvec :=
  if size v =? 1 then
    upd 0 (fun w => if 64 <=? count then 0 else Z.shiftr w count) v
  else trim (fold_left (shr_step (count / 64) (count mod 64)) (seq 0 (length v)) v).

Definition shl_step (off count : Z) (v : bitvec) (i : nat) : bitvec :=
  let i := Z.of_nat i in
  if off <=? i then
    let v := upd i (fun _ => shl (word v (i - off)) count) v in
    if negb (count =? 0) && (off <? i)
    then upd i (fun w => Z.lor w (Z.shiftr (word v (i - off - 1)) (64 - count))) v else v
  else upd i (fun _ => 0) v.
(** A single word is shifted by less than 64, except that an empty vector is
    shifted by 64, which is undefined. *)
Definition shift_left (v : bitvec) (count : Z) : outcome bitvec :=
  let needsize := (max v + count + 64) / 64 in
  let v := if size v <? needsize then expand needsize v else v in
  if size v =? 1 then
    if 64 <=? count then Aborted "shift count too large" else oret (upd 0 (fun w => shl w count) v)
  else oret (fold_left (shl_step (count / 64) (count mod 64)) (rev (seq 0 (length v))) v).

(** ** Counting and rotation *)
Definition popcount (v : bitvec) : option Z :=
  foldr (fun w acc => a ← acc; bitcount_loop 65 w a) (Some 0) (rev v).

Definition is_contiguous (v : bitvec) : option bool :=
  if empty v then Some false
  else p ← popcount v; Some (max v - min v + 1 =? p).

Definition rotate_right_helper (v : bitvec) (start_bit rotation_idx end_bit : Z) : outcome bitvec :=
  if (start_bit <=? rotation_idx) && (rotation_idx <? end_bit) then
    let rot_mask := of_range start_bit (end_bit - start_bit) in
    let rotation_section := and v rot_mask in
    let down_shift := rotation_idx - start_bit in
    let up_shift := (end_bit - start_bit) - down_shift in
    do up <- shift_left rotation_section up_shift;
    oret (and (or (shift_right rotation_section down_shift) up) rot_mask)
  else Aborted "assertion failed".
Definition rotate_right (v : bitvec) (start_bit rotation_idx end_bit : Z) : outcome bitvec :=
  do rot_section <- rotate_right_helper v start_bit rotation_idx end_bit;
  oret (or (clrrange start_bit (end_bit - start_bit) v) rot_section).
Definition rotate_right_copy (v : bitvec) (start_bit rotation_idx end_bit : Z) : outcome bitvec :=
  do rot_section <- rotate_right_helper v start_bit rotation_idx end_bit;
  oret (or rot_section (sub v (of_range start_bit (end_bit - start_bit)))).
