(* ===== verification/BitvecFacts.v ===== *)
(** * Theorems on bit vectors: [Bitvec.v]

    A vector stands for the number [val v]; every operation is shown to be the
    corresponding operation on numbers. *)
From S2P Require Import Prelude Gmp Bitvec.
Local Open Scope Z_scope.
Local Open Scope flexplan_scope.

(** ** The number a vector stands for *)
Definition word_ok (w : Z) : Prop := 0 <= w < 2 ^ 64.
Definition wf (v : bitvec) : Prop := v <> [] /\ Forall word_ok v.

Fixpoint val (v : bitvec) : Z :=
  match v with
  | [] => 0
  | w :: v => w + 2 ^ 64 * val v
  end.

(** The bit [i] of a vector. *)
Definition tb (v : bitvec) (i : Z) : bool := Z.testbit (word v (i / 64)) (i mod 64).

Lemma word_ok_0 : word_ok 0.
Proof. unfold word_ok. lia. Qed.

Lemma word_ok_wrapu z : word_ok (wrapu 64 z).
Proof. apply wrapu_range. lia. Qed.

Lemma word_ok_shl a k : word_ok (shl a k).
Proof. apply word_ok_wrapu. Qed.

Lemma word_ok_bnot a : word_ok (bnot a).
Proof. apply word_ok_wrapu. Qed.

Lemma word_ok_lor a b : word_ok a -> word_ok b -> word_ok (Z.lor a b).
Proof.
  unfold word_ok. intros Ha Hb. assert (0 <= Z.lor a b) by (apply Z.lor_nonneg; lia). split; [done|].
  apply bits_bound; [done|lia|]. intros i Hi. rewrite Z.lor_spec.
  by rewrite (testbit_above a 64), (testbit_above b 64) by lia.
Qed.

Lemma word_ok_land a b : word_ok a -> word_ok (Z.land a b).
Proof.
  unfold word_ok. intros Ha. assert (0 <= Z.land a b) by (apply Z.land_nonneg; lia). split; [done|].
  apply bits_bound; [done|lia|]. intros i Hi. rewrite Z.land_spec. by rewrite (testbit_above a 64) by lia.
Qed.

Lemma word_ok_lxor a b : word_ok a -> word_ok b -> word_ok (Z.lxor a b).
Proof.
  unfold word_ok. intros Ha Hb. assert (0 <= Z.lxor a b) by (apply Z.lxor_nonneg; lia). split; [done|].
  apply bits_bound; [done|lia|]. intros i Hi. rewrite Z.lxor_spec.
  by rewrite (testbit_above a 64), (testbit_above b 64) by lia.
Qed.

Lemma word_ok_shiftr a k : 0 <= k -> word_ok a -> word_ok (Z.shiftr a k).
Proof.
  unfold word_ok. intros Hk Ha. assert (0 <= Z.shiftr a k) by (apply Z.shiftr_nonneg; lia). split; [done|].
  apply bits_bound; [done|lia|]. intros i Hi. rewrite Z.shiftr_spec by lia. apply (testbit_above a 64); lia.
Qed.

#[export] Hint Resolve word_ok_0 word_ok_wrapu word_ok_shl word_ok_bnot word_ok_lor word_ok_land word_ok_lxor
  word_ok_shiftr : flexplan.

Lemma val_nonneg v : Forall word_ok v -> 0 <= val v.
Proof. induction 1 as [|w v Hw _ IH]; simpl; [done|]. unfold word_ok in Hw. lia. Qed.

Lemma testbit_val_cons w v i : word_ok w -> 0 <= i ->
  Z.testbit (val (w :: v)) i = if i <? 64 then Z.testbit w i else Z.testbit (val v) (i - 64).
Proof.
  intros Hw Hi. cbn [val]. rewrite Z.add_comm, Z.mul_comm, <- lor_shiftl_add by (unfold word_ok in Hw; lia).
  rewrite Z.lor_spec, testbit_shiftl by done. destruct (Z.ltb_spec i 64).
  - by destruct (Z.leb_spec 64 i); [lia|].
  - destruct (Z.leb_spec 64 i); [|lia]. rewrite (testbit_above w 64) by (unfold word_ok in Hw; lia).
    by rewrite orb_false_r.
Qed.

Lemma word_cons w v k : 0 <= k -> word (w :: v) k = if k =? 0 then w else word v (k - 1).
Proof.
  intros Hk. unfold word. destruct (Z.eqb_spec k 0) as [->|Hne]; [done|].
  replace (Z.to_nat k) with (S (Z.to_nat (k - 1))) by lia. done.
Qed.

Lemma tb_cons w v i : 0 <= i -> tb (w :: v) i = if i <? 64 then Z.testbit w i else tb v (i - 64).
Proof.
  intros Hi. unfold tb. pose proof (Z.div_pos i 64). rewrite word_cons by lia.
  destruct (Z.ltb_spec i 64).
  - by rewrite Z.div_small, Z.mod_small by lia.
  - pose proof (Z.div_le_lower_bound i 64 1). destruct (Z.eqb_spec (i / 64) 0); [lia|].
    replace (i / 64 - 1) with ((i - 64) / 64); [|replace i with ((i - 64) + 1 * 64) at 2 by lia; rewrite Z.div_add; lia].
    f_equal. replace i with ((i - 64) + 1 * 64) at 1 by lia. by rewrite Z.mod_add by lia.
Qed.

(** The number and the words have the same bits. *)
Lemma testbit_val v : Forall word_ok v -> forall i, 0 <= i -> Z.testbit (val v) i = tb v i.
Proof.
  induction 1 as [|w v Hw Hv IH]; intros i Hi.
  - unfold tb, word. simpl. destruct (Z.to_nat (i / 64)); by rewrite !Z.testbit_0_l.
  - rewrite testbit_val_cons, tb_cons by done. destruct (Z.ltb_spec i 64); [done|]. apply IH. lia.
Qed.

Lemma val_eq v z : Forall word_ok v -> (forall i, 0 <= i -> tb v i = Z.testbit z i) -> val v = z.
Proof. intros Hv Hi. apply Z.bits_inj'. intros i Hi'. by rewrite testbit_val, Hi. Qed.

Lemma val_ext v v' : Forall word_ok v -> Forall word_ok v' -> (forall i, 0 <= i -> tb v i = tb v' i) -> val v = val v'.
Proof. intros Hv Hv' Hi. apply val_eq; [done|]. intros i Hi'. by rewrite testbit_val, Hi. Qed.

Lemma tb_size v i : nbits v <= i -> tb v i = false.
Proof.
  intros Hi. unfold tb, word, nbits, bits_per_unit, size in *.
  rewrite nth_overflow, Z.testbit_0_l; [done|].
  assert (Z.of_nat (length v) <= i / 64) by (apply Z.div_le_lower_bound; lia). lia.
Qed.

Lemma getbit_tb v i : 0 <= i -> getbit v i = tb v i.
Proof.
  intros Hi. unfold getbit, tb. pose proof (Z.mod_pos_bound i 64).
  change 1 with (Z.ones 1) at 1. rewrite Z.land_ones by lia.
  rewrite <- (Z.add_0_l (i mod 64)) at 2. rewrite <- Z.shiftr_spec, Z.bit0_odd by lia.
  change (2 ^ 1) with 2. rewrite Zmod_odd. by destruct (Z.odd _).
Qed.

(** ** Words of 64 bits *)
Lemma testbit_shl a k j : 0 <= j < 64 -> 0 <= k -> Z.testbit (shl a k) j = (k <=? j) && Z.testbit a (j - k).
Proof.
  intros Hj Hk. unfold shl. rewrite testbit_wrapu, testbit_shiftl by lia. by destruct (Z.ltb_spec j 64); [|lia].
Qed.

Lemma testbit_bnot a j : 0 <= j < 64 -> Z.testbit (bnot a) j = negb (Z.testbit a j).
Proof.
  intros Hj. unfold bnot. rewrite testbit_wrapu, Z.lnot_spec by lia. by destruct (Z.ltb_spec j 64); [|lia].
Qed.

Lemma testbit_all_ones j : 0 <= j < 64 -> Z.testbit all_ones j = true.
Proof. intros Hj. unfold all_ones. rewrite testbit_ones by lia. apply Z.ltb_lt. lia. Qed.

Lemma testbit_low_mask sz j : 1 <= sz <= 64 -> 0 <= j < 64 -> Z.testbit (low_mask sz) j = (j <? sz).
Proof.
  intros Hsz Hj. unfold low_mask. rewrite testbit_bnot, testbit_shl by lia.
  destruct (Z.leb_spec (sz - 1) j); simpl; [|symmetry; apply Z.ltb_lt; lia].
  rewrite testbit_bnot by lia. change 1 with (Z.ones 1) at 1. rewrite testbit_ones by lia.
  rewrite negb_involutive. destruct (Z.ltb_spec (j - (sz - 1)) 1), (Z.ltb_spec j sz); lia || done.
Qed.

Lemma shl_1_sub k : 0 <= k < 64 -> shl 1 k - 1 = Z.ones k.
Proof.
  intros Hk. unfold shl. rewrite Z.shiftl_1_l, wrapu_small, Z.ones_equiv; [lia|].
  split; [apply Z.pow_nonneg; lia|apply Z.pow_lt_mono_r; lia].
Qed.

#[export] Hint Rewrite testbit_shl testbit_bnot testbit_all_ones testbit_low_mask using lia : words.
#[export] Hint Rewrite Z.lor_spec Z.land_spec Z.lxor_spec Z.testbit_0_l : words.
#[export] Hint Rewrite Z.shiftr_spec testbit_ones using lia : words.

(** ** Updates *)
Lemma word_upd i f v k : 0 <= i < size v -> 0 <= k -> word (upd i f v) k = if k =? i then f (word v i) else word v k.
Proof.
  intros Hi Hk. unfold word, upd, size in *. rewrite !nth_lookup.
  destruct (Z.eqb_spec k i) as [->|Hne].
  - rewrite list_lookup_alter_eq. destruct (lookup_lt_is_Some_2 v (Z.to_nat i)) as [w ->]; [lia|done].
  - rewrite list_lookup_alter_ne by lia. done.
Qed.

Lemma size_upd i f v : size (upd i f v) = size v.
Proof. unfold size, upd. by rewrite length_alter. Qed.

Lemma size_pos v : wf v -> 1 <= size v.
Proof. intros [Hv _]. unfold size. destruct v; [done|]. simpl. lia. Qed.

Lemma word_ok_word v k : Forall word_ok v -> word_ok (word v k).
Proof.
  intros Hv. unfold word. destruct (decide (Z.to_nat k < length v)%nat) as [Hk|Hk].
  - rewrite Forall_forall in Hv. apply Hv. apply list_elem_of_In, nth_In, Hk.
  - rewrite nth_overflow by lia. apply word_ok_0.
Qed.

Lemma wf_upd i f v : wf v -> (forall w, word_ok w -> word_ok (f w)) -> wf (upd i f v).
Proof.
  intros [Hne Hv] Hf. split.
  - intros E. apply (f_equal length) in E. unfold upd in E. rewrite length_alter in E. destruct v; done.
  - unfold upd. apply Forall_alter; [done|]. intros w Hw Hw'. by apply Hf.
Qed.

(** The bits of an update: [r] is the bit position inside the word. *)
Lemma tb_upd k f v i : 0 <= k < size v -> 0 <= i ->
  tb (upd k f v) i = if i / 64 =? k then Z.testbit (f (word v k)) (i mod 64) else tb v i.
Proof.
  intros Hk Hi. unfold tb. rewrite word_upd by (done || apply Z.div_pos; lia).
  by destruct (i / 64 =? k).
Qed.

(** ** Growth *)
Lemma smear k m t : 0 <= k -> 0 <= t ->
  (forall i, 0 <= i -> t - k < i <= t -> Z.testbit m i = true) -> (forall i, t < i -> Z.testbit m i = false) ->
  let m' := Z.lor m (Z.shiftr m k) in
  (forall i, 0 <= i -> t - 2 * k < i <= t -> Z.testbit m' i = true) /\ (forall i, t < i -> Z.testbit m' i = false).
Proof.
  intros Hk Ht H1 H0. split.
  - intros i Hi Hr. rewrite Z.lor_spec, Z.shiftr_spec by done. destruct (Z.lt_ge_cases (t - k) i).
    + by rewrite H1 by lia.
    + rewrite (H1 (i + k)) by lia. apply orb_true_r.
  - intros i Hi. rewrite Z.lor_spec, Z.shiftr_spec by lia. by rewrite !H0 by lia.
Qed.

Lemma expand_size_bounds n : 0 <= n < 2 ^ 35 -> n <= expand_size n <= 2 * n.
Proof.
  intros Hn. unfold expand_size. destruct (Z.eqb_spec (Z.shiftr n 3) 0) as [|Hm]; [lia|].
  assert (Hpos : 0 < Z.shiftr n 3) by (pose proof (Z.shiftr_nonneg n 3); lia).
  set (t := Z.log2 (Z.shiftr n 3)).
  assert (Ht : 0 <= t < 32).
  { split; [apply Z.log2_nonneg|]. apply Z.log2_lt_pow2; [done|]. rewrite Z.shiftr_div_pow2 by lia.
    apply Z.div_lt_upper_bound; lia. }
  assert (Hb1 : forall i, 0 <= i -> t - 1 < i <= t -> Z.testbit (Z.shiftr n 3) i = true).
  { intros i Hi Hr. replace i with t by lia. by apply Z.bit_log2. }
  assert (Hb0 : forall i, t < i -> Z.testbit (Z.shiftr n 3) i = false) by (intros; apply Z.bits_above_log2; lia).
  destruct (smear 1 _ t ltac:(lia) ltac:(lia) Hb1 Hb0) as [Hc1 Hc0].
  destruct (smear 2 _ t ltac:(lia) ltac:(lia) Hc1 Hc0) as [Hd1 Hd0].
  destruct (smear 4 _ t ltac:(lia) ltac:(lia) Hd1 Hd0) as [He1 He0].
  destruct (smear 8 _ t ltac:(lia) ltac:(lia) He1 He0) as [Hf1 Hf0].
  destruct (smear 16 _ t ltac:(lia) ltac:(lia) Hf1 Hf0) as [Hg1 Hg0].
  assert (Hp : 2 ^ (t + 1) <= n).
  { rewrite Z.pow_add_r by lia. pose proof (Z.log2_spec _ Hpos) as [Hl _]. fold t in Hl.
    rewrite Z.shiftr_div_pow2 in Hl by lia. pose proof (Z.mul_div_le n (2 ^ 3) ltac:(lia)). lia. }
  set (m := Z.lor _ (Z.shiftr _ 16)) in *. clearbody m. clear -Hg1 Hg0 Ht Hn Hp.
  assert (m = Z.ones (t + 1)) as ->.
  { apply Z.bits_inj'. intros i Hi. rewrite testbit_ones by lia. destruct (Z.ltb_spec i (t + 1)); [apply Hg1|apply Hg0]; lia. }
  rewrite <- Z.ldiff_land, Z.ldiff_ones_r, Z.shiftr_div_pow2, Z.shiftl_mul_pow2, Z.ones_equiv by lia.
  pose proof (pow2_pos (t + 1) ltac:(lia)). set (p := 2 ^ (t + 1)) in *.
  pose proof (Z.div_mod (n + Z.pred p) p ltac:(lia)). pose proof (Z.mod_pos_bound (n + Z.pred p) p ltac:(lia)). lia.
Qed.

Lemma expand_size_ge n : 0 <= n < 2 ^ 35 -> n <= expand_size n.
Proof. intros Hn. by apply expand_size_bounds. Qed.

Lemma word_expand n v k : 0 <= k -> word (expand n v) k = word v k.
Proof.
  intros Hk. unfold word, expand. destruct (decide (Z.to_nat k < length v)%nat).
  - by apply app_nth1.
  - rewrite app_nth2, (nth_overflow v) by lia.
    generalize (Z.to_nat k - length v)%nat. generalize (Z.to_nat (expand_size n - size v)).
    intros a. induction a as [|a IH]; intros [|b]; simpl; try done.
Qed.

Lemma size_expand n v : size (expand n v) = Z.max (size v) (expand_size n).
Proof. unfold expand. unfold size at 1. rewrite length_app, length_replicate. unfold size. lia. Qed.

Lemma tb_expand n v i : 0 <= i -> tb (expand n v) i = tb v i.
Proof. intros Hi. unfold tb. rewrite word_expand; [done|]. apply Z.div_pos; lia. Qed.

Lemma wf_expand n v : wf v -> wf (expand n v).
Proof.
  intros [Hne Hv]. split; [unfold expand; by destruct v|]. apply Forall_app. split; [done|].
  apply Forall_replicate, word_ok_0.
Qed.

Lemma wf_empty_bitvec : wf empty_bitvec.
Proof. split; [done|]. constructor; [apply word_ok_0|constructor]. Qed.
#[export] Hint Resolve wf_upd wf_expand wf_empty_bitvec : flexplan.

(** ** Ranges *)
(** Split an index into its word and its place in the word. *)
Ltac split_index i :=
  pose proof (Z.div_mod i 64 ltac:(lia)); pose proof (Z.mod_pos_bound i 64 ltac:(lia)).
(** A range test, from comparisons of indices. *)
Ltac ranges :=
  repeat first
    [ match goal with
      | |- context [(?a <? ?b)%Z] => destruct (Z.ltb_spec a b)
      | |- context [(?a <=? ?b)%Z] => destruct (Z.leb_spec a b)
      end; cbn [andb orb negb]; rewrite ?orb_false_r, ?orb_true_r, ?andb_true_r, ?andb_false_r
    | progress autorewrite with words ];
  rewrite ?orb_false_r, ?orb_true_r, ?andb_true_r, ?andb_false_r; try done; try (exfalso; lia).

(** The vector grown to hold the range. *)
Lemma grow_ok idx sz v (v' := grow idx sz v) :
  wf v -> 0 <= idx -> 0 < sz -> idx + sz < 2 ^ 40 ->
  wf v' /\ idx + sz <= nbits v' /\ (forall i, 0 <= i -> tb v' i = tb v i) /\ (forall k, 0 <= k -> word v' k = word v k) /\
  uadd idx sz = idx + sz /\ last_bit idx sz = idx + sz - 1.
Proof.
  intros Hv Hi Hs Hb. assert (uadd idx sz = idx + sz) as Hu by (apply wrapu_small; lia).
  assert (last_bit idx sz = idx + sz - 1) as Hl by (apply wrapu_small; lia).
  subst v'. unfold grow. rewrite Hu, Hl. destruct (Z.ltb_spec (nbits v) (idx + sz)); [|done].
  split; [auto with flexplan|]. split; [|split; [intros; by apply tb_expand|split; [intros; by apply word_expand|done]]].
  unfold nbits, bits_per_unit in *. rewrite size_expand. split_index (idx + sz - 1).
  pose proof (expand_size_ge (1 + (idx + sz - 1) / 64)) as He.
  assert ((idx + sz - 1) / 64 < 2 ^ 34) by (apply Z.div_lt_upper_bound; lia). lia.
Qed.

Lemma fill_ok n : forall i last w v, 0 <= i -> last <= size v -> last - i <= Z.of_nat n ->
  let '(i', v') := fill n i last w v in
  i' = Z.max i last /\ size v' = size v /\
  (forall k, 0 <= k -> word v' k = if (i <=? k) && (k <? last) then w else word v k).
Proof.
  induction n as [|n IH]; intros i last w v Hi Hl Hn; cbn [fill].
  - split; [lia|]. split; [done|]. intros k Hk. ranges.
  - destruct (Z.ltb_spec i last).
    + specialize (IH (i + 1) last w (upd i (fun _ => w) v) ltac:(lia)). rewrite size_upd in IH.
      specialize (IH Hl ltac:(lia)). destruct (fill n _ _ _ _) as [i' v']. destruct IH as (-> & -> & IH).
      split; [lia|]. split; [done|]. intros k Hk. rewrite IH, word_upd by lia.
      destruct (Z.eqb_spec k i) as [->|]; ranges.
    + split; [lia|]. split; [done|]. intros k Hk. ranges.
Qed.

Lemma wf_fill n : forall i last w v, word_ok w -> wf v -> wf (fill n i last w v).2.
Proof.
  induction n as [|n IH]; intros i last w v Hw Hv; cbn [fill]; [done|].
  destruct (i <? last); [|done]. apply IH; [done|]. by apply wf_upd.
Qed.

Lemma div_le_mono64 a b : a <= b -> a / 64 <= b / 64.
Proof. intros. apply Z.div_le_mono; lia. Qed.

Lemma tb_setrange idx sz v i : wf v -> 0 <= idx -> 0 <= sz -> idx + sz < 2 ^ 40 -> 0 <= i ->
  tb (setrange idx sz v) i = tb v i || ((idx <=? i) && (i <? idx + sz)).
Proof.
  intros Hv Hidx Hsz Hb Hi. unfold setrange. destruct (Z.eqb_spec sz 0) as [->|Hne]; [ranges|].
  destruct (grow_ok idx sz v Hv Hidx ltac:(lia) Hb) as (Hw & Hn & Ht & _ & -> & ->).
  cbv zeta. set (v' := grow idx sz v) in *. clearbody v'. rewrite <- Ht by done. clear Hv Ht v.
  pose proof (size_pos v' Hw) as Hp. unfold nbits, bits_per_unit in Hn.
  split_index i. split_index idx. split_index (idx + sz). split_index (idx + sz - 1).
  destruct (Z.eqb_spec (size v') 1) as [Hs|Hs].
  { rewrite tb_upd by lia. unfold tb. destruct (Z.eqb_spec (i / 64) 0) as [Hq|Hq]; [|ranges].
    rewrite Hq. autorewrite with words. ranges. }
  destruct (Z.eqb_spec (idx / 64) ((idx + sz - 1) / 64)) as [He|He].
  { rewrite tb_upd by lia. unfold tb. destruct (Z.eqb_spec (i / 64) (idx / 64)) as [Hq|Hq]; [|ranges].
    rewrite Hq. autorewrite with words. ranges. }
  set (v1 := upd (idx / 64) _ v'). assert (Hs1 : size v1 = size v') by apply size_upd.
  pose proof (fill_ok (length v1) (idx / 64 + 1) ((idx + sz) / 64) all_ones v1 ltac:(lia) ltac:(lia)) as Hf.
  assert (Hlen : Z.of_nat (length v1) = size v') by (rewrite <- Hs1; done).
  specialize (Hf ltac:(lia)). destruct (fill _ _ _ _ _) as [j v2]. destruct Hf as (-> & Hs2 & Hf).
  assert (Hv2 : tb v2 i = tb v' i || ((idx <=? i) && (i / 64 <? (idx + sz) / 64))).
  { unfold tb. rewrite Hf by lia. unfold v1. rewrite word_upd by lia.
    destruct (Z.eqb_spec (i / 64) (idx / 64)) as [Hq|Hq].
    - rewrite Hq. autorewrite with words. ranges.
    - ranges. }
  replace (Z.max (idx / 64 + 1) ((idx + sz) / 64)) with ((idx + sz) / 64) by lia.
  destruct (Z.ltb_spec ((idx + sz) / 64) (size v2)); [|rewrite Hv2; ranges].
  rewrite tb_upd by lia. rewrite Hv2. destruct (Z.eqb_spec (i / 64) ((idx + sz) / 64)) as [Hq|Hq]; [|ranges].
  rewrite <- Hq, Z.lor_spec. change (Z.testbit (word v2 (i / 64)) (i mod 64)) with (tb v2 i). rewrite Hv2.
  rewrite shl_1_sub, testbit_ones by lia. ranges.
Qed.

Lemma wf_setrange idx sz v : wf v -> 0 <= idx -> 0 <= sz -> idx + sz < 2 ^ 40 -> wf (setrange idx sz v).
Proof.
  intros Hv Hidx Hsz Hb. unfold setrange. destruct (Z.eqb_spec sz 0); [done|].
  destruct (grow_ok idx sz v Hv Hidx ltac:(lia) Hb) as (Hw & _). cbv zeta. set (v' := grow idx sz v) in *. clearbody v'.
  destruct (size v' =? 1); [auto with flexplan|]. destruct (_ =? _); [auto with flexplan|].
  set (v1 := upd _ _ v'). assert (Hw1 : wf v1) by (apply wf_upd; auto with flexplan).
  pose proof (wf_fill (length v1) (idx / 64 + 1) (uadd idx sz / 64) all_ones v1 ltac:(done) Hw1) as Hf.
  destruct (fill _ _ _ _ _) as [j v2]. simpl in Hf. destruct (j <? size v2); [|done].
  apply wf_upd; [done|]. intros w Hwo. pose proof (Z.mod_pos_bound (uadd idx sz) 64).
  rewrite shl_1_sub by lia. apply word_ok_lor; [done|]. unfold word_ok. rewrite Z.ones_equiv.
  pose proof (pow2_pos (uadd idx sz mod 64)). pose proof (Z.pow_lt_mono_r 2 (uadd idx sz mod 64) 64). lia.
Qed.

Lemma tb_clrrange idx sz v i : wf v -> 0 <= idx -> 0 <= sz < 2 ^ 64 -> nbits v < 2 ^ 40 -> 0 <= i ->
  tb (clrrange idx sz v) i = tb v i && negb ((idx <=? i) && (i <? idx + sz)).
Proof.
  intros Hv Hidx Hsz Hb Hi. unfold clrrange. destruct (Z.eqb_spec sz 0) as [->|Hne]; [ranges|].
  pose proof (size_pos v Hv) as Hp. cbv zeta.
  set (sz' := if size v <? sz / 64 then nbits v else sz).
  assert (Hsz' : 0 < sz' < 2 ^ 41 /\ (sz' = sz \/ (nbits v <= sz' /\ nbits v <= sz))).
  { unfold sz', nbits, bits_per_unit in *. split_index sz. destruct (Z.ltb_spec (size v) (sz / 64)); lia. }
  clearbody sz'. destruct Hsz' as [Hs' Hor].
  assert (Hr : tb v i && negb ((idx <=? i) && (i <? idx + sz)) = tb v i && negb ((idx <=? i) && (i <? idx + sz'))).
  { destruct Hor as [->|[H1 H2]]; [done|]. destruct (Z.lt_ge_cases i (nbits v)); [|by rewrite tb_size]. ranges. }
  rewrite Hr. clear Hr Hor Hsz Hne sz. destruct (Z.leb_spec (nbits v) idx) as [Hn|Hn].
  { destruct (Z.lt_ge_cases i (nbits v)); [|by rewrite tb_size]. ranges. }
  assert (uadd idx sz' = idx + sz') as -> by (apply wrapu_small; lia).
  assert (last_bit idx sz' = idx + sz' - 1) as -> by (apply wrapu_small; lia).
  unfold nbits, bits_per_unit in Hn.
  split_index i. split_index idx. split_index (idx + sz'). split_index (idx + sz' - 1).
  destruct (Z.eqb_spec (size v) 1) as [Hs|Hs].
  { rewrite tb_upd by lia. unfold tb. destruct (Z.eqb_spec (i / 64) 0) as [Hq|Hq].
    - rewrite Hq. destruct (Z.ltb_spec (idx + sz') 64); autorewrite with words; ranges.
    - change (Z.testbit (word v (i / 64)) (i mod 64)) with (tb v i). rewrite tb_size by (unfold nbits, bits_per_unit; lia). done. }
  destruct (Z.eqb_spec (idx / 64) ((idx + sz' - 1) / 64)) as [He|He].
  { rewrite tb_upd by lia. unfold tb. destruct (Z.eqb_spec (i / 64) (idx / 64)) as [Hq|Hq]; [|ranges].
    rewrite Hq. autorewrite with words. ranges. }
  set (v1 := upd (idx / 64) _ v). assert (Hs1 : size v1 = size v) by apply size_upd.
  pose proof (fill_ok (length v1) (idx / 64 + 1) (Z.min ((idx + sz') / 64) (size v1)) 0 v1 ltac:(lia) ltac:(lia)) as Hf.
  assert (Hlen : Z.of_nat (length v1) = size v) by (rewrite <- Hs1; done).
  specialize (Hf ltac:(lia)). destruct (fill _ _ _ _ _) as [j v2]. destruct Hf as (-> & Hs2 & Hf).
  assert (Hv2 : tb v2 i = tb v i && negb ((idx <=? i) && (i / 64 <? Z.min ((idx + sz') / 64) (size v)))).
  { unfold tb. rewrite Hf, Hs1 by lia. unfold v1. rewrite word_upd by lia.
    destruct (Z.eqb_spec (i / 64) (idx / 64)) as [Hq|Hq].
    - rewrite Hq. ranges.
    - ranges. }
  destruct (Z.lt_ge_cases i (nbits v)) as [Hin|Hout].
  2: { transitivity false; [|by rewrite tb_size]. assert (Hv2i : tb v2 i = false) by (rewrite Hv2, tb_size; done).
       unfold nbits, bits_per_unit in *. case_match; [|done]. rewrite tb_upd by lia.
       destruct (Z.eqb_spec (i / 64) (Z.max (idx / 64 + 1) (Z.min ((idx + sz') / 64) (size v1)))); [|done]. lia. }
  unfold nbits, bits_per_unit in Hin.
  destruct (Z.ltb_spec (Z.max (idx / 64 + 1) (Z.min ((idx + sz') / 64) (size v1))) (size v2)); [|rewrite Hv2; ranges].
  replace (Z.max (idx / 64 + 1) (Z.min ((idx + sz') / 64) (size v1))) with ((idx + sz') / 64) in * by lia.
  rewrite tb_upd by lia. rewrite Hv2. destruct (Z.eqb_spec (i / 64) ((idx + sz') / 64)) as [Hq|Hq]; [|ranges].
  rewrite <- Hq, Z.land_spec. change (Z.testbit (word v2 (i / 64)) (i mod 64)) with (tb v2 i). rewrite Hv2.
  rewrite shl_1_sub, testbit_bnot, testbit_ones by lia. ranges.
Qed.

Lemma wf_clrrange idx sz v : wf v -> 0 <= idx -> 0 <= sz -> wf (clrrange idx sz v).
Proof.
  intros Hv Hidx Hsz. unfold clrrange. destruct (sz =? 0); [done|]. cbv zeta. set (sz' := if size v <? sz / 64 then nbits v else sz).
  destruct (nbits v <=? idx); [done|].
  destruct (size v =? 1); [auto with flexplan|]. destruct (_ =? _); [auto with flexplan|].
  set (v1 := upd _ _ v). assert (Hw1 : wf v1) by (apply wf_upd; auto with flexplan).
  pose proof (wf_fill (length v1) (idx / 64 + 1) (Z.min (uadd idx sz' / 64) (size v1)) 0 v1 word_ok_0 Hw1) as Hf.
  destruct (fill _ _ _ _ _) as [j v2]. simpl in Hf. destruct (j <? size v2); [|done].
  apply wf_upd; auto with flexplan.
Qed.

(** ** Bitwise operations *)
Lemma val_cons_inj w v w' v' : word_ok w -> word_ok w' -> (val (w :: v) =? val (w' :: v')) = (w =? w') && (val v =? val v').
Proof. unfold word_ok. intros Hw Hw'. simpl. zbool_split; try done; lia. Qed.

Lemma val_replicate_0 n : val (replicate n 0) = 0.
Proof. induction n as [|n IH]; simpl; [done|]. by rewrite IH. Qed.

Lemma val_eq_0 v : Forall word_ok v -> (val v =? 0) = forallb (fun w => w =? 0) v.
Proof.
  induction 1 as [|w v Hw Hv IH]; [done|]. cbn [forallb]. rewrite <- IH.
  pose proof (val_nonneg v Hv). unfold word_ok in Hw. simpl. zbool_split; try done; lia.
Qed.

(** Word by word is bit by bit. *)
Lemma val_zip (f : Z -> Z -> Z) (fb : bool -> bool -> bool) w v x a r :
  (forall a b i, 0 <= i -> Z.testbit (f a b) i = fb (Z.testbit a i) (Z.testbit b i)) ->
  word_ok w -> word_ok x -> word_ok (f w x) -> r = f (val v) (val a) ->
  f w x + 2 ^ 64 * r = f (val (w :: v)) (val (x :: a)).
Proof.
  intros Hf Hw Hx Hfx ->. apply Z.bits_inj'. intros i Hi. rewrite Hf, !testbit_val_cons by done.
  rewrite Z.add_comm, Z.mul_comm, <- lor_shiftl_add by (unfold word_ok in Hfx; lia).
  rewrite Z.lor_spec, testbit_shiftl by done. destruct (Z.ltb_spec i 64), (Z.leb_spec 64 i); try lia; cbn [andb orb].
  - by rewrite Hf.
  - rewrite (testbit_above (f w x) 64) by (unfold word_ok in Hfx; lia). by rewrite orb_false_r, Hf by lia.
Qed.

Lemma and_words_ok v : forall a, Forall word_ok v -> Forall word_ok a ->
  let '(r, rv) := and_words v a in
  Forall word_ok r /\ length r = length v /\ val r = Z.land (val v) (val a) /\ rv = negb (val r =? val v).
Proof.
  induction v as [|w v IH]; intros [|x a] Hv Ha; cbn [and_words]; try done.
  - split; [apply Forall_replicate, word_ok_0|]. split; [by rewrite length_replicate|].
    change (replicate (length (w :: v)) 0) with (replicate (S (length v)) 0). rewrite val_replicate_0, Z.land_0_r.
    split; [done|]. rewrite Z.eqb_sym, val_eq_0 by done. clear. induction (w :: v) as [|y l IH]; simpl; [done|].
    rewrite IH. by destruct (y =? 0).
  - apply Forall_cons in Hv as [Hw Hv], Ha as [Hx Ha]. specialize (IH a Hv Ha).
    destruct (and_words v a) as [r rv]. destruct IH as (Hr & Hlen & Hval & ->).
    assert (Hwx : word_ok (Z.land w x)) by auto with flexplan.
    split; [by constructor|]. split; [simpl; lia|]. split; [|rewrite val_cons_inj by done; by rewrite negb_andb].
    apply (val_zip Z.land andb); try done. intros. apply Z.land_spec.
Qed.

Lemma or_words_ok v : forall a, (length a <= length v)%nat -> Forall word_ok v -> Forall word_ok a ->
  let '(r, rv) := or_words v a in
  Forall word_ok r /\ length r = length v /\ val r = Z.lor (val v) (val a) /\ rv = negb (val r =? val v).
Proof.
  induction v as [|w v IH]; intros [|x a] Hlen Hv Ha; cbn [or_words]; try done; try (simpl in Hlen; lia).
  - simpl val. rewrite Z.lor_0_r, Z.eqb_refl. done.
  - apply Forall_cons in Hv as [Hw Hv], Ha as [Hx Ha]. specialize (IH a ltac:(simpl in Hlen; lia) Hv Ha).
    destruct (or_words v a) as [r rv]. destruct IH as (Hr & Hl & Hval & ->).
    assert (Hwx : word_ok (Z.lor w x)) by auto with flexplan.
    split; [by constructor|]. split; [simpl; lia|]. split; [|rewrite val_cons_inj by done; by rewrite negb_andb].
    apply (val_zip Z.lor orb); try done. intros. apply Z.lor_spec.
Qed.

Lemma xor_words_ok v : forall a, (length a <= length v)%nat -> Forall word_ok v -> Forall word_ok a ->
  Forall word_ok (xor_words v a) /\ length (xor_words v a) = length v /\ val (xor_words v a) = Z.lxor (val v) (val a).
Proof.
  induction v as [|w v IH]; intros [|x a] Hlen Hv Ha; cbn [xor_words]; try done; try (simpl in Hlen; lia).
  - simpl val. by rewrite Z.lxor_0_r.
  - apply Forall_cons in Hv as [Hw Hv], Ha as [Hx Ha]. destruct (IH a ltac:(simpl in Hlen; lia) Hv Ha) as (Hr & Hl & Hval).
    assert (Hwx : word_ok (Z.lxor w x)) by auto with flexplan.
    split; [by constructor|]. split; [simpl; lia|]. apply (val_zip Z.lxor xorb); try done. intros. apply Z.lxor_spec.
Qed.

Lemma land_bnot w x : word_ok w -> Z.land w (bnot x) = Z.ldiff w x.
Proof.
  intros Hw. apply Z.bits_inj'. intros i Hi. rewrite Z.land_spec, Z.ldiff_spec.
  destruct (Z.lt_ge_cases i 64); [by rewrite testbit_bnot by lia|]. by rewrite (testbit_above w 64) by (unfold word_ok in Hw; lia).
Qed.

Lemma sub_words_ok v : forall a, Forall word_ok v -> Forall word_ok a ->
  let '(r, rv) := sub_words v a in
  Forall word_ok r /\ length r = length v /\ val r = Z.ldiff (val v) (val a) /\ rv = negb (val r =? val v).
Proof.
  induction v as [|w v IH]; intros [|x a] Hv Ha; cbn [sub_words]; try done.
  - simpl val. rewrite Z.ldiff_0_r, Z.eqb_refl. done.
  - apply Forall_cons in Hv as [Hw Hv], Ha as [Hx Ha]. specialize (IH a Hv Ha).
    destruct (sub_words v a) as [r rv]. destruct IH as (Hr & Hl & Hval & ->).
    assert (Hwx : word_ok (Z.land w (bnot x))) by auto with flexplan.
    split; [by constructor|]. split; [simpl; lia|]. split; [|rewrite val_cons_inj by done; by rewrite negb_andb].
    cbn [val]. rewrite land_bnot in * by done.
    apply (val_zip Z.ldiff (fun p q => p && negb q)); try done. intros. apply Z.ldiff_spec.
Qed.

Lemma val_expand n v : Forall word_ok v -> val (expand n v) = val v.
Proof.
  intros Hv. apply val_ext; [|done|intros; by apply tb_expand].
  apply Forall_app. split; [done|]. apply Forall_replicate, word_ok_0.
Qed.

(** The operand grown to the size of the other. *)
Lemma widen_ok v a (v' := if size v <? size a then expand (size a) v else v) :
  wf v -> size a < 2 ^ 35 -> wf v' /\ val v' = val v /\ (length a <= length v')%nat.
Proof.
  intros Hv Ha. subst v'. unfold size in *. destruct (Z.ltb_spec (Z.of_nat (length v)) (Z.of_nat (length a))).
  - split; [auto with flexplan|]. split; [apply val_expand, Hv|].
    pose proof (size_expand (Z.of_nat (length a)) v) as He. pose proof (expand_size_ge (Z.of_nat (length a)) ltac:(lia)).
    unfold size in He. lia.
  - split; [done|]. split; [done|lia].
Qed.

Lemma wf_length v r : wf v -> Forall word_ok r -> length r = length v -> wf r.
Proof. intros [Hne _] Hr Hl. split; [|done]. intros ->. by destruct v. Qed.

Lemma and_assign_ok v a : wf v -> wf a ->
  wf (and_assign v a).1 /\ size (and_assign v a).1 = size v /\ val (and_assign v a).1 = Z.land (val v) (val a) /\
  (and_assign v a).2 = negb (val (and_assign v a).1 =? val v).
Proof.
  intros Hv Ha. unfold and_assign. pose proof (and_words_ok v a (proj2 Hv) (proj2 Ha)) as Ho.
  destruct (and_words v a) as [r rv]. destruct Ho as (Hr & Hl & Hval & ->). simpl.
  split; [by apply (wf_length v)|]. unfold size. rewrite Hl. done.
Qed.

Lemma and_ok v a : wf v -> wf a -> wf (and v a) /\ val (and v a) = Z.land (val v) (val a) /\ size (and v a) = Z.min (size v) (size a).
Proof.
  intros Hv Ha. unfold and. destruct (Z.leb_spec (size v) (size a)).
  - destruct (and_assign_ok v a Hv Ha) as (? & ? & ? & _). split; [done|]. split; [done|lia].
  - destruct (and_assign_ok a v Ha Hv) as (? & ? & ? & _). rewrite Z.land_comm. split; [done|]. split; [done|lia].
Qed.

Lemma or_assign_ok v a : wf v -> wf a -> size a < 2 ^ 35 ->
  wf (or_assign v a).1 /\ val (or_assign v a).1 = Z.lor (val v) (val a) /\
  (or_assign v a).2 = negb (val (or_assign v a).1 =? val v).
Proof.
  intros Hv Ha Hs. unfold or_assign. destruct (widen_ok v a Hv Hs) as (Hv' & Hval' & Hlen).
  set (v' := if _ <? _ then _ else _) in *. clearbody v'.
  pose proof (or_words_ok v' a Hlen (proj2 Hv') (proj2 Ha)) as Ho.
  destruct (or_words v' a) as [r rv]. destruct Ho as (Hr & Hl & Hval & ->). simpl. rewrite Hval, Hval'.
  split; [by apply (wf_length v')|]. done.
Qed.

Lemma or_ok v a : wf v -> wf a -> size a < 2 ^ 35 -> wf (or v a) /\ val (or v a) = Z.lor (val v) (val a).
Proof. intros Hv Ha Hs. destruct (or_assign_ok v a Hv Ha Hs) as (? & ? & _). done. Qed.

Lemma xor_ok v a : wf v -> wf a -> size a < 2 ^ 35 -> wf (xor v a) /\ val (xor v a) = Z.lxor (val v) (val a).
Proof.
  intros Hv Ha Hs. unfold xor. destruct (widen_ok v a Hv Hs) as (Hv' & Hval' & Hlen).
  set (v' := if _ <? _ then _ else _) in *. clearbody v'. rewrite <- Hval'.
  destruct (xor_words_ok v' a Hlen (proj2 Hv') (proj2 Ha)) as (Hr & Hl & Hval).
  split; [by apply (wf_length v')|done].
Qed.

Lemma sub_assign_ok v a : wf v -> wf a ->
  wf (sub_assign v a).1 /\ val (sub_assign v a).1 = Z.ldiff (val v) (val a) /\
  (sub_assign v a).2 = negb (val (sub_assign v a).1 =? val v).
Proof.
  intros Hv Ha. unfold sub_assign. pose proof (sub_words_ok v a (proj2 Hv) (proj2 Ha)) as Ho.
  destruct (sub_words v a) as [r rv]. destruct Ho as (Hr & Hl & Hval & ->). simpl.
  split; [by apply (wf_length v)|done].
Qed.

(** ** Comparisons *)
Lemma word_testbit v k j : Forall word_ok v -> 0 <= k -> 0 <= j < 64 ->
  Z.testbit (word v k) j = Z.testbit (val v) (64 * k + j).
Proof.
  intros Hv Hk Hj. rewrite testbit_val by (done || lia). unfold tb.
  rewrite Z.add_comm, Z.mul_comm, Z.div_add, Z.mod_add, Z.div_small, Z.mod_small by lia. done.
Qed.

(** A word is a digit of the number, in base [2^64]. *)
Lemma word_digit v k : Forall word_ok v -> 0 <= k -> word v k = val v / 2 ^ (64 * k) mod 2 ^ 64.
Proof.
  intros Hv Hk. pose proof (word_ok_word v k Hv) as Hw. unfold word_ok in Hw.
  apply Z.bits_inj'. intros j Hj. rewrite testbit_mod_pow2 by lia. destruct (Z.ltb_spec j 64); simpl.
  - rewrite Z.div_pow2_bits by lia. rewrite word_testbit by (done || lia). f_equal. lia.
  - by apply (testbit_above _ 64); lia.
Qed.

Lemma val_bound v : Forall word_ok v -> val v < 2 ^ (64 * size v).
Proof.
  unfold size. induction 1 as [|w v Hw Hv IH]; [done|]. cbn [val length]. unfold word_ok in Hw.
  replace (64 * Z.of_nat (S (length v))) with (64 + 64 * Z.of_nat (length v)) by lia.
  rewrite Z.pow_add_r by lia. nia.
Qed.

Lemma eqb_ok v a : Forall word_ok v -> Forall word_ok a -> eqb v a = (val v =? val a).
Proof.
  intros Hv Ha. apply eq_true_iff_eq. unfold eqb. rewrite forallb_forall, Z.eqb_eq. split.
  - intros Hw. apply val_ext; [done..|]. intros i Hi. unfold tb. f_equal.
    pose proof (Z.div_pos i 64). destruct (decide (Z.to_nat (i / 64) < Nat.max (length v) (length a))%nat) as [Hlt|Hge].
    + specialize (Hw (Z.to_nat (i / 64))). rewrite Z2Nat.id in Hw by lia. apply Z.eqb_eq, Hw, in_seq. lia.
    + unfold word. by rewrite !nth_overflow by lia.
  - intros He i _. apply Z.eqb_eq. rewrite !word_digit by (done || lia). by rewrite He.
Qed.

Lemma ltb_from_ok i v a : Forall word_ok v -> Forall word_ok a ->
  ltb_from i v a = (val v mod 2 ^ (64 * Z.of_nat i) <? val a mod 2 ^ (64 * Z.of_nat i)).
Proof.
  intros Hv Ha. induction i as [|i IH]; cbn [ltb_from]; [by rewrite !Z.mod_1_r|].
  rewrite IH, !word_digit by (done || lia).
  replace (64 * Z.of_nat (S i)) with (64 * Z.of_nat i + 64) by lia. rewrite Z.pow_add_r by lia.
  pose proof (pow2_pos (64 * Z.of_nat i) ltac:(lia)) as Hp. set (p := 2 ^ (64 * Z.of_nat i)) in *.
  rewrite !Z.rem_mul_r by lia. pose proof (Z.mod_pos_bound (val v) p Hp). pose proof (Z.mod_pos_bound (val a) p Hp).
  set (x := val v / p mod 2 ^ 64). set (y := val a / p mod 2 ^ 64). zbool_split; try done; nia.
Qed.

Lemma ltb_ok v a : Forall word_ok v -> Forall word_ok a -> ltb v a = (val v <? val a).
Proof.
  intros Hv Ha. unfold ltb. rewrite ltb_from_ok by done.
  pose proof (val_nonneg v Hv). pose proof (val_nonneg a Ha). pose proof (val_bound v Hv). pose proof (val_bound a Ha).
  unfold size in *. set (n := Nat.max (length v) (length a)).
  assert (2 ^ (64 * Z.of_nat (length v)) <= 2 ^ (64 * Z.of_nat n)) by (apply Z.pow_le_mono_r; lia).
  assert (2 ^ (64 * Z.of_nat (length a)) <= 2 ^ (64 * Z.of_nat n)) by (apply Z.pow_le_mono_r; lia).
  by rewrite !Z.mod_small by lia.
Qed.

(** ** Shifts *)
Definition shr_word (off count : Z) (v : bitvec) (k : Z) : Z :=
  if k + off <? size v then
    let w := Z.shiftr (word v (k + off)) count in
    if negb (count =? 0) && (k + off + 1 <? size v) then Z.lor w (shl (word v (k + off + 1)) (64 - count)) else w
  else 0.

Lemma size_shr_step off count p i : size (shr_step off count p i) = size p.
Proof. unfold shr_step. repeat case_match; by rewrite ?size_upd. Qed.

Lemma word_shr_step off count v p i k : 0 <= off -> size p = size v -> Z.of_nat i < size v -> 0 <= k ->
  (forall k, Z.of_nat i <= k -> word p k = word v k) ->
  word (shr_step off count p i) k = if k =? Z.of_nat i then shr_word off count v k else word p k.
Proof.
  intros Hoff Hs Hi Hk Hp. unfold shr_step, shr_word. rewrite Hs. set (j := Z.of_nat i) in *.
  assert (Hj : 0 <= j) by lia.
  destruct (Z.ltb_spec (j + off) (size v)) as [Hlt|Hge].
  - rewrite Hp by lia. rewrite size_upd, Hs.
    destruct (negb (count =? 0) && (j + off + 1 <? size v)) eqn:E; rewrite !word_upd by (rewrite ?size_upd; lia);
      destruct (Z.eqb_spec k j) as [->|]; rewrite ?E; rewrite ?Z.eqb_refl; try done;
      destruct (Z.ltb_spec (j + off) (size v)); try lia; try done.
    destruct (Z.eqb_spec (j + off + 1) j); [lia|]. by rewrite Hp by lia.
  - rewrite word_upd by lia. destruct (Z.eqb_spec k j) as [->|]; [|done].
    by destruct (Z.ltb_spec (j + off) (size v)); [lia|].
Qed.

Lemma shr_fold off count v n : forall m p, 0 <= off -> size p = size v -> (Z.of_nat (m + n) <= size v) ->
  (forall k, Z.of_nat m <= k -> word p k = word v k) ->
  let r := fold_left (shr_step off count) (seq m n) p in
  size r = size v /\ forall k, 0 <= k ->
    word r k = if (Z.of_nat m <=? k) && (k <? Z.of_nat (m + n)) then shr_word off count v k else word p k.
Proof.
  induction n as [|n IH]; intros m p Hoff Hs Hn Hp; cbn [seq fold_left].
  - split; [done|]. intros k Hk. ranges.
  - destruct (IH (S m) (shr_step off count p m)) as [H1 H2].
    + done.
    + by rewrite size_shr_step.
    + lia.
    + intros k Hk. rewrite (word_shr_step off count v) by (done || lia). destruct (Z.eqb_spec k (Z.of_nat m)); [lia|]. apply Hp. lia.
    + cbv zeta. split; [done|]. intros k Hk. rewrite H2 by done. rewrite (word_shr_step off count v) by (done || lia).
      destruct (Z.eqb_spec k (Z.of_nat m)) as [->|]; ranges.
Qed.

Lemma tb_shr_word off count v i : wf v -> 0 <= off -> 0 <= count < 64 -> 0 <= i < nbits v ->
  Z.testbit (shr_word off count v (i / 64)) (i mod 64) = tb v (i + (64 * off + count)).
Proof.
  intros Hv Hoff Hc Hi. unfold shr_word, nbits, bits_per_unit in *. set (c := 64 * off + count).
  split_index i. split_index (i + c).
  destruct (Z.ltb_spec (i / 64 + off) (size v)) as [Hlt|Hge].
  2: { rewrite Z.testbit_0_l. symmetry. apply tb_size. unfold nbits, bits_per_unit, c. lia. }
  pose proof (word_ok_word v (i / 64 + off) (proj2 Hv)) as Hw. unfold word_ok in Hw.
  assert (Hbits : Z.testbit (Z.shiftr (word v (i / 64 + off)) count) (i mod 64) =
    (i mod 64 + count <? 64) && tb v (i + c)).
  { rewrite Z.shiftr_spec by lia. destruct (Z.ltb_spec (i mod 64 + count) 64); simpl.
    - unfold tb. replace ((i + c) / 64) with (i / 64 + off) by (unfold c in *; lia).
      f_equal. unfold c in *. lia.
    - by apply (testbit_above _ 64); lia. }
  destruct (Z.eqb_spec count 0) as [->|Hc0]; cbn [negb andb].
  - rewrite Hbits. destruct (Z.ltb_spec (i mod 64 + 0) 64); [done|lia].
  - destruct (Z.ltb_spec (i / 64 + off + 1) (size v)) as [Hlt2|Hge2].
    + rewrite Z.lor_spec, Hbits, testbit_shl by lia. destruct (Z.ltb_spec (i mod 64 + count) 64), (Z.leb_spec (64 - count) (i mod 64)); try lia; simpl.
      * apply orb_false_r.
      * unfold tb. replace ((i + c) / 64) with (i / 64 + off + 1) by (unfold c in *; lia).
        f_equal. unfold c in *. lia.
    + rewrite Hbits. destruct (Z.ltb_spec (i mod 64 + count) 64); simpl; [done|].
      symmetry. apply tb_size. unfold nbits, bits_per_unit, c. lia.
Qed.

Lemma trim_ok v : wf v -> wf (trim v) /\ val (trim v) = val v.
Proof.
  intros [Hne Hv]. induction Hv as [|w v Hw Hv IH]; [done|]. destruct v as [|x v].
  - cbn [trim]. split; [|done]. split; [done|]. by constructor.
  - destruct IH as [[Hne' Hv'] Hval]; [done|]. change (trim (w :: x :: v)) with (match trim (x :: v) with [0] => [w] | r => w :: r end).
    change (val (w :: x :: v)) with (w + 2 ^ 64 * val (x :: v)). rewrite <- Hval.
    destruct (trim (x :: v)) as [|[|p|p] [|y r]]; try (split; [split; [done|by constructor]|done]).
Qed.

Lemma shift_right_ok v c : wf v -> 0 <= c -> wf (shift_right v c) /\ val (shift_right v c) = Z.shiftr (val v) c.
Proof.
  intros Hv Hc. pose proof (size_pos v Hv) as Hp. unfold shift_right. destruct (Z.eqb_spec (size v) 1) as [Hs|Hs].
  - destruct v as [|w [|x v]]; [done| |unfold size in Hs; simpl in Hs; lia]. destruct Hv as [_ [Hw _]%Forall_cons].
    unfold upd. simpl. assert (Hr : word_ok (if 64 <=? c then 0 else Z.shiftr w c)) by (destruct (64 <=? c); auto with flexplan).
    split; [split; [done|by constructor]|]. rewrite Z.mul_0_r, !Z.add_0_r. destruct (Z.leb_spec 64 c) as [Hge|]; [|done].
    symmetry. unfold word_ok in Hw. apply Z.bits_inj'. intros i Hi.
    rewrite Z.shiftr_spec, Z.testbit_0_l by done. apply (testbit_above _ 64); lia.
  - split_index c. pose proof (Z.div_pos c 64).
    destruct (shr_fold (c / 64) (c mod 64) v (length v) 0 v) as [Hsz Hr]; [lia|done|unfold size; lia|done|].
    set (r := fold_left _ _ v) in *. clearbody r.
    assert (Hwr : wf r).
    { unfold size in *. split; [intros ->; simpl in *; lia|]. apply Forall_lookup. intros k w Hk.
      pose proof (lookup_lt_Some _ _ _ Hk). specialize (Hr (Z.of_nat k) ltac:(lia)).
      assert (word r (Z.of_nat k) = w) as Hw by (unfold word; rewrite Nat2Z.id, nth_lookup, Hk; done).
      rewrite <- Hw, Hr. destruct (Z.leb_spec (Z.of_nat 0) (Z.of_nat k)), (Z.ltb_spec (Z.of_nat k) (Z.of_nat (0 + length v))); try lia.
      simpl. unfold shr_word. pose proof (word_ok_word v (Z.of_nat k + c / 64) (proj2 Hv)).
      repeat case_match; auto with flexplan. all: apply word_ok_lor || apply word_ok_shiftr || idtac; auto with flexplan; try lia. apply word_ok_shiftr; [lia|done]. }
    destruct (trim_ok r Hwr) as [Ht ->]. split; [done|]. apply val_eq; [apply Hwr|]. intros i Hi.
    rewrite Z.shiftr_spec, testbit_val by (lia || apply Hv). pose proof (Z.div_pos i 64).
    destruct (Z.lt_ge_cases i (nbits v)) as [Hlt|Hge].
    + unfold tb at 1. rewrite Hr by lia. unfold nbits, bits_per_unit, size in Hlt. split_index i.
      destruct (Z.leb_spec (Z.of_nat 0) (i / 64)), (Z.ltb_spec (i / 64) (Z.of_nat (0 + length v))); try lia. simpl.
      rewrite tb_shr_word; [f_equal; lia|done|lia|lia|unfold nbits, bits_per_unit, size; lia].
    + rewrite !tb_size; [done|lia|]. unfold nbits in *. rewrite Hsz. lia.
Qed.

(** ** Scanning *)
(** [c] is the lowest bit of [w]. *)
Definition lowest (w c : Z) : Prop :=
  0 <= c /\ Z.testbit w c = true /\ forall j, 0 <= j < c -> Z.testbit w j = false.

Lemma lowest_shiftr w k c : 0 <= k -> 0 <= c -> (forall j, 0 <= j < k -> Z.testbit w j = false) ->
  lowest (Z.shiftr w k) c -> lowest w (k + c).
Proof.
  intros Hk Hc Hlow (_ & Ht & Hl). split; [lia|]. rewrite Z.shiftr_spec in Ht by lia. split; [by rewrite Z.add_comm|].
  intros j Hj. destruct (Z.lt_ge_cases j k); [apply Hlow; lia|]. specialize (Hl (j - k) ltac:(lia)).
  rewrite Z.shiftr_spec in Hl by lia. by replace (j - k + k) with j in Hl by lia.
Qed.

Lemma land_ones_0 w n : 0 <= n -> Z.land w (Z.ones n) = 0 -> forall j, 0 <= j < n -> Z.testbit w j = false.
Proof.
  intros Hn H0 j Hj. apply (f_equal (fun z => Z.testbit z j)) in H0. rewrite Z.land_spec, testbit_ones, Z.testbit_0_l in H0 by lia.
  destruct (Z.ltb_spec j n); [|lia]. by rewrite andb_true_r in H0.
Qed.

Lemma pos_shiftr w k : 0 < w -> 0 <= k -> (forall j, 0 <= j < k -> Z.testbit w j = false) -> 0 < Z.shiftr w k.
Proof.
  intros Hw Hk Hl. assert (0 <= Z.shiftr w k) by (apply Z.shiftr_nonneg; lia).
  destruct (Z.eq_dec (Z.shiftr w k) 0) as [E|]; [|lia]. exfalso.
  assert (w = 0); [|lia]. apply Z.bits_inj'. intros i Hi. rewrite Z.testbit_0_l.
  destruct (Z.lt_ge_cases i k); [apply Hl; lia|]. replace i with ((i - k) + k) by lia.
  rewrite <- Z.shiftr_spec, E by lia. apply Z.testbit_0_l.
Qed.

Lemma shiftr_lt w k n : 0 <= w < 2 ^ (k + n) -> 0 <= k -> 0 <= n -> Z.shiftr w k < 2 ^ n.
Proof.
  intros Hw Hk Hn. rewrite Z.shiftr_div_pow2 by done. apply Z.div_lt_upper_bound; [by apply pow2_pos|].
  rewrite <- Z.pow_add_r by done. lia.
Qed.

Lemma ctz_bits_ok fuel : forall rv w, 0 < w < 2 ^ Z.of_nat fuel ->
  exists c, ctz_bits fuel rv w = rv + c /\ lowest w c.
Proof.
  induction fuel as [|fuel IH]; intros rv w Hw; [simpl in Hw; lia|]. cbn [ctz_bits].
  change 1 with (Z.ones 1) at 1. destruct (Z.eqb_spec (Z.land w (Z.ones 1)) 0) as [H0|H1].
  - pose proof (land_ones_0 w 1 ltac:(lia) H0) as Hl. destruct (IH (rv + 1) (Z.shiftr w 1)) as (c & -> & Hc).
    + split; [apply pos_shiftr; [lia|lia|done]|]. apply shiftr_lt; [|lia|lia].
      replace (1 + Z.of_nat fuel) with (Z.of_nat (S fuel)) by lia. lia.
    + exists (1 + c). split; [lia|]. pose proof Hc as [? _]. by apply lowest_shiftr; [lia| | |].
  - exists 0. split; [lia|]. split; [lia|]. split; [|intros; lia].
    rewrite Z.land_ones in H1 by lia. rewrite Z.bit0_odd. change (2 ^ 1) with 2 in H1. rewrite Zmod_odd in H1. by destruct (Z.odd w).
Qed.

Lemma ctz_bytes_ok fuel : forall rv w, 0 < w < 2 ^ (8 * Z.of_nat fuel) ->
  exists k w', ctz_bytes fuel rv w = (rv + k, w') /\ 0 <= k /\ w' = Z.shiftr w k /\ 0 < w' /\
    (forall j, 0 <= j < k -> Z.testbit w j = false) /\ Z.land w' 255 <> 0.
Proof.
  induction fuel as [|fuel IH]; intros rv w Hw; [simpl in Hw; lia|]. cbn [ctz_bytes].
  destruct (Z.eqb_spec (Z.land w 255) 0) as [H0|H1].
  - pose proof (land_ones_0 w 8 ltac:(lia) H0) as Hl. destruct (IH (rv + 8) (Z.shiftr w 8)) as (k & w' & -> & Hk & Hw' & Hp & Hlk & Hn).
    + split; [apply pos_shiftr; [lia|lia|done]|]. apply shiftr_lt; [|lia|lia].
      replace (8 + 8 * Z.of_nat fuel) with (8 * Z.of_nat (S fuel)) by lia. lia.
    + exists (8 + k), w'. split; [f_equal; lia|]. split; [lia|]. split; [by rewrite Hw', Z.shiftr_shiftr by lia|].
      split; [done|]. split; [|done]. intros j Hj. destruct (Z.lt_ge_cases j 8); [apply Hl; lia|].
      specialize (Hlk (j - 8) ltac:(lia)). rewrite Z.shiftr_spec in Hlk by lia. by replace (j - 8 + 8) with j in Hlk by lia.
  - exists 0, w. split; [f_equal; lia|]. rewrite Z.shiftr_0_r. split; [lia|]. split; [done|]. split; [lia|].
    split; [intros; lia|done].
Qed.

Lemma ctz_low w m n : lowest (Z.land w (Z.ones n)) m -> 0 <= n -> lowest w m /\ m < n.
Proof.
  intros (H0 & Ht & Hl) Hn. rewrite Z.land_spec, testbit_ones in Ht by lia.
  apply andb_true_iff in Ht as [Ht Hm%Z.ltb_lt]. split; [|done]. split; [done|]. split; [done|].
  intros j Hj. specialize (Hl j Hj). rewrite Z.land_spec, testbit_ones in Hl by lia.
  destruct (Z.ltb_spec j n); [|lia]. by rewrite andb_true_r in Hl.
Qed.

Lemma ctz_bits_land fuel : forall rv w, ctz_bits fuel rv (Z.land w (Z.ones (Z.of_nat fuel))) = ctz_bits fuel rv w.
Proof.
  induction fuel as [|fuel IH]; intros rv w; [done|]. cbn [ctz_bits]. change 1 with (Z.ones 1).
  assert (Z.land (Z.land w (Z.ones (Z.of_nat (S fuel)))) (Z.ones 1) = Z.land w (Z.ones 1)) as ->.
  { zbits; try lia; rewrite ?andb_true_r, ?andb_false_r; done. }
  rewrite <- (IH (rv + Z.ones 1) (Z.shiftr w (Z.ones 1))).
  assert (Z.shiftr (Z.land w (Z.ones (Z.of_nat (S fuel)))) (Z.ones 1) =
    Z.land (Z.shiftr w (Z.ones 1)) (Z.ones (Z.of_nat fuel))) as ->; [|done].
  change (Z.ones 1) with 1. zbits; try lia; done.
Qed.

Lemma builtin_ctz_ok w : word_ok w -> w <> 0 -> lowest w (builtin_ctz w) /\ builtin_ctz w < 64.
Proof.
  unfold word_ok. intros Hw Hne. unfold builtin_ctz.
  destruct (ctz_bytes_ok 8 0 w ltac:(simpl; lia)) as (k & w' & -> & Hk & -> & Hp & Hl & Hn).
  rewrite <- ctz_bits_land. change (Z.ones (Z.of_nat 8)) with 255.
  assert (Hr : 0 < Z.land (Z.shiftr w k) 255 < 2 ^ Z.of_nat 8).
  { change 255 with (Z.ones 8) in *. rewrite Z.land_ones in * by lia.
    pose proof (Z.mod_pos_bound (Z.shiftr w k) (2 ^ 8) ltac:(lia)). simpl in *. lia. }
  destruct (ctz_bits_ok 8 (0 + k) _ Hr) as (c & -> & Hc). change 255 with (Z.ones 8) in Hc.
  apply ctz_low in Hc as [Hc _]; [|lia]. pose proof Hc as [Hc0 _].
  assert (Hlow : lowest w (k + c)) by (by apply lowest_shiftr). replace (0 + k + c) with (k + c) by lia. split; [done|].
  destruct Hlow as (_ & Ht & _). destruct (Z.lt_ge_cases (k + c) 64); [done|]. rewrite (testbit_above w 64) in Ht by lia. done.
Qed.

Lemma clz_bits_ok fuel : forall w, 0 < w < 2 ^ 64 -> 63 - Z.log2 w <= Z.of_nat fuel - 1 ->
  clz_bits fuel w = 63 - Z.log2 w.
Proof.
  induction fuel as [|fuel IH]; intros w Hw Hf.
  - pose proof (Z.log2_lt_pow2 w 64 ltac:(lia)). simpl in Hf. lia.
  - cbn [clz_bits]. destruct (Z.eqb_spec (Z.shiftr w 63) 0) as [H0|H1].
    + assert (Hlt : w < 2 ^ 63).
      { rewrite Z.shiftr_div_pow2 in H0 by lia. pose proof (Z.div_mod w (2 ^ 63) ltac:(lia)).
        pose proof (Z.mod_pos_bound w (2 ^ 63) ltac:(lia)). lia. }
      assert (shl w 1 = 2 * w) as -> by (unfold shl; rewrite Z.shiftl_mul_pow2, wrapu_small by lia; lia).
      rewrite IH; [|lia|]; rewrite Z.log2_double by lia; lia.
    + assert (Hge : 2 ^ 63 <= w).
      { destruct (Z.lt_ge_cases w (2 ^ 63)); [|done]. rewrite Z.shiftr_div_pow2, Z.div_small in H1 by lia. done. }
      pose proof (Z.log2_le_pow2 w 63 ltac:(lia)). pose proof (Z.log2_lt_pow2 w 64 ltac:(lia)). lia.
Qed.

Lemma builtin_clz_ok w : 0 < w < 2 ^ 64 -> builtin_clz w = 63 - Z.log2 w.
Proof. intros Hw. apply clz_bits_ok; [done|]. pose proof (Z.log2_nonneg w). lia. Qed.

(** [r] is the first set bit from [i] on, -1 when there is none. *)
Definition first_from (v : bitvec) (i r : Z) : Prop :=
  (r = -1 /\ forall j, i <= j -> tb v j = false) \/
  (i <= r < nbits v /\ tb v r = true /\ forall j, i <= j < r -> tb v j = false).

Lemma word_bits0 v k : Forall word_ok v -> 0 <= k -> word v k = 0 -> forall j, 64 * k <= j < 64 * k + 64 -> tb v j = false.
Proof.
  intros Hv Hk H0 j Hj. unfold tb. split_index j. replace (j / 64) with k by lia. rewrite H0. apply Z.testbit_0_l.
Qed.

(** A scan step: the word [k], masked from bit [s] on. *)
Lemma scan_word v k s w : Forall word_ok v -> 0 <= k -> 0 <= s < 64 -> word_ok w ->
  (forall j, 0 <= j < 64 -> Z.testbit w j = (s <=? j) && Z.testbit (word v k) j) ->
  if w =? 0 then forall j, 64 * k + s <= j < 64 * k + 64 -> tb v j = false
  else 64 * k + s <= 64 * k + builtin_ctz w < 64 * k + 64 /\ tb v (64 * k + builtin_ctz w) = true /\
       forall j, 64 * k + s <= j < 64 * k + builtin_ctz w -> tb v j = false.
Proof.
  intros Hv Hk Hs Hw Hb.
  assert (Htb : forall j, 64 * k <= j < 64 * k + 64 -> tb v j = Z.testbit (word v k) (j - 64 * k)).
  { intros j Hj. unfold tb. split_index j. replace (j / 64) with k by lia. f_equal. lia. }
  destruct (Z.eqb_spec w 0) as [->|Hne].
  - intros j Hj. rewrite Htb by lia. specialize (Hb (j - 64 * k) ltac:(lia)). rewrite Z.testbit_0_l in Hb.
    destruct (Z.leb_spec s (j - 64 * k)); [done|lia].
  - destruct (builtin_ctz_ok w Hw Hne) as [(H0 & Ht & Hl) H64]. set (c := builtin_ctz w) in *.
    rewrite Hb in Ht by lia. apply andb_true_iff in Ht as [Hsc%Z.leb_le Ht]. split; [lia|].
    split; [rewrite Htb by lia; by replace (64 * k + c - 64 * k) with c by lia|].
    intros j Hj. rewrite Htb by lia. specialize (Hl (j - 64 * k) ltac:(lia)). rewrite Hb in Hl by lia.
    destruct (Z.leb_spec s (j - 64 * k)); [done|lia].
Qed.

Lemma ffs_loop_ok v n : forall idx s, Forall word_ok v -> 0 <= idx -> 0 <= s < 64 -> size v - idx < Z.of_nat n ->
  let '(k, w) := ffs_loop n v idx (shl all_ones s) in
  first_from v (64 * idx + s) (if size v <=? k then -1 else k * 64 + builtin_ctz w).
Proof.
  induction n as [|n IH]; intros idx s Hv Hi Hs Hn; cbn [ffs_loop].
  - destruct (Z.leb_spec (size v) idx) as [Hge|]; [|lia]. left. split; [done|]. intros j Hj. apply tb_size.
    unfold nbits, bits_per_unit. lia.
  - destruct (Z.ltb_spec idx (size v)) as [Hlt|Hge].
    2: { destruct (Z.leb_spec (size v) idx); [|lia]. left. split; [done|]. intros j Hj. apply tb_size.
         unfold nbits, bits_per_unit. lia. }
    pose proof (scan_word v idx s (Z.land (shl all_ones s) (word v idx)) Hv Hi Hs ltac:(auto with flexplan)) as Hscan.
    specialize (Hscan ltac:(intros j Hj; rewrite Z.land_spec, testbit_shl by lia; ranges)).
    destruct (Z.eqb_spec (Z.land (shl all_ones s) (word v idx)) 0) as [H0|Hne].
    + specialize (IH (idx + 1) 0 Hv ltac:(lia) ltac:(lia) ltac:(lia)).
      change (shl all_ones 0) with all_ones in IH. destruct (ffs_loop n v (idx + 1) all_ones) as [k w].
      destruct IH as [(-> & Hn0)|(Hr & Ht & Hl)].
      * left. split; [done|]. intros j Hj. destruct (Z.lt_ge_cases j (64 * idx + 64)); [apply Hscan; lia|apply Hn0; lia].
      * right. split; [lia|]. split; [done|]. intros j Hj.
        destruct (Z.lt_ge_cases j (64 * idx + 64)); [apply Hscan; lia|apply Hl; lia].
    + destruct (Z.leb_spec (size v) idx); [lia|]. right. destruct Hscan as (H1 & H2 & H3).
      rewrite (Z.mul_comm idx 64). unfold nbits, bits_per_unit. split; [lia|]. done.
Qed.

Lemma ffs_ok v start : wf v -> 0 <= start -> first_from v start (ffs v start).
Proof.
  intros [_ Hv] Hs. unfold ffs. split_index start. pose proof (Z.div_pos start 64).
  pose proof (ffs_loop_ok v (S (length v)) (start / 64) (start mod 64) Hv ltac:(lia) ltac:(lia) ltac:(unfold size; lia)) as Hf.
  destruct (ffs_loop _ _ _ _) as [k w]. by replace (64 * (start / 64) + start mod 64) with start in Hf by lia.
Qed.

(** [r] is the first clear bit from [i] on. *)
Definition first_clear (v : bitvec) (i r : Z) : Prop :=
  i <= r /\ tb v r = false /\ forall j, i <= j < r -> tb v j = true.

Lemma ffz_loop_ok v n : forall idx s val, Forall word_ok v -> 0 <= idx -> 0 <= s < 64 -> size v - idx < Z.of_nat n ->
  (forall j, 0 <= j < 64 -> Z.testbit val j = (j <? s)) ->
  let '(k, w) := ffz_loop n v idx val in first_clear v (64 * idx + s) (k * 64 + builtin_ctz (bnot w)).
Proof.
  induction n as [|n IH]; intros idx s val_ Hv Hi Hs Hn Hval; cbn [ffz_loop].
  - simpl in Hn. assert (Hw : word_ok (bnot val_)) by auto with flexplan.
    assert (Hne : bnot val_ <> 0).
    { intros E. assert (Ht : Z.testbit (bnot val_) s = true) by (rewrite testbit_bnot, Hval by lia; ranges).
      by rewrite E, Z.testbit_0_l in Ht. }
    destruct (builtin_ctz_ok _ Hw Hne) as [(H0 & Ht & Hl) H64]. set (c := builtin_ctz _) in *.
    rewrite testbit_bnot, Hval in Ht by lia. apply negb_true_iff, Z.ltb_ge in Ht.
    assert (c = s) as ->. { destruct (Z.eq_dec c s); [done|]. specialize (Hl s ltac:(lia)). rewrite testbit_bnot, Hval in Hl by lia.
      apply negb_false_iff, Z.ltb_lt in Hl. lia. }
    split; [lia|]. split; [|intros; lia]. apply tb_size. unfold nbits, bits_per_unit. lia.
  - set (w := Z.lor val_ (word v idx)).
    assert (Hb : forall j, 0 <= j < 64 -> Z.testbit w j = (j <? s) || Z.testbit (word v idx) j).
    { intros j Hj. unfold w. by rewrite Z.lor_spec, Hval. }
    assert (Htb : forall j, 64 * idx <= j < 64 * idx + 64 -> tb v j = Z.testbit (word v idx) (j - 64 * idx)).
    { intros j Hj. unfold tb. split_index j. replace (j / 64) with idx by lia. f_equal. lia. }
    destruct (Z.eqb_spec (bnot w) 0) as [H0|Hne].
    + assert (Hset : forall j, 64 * idx + s <= j < 64 * idx + 64 -> tb v j = true).
      { intros j Hj. rewrite Htb by lia. assert (Ht : Z.testbit (bnot w) (j - 64 * idx) = false) by (rewrite H0; apply Z.testbit_0_l).
        rewrite testbit_bnot, Hb in Ht by lia. destruct (Z.ltb_spec (j - 64 * idx) s); [lia|]. by apply negb_false_iff in Ht. }
      specialize (IH (idx + 1) 0 0 Hv ltac:(lia) ltac:(lia) ltac:(lia)).
      destruct (ffz_loop n v (idx + 1) 0) as [k w']. destruct IH as (H1 & H2 & H3).
      { intros j Hj. rewrite Z.testbit_0_l. ranges. }
      split; [lia|]. split; [done|]. intros j Hj.
      destruct (Z.lt_ge_cases j (64 * idx + 64)); [apply Hset; lia|apply H3; lia].
    + destruct (builtin_ctz_ok _ (word_ok_bnot w) Hne) as [(H0 & Ht & Hl) H64]. set (c := builtin_ctz _) in *.
      rewrite testbit_bnot, Hb in Ht by lia. apply negb_true_iff, orb_false_iff in Ht as [Hsc%Z.ltb_ge Ht].
      split; [lia|]. split; [rewrite Htb by lia; by replace (idx * 64 + c - 64 * idx) with c by lia|].
      intros j Hj. rewrite Htb by lia. specialize (Hl (j - 64 * idx) ltac:(lia)).
      rewrite testbit_bnot, Hb in Hl by lia. apply negb_false_iff, orb_true_iff in Hl as [Hl%Z.ltb_lt|]; [lia|done].
Qed.

Lemma ffz_ok v start : wf v -> 0 <= start -> first_clear v start (ffz v start).
Proof.
  intros [_ Hv] Hs. unfold ffz. split_index start. pose proof (Z.div_pos start 64).
  pose proof (ffz_loop_ok v (S (length v)) (start / 64) (start mod 64) (bnot (shl (bnot 0) (start mod 64)))
    Hv ltac:(lia) ltac:(lia) ltac:(unfold size; lia)) as Hf.
  destruct (ffz_loop _ _ _ _) as [k w]. replace (64 * (start / 64) + start mod 64) with start in Hf by lia. apply Hf.
  intros j Hj. rewrite testbit_bnot, testbit_shl by lia. ranges; rewrite testbit_bnot, Z.testbit_0_l by lia; done.
Qed.

(** *** The next and the previous set bit *)
Lemma next_loop_ok v n : forall idx, Forall word_ok v -> -1 <= idx -> size v - (idx + 1) / 64 < Z.of_nat n ->
  first_from v (idx + 1) (next_loop n v idx).
Proof.
  induction n as [|n IH]; intros idx Hv Hi Hn; cbn [next_loop]; split_index (idx + 1); set (i := idx + 1) in *.
  - left. split; [done|]. intros j Hj. apply tb_size. unfold nbits, bits_per_unit. lia.
  - destruct (Z.ltb_spec i (nbits v)) as [Hlt|Hge].
    2: { left. split; [done|]. intros j Hj. apply tb_size. lia. }
    set (k := i / 64) in *. set (s := i mod 64) in *. pose proof (word_ok_word v k Hv) as Hw.
    assert (Htb : forall j, 64 * k <= j < 64 * k + 64 -> tb v j = Z.testbit (word v k) (j - 64 * k)).
    { intros j Hj. unfold tb. split_index j. replace (j / 64) with k by lia. f_equal. lia. }
    destruct (Z.eqb_spec (Z.shiftr (word v k) s) 0) as [E|Hne].
    + assert (Hz : forall j, i <= j < 64 * k + 64 -> tb v j = false).
      { intros j Hj. rewrite Htb by lia. replace (j - 64 * k) with ((j - i) + s) by lia.
        by rewrite <- Z.shiftr_spec, E, Z.testbit_0_l by lia. }
      assert (H64 : (k * 64 + 64 - 1 + 1) / 64 = k + 1).
      { replace (k * 64 + 64 - 1 + 1) with ((k + 1) * 64) by lia. by rewrite Z.div_mul by lia. }
      specialize (IH (k * 64 + 64 - 1) Hv ltac:(lia)). rewrite H64 in IH. specialize (IH ltac:(lia)).
      destruct IH as [(-> & Hl)|(Hr & Ht & Hl)].
      * left. split; [done|]. intros j Hj. destruct (Z.lt_ge_cases j (64 * k + 64)); [apply Hz; lia|apply Hl; lia].
      * right. split; [lia|]. split; [done|]. intros j Hj.
        destruct (Z.lt_ge_cases j (64 * k + 64)); [apply Hz; lia|apply Hl; lia].
    + destruct (builtin_ctz_ok _ (word_ok_shiftr _ s ltac:(lia) Hw) Hne) as [(Hc0 & Ht & Hl) Hc]. set (c := builtin_ctz _) in *.
      rewrite Z.shiftr_spec in Ht by lia.
      assert (Hcs : c + s < 64). { destruct (Z.lt_ge_cases (c + s) 64); [done|]. unfold word_ok in Hw. by rewrite (testbit_above _ 64) in Ht by lia. }
      right. unfold nbits, bits_per_unit in *. split; [lia|]. split; [rewrite Htb by lia; by replace (i + c - 64 * k) with (c + s) by lia|].
      intros j Hj. rewrite Htb by lia. specialize (Hl (j - i) ltac:(lia)). rewrite Z.shiftr_spec in Hl by lia.
      by replace (j - i + s) with (j - 64 * k) in Hl by lia.
Qed.

Lemma next_ok v idx : wf v -> -1 <= idx -> first_from v (idx + 1) (next v idx).
Proof.
  intros [_ Hv] Hi. apply next_loop_ok; [done|done|]. pose proof (Z.div_pos (idx + 1) 64). unfold size. lia.
Qed.

(** [r] is the last set bit before [i], -1 when there is none. *)
Definition last_before (v : bitvec) (i r : Z) : Prop :=
  (r = -1 /\ forall j, 0 <= j < i -> tb v j = false) \/
  (0 <= r < i /\ tb v r = true /\ forall j, r < j < i -> tb v j = false).

Lemma log2_highest w : 0 < w -> Z.testbit w (Z.log2 w) = true /\ forall j, Z.log2 w < j -> Z.testbit w j = false.
Proof. intros Hw. split; [by apply Z.bit_log2|]. intros j Hj. apply Z.bits_above_log2; lia. Qed.

Lemma prev_loop_ok v n : forall idx, Forall word_ok v -> 0 <= idx <= nbits v -> idx <= 64 * (Z.of_nat n - 1) ->
  last_before v idx (prev_loop n v idx).
Proof.
  induction n as [|n IH]; intros idx Hv Hi Hn; [lia|]. cbn [prev_loop]. set (i := idx - 1) in *.
  destruct (Z.leb_spec 0 i) as [H0|Hneg]; [|left; split; [lia|intros; lia]].
  split_index i. set (k := i / 64) in *. set (s := i mod 64) in *. pose proof (word_ok_word v k Hv) as Hw.
  assert (Htb : forall j, 64 * k <= j < 64 * k + 64 -> tb v j = Z.testbit (word v k) (j - 64 * k)).
  { intros j Hj. unfold tb. split_index j. replace (j / 64) with k by lia. f_equal. lia. }
  set (w := shl (word v k) (64 - 1 - s)). assert (Hwb : forall j, 64 * k <= j <= i -> tb v j = Z.testbit w (j - i + 63)).
  { intros j Hj. rewrite Htb by lia. unfold w. rewrite testbit_shl by lia. destruct (Z.leb_spec (64 - 1 - s) (j - i + 63)); [|lia].
    simpl. f_equal. lia. }
  destruct (Z.eqb_spec w 0) as [E|Hne].
  - assert (Hz : forall j, 64 * k <= j < idx -> tb v j = false).
    { intros j Hj. rewrite Hwb by lia. rewrite E. apply Z.testbit_0_l. }
    specialize (IH (k * 64) Hv ltac:(lia) ltac:(lia)). destruct IH as [(-> & Hl)|(Hr & Ht & Hl)].
    + left. split; [done|]. intros j Hj. destruct (Z.lt_ge_cases j (64 * k)); [apply Hl; lia|apply Hz; lia].
    + right. split; [lia|]. split; [done|]. intros j Hj.
      destruct (Z.lt_ge_cases j (64 * k)); [apply Hl; lia|apply Hz; lia].
  - pose proof (word_ok_shl (word v k) (64 - 1 - s)) as Hwo. fold w in Hwo. unfold word_ok in Hwo.
    rewrite builtin_clz_ok by lia. destruct (log2_highest w ltac:(lia)) as [Ht Hl].
    pose proof (Z.log2_nonneg w). assert (Hlg : Z.log2 w < 64) by (apply Z.log2_lt_pow2; lia).
    assert (Hlo : 64 - 1 - s <= Z.log2 w).
    { unfold w in Ht at 1. rewrite testbit_shl in Ht by lia. by apply andb_true_iff in Ht as [?%Z.leb_le _]. }
    right. split; [lia|]. split.
    + rewrite Hwb by lia. replace (i - (63 - Z.log2 w) - i + 63) with (Z.log2 w) by lia. done.
    + intros j Hj. rewrite Hwb by lia. apply Hl. lia.
Qed.

Lemma prev_ok v idx : wf v -> 0 <= idx <= nbits v -> last_before v idx (prev v idx).
Proof.
  intros [_ Hv] Hi. unfold prev. destruct (Z.ltb_spec idx 0); [lia|]. apply prev_loop_ok; [done|done|].
  unfold nbits, bits_per_unit, size in *. lia.
Qed.

Lemma nbits_nonneg v : 0 <= nbits v.
Proof. unfold nbits, size, bits_per_unit. lia. Qed.
#[export] Hint Resolve nbits_nonneg : flexplan.

Lemma max_ok v : wf v -> last_before v (nbits v) (max v).
Proof. intros Hv. apply prev_ok; [done|]. pose proof (nbits_nonneg v). lia. Qed.

(** The largest element is the logarithm of the number. *)
Lemma max_log2 v : wf v -> max v = if val v =? 0 then -1 else Z.log2 (val v).
Proof.
  intros Hv. pose proof (val_nonneg v (proj2 Hv)) as Hnn. destruct (max_ok v Hv) as [(-> & Hl)|(Hr & Ht & Hl)].
  - assert (val v = 0) as ->; [|done]. apply val_eq; [apply Hv|]. intros i Hi. rewrite Z.testbit_0_l.
    destruct (Z.lt_ge_cases i (nbits v)); [apply Hl; lia|by apply tb_size].
  - rewrite <- testbit_val in Ht by (apply Hv || lia). destruct (Z.eqb_spec (val v) 0) as [E|Hne].
    { by rewrite E, Z.testbit_0_l in Ht. }
    destruct (log2_highest (val v) ltac:(lia)) as [Ht' Hl']. pose proof (Z.log2_nonneg (val v)).
    destruct (Z.lt_trichotomy (max v) (Z.log2 (val v))) as [Hlt|[|Hgt]]; [|done|by rewrite Hl' in Ht by lia].
    rewrite testbit_val in Ht' by (apply Hv || lia). destruct (Z.lt_ge_cases (Z.log2 (val v)) (nbits v)).
    + by rewrite Hl in Ht' by lia.
    + by rewrite tb_size in Ht' by lia.
Qed.

(** *** Shifting left *)
Definition shl_word (off count : Z) (v : bitvec) (k : Z) : Z :=
  if off <=? k then
    let w := shl (word v (k - off)) count in
    if negb (count =? 0) && (off <? k) then Z.lor w (Z.shiftr (word v (k - off - 1)) (64 - count)) else w
  else 0.

Lemma size_shl_step off count p i : size (shl_step off count p i) = size p.
Proof. unfold shl_step. repeat case_match; by rewrite ?size_upd. Qed.

Lemma word_shl_step off count v p i k : 0 <= off -> Z.of_nat i < size p -> 0 <= k ->
  (forall k, 0 <= k <= Z.of_nat i -> word p k = word v k) ->
  word (shl_step off count p i) k = if k =? Z.of_nat i then shl_word off count v k else word p k.
Proof.
  intros Hoff Hi Hk Hp. unfold shl_step, shl_word. set (j := Z.of_nat i) in *.
  assert (Hj : 0 <= j) by lia.
  destruct (Z.leb_spec off j) as [Hle|Hgt].
  - rewrite Hp by lia. destruct (negb (count =? 0) && (off <? j)) eqn:E; rewrite !word_upd by (rewrite ?size_upd; lia);
      destruct (Z.eqb_spec k j) as [->|]; rewrite ?E, ?Z.eqb_refl; try done;
      destruct (Z.leb_spec off j); try lia; try done.
    apply andb_true_iff in E as [_ E%Z.ltb_lt]. destruct (Z.eqb_spec (j - off - 1) j); [lia|]. by rewrite Hp by lia.
  - rewrite word_upd by lia. destruct (Z.eqb_spec k j) as [->|]; [|done].
    by destruct (Z.leb_spec off j); [lia|].
Qed.

Lemma shl_fold off count v n : forall p, 0 <= off -> Z.of_nat n <= size p ->
  (forall k, 0 <= k < Z.of_nat n -> word p k = word v k) ->
  let r := fold_left (shl_step off count) (rev (seq 0 n)) p in
  size r = size p /\ forall k, 0 <= k -> word r k = if k <? Z.of_nat n then shl_word off count v k else word p k.
Proof.
  induction n as [|n IH]; intros p Hoff Hn Hp.
  - split; [done|]. intros k Hk. ranges.
  - rewrite seq_S, rev_app_distr. cbn [rev app fold_left Nat.add]. cbv zeta.
    destruct (IH (shl_step off count p n)) as [H1 H2].
    + done.
    + rewrite size_shl_step. lia.
    + intros k Hk. rewrite (word_shl_step off count v) by (try lia; intros; apply Hp; lia).
      destruct (Z.eqb_spec k (Z.of_nat n)); [lia|]. apply Hp. lia.
    + split; [by rewrite H1, size_shl_step|]. intros k Hk. rewrite H2 by done.
      rewrite (word_shl_step off count v) by (try lia; intros; apply Hp; lia).
      destruct (Z.eqb_spec k (Z.of_nat n)) as [->|]; ranges.
Qed.

Lemma tb_shl_word off count v i : wf v -> 0 <= off -> 0 <= count < 64 -> 0 <= i ->
  Z.testbit (shl_word off count v (i / 64)) (i mod 64) = (64 * off + count <=? i) && tb v (i - (64 * off + count)).
Proof.
  intros Hv Hoff Hc Hi. unfold shl_word. set (c := 64 * off + count).
  split_index i. split_index (i - c).
  destruct (Z.leb_spec off (i / 64)) as [Hle|Hgt].
  2: { rewrite Z.testbit_0_l. by destruct (Z.leb_spec c i); [unfold c in *; lia|]. }
  assert (Hhi : Z.testbit (shl (word v (i / 64 - off)) count) (i mod 64) = (count <=? i mod 64) && tb v (i - c)).
  { rewrite testbit_shl by lia. destruct (Z.leb_spec count (i mod 64)); [|done]. simpl.
    unfold tb. replace ((i - c) / 64) with (i / 64 - off) by (unfold c in *; lia). f_equal. unfold c in *. lia. }
  assert (Hlo : i mod 64 < count -> off < i / 64 ->
    Z.testbit (Z.shiftr (word v (i / 64 - off - 1)) (64 - count)) (i mod 64) = tb v (i - c)).
  { intros HA HB. rewrite Z.shiftr_spec by lia. unfold tb.
    replace ((i - c) / 64) with (i / 64 - off - 1) by (unfold c in *; lia). f_equal. unfold c in *. lia. }
  assert (Hnone : count <= i mod 64 -> count <> 0 ->
    Z.testbit (Z.shiftr (word v (i / 64 - off - 1)) (64 - count)) (i mod 64) = false).
  { intros HA HB. rewrite Z.shiftr_spec by lia. pose proof (word_ok_word v (i / 64 - off - 1) (proj2 Hv)) as Hw.
    unfold word_ok in Hw. apply (testbit_above _ 64); lia. }
  destruct (Z.eqb_spec count 0) as [E|Hc0]; cbn [negb andb].
  - rewrite Hhi. destruct (Z.leb_spec count (i mod 64)), (Z.leb_spec c i); try (unfold c in *; lia); done.
  - destruct (Z.ltb_spec off (i / 64)).
    + rewrite Z.lor_spec, Hhi. destruct (Z.leb_spec count (i mod 64)), (Z.leb_spec c i); try (unfold c in *; lia); simpl.
      * by rewrite Hnone, orb_false_r by done.
      * by rewrite Hlo by done.
    + rewrite Hhi. destruct (Z.leb_spec count (i mod 64)), (Z.leb_spec c i); try (unfold c in *; lia); done.
Qed.

Lemma word_ok_shl_word off count v k : wf v -> 0 <= count < 64 -> word_ok (shl_word off count v k).
Proof.
  intros Hv Hc. pose proof (word_ok_word v (k - off - 1) (proj2 Hv)).
  unfold shl_word. repeat case_match; auto with flexplan. apply word_ok_lor; [auto with flexplan|]. apply word_ok_shiftr; [lia|done].
Qed.

Lemma words_ok v : (forall k, 0 <= k < size v -> word_ok (word v k)) -> Forall word_ok v.
Proof.
  intros H. apply Forall_lookup. intros k w Hk. pose proof (lookup_lt_Some _ _ _ Hk).
  specialize (H (Z.of_nat k) ltac:(unfold size; lia)). unfold word in H. by rewrite Nat2Z.id, nth_lookup, Hk in H.
Qed.

(** The place the shifted vector needs. *)
Lemma shl_grow v c (need := (max v + c + 64) / 64) (v' := if size v <? need then expand need v else v) :
  wf v -> 0 <= c -> nbits v + c < 2 ^ 40 ->
  wf v' /\ max v + c < nbits v' /\ (forall i, 0 <= i -> tb v' i = tb v i) /\ val v' = val v /\
  64 * need <= max v + c + 64 /\ nbits v' <= 2 * (nbits v + c + 64).
Proof.
  intros Hv Hc Hb. assert (Hm : -1 <= max v < nbits v).
  { pose proof (nbits_nonneg v). destruct (max_ok v Hv) as [(-> & _)|(Hr & _)]; lia. }
  assert (Hneed : 0 <= need < 2 ^ 35 /\ max v + c < 64 * need <= max v + c + 64).
  { unfold need. split_index (max v + c + 64). split; [|lia]. split; [apply Z.div_pos; lia|apply Z.div_lt_upper_bound; lia]. }
  clearbody need. subst v'. destruct (Z.ltb_spec (size v) need).
  - split; [auto with flexplan|]. split; [|split; [intros; by apply tb_expand|]].
    + unfold nbits, bits_per_unit. rewrite size_expand. pose proof (expand_size_ge need). lia.
    + split; [apply val_expand, Hv|]. split; [lia|]. unfold nbits, bits_per_unit in *. rewrite size_expand. pose proof (expand_size_bounds need). lia.
  - split; [done|]. split; [unfold nbits, bits_per_unit; lia|]. split; [done|]. split; [done|]. split; lia.
Qed.

Lemma shift_left_ok v c : wf v -> 0 <= c -> nbits v + c < 2 ^ 40 -> (size v = 1 -> val v = 0 -> c <> 64) ->
  exists r, shift_left v c = oret r /\ wf r /\ val r = Z.shiftl (val v) c /\ nbits r <= 2 * (nbits v + c + 64).
Proof.
  intros Hv Hc Hb Hne. unfold shift_left. destruct (shl_grow v c Hv Hc Hb) as (Hv' & Hm & Htb & Hval & Hneed & Hsize).
  set (need := (max v + c + 64) / 64) in *. set (v' := if size v <? need then expand need v else v) in *.
  assert (Hhigh : forall i, nbits v' <= i -> tb v (i - c) = false).
  { intros i Hi. destruct (max_ok v Hv) as [(Em & Hl)|(Hr & _ & Hl)];
      (destruct (Z.lt_ge_cases (i - c) (nbits v)); [|by apply tb_size]); apply Hl; lia. }
  assert (Hspec : forall i, 0 <= i -> Z.testbit (Z.shiftl (val v) c) i = (c <=? i) && tb v (i - c)).
  { intros i Hi. rewrite testbit_shiftl by done. destruct (Z.leb_spec c i); [|done]. simpl. apply testbit_val; [apply Hv|lia]. }
  assert (Hlow : forall i, 0 <= i -> nbits v' <= i -> Z.testbit (Z.shiftl (val v) c) i = false).
  { intros i Hi Hn. by rewrite Hspec, Hhigh, andb_false_r. }
  destruct (Z.eqb_spec (size v') 1) as [Hs|Hs].
  - destruct v' as [|w [|x v'']] eqn:Ev; [by destruct Hv'| |unfold size in Hs; simpl in Hs; lia]. subst v'.
    assert (Hc64 : c < 64).
    { unfold nbits, bits_per_unit in Hm. rewrite Hs in Hm. destruct (Z.lt_ge_cases c 64); [done|]. exfalso.
      assert (max v = -1 /\ c = 64) as [Hmx ->].
      { destruct (max_ok v Hv) as [(Em & _)|(? & _)]; lia. }
      rewrite max_log2 in Hmx by done. destruct (Z.eqb_spec (val v) 0) as [H0|]; [|pose proof (Z.log2_nonneg (val v)); lia].
      apply Hne; [|done|done]. pose proof (size_pos v Hv). destruct (Z.ltb_spec (size v) need); [|by rewrite Ev in *]. lia. }
    destruct (Z.leb_spec 64 c); [lia|]. eexists. split; [done|]. unfold upd. simpl.
    split; [split; [done|by repeat constructor; auto with flexplan; apply word_ok_shl]|].
    split; [|done]. apply Z.bits_inj'. intros i Hi. rewrite Z.mul_0_r, Z.add_0_r. rewrite <- Hval. simpl. rewrite Z.mul_0_r, Z.add_0_r.
    destruct (Z.lt_ge_cases i 64).
    + rewrite testbit_shl, testbit_shiftl by lia. done.
    + pose proof (word_ok_shl w c) as Hw. unfold word_ok in Hw. rewrite (testbit_above _ 64) by lia.
      specialize (Hlow i Hi). rewrite <- Hval in Hlow. simpl in Hlow. rewrite Z.mul_0_r, Z.add_0_r in Hlow.
      symmetry. apply Hlow. unfold nbits, bits_per_unit. rewrite Hs. lia.
  - split_index c. pose proof (Z.div_pos c 64). eexists. split; [done|].
    destruct (shl_fold (c / 64) (c mod 64) v' (length v') v') as [Hsz Hr]; [lia|unfold size; lia|done|].
    set (r := fold_left _ _ v') in *. clearbody r. fold (size v') in Hr.
    assert (Hwr : Forall word_ok r).
    { apply words_ok. intros k Hk. rewrite Hr by lia. rewrite Hsz in Hk. destruct (Z.ltb_spec k (size v')); [|lia].
      apply word_ok_shl_word; [done|lia]. }
    split; [split; [|done]|].
    { intros ->. pose proof (size_pos v' Hv'). unfold size at 1 in Hsz. simpl in Hsz. lia. }
    split; [|unfold nbits in *; rewrite Hsz; lia].
    apply val_eq; [done|]. intros i Hi. destruct (Z.lt_ge_cases i (nbits v')) as [Hlt|Hge].
    + unfold tb. rewrite Hr by (apply Z.div_pos; lia). unfold nbits, bits_per_unit in Hlt. split_index i.
      destruct (Z.ltb_spec (i / 64) (size v')); [|lia]. rewrite tb_shl_word by (done || lia).
      replace (64 * (c / 64) + c mod 64) with c by lia. rewrite Hspec by done. destruct (Z.leb_spec c i); [|done]. simpl. apply Htb. lia.
    + rewrite tb_size, Hlow by (done || lia || (unfold nbits in *; rewrite Hsz; lia)). done.
Qed.

(** *** Iteration *)
Lemma iterate_ok v fuel : wf v -> forall i r, 0 <= i -> first_from v i r -> nbits v - i <= Z.of_nat fuel ->
  exists l, iterate fuel v r = Some l /\ StronglySorted Z.lt l /\ forall j, j ∈ l <-> i <= j /\ tb v j = true.
Proof.
  intros Hv. induction fuel as [|fuel IH]; intros i r Hi [(-> & Hl)|(Hr & Ht & Hl)] Hf; cbn [iterate].
  1, 3: (exists []; split; [done|]; split; [constructor|]; intros j; split;
         [by intros ?%elem_of_nil|intros [Hj Hj']; by rewrite Hl in Hj']).
  - destruct (Z.eqb_spec r (-1)); lia.
  - destruct (Z.eqb_spec r (-1)); [lia|].
    destruct (IH (r + 1) (next v r) ltac:(lia) (next_ok v r Hv ltac:(lia)) ltac:(lia)) as (l & -> & Hs & Hin).
    exists (r :: l). split; [done|]. split.
    + constructor; [done|]. apply Forall_forall. intros j Hj. apply Hin in Hj as [? _]. lia.
    + intros j. rewrite elem_of_cons, Hin. split.
      * intros [->|[? ?]]; [split; [lia|done]|split; [lia|done]].
      * intros [Hj Hj']. destruct (Z.lt_trichotomy j r) as [|[->|]]; [by rewrite Hl in Hj' by lia|by left|right; split; [lia|done]].
Qed.

Lemma sorted_last l m : StronglySorted Z.lt l -> m ∈ l -> (forall j, j ∈ l -> j <= m) -> last l = Some m.
Proof.
  intros Hs. induction Hs as [|a l Hs IH Ha]; intros Hm Hle; [by apply elem_of_nil in Hm|].
  destruct l as [|b l]; [by apply list_elem_of_singleton in Hm as ->|]. change (last (a :: b :: l)) with (last (b :: l)). apply IH.
  - apply elem_of_cons in Hm as [->|]; [|done]. exfalso. apply Forall_cons in Ha as [Ha _].
    specialize (Hle b ltac:(right; left)). lia.
  - intros j Hj. apply Hle. by right.
Qed.

(** *** Reading and writing up to 64 bits *)
Lemma word_tb v k j : 0 <= k -> 0 <= j < 64 -> Z.testbit (word v k) j = tb v (64 * k + j).
Proof.
  intros Hk Hj. unfold tb. replace (64 * k + j) with (j + k * 64) by lia.
  by rewrite Z.div_add, Z.mod_add, Z.div_small, Z.mod_small, Z.add_0_l by lia.
Qed.

Lemma getrange_ok v idx sz : wf v -> 0 <= idx -> 0 < sz <= 64 ->
  exists r, getrange v idx sz = oret r /\ word_ok r /\ r = val v / 2 ^ idx mod 2 ^ sz.
Proof.
  intros Hv Hi Hs. unfold getrange. destruct (Z.ltb_spec 0 sz); [|lia]. destruct (Z.leb_spec sz 64); [|lia]. cbn [andb].
  eexists. split; [done|]. rewrite <- Z.shiftr_div_pow2, <- Z.land_ones by lia.
  assert (Hspec : forall r, word_ok r -> (forall j, 0 <= j < 64 -> Z.testbit r j = (j <? sz) && tb v (idx + j)) ->
    word_ok r /\ r = Z.land (Z.shiftr (val v) idx) (Z.ones sz)).
  { intros r Hr Hb. split; [done|]. apply Z.bits_inj'. intros j Hj.
    rewrite Z.land_spec, Z.shiftr_spec, testbit_ones, testbit_val by (lia || apply Hv). rewrite andb_comm.
    destruct (Z.lt_ge_cases j 64); [rewrite Hb, (Z.add_comm idx) by lia; done|].
    unfold word_ok in Hr. rewrite (testbit_above _ 64) by lia. by destruct (Z.ltb_spec j sz); [lia|]. }
  destruct (Z.leb_spec (nbits v) idx) as [Hge|Hlt].
  { apply Hspec; [done|]. intros j Hj. rewrite Z.testbit_0_l, tb_size, andb_false_r by lia. done. }
  pose proof (fun k => word_ok_word v k (proj2 Hv)) as Hw. destruct (Z.ltb_spec 1 (size v)) as [Hm|H1].
  - split_index idx. assert (Hq : 0 <= idx / 64) by (apply Z.div_pos; lia). set (k := idx / 64) in *. set (s := idx mod 64) in *.
    assert (Hlow : forall j, 0 <= j < 64 -> Z.testbit (Z.shiftr (word v k) s) j = (j <? 64 - s) && tb v (idx + j)).
    { intros j Hj. rewrite Z.shiftr_spec by lia. destruct (Z.ltb_spec j (64 - s)); simpl.
      - rewrite word_tb by lia. f_equal. lia.
      - specialize (Hw k). unfold word_ok in Hw. apply (testbit_above _ 64); lia. }
    cbn [getrange_loop]. destruct (Z.ltb_spec (64 - s + 64) sz); [lia|].
    destruct (Z.ltb_spec (64 - s) sz); [destruct (Z.leb_spec (size v) (k + 1))|]; (apply Hspec;
      [apply word_ok_land; repeat apply word_ok_lor; try apply word_ok_shiftr; auto with flexplan; lia|]);
      intros j Hj; rewrite Z.land_spec, ?Z.lor_spec, testbit_low_mask, Hlow by lia; rewrite andb_comm;
      destruct (Z.ltb_spec j sz); cbn [andb]; try done.
    + destruct (Z.ltb_spec j (64 - s)); [done|]. symmetry. apply tb_size. unfold nbits, bits_per_unit. lia.
    + rewrite testbit_shl by lia. destruct (Z.ltb_spec j (64 - s)), (Z.leb_spec (64 - s) j); try lia; cbn [andb orb].
      * apply orb_false_r.
      * rewrite word_tb by lia. f_equal. lia.
    + destruct (Z.ltb_spec j (64 - s)); [done|lia].
  - pose proof (size_pos v Hv). unfold nbits, bits_per_unit in Hlt. apply Hspec.
    + apply word_ok_land, word_ok_shiftr; [lia|done].
    + intros j Hj. rewrite Z.land_spec, Z.shiftr_spec, testbit_low_mask by lia. rewrite andb_comm.
      destruct (Z.ltb_spec j sz); [|done]. cbn [andb]. destruct (Z.lt_ge_cases (idx + j) 64).
      * rewrite word_tb by lia. f_equal. lia.
      * rewrite tb_size by (unfold nbits, bits_per_unit; lia). specialize (Hw 0). unfold word_ok in Hw. apply (testbit_above _ 64); lia.
Qed.

Lemma tb_put k m x v i : wf v -> 0 <= k < size v -> 0 <= i ->
  tb (upd k (fun w => Z.lor (Z.land w (bnot m)) x) v) i =
  if i / 64 =? k then (tb v i && negb (Z.testbit m (i mod 64))) || Z.testbit x (i mod 64) else tb v i.
Proof.
  intros Hv Hk Hi. rewrite tb_upd by done. split_index i. destruct (Z.eqb_spec (i / 64) k) as [E|]; [|done].
  rewrite Z.lor_spec, Z.land_spec, testbit_bnot by lia. unfold tb. by rewrite E.
Qed.

Lemma putrange_ok v idx sz x : wf v -> 0 <= idx -> 0 < sz <= 64 -> idx + sz < 2 ^ 40 -> 0 <= x ->
  exists v', putrange idx sz x v = oret v' /\ wf v' /\
  forall i, 0 <= i -> tb v' i = if (idx <=? i) && (i <? idx + sz) then Z.testbit x (i - idx) else tb v i.
Proof.
  intros Hv Hi Hs Hb Hx. unfold putrange. destruct (Z.ltb_spec 0 sz); [|lia]. destruct (Z.leb_spec sz 64); [|lia]. cbn [andb].
  assert (Hmask : Z.shiftr all_ones (64 - sz) = Z.ones sz).
  { unfold all_ones. zbits; done || lia. }
  rewrite Hmask. set (x' := Z.land x (Z.ones sz)).
  assert (Hx' : forall j, 0 <= j -> Z.testbit x' j = (j <? sz) && Z.testbit x j).
  { intros j Hj. unfold x'. by rewrite Z.land_spec, testbit_ones, andb_comm by lia. }
  assert (Hxok : word_ok x').
  { unfold x', word_ok. rewrite Z.land_ones by lia. pose proof (Z.mod_pos_bound x (2 ^ sz) ltac:(apply pow2_pos; lia)).
    pose proof (Z.pow_le_mono_r 2 sz 64). lia. }
  destruct (grow_ok idx sz v Hv Hi ltac:(lia) Hb) as (Hv' & Hn & Htb & _ & _ & _). set (g := grow idx sz v) in *.
  eexists. split; [done|]. unfold nbits, bits_per_unit in Hn. pose proof (size_pos g Hv').
  destruct (Z.eqb_spec (size g) 1) as [E1|Hm].
  - split; [apply wf_upd; [done|]; auto with flexplan|]. intros i Hi0. rewrite tb_put, Htb by (done || lia).
    split_index i. destruct (Z.eqb_spec (i / 64) 0) as [Hq|Hq].
    + rewrite !testbit_shl by lia. rewrite Hq in *. destruct (Z.leb_spec idx (i mod 64)); [|ranges].
      rewrite Hx', testbit_ones by lia. replace (i mod 64) with i by lia. ranges.
    + ranges.
  - split_index idx. assert (Hq0 : 0 <= idx / 64) by (apply Z.div_pos; lia).
    set (k := idx / 64) in *. set (s := idx mod 64) in *. cbn [putrange_loop].
    set (g1 := upd k _ g). assert (Hg1 : wf g1) by (apply wf_upd; [done|]; auto with flexplan).
    assert (Hs1 : size g1 = size g) by apply size_upd.
    assert (Hb1 : forall i, 0 <= i -> tb g1 i = if (idx <=? i) && (i <? idx + sz) && (i / 64 =? k) then Z.testbit x (i - idx) else tb v i).
    { intros i Hi0. unfold g1. rewrite tb_put, Htb by (done || lia). split_index i.
      destruct (Z.eqb_spec (i / 64) k) as [Hq|Hq]; rewrite ?andb_false_r, ?andb_true_r; [|done]. rewrite !testbit_shl by lia.
      replace (i mod 64 - s) with (i - idx) by lia. destruct (Z.leb_spec s (i mod 64)); [|ranges].
      rewrite Hx', testbit_ones by lia. ranges. }
    destruct (Z.ltb_spec (64 - s + 64) sz); [lia|]. destruct (Z.ltb_spec (64 - s) sz).
    + split; [apply wf_upd; [done|]; intros w Hw; apply word_ok_lor; auto with flexplan; apply word_ok_shiftr; [lia|done]|].
      intros i Hi0. rewrite tb_put by (done || lia). rewrite Hb1 by done. split_index i.
      destruct (Z.eqb_spec (i / 64) (k + 1)) as [Hq|Hq].
      * rewrite !Z.shiftr_spec by lia. rewrite Hx', testbit_ones by lia. replace (i mod 64 + (64 - s)) with (i - idx) by lia.
        destruct (Z.eqb_spec (i / 64) k); [lia|]. ranges.
      * destruct (Z.eqb_spec (i / 64) k); ranges.
    + split; [done|]. intros i Hi0. rewrite Hb1 by done. split_index i. destruct (Z.eqb_spec (i / 64) k); ranges.
Qed.

(** *** Rotation *)
Lemma size_fill n : forall i last w v, size (fill n i last w v).2 = size v.
Proof.
  induction n as [|n IH]; intros i last w v; cbn [fill]; [done|]. destruct (i <? last); [|done]. by rewrite IH, size_upd.
Qed.

Lemma size_setrange idx sz v : wf v -> 0 <= idx -> 0 < sz -> idx + sz < 2 ^ 40 ->
  size (setrange idx sz v) <= Z.max (size v) (2 * (1 + (idx + sz - 1) / 64)).
Proof.
  intros Hv Hi Hs Hb. assert (Hg : size (grow idx sz v) <= Z.max (size v) (2 * (1 + (idx + sz - 1) / 64))).
  { destruct (grow_ok idx sz v Hv Hi Hs Hb) as (_ & _ & _ & _ & _ & Hl). unfold grow. rewrite Hl.
    destruct (nbits v <? uadd idx sz); [|lia]. rewrite size_expand. split_index (idx + sz - 1).
    pose proof (Z.div_pos (idx + sz - 1) 64). pose proof (expand_size_bounds (1 + (idx + sz - 1) / 64)). lia. }
  unfold setrange. destruct (sz =? 0); [lia|]. cbv zeta. destruct (size (grow idx sz v) =? 1); [by rewrite size_upd|].
  destruct (idx / 64 =? last_bit idx sz / 64); [by rewrite size_upd|].
  match goal with |- context [fill ?n ?i ?l ?w ?v] => pose proof (size_fill n i l w v) as Hf; destruct (fill n i l w v) as [j v2] end.
  simpl in Hf. rewrite size_upd in Hf. destruct (j <? size v2); rewrite ?size_upd; lia.
Qed.

Lemma of_range_ok lo cnt : 0 <= lo -> 0 < cnt -> lo + cnt < 2 ^ 39 ->
  wf (of_range lo cnt) /\ size (of_range lo cnt) < 2 ^ 35 /\
  forall i, 0 <= i -> Z.testbit (val (of_range lo cnt)) i = (lo <=? i) && (i <? lo + cnt).
Proof.
  intros Hl Hc Hb. assert (Hw : wf (of_range lo cnt)) by (apply wf_setrange; auto with flexplan; lia).
  split; [done|]. split.
  - pose proof (size_setrange lo cnt empty_bitvec wf_empty_bitvec Hl Hc ltac:(lia)) as Hs. split_index (lo + cnt - 1).
    fold (of_range lo cnt) in Hs. unfold size at 2 in Hs. simpl in Hs. lia.
  - intros i Hi. rewrite testbit_val by (done || apply Hw). unfold of_range. rewrite tb_setrange by (auto with flexplan; lia).
    assert (tb empty_bitvec i = false) as ->; [|done]. rewrite <- testbit_val by (apply wf_empty_bitvec || done).
    apply Z.testbit_0_l.
Qed.

(** The bit that rotation brings to position [i] of the section [[lo, hi)]. *)
Definition rotated (v : bitvec) (lo rot hi i : Z) : bool :=
  tb v (if i + (rot - lo) <? hi then i + (rot - lo) else i + (rot - lo) - (hi - lo)).

Lemma rotate_right_helper_ok v lo rot hi : wf v -> 0 <= lo <= rot -> rot < hi -> nbits v + hi < 2 ^ 39 -> hi - rot <> 64 ->
  exists r, rotate_right_helper v lo rot hi = oret r /\ wf r /\ size r < 2 ^ 35 /\
  forall i, 0 <= i -> Z.testbit (val r) i = (lo <=? i) && (i <? hi) && rotated v lo rot hi i.
Proof.
  intros Hv Hlo Hrot Hb H64. unfold rotate_right_helper.
  destruct (Z.leb_spec lo rot); [|lia]. destruct (Z.ltb_spec rot hi); [|lia]. cbn [andb].
  pose proof (nbits_nonneg v) as Hnn. destruct (of_range_ok lo (hi - lo)) as (Hm & Hms & Hmb); [lia|lia|lia|].
  set (mask := of_range lo (hi - lo)) in *. clearbody mask. replace (lo + (hi - lo)) with hi in Hmb by lia.
  destruct (and_ok v mask Hv Hm) as (Hs & Hsv & Hss). set (sec := and v mask) in *. clearbody sec.
  unfold nbits, bits_per_unit in *.
  destruct (shift_left_ok sec (hi - lo - (rot - lo)) Hs) as (up & -> & Hu & Huv & Hus); [lia|unfold nbits, bits_per_unit; lia|lia|].
  cbn [obind]. destruct (shift_right_ok sec (rot - lo) Hs ltac:(lia)) as (Hd & Hdv).
  unfold nbits, bits_per_unit in *. destruct (or_ok _ up Hd Hu ltac:(lia)) as (Ho & Hov). set (X := or _ up) in *.
  destruct (and_ok X mask Ho Hm) as (Hr & Hrv & Hrs). exists (and X mask). split; [done|]. split; [done|]. split; [lia|].
  intros i Hi. rewrite Hrv, Z.land_spec, Hmb, Hov, Z.lor_spec, Hdv, Huv by done. rewrite Z.shiftr_spec, testbit_shiftl by done.
  rewrite Hsv, Z.land_spec, Hmb by lia. unfold rotated.
  destruct (Z.leb_spec lo i), (Z.ltb_spec i hi); cbn [andb]; rewrite ?andb_false_r; try done. rewrite andb_true_r.
  destruct (Z.leb_spec (hi - lo - (rot - lo)) i) as [Hle|Hlt]; cbn [andb].
  - rewrite Z.land_spec, Hmb by lia. rewrite !testbit_val by (apply Hv || lia).
    replace (i - (hi - lo - (rot - lo))) with (i + (rot - lo) - (hi - lo)) by lia. ranges.
  - rewrite !testbit_val by (apply Hv || lia). ranges.
Qed.

Lemma rotate_right_ok v lo rot hi : wf v -> 0 <= lo <= rot -> rot < hi -> nbits v + hi < 2 ^ 39 -> hi - rot <> 64 ->
  exists r r', rotate_right v lo rot hi = oret r /\ rotate_right_copy v lo rot hi = oret r' /\ wf r /\ wf r' /\
  (forall i, 0 <= i -> Z.testbit (val r) i = if (lo <=? i) && (i <? hi) then rotated v lo rot hi i else tb v i) /\ val r' = val r.
Proof.
  intros Hv Hlo Hrot Hb H64. unfold rotate_right, rotate_right_copy.
  destruct (rotate_right_helper_ok v lo rot hi Hv Hlo Hrot Hb H64) as (x & -> & Hx & Hxs & Hxb).
  pose proof (nbits_nonneg v). assert (Hc : wf (clrrange lo (hi - lo) v)) by (apply wf_clrrange; done || lia).
  destruct (or_ok _ x Hc Hx Hxs) as (Hr & Hrv). destruct (of_range_ok lo (hi - lo)) as (Hm & _ & Hmb); [lia..|].
  destruct (sub_assign_ok v _ Hv Hm) as (Hd & Hdv & _). fold (sub v (of_range lo (hi - lo))) in *.
  assert (Hds : size (sub v (of_range lo (hi - lo))) < 2 ^ 35).
  { unfold sub, sub_assign. pose proof (sub_words_ok v _ (proj2 Hv) (proj2 Hm)) as Ho.
    destruct (sub_words v _) as [r rv]. destruct Ho as (_ & Hl & _). unfold nbits, bits_per_unit, size in *. simpl. lia. }
  destruct (or_ok x _ Hx Hd Hds) as (Hr' & Hrv'). do 2 eexists. split; [done|]. split; [done|]. split; [done|]. split; [done|].
  assert (Hbits : forall i, 0 <= i -> Z.testbit (val (or (clrrange lo (hi - lo) v) x)) i =
    if (lo <=? i) && (i <? hi) then rotated v lo rot hi i else tb v i).
  { intros i Hi. rewrite Hrv, Z.lor_spec, Hxb, testbit_val, tb_clrrange by (done || apply Hc || lia).
    replace (lo + (hi - lo)) with hi by lia. destruct ((lo <=? i) && (i <? hi)); cbn [andb negb]; by rewrite ?andb_true_r, ?andb_false_r, ?orb_false_r. }
  split; [done|]. apply Z.bits_inj'. intros i Hi. rewrite Hbits by done.
  rewrite Hrv', Z.lor_spec, Hxb, Hdv, Z.ldiff_spec, testbit_val, Hmb by (done || apply Hv || lia).
  replace (lo + (hi - lo)) with hi by lia. destruct ((lo <=? i) && (i <? hi)); cbn [andb negb]; by rewrite ?andb_true_r, ?andb_false_r, ?orb_false_r.
Qed.

(** *** Counting *)
Lemma popcount_words n w x : 0 <= n -> 0 <= w < 2 ^ n -> 0 <= x -> Gmp.popcount (w + 2 ^ n * x) = Gmp.popcount w + Gmp.popcount x.
Proof.
  intros Hn. revert w. pattern n. apply natlike_ind; [| |done]; clear n Hn.
  - intros w Hw Hx. replace w with 0 by lia. by rewrite Z.mul_1_l.
  - intros n Hn IH w Hw Hx. rewrite Z.pow_succ_r in * by done. pose proof (pow2_pos n Hn).
    destruct (Z.Even_or_Odd w) as [[k ->]|[k ->]].
    + replace (2 * k + 2 * 2 ^ n * x) with (2 * (k + 2 ^ n * x)) by lia. rewrite !popcount_double. apply IH; lia.
    + replace (2 * k + 1 + 2 * 2 ^ n * x) with (2 * (k + 2 ^ n * x) + 1) by lia.
      rewrite !popcount_succ_double by lia. rewrite IH by lia. lia.
Qed.

Lemma popcount_word w : word_ok w -> Gmp.popcount w <= 64.
Proof.
  unfold word_ok. intros Hw. destruct (decide (w = 0)) as [->|]; [done|].
  pose proof (popcount_le_log2 w ltac:(lia)). pose proof (Z.log2_lt_pow2 w 64 ltac:(lia)). lia.
Qed.

Lemma popcount_ok v : Forall word_ok v -> nbits v < 2 ^ 32 -> popcount v = Some (Gmp.popcount (val v)).
Proof.
  intros Hv Hb. unfold popcount. assert (H : forall a, 0 <= a -> a + nbits v < 2 ^ 32 ->
    foldr (fun w acc => a ← acc; bitcount_loop 65 w a) (Some a) (rev v) = Some (a + Gmp.popcount (val v))).
  2: { by rewrite H. }
  clear Hb. induction Hv as [|w v Hw Hv IH]; intros a Ha Hb.
  - simpl. f_equal. lia.
  - unfold nbits, size, bits_per_unit in *. cbn [length] in Hb. rewrite Nat2Z.inj_succ in Hb.
    cbn [rev]. rewrite foldr_app. cbn [foldr]. pose proof (popcount_word w Hw). pose proof (popcount_nonneg w).
    cbn [mbind option_bind]. pose proof Hw as Hw'. unfold word_ok in Hw'. rewrite bitcount_loop_spec by (simpl; lia).
    rewrite wrapu_small by lia. rewrite IH by lia. cbn [val]. rewrite popcount_words by (lia || by apply val_nonneg). f_equal. lia.
Qed.

Lemma ones_succ n : 0 <= n -> Z.ones (Z.succ n) = 2 * Z.ones n + 1.
Proof. intros Hn. rewrite !Z.ones_equiv, Z.pow_succ_r by done. lia. Qed.

Lemma popcount_ones n : Gmp.popcount (Z.ones (Z.of_nat n)) = Z.of_nat n.
Proof.
  induction n as [|n IH]; [done|]. rewrite Nat2Z.inj_succ, ones_succ by lia. rewrite popcount_succ_double; [lia|].
  rewrite Z.ones_equiv. pose proof (pow2_pos (Z.of_nat n)). lia.
Qed.

(** A number whose bits are all set. *)
Lemma popcount_full z : 0 < z -> Gmp.popcount z = Z.log2 z + 1 -> z = Z.ones (Z.log2 z + 1).
Proof.
  intros Hz. assert (0 <= z) as Hz0 by lia. revert Hz.
  induction z as [z IH] using (well_founded_induction (Z.lt_wf 0)). intros Hz Hp.
  destruct (Z.Even_or_Odd z) as [[k ->]|[k ->]].
  - rewrite popcount_double, Z.log2_double in Hp by lia. pose proof (popcount_le_log2 k). lia.
  - destruct (decide (k = 0)) as [->|]; [done|].
    rewrite popcount_succ_double, Z.log2_succ_double in Hp by lia. rewrite Z.log2_succ_double by lia.
    pose proof (Z.log2_nonneg k). replace (Z.succ (Z.log2 k) + 1) with (Z.succ (Z.log2 k + 1)) by lia.
    rewrite ones_succ, <- IH by lia. done.
Qed.

Lemma popcount_shiftl z n : 0 <= n -> Gmp.popcount (Z.shiftl z n) = Gmp.popcount z.
Proof.
  intros Hn. pattern n. apply natlike_ind; [by rewrite Z.shiftl_0_r| |done]. intros m Hm IH.
  rewrite <- IH. rewrite !Z.shiftl_mul_pow2, Z.pow_succ_r, <- (popcount_double (z * 2 ^ m)) by lia. f_equal. lia.
Qed.

Lemma empty_ok v : Forall word_ok v -> empty v = (val v =? 0).
Proof. intros Hv. by rewrite val_eq_0. Qed.

Lemma is_contiguous_ok v : wf v -> nbits v < 2 ^ 32 ->
  exists b, is_contiguous v = Some b /\
  (b = true <-> exists lo n, 0 <= lo /\ 0 < n /\ val v = Z.shiftl (Z.ones n) lo).
Proof.
  intros Hv Hb. pose proof (val_nonneg v (proj2 Hv)) as Hnn. unfold is_contiguous. rewrite empty_ok by apply Hv.
  destruct (Z.eqb_spec (val v) 0) as [H0|Hne].
  - exists false. split; [done|]. split; [done|]. intros (lo & n & Hlo & Hn & E). rewrite H0 in E.
    apply (f_equal (fun z => Z.testbit z lo)) in E. rewrite Z.testbit_0_l, testbit_shiftl, testbit_ones in E by lia.
    destruct (Z.leb_spec lo lo), (Z.ltb_spec (lo - lo) n); done || lia.
  - rewrite popcount_ok by (done || apply Hv). cbn [mbind option_bind]. eexists. split; [done|].
    rewrite Z.eqb_eq, max_log2 by done. destruct (Z.eqb_spec (val v) 0); [done|].
    destruct (ffs_ok v 0 Hv ltac:(lia)) as [(E & Hl)|(Hr & Ht & Hl)].
    { exfalso. apply Hne. apply val_eq; [apply Hv|]. intros i Hi. rewrite Z.testbit_0_l. by apply Hl. }
    fold (min v) in *. set (m := min v) in *. clearbody m.
    assert (Hsh : val v = Z.shiftl (Z.shiftr (val v) m) m).
    { apply Z.bits_inj'. intros i Hi. rewrite testbit_shiftl by done. destruct (Z.leb_spec m i); cbn [andb].
      - rewrite Z.shiftr_spec by lia. f_equal. lia.
      - rewrite testbit_val by (apply Hv || done). apply Hl. lia. }
    set (u := Z.shiftr (val v) m) in *. assert (Hu : 0 < u).
    { assert (0 <= u) by (apply Z.shiftr_nonneg; lia). assert (u <> 0); [|lia]. intros E. rewrite E, Z.shiftl_0_l in Hsh. done. }
    clearbody u. rewrite Hsh, Z.log2_shiftl, popcount_shiftl by lia. split.
    + intros E. exists m, (Z.log2 u + 1). pose proof (Z.log2_nonneg u). split; [lia|]. split; [lia|]. f_equal. apply popcount_full; lia.
    + intros (lo & k & Hlo & Hn & E). rewrite <- Hsh in E.
      assert (m = lo) as ->.
      { rewrite <- testbit_val, E, testbit_shiftl in Ht by (apply Hv || lia).
        destruct (Z.leb_spec lo m); [|done]. destruct (Z.eq_dec m lo); [done|].
        specialize (Hl lo ltac:(lia)). rewrite <- testbit_val, E, testbit_shiftl, testbit_ones in Hl by (apply Hv || lia).
        destruct (Z.leb_spec lo lo), (Z.ltb_spec (lo - lo) k); done || lia. }
      rewrite Hsh in E. rewrite !Z.shiftl_mul_pow2 in E by lia. apply Z.mul_cancel_r in E; [|pose proof (pow2_pos lo); lia].
      subst u. rewrite <- (Z2Nat.id k) at 2 by lia. rewrite popcount_ones, Z2Nat.id by lia.
      rewrite Z.ones_equiv. assert (Z.log2 (Z.pred (2 ^ k)) = Z.pred k) as -> by (apply Z.log2_pred_pow2; lia). lia.
Qed.

(** *** Single bits, subsets, small slices *)
Lemma tb_setbit idx v i : wf v -> 0 <= idx < 2 ^ 40 - 1 -> 0 <= i ->
  wf (setbit idx v) /\ tb (setbit idx v) i = tb v i || (i =? idx).
Proof.
  intros Hv Hidx Hi. unfold setbit. set (g := if nbits v <=? idx then expand (1 + idx / 64) v else v).
  split_index idx. assert (Hg : wf g /\ idx / 64 < size g /\ tb g i = tb v i).
  { subst g. destruct (Z.leb_spec (nbits v) idx).
    - split; [auto with flexplan|]. split; [|by apply tb_expand]. rewrite size_expand.
      assert (idx / 64 < 2 ^ 34) by (apply Z.div_lt_upper_bound; lia). pose proof (Z.div_pos idx 64).
      pose proof (expand_size_ge (1 + idx / 64)). lia.
    - split; [done|]. split; [|done]. unfold nbits, bits_per_unit in *. lia. }
  destruct Hg as (Hg & Hk & <-). pose proof (Z.div_pos idx 64). split; [apply wf_upd; [done|]; auto with flexplan|].
  rewrite tb_upd by lia. split_index i. destruct (Z.eqb_spec (i / 64) (idx / 64)) as [E|].
  - rewrite Z.lor_spec, testbit_shl by lia. unfold tb. rewrite E. f_equal. change 1 with (Z.ones 1).
    destruct (Z.leb_spec (idx mod 64) (i mod 64)), (Z.eqb_spec i idx); cbn [andb]; rewrite ?testbit_ones by lia; ranges.
  - destruct (Z.eqb_spec i idx) as [->|]; [done|]. by rewrite orb_false_r.
Qed.

Lemma tb_clrbit idx v i : wf v -> 0 <= idx -> 0 <= i ->
  wf (clrbit idx v) /\ tb (clrbit idx v) i = tb v i && negb (i =? idx).
Proof.
  intros Hv Hidx Hi. unfold clrbit. destruct (Z.leb_spec (nbits v) idx) as [Hle|Hlt].
  { split; [done|]. destruct (Z.eqb_spec i idx) as [->|]; [by rewrite tb_size|]. by rewrite andb_true_r. }
  split_index idx. unfold nbits, bits_per_unit in Hlt. pose proof (Z.div_pos idx 64). split; [apply wf_upd; [done|]; auto with flexplan|].
  rewrite tb_upd by lia. split_index i. destruct (Z.eqb_spec (i / 64) (idx / 64)) as [E|].
  - rewrite Z.land_spec, testbit_bnot, testbit_shl by lia. unfold tb. rewrite E. f_equal. change 1 with (Z.ones 1).
    destruct (Z.leb_spec (idx mod 64) (i mod 64)), (Z.eqb_spec i idx); cbn [andb]; rewrite ?testbit_ones by lia; ranges.
  - destruct (Z.eqb_spec i idx) as [->|]; [done|]. by rewrite andb_true_r.
Qed.

Lemma word_S w v i : word (w :: v) (Z.of_nat (S i)) = word v (Z.of_nat i).
Proof. unfold word. by rewrite !Nat2Z.id. Qed.

Lemma words_eq0 w x : word_ok w -> 0 <= x -> (w + 2 ^ 64 * x =? 0) = (w =? 0) && (x =? 0).
Proof. unfold word_ok. intros Hw Hx. destruct (Z.eqb_spec (w + 2 ^ 64 * x) 0), (Z.eqb_spec w 0), (Z.eqb_spec x 0); try done; lia. Qed.

Lemma existsb_seq_S f k n : existsb f (seq (S k) n) = existsb (fun i => f (S i)) (seq k n).
Proof. revert k. induction n as [|n IH]; intros k; [done|]. cbn [seq existsb]. by rewrite IH. Qed.

Lemma forallb_seq_S f k n : forallb f (seq (S k) n) = forallb (fun i => f (S i)) (seq k n).
Proof. revert k. induction n as [|n IH]; intros k; [done|]. cbn [seq forallb]. by rewrite IH. Qed.

Lemma existsb_ext_all {A} (f g : A -> bool) l : (forall i, f i = g i) -> existsb f l = existsb g l.
Proof. intros H. induction l as [|a l IH]; simpl; [done|]. by rewrite H, IH. Qed.

Lemma forallb_ext_all {A} (f g : A -> bool) l : (forall i, f i = g i) -> forallb f l = forallb g l.
Proof. intros H. induction l as [|a l IH]; simpl; [done|]. by rewrite H, IH. Qed.

Lemma intersects_ok v : forall a, Forall word_ok v -> Forall word_ok a ->
  intersects v a = negb (Z.land (val v) (val a) =? 0).
Proof.
  induction v as [|w v IH]; intros a Hv Ha; [done|]. destruct a as [|x a]; [by rewrite Z.land_0_r|].
  apply Forall_cons in Hv as [Hw Hv]. apply Forall_cons in Ha as [Hx Ha]. specialize (IH a Hv Ha).
  rewrite <- (val_zip Z.land andb w v x a (Z.land (val v) (val a))) by (auto with flexplan; intros; apply Z.land_spec).
  rewrite words_eq0 by (auto with flexplan || (apply Z.land_nonneg; left; by apply val_nonneg)).
  rewrite negb_andb, <- IH. unfold intersects. cbn [length Nat.min seq existsb]. f_equal.
  rewrite existsb_seq_S. apply existsb_ext_all. intros i. by rewrite !word_S.
Qed.

Lemma words_0 a : forallb (fun i => word a (Z.of_nat i) =? 0) (seq 0 (length a)) = forallb (fun w => w =? 0) a.
Proof.
  induction a as [|x a IH]; [done|]. cbn [length seq forallb]. f_equal. rewrite forallb_seq_S, <- IH.
  apply forallb_ext_all. intros i. by rewrite word_S.
Qed.

Lemma contains_ok v : forall a, Forall word_ok v -> Forall word_ok a ->
  contains v a = (Z.land (val v) (val a) =? val a).
Proof.
  induction v as [|w v IH]; intros a Hv Ha.
  - cbn [val]. rewrite Z.land_0_l, Z.eqb_sym, val_eq_0, <- words_0 by done. unfold contains. cbn [length Nat.min seq forallb].
    by rewrite Nat.sub_0_r.
  - destruct a as [|x a]; [by cbn [val]; rewrite Z.land_0_r|].
    apply Forall_cons in Hv as [Hw Hv]. apply Forall_cons in Ha as [Hx Ha]. specialize (IH a Hv Ha).
    rewrite <- (val_zip Z.land andb w v x a (Z.land (val v) (val a))) by (auto with flexplan; intros; apply Z.land_spec).
    assert (Hwords : forall p q s t, word_ok p -> word_ok q -> (p + 2 ^ 64 * s =? q + 2 ^ 64 * t) = (p =? q) && (s =? t)).
    { unfold word_ok. intros p q s t Hp Hq. zbool_split; try done; lia. }
    cbn [val]. rewrite Hwords, <- IH by auto with flexplan. unfold contains. cbn [length Nat.min seq forallb Nat.sub].
    rewrite !forallb_seq_S, <- andb_assoc. f_equal. f_equal; apply forallb_ext_all; intros i; by rewrite !word_S.
Qed.

(** A slice of at most 64 bits is the range. *)
Lemma getslice_small v idx sz : wf v -> 0 <= idx -> 0 < sz <= 64 -> idx + sz <= nbits v < 2 ^ 40 ->
  getslice v idx sz = oret [val v / 2 ^ idx mod 2 ^ sz].
Proof.
  intros Hv Hi Hs Hb. destruct (getrange_ok v idx sz Hv Hi Hs) as (r & Hr & Hrw & <-). revert Hr.
  unfold getrange, getslice. destruct (Z.ltb_spec 0 sz); [|lia]. destruct (Z.leb_spec sz 64); [|lia]. cbn [andb].
  destruct (Z.leb_spec (nbits v) idx); [lia|]. destruct (Z.eqb_spec sz 0); [lia|].
  assert (uadd idx sz = idx + sz) as -> by (apply wrapu_small; lia). destruct (Z.ltb_spec (nbits v) (idx + sz)); [lia|].
  destruct (Z.ltb_spec 1 (size v)); [|by intros [= <-]]. destruct (Z.ltb_spec 64 sz); [lia|]. intros [= <-]. f_equal. f_equal.
  split_index idx. cbn [getrange_loop]. destruct (Z.ltb_spec (64 - idx mod 64 + 64) sz); [lia|].
  unfold nbits, bits_per_unit in *. destruct (Z.ltb_spec (64 - idx mod 64) sz) as [Hlt|Hge].
  - destruct (Z.eqb_spec (idx mod 64) 0); [lia|]. destruct (Z.ltb_spec (idx / 64 + 1) (size v)); [|lia]. cbn [negb andb].
    by destruct (Z.leb_spec (size v) (idx / 64 + 1)); [lia|].
  - destruct (negb (idx mod 64 =? 0) && (idx / 64 + 1 <? size v)) eqn:E; [|done].
    apply Z.bits_inj'. intros j Hj. rewrite !Z.land_spec, Z.lor_spec. destruct (Z.lt_ge_cases j 64).
    + rewrite testbit_low_mask, testbit_shl by lia. ranges.
    + pose proof (word_ok_bnot (shl (bnot 1) (sz - 1))) as Hm. fold (low_mask sz) in Hm. unfold word_ok in Hm.
      by rewrite (testbit_above (low_mask sz) 64), !andb_false_r by lia.
Qed.
