(* ===== verification/BitvecSpec.v ===== *)
(** * What bit vectors promise

    The specification of [lib/bitvec.h]: a vector is a finite set of bit
    positions, written as the number [val v] whose bits they are.  Each theorem
    states a group of operations of [Bitvec.v] on that number; the lemmas are in
    [BitvecFacts.v]. *)
From S2P Require Import Prelude Gmp Bitvec BitvecFacts.
Local Open Scope Z_scope.
Local Open Scope flexplan_scope.

(** A vector as an argument of [wf]: its words are closed numbers. *)
Ltac wf_concrete := split; [done|]; repeat constructor; unfold word_ok; lia.

(** C33. The operators &, |, ^ and - are the bitwise operations on numbers,
    whatever the sizes of the operands; the compound assignments tell whether
    the left operand changed; == and < compare the numbers; [intersects] and
    [contains] are disjointness and inclusion of bit sets. *)
Theorem bitwise_refines v a : wf v -> wf a -> size v < 2 ^ 35 -> size a < 2 ^ 35 ->
  val (and v a) = Z.land (val v) (val a) /\ val (or v a) = Z.lor (val v) (val a) /\
  val (xor v a) = Z.lxor (val v) (val a) /\ val (sub v a) = Z.ldiff (val v) (val a) /\
  wf (and v a) /\ wf (or v a) /\ wf (xor v a) /\ wf (sub v a) /\
  val (and_assign v a).1 = val (and v a) /\
  (and_assign v a).2 = negb (Z.land (val v) (val a) =? val v) /\
  (or_assign v a).2 = negb (Z.lor (val v) (val a) =? val v) /\
  (sub_assign v a).2 = negb (Z.ldiff (val v) (val a) =? val v) /\
  eqb v a = (val v =? val a) /\ ltb v a = (val v <? val a) /\
  intersects v a = negb (Z.land (val v) (val a) =? 0) /\ contains v a = (Z.land (val v) (val a) =? val a).
Proof.
  intros Hv Ha Hvs Has. destruct (and_ok v a Hv Ha) as (Hw1 & Hand & _). destruct (or_ok v a Hv Ha Has) as (Hw2 & Hor).
  destruct (xor_ok v a Hv Ha Has) as (Hw3 & Hxor). destruct (and_assign_ok v a Hv Ha) as (_ & _ & E1 & E2).
  destruct (or_assign_ok v a Hv Ha Has) as (_ & E3 & E4). destruct (sub_assign_ok v a Hv Ha) as (Hw4 & E6 & E7).
  rewrite E2, E4, E7, E1, E3, E6, Hand, eqb_ok, ltb_ok, intersects_ok, contains_ok by (apply Hv || apply Ha).
  by split_and!.
Qed.

Lemma bitwise_refines_witness :
  wf [12; 1] /\ wf [10] /\ val (and [12; 1] [10]) = 8 /\ val (sub [12; 1] [10]) = 2 ^ 64 + 4.
Proof.
  assert (Hv : wf [12; 1]) by wf_concrete. assert (Ha : wf [10]) by wf_concrete.
  destruct (bitwise_refines [12; 1] [10] Hv Ha eq_refl eq_refl) as (-> & _ & _ & -> & _). by split_and!.
Defined.

(** C36. Setting or clearing a bit or a range of bits changes exactly those bits
    and keeps the vector well formed; setting grows it as far as needed. *)
Theorem ranges_refine v idx sz : wf v -> 0 <= idx -> 0 <= sz -> idx + sz < 2 ^ 40 -> nbits v < 2 ^ 40 ->
  wf (setrange idx sz v) /\ wf (clrrange idx sz v) /\
  (forall i, 0 <= i -> getbit (setrange idx sz v) i = getbit v i || ((idx <=? i) && (i <? idx + sz))) /\
  (forall i, 0 <= i -> getbit (clrrange idx sz v) i = getbit v i && negb ((idx <=? i) && (i <? idx + sz))) /\
  (forall i, 0 <= i -> idx < 2 ^ 40 - 1 -> getbit (setbit idx v) i = getbit v i || (i =? idx)) /\
  (forall i, 0 <= i -> getbit (clrbit idx v) i = getbit v i && negb (i =? idx)).
Proof.
  intros Hv Hi Hs Hb Hn. split_and!; try intros i H0; try intros Hlt; rewrite ?getbit_tb by done.
  - by apply wf_setrange.
  - by apply wf_clrrange.
  - by apply tb_setrange.
  - apply tb_clrrange; done || lia.
  - apply tb_setbit; done || lia.
  - by apply tb_clrbit.
Qed.

Lemma ranges_refine_witness :
  wf [0] /\ getbit (setrange 60 8 [0]) 67 = true /\ getbit (setrange 60 8 [0]) 68 = false.
Proof.
  assert (Hv : wf [0]) by wf_concrete.
  destruct (ranges_refine [0] 60 8 Hv ltac:(lia) ltac:(lia) ltac:(lia) ltac:(done)) as (_ & _ & Hs & _).
  split_and!; [done|rewrite Hs by lia; done|rewrite Hs by lia; done].
Defined.



(** The exception: [<<= 64] of an empty one-word vector shifts a 64-bit word
    by 64. *)
Example shift_left_empty : shift_left empty_bitvec 64 = Aborted "shift count too large".
Proof. reflexivity. Qed.

(** C35. What [putrange] writes, [getrange] reads back; no other bit changes, and
    reading is division and remainder of the number.  Slices of at most 64
    bits read the same. *)
Theorem getrange_putrange v idx sz x : wf v -> 0 <= idx -> 0 < sz <= 64 -> idx + sz < 2 ^ 40 -> nbits v < 2 ^ 40 -> 0 <= x ->
  (exists v', putrange idx sz x v = oret v' /\ wf v' /\ getrange v' idx sz = oret (x mod 2 ^ sz) /\
     forall i, 0 <= i -> ~ (idx <= i < idx + sz) -> getbit v' i = getbit v i) /\
  getrange v idx sz = oret (val v / 2 ^ idx mod 2 ^ sz) /\
  (idx + sz <= nbits v -> getslice v idx sz = oret [val v / 2 ^ idx mod 2 ^ sz]).
Proof.
  intros Hv Hi Hs Hb Hn Hx. split; [|split].
  - destruct (putrange_ok v idx sz x Hv Hi Hs Hb Hx) as (v' & Hp & Hv' & Htb). exists v'. split; [done|]. split; [done|]. split.
    + destruct (getrange_ok v' idx sz Hv' Hi Hs) as (r & -> & _ & ->). f_equal. rewrite <- Z.shiftr_div_pow2 by lia.
      rewrite <- !Z.land_ones by lia. apply Z.bits_inj'. intros j Hj. rewrite !Z.land_spec, Z.shiftr_spec, testbit_ones by lia.
      destruct (Z.ltb_spec j sz); [|by rewrite !andb_false_r]. rewrite !andb_true_r, testbit_val, Htb by (apply Hv' || lia).
      replace (j + idx - idx) with j by lia. ranges.
    + intros i H0 Hr. rewrite !getbit_tb, Htb by done. ranges.
  - by destruct (getrange_ok v idx sz Hv Hi Hs) as (r & -> & _ & ->).
  - intros Hsz. by apply getslice_small.
Qed.

Lemma getrange_putrange_witness :
  wf [1; 2] /\ exists v', putrange 60 8 255 [1; 2] = oret v' /\ getrange v' 60 8 = oret 255.
Proof.
  assert (Hv : wf [1; 2]) by wf_concrete.
  destruct (getrange_putrange [1; 2] 60 8 255 Hv ltac:(lia) ltac:(lia) ltac:(lia) ltac:(done) ltac:(lia)) as ((v' & Hp & _ & Hg & _) & _).
  split; [done|]. by exists v'.
Defined.

(** Longer slices of a vector of several words lose the bits that the last
    word of the result takes from one more word of the source. *)
Example getslice_loses_bits :
  getslice [1; 2; 3] 32 128 = oret [2 * 2 ^ 32; 0] /\ val [1; 2; 3] / 2 ^ 32 mod 2 ^ 128 = val [2 * 2 ^ 32; 3 * 2 ^ 32].
Proof. split; reflexivity. Qed.

(** Iterating over a vector ends and enumerates its set bits, each once and in
    ascending order; [min] and [max] are the first and the last of them, and
    [ffz] finds the first clear bit. *)
Theorem iteration_spec v : wf v ->
  (exists l, indices v = Some l /\ StronglySorted Z.lt l /\ (forall i, i ∈ l <-> 0 <= i /\ getbit v i = true) /\
     (empty v = true <-> l = []) /\ min v = default (-1) (head l) /\ max v = default (-1) (last l)) /\
  forall start, 0 <= start -> start <= ffz v start /\ getbit v (ffz v start) = false /\
    forall i, start <= i < ffz v start -> getbit v i = true.
Proof.
  intros Hv. split.
  - destruct (iterate_ok v (64 * length v) Hv 0 (min v) ltac:(lia) (ffs_ok v 0 Hv ltac:(lia))) as (l & Hl & Hs & Hin).
    { unfold nbits, size, bits_per_unit. lia. }
    exists l. split; [done|]. split; [done|]. split_and!.
    + intros i. rewrite Hin. split; intros [H0 Ht]; (split; [done|]); [by rewrite getbit_tb|by rewrite <- getbit_tb].
    + rewrite empty_ok, Z.eqb_eq by apply Hv. split.
      * intros E. destruct l as [|i l]; [done|]. destruct (proj1 (Hin i)) as [H0 Ht]; [by left|].
        by rewrite <- testbit_val, E, Z.testbit_0_l in Ht by (apply Hv || done).
      * intros ->. apply val_eq; [apply Hv|]. intros i Hi. rewrite Z.testbit_0_l. apply not_true_is_false. intros Ht.
        by apply (elem_of_nil i), Hin.
    + unfold indices in Hl. destruct (Z.eq_dec (min v) (-1)) as [E|Hne].
      * rewrite E in Hl. destruct (64 * length v)%nat; injection Hl as <-; done.
      * destruct (64 * length v)%nat; simpl in Hl; destruct (Z.eqb_spec (min v) (-1)); try done.
        destruct (iterate _ _ _); [|done]. by injection Hl as <-.
    + destruct (max_ok v Hv) as [(-> & Hn)|(Hr & Ht & Hm)].
      * destruct l as [|i l]; [done|]. destruct (proj1 (Hin i)) as [H0 Ht]; [by left|].
        destruct (Z.lt_ge_cases i (nbits v)); [by rewrite Hn in Ht by lia|by rewrite tb_size in Ht].
      * rewrite (sorted_last l (max v)); [done|done|apply Hin; split; [lia|done]|]. intros j [Hj Hj']%Hin.
        destruct (Z.le_gt_cases j (max v)); [done|]. destruct (Z.lt_ge_cases j (nbits v)); [by rewrite Hm in Hj' by lia|by rewrite tb_size in Hj'].
  - intros start Hs. destruct (ffz_ok v start Hv Hs) as (H1 & H2 & H3). split; [done|]. rewrite getbit_tb by lia. split; [done|].
    intros i Hi. rewrite getbit_tb by lia. by apply H3.
Qed.

Lemma iteration_spec_witness : wf [5; 3] /\ exists l, indices [5; 3] = Some l /\ min [5; 3] = default (-1) (head l).
Proof.
  assert (Hv : wf [5; 3]) by wf_concrete. destruct (iteration_spec [5; 3] Hv) as [(l & Hl & _ & _ & _ & Hm & _) _].
  split; [done|]. exists l. split; assumption.
Defined.

(** Rotation moves the section [[start, end)] cyclically so that the bit at
    [rotation] comes to [start], and leaves the other bits; the copying variant
    gives the same number. *)
Theorem rotate_right_spec v lo rot hi :
  wf v -> 0 <= lo <= rot -> rot < hi -> nbits v + hi < 2 ^ 39 -> hi - rot <> 64 ->
  exists r r', rotate_right v lo rot hi = oret r /\ rotate_right_copy v lo rot hi = oret r' /\ val r' = val r /\
  forall i, 0 <= i -> getbit r i =
    if (lo <=? i) && (i <? hi) then getbit v (lo + (i - lo + (rot - lo)) mod (hi - lo)) else getbit v i.
Proof.
  intros Hv Hlo Hrot Hb H64. destruct (rotate_right_ok v lo rot hi Hv Hlo Hrot Hb H64) as (r & r' & Hr & Hr' & Hw & _ & Hbits & Hval).
  exists r, r'. split; [done|]. split; [done|]. split; [done|]. intros i Hi.
  rewrite getbit_tb, <- testbit_val, Hbits, (getbit_tb v i) by (done || apply Hw).
  destruct (Z.leb_spec lo i), (Z.ltb_spec i hi); cbn [andb]; try done.
  assert (Hm : lo + (i - lo + (rot - lo)) mod (hi - lo) = if i + (rot - lo) <? hi then i + (rot - lo) else i + (rot - lo) - (hi - lo)).
  { destruct (Z.ltb_spec (i + (rot - lo)) hi).
    - rewrite Z.mod_small by lia. lia.
    - replace (i - lo + (rot - lo)) with (i - lo + (rot - lo) - (hi - lo) + 1 * (hi - lo)) by lia.
      rewrite Z.mod_add, Z.mod_small by lia. lia. }
  rewrite Hm. unfold rotated. symmetry. apply getbit_tb. destruct (Z.ltb_spec (i + (rot - lo)) hi); lia.
Qed.

Lemma rotate_right_spec_witness :
  wf [77] /\ exists r, rotate_right [77] 0 3 8 = oret r /\ getbit r 0 = getbit [77] 3.
Proof.
  assert (Hv : wf [77]) by wf_concrete.
  destruct (rotate_right_spec [77] 0 3 8 Hv ltac:(lia) ltac:(lia) ltac:(done) ltac:(lia)) as (r & r' & Hr & _ & _ & Hb).
  split; [done|]. exists r. split; [done|]. by rewrite Hb by lia.
Defined.

(** [popcount] counts the bits of the number, and [is_contiguous] holds
    exactly for the vectors whose set bits form one non-empty run. *)
Theorem contiguous_spec v : wf v -> nbits v < 2 ^ 32 ->
  popcount v = Some (Gmp.popcount (val v)) /\
  exists b, is_contiguous v = Some b /\ (b = true <-> exists lo n, 0 <= lo /\ 0 < n /\ val v = Z.shiftl (Z.ones n) lo).
Proof. intros Hv Hb. split; [by apply popcount_ok; [apply Hv|]|by apply is_contiguous_ok]. Qed.

Lemma contiguous_spec_witness : wf [2 ^ 63; 3] /\ popcount [2 ^ 63; 3] = Some 3 /\ is_contiguous [2 ^ 63; 3] = Some true.
Proof.
  assert (Hv : wf [2 ^ 63; 3]) by wf_concrete. destruct (contiguous_spec [2 ^ 63; 3] Hv ltac:(done)) as (-> & b & -> & Hb).
  split; [done|]. split; [vm_compute; reflexivity|]. f_equal. apply Hb. exists 63, 3. split_and!; [lia|lia|vm_compute; reflexivity].
Defined.
