(* ===== verification/DjSet.v ===== *)
(** * Union-find with explanations and congruence closure:
      [backends/analysis/dj_set_expl.h], [dj_set_expl.cpp]

    Identifiers are [long]s that count up from 0; the vectors are indexed by
    them.  Reading outside a vector is undefined and is [None], as is a loop
    that its fuel does not finish; [set_union] writes [raw_parents[-1]], which
    leaves the vector as it is and is recorded in the field [overrun]. *)
From S2P Require Import Prelude.
Local Open Scope Z_scope.

(** ** Vectors *)
Definition vget (l : list Z) (i : Z) : option Z := if 0 <=? i then l !! Z.to_nat i else None.
Definition inside (i : Z) (l : list Z) : bool := (0 <=? i) && (i <? Z.of_nat (length l)).
Definition vset (i x : Z) (l : list Z) : list Z := if inside i l then <[Z.to_nat i := x]> l else l.

Module DjSetExpl.
Record dj_set_expl := Dj {
  latestId : Z;
  equations : list (Z * Z);
  sizes : list Z;
  parents : list Z;
  raw_parents : list Z;
  overrun : bool }.

Definition empty_set : dj_set_expl := Dj 0 [] [] [] [] false.

(** [while (e > 0)] *)
Fixpoint ancestors_loop (fuel : nat) (vs : list Z) (e : Z) : option (list Z) :=
  if 0 <? e then
    match fuel with
    | O => None
    | S fuel => v ← vget vs e; cons e <$> ancestors_loop fuel vs v
    end
  else Some [].
Definition ancestors (vs : list Z) (e : Z) : option (list Z) := ancestors_loop (length vs) vs e.

(** [rep]: the root, then the path compression, which stops after the first
    node, as [p] becomes the root. *)
Fixpoint find_root (fuel : nat) (parents : list Z) (p : Z) : option Z :=
  v ← vget parents p;
  if 0 <? v then match fuel with O => None | S fuel => find_root fuel parents v end
  else Some p.
Fixpoint compress (fuel : nat) (parents : list Z) (p rt : Z) : option (list Z) :=
  if p =? rt then Some parents
  else match fuel with
       | O => None
       | S fuel =>
           let parents := vset p rt parents in
           p ← vget parents p;
           compress fuel parents p rt
       end.
Definition rep (s : dj_set_expl) (a : Z) : option (Z * dj_set_expl) :=
  rt ← find_root (length (parents s)) (parents s) a;
  ps ← compress (length (parents s)) (parents s) a rt;
  Some (rt, Dj (latestId s) (equations s) (sizes s) ps (raw_parents s) (overrun s)).

(** [explain]: the last common element of the two reversed paths; decrementing
    the iterator at the beginning is undefined. *)
Fixpoint last_common (is_ js : list Z) (prev : option Z) : option Z :=
  match is_, js with
  | a :: is_, b :: js => if a =? b then last_common is_ js (Some a) else prev
  | _, _ => prev
  end.
(** [for (x = xid; x != top; x = raw_parents[x])] *)
Fixpoint climb (fuel : nat) (raw : list Z) (x top : Z) : option (list (Z * Z)) :=
  if x =? top then Some []
  else match fuel with
       | O => None
       | S fuel => v ← vget raw x; cons (x, v) <$> climb fuel raw v top
       end.
Definition explain_into (s : dj_set_expl) (xid yid : Z) (eqns : list (Z * Z)) : option (list (Z * Z)) :=
  if xid =? yid then Some eqns
  else
    ancs_x ← ancestors (raw_parents s) xid;
    ancs_y ← ancestors (raw_parents s) yid;
    top ← last_common (rev ancs_x) (rev ancs_y) None;
    ex ← climb (length (raw_parents s)) (raw_parents s) xid top;
    ey ← climb (length (raw_parents s)) (raw_parents s) yid top;
    Some (eqns ++ ex ++ ey).
Definition explain (s : dj_set_expl) (xid yid : Z) : option (list (Z * Z) * dj_set_expl) :=
  '(rxid, s) ← rep s xid;
  '(ryid, s) ← rep s yid;
  if negb (rxid =? ryid) then Some ([], s)
  else eqns ← explain_into s xid yid []; Some (eqns, s).

(** [for (I : reverse of yancestors) raw_parents[raw_parents[*I]] = *I] *)
Fixpoint reverse_path (is_ : list Z) (raw : list Z) : option (list Z * bool) :=
  match is_ with
  | [] => Some (raw, false)
  | c :: is_ =>
      rp ← vget raw c;
      '(raw', out) ← reverse_path is_ (vset rp c raw);
      Some (raw', negb (inside rp raw) || out)
  end.

(** The part of [set_union] after the swap. *)
Definition link (s : dj_set_expl) (rxid ryid xid yid : Z) : option (Z * dj_set_expl) :=
  s1 ← vget (sizes s) rxid;
  s2 ← vget (sizes s) ryid;
  let equations := equations s ++ [(xid, yid)] in
  let sizes := vset rxid (s1 + s2) (sizes s) in
  let parents := vset ryid rxid (parents s) in
  yancestors ← ancestors (raw_parents s) yid;
  '(raw, out) ← reverse_path (rev yancestors) (raw_parents s);
  let raw := vset yid xid raw in
  Some (Z.of_nat (length equations) - 1, Dj (latestId s) equations sizes parents raw (overrun s || out)).
Definition set_union (s : dj_set_expl) (xid yid : Z) : option (Z * dj_set_expl) :=
  '(rxid, s) ← rep s xid;
  '(ryid, s) ← rep s yid;
  if rxid =? ryid then Some (-1, s)
  else
    s1 ← vget (sizes s) rxid;
    s2 ← vget (sizes s) ryid;
    if s1 <? s2 then link s ryid rxid yid xid else link s rxid ryid xid yid.

Definition newid (s : dj_set_expl) : Z * dj_set_expl :=
  (latestId s, Dj (latestId s + 1) (equations s) (sizes s ++ [1]) (parents s ++ [-1]) (raw_parents s ++ [-1]) (overrun s)).
End DjSetExpl.
Import DjSetExpl.

(** ** Congruence closure *)
Module Congruence.
Definition var_t : Type := nat.
Definition representative_t : Type := nat.

Record var_eq_t := VarEq { left : var_t; right : var_t }.
(** [f(a1, a2) == a] *)
Record var_fun_eq_t := VarFunEq { a1 : var_t; a2 : var_t; a : var_t }.
Inductive reason_for_equality_t :=
| ByEq (e : var_eq_t)
| ByFunEqs (first second : var_fun_eq_t).

Record congruence_closure_t := CC {
  representatives : list representative_t;
  class_list : gmap representative_t (list var_t);
  pending : list reason_for_equality_t;
  use_lists : gmap representative_t (list var_fun_eq_t);
  lookup : gmap (representative_t * representative_t) var_fun_eq_t;
  proof_forest : dj_set_expl;
  proof_forest_edge_labels : gmap Z reason_for_equality_t }.

Definition empty_closure : congruence_closure_t := CC [] ∅ [] ∅ ∅ empty_set ∅.

Definition get_representative (c : congruence_closure_t) (x : var_t) : option representative_t :=
  representatives c !! x.
Definition get_reason (r : reason_for_equality_t) : var_t * var_t :=
  match r with
  | ByEq e => (left e, right e)
  | ByFunEqs e1 e2 => (a e1, a e2)
  end.

(** [for (auto c : cls_list_a) representatives[c] = bprime]; writing outside
    the vector is undefined. *)
Fixpoint set_representatives (cls : list var_t) (b : representative_t) (rs : list representative_t)
    : option (list representative_t) :=
  match cls with
  | [] => Some rs
  | c :: cls => if (c <? length rs)%nat then set_representatives cls b (<[c := b]> rs) else None
  end.

(** The loop over [ause_lists]: the table, the pending equalities and
    [buse_lists] as it goes on. *)
Fixpoint scan_uses (rs : list representative_t) (uses : list var_fun_eq_t)
    (lookup : gmap (representative_t * representative_t) var_fun_eq_t)
    (pending : list reason_for_equality_t) (buse : list var_fun_eq_t)
    : option (gmap (representative_t * representative_t) var_fun_eq_t * list reason_for_equality_t * list var_fun_eq_t) :=
  match uses with
  | [] => Some (lookup, pending, buse)
  | e :: uses =>
      c1 ← rs !! a1 e;
      c2 ← rs !! a2 e;
      match lookup !! (c1, c2) with
      | Some e' => scan_uses rs uses lookup (pending ++ [ByFunEqs e' e]) buse
      | None => scan_uses rs uses (<[(c1, c2) := e]> lookup) pending (buse ++ [e])
      end
  end.

(** Merging the class of [aprime] into that of [bprime], after the swap:
    [cls_list_a] and [cls_list_b] are the contents of the two references, which
    [std::swap] has exchanged together with [a], [b], [aprime] and [bprime]:
    when [swapped], [cls_list_a] is still the entry of [bprime]. *)
Definition merge (c : congruence_closure_t) (E : reason_for_equality_t) (a b : var_t)
    (aprime bprime : representative_t) (swapped : bool) : option congruence_closure_t :=
  let list_a := default [] (class_list c !! aprime) in
  let list_b := default [] (class_list c !! bprime) in
  let entry_a := if swapped then bprime else aprime in
  let entry_b := if swapped then aprime else bprime in
  let classes := <[entry_a := list_a]> (<[entry_b := list_b]> (class_list c)) in
  '(eqid, forest) ← set_union (proof_forest c) (Z.of_nat a) (Z.of_nat b);
  if 0 <=? eqid then
    rs ← set_representatives list_a bprime (representatives c);
    let classes := delete aprime (<[entry_b := list_b ++ list_a]> classes) in
    let ause := default [] (use_lists c !! aprime) in
    let buse := default [] (use_lists c !! bprime) in
    '(tbl, pend, buse) ← scan_uses rs ause (lookup c) (pending c) buse;
    Some (CC rs classes pend (<[aprime := []]> (<[bprime := buse]> (use_lists c))) tbl forest
            (<[eqid := E]> (proof_forest_edge_labels c)))
  else
    Some (CC (representatives c) classes (pending c) (use_lists c) (lookup c) forest (proof_forest_edge_labels c)).

(** One iteration of [propagate]; [None] inside when nothing is pending. *)
Definition propagate_step (c : congruence_closure_t) : option (option congruence_closure_t) :=
  match last (pending c) with
  | None => Some None
  | Some E =>
      let c := CC (representatives c) (class_list c) (removelast (pending c)) (use_lists c) (lookup c)
                 (proof_forest c) (proof_forest_edge_labels c) in
      let '(a, b) := get_reason E in
      aprime ← get_representative c a;
      bprime ← get_representative c b;
      if (aprime =? bprime)%nat then Some (Some c)
      else
        let la := length (default [] (class_list c !! aprime)) in
        let lb := length (default [] (class_list c !! bprime)) in
        Some <$> (if (lb <? la)%nat then merge c E b a bprime aprime true else merge c E a b aprime bprime false)
  end.
Fixpoint propagate_loop (fuel : nat) (c : congruence_closure_t) : option congruence_closure_t :=
  r ← propagate_step c;
  match r with
  | None => Some c
  | Some c => match fuel with O => None | S fuel => propagate_loop fuel c end
  end.
(** Each pending equality comes from [add_equality] or consumes an entry of
    the use lists. *)
Definition count_uses (u : gmap representative_t (list var_fun_eq_t)) : nat :=
  map_fold (fun _ l n => (length l + n)%nat) 0%nat u.
Definition propagate (c : congruence_closure_t) : option congruence_closure_t :=
  propagate_loop (length (pending c) + count_uses (use_lists c)) c.

Inductive equality := VarEquality (e : var_eq_t) | FunEquality (e : var_fun_eq_t).

Definition push_pending (r : reason_for_equality_t) (c : congruence_closure_t) : congruence_closure_t :=
  CC (representatives c) (class_list c) (pending c ++ [r]) (use_lists c) (lookup c)
     (proof_forest c) (proof_forest_edge_labels c).
(** [use_lists[r].push_back(e)] *)
Definition push_use (r : representative_t) (e : var_fun_eq_t) (u : gmap representative_t (list var_fun_eq_t)) :=
  <[r := default [] (u !! r) ++ [e]]> u.

Definition add_equality (c : congruence_closure_t) (eq : equality) : option congruence_closure_t :=
  match eq with
  | VarEquality e => propagate (push_pending (ByEq e) c)
  | FunEquality e =>
      r1 ← get_representative c (a1 e);
      r2 ← get_representative c (a2 e);
      match lookup c !! (r1, r2) with
      | Some e' => propagate (push_pending (ByFunEqs e e') c)
      | None =>
          Some (CC (representatives c) (class_list c) (pending c) (push_use r2 e (push_use r1 e (use_lists c)))
                  (<[(r1, r2) := e]> (lookup c)) (proof_forest c) (proof_forest_edge_labels c))
      end
  end.

Definition equal (c : congruence_closure_t) (v1 v2 : var_t) : option bool :=
  r1 ← representatives c !! v1;
  r2 ← representatives c !! v2;
  Some (r1 =? r2)%nat.

Definition create_new_var (c : congruence_closure_t) : var_t * congruence_closure_t :=
  let id := length (representatives c) in
  (id, CC (representatives c ++ [id]) (<[id := [id]]> (class_list c)) (pending c) (use_lists c) (lookup c)
         (newid (proof_forest c)).2 (proof_forest_edge_labels c)).

(** [variable_context_t]: names for the variables. *)
Section VariableContext.
Context {T : Type} `{Countable T}.
Record variable_context_t := VC { cc : congruence_closure_t; vars : gmap T var_t; revvars : gmap var_t T }.
Definition empty_context : variable_context_t := VC empty_closure ∅ ∅.
(** An unknown variable dereferences [end()]. *)
Definition for_variable (x : variable_context_t) (v : var_t) : option T := revvars x !! v.
(** [emplace] keeps an entry that is there. *)
Definition var (x : variable_context_t) (v : T) : var_t * variable_context_t :=
  match vars x !! v with
  | Some nv => (nv, x)
  | None =>
      let '(nv, c) := create_new_var (cc x) in
      (nv, VC c (<[v := nv]> (vars x))
             (match revvars x !! nv with Some _ => revvars x | None => <[nv := v]> (revvars x) end))
  end.
End VariableContext.
End Congruence.
