(* ===== verification/DjSetFacts.v ===== *)
(** * Theorems on union-find with explanations: [DjSet.v]

    [parents] and [raw_parents] are forests: a node whose entry is positive
    points to its parent.  The identifier 0 looks like "no parent", so it is
    excluded where the classes matter. *)
From S2P Require Import Prelude DjSet.
Import DjSetExpl.
Local Open Scope Z_scope.

(** ** Vectors *)
Lemma inside_spec i l : inside i l = true <-> 0 <= i < Z.of_nat (length l).
Proof. unfold inside. rewrite andb_true_iff, Z.leb_le, Z.ltb_lt. done. Qed.

Lemma vget_range l i v : vget l i = Some v -> 0 <= i < Z.of_nat (length l).
Proof.
  unfold vget. destruct (Z.leb_spec 0 i); [|done]. intros Hl%lookup_lt_Some. lia.
Qed.

Lemma vget_total l i : 0 <= i < Z.of_nat (length l) -> exists v, vget l i = Some v.
Proof.
  intros Hi. unfold vget. destruct (Z.leb_spec 0 i); [|lia].
  destruct (lookup_lt_is_Some_2 l (Z.to_nat i)) as [v Hv]; [lia|]. by exists v.
Qed.

Lemma length_vset i x l : length (vset i x l) = length l.
Proof. unfold vset. destruct (inside i l); [apply length_insert|done]. Qed.

Lemma vget_vset i x l j : vget (vset i x l) j = if (j =? i) && inside i l then Some x else vget l j.
Proof.
  unfold vset. destruct (inside i l) eqn:E; [|by rewrite andb_false_r]. apply inside_spec in E. rewrite andb_true_r.
  unfold vget. destruct (Z.eqb_spec j i) as [->|Hne].
  - destruct (Z.leb_spec 0 i); [|lia]. apply list_lookup_insert_eq. lia.
  - destruct (Z.leb_spec 0 j); [|done]. apply list_lookup_insert_ne. lia.
Qed.

Lemma vget_vset_eq i x l : 0 <= i < Z.of_nat (length l) -> vget (vset i x l) i = Some x.
Proof. intros Hi. rewrite vget_vset, Z.eqb_refl. apply inside_spec in Hi. by rewrite Hi. Qed.

Lemma vget_vset_ne i x l j : j <> i -> vget (vset i x l) j = vget l j.
Proof. intros Hne. rewrite vget_vset. by destruct (Z.eqb_spec j i). Qed.

Lemma vget_app l x j : vget (l ++ [x]) j = if j =? Z.of_nat (length l) then Some x else vget l j.
Proof.
  unfold vget. destruct (Z.leb_spec 0 j); [|by destruct (Z.eqb_spec j (Z.of_nat (length l))); [lia|]].
  destruct (Z.eqb_spec j (Z.of_nat (length l))) as [->|Hne].
  - by rewrite Nat2Z.id, list_lookup_middle.
  - destruct (decide (Z.to_nat j < length l)%nat); [by rewrite lookup_app_l|].
    rewrite !(proj2 (lookup_ge_None _ _)); [done|lia|rewrite length_app; simpl; lia].
Qed.

(** Distinct positions of a vector are at most its length. *)
Lemma ids_bound (l : list Z) n : NoDup l -> (forall i, i ∈ l -> 0 <= i < Z.of_nat n) -> (length l <= n)%nat.
Proof.
  intros Hd Hl. assert (Hs : l ⊆+ seqZ 0 (Z.of_nat n)).
  { apply NoDup_submseteq; [done|]. intros i Hi. apply elem_of_seqZ. specialize (Hl i Hi). lia. }
  apply submseteq_length in Hs. rewrite length_seqZ in Hs. lia.
Qed.

(** ** Roots of the parent forest *)
Inductive root (P : list Z) : Z -> Z -> Prop :=
| root_here p v : vget P p = Some v -> v <= 0 -> root P p p
| root_up p v r : vget P p = Some v -> 0 < v -> root P v r -> root P p r.

Lemma root_fix P p r : root P p r -> exists v, vget P r = Some v /\ v <= 0.
Proof. induction 1; eauto. Qed.

Lemma root_det P p r r' : root P p r -> root P p r' -> r = r'.
Proof.
  intros H. revert r'. induction H as [p v Hv Hle|p v r Hv Hlt _ IH]; intros r' H'; inversion H' as [? w Hw|? w ? Hw]; subst; try done;
    rewrite Hv in Hw; injection Hw as <-; [lia|lia|by apply IH].
Qed.

Lemma root_self P p r : root P p r -> root P r r.
Proof. intros (v & Hv & Hle)%root_fix. by eapply root_here. Qed.

Lemma root_range P p r : root P p r -> 0 <= r < Z.of_nat (length P).
Proof. intros (v & Hv & _)%root_fix. by eapply vget_range. Qed.

Lemma root_start P p r : root P p r -> 0 <= p < Z.of_nat (length P).
Proof. intros []; by eapply vget_range. Qed.

Lemma root_pos P p r : root P p r -> 0 < p -> 0 < r.
Proof. induction 1; auto. Qed.

(** A size that grows towards the root. *)
Definition sz (S : list Z) (p : Z) : Z := default 0 (vget S p).
Definition forest (S P : list Z) : Prop :=
  length S = length P /\
  forall p v, vget P p = Some v -> 0 < sz S p /\ v < Z.of_nat (length P) /\ (0 < v -> sz S p < sz S v).

Lemma find_root_ok S P : forest S P -> forall fuel p vis,
  0 <= p < Z.of_nat (length P) -> NoDup vis -> (forall i, i ∈ vis -> 0 <= i < Z.of_nat (length P) /\ sz S i < sz S p) ->
  (length P <= 1 + fuel + length vis)%nat -> exists r, find_root fuel P p = Some r /\ root P p r.
Proof.
  intros [_ HF]. induction fuel as [|fuel IH]; intros p vis Hp Hd Hvis Hf; cbn [find_root];
    destruct (vget_total P p Hp) as [v Hv]; rewrite Hv; cbn [mbind option_bind];
    destruct (HF p v Hv) as (_ & Hlt & Hsz); (destruct (Z.ltb_spec 0 v) as [Hpos|]; [|exists p; split; [done|by eapply root_here]]).
  - exfalso. assert (Hb : (length (v :: p :: vis) <= length P)%nat); [|simpl in *; lia].
    specialize (Hsz Hpos). apply ids_bound.
    + constructor; [|constructor; [|done]].
      * intros [->|Hin]%elem_of_cons; [lia|]. apply Hvis in Hin as [_ ?]. lia.
      * intros Hin. apply Hvis in Hin as [_ ?]. lia.
    + intros i [->|[->|Hin]%elem_of_cons]%elem_of_cons; [lia|lia|]. by apply Hvis.
  - specialize (Hsz Hpos). destruct (IH v (p :: vis)) as (r & -> & Hr).
    + lia.
    + constructor; [|done]. intros Hin. apply Hvis in Hin as [_ ?]. lia.
    + intros i [->|Hin]%elem_of_cons; [lia|]. apply Hvis in Hin as [? ?]. lia.
    + simpl. lia.
    + exists r. split; [done|]. by eapply root_up.
Qed.

Lemma find_root_total S P p : forest S P -> 0 <= p < Z.of_nat (length P) ->
  exists r, find_root (length P) P p = Some r /\ root P p r.
Proof. intros HF Hp. apply (find_root_ok S P HF _ p []); [done|constructor|intros i Hi; by apply elem_of_nil in Hi|simpl; lia]. Qed.

Lemma root_total S P p : forest S P -> 0 <= p < Z.of_nat (length P) -> exists r, root P p r.
Proof. intros HF Hp. destruct (find_root_total S P p HF Hp) as (r & _ & Hr). by exists r. Qed.

(** Two forests over the same positions that agree one way agree. *)
Lemma root_iff S P P' : forest S P -> length P' = length P ->
  (forall q r, root P q r -> root P' q r) -> forall q r, root P' q r <-> root P q r.
Proof.
  intros HF Hl H q r. split; [|apply H]. intros Hr. destruct (root_total S P q HF) as [r' Hr'].
  { rewrite <- Hl. by eapply root_start. }
  by rewrite (root_det _ _ _ _ Hr (H _ _ Hr')).
Qed.

Lemma sz_root S P p r : forest S P -> root P p r -> sz S p <= sz S r.
Proof.
  intros [_ HF]. induction 1 as [|p v r Hv Hlt _ IH]; [lia|]. destruct (HF p v Hv) as (_ & _ & Hsz). specialize (Hsz Hlt). lia.
Qed.

(** Path compression. *)
Lemma compress_ok S P p r : forest S P -> root P p r ->
  exists P', compress (length P) P p r = Some P' /\ length P' = length P /\ forest S P' /\ forall q t, root P' q t <-> root P q t.
Proof.
  intros HF Hr. pose proof (root_start _ _ _ Hr) as Hp. destruct (length P) as [|n] eqn:En; [lia|]. cbn [compress].
  destruct (Z.eqb_spec p r) as [->|Hne]; [by exists P|]. rewrite <- En in *.
  rewrite vget_vset_eq by done. cbn [mbind option_bind]. assert (compress n (vset p r P) r r = Some (vset p r P)) as ->.
  { destruct n; cbn [compress]; by rewrite Z.eqb_refl. }
  assert (Hrp : 0 < r). { destruct Hr as [|p v r Hv Hlt Hr]; [done|]. by eapply root_pos. }
  assert (Hsz : sz S p < sz S r).
  { destruct Hr as [|p v r Hv Hlt Hr]; [done|]. pose proof (sz_root S P v r HF Hr).
    destruct HF as [_ HF]. destruct (HF p v Hv) as (_ & _ & H'). specialize (H' Hlt). lia. }
  pose proof (root_range _ _ _ Hr) as Hrr. eexists. split; [done|]. split; [apply length_vset|]. split.
  - destruct HF as [Hl HF]. split; [by rewrite length_vset|]. intros q v Hv. rewrite length_vset.
    destruct (Z.eq_dec q p) as [->|Hq].
    + rewrite vget_vset_eq in Hv by done. injection Hv as <-. destruct (vget_total P p Hp) as [w Hw].
      destruct (HF p w Hw) as (? & _). split; [done|]. split; [lia|done].
    + rewrite vget_vset_ne in Hv by done. by apply HF.
  - apply (root_iff S); [done|apply length_vset|]. intros q t Hq. induction Hq as [q v Hv Hle|q v t Hv Hlt Hq IH].
    + eapply root_here; [|done]. rewrite vget_vset_ne; [done|]. intros ->. apply Hne. eapply root_det; [|done]. by eapply root_here.
    + destruct (Z.eq_dec q p) as [->|Hqp]; [|eapply root_up; [by rewrite vget_vset_ne|done|done]].
      assert (t = r) as -> by (eapply root_det; [by eapply root_up|done]).
      eapply root_up; [by apply vget_vset_eq|done|]. destruct (root_fix _ _ _ Hr) as (w & Hw & Hle).
      eapply root_here; [|done]. by rewrite vget_vset_ne.
Qed.

(** Linking the root [ry] below the root [rx]. *)
Lemma root_link P rx ry q r : root P rx rx -> root P ry ry -> rx <> ry -> root P q r ->
  root (vset ry rx P) q (if (r =? ry) && (0 <? rx) then rx else r).
Proof.
  intros Hrx Hry Hne Hq. pose proof (root_range _ _ _ Hry) as Hin.
  assert (Hx : root (vset ry rx P) rx rx).
  { destruct (root_fix _ _ _ Hrx) as (v & Hv & Hle). eapply root_here; [by rewrite vget_vset_ne|done]. }
  induction Hq as [q v Hv Hle|q v t Hv Hlt Hq IH].
  - destruct (Z.eqb_spec q ry) as [->|Hqy]; cbn [andb].
    + destruct (Z.ltb_spec 0 rx); [by eapply root_up; [apply vget_vset_eq| |]|].
      by eapply root_here; [apply vget_vset_eq|].
    + eapply root_here; [by rewrite vget_vset_ne|done].
  - destruct (Z.eq_dec q ry) as [->|Hqy].
    + exfalso. destruct (root_fix _ _ _ Hry) as (w & Hw & Hle). rewrite Hv in Hw. injection Hw as <-. lia.
    + eapply root_up; [by rewrite vget_vset_ne|done|done].
Qed.

Lemma forest_link S P rx ry : forest S P -> root P rx rx -> root P ry ry -> rx <> ry -> sz S ry <= sz S rx ->
  forest (vset rx (sz S rx + sz S ry) S) (vset ry rx P).
Proof.
  intros [Hl HF] Hrx Hry Hne Hle. pose proof (root_range _ _ _ Hrx) as Hix. pose proof (root_range _ _ _ Hry) as Hiy.
  split; [by rewrite !length_vset|]. intros q v Hv. rewrite length_vset.
  assert (Hsz : forall p, sz (vset rx (sz S rx + sz S ry) S) p = if p =? rx then sz S rx + sz S ry else sz S p).
  { intros p. unfold sz. destruct (Z.eqb_spec p rx) as [->|]; [by rewrite vget_vset_eq by lia|by rewrite vget_vset_ne]. }
  destruct (root_fix _ _ _ Hrx) as (w & Hw & Hwl). destruct (root_fix _ _ _ Hry) as (w' & Hw' & Hwl').
  destruct (HF _ _ Hw) as (Hsx & _). destruct (HF _ _ Hw') as (Hsy & _). rewrite !Hsz.
  destruct (Z.eq_dec q ry) as [->|Hq].
  - rewrite vget_vset_eq in Hv by done. injection Hv as <-. destruct (Z.eqb_spec ry rx); [done|]. rewrite Z.eqb_refl.
    split; [done|]. split; lia.
  - rewrite vget_vset_ne in Hv by done. destruct (HF q v Hv) as (H1 & H2 & H3). destruct (Z.eqb_spec q rx) as [->|].
    + rewrite Hw in Hv. injection Hv as <-. split; [lia|]. split; lia.
    + split; [done|]. split; [done|]. intros Hpos. specialize (H3 Hpos). destruct (Z.eqb_spec v rx) as [->|]; lia.
Qed.

(** ** Paths of the raw forest *)
(** [anc raw e l]: [l] is the path from [e] up to its root. *)
Inductive anc (raw : list Z) : Z -> list Z -> Prop :=
| anc_stop e : e <= 0 -> anc raw e []
| anc_up e v l : 0 < e -> vget raw e = Some v -> anc raw v l -> anc raw e (e :: l).

Lemma anc_det raw e l l' : anc raw e l -> anc raw e l' -> l = l'.
Proof.
  intros H. revert l'. induction H as [e He|e v l He Hv _ IH]; intros l' H'; inversion H' as [? He'|? w ? He' Hw Hl']; subst; try done; try lia.
  rewrite Hv in Hw. injection Hw as <-. f_equal. by apply IH.
Qed.

Lemma anc_split raw e l l1 c l2 : anc raw e l -> l = l1 ++ c :: l2 -> anc raw c (c :: l2).
Proof.
  intros H. revert l1. induction H as [e He|e v l He Hv Hl IH]; intros l1 E; [by destruct l1|].
  destruct l1 as [|b l1]; simpl in E; injection E as -> ->; [by eapply anc_up|]. by eapply IH.
Qed.

Lemma anc_range raw e l c : anc raw e l -> c ∈ l -> 0 < c < Z.of_nat (length raw).
Proof.
  induction 1 as [e He|e v l He Hv Hl IH]; [by intros ?%elem_of_nil|].
  intros [->|Hc]%elem_of_cons; [|by apply IH]. apply vget_range in Hv. lia.
Qed.

Lemma anc_NoDup raw e l : anc raw e l -> NoDup l.
Proof.
  induction 1 as [e He|e v l He Hv Hl IH]; [constructor|]. constructor; [|done].
  intros (l1 & l2 & E)%list_elem_of_split. pose proof (anc_split _ _ _ _ _ _ Hl E) as H.
  assert (Hall : anc raw e (e :: l)) by by eapply anc_up.
  pose proof (anc_det _ _ _ _ H Hall) as Heq. injection Heq as Heq. apply (f_equal length) in Heq, E.
  rewrite length_app in E. simpl in E. lia.
Qed.

Lemma anc_first raw e l : anc raw e l -> 0 < e -> exists l', l = e :: l'.
Proof. intros [] ?; [lia|eauto]. Qed.

Lemma ancestors_loop_ok raw e l : anc raw e l -> forall fuel, (length l <= fuel)%nat -> ancestors_loop fuel raw e = Some l.
Proof.
  induction 1 as [e He|e v l He Hv Hl IH]; intros fuel Hf.
  - destruct fuel; cbn [ancestors_loop]; by destruct (Z.ltb_spec 0 e); [lia|].
  - destruct fuel as [|fuel]; [simpl in Hf; lia|]. cbn [ancestors_loop]. destruct (Z.ltb_spec 0 e); [|lia].
    rewrite Hv. cbn [mbind option_bind]. rewrite IH; [done|simpl in Hf; lia].
Qed.

Lemma ancestors_ok raw e l : anc raw e l -> ancestors raw e = Some l.
Proof.
  intros H. apply ancestors_loop_ok; [done|]. apply ids_bound; [by eapply anc_NoDup|].
  intros i Hi. pose proof (anc_range _ _ _ _ H Hi). lia.
Qed.

(** The element before [z] in a path. *)
Fixpoint pred_in (l : list Z) (z : Z) : option Z :=
  match l with
  | a :: (b :: _) as l => if z =? b then Some a else pred_in l z
  | _ => None
  end.

Lemma pred_in_notin l z : z ∉ l -> pred_in l z = None.
Proof.
  induction l as [|a [|b l] IH]; intros Hz; try done. cbn [pred_in] in *. destruct (Z.eqb_spec z b) as [->|]; [set_solver|].
  apply IH. set_solver.
Qed.

Lemma pred_in_head a l : NoDup (a :: l) -> pred_in (a :: l) a = None.
Proof.
  intros [Ha _]%NoDup_cons. destruct l as [|b l]; [done|]. cbn [pred_in]. destruct (Z.eqb_spec a b) as [->|]; [set_solver|].
  apply (pred_in_notin (b :: l)). set_solver.
Qed.

Lemma pred_in_split l1 b a l2 : NoDup (l1 ++ b :: a :: l2) -> pred_in (l1 ++ b :: a :: l2) a = Some b.
Proof.
  induction l1 as [|c l1 IH]; intros Hd.
  - cbn [app pred_in]. by rewrite Z.eqb_refl.
  - apply NoDup_cons in Hd as [Hc Hd]. specialize (IH Hd). cbn [app]. destruct l1 as [|d l1]; cbn [app pred_in] in *.
    + destruct (Z.eqb_spec a b) as [->|]; [|done]. apply NoDup_cons in Hd as [Hb _]. set_solver.
    + destruct (Z.eqb_spec a d) as [->|]; [|done]. apply NoDup_cons in Hd as [Hb _]. set_solver.
Qed.

Lemma pred_in_edge raw e l z b : anc raw e l -> pred_in l z = Some b -> 0 < b /\ vget raw b = Some z /\ b ∈ l /\ z ∈ l.
Proof.
  induction 1 as [e He|e v l He Hv Hl IH]; [done|]. destruct Hl as [v Hle|v w l Hlt Hw Hl]; [done|].
  cbn [pred_in]. destruct (Z.eqb_spec z v) as [->|].
  - intros [= <-]. split; [done|]. split; [done|]. set_solver.
  - intros Hp. destruct (IH Hp) as (? & ? & ? & ?). split; [done|]. split; [done|]. set_solver.
Qed.

(** ** Reversing a path *)
Lemma reverse_path_app l1 l2 raw : reverse_path (l1 ++ l2) raw =
  '(r1, o1) ← reverse_path l1 raw; '(r2, o2) ← reverse_path l2 r1; Some (r2, o1 || o2).
Proof.
  revert raw. induction l1 as [|c l1 IH]; intros raw; cbn [app reverse_path].
  - cbn [mbind option_bind]. by destruct (reverse_path l2 raw) as [[]|].
  - destruct (vget raw c) as [rp|]; [|done]. cbn [mbind option_bind]. rewrite IH.
    destruct (reverse_path l1 _) as [[r1 o1]|]; [|done]. cbn [mbind option_bind].
    destruct (reverse_path l2 r1) as [[r2 o2]|]; [|done]. cbn [mbind option_bind]. by rewrite orb_assoc.
Qed.

Lemma reverse_path_ok raw e l : anc raw e l -> exists raw' out,
  reverse_path (rev l) raw = Some (raw', out) /\ length raw' = length raw /\
  forall z, 0 < z -> vget raw' z = match pred_in l z with Some a => Some a | None => vget raw z end.
Proof.
  induction 1 as [e He|e v l He Hv Hl IH]; [by exists raw, false|].
  destruct IH as (raw1 & o1 & Hr & Hlen & Hspec). cbn [rev]. rewrite reverse_path_app, Hr. cbn [mbind option_bind reverse_path].
  assert (Hnd : NoDup (e :: l)) by (eapply anc_NoDup; by eapply anc_up).
  apply NoDup_cons in Hnd as [Hel Hnd]. rewrite (Hspec e He), (pred_in_notin l e Hel), Hv. cbn [mbind option_bind].
  do 2 eexists. split; [done|]. split; [by rewrite length_vset|]. intros z Hz.
  destruct Hl as [v Hle|v w l Hlt Hw Hl].
  - rewrite vget_vset_ne by lia. by rewrite Hspec.
  - cbn [pred_in]. destruct (Z.eqb_spec z v) as [->|Hne].
    + apply vget_vset_eq. rewrite Hlen. by eapply vget_range.
    + rewrite vget_vset_ne by done. by rewrite Hspec.
Qed.

(** The forest after the path of [y] has been reversed and [y] hung below
    [x], whose own path is disjoint from it. *)
Section Reversal.
Variables (raw raw' : list Z) (x y : Z) (lx ly : list Z).
Hypothesis Hx : anc raw x lx.
Hypothesis Hy : anc raw y ly.
Hypothesis Hdisj : forall c, c ∈ lx -> c ∈ ly -> False.
Hypothesis Hraw : forall z, 0 < z -> vget raw' z = if z =? y then Some x else
  match pred_in ly z with Some a => Some a | None => vget raw z end.

Lemma y_in : 0 < y -> y ∈ ly.
Proof. intros Hpos. destruct (anc_first _ _ _ Hy Hpos) as [l ->]. by left. Qed.

Lemma untouched z : 0 < z -> z ∉ ly -> vget raw' z = vget raw z.
Proof.
  intros Hz Hn. rewrite Hraw by done. destruct (Z.eqb_spec z y) as [->|]; [by destruct Hn; apply y_in|]. by rewrite pred_in_notin.
Qed.

Lemma anc_untouched z l : anc raw z l -> (forall c, c ∈ l -> c ∈ ly -> False) -> anc raw' z l.
Proof.
  induction 1 as [e He|e v l He Hv Hl IH]; intros Hd; [by apply anc_stop|]. eapply anc_up; [done| |].
  - rewrite untouched; [done|done|]. intros Hin. eapply Hd; [by left|done].
  - apply IH. intros c Hc. apply Hd. by right.
Qed.

Lemma anc_reversed l1 : forall a l2, ly = l1 ++ a :: l2 -> exists l, anc raw' a (l ++ lx).
Proof.
  induction l1 as [|b l1 IH] using rev_ind; intros a l2 E.
  - pose proof Hy as H. rewrite E in H. assert (y = a) as Ey by (by inversion H).
    assert (Hpos : 0 < a) by (eapply anc_range; [apply H|by left]). exists [a].
    eapply anc_up; [done| |by apply anc_untouched]. rewrite Hraw by done. by rewrite Ey, Z.eqb_refl.
  - rewrite <- app_assoc in E. cbn [app] in E. destruct (IH b (a :: l2) E) as [l Hl].
    exists (a :: l). pose proof (anc_NoDup _ _ _ Hy) as Hnd. rewrite E in Hnd.
    assert (Hpos : 0 < a) by (eapply anc_range; [apply Hy|]; rewrite E; set_solver).
    eapply anc_up; [done| |done]. rewrite Hraw by done. destruct (Z.eqb_spec a y) as [->|].
    + exfalso. destruct (anc_first _ _ _ Hy Hpos) as [l' E']. rewrite E in E'. destruct l1 as [|d l1]; injection E' as -> E'.
      * apply NoDup_cons in Hnd as [Hn _]. set_solver.
      * apply NoDup_cons in Hnd as [Hn _]. set_solver.
    + rewrite E, pred_in_split by done. done.
Qed.

(** Every node keeps a path: the old one, or one that ends like [x]'s. *)
Lemma anc_linked z l : anc raw z l ->
  exists l', anc raw' z l' /\ ((l' = l /\ forall c, c ∈ l -> c ∈ ly -> False) \/
                             ((exists c, c ∈ l /\ c ∈ ly) /\ exists l1, l' = l1 ++ lx)).
Proof.
  induction 1 as [e He|e v l He Hv Hl IH].
  - exists []. split; [by apply anc_stop|]. left. split; [done|]. by intros c ?%elem_of_nil.
  - destruct (decide (e ∈ ly)) as [Hin|Hin].
    + apply list_elem_of_split in Hin as (l1 & l2 & E). destruct (anc_reversed l1 e l2 E) as [l' Hl'].
      exists (l' ++ lx). split; [done|]. right. split; [|by eexists]. exists e. split; [by left|]. rewrite E. set_solver.
    + destruct IH as (l' & Hl' & IH). exists (e :: l').
      assert (Hv' : vget raw' e = Some v) by by rewrite untouched. split; [by eapply anc_up|].
      destruct IH as [[-> Hd]|[(c & Hc & Hc') (l1 & ->)]].
      * left. split; [done|]. intros c [->|Hc]%elem_of_cons; [done|by apply Hd].
      * right. split; [exists c; set_solver|]. by exists (e :: l1).
Qed.
End Reversal.

(** ** The invariant of the structure *)
(** Both vectors are forests over the same identifiers, and neighbours in the
    raw forest have the same root. *)
Record inv (s : dj_set_expl) : Prop := {
  inv_id : latestId s = Z.of_nat (length (parents s));
  inv_forest : forest (sizes s) (parents s);
  inv_len : length (raw_parents s) = length (parents s);
  inv_anc e : e < latestId s -> exists l, anc (raw_parents s) e l;
  inv_same z v : 0 < z -> 0 < v -> vget (raw_parents s) z = Some v ->
    exists r, root (parents s) z r /\ root (parents s) v r }.

Definition with_parents (s : dj_set_expl) (P : list Z) : dj_set_expl :=
  Dj (latestId s) (equations s) (sizes s) P (raw_parents s) (overrun s).

(** [rep] answers the root and only compresses paths. *)
Lemma rep_ok s a : inv s -> 0 <= a < latestId s -> exists r P,
  rep s a = Some (r, with_parents s P) /\ root (parents s) a r /\ inv (with_parents s P) /\
  forall q t, root P q t <-> root (parents s) q t.
Proof.
  intros [Hid HF Hlen Hanc Hsame] Ha. rewrite Hid in Ha. unfold rep.
  destruct (find_root_total _ _ a HF Ha) as (r & -> & Hr). cbn [mbind option_bind].
  destruct (compress_ok _ _ a r HF Hr) as (P & -> & Hl & HF' & Hroot). cbn [mbind option_bind].
  exists r, P. split; [done|]. split; [done|]. split; [|done]. split; simpl; try done; try lia.
  intros z v Hz Hv E. destruct (Hsame z v Hz Hv E) as (t & ? & ?). exists t. by rewrite !Hroot.
Qed.

(** The whole raw path of a node has its root. *)
Lemma anc_root s x l r c : inv s -> anc (raw_parents s) x l -> root (parents s) x r -> c ∈ l -> root (parents s) c r.
Proof.
  intros Hi H. induction H as [e He|e v l He Hv Hl IH]; intros Hr; [by intros ?%elem_of_nil|].
  intros [->|Hc]%elem_of_cons; [done|]. apply IH; [|done]. destruct Hl as [v Hle|v w l Hlt Hw Hl]; [by apply elem_of_nil in Hc|].
  destruct (inv_same s Hi e v He Hlt Hv) as (t & Ht & Ht'). by rewrite (root_det _ _ _ _ Hr Ht).
Qed.

Record linked (s s' : dj_set_expl) (rx ry x y : Z) : Prop := {
  lk_inv : inv s';
  lk_id : latestId s' = latestId s;
  lk_equations : equations s' = equations s ++ [(x, y)];
  lk_root q r : root (parents s) q r -> root (parents s') q (if (r =? ry) && (0 <? rx) then rx else r);
  lk_anc lx ly z l : anc (raw_parents s) x lx -> anc (raw_parents s) y ly -> anc (raw_parents s) z l ->
    exists l', anc (raw_parents s') z l' /\ ((l' = l /\ forall c, c ∈ l -> c ∈ ly -> False) \/
      ((exists c, c ∈ l /\ c ∈ ly) /\ exists l1, l' = l1 ++ lx));
  lk_raw z v : 0 < z -> vget (raw_parents s') z = Some v ->
    (z = y /\ v = x) \/ (0 < v /\ vget (raw_parents s) v = Some z) \/ vget (raw_parents s) z = Some v }.

Lemma vget_sz S p : 0 <= p < Z.of_nat (length S) -> vget S p = Some (sz S p).
Proof. intros Hp. unfold sz. by destruct (vget_total S p Hp) as [v ->]. Qed.

Lemma link_ok s rx ry x y : inv s -> root (parents s) x rx -> root (parents s) y ry -> rx <> ry ->
  sz (sizes s) ry <= sz (sizes s) rx ->
  exists s', link s rx ry x y = Some (Z.of_nat (length (equations s)), s') /\ linked s s' rx ry x y.
Proof.
  intros Hi Hx Hy Hne Hsz. pose proof Hi as [Hid HF Hlen Hanc Hsame]. pose proof (root_range _ _ _ Hx) as Hrx.
  pose proof (root_range _ _ _ Hy) as Hry. pose proof (root_start _ _ _ Hx). pose proof (root_start _ _ _ Hy).
  pose proof HF as [HFl _]. unfold link. rewrite !vget_sz by lia. cbn [mbind option_bind].
  destruct (Hanc x) as [lx Hlx]; [lia|]. destruct (Hanc y) as [ly Hly]; [lia|].
  rewrite (ancestors_ok _ _ _ Hly). cbn [mbind option_bind].
  destruct (reverse_path_ok _ _ _ Hly) as (raw1 & out & -> & Hl1 & Hspec). cbn [mbind option_bind].
  eexists. split; [f_equal; f_equal; rewrite length_app; simpl; lia|].
  set (raw' := vset y x raw1). assert (Hraw : forall z, 0 < z -> vget raw' z = if z =? y then Some x else
    match pred_in ly z with Some a => Some a | None => vget (raw_parents s) z end).
  { intros z Hz. unfold raw'. destruct (Z.eqb_spec z y) as [->|]; [apply vget_vset_eq; lia|]. rewrite vget_vset_ne by done. by apply Hspec. }
  assert (Hdisj : forall c, c ∈ lx -> c ∈ ly -> False).
  { intros c H1 H2. apply Hne. exact (root_det _ c _ _ (anc_root s x lx rx c Hi Hlx Hx H1) (anc_root s y ly ry c Hi Hly Hy H2)). }
  assert (Hrawc : forall z v, 0 < z -> vget raw' z = Some v ->
    (z = y /\ v = x) \/ (0 < v /\ vget (raw_parents s) v = Some z) \/ vget (raw_parents s) z = Some v).
  { intros z v Hz. rewrite Hraw by done. destruct (Z.eqb_spec z y) as [->|]; [intros [= <-]; by left|].
    destruct (pred_in ly z) as [b|] eqn:E; [|by right; right]. intros [= <-].
    destruct (pred_in_edge _ _ _ _ _ Hly E) as (? & ? & _). by right; left. }
  pose proof (root_self _ _ _ Hx) as Hxx. pose proof (root_self _ _ _ Hy) as Hyy.
  assert (Hlink := fun q r => root_link _ _ _ q r Hxx Hyy Hne).
  split; simpl; try done.
  - split; simpl.
    + by rewrite length_vset.
    + by apply forest_link.
    + unfold raw'. rewrite !length_vset. lia.
    + intros e He. destruct (Hanc e He) as [l Hl]. destruct (anc_linked _ _ _ _ _ _ Hlx Hly Hdisj Hraw e l Hl) as (l' & Hl' & _).
      by exists l'.
    + intros z v Hz Hv E. destruct (Hrawc z v Hz E) as [[-> ->]|[[_ E']|E']].
      * exists rx. pose proof (root_pos _ _ _ Hx Hv). pose proof (Hlink _ _ Hy) as HA. pose proof (Hlink _ _ Hx) as HB.
        rewrite Z.eqb_refl in HA. destruct (Z.eqb_spec rx ry); [done|]. destruct (Z.ltb_spec 0 rx); [|lia]. done.
      * destruct (Hsame v z Hv Hz E') as (t & Ht & Ht'). eexists. split; by apply Hlink.
      * destruct (Hsame z v Hz Hv E') as (t & Ht & Ht'). eexists. split; by apply Hlink.
  - intros lx' ly' z l Hlx' Hly' Hl. rewrite (anc_det _ _ _ _ Hlx' Hlx), (anc_det _ _ _ _ Hly' Hly).
    by apply (anc_linked _ _ _ _ _ _ Hlx Hly Hdisj Hraw).
Qed.

(** [set_union] always returns; two classes are linked, in one order or the
    other, or nothing changes but the compression. *)
Lemma set_union_ok s x y : inv s -> 0 <= x < latestId s -> 0 <= y < latestId s ->
  exists eq s', set_union s x y = Some (eq, s') /\ inv s' /\ latestId s' = latestId s /\
  exists rx ry P, root (parents s) x rx /\ root (parents s) y ry /\ inv (with_parents s P) /\
    (forall q t, root P q t <-> root (parents s) q t) /\
    if rx =? ry then eq = -1 /\ s' = with_parents s P
    else eq = Z.of_nat (length (equations s)) /\
      (linked (with_parents s P) s' rx ry x y \/ linked (with_parents s P) s' ry rx y x).
Proof.
  intros Hi Hx Hy. unfold set_union. destruct (rep_ok s x Hi Hx) as (rx & P1 & -> & Hrx & Hi1 & Hr1). cbn [mbind option_bind].
  destruct (rep_ok _ y Hi1 Hy) as (ry & P & -> & Hry & Hi2 & Hr2). cbn [mbind option_bind].
  change (with_parents (with_parents s P1) P) with (with_parents s P) in *. simpl in Hry, Hr2. apply Hr1 in Hry.
  assert (Hr : forall q t, root P q t <-> root (parents s) q t) by (intros; by rewrite Hr2, Hr1).
  destruct (Z.eqb_spec rx ry) as [->|Hne].
  { do 2 eexists. split; [done|]. split; [done|]. split; [done|]. exists ry, ry, P. rewrite Z.eqb_refl. by split_and!. }
  assert (Hx' : root (parents (with_parents s P)) x rx) by by apply Hr.
  assert (Hy' : root (parents (with_parents s P)) y ry) by by apply Hr.
  pose proof (root_range _ _ _ Hx'). pose proof (root_range _ _ _ Hy'). pose proof (proj1 (inv_forest _ Hi2)).
  rewrite !vget_sz by (simpl in *; lia). cbn [mbind option_bind].
  destruct (Z.ltb_spec (sz (sizes (with_parents s P)) rx) (sz (sizes (with_parents s P)) ry)).
  - destruct (link_ok (with_parents s P) ry rx y x Hi2 Hy' Hx' ltac:(done) ltac:(lia)) as (s' & -> & Hl).
    do 2 eexists. split; [done|]. split; [by eapply lk_inv|]. split; [by rewrite (lk_id _ _ _ _ _ _ Hl)|].
    exists rx, ry, P. destruct (Z.eqb_spec rx ry); [done|]. split_and!; try done. by right.
  - destruct (link_ok (with_parents s P) rx ry x y Hi2 Hx' Hy' Hne ltac:(lia)) as (s' & -> & Hl).
    do 2 eexists. split; [done|]. split; [by eapply lk_inv|]. split; [by rewrite (lk_id _ _ _ _ _ _ Hl)|].
    exists rx, ry, P. destruct (Z.eqb_spec rx ry); [done|]. split_and!; try done. by left.
Qed.

Lemma root_app P x q r : root P q r -> root (P ++ [x]) q r.
Proof.
  assert (Hg : forall p v, vget P p = Some v -> vget (P ++ [x]) p = Some v).
  { intros p v Hv. pose proof (vget_range _ _ _ Hv). rewrite vget_app. by destruct (Z.eqb_spec p (Z.of_nat (length P))); [lia|]. }
  induction 1; [eapply root_here|eapply root_up]; eauto.
Qed.

Lemma anc_app raw x e l : anc raw e l -> anc (raw ++ [x]) e l.
Proof.
  induction 1 as [e He|e v l He Hv Hl IH]; [by apply anc_stop|]. eapply anc_up; [done| |done].
  pose proof (vget_range _ _ _ Hv). rewrite vget_app. by destruct (Z.eqb_spec e (Z.of_nat (length raw))); [lia|].
Qed.

Lemma newid_ok s : inv s -> inv (newid s).2 /\ root (parents (newid s).2) (latestId s) (latestId s) /\
  anc (raw_parents (newid s).2) (latestId s) (if 0 <? latestId s then [latestId s] else []).
Proof.
  intros [Hid [HFl HF] Hlen Hanc Hsame]. unfold newid. simpl.
  assert (Hnew : root (parents s ++ [-1]) (latestId s) (latestId s)).
  { eapply (root_here _ _ (-1)); [|lia]. rewrite vget_app, Hid. by rewrite Z.eqb_refl. }
  assert (Ha : anc (raw_parents s ++ [-1]) (latestId s) (if 0 <? latestId s then [latestId s] else [])).
  { destruct (Z.ltb_spec 0 (latestId s)); [|by apply anc_stop]. eapply (anc_up _ _ (-1)); [done| |by apply anc_stop].
    rewrite vget_app, Hid, <- Hlen. by rewrite Z.eqb_refl. }
  split; [|done]. split; simpl.
  - rewrite length_app, Hid. simpl. lia.
  - split; [rewrite !length_app; simpl; lia|]. intros p v. rewrite vget_app, length_app. simpl.
    assert (Hs : forall q, sz (sizes s ++ [1]) q = if q =? Z.of_nat (length (parents s)) then 1 else sz (sizes s) q).
    { intros q. unfold sz. rewrite vget_app, HFl. by destruct (Z.eqb_spec q (Z.of_nat (length (parents s)))). }
    rewrite !Hs. destruct (Z.eqb_spec p (Z.of_nat (length (parents s)))) as [->|].
    + intros [= <-]. split; [lia|]. split; lia.
    + intros Hv. destruct (HF p v Hv) as (H1 & H2 & H3). split; [done|]. split; [lia|].
      by destruct (Z.eqb_spec v (Z.of_nat (length (parents s)))); [lia|].
  - rewrite !length_app. simpl. lia.
  - intros e He. destruct (Z.eq_dec e (latestId s)) as [->|]; [by eexists|].
    destruct (Hanc e ltac:(lia)) as [l Hl]. exists l. by apply anc_app.
  - intros z v Hz Hv. rewrite vget_app. destruct (z =? Z.of_nat (length (raw_parents s))); [intros [= <-]; lia|].
    intros E. destruct (Hsame z v Hz Hv E) as (r & ? & ?). exists r. split; by apply root_app.
Qed.

Lemma inv_empty : inv empty_set.
Proof.
  split; simpl; try done.
  - split; [done|]. intros p v Hv%vget_range. simpl in Hv. lia.
  - intros e He. exists []. apply anc_stop. lia.
  - intros z v _ _ Hv%vget_range. simpl in Hv. lia.
Qed.

(** ** The classes *)
(** The least equivalence relation that contains the pairs. *)
Definition conn (E : list (Z * Z)) : relation Z := rtsc (fun a b => (a, b) ∈ E).

Lemma conn_mono E E' x y : (forall a b, (a, b) ∈ E -> conn E' a b) -> conn E x y -> conn E' x y.
Proof.
  intros Hs H. unfold conn in H. induction H as [x|x z y [Hxz|Hxz] _ IH]; [done| |].
  - etrans; [by apply Hs|done].
  - etrans; [symmetry; by apply Hs|done].
Qed.

Lemma conn_pair E a b : (a, b) ∈ E -> conn E a b.
Proof. intros H. apply rtc_once. by left. Qed.

(** [s] is the state after the equations [E] have been asserted. *)
Record tracks (E : list (Z * Z)) (s : dj_set_expl) : Prop := {
  tr_equations a b : (a, b) ∈ equations s -> (a, b) ∈ E \/ (b, a) ∈ E;
  tr_root a b : (a, b) ∈ E -> exists r, root (parents s) a r /\ root (parents s) b r;
  tr_conn p r : 0 < p -> root (parents s) p r -> conn (equations s) p r;
  tr_raw z v : 0 < z -> 0 < v -> vget (raw_parents s) z = Some v -> (z, v) ∈ equations s \/ (v, z) ∈ equations s;
  tr_last p q r lp lq : 0 < p -> 0 < q -> root (parents s) p r -> root (parents s) q r ->
    anc (raw_parents s) p lp -> anc (raw_parents s) q lq -> last lp = last lq }.

Lemma tracks_compressed E s P : (forall q t, root P q t <-> root (parents s) q t) -> tracks E s -> tracks E (with_parents s P).
Proof.
  intros Hr [H1 H2 H3 H4 H5]. split; simpl; try done.
  - intros a b Hab. destruct (H2 a b Hab) as (r & ? & ?). exists r. by rewrite !Hr.
  - intros p r Hp. rewrite Hr. by apply H3.
  - intros p q r lp lq Hp Hq. rewrite !Hr. by apply H5.
Qed.

Lemma tracks_same E s a b r : root (parents s) a r -> root (parents s) b r -> tracks E s -> tracks ((a, b) :: E) s.
Proof.
  intros Ha Hb [H1 H2 H3 H4 H5]. split; try done.
  - intros x y Hxy. destruct (H1 x y Hxy); [left|right]; by right.
  - intros x y [[= -> ->]|Hxy]%elem_of_cons; [by exists r|by apply H2].
Qed.

Lemma last_app_ne {A} (l1 l2 : list A) : l2 <> [] -> last (l1 ++ l2) = last l2.
Proof. intros Hne. rewrite last_app. destruct l2 as [|a l2]; [done|]. destruct (last (a :: l2)) eqn:E; [done|]. by apply last_None in E. Qed.

(** Where a path ends after a link. *)
Lemma linked_last E s s' rx ry x y p r lx ly l l' : inv s -> tracks E s -> linked s s' rx ry x y -> 0 < x -> 0 < y -> 0 < p ->
  root (parents s) x rx -> root (parents s) y ry -> root (parents s) p r ->
  anc (raw_parents s) x lx -> anc (raw_parents s) y ly -> anc (raw_parents s) p l -> anc (raw_parents s') p l' ->
  last l' = if (r =? rx) || (r =? ry) then last lx else last l.
Proof.
  intros Hi Ht Hl Hx Hy Hp Hrx Hry Hr Hlx Hly Hlp Hlp'.
  destruct (lk_anc _ _ _ _ _ _ Hl lx ly p l Hlx Hly Hlp) as (l'' & Hl'' & Hcase). rewrite (anc_det _ _ _ _ Hlp' Hl''). clear l' Hlp'.
  destruct (anc_first _ _ _ Hlx Hx) as [lx' ->]. destruct (anc_first _ _ _ Hly Hy) as [ly' ->]. destruct (anc_first _ _ _ Hlp Hp) as [l' ->].
  destruct Hcase as [[-> Hd]|[(c & Hc & Hc') (l1 & ->)]].
  - destruct (Z.eqb_spec r rx) as [->|]; cbn [orb]; [exact (tr_last _ _ Ht p x rx _ _ Hp Hx Hr Hrx Hlp Hlx)|].
    destruct (Z.eqb_spec r ry) as [->|]; [|done]. exfalso.
    pose proof (tr_last _ _ Ht p y ry _ _ Hp Hy Hr Hry Hlp Hly) as Hlast.
    destruct (last (y :: ly')) as [c|] eqn:Ey; [|by apply last_None in Ey].
    apply last_Some_elem_of in Ey, Hlast. exact (Hd c Hlast Ey).
  - rewrite last_app_ne by done. assert (r = ry) as ->; [|by rewrite Z.eqb_refl, orb_true_r].
    exact (root_det _ c _ _ (anc_root s _ _ _ _ Hi Hlp Hr Hc) (anc_root s _ _ _ _ Hi Hly Hry Hc')).
Qed.

Lemma tracks_linked E s s' rx ry x y a b : inv s -> tracks E s -> linked s s' rx ry x y -> 0 < x -> 0 < y -> rx <> ry ->
  root (parents s) x rx -> root (parents s) y ry -> (a, b) = (x, y) \/ (a, b) = (y, x) -> tracks ((a, b) :: E) s'.
Proof.
  intros Hi Ht Hl Hx Hy Hne Hrx Hry Hab. pose proof (root_pos _ _ _ Hrx Hx) as Hprx.
  pose proof (lk_root _ _ _ _ _ _ Hl) as Hroot. destruct (Z.ltb_spec 0 rx) as [_|]; [|lia].
  assert (Hrooti : forall q r', root (parents s') q r' -> exists r, root (parents s) q r /\ r' = if r =? ry then rx else r).
  { intros q r' Hq. pose proof (root_start _ _ _ Hq) as Hs. pose proof (lk_inv _ _ _ _ _ _ Hl) as Hi'.
    rewrite <- (inv_id _ Hi'), (lk_id _ _ _ _ _ _ Hl), (inv_id _ Hi) in Hs.
    destruct (root_total _ _ q (inv_forest _ Hi) Hs) as [r Hr]. exists r. split; [done|].
    pose proof (Hroot q r Hr) as Hq'. rewrite andb_true_r in Hq'. by eapply root_det. }
  assert (Hmono : forall p q, conn (equations s) p q -> conn (equations s') p q).
  { intros p q. apply conn_mono. intros c d Hcd. apply conn_pair. rewrite (lk_equations _ _ _ _ _ _ Hl). set_solver. }
  assert (Hxy : conn (equations s') x y) by (apply conn_pair; rewrite (lk_equations _ _ _ _ _ _ Hl); set_solver).
  split.
  - intros c d. rewrite (lk_equations _ _ _ _ _ _ Hl), elem_of_app, list_elem_of_singleton.
    intros [Hcd|[= -> ->]]; [destruct (tr_equations _ _ Ht c d Hcd); [left|right]; by right|].
    destruct Hab as [[= -> ->]|[= -> ->]]; [left|right]; by left.
  - intros c d [[= -> ->]|Hcd]%elem_of_cons.
    + pose proof (Hroot _ _ Hrx) as HA. pose proof (Hroot _ _ Hry) as HB. rewrite Z.eqb_refl in HB.
      destruct (Z.eqb_spec rx ry); [done|]. exists rx. destruct Hab as [[= -> ->]|[= -> ->]]; by split.
    + destruct (tr_root _ _ Ht c d Hcd) as (r & Hc & Hd). eexists. split; by apply Hroot.
  - intros p r' Hp Hr'. destruct (Hrooti p r' Hr') as (r & Hr & ->). pose proof (Hmono _ _ (tr_conn _ _ Ht p r Hp Hr)) as Hpr.
    clear Hr' Hr. destruct (Z.eqb_spec r ry) as [Er|]; [rewrite Er in Hpr|done]. etrans; [done|]. etrans; [symmetry; by apply Hmono, (tr_conn _ _ Ht y)|].
    etrans; [by symmetry|]. by apply Hmono, (tr_conn _ _ Ht x).
  - intros z v Hz Hv E'. rewrite (lk_equations _ _ _ _ _ _ Hl), !elem_of_app, !list_elem_of_singleton.
    destruct (lk_raw _ _ _ _ _ _ Hl z v Hz E') as [[-> ->]|[[_ H]|H]]; [by right; right| |].
    + destruct (tr_raw _ _ Ht v z Hv Hz H); [right|left]; by left.
    + destruct (tr_raw _ _ Ht z v Hz Hv H); [left|right]; by left.
  - intros p q r' lp lq Hp Hq Hrp Hrq Hlp Hlq. destruct (Hrooti p r' Hrp) as (rp & Hrp' & ->). destruct (Hrooti q _ Hrq) as (rq & Hrq' & Heq).
    assert (Hanc : forall e r, root (parents s) e r -> exists l, anc (raw_parents s) e l).
    { intros e r He. apply (inv_anc _ Hi). rewrite (inv_id _ Hi). by apply root_start in He as [_ ?]. }
    destruct (Hanc x rx Hrx) as [lx Hlx]. destruct (Hanc y ry Hry) as [ly Hly]. destruct (Hanc p rp Hrp') as [l1 H1]. destruct (Hanc q rq Hrq') as [l2 H2].
    rewrite (linked_last E s s' rx ry x y p rp lx ly l1 lp) by done. rewrite (linked_last E s s' rx ry x y q rq lx ly l2 lq) by done.
    revert Heq. clear Hrp. destruct (Z.eqb_spec rp ry), (Z.eqb_spec rq ry), (Z.eqb_spec rp rx), (Z.eqb_spec rq rx); cbn [orb];
      intros Heq; try done; try congruence. rewrite <- Heq in Hrq'. exact (tr_last _ _ Ht p q rp _ _ Hp Hq Hrp' Hrq' H1 H2).
Qed.

Lemma tracks_new E s : inv s -> tracks E s -> tracks E (newid s).2.
Proof.
  intros Hi [H1 H2 H3 H4 H5]. pose proof (newid_ok s Hi) as (Hi' & Hnew & Hanew).
  assert (Hrooti : forall q r, root (parents (newid s).2) q r -> (q < latestId s /\ root (parents s) q r) \/ (q = latestId s /\ r = latestId s)).
  { intros q r Hq. pose proof (root_start _ _ _ Hq) as Hs. simpl in Hs. rewrite length_app in Hs. simpl in Hs. rewrite (inv_id _ Hi) in *.
    destruct (Z.eq_dec q (Z.of_nat (length (parents s)))) as [->|]; [right; split; [done|by eapply root_det]|left].
    split; [lia|]. destruct (root_total _ _ q (inv_forest _ Hi) ltac:(lia)) as [r' Hr']. pose proof (root_app _ (-1) _ _ Hr') as Hr''.
    by rewrite (root_det _ _ _ _ Hq Hr''). }
  split; try done.
  - intros a b Hab. destruct (H2 a b Hab) as (r & ? & ?). exists r. split; by apply root_app.
  - intros p r Hp Hr. destruct (Hrooti p r Hr) as [[_ Hr']|[-> ->]]; [by apply H3|done].
  - intros z v Hz Hv. simpl. rewrite vget_app. destruct (z =? Z.of_nat (length (raw_parents s))); [intros [= <-]; lia|]. by apply H4.
  - intros p q r lp lq Hp Hq Hrp Hrq Hlp Hlq.
    assert (Hold : forall e l, e < latestId s -> anc (raw_parents (newid s).2) e l -> anc (raw_parents s) e l).
    { intros e l He Hl. destruct (inv_anc _ Hi e He) as [l' Hl']. by rewrite (anc_det _ _ _ _ Hl (anc_app _ (-1) _ _ Hl')). }
    destruct (Hrooti p r Hrp) as [[Hp' Hrp']|[-> ->]], (Hrooti q _ Hrq) as [[Hq' Hrq']|[-> Hr]].
    + eapply (H5 p q r); try done; by apply Hold.
    + exfalso. apply root_range in Hrp'. rewrite <- (inv_id _ Hi) in Hrp'. lia.
    + exfalso. apply root_range in Hrq'. rewrite <- (inv_id _ Hi) in Hrq'. lia.
    + by rewrite (anc_det _ _ _ _ Hlp Hlq).
Qed.

(** ** Explanations *)
Lemma last_common_ok is_ js prev t : last_common is_ js prev = Some t -> (t ∈ is_ /\ t ∈ js) \/ prev = Some t.
Proof.
  revert js prev. induction is_ as [|a is_ IH]; intros [|b js] prev H; cbn [last_common] in H; try by right.
  destruct (Z.eqb_spec a b) as [->|]; [|by right]. destruct (IH _ _ H) as [[? ?]|[= ->]]; left; set_solver.
Qed.

Lemma last_common_Some is_ js a : is_Some (last_common is_ js (Some a)).
Proof. revert js a. induction is_ as [|b is_ IH]; intros [|c js] a; cbn [last_common]; try done. destruct (b =? c); [apply IH|done]. Qed.

Lemma elem_of_rev {A} (x : A) l : x ∈ rev l <-> x ∈ l.
Proof. rewrite !list_elem_of_In. symmetry. apply in_rev. Qed.

Lemma common_top lx ly : last lx = last ly -> lx <> [] -> exists t, last_common (rev lx) (rev ly) None = Some t /\ t ∈ lx /\ t ∈ ly.
Proof.
  intros E Hne. destruct lx as [|a lx' _] using rev_ind; [done|]. rewrite last_snoc in E. symmetry in E. apply last_Some in E as [ly' ->].
  rewrite !rev_unit. cbn [last_common]. rewrite Z.eqb_refl. destruct (last_common_Some (rev lx') (rev ly') a) as [t Ht]. exists t.
  split; [done|]. destruct (last_common_ok _ _ _ _ Ht) as [[H1 H2]|[= ->]]; [|set_solver].
  rewrite elem_of_rev in H1, H2. rewrite !elem_of_app. by split; left.
Qed.

Lemma climb_ok raw l1 : forall x t l2 fuel, anc raw x (l1 ++ t :: l2) -> t ∉ l1 -> (length l1 <= fuel)%nat ->
  exists es, climb fuel raw x t = Some es /\ conn es x t /\
    forall a b, (a, b) ∈ es -> 0 < a /\ 0 < b /\ vget raw a = Some b.
Proof.
  induction l1 as [|c l1 IH]; intros x t l2 fuel Hx Ht Hf.
  - assert (x = t) as -> by (by inversion Hx). exists []. split; [destruct fuel; cbn [climb]; by rewrite Z.eqb_refl|].
    split; [done|]. intros a b H. by apply elem_of_nil in H.
  - cbn [app] in Hx. assert (x = c) as -> by (by inversion Hx). destruct fuel as [|fuel]; [simpl in Hf; lia|]. cbn [climb].
    destruct (Z.eqb_spec c t) as [->|]; [set_solver|]. inversion Hx as [|? v ? Hpos Hv Hl]; subst. rewrite Hv. cbn [mbind option_bind].
    destruct (IH v t l2 fuel Hl ltac:(set_solver) ltac:(simpl in Hf; lia)) as (es & -> & Hc & He).
    exists ((c, v) :: es). split; [done|]. split.
    + etrans; [apply conn_pair; by left|]. eapply conn_mono; [|done]. intros a b Hab. apply conn_pair. by right.
    + intros a b [[= -> ->]|Hab]%elem_of_cons; [|by apply He]. split; [done|]. split; [|done].
      destruct l1; simpl in Hl; by inversion Hl.
Qed.

(** ** Programs over the structure *)
Inductive request := NewId | Union (x y : Z).
Definition serve (s : dj_set_expl) (r : request) : option dj_set_expl :=
  match r with NewId => Some (newid s).2 | Union x y => snd <$> set_union s x y end.
Fixpoint serve_all (rs : list request) (s : dj_set_expl) : option dj_set_expl :=
  match rs with [] => Some s | r :: rs => s ← serve s r; serve_all rs s end.
(** Every union is of identifiers that exist, other than 0. *)
Fixpoint valid (n : Z) (rs : list request) : Prop :=
  match rs with
  | [] => True
  | NewId :: rs => valid (n + 1) rs
  | Union x y :: rs => (0 < x < n /\ 0 < y < n) /\ valid n rs
  end.
Definition unions (rs : list request) : list (Z * Z) :=
  flat_map (fun r => match r with NewId => [] | Union x y => [(x, y)] end) rs.
Definition count_new (rs : list request) : Z :=
  Z.of_nat (length (List.filter (fun r => match r with NewId => true | Union _ _ => false end) rs)).

Lemma tracks_perm E E' s : (forall p, p ∈ E <-> p ∈ E') -> tracks E s -> tracks E' s.
Proof.
  intros H [H1 H2 H3 H4 H5]. split; try done.
  - intros a b Hab. rewrite <- !H. by apply H1.
  - intros a b Hab. apply H2. by apply H.
Qed.

Lemma serve_all_ok rs : forall s E, inv s -> tracks E s -> valid (latestId s) rs ->
  exists s', serve_all rs s = Some s' /\ inv s' /\ tracks (E ++ unions rs) s' /\ latestId s' = latestId s + count_new rs.
Proof.
  induction rs as [|[|x y] rs IH]; intros s E Hi Ht Hv; cbn [serve_all serve valid] in *.
  - exists s. rewrite app_nil_r. unfold count_new. simpl. rewrite Z.add_0_r. done.
  - cbn [mbind option_bind]. destruct (newid_ok s Hi) as (Hi' & _). destruct (IH (newid s).2 E Hi' (tracks_new E s Hi Ht) Hv) as (s' & ? & ? & ? & Hid).
    exists s'. split_and!; try done. rewrite Hid. unfold count_new. simpl. lia.
  - destruct Hv as [[Hx Hy] Hv]. destruct (set_union_ok s x y Hi ltac:(lia) ltac:(lia)) as (eq & s1 & -> & Hi1 & Hid1 & rx & ry & P & Hrx & Hry & HiP & HP & Hcase).
    cbn [fmap option_fmap option_map mbind option_bind snd].
    assert (Ht1 : tracks ((x, y) :: E) s1).
    { destruct (Z.eqb_spec rx ry) as [->|Hne].
      - destruct Hcase as [_ ->]. apply tracks_compressed; [done|]. by eapply tracks_same.
      - pose proof (tracks_compressed _ _ _ HP Ht) as HtP. destruct Hcase as [_ [Hl|Hl]].
        + eapply (tracks_linked E _ s1 rx ry x y); try done; try lia; [by apply HP|by apply HP|by left].
        + eapply (tracks_linked E _ s1 ry rx y x); try done; try lia; [by apply HP|by apply HP|by right]. }
    destruct (IH s1 _ Hi1 Ht1) as (s' & ? & ? & Ht' & Hid); [by rewrite Hid1|]. exists s'. split; [done|]. split; [done|]. split.
    + eapply tracks_perm; [|done]. intros p. cbn [unions flat_map]. rewrite !elem_of_app, !elem_of_cons. set_solver.
    + rewrite Hid, Hid1. unfold count_new. simpl. lia.
Qed.

Lemma tracks_empty : tracks [] empty_set.
Proof.
  split; simpl.
  - intros a b H. by apply elem_of_nil in H.
  - intros a b H. by apply elem_of_nil in H.
  - intros p r _ H%root_start. simpl in H. lia.
  - intros z v _ _ H%vget_range. simpl in H. lia.
  - intros p q r lp lq _ _ H%root_start. simpl in H. lia.
Qed.

(** Same root, same class. *)
Lemma root_conn E s x y rx ry : tracks E s -> inv s -> 0 < x -> 0 < y -> root (parents s) x rx -> root (parents s) y ry ->
  (rx = ry <-> conn E x y).
Proof.
  intros Ht Hi Hx Hy Hrx Hry. split.
  - intros ->. apply (conn_mono (equations s)).
    + intros a b Hab. destruct (tr_equations _ _ Ht a b Hab); [by apply conn_pair|symmetry; by apply conn_pair].
    + etrans; [by apply (tr_conn _ _ Ht)|]. symmetry. by apply (tr_conn _ _ Ht).
  - intros Hc. revert ry Hry. unfold conn in Hc. revert rx Hrx. clear Hx Hy. induction Hc as [x|x z y Hxz _ IH]; intros rx Hrx ry Hry.
    + by eapply root_det.
    + assert (Hz : exists r, root (parents s) x r /\ root (parents s) z r).
      { destruct Hxz as [H|H]; destruct (tr_root _ _ Ht _ _ H) as (r & ? & ?); by exists r. }
      destruct Hz as (r & H1 & H2). rewrite (root_det _ _ _ _ Hrx H1). by apply IH.
Qed.

(** The explanation of two identifiers of one class. *)
Lemma explain_into_ok E s x y r : tracks E s -> inv s -> 0 < x < latestId s -> 0 < y < latestId s ->
  root (parents s) x r -> root (parents s) y r ->
  exists es, explain_into s x y [] = Some es /\ conn es x y /\
    forall a b, (a, b) ∈ es -> (a, b) ∈ equations s \/ (b, a) ∈ equations s.
Proof.
  intros Ht Hi Hx Hy Hrx Hry. unfold explain_into. destruct (Z.eqb_spec x y) as [->|Hne].
  { exists []. split; [done|]. split; [done|]. intros a b H. by apply elem_of_nil in H. }
  destruct (inv_anc _ Hi x ltac:(lia)) as [lx Hlx]. destruct (inv_anc _ Hi y ltac:(lia)) as [ly Hly].
  rewrite (ancestors_ok _ _ _ Hlx), (ancestors_ok _ _ _ Hly). cbn [mbind option_bind].
  destruct (anc_first _ _ _ Hlx ltac:(lia)) as [lx' Ex].
  destruct (common_top lx ly) as (t & -> & Htx & Hty); [by eapply (tr_last _ _ Ht x y r); try lia|by subst lx|]. cbn [mbind option_bind].
  assert (Hclimb : forall z l, anc (raw_parents s) z l -> t ∈ l -> exists es, climb (length (raw_parents s)) (raw_parents s) z t = Some es /\
    conn es z t /\ forall a b, (a, b) ∈ es -> (a, b) ∈ equations s \/ (b, a) ∈ equations s).
  { intros z l Hl (l1 & l2 & ->)%list_elem_of_split. pose proof (anc_NoDup _ _ _ Hl) as Hnd.
    assert (Hb : (length (l1 ++ t :: l2) <= length (raw_parents s))%nat).
    { apply ids_bound; [done|]. intros i Hi'. pose proof (anc_range _ _ _ _ Hl Hi'). lia. }
    rewrite length_app in Hb. destruct (climb_ok _ l1 z t l2 (length (raw_parents s)) Hl) as (es & ? & ? & He).
    - apply NoDup_app in Hnd as (_ & Hd & _). intros Hin. by eapply Hd; [|left].
    - lia.
    - exists es. split; [done|]. split; [done|]. intros a b Hab. destruct (He a b Hab) as (? & ? & ?). by apply (tr_raw _ _ Ht). }
  destruct (Hclimb x lx Hlx Htx) as (ex & -> & Hcx & Hex). destruct (Hclimb y ly Hly Hty) as (ey & -> & Hcy & Hey). cbn [mbind option_bind].
  eexists. split; [done|]. cbn [app]. split.
  - etrans; [eapply conn_mono; [|apply Hcx]|symmetry; eapply conn_mono; [|apply Hcy]]; intros a b Hab; apply conn_pair; set_solver.
  - intros a b [Hab|Hab]%elem_of_app; [by apply Hex|by apply Hey].
Qed.

(** Whether two identifiers have the same representative. *)
Definition same_class (s : dj_set_expl) (x y : Z) : option bool :=
  '(rx, s) ← rep s x; '(ry, _) ← rep s y; Some (rx =? ry).

Lemma same_class_ok E s x y : tracks E s -> inv s -> 0 < x < latestId s -> 0 < y < latestId s ->
  exists b, same_class s x y = Some b /\ (b = true <-> conn E x y).
Proof.
  intros Ht Hi Hx Hy. unfold same_class. destruct (rep_ok s x Hi ltac:(lia)) as (rx & P & -> & Hrx & HiP & HP). cbn [mbind option_bind].
  destruct (rep_ok _ y HiP ltac:(simpl; lia)) as (ry & P' & -> & Hry & _ & _). cbn [mbind option_bind]. simpl in Hry.
  eexists. split; [done|]. rewrite Z.eqb_eq. eapply root_conn; [done|done|lia|lia|done|by apply HP].
Qed.

Lemma explain_ok E s x y : tracks E s -> inv s -> 0 < x < latestId s -> 0 < y < latestId s ->
  exists es s', explain s x y = Some (es, s') /\ (forall a b, (a, b) ∈ es -> (a, b) ∈ E \/ (b, a) ∈ E) /\ (conn E x y -> conn es x y).
Proof.
  intros Ht Hi Hx Hy. unfold explain. destruct (rep_ok s x Hi ltac:(lia)) as (rx & P1 & -> & Hrx & HiP & HP1). cbn [mbind option_bind].
  destruct (rep_ok _ y HiP ltac:(simpl; lia)) as (ry & P & -> & Hry & Hi' & HP'). cbn [mbind option_bind].
  change (with_parents (with_parents s P1) P) with (with_parents s P) in *. simpl in Hry, HP'. apply HP1 in Hry.
  assert (HP : forall q t, root P q t <-> root (parents s) q t) by (intros; by rewrite HP', HP1).
  destruct (Z.eqb_spec rx ry) as [->|Hne]; cbn [negb].
  - destruct (explain_into_ok E (with_parents s P) x y ry) as (es & -> & Hc & He); [by apply tracks_compressed|done|done|done|by apply HP|by apply HP|].
    cbn [mbind option_bind]. do 2 eexists. split; [done|]. split; [|done]. intros a b Hab. simpl in He.
    destruct (He a b Hab) as [H|H]; destruct (tr_equations _ _ Ht _ _ H); by auto.
  - do 2 eexists. split; [done|]. split; [intros a b H; by apply elem_of_nil in H|]. intros Hc. exfalso. apply Hne.
    by eapply (root_conn E s x y); try lia.
Qed.
