(* ===== verification/CongruenceFacts.v ===== *)
(** * Theorems on congruence closure: the [Congruence] part of [DjSet.v] *)
From S2P Require Import Prelude DjSet DjSetFacts.
Import DjSetExpl Congruence.

(** ** The equations that follow from the asserted ones *)
Inductive cong (G : list equality) : var_t -> var_t -> Prop :=
| cong_refl x : cong G x x
| cong_sym x y : cong G x y -> cong G y x
| cong_trans x y z : cong G x y -> cong G y z -> cong G x z
| cong_eq e : VarEquality e ∈ G -> cong G (left e) (right e)
| cong_fun e e' : FunEquality e ∈ G -> FunEquality e' ∈ G ->
    cong G (a1 e) (a1 e') -> cong G (a2 e) (a2 e') -> cong G (a e) (a e').

#[global] Instance cong_equivalence G : Equivalence (cong G).
Proof. split; red; [apply cong_refl|apply cong_sym|apply cong_trans]. Qed.

Lemma cong_mono G G' x y : (forall e, e ∈ G -> e ∈ G') -> cong G x y -> cong G' x y.
Proof.
  intros Hs. induction 1 as [x|x y _ IH|x y z _ IH1 _ IH2|e He|e e' He He' _ IH1 _ IH2]; [done|by symmetry|by etrans|..].
  - apply cong_eq. by apply Hs.
  - apply cong_fun; try done; by apply Hs.
Qed.

(** ** The invariant *)
Definition fun_ok (n : nat) (e : var_fun_eq_t) : Prop := a1 e < n /\ a2 e < n /\ a e < n.
Definition equality_ok (n : nat) (e : equality) : Prop :=
  match e with
  | VarEquality e => left e < n /\ right e < n
  | FunEquality e => fun_ok n e
  end.
Definition reason_ok (G : list equality) (n : nat) (r : reason_for_equality_t) : Prop :=
  (get_reason r).1 < n /\ (get_reason r).2 < n /\ cong G (get_reason r).1 (get_reason r).2.
Definition entry_ok (G : list equality) (n : nat) (k : representative_t * representative_t) (e : var_fun_eq_t) : Prop :=
  FunEquality e ∈ G /\ fun_ok n e /\ cong G (a1 e) k.1 /\ cong G (a2 e) k.2.
Definition use_ok (G : list equality) (n : nat) (e : var_fun_eq_t) : Prop := FunEquality e ∈ G /\ fun_ok n e.
Definition rep_ok (G : list equality) (n : nat) (x : var_t) (r : representative_t) : Prop := r < n /\ cong G x r.
Definition reps_ok (G : list equality) (rs : list representative_t) : Prop :=
  forall x r, rs !! x = Some r -> rep_ok G (length rs) x r.

(** Everything the closure has stored follows from the equations [G], and all
    its variables exist. *)
Record sound (G : list equality) (c : congruence_closure_t) : Prop := {
  so_forest : inv (proof_forest c);
  so_id : latestId (proof_forest c) = Z.of_nat (length (representatives c));
  so_reps : reps_ok G (representatives c);
  so_class r l x : class_list c !! r = Some l -> x ∈ l -> x < length (representatives c) /\ cong G x r;
  so_pending : Forall (reason_ok G (length (representatives c))) (pending c);
  so_uses r l : use_lists c !! r = Some l -> Forall (use_ok G (length (representatives c))) l;
  so_lookup k e : lookup c !! k = Some e -> entry_ok G (length (representatives c)) k e }.

Lemma reps_total G c x : sound G c -> x < length (representatives c) ->
  exists r, get_representative c x = Some r /\ rep_ok G (length (representatives c)) x r.
Proof.
  intros Hs Hx. destruct (lookup_lt_is_Some_2 (representatives c) x Hx) as [r Hr]. exists r. split; [done|]. by apply (so_reps _ _ Hs).
Qed.

(** ** The measure *)
Lemma count_uses_insert u k l :
  count_uses (<[k := l]> u) + length (default [] (u !! k)) = count_uses u + length l.
Proof.
  unfold count_uses. set (f := fun (_ : representative_t) (l : list var_fun_eq_t) n => (length l + n)%nat).
  assert (Hins : forall (m : gmap representative_t (list var_fun_eq_t)) k' l', m !! k' = None -> map_fold f 0 (<[k' := l']> m) = length l' + map_fold f 0 m).
  { intros m k' l' Hm. apply (map_fold_insert_L f); [|done]. intros. unfold f. lia. }
  rewrite <- insert_delete_eq, Hins by apply lookup_delete_eq.
  destruct (u !! k) as [l'|] eqn:E; simpl.
  - pose proof (Hins (delete k u) k l' (lookup_delete_eq _ _)) as H. rewrite insert_delete_id in H by done. lia.
  - rewrite delete_id by done. lia.
Qed.

Lemma set_representatives_ok G n b : forall cls rs, length rs = n -> reps_ok G rs -> b < n ->
  (forall x, x ∈ cls -> x < n /\ cong G x b) ->
  exists rs', set_representatives cls b rs = Some rs' /\ length rs' = n /\ reps_ok G rs'.
Proof.
  induction cls as [|c cls IH]; intros rs Hl Hr Hb Hc; cbn [set_representatives]; [by exists rs|].
  destruct (Hc c ltac:(by left)) as [Hcn Hcb]. destruct (Nat.ltb_spec c (length rs)); [|lia].
  apply IH; [by rewrite length_insert| |done|intros x Hx; apply Hc; by right].
  intros x r Hx. unfold rep_ok. rewrite length_insert. destruct (decide (x = c)) as [->|].
  - rewrite list_lookup_insert_eq in Hx by done. injection Hx as <-. split; [lia|done].
  - rewrite list_lookup_insert_ne in Hx by done. by apply Hr.
Qed.

Lemma scan_uses_ok G rs uses : forall tbl pend buse,
  reps_ok G rs -> Forall (use_ok G (length rs)) uses -> Forall (use_ok G (length rs)) buse ->
  Forall (reason_ok G (length rs)) pend -> (forall k e, tbl !! k = Some e -> entry_ok G (length rs) k e) ->
  exists tbl' pend' buse', scan_uses rs uses tbl pend buse = Some (tbl', pend', buse') /\
    Forall (reason_ok G (length rs)) pend' /\ Forall (use_ok G (length rs)) buse' /\
    (forall k e, tbl' !! k = Some e -> entry_ok G (length rs) k e) /\
    length pend' + length buse' = length pend + length buse + length uses.
Proof.
  induction uses as [|e uses IH]; intros tbl pend buse Hr Hu Hb Hp Ht; cbn [scan_uses].
  - do 3 eexists. split; [done|]. split_and!; try done; simpl; lia.
  - apply Forall_cons in Hu as [[Hin (H1 & H2 & H3)] Hu].
    assert (exists c1, rs !! a1 e = Some c1) as [c1 E1] by by apply lookup_lt_is_Some_2.
    assert (exists c2, rs !! a2 e = Some c2) as [c2 E2] by by apply lookup_lt_is_Some_2.
    rewrite E1, E2. cbn [mbind option_bind]. destruct (Hr _ _ E1) as [Hc1 Hg1]. destruct (Hr _ _ E2) as [Hc2 Hg2].
    destruct (tbl !! (c1, c2)) as [e'|] eqn:Et.
    + destruct (Ht _ _ Et) as (Hin' & (H1' & H2' & H3') & Hk1 & Hk2). simpl in Hk1, Hk2.
      destruct (IH tbl (pend ++ [ByFunEqs e' e]) buse) as (t & p & b & -> & ? & ? & ? & Hlen); try done.
      { apply Forall_app. split; [done|]. constructor; [|constructor]. split; [done|]. split; [done|].
        apply cong_fun; try done; etrans; try done; by symmetry. }
      do 3 eexists. split; [done|]. split_and!; try done. rewrite length_app in Hlen. simpl in *. lia.
    + destruct (IH (<[(c1, c2) := e]> tbl) pend (buse ++ [e])) as (t & p & b & -> & ? & ? & ? & Hlen); try done.
      { apply Forall_app. split; [done|]. constructor; [|constructor]. by split. }
      { intros k e' Hk. destruct (decide (k = (c1, c2))) as [->|].
        - rewrite lookup_insert_eq in Hk. injection Hk as <-. by split_and!.
        - rewrite lookup_insert_ne in Hk by done. by apply Ht. }
      do 3 eexists. split; [done|]. split_and!; try done. rewrite length_app in Hlen. simpl in *. lia.
Qed.

(** ** Merging two classes *)
Lemma merge_ok G c E a b aprime bprime swapped n (Hn : n = length (representatives c)) :
  sound G c -> a < n -> b < n -> rep_ok G n a aprime -> rep_ok G n b bprime -> cong G a b -> aprime <> bprime ->
  exists c', merge c E a b aprime bprime swapped = Some c' /\ sound G c' /\ length (representatives c') = n /\
    length (pending c') + count_uses (use_lists c') <= length (pending c) + count_uses (use_lists c).
Proof.
  intros Hs Ha Hb [Han Hga] [Hbn Hgb] Hab Hne. subst n. set (n := length (representatives c)) in *.
  assert (Hcong : cong G aprime bprime) by (etrans; [by symmetry|]; by etrans).
  unfold merge. set (list_a := default [] (class_list c !! aprime)). set (list_b := default [] (class_list c !! bprime)).
  assert (Hla : forall x, x ∈ list_a -> x < n /\ cong G x aprime).
  { unfold list_a. intros x. destruct (class_list c !! aprime) as [l|] eqn:El; [|by intros ?%elem_of_nil]. by apply (so_class _ _ Hs). }
  assert (Hlb : forall x, x ∈ list_b -> x < n /\ cong G x bprime).
  { unfold list_b. intros x. destruct (class_list c !! bprime) as [l|] eqn:El; [|by intros ?%elem_of_nil]. by apply (so_class _ _ Hs). }
  set (entry_a := if swapped then bprime else aprime). set (entry_b := if swapped then aprime else bprime).
  assert (Hea : cong G aprime entry_a /\ cong G bprime entry_a) by (unfold entry_a; destruct swapped; split; done).
  assert (Heb : cong G aprime entry_b /\ cong G bprime entry_b) by (unfold entry_b; destruct swapped; split; done).
  set (classes := <[entry_a := list_a]> (<[entry_b := list_b]> (class_list c))).
  assert (Hcl : forall r l x, classes !! r = Some l -> x ∈ l -> x < n /\ cong G x r).
  { intros r l x. unfold classes. rewrite !lookup_insert_Some. intros [[<- <-]|[_ [[<- <-]|[_ Hl]]]] Hx.
    - destruct (Hla x Hx) as [? ?]. split; [done|]. etrans; [done|apply Hea].
    - destruct (Hlb x Hx) as [? ?]. split; [done|]. etrans; [done|apply Heb].
    - by apply (so_class _ _ Hs r l). }
  destruct (set_union_ok (proof_forest c) (Z.of_nat a) (Z.of_nat b) (so_forest _ _ Hs)) as (eqid & fo & -> & Hfo & Hfid & _);
    [rewrite (so_id _ _ Hs); lia|rewrite (so_id _ _ Hs); lia|]. cbn [mbind option_bind].
  assert (Hid : latestId fo = Z.of_nat n) by (rewrite Hfid; apply (so_id _ _ Hs)).
  destruct (0 <=? eqid)%Z; [|eexists; split; [done|]; split; [|split; [done|simpl; lia]]; destruct Hs; by split].
  destruct (set_representatives_ok G n bprime list_a (representatives c) eq_refl (so_reps _ _ Hs) Hbn) as (rs & -> & Hrl & Hrs).
  { intros x Hx. destruct (Hla x Hx) as [? ?]. split; [done|]. by etrans. }
  cbn [mbind option_bind]. set (ause := default [] (use_lists c !! aprime)). set (buse := default [] (use_lists c !! bprime)).
  assert (Huse : forall r, Forall (use_ok G n) (default [] (use_lists c !! r))).
  { intros r. destruct (use_lists c !! r) as [l|] eqn:El; [|constructor]. by apply (so_uses _ _ Hs r l). }
  destruct (scan_uses_ok G rs ause (lookup c) (pending c) buse) as (tbl & pend & buse' & -> & Hpend & Hbuse & Htbl & Hlen);
    rewrite ?Hrl; try done; try apply Huse; try apply Hs. cbn [mbind option_bind].
  eexists. split; [done|]. rewrite Hrl in *. split; [|split; [done|]].
  - split; simpl; rewrite ?Hrl; try done.
    + intros r l x. rewrite lookup_delete_Some, lookup_insert_Some. intros [_ [[<- <-]|[_ Hl]]] Hx; [|by apply (Hcl r l)].
      apply elem_of_app in Hx as [Hx|Hx]; [destruct (Hlb x Hx)|destruct (Hla x Hx)]; (split; [done|]); etrans; try done; apply Heb.
    + intros r l. rewrite !lookup_insert_Some. intros [[<- <-]|[_ [[<- <-]|[_ Hl]]]]; [constructor|done|by apply (so_uses _ _ Hs r)].
  - simpl. pose proof (count_uses_insert (<[bprime := buse']> (use_lists c)) aprime []) as H1.
    rewrite lookup_insert_ne in H1 by done. pose proof (count_uses_insert (use_lists c) bprime buse') as H2.
    fold ause in H1. fold buse in H2. simpl in H1. lia.
Qed.

(** ** Propagation *)
Lemma last_removelast {A} (l : list A) x : last l = Some x -> l = removelast l ++ [x].
Proof. intros [l' ->]%last_Some. by rewrite removelast_last. Qed.

Lemma sound_pop G c p : sound G c -> Forall (reason_ok G (length (representatives c))) p ->
  sound G (CC (representatives c) (class_list c) p (use_lists c) (lookup c) (proof_forest c) (proof_forest_edge_labels c)).
Proof. intros [] Hp. by split. Qed.

Lemma propagate_step_ok G c : sound G c ->
  (pending c = [] /\ propagate_step c = Some None) \/
  exists c', propagate_step c = Some (Some c') /\ sound G c' /\ length (representatives c') = length (representatives c) /\
    length (pending c') + count_uses (use_lists c') < length (pending c) + count_uses (use_lists c).
Proof.
  intros Hs. unfold propagate_step. destruct (last (pending c)) as [E|] eqn:El; [|left; split; [by apply last_None|done]].
  right. pose proof (last_removelast _ _ El) as Hp. pose proof (so_pending _ _ Hs) as Hpend. rewrite Hp in Hpend.
  apply Forall_app in Hpend as [Hrest [(Ha & Hb & Hab) _]%Forall_cons].
  pose proof (f_equal length Hp) as Hlen. rewrite length_app in Hlen. simpl in Hlen.
  set (c1 := CC _ _ (removelast (pending c)) _ _ _ _). pose proof (sound_pop G c _ Hs Hrest) as Hs1. fold c1 in Hs1.
  destruct (get_reason E) as [x y]. simpl in Ha, Hb, Hab.
  destruct (reps_total G c1 x Hs1 Ha) as (rx & -> & Hrx). destruct (reps_total G c1 y Hs1 Hb) as (ry & -> & Hry). cbn [mbind option_bind].
  destruct (Nat.eqb_spec rx ry) as [->|Hne].
  { eexists. split; [done|]. split; [done|]. split; [done|]. simpl. lia. }
  destruct (_ <? _).
  - destruct (merge_ok G c1 E y x ry rx true (length (representatives c1)) eq_refl) as (c' & -> & ? & ? & Hm); try done.
    simpl in Hm. exists c'. split; [done|]. split; [done|]. split; [done|lia].
  - destruct (merge_ok G c1 E x y rx ry false (length (representatives c1)) eq_refl) as (c' & -> & ? & ? & Hm); try done.
    simpl in Hm. exists c'. split; [done|]. split; [done|]. split; [done|lia].
Qed.

Lemma propagate_loop_ok G fuel : forall c, sound G c -> length (pending c) + count_uses (use_lists c) <= fuel ->
  exists c', propagate_loop fuel c = Some c' /\ sound G c' /\ length (representatives c') = length (representatives c) /\ pending c' = [].
Proof.
  induction fuel as [|fuel IH]; intros c Hs Hf; cbn [propagate_loop];
    (destruct (propagate_step_ok G c Hs) as [[Hp ->]|(c1 & -> & Hs1 & Hl1 & Hm)]; [by exists c|]); [lia|]. cbn [mbind option_bind].
  destruct (IH c1 Hs1 ltac:(lia)) as (c' & -> & ? & ? & ?). exists c'. split; [done|]. split; [done|]. split; [lia|done].
Qed.

Lemma propagate_ok G c : sound G c ->
  exists c', propagate c = Some c' /\ sound G c' /\ length (representatives c') = length (representatives c) /\ pending c' = [].
Proof. intros Hs. by apply propagate_loop_ok. Qed.

Lemma sound_mono G G' c : (forall e, e ∈ G -> e ∈ G') -> sound G c -> sound G' c.
Proof.
  intros Hsub [H1 H2 H3 H4 H5 H6 H7]. assert (Hc : forall x y, cong G x y -> cong G' x y) by (intros; by eapply cong_mono).
  split; try done.
  - intros x r Hx. destruct (H3 x r Hx). split; auto.
  - intros r l x Hl Hx. destruct (H4 r l x Hl Hx). split; auto.
  - eapply Forall_impl; [done|]. intros r (? & ? & ?). split_and!; auto.
  - intros r l Hl. eapply Forall_impl; [by eapply H6|]. intros e [? ?]. split; auto.
  - intros k e Hk. destruct (H7 k e Hk) as (? & ? & ? & ?). split_and!; auto.
Qed.

Lemma sound_push G c r : sound G c -> reason_ok G (length (representatives c)) r -> sound G (push_pending r c).
Proof.
  intros Hs Hr. apply (sound_pop G c (pending c ++ [r])); [done|]. apply Forall_app. split; [by apply Hs|]. by constructor.
Qed.

Lemma push_use_ok G n r e u : (forall k l, u !! k = Some l -> Forall (use_ok G n) l) -> use_ok G n e ->
  forall k l, push_use r e u !! k = Some l -> Forall (use_ok G n) l.
Proof.
  intros Hu He k l. unfold push_use. rewrite lookup_insert_Some. intros [[<- <-]|[_ Hl]]; [|by eapply Hu].
  apply Forall_app. split; [|by constructor]. destruct (u !! r) as [l'|] eqn:E; [|constructor]. by eapply Hu.
Qed.

Lemma add_equality_ok G c eq : sound G c -> equality_ok (length (representatives c)) eq ->
  exists c', add_equality c eq = Some c' /\ sound (eq :: G) c' /\ length (representatives c') = length (representatives c).
Proof.
  intros Hs0 Heq. assert (Hs : sound (eq :: G) c) by (eapply sound_mono; [|done]; intros; by right). unfold add_equality.
  destruct eq as [e|e]; simpl in Heq.
  - destruct Heq as [Hl Hr]. destruct (propagate_ok (VarEquality e :: G) (push_pending (ByEq e) c)) as (c' & -> & ? & ? & _); [|by exists c'].
    apply sound_push; [done|]. split; [done|]. split; [done|]. apply cong_eq. by left.
  - pose proof Heq as (H1 & H2 & H3). destruct (reps_total _ c (a1 e) Hs H1) as (r1 & -> & Hb1 & Hr1).
    destruct (reps_total _ c (a2 e) Hs H2) as (r2 & -> & Hb2 & Hr2). cbn [mbind option_bind].
    assert (Hin : FunEquality e ∈ FunEquality e :: G) by by left.
    destruct (lookup c !! (r1, r2)) as [e'|] eqn:El.
    + destruct (so_lookup _ _ Hs _ _ El) as (Hin' & (? & ? & ?) & Hk1 & Hk2). simpl in Hk1, Hk2.
      destruct (propagate_ok (FunEquality e :: G) (push_pending (ByFunEqs e e') c)) as (c' & -> & ? & ? & _); [|by exists c'].
      apply sound_push; [done|]. split; [done|]. split; [done|]. apply cong_fun; try done; etrans; try done; by symmetry.
    + eexists. split; [done|]. split; [|done]. destruct Hs as [S1 S2 S3 S4 S5 S6 S7]. split; simpl; try done.
      * do 2 (apply push_use_ok; [|by split]). done.
      * intros k e' Hk. apply lookup_insert_Some in Hk as [[<- <-]|[_ Hk]]; [by split_and!|by apply S7].
Qed.

Lemma create_ok G c : sound G c -> sound G (create_new_var c).2 /\
  length (representatives (create_new_var c).2) = S (length (representatives c)).
Proof.
  intros [S1 S2 S3 S4 S5 S6 S7]. unfold create_new_var. cbn [fst snd].
  split; [|simpl; rewrite length_app; simpl; lia]. set (n := length (representatives c)) in *.
  assert (Hn : forall k, k < n -> k < n + 1) by lia.
  split; cbn [proof_forest representatives class_list pending use_lists lookup]; rewrite ?length_app; cbn [length]; fold n.
  - by apply newid_ok.
  - cbn [newid snd latestId]. rewrite S2. lia.
  - intros x r Hx. unfold rep_ok. rewrite length_app. cbn [length]. fold n.
    apply lookup_app_Some in Hx as [Hx|[Hge Hx]]; [destruct (S3 x r Hx); split; [by apply Hn|done]|].
    apply list_lookup_singleton_Some in Hx as [Hx <-]. assert (Ex : x = n) by (unfold n; lia). rewrite Ex. split; [lia|done].
  - intros r l x. rewrite lookup_insert_Some. intros [[<- <-]|[_ Hl]] Hx.
    + apply list_elem_of_singleton in Hx. rewrite Hx. split; [lia|done].
    + destruct (S4 r l x Hl Hx). split; [by apply Hn|done].
  - eapply Forall_impl; [done|]. intros r (? & ? & ?). split_and!; auto.
  - intros r l Hl. eapply Forall_impl; [by eapply S6|]. intros e [? (? & ? & ?)]. split; [done|]. split_and!; auto.
  - intros k e Hk. destruct (S7 k e Hk) as (? & (? & ? & ?) & ? & ?). unfold entry_ok, fun_ok. split_and!; auto.
Qed.

Lemma sound_empty : sound [] empty_closure.
Proof.
  split; simpl; try done. apply inv_empty.
Qed.

(** ** Programs over the closure *)
Inductive request := NewVar | Assert (e : equality).
Definition serve (c : congruence_closure_t) (r : request) : option congruence_closure_t :=
  match r with NewVar => Some (create_new_var c).2 | Assert e => add_equality c e end.
Fixpoint serve_all (rs : list request) (c : congruence_closure_t) : option congruence_closure_t :=
  match rs with [] => Some c | r :: rs => c ← serve c r; serve_all rs c end.
(** Equalities are of variables that exist. *)
Fixpoint valid (n : nat) (rs : list request) : Prop :=
  match rs with
  | [] => True
  | NewVar :: rs => valid (S n) rs
  | Assert e :: rs => equality_ok n e /\ valid n rs
  end.
Definition asserted (rs : list request) : list equality :=
  flat_map (fun r => match r with NewVar => [] | Assert e => [e] end) rs.
Definition count_new (rs : list request) : nat :=
  length (List.filter (fun r => match r with NewVar => true | Assert _ => false end) rs).

Lemma serve_requests_ok rs : forall c G, sound G c -> valid (length (representatives c)) rs ->
  exists c', serve_all rs c = Some c' /\ sound (G ++ asserted rs) c' /\
    length (representatives c') = length (representatives c) + count_new rs.
Proof.
  induction rs as [|[|e] rs IH]; intros c G Hs Hv; cbn [serve_all serve valid] in *.
  - exists c. rewrite app_nil_r. split_and!; try done; unfold count_new; simpl; lia.
  - cbn [mbind option_bind]. destruct (create_ok G c Hs) as [Hs' Hl]. destruct (IH (create_new_var c).2 G Hs') as (c' & ? & ? & Hl'); [by rewrite Hl|].
    exists c'. split_and!; try done. rewrite Hl', Hl. unfold count_new. simpl. lia.
  - destruct Hv as [He Hv]. destruct (add_equality_ok G c e Hs He) as (c1 & -> & Hs1 & Hl1). cbn [mbind option_bind].
    destruct (IH c1 _ Hs1) as (c' & ? & Hs' & Hl'); [by rewrite Hl1|]. exists c'. split; [done|]. split.
    + eapply sound_mono; [|done]. intros x. cbn [asserted flat_map]. rewrite !elem_of_app, !elem_of_cons. set_solver.
    + rewrite Hl', Hl1. unfold count_new. simpl. lia.
Qed.

Lemma equal_ok G c x y : sound G c -> x < length (representatives c) -> y < length (representatives c) ->
  exists b, equal c x y = Some b /\ (b = true -> cong G x y).
Proof.
  intros Hs Hx Hy. change (equal c x y) with (r1 ← get_representative c x; r2 ← get_representative c y; Some (r1 =? r2)). destruct (reps_total G c x Hs Hx) as (r & Hr & _ & Hc). destruct (reps_total G c y Hs Hy) as (r' & Hr' & _ & Hc').
  rewrite Hr, Hr'. cbn [mbind option_bind]. eexists. split; [done|].
  intros ->%Nat.eqb_eq. etrans; [done|by symmetry].
Qed.
