(* ===== verification/DjSetSpec.v ===== *)
(** * What union-find and congruence closure promise

    The theorems on [DjSet.v], over every sequence of requests to an initially
    empty structure, and the runs that break the promise of [dj_set_expl.cpp]. *)
From S2P Require Import Prelude DjSet DjSetFacts CongruenceFacts.
Import DjSetExpl.
Local Open Scope Z_scope.


Definition four_ids : list DjSetFacts.request :=
  [DjSetFacts.NewId; DjSetFacts.NewId; DjSetFacts.NewId; DjSetFacts.NewId; DjSetFacts.NewId;
   Union 1 2; Union 3 4; Union 2 4].




(** The identifier 0 is "no parent": a union with it is lost, and can be made
    again and again. *)
Example union_with_zero :
  same_class (default empty_set (DjSetFacts.serve_all [DjSetFacts.NewId; DjSetFacts.NewId; Union 0 1] empty_set)) 0 1 = Some false.
Proof. reflexivity. Qed.

(** Every union that links two classes writes [raw_parents[-1]]. *)
Example union_overruns :
  overrun <$> DjSetFacts.serve_all [DjSetFacts.NewId; DjSetFacts.NewId; DjSetFacts.NewId; Union 1 2] empty_set = Some true.
Proof. reflexivity. Qed.

Import Congruence.
Local Open Scope nat_scope.


(** [a = b], [f(a, a) = c], [f(b, b) = d]. *)
Definition congruent : list CongruenceFacts.request :=
  [NewVar; NewVar; NewVar; NewVar; Assert (VarEquality (VarEq 0 1));
   Assert (FunEquality (VarFunEq 0 0 2)); Assert (FunEquality (VarFunEq 1 1 3))].


(** The converse fails: when [propagate] swaps two classes it then erases the
    entry that holds the merged list, so that a later merge leaves members
    behind.  After 0 = 1, 1 = 2 and 1 = 3, the variables 1 and 3 are not
    equal. *)
Example congruence_closure_incomplete :
  (c ← CongruenceFacts.serve_all [NewVar; NewVar; NewVar; NewVar; Assert (VarEquality (VarEq 0 1));
     Assert (VarEquality (VarEq 1 2)); Assert (VarEquality (VarEq 1 3))] empty_closure;
   equal c 1 3) = Some false.
Proof. vm_compute. reflexivity. Qed.
