(* ===== verification/SymValue.v ===== *)
(** * Symbolic values: [midend/interpreter.h], [midend/interpreter.cpp]

    The abstract values of the symbolic interpreter are objects that point to
    one another and are changed in place, so the model has a store: an object
    is a [SymbolicValue], a pointer a location, [crtid] the counter from
    which the objects get their [id], which is also their location.  A
    dereferenced null pointer and a failed [BUG_CHECK] or [CHECK_NULL] abort.
    The classes' virtual methods are one function each, with a case per class. *)
From S2P Require Import Prelude Gmp Ir.
Local Open Scope flexplan_scope.

(** ** Types *)
Inductive SymType :=
| T_Type (type : SymType)
| T_Newtype (type : SymType)
| T_Typedef (type : SymType)
| T_SpecializedCanonical (substituted : SymType)
| T_Bits (size : Z) (isSigned : bool)
| T_Boolean
| T_Varbits (size : Z)
| T_Struct (name : string) (fields : list (string * SymType))
| T_Header (name : string) (fields : list (string * SymType))
| T_HeaderUnion (name : string) (fields : list (string * SymType))
| T_Stack (elementType : SymType) (size : nat)
| T_Tuple (components : list SymType)
| T_Enum (name : string) (members : list string)
| T_Error
| T_MatchKind
| T_Extern (name : string)
| T_Container  (* parsers, controls, tables, actions, meters, counters *)
| T_Void
| T_MethodBase.

(** [Type_StructLike] *)
Definition type_fields (t : SymType) : list (string * SymType) :=
  match t with T_Struct _ fs | T_Header _ fs | T_HeaderUnion _ fs => fs | _ => [] end.

(** ** Objects *)
Inductive ValueState := Uninitialized | NotConstant | Constant_.
#[global] Instance ValueState_eq_dec : EqDecision ValueState.
Proof. solve_decision. Defined.

Inductive StandardExceptions := StackOutOfBounds | OverwritingHeader | OtherException (name : string).
#[global] Instance StandardExceptions_eq_dec : EqDecision StandardExceptions.
Proof. solve_decision. Defined.

(** An [IR::Constant] node. *)
Record IRConstant := { ctype : Type_; cvalue : Z; cbase : Z }.

Definition loc : Type := Z.
Definition null : loc := 0%Z.

Inductive SymbolicValue :=
| SymbolicException (exc : StandardExceptions)
| SymbolicStaticError (msg : string)
| SymbolicVoid
| SymbolicBool (state : ValueState) (value : bool)
| SymbolicInteger (type : Type_) (state : ValueState) (constant : option IRConstant)
| SymbolicVarbit (size : Z) (state : ValueState)
| SymbolicEnum (type : SymType) (state : ValueState) (value : string)
| SymbolicStruct (type : SymType) (fieldValue : list (string * loc))
| SymbolicHeader (type : SymType) (fieldValue : list (string * loc)) (valid : loc)
| SymbolicArray (elemType : SymType) (size : nat) (values : list loc)
| AnyElement (elemType : SymType) (valid : loc) (parent : loc)
| SymbolicTuple (type : SymType) (values : list loc)
| SymbolicExtern (name : string)
| SymbolicPacketIn (minimumStreamOffset : Z) (conservative : bool).

(** [dynamic_cast]s to the abstract classes. *)
Definition is_SymbolicError (v : SymbolicValue) : bool :=
  match v with SymbolicException _ | SymbolicStaticError _ => true | _ => false end.
(** The state of a [ScalarValue]. *)
Definition scalar_state (v : SymbolicValue) : option ValueState :=
  match v with
  | SymbolicBool st _ | SymbolicInteger _ st _ | SymbolicVarbit _ st | SymbolicEnum _ st _ => Some st
  | _ => None
  end.
(** The fields of a [SymbolicStruct] or of a class derived from it; an
    [AnyElement] has none. *)
Definition struct_fields (v : SymbolicValue) : option (list (string * loc)) :=
  match v with
  | SymbolicStruct _ fs | SymbolicHeader _ fs _ => Some fs
  | AnyElement _ _ _ => Some []
  | _ => None
  end.
Definition header_parts (v : SymbolicValue) : option (list (string * loc) * loc) :=
  match v with
  | SymbolicHeader _ fs valid => Some (fs, valid)
  | AnyElement _ valid _ => Some ([], valid)
  | _ => None
  end.

(** ** The store and its monad *)
Record Store := { objects : gmap loc SymbolicValue; crtid : Z }.
Definition empty_store : Store := {| objects := ∅; crtid := 1 |}.

Definition M (A : Type) : Type := Store -> outcome (A * Store).
#[export] Instance M_ret : MRet M := fun A a s => oret (a, s).
#[export] Instance M_bind : MBind M := fun A B k m s => do r <- m s; k r.1 r.2.
Definition fail_ {A} (why : string) : M A := fun _ => Aborted why.
Definition lift {A} (o : outcome A) : M A := fun s => do a <- o; oret (a, s).

Definition deref (l : loc) : M SymbolicValue := fun s =>
  match objects s !! l with Some v => oret (v, s) | None => Aborted "null pointer" end.
Definition update (l : loc) (v : SymbolicValue) : M unit := fun s =>
  oret (tt, {| objects := <[l := v]> (objects s); crtid := crtid s |}).
(** [new] *)
Definition alloc (v : SymbolicValue) : M loc := fun s =>
  oret (crtid s, {| objects := <[crtid s := v]> (objects s); crtid := crtid s + 1 |}).
(** [::get(map, field)] with its [CHECK_NULL]. *)
Definition field_of (fs : list (string * loc)) (f : string) : M loc :=
  match List.find (fun p => String.eqb p.1 f) fs with Some p => mret p.2 | None => fail_ "null pointer" end.

Fixpoint mapM_ {A B} (f : A -> M B) (l : list A) : M (list B) :=
  match l with
  | [] => mret []
  | x :: l => y ← f x; ys ← mapM_ f l; mret (y :: ys)
  end.
Fixpoint iterM {A} (f : A -> M unit) (l : list A) : M unit :=
  match l with
  | [] => mret tt
  | x :: l => f x;; iterM f l
  end.
(** [changes = f(x) || changes] for every [x]. *)
Fixpoint anyM {A} (f : A -> M bool) (l : list A) : M bool :=
  match l with
  | [] => mret false
  | x :: l => b ← f x; c ← anyM f l; mret (b || c)
  end.
(** Stops at the first [x] for which the answer is [false]. *)
Fixpoint allM {A} (f : A -> M bool) (l : list A) : M bool :=
  match l with
  | [] => mret true
  | x :: l => b ← f x; if b : bool then allM f l else mret false
  end.

(** ** Scalars *)
Definition init (uninit : bool) : ValueState := if uninit then Uninitialized else NotConstant.
Definition mergeState (state other : ValueState) : ValueState :=
  match state, other with
  | Uninitialized, Uninitialized => Uninitialized
  | Constant_, Constant_ => Constant_
  | _, _ => NotConstant
  end.
Definition state_changed (state saveState : ValueState) : bool := negb (bool_decide (state = saveState)).

(** [SymbolicBool::operator!], [operator||], [operator&&] on the fields. *)
Definition bool_not (b : ValueState * bool) : ValueState * bool :=
  match b.1 with
  | Uninitialized => b
  | Constant_ => (Constant_, negb b.2)
  | NotConstant => (NotConstant, false)
  end.
Definition known (b : ValueState * bool) (v : bool) : bool := bool_decide (b.1 = Constant_) && Bool.eqb b.2 v.
Definition bool_or (this other : ValueState * bool) : ValueState * bool :=
  if known other true then other
  else if known other false then this
  else if known this false then other
  else if known this true then this
  else (NotConstant, false).
Definition bool_and (this other : ValueState * bool) : ValueState * bool :=
  if known other true then this
  else if known other false then other
  else if known this false then this
  else if known this true then other
  else (NotConstant, false).

(** ** [clone] *)
Definition get_element (values : list loc) (index : nat) : M loc :=
  match values !! index with Some v => mret v | None => alloc (SymbolicStaticError "Out of bounds") end.
Definition expect (why : string) (b : bool) : M unit := if b then mret tt else fail_ why.
Definition is_header (v : SymbolicValue) : bool := match header_parts v with Some _ => true | None => false end.
Definition is_bool (v : SymbolicValue) : bool := match v with SymbolicBool _ _ => true | _ => false end.

(** One definition per class: the parameter is the method of the parts. *)
Definition clone_fields (clone : loc -> M loc) (fs : list (string * loc)) : M (list (string * loc)) :=
  mapM_ (fun f => l' ← clone f.2; mret (f.1, l')) fs.
Definition SymbolicStruct_clone (clone : loc -> M loc) (type : SymType) (fs : list (string * loc)) : M loc :=
  fs' ← clone_fields clone fs; alloc (SymbolicStruct type fs').
Definition SymbolicHeader_clone (clone : loc -> M loc) (type : SymType) (fs : list (string * loc)) (valid : loc) : M loc :=
  fs' ← clone_fields clone fs;
  valid' ← clone valid;
  b ← deref valid';
  expect "null pointer" (is_bool b);;
  alloc (SymbolicHeader type fs' valid').
Definition SymbolicArray_clone (clone : loc -> M loc) (elemType : SymType) (size : nat) (values : list loc) : M loc :=
  vs ← mapM_ (fun x => x' ← clone x; b ← deref x'; expect "null pointer" (is_header b);; mret x') values;
  alloc (SymbolicArray elemType size vs).
Definition AnyElement_clone (elemType : SymType) (parent : loc) : M loc :=
  b ← alloc (SymbolicBool Uninitialized false);
  alloc (AnyElement elemType b parent).
Definition SymbolicTuple_clone (clone : loc -> M loc) (type : SymType) (values : list loc) : M loc :=
  vs ← mapM_ clone values; alloc (SymbolicTuple type vs).
Fixpoint clone_ (fuel : nat) (l : loc) : M loc :=
  match fuel with
  | O => fail_ "fuel"
  | S fuel =>
      v ← deref l;
      match v with
      | SymbolicVoid => mret l
      | SymbolicStruct type fs => SymbolicStruct_clone (clone_ fuel) type fs
      | SymbolicHeader type fs valid => SymbolicHeader_clone (clone_ fuel) type fs valid
      | SymbolicArray elemType size values => SymbolicArray_clone (clone_ fuel) elemType size values
      | AnyElement elemType valid parent => AnyElement_clone elemType parent
      | SymbolicTuple type values => SymbolicTuple_clone (clone_ fuel) type values
      | SymbolicException _ | SymbolicStaticError _ | SymbolicBool _ _ | SymbolicInteger _ _ _
      | SymbolicVarbit _ _ | SymbolicEnum _ _ _ | SymbolicExtern _ | SymbolicPacketIn _ _ => alloc v
      end
  end.
(** A value is a tree of distinct objects, so its height is below [crtid]. *)
Definition fueled {A} (f : nat -> M A) : M A := fun s => f (Z.to_nat (crtid s)) s.
Definition clone (l : loc) : M loc := fueled (fun n => clone_ n l).

(** ** [setAllUnknown] *)
Definition SymbolicStruct_setAllUnknown (unknown : loc -> M unit) (type : SymType) (fs : list (string * loc)) : M unit :=
  iterM (fun f => x ← field_of fs f.1; unknown x) (type_fields type).
Definition SymbolicHeader_setAllUnknown (unknown : loc -> M unit) (type : SymType) (fs : list (string * loc)) (valid : loc) : M unit :=
  SymbolicStruct_setAllUnknown unknown type fs;; unknown valid.
Definition SymbolicArray_setAllUnknown (unknown : loc -> M unit) (values : list loc) : M unit := iterM unknown values.
Definition SymbolicTuple_setAllUnknown (unknown : loc -> M unit) (values : list loc) : M unit := iterM unknown values.
Fixpoint setAllUnknown_ (fuel : nat) (l : loc) : M unit :=
  match fuel with
  | O => fail_ "fuel"
  | S fuel =>
      v ← deref l;
      match v with
      | SymbolicException _ | SymbolicStaticError _ | SymbolicVoid => mret tt
      | SymbolicBool _ b => update l (SymbolicBool NotConstant b)
      | SymbolicInteger t _ c => update l (SymbolicInteger t NotConstant c)
      | SymbolicVarbit w _ => update l (SymbolicVarbit w NotConstant)
      | SymbolicEnum t _ x => update l (SymbolicEnum t NotConstant x)
      | SymbolicStruct type fs => SymbolicStruct_setAllUnknown (setAllUnknown_ fuel) type fs
      | SymbolicHeader type fs valid => SymbolicHeader_setAllUnknown (setAllUnknown_ fuel) type fs valid
      | SymbolicArray _ _ values => SymbolicArray_setAllUnknown (setAllUnknown_ fuel) values
      | SymbolicTuple _ values => SymbolicTuple_setAllUnknown (setAllUnknown_ fuel) values
      | AnyElement _ _ parent => setAllUnknown_ fuel parent
      | SymbolicExtern _ | SymbolicPacketIn _ _ => fail_ "extern is read-only"
      end
  end.
Definition setAllUnknown (l : loc) : M unit := fueled (fun n => setAllUnknown_ n l).

(** ** [assign] *)
Definition SymbolicBool_assign (l other : loc) : M unit :=
  o ← deref other;
  match o with SymbolicBool st b => update l (SymbolicBool st b) | _ => fail_ "expected a bool" end.
Definition SymbolicInteger_assign (l : loc) (t : Type_) (other : loc) : M unit :=
  o ← deref other;
  if is_SymbolicError o then mret tt
  else match o with SymbolicInteger _ st c => update l (SymbolicInteger t st c) | _ => fail_ "expected an integer" end.
Definition SymbolicVarbit_assign (l : loc) (w : Z) (other : loc) : M unit :=
  o ← deref other;
  if is_SymbolicError o then mret tt
  else match o with SymbolicVarbit _ st => update l (SymbolicVarbit w st) | _ => fail_ "expected a varbit" end.
Definition SymbolicEnum_assign (l : loc) (t : SymType) (other : loc) : M unit :=
  o ← deref other;
  match o with SymbolicEnum _ st x => update l (SymbolicEnum t st x) | _ => fail_ "expected an enum" end.
Definition assign_fields (assign : loc -> loc -> M unit) (fs ofs : list (string * loc)) : M unit :=
  iterM (fun f => x ← field_of fs f.1; assign x f.2) ofs.
Definition SymbolicStruct_assign (assign : loc -> loc -> M unit) (fs : list (string * loc)) (other : loc) : M unit :=
  o ← deref other;
  if is_SymbolicError o then mret tt
  else match struct_fields o with
       | Some ofs => assign_fields assign fs ofs
       | None => fail_ "expected a struct"
       end.
Definition SymbolicHeader_assign (assign : loc -> loc -> M unit) (fs : list (string * loc)) (valid other : loc) : M unit :=
  o ← deref other;
  if is_SymbolicError o then mret tt
  else match header_parts o with
       | Some (ofs, ovalid) => assign_fields assign fs ofs;; assign valid ovalid
       | None => fail_ "expected a header"
       end.
Definition SymbolicArray_assign (assign : loc -> loc -> M unit) (values : list loc) (other : loc) : M unit :=
  o ← deref other;
  if is_SymbolicError o then mret tt
  else match o with
       | SymbolicArray _ _ ovalues =>
           iterM (fun p => x ← get_element ovalues p.1; assign p.2 x) (zip (seq 0 (length values)) values)
       | _ => fail_ "expected an array"
       end.
Fixpoint assign_ (fuel : nat) (l other : loc) : M unit :=
  match fuel with
  | O => fail_ "fuel"
  | S fuel =>
      v ← deref l;
      match v with
      | SymbolicException _ | SymbolicStaticError _ => mret tt
      | SymbolicVoid => fail_ "assign to void"
      | SymbolicBool _ _ => SymbolicBool_assign l other
      | SymbolicInteger t _ _ => SymbolicInteger_assign l t other
      | SymbolicVarbit w _ => SymbolicVarbit_assign l w other
      | SymbolicEnum t _ _ => SymbolicEnum_assign l t other
      | SymbolicStruct _ fs => SymbolicStruct_assign (assign_ fuel) fs other
      | SymbolicHeader _ fs valid => SymbolicHeader_assign (assign_ fuel) fs valid other
      | SymbolicArray _ _ values => SymbolicArray_assign (assign_ fuel) values other
      | AnyElement _ _ parent => setAllUnknown_ fuel parent
      | SymbolicTuple _ _ => fail_ "tuples are read-only"
      | SymbolicExtern _ | SymbolicPacketIn _ _ => fail_ "extern is read-only"
      end
  end.
Definition assign (l other : loc) : M unit := fueled (fun n => assign_ n l other).

(** ** [merge]: whether the current value has changed *)
Definition SymbolicBool_merge (l : loc) (st : ValueState) (b : bool) (other : loc) : M bool :=
  if (l =? other)%Z then mret false
  else
    o ← deref other;
    match o with
    | SymbolicBool st' b' =>
        let state := mergeState st st' in
        let state := if bool_decide (state = Constant_) && negb (Bool.eqb b b') then NotConstant else state in
        update l (SymbolicBool state b);; mret (state_changed state st)
    | _ => fail_ "null pointer"
    end.
Definition SymbolicInteger_merge (l : loc) (t : Type_) (st : ValueState) (c : option IRConstant) (other : loc) : M bool :=
  o ← deref other;
  match o with
  | SymbolicInteger _ st' c' =>
      let state := mergeState st st' in
      if bool_decide (state = Constant_) then
        match c, c' with
        | Some k, Some k' =>
            if (cvalue k =? cvalue k')%Z then update l (SymbolicInteger t state c);; mret (state_changed state st)
            else update l (SymbolicInteger t NotConstant None);; mret (state_changed NotConstant st)
        | _, _ => fail_ "null pointer"
        end
      else update l (SymbolicInteger t state c);; mret (state_changed state st)
  | _ => fail_ "expected an integer"
  end.
Definition SymbolicVarbit_merge (l : loc) (w : Z) (st : ValueState) (other : loc) : M bool :=
  o ← deref other;
  match o with
  | SymbolicVarbit _ st' => update l (SymbolicVarbit w (mergeState st st'));; mret (state_changed (mergeState st st') st)
  | _ => fail_ "expected a varbit"
  end.
Definition SymbolicEnum_merge (l : loc) (t : SymType) (st : ValueState) (x : string) (other : loc) : M bool :=
  o ← deref other;
  match o with
  | SymbolicEnum _ st' x' =>
      let state := mergeState st st' in
      let state := if bool_decide (state = Constant_) && negb (String.eqb x x') then NotConstant else state in
      update l (SymbolicEnum t state x);; mret (state_changed state st)
  | _ => fail_ "null pointer"
  end.
Definition merge_fields (merge : loc -> loc -> M bool) (fs ofs : list (string * loc)) : M bool :=
  anyM (fun f => x ← field_of fs f.1; merge x f.2) ofs.
Definition SymbolicStruct_merge (merge : loc -> loc -> M bool) (fs : list (string * loc)) (other : loc) : M bool :=
  o ← deref other;
  match struct_fields o with Some ofs => merge_fields merge fs ofs | None => fail_ "expected a struct" end.
Definition SymbolicHeader_merge (merge : loc -> loc -> M bool) (fs : list (string * loc)) (valid other : loc) : M bool :=
  o ← deref other;
  match header_parts o with
  | Some (ofs, ovalid) => changes ← merge_fields merge fs ofs; crt ← merge valid ovalid; mret (changes || crt)
  | None => fail_ "expected a header"
  end.
Definition SymbolicArray_merge (merge : loc -> loc -> M bool) (values : list loc) (other : loc) : M bool :=
  o ← deref other;
  match o with
  | SymbolicArray _ _ ovalues =>
      anyM (fun p => x ← get_element ovalues p.1; merge p.2 x) (zip (seq 0 (length values)) values)
  | _ => fail_ "expected an array"
  end.
Definition SymbolicTuple_merge (merge : loc -> loc -> M bool) (values : list loc) (other : loc) : M bool :=
  o ← deref other;
  match o with
  | SymbolicTuple _ ovalues =>
      if Nat.eqb (length values) (length ovalues) then anyM (fun p => merge p.1 p.2) (zip values ovalues)
      else fail_ "merging tuples with different sizes"
  | _ => fail_ "expected a tuple value"
  end.
Definition SymbolicPacketIn_merge (l : loc) (offset : Z) (conservative : bool) (other : loc) : M bool :=
  o ← deref other;
  match o with
  | SymbolicPacketIn offset' conservative' =>
      if (offset' <? offset)%Z
      then update l (SymbolicPacketIn offset' (conservative || conservative'));; mret true
      else mret false
  | _ => fail_ "merging with non-packet"
  end.
Fixpoint merge_ (fuel : nat) (l other : loc) : M bool :=
  match fuel with
  | O => fail_ "fuel"
  | S fuel =>
      v ← deref l;
      match v with
      | SymbolicException _ | SymbolicStaticError _ => fail_ "cannot merge errors"
      | SymbolicVoid => o ← deref other; match o with SymbolicVoid => mret false | _ => fail_ "expected void" end
      | SymbolicBool st b => SymbolicBool_merge l st b other
      | SymbolicInteger t st c => SymbolicInteger_merge l t st c other
      | SymbolicVarbit w st => SymbolicVarbit_merge l w st other
      | SymbolicEnum t st x => SymbolicEnum_merge l t st x other
      | SymbolicStruct _ fs => SymbolicStruct_merge (merge_ fuel) fs other
      | SymbolicHeader _ fs valid => SymbolicHeader_merge (merge_ fuel) fs valid other
      | SymbolicArray _ _ values => SymbolicArray_merge (merge_ fuel) values other
      | AnyElement _ _ _ => fail_ "Merge should not be called on AnyElement"
      | SymbolicTuple _ values => SymbolicTuple_merge (merge_ fuel) values other
      | SymbolicExtern _ => mret false
      | SymbolicPacketIn offset conservative => SymbolicPacketIn_merge l offset conservative other
      end
  end.
Definition merge (l other : loc) : M bool := fueled (fun n => merge_ n l other).

(** ** [equals] *)
Definition same_known {A} (eqb : A -> A -> bool) (st st' : ValueState) (x x' : A) : bool :=
  bool_decide (st = st') && (if bool_decide (st = Constant_) then eqb x x' else true).
Definition SymbolicInteger_equals (st : ValueState) (c : option IRConstant) (o : SymbolicValue) : M bool :=
  match o with
  | SymbolicInteger _ st' c' =>
      if negb (bool_decide (st = st')) then mret false
      else if bool_decide (st = Constant_) then
        match c, c' with Some k, Some k' => mret (cvalue k =? cvalue k')%Z | _, _ => fail_ "null pointer" end
      else mret true
  | _ => mret false
  end.
Definition equal_fields (equals : loc -> loc -> M bool) (fs ofs : list (string * loc)) : M bool :=
  allM (fun f => x ← field_of fs f.1; equals x f.2) ofs.
Definition SymbolicStruct_equals (equals : loc -> loc -> M bool) (fs : list (string * loc)) (o : SymbolicValue) : M bool :=
  match struct_fields o with Some ofs => equal_fields equals fs ofs | None => mret false end.
Definition SymbolicHeader_equals (equals : loc -> loc -> M bool) (fs : list (string * loc)) (valid : loc) (o : SymbolicValue) : M bool :=
  match header_parts o with
  | Some (ofs, ovalid) =>
      b ← equals valid ovalid;
      if negb b then mret false
      else
        vb ← deref valid;
        match vb with
        | SymbolicBool st value =>
            if bool_decide (st = Constant_) && negb value then mret true else equal_fields equals fs ofs
        | _ => fail_ "null pointer"
        end
  | None => mret false
  end.
Definition SymbolicArray_equals (equals : loc -> loc -> M bool) (values : list loc) (o : SymbolicValue) : M bool :=
  match o with
  | SymbolicArray _ _ ovalues =>
      allM (fun p => x ← get_element ovalues p.1; equals p.2 x) (zip (seq 0 (length values)) values)
  | _ => mret false
  end.
Definition SymbolicTuple_equals (equals : loc -> loc -> M bool) (values : list loc) (o : SymbolicValue) : M bool :=
  match o with
  | SymbolicTuple _ ovalues =>
      allM (fun p => match ovalues !! p.1 with Some x => equals p.2 x | None => fail_ "std::out_of_range" end)
        (zip (seq 0 (length values)) values)
  | _ => mret false
  end.
Fixpoint equals_ (fuel : nat) (l other : loc) : M bool :=
  match fuel with
  | O => fail_ "fuel"
  | S fuel =>
      v ← deref l;
      o ← deref other;
      match v with
      | SymbolicException exc => mret (match o with SymbolicException exc' => bool_decide (exc' = exc) | _ => false end)
      | SymbolicStaticError msg => mret (match o with SymbolicStaticError msg' => String.eqb msg msg' | _ => false end)
      | SymbolicVoid => mret (match o with SymbolicVoid => true | _ => false end)
      | SymbolicBool st b => mret (match o with SymbolicBool st' b' => same_known Bool.eqb st st' b b' | _ => false end)
      | SymbolicInteger _ st c => SymbolicInteger_equals st c o
      | SymbolicVarbit _ st => mret (match o with SymbolicVarbit _ st' => bool_decide (st = st') | _ => false end)
      | SymbolicEnum _ st x => mret (match o with SymbolicEnum _ st' x' => same_known String.eqb st st' x x' | _ => false end)
      | SymbolicStruct _ fs => SymbolicStruct_equals (equals_ fuel) fs o
      | SymbolicHeader _ fs valid => SymbolicHeader_equals (equals_ fuel) fs valid o
      | SymbolicArray _ _ values => SymbolicArray_equals (equals_ fuel) values o
      | AnyElement _ _ _ => fail_ "Equals should not be called on AnyElement"
      | SymbolicTuple _ values => SymbolicTuple_equals (equals_ fuel) values o
      | SymbolicExtern _ => mret (match o with SymbolicExtern _ | SymbolicPacketIn _ _ => true | _ => false end)
      | SymbolicPacketIn offset _ => mret (match o with SymbolicPacketIn offset' _ => (offset =? offset')%Z | _ => false end)
      end
  end.
Definition equals (l other : loc) : M bool := fueled (fun n => equals_ n l other).

(** ** [hasUninitializedParts] *)
Fixpoint hasUninitializedParts_ (fuel : nat) (l : loc) : M bool :=
  match fuel with
  | O => fail_ "fuel"
  | S fuel =>
      v ← deref l;
      let any ls := b ← allM (fun x => u ← hasUninitializedParts_ fuel x; mret (negb u)) ls; mret (negb b) in
      match v with
      | SymbolicBool st _ | SymbolicInteger _ st _ | SymbolicVarbit _ st | SymbolicEnum _ st _ =>
          mret (bool_decide (st = Uninitialized))
      | SymbolicStruct _ fs | SymbolicHeader _ fs _ => any fs.*2
      | SymbolicArray _ _ values | SymbolicTuple _ values => any values
      | AnyElement _ _ _ => fail_ "Should not be called"
      | SymbolicException _ | SymbolicStaticError _ | SymbolicVoid | SymbolicExtern _ | SymbolicPacketIn _ _ => mret false
      end
  end.
Definition hasUninitializedParts (l : loc) : M bool := fueled (fun n => hasUninitializedParts_ n l).

(** ** Headers and stacks *)
(** [SymbolicHeader::setValid], [AnyElement::setValid] *)
Definition setValid (l : loc) (v : bool) : M unit :=
  o ← deref l;
  match o with
  | SymbolicHeader _ _ _ =>
      (if v then mret tt else setAllUnknown l);;
      b ← alloc (SymbolicBool Constant_ v);
      o ← deref l;
      match o with
      | SymbolicHeader type fs _ => update l (SymbolicHeader type fs b)
      | _ => fail_ "not a header"
      end
  | AnyElement _ _ parent => setAllUnknown parent
  | _ => fail_ "null pointer"
  end.

Definition get_values (l : loc) : M (list loc) :=
  o ← deref l; match o with SymbolicArray _ _ values => mret values | _ => fail_ "null pointer" end.
Definition set_values (l : loc) (values : list loc) : M unit :=
  o ← deref l; match o with SymbolicArray t n _ => update l (SymbolicArray t n values) | _ => fail_ "null pointer" end.

(** [values[i] = values[j]]; an index past the end is undefined. *)
Definition copy_element (l : loc) (i j : Z) : M unit :=
  values ← get_values l;
  match values !! Z.to_nat i, values !! Z.to_nat j with
  | Some _, Some x => if (0 <=? i)%Z && (0 <=? j)%Z then set_values l (<[Z.to_nat i := x]> values) else fail_ "out of range"
  | _, _ => fail_ "out of range"
  end.
Definition invalidate_element (l : loc) (i : Z) : M unit :=
  values ← get_values l;
  match values !! Z.to_nat i with
  | Some x => if (0 <=? i)%Z then setValid x false else fail_ "out of range"
  | None => fail_ "out of range"
  end.
(** The indices [from], [from + 1], ... below [to_]. *)
Definition indices_from (from to_ : Z) : list Z := (fun n => from + Z.of_nat n)%Z <$> seq 0 (Z.to_nat (to_ - from)).
(** [SymbolicArray::shift].  The bound of the first loop is a [size_t]: if the
    amount exceeds the size it wraps around, and the first iteration reads
    past the vector. *)
Definition shift (l : loc) (amount : Z) : M unit :=
  values ← get_values l;
  let n := Z.of_nat (length values) in
  if (amount <? 0)%Z then
    (if (n + amount <? 0)%Z then fail_ "out of range"
     else iterM (fun i => copy_element l i (i - amount)) (indices_from 0 (n + amount)));;
    iterM (invalidate_element l) (indices_from (n + amount) n)
  else if (0 <? amount)%Z then
    (if (n - amount <? 0)%Z then fail_ "out of range"
     else iterM (fun i => copy_element l (n - i - 1) (n - i - amount - 1)) (indices_from 0 (n - amount)));;
    iterM (invalidate_element l) (indices_from 0 amount)
  else mret tt.

(** [next] and [last]: the first element, from the front or the back, whose
    validity is not [skip], unless an unknown one comes first. *)
Fixpoint find_element (l : loc) (elemType : SymType) (skip : bool) (values : list loc) : M loc :=
  match values with
  | [] => alloc (SymbolicException StackOutOfBounds)
  | x :: values =>
      o ← deref x;
      match header_parts o with
      | None => fail_ "null pointer"
      | Some (_, valid) =>
          b ← deref valid;
          match b with
          | SymbolicBool st value =>
              if bool_decide (st = Constant_) then
                if Bool.eqb value skip then find_element l elemType skip values else mret x
              else b ← alloc (SymbolicBool Uninitialized false); alloc (AnyElement elemType b l)
          | _ => fail_ "null pointer"
          end
      end
  end.
Definition get_elemType (l : loc) : M SymType :=
  o ← deref l; match o with SymbolicArray t _ _ => mret t | _ => fail_ "null pointer" end.
Definition next (l : loc) : M loc := t ← get_elemType l; values ← get_values l; find_element l t true values.
Definition last_ (l : loc) : M loc := t ← get_elemType l; values ← get_values l; find_element l t false (rev values).

(** [AnyElement::collapse] *)
Definition collapse (parent : loc) : M loc :=
  values ← get_values parent;
  first ← get_element values 0;
  result ← clone first;
  iterM (fun x => merge result x;; mret tt) (tail values);;
  mret result.

(** ** [SymbolicValueFactory] *)
Section factory.
(** [typeMap->getTypeType], which answers a type. *)
Context (getTypeType : SymType -> SymType).

Definition strip_type (type : SymType) : SymType :=
  let type := match type with T_Type t => t | t => t end in
  let type := getTypeType type in
  let type := match type with T_Type t => getTypeType t | t => t end in
  let type := match type with T_Newtype t => getTypeType t | t => t end in
  match type with T_Typedef t => getTypeType t | t => t end.

(** The constructors; a part that is not created is the null pointer. *)
Definition create_fields (create : SymType -> M loc) (fs : list (string * SymType)) : M (list (string * loc)) :=
  ls ← mapM_ (fun f => x ← create f.2; mret (f.1, x)) fs;
  mret (fold_left (fun m p => oput (ord := String.ltb) p.1 p.2 m) ls []).
Definition SymbolicStruct_new (create : SymType -> M loc) (type : SymType) : M loc :=
  m ← create_fields create (type_fields type); alloc (SymbolicStruct type m).
Definition SymbolicHeader_new (create : SymType -> M loc) (type : SymType) : M loc :=
  m ← create_fields create (type_fields type); valid ← alloc (SymbolicBool Constant_ false); alloc (SymbolicHeader type m valid).
Definition SymbolicArray_new (create : SymType -> M loc) (elem : SymType) (size : nat) : M loc :=
  vs ← mapM_ (fun _ => x ← create elem; o ← deref x; expect "expected a header" (is_header o);; mret x) (seq 0 size);
  alloc (SymbolicArray elem size vs).
Definition SymbolicTuple_new (create : SymType -> M loc) (comps : list SymType) : M loc :=
  vs ← mapM_ create comps; alloc (SymbolicTuple (T_Tuple comps) vs).
Fixpoint create_ (fuel : nat) (type : SymType) (uninitialized : bool) : M loc :=
  match fuel with
  | O => fail_ "fuel"
  | S fuel =>
      let create t := create_ fuel t uninitialized in
      match strip_type type with
      | T_Bits w s => alloc (SymbolicInteger (Type_Bits w s) (init uninitialized) None)
      | T_Boolean => alloc (SymbolicBool (init uninitialized) false)
      | T_Struct n fs => SymbolicStruct_new create (T_Struct n fs)
      | T_Header n fs => SymbolicHeader_new create (T_Header n fs)
      | T_Varbits w => alloc (SymbolicVarbit w Uninitialized)
      | T_Stack elem size => SymbolicArray_new create elem size
      | T_Tuple comps => SymbolicTuple_new create comps
      | T_Extern name => if String.eqb name "packet_in" then alloc (SymbolicPacketIn 0 false) else alloc (SymbolicExtern name)
      | (T_Enum _ _ | T_Error | T_MatchKind) as t => alloc (SymbolicEnum t (init uninitialized) "")
      | T_SpecializedCanonical t => create t
      | T_Container => mret null
      | T_Type _ | T_Newtype _ | T_Typedef _ | T_HeaderUnion _ _ | T_Void | T_MethodBase => fail_ "unexpected type"
      end
  end.

Fixpoint isFixedWidth_ (fuel : nat) (type : SymType) : option bool :=
  match fuel with
  | O => None
  | S fuel =>
      let all := fix all ts := match ts with
                               | [] => Some true
                               | t :: ts => b ← isFixedWidth_ fuel t; if b : bool then all ts else Some false
                               end in
      match getTypeType type with
      | T_Varbits _ | T_Extern _ => Some false
      | T_Stack elem _ => isFixedWidth_ fuel elem
      | T_Struct _ fs | T_Header _ fs | T_HeaderUnion _ fs => all fs.*2
      | T_Tuple comps => all comps
      | _ => Some true
      end
  end.

(** The sums are [unsigned]. *)
Fixpoint getWidth_ (fuel : nat) (type : SymType) : option Z :=
  match fuel with
  | O => None
  | S fuel =>
      let fold op := fix go ts acc := match ts with
                                      | [] => Some acc
                                      | t :: ts => w ← getWidth_ fuel t; go ts (op acc w)
                                      end in
      let add a b := wrapu 32 (a + b) in
      match (match getTypeType type with T_Type t => t | t => t end) with
      | T_Bits w _ => Some (wrapu 32 w)
      | T_Boolean => Some 1%Z
      | T_HeaderUnion _ fs => fold Z.max fs.*2 0%Z
      | T_Struct _ fs | T_Header _ fs => fold add fs.*2 0%Z
      | T_Stack elem size => (fun w => wrapu 32 (w * Z.of_nat size)) <$> getWidth_ fuel elem
      | T_Tuple comps => fold add comps 0%Z
      | _ => Some 0%Z
      end
  end.
End factory.

(** ** [ValueMap]: declarations are named *)
Definition ValueMap : Type := list (string * loc).
Definition map_get (m : ValueMap) (d : string) : option loc := snd <$> List.find (fun p => String.eqb p.1 d) m.
Definition ValueMap_clone (m : ValueMap) : M ValueMap := mapM_ (fun v => l ← clone v.2; mret (v.1, l)) m.
Definition ValueMap_filter (m : ValueMap) (keep : string -> SymbolicValue -> bool) : M ValueMap :=
  l ← mapM_ (fun v => o ← deref v.2; mret (if keep v.1 o then Some v else None)) m; mret (omap id l).
Definition ValueMap_set (m : ValueMap) (left : string) (right : loc) : M ValueMap :=
  if (right =? null)%Z then fail_ "null pointer"
  else mret (if bool_decide (left ∈ m.*1) then map (fun v => if String.eqb v.1 left then (left, right) else v) m
             else m ++ [(left, right)]).
Definition ValueMap_merge (m other : ValueMap) : M bool :=
  if Nat.eqb (length m) (length other) then
    anyM (fun d => match map_get other d.1 with Some v => merge d.2 v | None => fail_ "null pointer" end) m
  else fail_ "Merging incompatible maps?".
Definition ValueMap_equals (m other : ValueMap) : M bool :=
  if Nat.eqb (length m) (length other) then
    allM (fun d => match map_get other d.1 with Some v => equals d.2 v | None => fail_ "null pointer" end) m
  else fail_ "Incompatible maps compared".
