(* ===== verification/SymTree.v ===== *)
(** * Symbolic values as trees: what [SymValue.v] implements

    An object without sharing, with everything it points to, is a tree of
    abstract values.  [repr] relates a store to the tree at a location and the
    set of locations it occupies; the operations on trees say what the methods
    of [SymbolicValue] compute, and the lattice they form. *)
From S2P Require Import Prelude Gmp Ir SymValue.
Local Open Scope flexplan_scope.

(** ** Abstract scalars and trees *)
Inductive aval (A : Type) := AUninit | AUnknown | AKnown (a : A).
Arguments AUninit {A}.
Arguments AUnknown {A}.
Arguments AKnown {A} _.
#[global] Instance aval_eq_dec {A} `{EqDecision A} : EqDecision (aval A).
Proof. solve_decision. Defined.

Inductive leaf :=
| LBool (a : aval bool)
| LInt (type : Type_) (a : aval Z)
| LVarbit (a : aval unit)
| LEnum (a : aval string)
| LExtern
| LPacketIn (offset : Z) (conservative : bool).

Inductive tree :=
| TLeaf (l : leaf)
| TStruct (keys : list string) (ts : list tree)
| THeader (keys : list string) (ts : list tree) (valid : aval bool)
| TArray (ts : list tree)
| TTuple (ts : list tree).

Section tree_induction.
Context (P : tree -> Prop).
Hypothesis (Hleaf : forall l, P (TLeaf l)) (Hstruct : forall keys ts, Forall P ts -> P (TStruct keys ts))
  (Hheader : forall keys ts valid, Forall P ts -> P (THeader keys ts valid))
  (Harray : forall ts, Forall P ts -> P (TArray ts)) (Htuple : forall ts, Forall P ts -> P (TTuple ts)).
Fixpoint tree_induction (t : tree) : P t :=
  let all := fix all ts : Forall P ts := match ts with [] => Forall_nil_2 P | t :: ts => Forall_cons_2 P t ts (tree_induction t) (all ts) end in
  match t with
  | TLeaf l => Hleaf l
  | TStruct keys ts => Hstruct keys ts (all ts)
  | THeader keys ts valid => Hheader keys ts valid (all ts)
  | TArray ts => Harray ts (all ts)
  | TTuple ts => Htuple ts (all ts)
  end.
End tree_induction.

Fixpoint height (t : tree) : nat :=
  match t with
  | TLeaf _ => 1
  | TStruct _ ts | TArray ts | TTuple ts => S (list_max (height <$> ts))
  | THeader _ ts _ => S (Nat.max 1 (list_max (height <$> ts)))
  end.
Definition is_theader (t : tree) : bool := match t with THeader _ _ _ => true | _ => false end.

(** ** Objects that represent a tree *)
Definition aval_of {A} (st : ValueState) (x : A) : aval A :=
  match st with Uninitialized => AUninit | NotConstant => AUnknown | Constant_ => AKnown x end.
(** A known integer has its constant, of its own type. *)
Definition leaf_of (v : SymbolicValue) : option leaf :=
  match v with
  | SymbolicBool st b => Some (LBool (aval_of st b))
  | SymbolicInteger t Constant_ (Some k) => if same_type (ctype k) t then Some (LInt t (AKnown (cvalue k))) else None
  | SymbolicInteger t Constant_ None => None
  | SymbolicInteger t st _ => Some (LInt t (aval_of st 0%Z))
  | SymbolicVarbit _ st => Some (LVarbit (aval_of st tt))
  | SymbolicEnum _ st x => Some (LEnum (aval_of st x))
  | SymbolicExtern _ => Some LExtern
  | SymbolicPacketIn o c => Some (LPacketIn o c)
  | _ => None
  end.
(** The map of the fields has the fields of the type, each once. *)
Definition fields_ok (type : SymType) (keys : list string) : Prop :=
  NoDup keys /\ forall f, f ∈ (type_fields type).*1 <-> f ∈ keys.

Implicit Types (h : gmap loc SymbolicValue) (F : gset loc).
Inductive repr h : loc -> tree -> gset loc -> Prop :=
| repr_leaf l v lf : h !! l = Some v -> leaf_of v = Some lf -> repr h l (TLeaf lf) {[l]}
| repr_struct l type fs ts F : h !! l = Some (SymbolicStruct type fs) -> fields_ok type fs.*1 ->
    reprs h fs.*2 ts F -> l ∉ F -> repr h l (TStruct fs.*1 ts) ({[l]} ∪ F)
| repr_header l type fs valid st b ts F : h !! l = Some (SymbolicHeader type fs valid) -> h !! valid = Some (SymbolicBool st b) ->
    fields_ok type fs.*1 -> reprs h fs.*2 ts F -> l ∉ F -> valid ∉ F -> l <> valid ->
    repr h l (THeader fs.*1 ts (aval_of st b)) ({[l]} ∪ (F ∪ {[valid]}))
| repr_array l t n values ts F : h !! l = Some (SymbolicArray t n values) -> reprs h values ts F -> l ∉ F ->
    Forall (fun t => is_theader t = true) ts -> repr h l (TArray ts) ({[l]} ∪ F)
| repr_tuple l t values ts F : h !! l = Some (SymbolicTuple t values) -> reprs h values ts F -> l ∉ F ->
    repr h l (TTuple ts) ({[l]} ∪ F)
with reprs h : list loc -> list tree -> gset loc -> Prop :=
| reprs_nil : reprs h [] [] ∅
| reprs_cons x xs t ts F Fs : repr h x t F -> reprs h xs ts Fs -> F ## Fs -> reprs h (x :: xs) (t :: ts) (F ∪ Fs).

Scheme repr_mut := Minimality for repr Sort Prop
  with reprs_mut := Minimality for reprs Sort Prop.
Combined Scheme repr_reprs_ind from repr_mut, reprs_mut.

Lemma reprs_length h xs ts F : reprs h xs ts F -> length xs = length ts.
Proof. induction 1; simpl; congruence. Qed.

Lemma repr_frame_mut h h' : (forall l t F, repr h l t F -> (forall x, x ∈ F -> h' !! x = h !! x) -> repr h' l t F) /\ (forall xs ts F, reprs h xs ts F -> (forall x, x ∈ F -> h' !! x = h !! x) -> reprs h' xs ts F).
Proof.
  apply repr_reprs_ind; intros.
  - econstructor; [|done]. rewrite H1; [done|set_solver].
  - econstructor; [rewrite H4; [done|set_solver]|done| |done]. apply H2. intros; apply H4; set_solver.
  - econstructor; [rewrite H7; [done|set_solver]|rewrite H7; [done|set_solver]|done| |done..]. apply H3. intros; apply H7; set_solver.
  - econstructor; [rewrite H4; [done|set_solver]| |done..]. apply H1. intros; apply H4; set_solver.
  - econstructor; [rewrite H3; [done|set_solver]| |done..]. apply H1. intros; apply H3; set_solver.
  - constructor.
  - constructor; [apply H0; intros; apply H4; set_solver|apply H2; intros; apply H4; set_solver|done].
Qed.
Lemma repr_frame h h' l t F : repr h l t F -> (forall x, x ∈ F -> h' !! x = h !! x) -> repr h' l t F.
Proof. apply repr_frame_mut. Qed.
Lemma reprs_frame h h' xs ts F : reprs h xs ts F -> (forall x, x ∈ F -> h' !! x = h !! x) -> reprs h' xs ts F.
Proof. apply repr_frame_mut. Qed.

(** The locations are objects, at least as many as the tree is high. *)
Lemma repr_dom_mut h : (forall l t F, repr h l t F -> l ∈ F /\ F ⊆ dom h /\ (height t <= size F)%nat) /\ (forall xs ts F, reprs h xs ts F -> F ⊆ dom h /\ (list_max (height <$> ts) <= size F)%nat).
Proof.
  assert (Hin : forall l v, h !! l = Some v -> {[l]} ⊆ dom h) by (intros l v Hl x ->%elem_of_singleton; by apply elem_of_dom_2 in Hl).
  apply repr_reprs_ind; intros.
  - split; [set_solver|]. split; [eauto|]. rewrite size_singleton. cbn [height]. lia.
  - destruct H2 as [Hd Hs]. split; [set_solver|]. split; [set_solver by eauto|]. rewrite size_union, size_singleton by set_solver. cbn [height]. lia.
  - destruct H3 as [Hd Hs]. split; [set_solver|]. split; [apply Hin in H, H0; set_solver|].
    rewrite !size_union, !size_singleton by set_solver. cbn [height]. lia.
  - destruct H1 as [Hd Hs]. split; [set_solver|]. split; [apply Hin in H; set_solver|]. rewrite size_union, size_singleton by set_solver. cbn [height]. lia.
  - destruct H1 as [Hd Hs]. split; [set_solver|]. split; [apply Hin in H; set_solver|]. rewrite size_union, size_singleton by set_solver. cbn [height]. lia.
  - split; [set_solver|]. simpl. lia.
  - destruct H0 as (? & Hd & Hs), H2 as [Hd' Hs']. split; [set_solver|]. rewrite size_union by done. rewrite fmap_cons. simpl list_max. lia.
Qed.
Lemma repr_self h l t F : repr h l t F -> l ∈ F.
Proof. intros Hr. by apply repr_dom_mut in Hr as (? & _). Qed.
Lemma repr_dom h l t F : repr h l t F -> F ⊆ dom h.
Proof. intros Hr. by apply repr_dom_mut in Hr as (_ & ? & _). Qed.
Lemma reprs_dom h xs ts F : reprs h xs ts F -> F ⊆ dom h.
Proof. intros Hr. by apply repr_dom_mut in Hr as (? & _). Qed.
Lemma repr_height h l t F : repr h l t F -> (height t <= size F)%nat.
Proof. intros Hr. by apply repr_dom_mut in Hr as (_ & _ & ?). Qed.

(** Objects have positive locations below the counter. *)
Definition store_ok (s : Store) : Prop := (0 < crtid s)%Z /\ forall l, l ∈ dom (objects s) -> (0 < l < crtid s)%Z.

Lemma store_size s F : store_ok s -> F ⊆ dom (objects s) -> (size F <= Z.to_nat (crtid s))%nat.
Proof.
  intros [Hpos Hs] HF. assert (Hsub : F ⊆ (list_to_set (Z.of_nat <$> seq 0 (Z.to_nat (crtid s))) : gset loc)).
  { intros x Hx. apply HF, Hs in Hx. apply elem_of_list_to_set, list_elem_of_fmap. exists (Z.to_nat x). rewrite elem_of_seq. lia. }
  apply subseteq_size in Hsub. rewrite size_list_to_set in Hsub by (apply NoDup_fmap_2, NoDup_seq; intros ???; lia).
  by rewrite length_fmap, length_seq in Hsub.
Qed.
Lemma repr_fuel s l t F : store_ok s -> repr (objects s) l t F -> (height t <= Z.to_nat (crtid s))%nat.
Proof. intros Hs Hr. etrans; [by eapply repr_height|]. by eapply store_size, repr_dom. Qed.

(** ** Operations on trees *)
Definition aval_merge {A} (eqb : A -> A -> bool) (a b : aval A) : aval A :=
  match a, b with
  | AUninit, AUninit => AUninit
  | AKnown x, AKnown y => if eqb x y then AKnown x else AUnknown
  | _, _ => AUnknown
  end.
Definition aval_changed {A} (a' a : aval A) : bool :=
  match a', a with AUninit, AUninit | AUnknown, AUnknown | AKnown _, AKnown _ => false | _, _ => true end.
Definition aval_eqb {A} (eqb : A -> A -> bool) (a b : aval A) : bool :=
  match a, b with AUninit, AUninit | AUnknown, AUnknown => true | AKnown x, AKnown y => eqb x y | _, _ => false end.

(** The least upper bound and whether it differs from the first leaf. *)
Definition leaf_merge (l l' : leaf) : option (leaf * bool) :=
  match l, l' with
  | LBool a, LBool b => Some (LBool (aval_merge Bool.eqb a b), aval_changed (aval_merge Bool.eqb a b) a)
  | LInt t a, LInt _ b => Some (LInt t (aval_merge Z.eqb a b), aval_changed (aval_merge Z.eqb a b) a)
  | LVarbit a, LVarbit b => Some (LVarbit (aval_merge (fun _ _ => true) a b), aval_changed (aval_merge (fun _ _ => true) a b) a)
  | LEnum a, LEnum b => Some (LEnum (aval_merge String.eqb a b), aval_changed (aval_merge String.eqb a b) a)
  | LExtern, LExtern => Some (LExtern, false)
  | LPacketIn o c, LPacketIn o' c' => if (o' <? o)%Z then Some (LPacketIn o' (c || c'), true) else Some (LPacketIn o c, false)
  | _, _ => None
  end.
Fixpoint tmerge (t t' : tree) : option (tree * bool) :=
  let go := fix go ts ts' := match ts, ts' with
                             | [], [] => Some ([], false)
                             | t :: ts, t' :: ts' => '(u, b) ← tmerge t t'; '(us, c) ← go ts ts'; Some (u :: us, b || c)
                             | _, _ => None
                             end in
  match t, t' with
  | TLeaf l, TLeaf l' => '(u, b) ← leaf_merge l l'; Some (TLeaf u, b)
  | TStruct ks ts, TStruct ks' ts' => if decide (ks = ks') then '(us, b) ← go ts ts'; Some (TStruct ks us, b) else None
  | THeader ks ts v, THeader ks' ts' v' =>
      if decide (ks = ks')
      then '(us, b) ← go ts ts'; let v1 := aval_merge Bool.eqb v v' in Some (THeader ks us v1, b || aval_changed v1 v)
      else None
  | TArray ts, TArray ts' => '(us, b) ← go ts ts'; Some (TArray us, b)
  | TTuple ts, TTuple ts' => '(us, b) ← go ts ts'; Some (TTuple us, b)
  | _, _ => None
  end.
Fixpoint tmerges (ts ts' : list tree) : option (list tree * bool) :=
  match ts, ts' with
  | [], [] => Some ([], false)
  | t :: ts, t' :: ts' => '(u, b) ← tmerge t t'; '(us, c) ← tmerges ts ts'; Some (u :: us, b || c)
  | _, _ => None
  end.

(** Equality, which does not look into invalid headers. *)
Definition leaf_equals (l l' : leaf) : bool :=
  match l, l' with
  | LBool a, LBool b => aval_eqb Bool.eqb a b
  | LInt _ a, LInt _ b => aval_eqb Z.eqb a b
  | LVarbit a, LVarbit b => aval_eqb (fun _ _ => true) a b
  | LEnum a, LEnum b => aval_eqb String.eqb a b
  | LExtern, (LExtern | LPacketIn _ _) => true
  | LPacketIn o _, LPacketIn o' _ => (o =? o')%Z
  | _, _ => false
  end.
Fixpoint tequals (t t' : tree) : bool :=
  let go := fix go ts ts' := match ts, ts' with [], [] => true | t :: ts, t' :: ts' => tequals t t' && go ts ts' | _, _ => false end in
  match t, t' with
  | TLeaf l, TLeaf l' => leaf_equals l l'
  | TStruct _ ts, TStruct _ ts' => go ts ts'
  | THeader _ ts v, THeader _ ts' v' =>
      aval_eqb Bool.eqb v v' && (match v with AKnown false => true | _ => go ts ts' end)
  | TArray ts, TArray ts' | TTuple ts, TTuple ts' => go ts ts'
  | _, _ => false
  end.
Fixpoint tequal_lists (ts ts' : list tree) : bool :=
  match ts, ts' with [], [] => true | t :: ts, t' :: ts' => tequals t t' && tequal_lists ts ts' | _, _ => false end.

(** Every scalar unknown; externs have no such value. *)
Definition leaf_unknown (l : leaf) : option leaf :=
  match l with
  | LBool _ => Some (LBool AUnknown)
  | LInt t _ => Some (LInt t AUnknown)
  | LVarbit _ => Some (LVarbit AUnknown)
  | LEnum _ => Some (LEnum AUnknown)
  | LExtern | LPacketIn _ _ => None
  end.
Fixpoint tunknown (t : tree) : option tree :=
  let go := fix go ts := match ts with [] => Some [] | t :: ts => u ← tunknown t; us ← go ts; Some (u :: us) end in
  match t with
  | TLeaf l => TLeaf <$> leaf_unknown l
  | TStruct ks ts => TStruct ks <$> go ts
  | THeader ks ts _ => (fun us => THeader ks us AUnknown) <$> go ts
  | TArray ts => TArray <$> go ts
  | TTuple ts => TTuple <$> go ts
  end.
Fixpoint tunknowns (ts : list tree) : option (list tree) :=
  match ts with [] => Some [] | t :: ts => u ← tunknown t; us ← tunknowns ts; Some (u :: us) end.

(** The trees [u] that can be assigned to [t]: of the same shape, and without
    parts that are read-only. *)
Definition leaf_assignable (l u : leaf) : bool :=
  match l, u with
  | LBool _, LBool _ | LVarbit _, LVarbit _ | LEnum _, LEnum _ => true
  | LInt t _, LInt t' _ => same_type t t'
  | _, _ => false
  end.
Fixpoint assignable (t u : tree) : bool :=
  let go := fix go ts us := match ts, us with [], [] => true | t :: ts, u :: us => assignable t u && go ts us | _, _ => false end in
  match t, u with
  | TLeaf l, TLeaf l' => leaf_assignable l l'
  | TStruct ks ts, TStruct ks' us => bool_decide (ks = ks') && go ts us
  | THeader ks ts _, THeader ks' us _ => bool_decide (ks = ks') && go ts us
  | TArray ts, TArray us => go ts us
  | _, _ => false
  end.
Fixpoint assignables (ts us : list tree) : bool :=
  match ts, us with [], [] => true | t :: ts, u :: us => assignable t u && assignables ts us | _, _ => false end.

Lemma tmerge_struct ks ts ks' ts' : tmerge (TStruct ks ts) (TStruct ks' ts') =
  if decide (ks = ks') then '(us, b) ← tmerges ts ts'; Some (TStruct ks us, b) else None.
Proof. reflexivity. Qed.
Lemma tmerge_header ks ts v ks' ts' v' : tmerge (THeader ks ts v) (THeader ks' ts' v') =
  if decide (ks = ks')
  then '(us, b) ← tmerges ts ts'; Some (THeader ks us (aval_merge Bool.eqb v v'), b || aval_changed (aval_merge Bool.eqb v v') v)
  else None.
Proof. reflexivity. Qed.
Lemma tmerge_array ts ts' : tmerge (TArray ts) (TArray ts') = '(us, b) ← tmerges ts ts'; Some (TArray us, b).
Proof. reflexivity. Qed.
Lemma tmerge_tuple ts ts' : tmerge (TTuple ts) (TTuple ts') = '(us, b) ← tmerges ts ts'; Some (TTuple us, b).
Proof. reflexivity. Qed.

(** Trees of one type. *)
Fixpoint shaped (t u : tree) : bool :=
  let go := fix go ts us := match ts, us with [], [] => true | t :: ts, u :: us => shaped t u && go ts us | _, _ => false end in
  match t, u with
  | TLeaf _, TLeaf _ => true
  | TStruct ks ts, TStruct ks' us => bool_decide (ks = ks') && go ts us
  | THeader ks ts _, THeader ks' us _ => bool_decide (ks = ks') && go ts us
  | TArray ts, TArray us => go ts us
  | TTuple ts, TTuple us => go ts us
  | _, _ => false
  end.
Fixpoint shapeds (ts us : list tree) : bool :=
  match ts, us with [], [] => true | t :: ts, u :: us => shaped t u && shapeds ts us | _, _ => false end.
