(* ===== verification/SymRefine.v ===== *)
(** * The methods of symbolic values refine the operations on trees

    Each method, run on objects that represent trees, computes the operation of
    [SymTree.v] on these trees, writes to no other object, and has enough fuel. *)
From S2P Require Import Prelude Gmp Ir SymValue SymTree.
Local Open Scope flexplan_scope.

(** [set_solver] on the facts about sets only. *)
Ltac sets :=
  repeat match goal with
         | H : ?T |- _ =>
             match type of T with Prop => idtac end;
             lazymatch T with
             | _ ## _ => fail
             | _ ∉ _ => fail
             | _ ∈ _ => fail
             | _ ⊆ _ => fail
             | _ <> _ => fail
             | _ => clear H
             end
         end; set_solver.

(** The methods, down to the classes. *)
Ltac unfold_merge := cbn [merge_]; unfold SymbolicBool_merge, SymbolicInteger_merge, SymbolicVarbit_merge, SymbolicEnum_merge,
  SymbolicStruct_merge, SymbolicHeader_merge, SymbolicArray_merge, SymbolicTuple_merge, SymbolicPacketIn_merge, merge_fields.
Ltac unfold_assign := cbn [assign_]; unfold SymbolicBool_assign, SymbolicInteger_assign, SymbolicVarbit_assign, SymbolicEnum_assign,
  SymbolicStruct_assign, SymbolicHeader_assign, SymbolicArray_assign, assign_fields.
Ltac unfold_equals := cbn [equals_]; unfold SymbolicInteger_equals, SymbolicStruct_equals, SymbolicHeader_equals, SymbolicArray_equals,
  SymbolicTuple_equals, equal_fields.
Ltac unfold_unknown := cbn [setAllUnknown_]; unfold SymbolicHeader_setAllUnknown, SymbolicStruct_setAllUnknown, SymbolicArray_setAllUnknown,
  SymbolicTuple_setAllUnknown.
Ltac unfold_clone := cbn [clone_]; unfold SymbolicStruct_clone, SymbolicHeader_clone, SymbolicArray_clone, AnyElement_clone, SymbolicTuple_clone, clone_fields.

(** ** The monad *)
Lemma M_bind_ok {A B} (m : M A) (k : A -> M B) s a s' : m s = oret (a, s') -> (m ≫= k) s = k a s'.
Proof. intros Hm. unfold mbind, M_bind. rewrite Hm. simpl. by destruct (k a s'). Qed.
Lemma deref_ok l s v : objects s !! l = Some v -> deref l s = oret (v, s).
Proof. intros Hl. unfold deref. by rewrite Hl. Qed.
Lemma mret_ok {A} (a : A) s : (mret a : M A) s = oret (a, s).
Proof. done. Qed.

Lemma iterM_ext2 {A B} (f : A -> M unit) (g : B -> M unit) la lb : Forall2 (fun a b => forall s, f a s = g b s) la lb ->
  forall s, iterM f la s = iterM g lb s.
Proof.
  induction 1 as [|a b la lb Hab _ IH]; intros s; [done|]. cbn [iterM]. unfold mbind, M_bind. rewrite Hab.
  destruct (g b s) as [r ds|]; simpl; [|done]. by rewrite IH.
Qed.
Lemma anyM_ext2 {A B} (f : A -> M bool) (g : B -> M bool) la lb : Forall2 (fun a b => forall s, f a s = g b s) la lb ->
  forall s, anyM f la s = anyM g lb s.
Proof.
  induction 1 as [|a b la lb Hab _ IH]; intros s; [done|]. cbn [anyM]. unfold mbind, M_bind. rewrite Hab.
  destruct (g b s) as [r ds|]; simpl; [|done]. by rewrite IH.
Qed.
Lemma allM_ext2 {A B} (f : A -> M bool) (g : B -> M bool) la lb : Forall2 (fun a b => forall s, f a s = g b s) la lb ->
  forall s, allM f la s = allM g lb s.
Proof.
  induction 1 as [|a b la lb Hab _ IH]; intros s; [done|]. cbn [allM]. unfold mbind, M_bind. rewrite Hab.
  destruct (g b s) as [[[] s'] ds|]; simpl; [by rewrite IH|done|done].
Qed.

(** Looking up the fields of [ofs] in [fs] pairs the two maps. *)
Lemma field_of_ok fs k x s : NoDup fs.*1 -> (k, x) ∈ fs -> field_of fs k s = oret (x, s).
Proof.
  intros Hnd Hin. unfold field_of. induction fs as [|[k' x'] fs IH]; [by apply elem_of_nil in Hin|]. cbn [List.find fst].
  apply NoDup_cons in Hnd as [Hk Hnd]. destruct (String.eqb_spec k' k) as [->|Hne].
  - apply elem_of_cons in Hin as [[= ->]|Hin]; [done|]. destruct Hk. apply list_elem_of_fmap. by exists (k, x).
  - apply elem_of_cons in Hin as [[= -> ->]|Hin]; [done|]. by apply IH.
Qed.
Lemma NoDup_fst_inj (fs : list (string * loc)) k x y : NoDup fs.*1 -> (k, x) ∈ fs -> (k, y) ∈ fs -> x = y.
Proof.
  intros Hnd Hx Hy. pose proof (field_of_ok fs k x empty_store Hnd Hx) as H1. rewrite (field_of_ok fs k y empty_store Hnd Hy) in H1. by injection H1.
Qed.
Lemma fields_paired {B} (g : loc -> loc -> M B) fs ofs : NoDup fs.*1 -> fs.*1 = ofs.*1 ->
  Forall2 (fun f p => forall s, (x ← field_of fs f.1; g x f.2) s = g p.1 p.2 s) ofs (zip fs.*2 ofs.*2).
Proof.
  intros Hnd. assert (Hgen : forall fs1 ofs1, (forall f, f ∈ fs1 -> f ∈ fs) -> fs1.*1 = ofs1.*1 ->
    Forall2 (fun f p => forall s, (x ← field_of fs f.1; g x f.2) s = g p.1 p.2 s) ofs1 (zip fs1.*2 ofs1.*2)).
  { induction fs1 as [|[k x] fs1 IH]; intros [|[k' y] ofs1] Hsub Heq; try done. injection Heq as <- Heq. simpl. constructor.
    - intros s. simpl. rewrite (M_bind_ok _ _ s x s); [done|]. apply field_of_ok; [done|]. apply Hsub. by left.
    - apply IH; [|done]. intros f Hf. apply Hsub. by right. }
  by apply Hgen.
Qed.
Lemma zip_seq_paired {B} (get : nat -> M loc) (g : loc -> loc -> M B) values ovalues :
  (forall i o s, ovalues !! i = Some o -> get i s = oret (o, s)) -> length values = length ovalues ->
  Forall2 (fun p q => forall s, (x ← get p.1; g p.2 x) s = g q.1 q.2 s) (zip (seq 0 (length values)) values) (zip values ovalues).
Proof.
  intros Hget. assert (Hgen : forall vs os k, length vs = length os -> (forall i o, os !! i = Some o -> ovalues !! (k + i)%nat = Some o) ->
    Forall2 (fun p q => forall s, (x ← get p.1; g p.2 x) s = g q.1 q.2 s) (zip (seq k (length vs)) vs) (zip vs os)).
  { induction vs as [|v vs IH]; intros [|o os] k Hl Ho; try done. simpl. constructor.
    - intros s. simpl. rewrite (M_bind_ok _ _ s o s); [done|]. apply Hget. specialize (Ho 0%nat o eq_refl). by rewrite Nat.add_0_r in Ho.
    - apply IH; [by injection Hl|]. intros i o' Hi. specialize (Ho (S i) o' Hi). by rewrite <- Nat.add_succ_comm in Ho. }
  intros Hl. by apply Hgen.
Qed.
Lemma elements_paired {B} (g : loc -> loc -> M B) values ovalues : length values = length ovalues ->
  Forall2 (fun p q => forall s, (x ← get_element ovalues p.1; g p.2 x) s = g q.1 q.2 s) (zip (seq 0 (length values)) values) (zip values ovalues).
Proof. apply zip_seq_paired. intros i o s Hi. unfold get_element. by rewrite Hi. Qed.
Lemma at_paired {B} (g : loc -> loc -> M B) values ovalues : length values = length ovalues ->
  Forall2 (fun p q => forall s, (match ovalues !! p.1 with Some x => g p.2 x | None => fail_ "std::out_of_range" end) s = g q.1 q.2 s)
    (zip (seq 0 (length values)) values) (zip values ovalues).
Proof.
  intros Hl. eapply Forall2_impl; [apply (zip_seq_paired (fun i => match ovalues !! i with Some x => mret x | None => fail_ "std::out_of_range" end) g); [|done]|].
  - intros i o s Hi. by rewrite Hi.
  - intros p q Hpq s. rewrite <- Hpq. destruct (ovalues !! p.1) as [x|]; [by rewrite (M_bind_ok _ _ s x s)|done].
Qed.

(** ** Writes *)
(** Only the objects of [F] change, and none is created. *)
Definition writes (s : Store) (F : gset loc) (s' : Store) : Prop :=
  crtid s' = crtid s /\ forall x, x ∉ F -> objects s' !! x = objects s !! x.
Lemma writes_refl s F : writes s F s.
Proof. done. Qed.
Lemma writes_trans s1 s2 s3 F : writes s1 F s2 -> writes s2 F s3 -> writes s1 F s3.
Proof. intros [H1 H2] [H3 H4]. split; [congruence|]. intros x Hx. by rewrite H4, H2. Qed.
Lemma writes_mono s F F' s' : F ⊆ F' -> writes s F s' -> writes s F' s'.
Proof. intros HF [H1 H2]. split; [done|]. intros x Hx. apply H2. set_solver. Qed.
Lemma writes_repr s F s' l t G : writes s F s' -> F ## G -> repr (objects s) l t G -> repr (objects s') l t G.
Proof. intros [_ Hw] Hd Hr. eapply repr_frame; [exact Hr|]. intros x Hx. apply Hw. set_solver. Qed.
Lemma writes_reprs s F s' ls ts G : writes s F s' -> F ## G -> reprs (objects s) ls ts G -> reprs (objects s') ls ts G.
Proof. intros [_ Hw] Hd Hr. eapply reprs_frame; [exact Hr|]. intros x Hx. apply Hw. set_solver. Qed.
Lemma update_ok l v s : update l v s = oret (tt, {| objects := <[l := v]> (objects s); crtid := crtid s |}).
Proof. done. Qed.
Lemma update_writes l v s F : l ∈ F -> writes s F {| objects := <[l := v]> (objects s); crtid := crtid s |}.
Proof. intros Hl. split; [done|]. intros x Hx. simpl. rewrite lookup_insert_ne; [done|]. intros ->. done. Qed.
Lemma writes_store_ok s F s' : store_ok s -> F ⊆ dom (objects s) -> writes s F s' -> store_ok s'.
Proof.
  intros [Hp Hs] HF [Hc Hw]. split; [by rewrite Hc|]. intros l Hl. rewrite Hc. apply Hs.
  destruct (decide (l ∈ F)) as [Hin|Hin]; [by apply HF|]. apply elem_of_dom. rewrite <- Hw by done. by apply elem_of_dom.
Qed.

(** ** Objects that are leaves *)
Lemma leaf_of_int ty st c lf : leaf_of (SymbolicInteger ty st c) = Some lf -> exists a, lf = LInt ty a /\
  (st = Uninitialized /\ a = AUninit \/ st = NotConstant /\ a = AUnknown \/
   exists k, st = Constant_ /\ c = Some k /\ same_type (ctype k) ty = true /\ a = AKnown (cvalue k)).
Proof.
  destruct st; simpl; [intros [= <-]; eexists; split; [done|by left]|intros [= <-]; eexists; split; [done|right; by left]|]. destruct c as [k|]; [|done].
  destruct (same_type (ctype k) ty) eqn:E; [|done]. intros [= <-]. eexists. split; [done|]. right; right. by exists k.
Qed.

(** The class of the object of a leaf. *)
Lemma leaf_of_inv v lf : leaf_of v = Some lf ->
  match lf with
  | LBool a => exists st b, v = SymbolicBool st b /\ a = aval_of st b
  | LInt ty a => exists st c, v = SymbolicInteger ty st c /\
      (st = Uninitialized /\ a = AUninit \/ st = NotConstant /\ a = AUnknown \/
       exists k, st = Constant_ /\ c = Some k /\ same_type (ctype k) ty = true /\ a = AKnown (cvalue k))
  | LVarbit a => exists w st, v = SymbolicVarbit w st /\ a = aval_of st tt
  | LEnum a => exists ty st x, v = SymbolicEnum ty st x /\ a = aval_of st x
  | LExtern => exists n, v = SymbolicExtern n
  | LPacketIn o c => v = SymbolicPacketIn o c
  end.
Proof.
  destruct v; try discriminate; try (intros Hv; injection Hv as <-; by repeat eexists).
  intros Hv. apply leaf_of_int in Hv as (a & -> & Ha). by repeat eexists.
Qed.

(** What [merge] does to two leaf objects. *)
Lemma merge_leaf fuel s l l2 v v2 lf lf2 lf' ch : objects s !! l = Some v -> objects s !! l2 = Some v2 -> l <> l2 ->
  leaf_of v = Some lf -> leaf_of v2 = Some lf2 -> leaf_merge lf lf2 = Some (lf', ch) ->
  exists s' v', merge_ (S fuel) l l2 s = oret (ch, s') /\ writes s {[l]} s' /\ objects s' !! l = Some v' /\ leaf_of v' = Some lf'.
Proof.
  intros Hl Hl2 Hne Hv Hv2 Hm. unfold_merge. rewrite (M_bind_ok _ _ s v s) by (by apply deref_ok).
  assert (Hw : forall v', writes s {[l]} {| objects := <[l := v']> (objects s); crtid := crtid s |}) by (intros; apply update_writes; set_solver).
  assert (Hput : forall v' c, leaf_of v' = Some lf' -> c = ch ->
    exists s' w, (update l v';; mret c) s = oret (ch, s') /\ writes s {[l]} s' /\ objects s' !! l = Some w /\ leaf_of w = Some lf').
  { intros v' c Hlf ->. eexists _, v'. split; [reflexivity|]. split; [apply Hw|]. split; [apply lookup_insert_eq|done]. }
  assert (Hkeep : lf' = lf -> ch = false ->
    exists s' w, (mret false : M bool) s = oret (ch, s') /\ writes s {[l]} s' /\ objects s' !! l = Some w /\ leaf_of w = Some lf').
  { intros -> ->. exists s, v. split; [done|]. split; [apply writes_refl|]. done. }
  apply leaf_of_inv in Hv, Hv2.
  destruct lf as [a|ty a|a|a| |o c]; cbn [leaf_merge] in Hm;
    destruct lf2 as [a2|ty2 a2|a2|a2| |o2 c2]; try discriminate.
  - destruct Hv as (st & b & -> & ->), Hv2 as (st2 & b2 & -> & ->). injection Hm as <- <-.
    rewrite (proj2 (Z.eqb_neq l l2) Hne), (M_bind_ok _ _ s _ s) by (by apply deref_ok). apply Hput; by destruct st, st2, b, b2.
  - destruct Hv as (st & c & -> & Ha), Hv2 as (st2 & c2 & -> & Ha2). injection Hm as <- <-. rewrite (M_bind_ok _ _ s _ s) by (by apply deref_ok).
    destruct Ha as [[-> ->]|[[-> ->]|(k & -> & -> & Hk & ->)]], Ha2 as [[-> ->]|[[-> ->]|(k2 & -> & -> & Hk2 & ->)]];
      try (apply Hput; done).
    clear Hkeep. revert Hput. simpl. destruct (cvalue k =? cvalue k2)%Z; intros Hput; apply Hput; simpl; rewrite ?Hk; done.
  - destruct Hv as (w & st & -> & ->), Hv2 as (w2 & st2 & -> & ->). injection Hm as <- <-. rewrite (M_bind_ok _ _ s _ s) by (by apply deref_ok).
    apply Hput; by destruct st, st2.
  - destruct Hv as (ty & st & x & -> & ->), Hv2 as (ty2 & st2 & x2 & -> & ->). injection Hm as <- <-. rewrite (M_bind_ok _ _ s _ s) by (by apply deref_ok).
    clear Hkeep. apply Hput; destruct st, st2; simpl; try done; by destruct (String.eqb x x2).
  - destruct Hv as (n & ->). injection Hm as <- <-. by apply Hkeep.
  - subst v v2. rewrite (M_bind_ok _ _ s _ s) by (by apply deref_ok).
    simpl in Hm. cbn beta match. destruct (o2 <? o)%Z; injection Hm as <- <-; [by apply Hput|by apply Hkeep].
Qed.

(** ** [merge] *)
Lemma tmerge_theader t t2 t' ch : tmerge t t2 = Some (t', ch) -> is_theader t' = is_theader t.
Proof.
  destruct t, t2; try discriminate; rewrite ?tmerge_struct, ?tmerge_header, ?tmerge_array, ?tmerge_tuple; [simpl| | | |]; intros Hm;
    repeat (case_match || destruct (tmerges _ _) as [[]|] || destruct (leaf_merge _ _) as [[]|]); simplify_eq/=; done.
Qed.
Lemma tmerges_theader ts ts2 ts' ch : tmerges ts ts2 = Some (ts', ch) -> Forall (fun t => is_theader t = true) ts ->
  Forall (fun t => is_theader t = true) ts'.
Proof.
  revert ts2 ts' ch. induction ts as [|t ts IH]; intros [|t2 ts2] ts' ch Hm Hall; try discriminate; simpl in Hm; [by simplify_eq|].
  destruct (tmerge t t2) as [[u b]|] eqn:E; [|done]. destruct (tmerges ts ts2) as [[us c]|] eqn:Es; [|done]. simpl in Hm. simplify_eq.
  inversion_clear Hall. constructor; [|by eapply IH]. by erewrite tmerge_theader.
Qed.

Lemma tmerges_length ts ts2 r : tmerges ts ts2 = Some r -> length ts = length ts2.
Proof.
  revert ts2 r. induction ts as [|t ts IH]; intros [|t2 ts2] r Hm; try discriminate; [done|]. simpl in *.
  destruct (tmerge t t2) as [[u b]|]; [|done]. destruct (tmerges ts ts2) eqn:E; [|done]. f_equal. by eapply IH.
Qed.

(** [m] merges the small trees in good stores, so it merges their lists. *)
Definition merges_with (m : loc -> loc -> M bool) (good : Store -> Prop) (small : tree -> Prop) : Prop := forall t l t2 l2 F F2 s t' ch,
  good s -> repr (objects s) l t F -> repr (objects s) l2 t2 F2 -> F ## F2 -> small t -> tmerge t t2 = Some (t', ch) ->
  exists s', m l l2 s = oret (ch, s') /\ writes s F s' /\ repr (objects s') l t' F.
Lemma merges_ok m (good : Store -> Prop) small : merges_with m good small -> (forall s F s', good s -> F ⊆ dom (objects s) -> writes s F s' -> good s') ->
  forall ls ts F, forall ls2 ts2 F2 s ts' ch,
  good s -> reprs (objects s) ls ts F -> reprs (objects s) ls2 ts2 F2 -> F ## F2 -> Forall small ts -> tmerges ts ts2 = Some (ts', ch) ->
  exists s', anyM (fun p => m p.1 p.2) (zip ls ls2) s = oret (ch, s') /\ writes s F s' /\ reprs (objects s') ls ts' F.
Proof.
  intros Hspec Hgood ls. induction ls as [|l ls IH]; intros ts F ls2 ts2 F2 s ts' ch Hg Hr Hr2 Hd Hh Hm.
  - inversion Hr; subst. inversion Hr2; subst; [|done]. injection Hm as <- <-. exists s. split; [done|]. split; [apply writes_refl|done].
  - inversion Hr as [|? ? t ts0 F0 Fs Hrl Hrs Hd0]; subst. inversion Hr2 as [|l2 ls0 t2 ts2' F1 Fs1 Hrl2 Hrs2 Hd1]; subst; [done|]. simpl in Hm.
    destruct (tmerge t t2) as [[u b]|] eqn:E; [|done]. destruct (tmerges ts0 ts2') as [[us c]|] eqn:Es; [|done]. simpl in Hm. simplify_eq.
    inversion_clear Hh. rewrite ?disjoint_union_l, ?disjoint_union_r in Hd. destruct_and? Hd.
    destruct (Hspec t l t2 l2 F0 F1 s u b) as (s1 & He1 & Hw1 & Hu); [done..|].
    destruct (IH ts0 Fs ls0 ts2' Fs1 s1 us c) as (s2 & He2 & Hw2 & Hus); [eapply (Hgood s F0); [done|by eapply repr_dom|done]|by eapply writes_reprs|by eapply writes_reprs|done|done|done|].
    exists s2. cbn [zip zip_with anyM]. cbn [fst snd]. rewrite (M_bind_ok _ _ _ _ _ He1), (M_bind_ok _ _ _ _ _ He2).
    split; [done|]. split; [eapply writes_trans; eapply writes_mono; [|done| |done]; sets|].
    constructor; [|done..]. eapply writes_repr; [done| |done]; sets.
Qed.

Definition merge_spec (fuel : nat) : Prop := merges_with (merge_ fuel) (fun _ => True) (fun t => (height t <= fuel)%nat).
Lemma heights_small ts fuel : (list_max (height <$> ts) <= fuel)%nat -> Forall (fun t => (height t <= fuel)%nat) ts.
Proof. rewrite list_max_le, Forall_fmap. done. Qed.
Lemma merge_list_ok fuel : merge_spec fuel -> forall ls ts F ls2 ts2 F2 s ts' ch,
  reprs (objects s) ls ts F -> reprs (objects s) ls2 ts2 F2 -> F ## F2 -> (list_max (height <$> ts) <= fuel)%nat -> tmerges ts ts2 = Some (ts', ch) ->
  exists s', anyM (fun p => merge_ fuel p.1 p.2) (zip ls ls2) s = oret (ch, s') /\ writes s F s' /\ reprs (objects s') ls ts' F.
Proof. intros Hspec ls ts F ls2 ts2 F2 s ts' ch Hr Hr2 Hd Hh Hm. eapply merges_ok; [exact Hspec|done|done|done|done|done|by apply heights_small|done]. Qed.

Lemma merge_fields_ok fuel fs ofs ts ts2 F F2 s ts' ch : merge_spec fuel -> NoDup fs.*1 -> fs.*1 = ofs.*1 ->
  reprs (objects s) fs.*2 ts F -> reprs (objects s) ofs.*2 ts2 F2 -> F ## F2 -> (list_max (height <$> ts) <= fuel)%nat -> tmerges ts ts2 = Some (ts', ch) ->
  exists s', anyM (fun f => x ← field_of fs f.1; merge_ fuel x f.2) ofs s = oret (ch, s') /\ writes s F s' /\ reprs (objects s') fs.*2 ts' F.
Proof.
  intros Hspec Hnd Hk Hr Hr2 Hd Hh Hm. rewrite (anyM_ext2 _ _ _ _ (fields_paired (merge_ fuel) fs ofs Hnd Hk)). by eapply merge_list_ok.
Qed.

Lemma merge_spec_holds fuel : merge_spec fuel.
Proof.
  induction fuel as [|fuel IH]; intros t l t2 l2 F F2 s t' ch _ Hr Hr2 Hd Hh Hm; [destruct t; simpl in Hh; lia|].
  inversion Hr as [l0 v lf Hl Hlf|l0 ty fs ts F0 Hl Hok Hrs Hnl|l0 ty fs valid st b ts F0 Hl Hv Hok Hrs Hnl Hnv Hlv|l0 ty n vs ts F0 Hl Hrs Hnl Hth|l0 ty vs ts F0 Hl Hrs Hnl];
    inversion Hr2 as [l0' v2 lf2 Hl2 Hlf2|l0' ty2 fs2 ts2 F1 Hl2 Hok2 Hrs2 Hnl2|l0' ty2 fs2 valid2 st2 b2 ts2 F1 Hl2 Hv2 Hok2 Hrs2 Hnl2 Hnv2 Hlv2|l0' ty2 n2 vs2 ts2 F1 Hl2 Hrs2 Hnl2 Hth2|l0' ty2 vs2 ts2 F1 Hl2 Hrs2 Hnl2]; subst; try discriminate;
    rewrite ?disjoint_union_l, ?disjoint_union_r in Hd; destruct_and? Hd.
  - simpl in Hm. destruct (leaf_merge lf lf2) as [[lf' c]|] eqn:E; [|done]. simpl in Hm. simplify_eq.
    edestruct (merge_leaf fuel s l l2) as (s' & v' & He & Hw & Hl' & Hlf'); [done|done|sets|done|done|done|]. exists s'. split; [done|]. split; [done|]. by econstructor.
  - rewrite tmerge_struct in Hm. destruct (decide _) as [Hk|]; [|done]. destruct (tmerges ts ts2) as [[us c]|] eqn:E; [|done]. simpl in Hm. simplify_eq.
    cbn [height] in Hh. destruct Hok as [Hnd Hall].
    destruct (merge_fields_ok fuel fs fs2 ts ts2 F0 F1 s us ch) as (s1 & He & Hw & Hus); [done..|lia|done|].
    exists s1. unfold_merge. rewrite (M_bind_ok _ _ s _ s) by (by apply deref_ok). cbn beta match. rewrite (M_bind_ok _ _ s _ s) by (by apply deref_ok).
    split; [done|]. split; [eapply writes_mono; [|done]; sets|]. econstructor; [|done..]. destruct Hw as [_ Hw]. by rewrite Hw.
  - rewrite tmerge_header in Hm. destruct (decide _) as [Hk|]; [|done]. destruct (tmerges ts ts2) as [[us c]|] eqn:E; [|done]. simpl in Hm. simplify_eq.
    cbn [height] in Hh. destruct Hok as [Hnd Hall].
    destruct (merge_fields_ok fuel fs fs2 ts ts2 F0 F1 s us c) as (s1 & He & Hw & Hus); [done..|lia|done|].
    assert (Hv1 : objects s1 !! valid = Some (SymbolicBool st b)) by (by rewrite (proj2 Hw)).
    assert (Hv2' : objects s1 !! valid2 = Some (SymbolicBool st2 b2)) by (rewrite (proj2 Hw); [done|sets]).
    edestruct (IH (TLeaf (LBool (aval_of st b))) valid (TLeaf (LBool (aval_of st2 b2))) valid2 {[valid]} {[valid2]} s1) as (s2 & He2 & Hw2 & Hr3);
      [done|by econstructor|by econstructor|sets|simpl; lia|reflexivity|].
    exists s2. unfold_merge. rewrite (M_bind_ok _ _ s _ s) by (by apply deref_ok). cbn beta match. rewrite (M_bind_ok _ _ s _ s) by (by apply deref_ok).
    cbn beta match. cbn [header_parts]. rewrite (M_bind_ok _ _ _ _ _ He), (M_bind_ok _ _ _ _ _ He2).
    split; [done|]. split; [eapply writes_trans; eapply writes_mono; [|done| |done]; sets|].
    inversion Hr3 as [l0 v lf Hl0 Hlf| | | |]; subst. apply leaf_of_inv in Hlf as (st' & b' & -> & Hav). rewrite Hav.
    econstructor; [|done|done| |done..]; [rewrite (proj2 Hw2), (proj2 Hw); [done|sets..]|]. eapply writes_reprs; [done| |done]. sets.
  - rewrite tmerge_array in Hm. destruct (tmerges ts ts2) as [[us c]|] eqn:E; [|done]. simpl in Hm. simplify_eq. cbn [height] in Hh.
    assert (Hlen : length vs = length vs2) by (rewrite (reprs_length _ _ _ _ Hrs), (reprs_length _ _ _ _ Hrs2); by eapply tmerges_length).
    edestruct (merge_list_ok fuel IH vs ts F0 vs2 ts2 F1 s us ch) as (s1 & He & Hw & Hus); [done..|lia|done|].
    exists s1. unfold_merge. rewrite (M_bind_ok _ _ s _ s) by (by apply deref_ok). cbn beta match. rewrite (M_bind_ok _ _ s _ s) by (by apply deref_ok).
    cbn beta match. rewrite (anyM_ext2 _ _ _ _ (elements_paired (merge_ fuel) vs vs2 Hlen)).
    split; [done|]. split; [eapply writes_mono; [|done]; sets|].
    econstructor; [by rewrite (proj2 Hw)|done|done|by eapply tmerges_theader].
  - rewrite tmerge_tuple in Hm. destruct (tmerges ts ts2) as [[us c]|] eqn:E; [|done]. simpl in Hm. simplify_eq. cbn [height] in Hh.
    assert (Hlen : length vs = length vs2) by (rewrite (reprs_length _ _ _ _ Hrs), (reprs_length _ _ _ _ Hrs2); by eapply tmerges_length).
    edestruct (merge_list_ok fuel IH vs ts F0 vs2 ts2 F1 s us ch) as (s1 & He & Hw & Hus); [done..|lia|done|].
    exists s1. unfold_merge. rewrite (M_bind_ok _ _ s _ s) by (by apply deref_ok). cbn beta match. rewrite (M_bind_ok _ _ s _ s) by (by apply deref_ok).
    cbn beta match. rewrite (proj2 (Nat.eqb_eq _ _) Hlen).
    split; [done|]. split; [eapply writes_mono; [|done]; sets|]. econstructor; [by rewrite (proj2 Hw)|done..].
Qed.

(** ** [equals] *)
Lemma equals_leaf fuel s l l2 v v2 lf lf2 : objects s !! l = Some v -> objects s !! l2 = Some v2 ->
  leaf_of v = Some lf -> leaf_of v2 = Some lf2 -> equals_ (S fuel) l l2 s = oret (leaf_equals lf lf2, s).
Proof.
  intros Hl Hl2 Hv Hv2. unfold_equals. rewrite (M_bind_ok _ _ s v s), (M_bind_ok _ _ s v2 s) by (by apply deref_ok).
  apply leaf_of_inv in Hv, Hv2.
  destruct lf, lf2; repeat match goal with H : exists _, _ |- _ => destruct H | H : _ /\ _ |- _ => destruct H | H : _ \/ _ |- _ => destruct H end;
    subst; done || (repeat match goal with st : ValueState |- _ => destruct st end; done).
Qed.

Definition equals_with (m : loc -> loc -> M bool) (s : Store) (small : tree -> Prop) : Prop := forall t l t2 l2 F F2,
  repr (objects s) l t F -> repr (objects s) l2 t2 F2 -> small t -> shaped t t2 = true -> m l l2 s = oret (tequals t t2, s).
Lemma equals_ok m s small : equals_with m s small -> forall ls ts F ls2 ts2 F2,
  reprs (objects s) ls ts F -> reprs (objects s) ls2 ts2 F2 -> Forall small ts -> shapeds ts ts2 = true ->
  allM (fun p => m p.1 p.2) (zip ls ls2) s = oret (tequal_lists ts ts2, s).
Proof.
  intros Hspec ls ts F ls2 ts2 F2 Hr. revert ls2 ts2 F2. induction Hr as [|l ls t ts F0 Fs Hrl Hrs IH Hd]; intros ls2 ts2 F2 Hr2 Hh Hm.
  - inversion Hr2; subst; done.
  - inversion Hr2 as [|l2 ls2' t2 ts2' F1 Fs1 Hrl2 Hrs2 Hd1]; subst; [done|]. simpl in Hm. apply andb_true_iff in Hm as [Hm Hms].
    inversion_clear Hh. cbn [zip zip_with allM tequal_lists]. cbn [fst snd].
    rewrite (M_bind_ok _ _ _ _ _ (Hspec _ _ _ _ _ _ Hrl Hrl2 ltac:(done) Hm)). destruct (tequals t t2); [|done]. by eapply IH.
Qed.
Definition equals_spec (fuel : nat) : Prop := forall s, equals_with (equals_ fuel) s (fun t => (height t <= fuel)%nat).
Lemma equals_list_ok fuel : equals_spec fuel -> forall ls ts F ls2 ts2 F2 s,
  reprs (objects s) ls ts F -> reprs (objects s) ls2 ts2 F2 -> (list_max (height <$> ts) <= fuel)%nat -> shapeds ts ts2 = true ->
  allM (fun p => equals_ fuel p.1 p.2) (zip ls ls2) s = oret (tequal_lists ts ts2, s).
Proof. intros Hspec ls ts F ls2 ts2 F2 s Hr Hr2 Hh Hm. eapply equals_ok; [apply Hspec|done|done|by apply heights_small|done]. Qed.
Lemma shapeds_length ts ts2 : shapeds ts ts2 = true -> length ts = length ts2.
Proof. revert ts2. induction ts as [|t ts IH]; intros [|t2 ts2] Hm; try done. simpl in *. apply andb_true_iff in Hm as [_ Hm]. f_equal. by apply IH. Qed.
Lemma equals_spec_holds fuel : equals_spec fuel.
Proof.
  induction fuel as [|fuel IH]; intros s t l t2 l2 F F2 Hr Hr2 Hh Hm; [destruct t; simpl in Hh; lia|].
  inversion Hr as [l0 v lf Hl Hlf|l0 ty fs ts F0 Hl Hok Hrs Hnl|l0 ty fs valid st b ts F0 Hl Hv Hok Hrs Hnl Hnv Hlv|l0 ty n vs ts F0 Hl Hrs Hnl Hth|l0 ty vs ts F0 Hl Hrs Hnl];
    inversion Hr2 as [l0' v2 lf2 Hl2 Hlf2|l0' ty2 fs2 ts2 F1 Hl2 Hok2 Hrs2 Hnl2|l0' ty2 fs2 valid2 st2 b2 ts2 F1 Hl2 Hv2 Hok2 Hrs2 Hnl2 Hnv2 Hlv2|l0' ty2 n2 vs2 ts2 F1 Hl2 Hrs2 Hnl2 Hth2|l0' ty2 vs2 ts2 F1 Hl2 Hrs2 Hnl2]; subst; try discriminate;
    [by eapply equals_leaf|..]; cbn [height] in Hh; unfold_equals;
    rewrite (M_bind_ok _ _ s _ s), (M_bind_ok _ _ s _ s) by (by apply deref_ok); cbn beta match; cbn [struct_fields header_parts].
  - change (bool_decide (fs.*1 = fs2.*1) && shapeds ts ts2 = true) in Hm. apply andb_true_iff in Hm as [Hk%bool_decide_eq_true Hm].
    rewrite (allM_ext2 _ _ _ _ (fields_paired (equals_ fuel) fs fs2 (proj1 Hok) Hk)). eapply equals_list_ok; [done..|lia|done].
  - change (bool_decide (fs.*1 = fs2.*1) && shapeds ts ts2 = true) in Hm. apply andb_true_iff in Hm as [Hk%bool_decide_eq_true Hm].
    assert (He : equals_ fuel valid valid2 s = oret (aval_eqb Bool.eqb (aval_of st b) (aval_of st2 b2), s)).
    { destruct fuel as [|fuel']; [lia|]. by apply (equals_leaf fuel' s valid valid2 _ _ (LBool (aval_of st b)) (LBool (aval_of st2 b2)) Hv Hv2). }
    rewrite (M_bind_ok _ _ _ _ _ He).
    change (tequals _ _) with (aval_eqb Bool.eqb (aval_of st b) (aval_of st2 b2) && (match aval_of st b with AKnown false => true | _ => tequal_lists ts ts2 end)).
    destruct (aval_eqb _ _ _); [|done]. cbn [negb andb]. rewrite (M_bind_ok _ _ s _ s) by (by apply deref_ok). cbn beta match.
    assert (Hgo : allM (fun f => x ← field_of fs f.1; equals_ fuel x f.2) fs2 s = oret (tequal_lists ts ts2, s)).
    { rewrite (allM_ext2 _ _ _ _ (fields_paired (equals_ fuel) fs fs2 (proj1 Hok) Hk)). eapply equals_list_ok; [done..|lia|done]. }
    destruct st; [exact Hgo|exact Hgo|]. destruct b; [exact Hgo|done].
  - change (shapeds ts ts2 = true) in Hm. assert (Hlen : length vs = length vs2) by (rewrite (reprs_length _ _ _ _ Hrs), (reprs_length _ _ _ _ Hrs2); by apply shapeds_length).
    rewrite (allM_ext2 _ _ _ _ (elements_paired (equals_ fuel) vs vs2 Hlen)). eapply equals_list_ok; [done..|lia|done].
  - change (shapeds ts ts2 = true) in Hm. assert (Hlen : length vs = length vs2) by (rewrite (reprs_length _ _ _ _ Hrs), (reprs_length _ _ _ _ Hrs2); by apply shapeds_length).
    rewrite (allM_ext2 _ _ _ _ (at_paired (equals_ fuel) vs vs2 Hlen)). eapply equals_list_ok; [done..|lia|done].
Qed.

(** ** [setAllUnknown] *)
(** One of a list of objects can be replaced in place. *)
Lemma reprs_split h xs ts F i x : reprs h xs ts F -> xs !! i = Some x ->
  exists t G, ts !! i = Some t /\ repr h x t G /\ G ⊆ F /\
    forall h' t', (forall y, y ∉ G -> h' !! y = h !! y) -> repr h' x t' G -> reprs h' xs (<[i := t']> ts) F.
Proof.
  intros Hr. revert i. induction Hr as [|y ys t ts F Fs Hy Hys IH Hd]; intros [|i] Hi; try discriminate.
  - injection Hi as ->. exists t, F. split; [done|]. split; [done|]. split; [set_solver|]. intros h' t' Hw Ht'. simpl. constructor; [done| |done].
    eapply reprs_frame; [done|]. intros z Hz. apply Hw. set_solver.
  - destruct (IH i Hi) as (t0 & G & Ht0 & Hr0 & Hsub & Hre). exists t0, G. split; [done|]. split; [done|]. split; [set_solver|].
    intros h' t' Hw Ht'. simpl. constructor; [|by apply Hre|done]. eapply repr_frame; [done|]. intros z Hz. apply Hw. set_solver.
Qed.
Lemma reprs_self h xs ts F x : reprs h xs ts F -> x ∈ xs -> x ∈ F.
Proof.
  induction 1 as [|y ys t ts F Fs Hy Hys IH Hd]; intros Hx; [by apply elem_of_nil in Hx|]. apply elem_of_cons in Hx as [->|Hx]; [|set_solver].
  apply repr_self in Hy. set_solver.
Qed.
Lemma reprs_NoDup h xs ts F : reprs h xs ts F -> NoDup xs.
Proof.
  induction 1 as [|y ys t ts F Fs Hy Hys IH Hd]; [constructor|]. constructor; [|done]. intros Hin.
  apply repr_self in Hy. eapply reprs_self in Hin; [|done]. set_solver.
Qed.

Lemma tunknowns_fix ts : (fix go ts := match ts with [] => Some [] | t :: ts => u ← tunknown t; us ← go ts; Some (u :: us) end) ts = tunknowns ts.
Proof. by induction ts. Qed.
Lemma tunknowns_lookup ts us i t : tunknowns ts = Some us -> ts !! i = Some t -> exists u, us !! i = Some u /\ tunknown t = Some u.
Proof.
  revert us i. induction ts as [|t0 ts IH]; intros us i Hu Hi; [done|]. simpl in Hu. destruct (tunknown t0) as [u0|] eqn:E; [|done].
  destruct (tunknowns ts) as [us0|]; [|done]. simplify_eq/=. destruct i as [|i]; simpl in *; [simplify_eq; eauto|]. by apply IH.
Qed.
Lemma tunknowns_insert ts us i u : tunknowns ts = Some us -> us !! i = Some u -> tunknown u = Some u -> tunknowns (<[i := u]> ts) = Some us.
Proof.
  revert us i. induction ts as [|t0 ts IH]; intros us i Hu Hi Huu; [done|]. simpl in Hu. destruct (tunknown t0) as [u0|] eqn:E; [|done].
  destruct (tunknowns ts) as [us0|] eqn:Es; [|done]. simplify_eq/=. destruct i as [|i]; simpl in *; [simplify_eq; by rewrite Huu, Es|].
  by rewrite E, (IH us0 i).
Qed.
Lemma tunknowns_length ts us : tunknowns ts = Some us -> length us = length ts.
Proof.
  revert us. induction ts as [|t ts IH]; intros us Hu; [by simplify_eq/=|]. simpl in Hu. destruct (tunknown t); [|done].
  destruct (tunknowns ts); [|done]. simplify_eq/=. f_equal. by apply IH.
Qed.
(** The result has the height of the tree and is its own. *)
Lemma tunknown_facts t : forall u, tunknown t = Some u -> tunknown u = Some u /\ height u = height t /\ is_theader u = is_theader t.
Proof.
  assert (Hlist : forall ts, Forall (fun t => forall u, tunknown t = Some u -> tunknown u = Some u /\ height u = height t /\ is_theader u = is_theader t) ts ->
    forall us, tunknowns ts = Some us -> tunknowns us = Some us /\ height <$> us = height <$> ts).
  { induction 1 as [|t0 ts H0 _ IH]; intros us Hu; simpl in Hu; [by simplify_eq|]. destruct (tunknown t0) as [u0|]; [|done].
    destruct (tunknowns ts) as [us0|]; [|done]. simplify_eq/=. destruct (H0 u0 eq_refl) as (H1 & H2 & _), (IH us0 eq_refl) as [H3 H4].
    by rewrite H1, H3, H2, H4. }
  induction t as [l|ks ts IH|ks ts v IH|ts IH|ts IH] using tree_induction; intros u Hu; [by destruct l; simplify_eq/=|..];
    cbn [tunknown] in Hu; rewrite tunknowns_fix in Hu; destruct (tunknowns ts) as [us|] eqn:E; simplify_eq/=;
    destruct (Hlist ts IH us E) as [H1 H2]; rewrite tunknowns_fix, H1, H2; done.
Qed.

Definition unknown_spec (fuel : nat) : Prop := forall t l F s u,
  repr (objects s) l t F -> (height t <= fuel)%nat -> tunknown t = Some u ->
  exists s', setAllUnknown_ fuel l s = oret (tt, s') /\ writes s F s' /\ repr (objects s') l u F.

Lemma list_max_lookup (ns : list nat) i n : ns !! i = Some n -> (n <= list_max ns)%nat.
Proof.
  revert i. induction ns as [|m ns IH]; intros [|i] Hi; simplify_eq/=; [lia|]. specialize (IH i Hi). lia.
Qed.
(** The objects [todo] among [xs], the others being unknown already. *)
Lemma unknowns_ok fuel todo : unknown_spec fuel -> forall xs cs us F s,
  reprs (objects s) xs cs F -> (forall i t, cs !! i = Some t -> (height t <= fuel)%nat) -> tunknowns cs = Some us -> (forall x, x ∈ todo -> x ∈ xs) ->
  (forall i x, xs !! i = Some x -> x ∈ todo \/ cs !! i = us !! i) ->
  exists s', iterM (setAllUnknown_ fuel) todo s = oret (tt, s') /\ writes s F s' /\ reprs (objects s') xs us F.
Proof.
  intros Hspec. induction todo as [|x todo IH]; intros xs cs us F s Hr Hh Hu Hin Hdone.
  - exists s. split; [done|]. split; [apply writes_refl|]. replace us with cs; [done|]. apply list_eq. intros i.
    destruct (xs !! i) as [x|] eqn:Hi; [destruct (Hdone i x Hi) as [Hx|]; [by apply elem_of_nil in Hx|done]|].
    rewrite (lookup_ge_None_2 cs), (lookup_ge_None_2 us); [done|..]; apply lookup_ge_None in Hi; rewrite (reprs_length _ _ _ _ Hr) in Hi; [|done].
    by rewrite (tunknowns_length _ _ Hu).
  - assert (Hx : x ∈ xs) by (apply Hin; by left). apply list_elem_of_lookup in Hx as [i Hi].
    destruct (reprs_split _ _ _ _ _ _ Hr Hi) as (t & G & Ht & Hrt & Hsub & Hre).
    destruct (tunknowns_lookup _ _ _ _ Hu Ht) as (u & Hui & Htu). destruct (tunknown_facts t u Htu) as (Huu & Hhu & _).
    destruct (Hspec t x G s u Hrt (Hh _ _ Ht) Htu) as (s1 & He1 & Hw1 & Hr1).
    edestruct (IH xs (<[i := u]> cs) us F s1) as (s2 & He2 & Hw2 & Hr2).
    + apply Hre; [|done]. intros y Hy. by apply (proj2 Hw1).
    + intros j t' Hj. apply list_lookup_insert_Some in Hj as [(<- & <- & _)|[_ Hj]]; [rewrite Hhu|]; by eapply Hh.
    + by apply tunknowns_insert.
    + intros y Hy. apply Hin. by right.
    + intros j y Hj. destruct (decide (i = j)) as [<-|Hij]; [right; rewrite list_lookup_insert_eq; [done|by apply lookup_lt_Some in Ht]|].
      rewrite list_lookup_insert_ne by done. destruct (Hdone j y Hj) as [Hy|]; [|by right]. apply elem_of_cons in Hy as [->|]; [|by left].
      destruct Hij. eapply (NoDup_lookup xs); [by eapply reprs_NoDup|done|done].
    + exists s2. cbn [iterM]. rewrite (M_bind_ok _ _ _ _ _ He1), He2. split; [done|].
      split; [|done]. eapply writes_trans; [by eapply writes_mono|done].
Qed.
Lemma heights_bound ts fuel : (list_max (height <$> ts) <= fuel)%nat -> forall i t, ts !! i = Some t -> (height t <= fuel)%nat.
Proof. intros Hh i t Hi. etrans; [|exact Hh]. apply (list_max_lookup _ i). rewrite list_lookup_fmap. by rewrite Hi. Qed.
(** The fields in the order of the type. *)
Lemma unknown_fields_ok fuel type fs ts us F s : unknown_spec fuel -> fields_ok type fs.*1 -> reprs (objects s) fs.*2 ts F ->
  (list_max (height <$> ts) <= fuel)%nat -> tunknowns ts = Some us ->
  exists s', iterM (fun f => x ← field_of fs f.1; setAllUnknown_ fuel x) (type_fields type) s = oret (tt, s') /\ writes s F s' /\ reprs (objects s') fs.*2 us F.
Proof.
  intros Hspec [Hnd Hall] Hr Hh Hu.
  assert (Htodo : exists todo, Forall2 (fun f p => (f.1, p) ∈ fs) (type_fields type) todo).
  { assert (Hsub : forall f, f ∈ type_fields type -> f.1 ∈ fs.*1) by (intros f Hf; apply Hall; by apply list_elem_of_fmap_2).
    clear Hall. induction (type_fields type) as [|f l IH]; [by exists []|]. destruct IH as [todo IH]; [intros; apply Hsub; by right|].
    assert (Hf : f.1 ∈ fs.*1) by (apply Hsub; by left). apply list_elem_of_fmap in Hf as ([k x] & Heq & Hin). exists (x :: todo). constructor; [|done]. by rewrite Heq. }
  destruct Htodo as [todo Htodo].
  assert (He : iterM (fun f => x ← field_of fs f.1; setAllUnknown_ fuel x) (type_fields type) s = iterM (setAllUnknown_ fuel) todo s).
  { apply iterM_ext2. eapply Forall2_impl; [exact Htodo|]. intros f p Hin s0. by rewrite (M_bind_ok _ _ _ _ _ (field_of_ok fs f.1 p s0 Hnd Hin)). }
  rewrite He. eapply unknowns_ok; [done..|by apply heights_bound|done| |].
  - intros x Hx. apply list_elem_of_lookup in Hx as [i Hi]. destruct (Forall2_lookup_r _ _ _ _ _ Htodo Hi) as (f & _ & Hin).
    apply list_elem_of_fmap. by exists (f.1, x).
  - intros i x Hi. left. rewrite list_lookup_fmap in Hi. destruct (fs !! i) as [[k x']|] eqn:Hk; simplify_eq/=.
    assert (Hin : k ∈ (type_fields type).*1) by (apply Hall, list_elem_of_fmap; exists (k, x); split; [done|by eapply list_elem_of_lookup_2]).
    apply list_elem_of_fmap in Hin as (f & -> & Hf). apply list_elem_of_lookup in Hf as [j Hj].
    destruct (Forall2_lookup_l _ _ _ _ _ Htodo Hj) as (y & Hy & Hfy). apply list_elem_of_lookup_2 in Hy.
    apply list_elem_of_lookup_2 in Hk. by rewrite (NoDup_fst_inj fs f.1 x y).
Qed.
Lemma unknown_list_ok fuel xs ts us F s : unknown_spec fuel -> reprs (objects s) xs ts F -> (list_max (height <$> ts) <= fuel)%nat ->
  tunknowns ts = Some us -> exists s', iterM (setAllUnknown_ fuel) xs s = oret (tt, s') /\ writes s F s' /\ reprs (objects s') xs us F.
Proof.
  intros Hspec Hr Hh Hu. eapply unknowns_ok; [done..|by apply heights_bound|done|done|]. intros i x Hi. left. by eapply list_elem_of_lookup_2.
Qed.
Lemma tunknowns_theader ts us : tunknowns ts = Some us -> Forall (fun t => is_theader t = true) ts -> Forall (fun t => is_theader t = true) us.
Proof.
  revert us. induction ts as [|t ts IH]; intros us Hu Hall; simpl in Hu; [by simplify_eq|]. destruct (tunknown t) as [u|] eqn:E; [|done].
  destruct (tunknowns ts) as [us'|]; [|done]. simplify_eq/=. inversion_clear Hall. constructor; [|by apply IH]. by rewrite (proj2 (proj2 (tunknown_facts _ _ E))).
Qed.

Lemma unknown_leaf fuel s l v lf lf' : objects s !! l = Some v -> leaf_of v = Some lf -> leaf_unknown lf = Some lf' ->
  exists s' v', setAllUnknown_ (S fuel) l s = oret (tt, s') /\ writes s {[l]} s' /\ objects s' !! l = Some v' /\ leaf_of v' = Some lf'.
Proof.
  intros Hl Hv Hu. unfold_unknown. rewrite (M_bind_ok _ _ s v s) by (by apply deref_ok).
  apply leaf_of_inv in Hv. destruct lf as [a|ty a|a|a| |o c]; simplify_eq/=; repeat match goal with H : exists _, _ |- _ => destruct H | H : _ /\ _ |- _ => destruct H end; subst;
    (eexists _, _; split; [reflexivity|]; split; [apply update_writes, elem_of_singleton_2; done|]; split; [apply lookup_insert_eq|done]).
Qed.

Lemma unknown_spec_holds fuel : unknown_spec fuel.
Proof.
  induction fuel as [|fuel IH]; intros t l F s u Hr Hh Hu; [destruct t; simpl in Hh; lia|].
  destruct Hr as [l v lf Hl Hlf|l ty fs ts F0 Hl Hok Hrs Hnl|l ty fs valid st b ts F0 Hl Hv Hok Hrs Hnl Hnv Hlv|l ty n vs ts F0 Hl Hrs Hnl Hth|l ty vs ts F0 Hl Hrs Hnl].
  - simpl in Hu. destruct (leaf_unknown lf) as [lf'|] eqn:E; [|done]. simplify_eq/=.
    destruct (unknown_leaf fuel s l v lf lf') as (s' & v' & He & Hw & Hl' & Hlf'); [done..|]. exists s'. split; [done|]. split; [done|]. by econstructor.
  - cbn [tunknown] in Hu. rewrite tunknowns_fix in Hu. destruct (tunknowns ts) as [us|] eqn:E; [|done]. simplify_eq/=.
    destruct (unknown_fields_ok fuel ty fs ts us F0 s) as (s1 & He & Hw & Hus); [done..|lia|done|].
    exists s1. unfold_unknown. rewrite (M_bind_ok _ _ s _ s) by (by apply deref_ok). split; [done|].
    split; [eapply writes_mono; [|done]; sets|]. econstructor; [by rewrite (proj2 Hw)|done..].
  - cbn [tunknown] in Hu. rewrite tunknowns_fix in Hu. destruct (tunknowns ts) as [us|] eqn:E; [|done]. simplify_eq/=.
    destruct (unknown_fields_ok fuel ty fs ts us F0 s) as (s1 & He & Hw & Hus); [done..|lia|done|].
    assert (Hv1 : objects s1 !! valid = Some (SymbolicBool st b)) by (by rewrite (proj2 Hw)).
    assert (exists fuel', fuel = S fuel') as [fuel' ->] by (exists (fuel - 1)%nat; lia).
    destruct (unknown_leaf fuel' s1 valid _ (LBool (aval_of st b)) (LBool AUnknown) Hv1 eq_refl eq_refl) as (s2 & v' & He2 & Hw2 & Hl2 & Hlf2).
    exists s2. unfold_unknown. rewrite (M_bind_ok _ _ s _ s) by (by apply deref_ok). cbn beta match. rewrite (M_bind_ok _ _ _ _ _ He). split; [exact He2|].
    split; [eapply writes_trans; eapply writes_mono; [|done| |done]; sets|].
    apply leaf_of_inv in Hlf2 as (st' & b' & -> & Hav). rewrite Hav.
    econstructor; [|done|done| |done..]; [rewrite (proj2 Hw2), (proj2 Hw); [done|sets..]|]. eapply writes_reprs; [done| |done]. sets.
  - cbn [tunknown] in Hu. rewrite tunknowns_fix in Hu. destruct (tunknowns ts) as [us|] eqn:E; [|done]. simplify_eq/=.
    destruct (unknown_list_ok fuel vs ts us F0 s) as (s1 & He & Hw & Hus); [done..|lia|done|].
    exists s1. unfold_unknown. rewrite (M_bind_ok _ _ s _ s) by (by apply deref_ok). split; [done|].
    split; [eapply writes_mono; [|done]; sets|]. econstructor; [by rewrite (proj2 Hw)|done..|by eapply tunknowns_theader].
  - cbn [tunknown] in Hu. rewrite tunknowns_fix in Hu. destruct (tunknowns ts) as [us|] eqn:E; [|done]. simplify_eq/=.
    destruct (unknown_list_ok fuel vs ts us F0 s) as (s1 & He & Hw & Hus); [done..|lia|done|].
    exists s1. unfold_unknown. rewrite (M_bind_ok _ _ s _ s) by (by apply deref_ok). split; [done|].
    split; [eapply writes_mono; [|done]; sets|]. econstructor; [by rewrite (proj2 Hw)|done..].
Qed.

(** ** [clone] *)
(** Objects are created only, all below the counter. *)
Definition extends (s s' : Store) : Prop :=
  (crtid s <= crtid s')%Z /\ (forall x, (x < crtid s)%Z -> objects s' !! x = objects s !! x) /\ store_ok s'.
(** The locations created between two states. *)
Definition created (s s' : Store) (G : gset loc) : Prop := forall x, x ∈ G -> (crtid s <= x < crtid s')%Z.
Lemma extends_refl s : store_ok s -> extends s s.
Proof. intros Hs. split; [lia|done]. Qed.
Lemma extends_trans s1 s2 s3 : extends s1 s2 -> extends s2 s3 -> extends s1 s3.
Proof. intros (H1 & H2 & _) (H3 & H4 & H5). split; [lia|]. split; [|done]. intros x Hx. rewrite H4 by lia. by apply H2. Qed.
Lemma extends_repr s s' l t F : extends s s' -> (forall x, x ∈ F -> (x < crtid s)%Z) -> repr (objects s) l t F -> repr (objects s') l t F.
Proof. intros (_ & He & _) HF Hr. eapply repr_frame; [done|]. intros x Hx. apply He. by apply HF. Qed.
Lemma extends_reprs s s' ls ts F : extends s s' -> (forall x, x ∈ F -> (x < crtid s)%Z) -> reprs (objects s) ls ts F -> reprs (objects s') ls ts F.
Proof. intros (_ & He & _) HF Hr. eapply reprs_frame; [done|]. intros x Hx. apply He. by apply HF. Qed.
Lemma alloc_ok v s : store_ok s -> exists s', alloc v s = oret (crtid s, s') /\ extends s s' /\ objects s' !! crtid s = Some v /\
  crtid s' = (crtid s + 1)%Z.
Proof.
  intros [Hp Hs]. eexists. split; [reflexivity|]. split; [|split; [apply lookup_insert_eq|done]]. split; [simpl; lia|]. split.
  - intros x Hx. simpl. rewrite lookup_insert_ne; [done|lia].
  - split; [simpl; lia|]. intros x Hx. simpl in *. rewrite dom_insert in Hx. apply elem_of_union in Hx as [->%elem_of_singleton|Hx]; [lia|]. apply Hs in Hx. lia.
Qed.
Lemma reprs_old s ls ts F : store_ok s -> reprs (objects s) ls ts F -> forall x, x ∈ F -> (x < crtid s)%Z.
Proof. intros Hs Hr x Hx. apply Hs. by eapply reprs_dom. Qed.
Lemma repr_old s l t F : store_ok s -> repr (objects s) l t F -> forall x, x ∈ F -> (x < crtid s)%Z.
Proof. intros Hs Hr x Hx. apply Hs. by eapply repr_dom. Qed.

Definition clones_with (m : loc -> M loc) (small : tree -> Prop) : Prop := forall t l F s,
  store_ok s -> repr (objects s) l t F -> small t ->
  exists l' s' G, m l s = oret (l', s') /\ extends s s' /\ repr (objects s') l' t G /\ created s s' G.

Lemma repr_header_obj h l t F v : repr h l t F -> h !! l = Some v -> is_theader t = is_header v.
Proof. intros Hr Hl. inversion Hr; simplify_eq; try done. match goal with H : leaf_of ?w = _ |- _ => by destruct w end. Qed.

(** Objects made for the elements of a list, with a check that each passes. *)
Lemma makes_ok {A B} (m : A -> M loc) (g : A -> loc -> B) (k : B -> loc) (post : loc -> M unit) (ok : tree -> Prop) (P : Store -> A -> tree -> Prop) :
  (forall a t s, store_ok s -> P s a t -> exists l' s' G, m a s = oret (l', s') /\ extends s s' /\ repr (objects s') l' t G /\ created s s' G) ->
  (forall s s' a t, P s a t -> extends s s' -> P s' a t) ->
  (forall a x, k (g a x) = x) -> (forall s l t F, repr (objects s) l t F -> ok t -> post l s = oret (tt, s)) ->
  forall ls ts s, store_ok s -> Forall2 (P s) ls ts -> Forall ok ts ->
  exists ys s' G, mapM_ (fun a => x' ← m a; post x';; mret (g a x')) ls s = oret (ys, s') /\ extends s s' /\
    reprs (objects s') (k <$> ys) ts G /\ created s s' G /\ Forall2 (fun a y => exists x, y = g a x) ls ys.
Proof.
  intros Hm HP Hk Hpost ls. induction ls as [|a ls IH]; intros ts s Hs Hr Hok; inversion Hr as [|? t ? ts0 Ha Hrs]; subst.
  - exists [], s, ∅. split; [done|]. split; [by apply extends_refl|]. split; [constructor|]. split; [intros x Hx; set_solver|constructor].
  - inversion_clear Hok. destruct (Hm a t s Hs Ha) as (x & s1 & G & He & Hx & Hrx & Hc).
    destruct (IH ts0 s1) as (ys & s2 & Gs & Hes & Hxs & Hrs' & Hcs & Hf); [apply Hx|eapply Forall2_impl; [exact Hrs|]; intros; by eapply HP|done|].
    exists (g a x :: ys), s2, (G ∪ Gs). cbn [mapM_].
    assert (Hstep : (x' ← m a; post x';; mret (g a x')) s = oret (g a x, s1)).
    { rewrite (M_bind_ok _ _ _ _ _ He). by rewrite (M_bind_ok _ _ _ _ _ (Hpost s1 x t G Hrx ltac:(done))). }
    rewrite (M_bind_ok _ _ _ _ _ Hstep), (M_bind_ok _ _ _ _ _ Hes). split; [done|]. split; [by eapply extends_trans|].
    split; [|split; [|constructor; [by eexists|done]]].
    + rewrite fmap_cons, Hk. constructor; [|done|]; [eapply extends_repr; [done| |done]; intros y Hy; apply Hc in Hy; lia|].
      intros y Hy1 Hy2. apply Hc in Hy1. apply Hcs in Hy2. lia.
    + intros y [Hy|Hy]%elem_of_union; [apply Hc in Hy|apply Hcs in Hy]; destruct Hx as [Hx _], Hxs as [Hxs _]; lia.
Qed.
Lemma clones_ok {A B} m small (f : A -> loc) (g : A -> loc -> B) (k : B -> loc) (post : loc -> M unit) (ok : tree -> Prop) :
  clones_with m small -> (forall a x, k (g a x) = x) -> (forall s l t F, repr (objects s) l t F -> ok t -> post l s = oret (tt, s)) ->
  forall ls ts F s, store_ok s -> reprs (objects s) (f <$> ls) ts F -> Forall small ts -> Forall ok ts ->
  exists ys s' G, mapM_ (fun a => x' ← m (f a); post x';; mret (g a x')) ls s = oret (ys, s') /\ extends s s' /\
    reprs (objects s') (k <$> ys) ts G /\ created s s' G /\ Forall2 (fun a y => exists x, y = g a x) ls ys.
Proof.
  intros Hspec Hk Hpost ls ts F s Hs Hr Hh Hok.
  apply (makes_ok (fun a => m (f a)) g k post ok (fun s a t => small t /\ exists F, repr (objects s) (f a) t F /\ forall x, x ∈ F -> (x < crtid s)%Z)); [..|done].
  - intros a t s0 Hs0 (Ht & F0 & Hr0 & _). by eapply Hspec.
  - intros s0 s' a t (Ht & F0 & Hr0 & Hlt) Hx. split; [done|]. exists F0. split; [by eapply extends_repr|]. intros x Hin. apply Hlt in Hin. destruct Hx. lia.
  - done.
  - done.
  - done.
  - clear Hok. revert ts F Hr Hh. induction ls as [|a ls IH]; intros ts F Hr Hh; inversion Hr as [|? ? t ts0 F0 Fs Hrl Hrs Hd]; subst; constructor; inversion_clear Hh.
    + split; [done|]. exists F0. split; [done|]. by eapply repr_old.
    + by eapply IH.
Qed.
Definition clone_spec (fuel : nat) : Prop := clones_with (clone_ fuel) (fun t => (height t <= fuel)%nat).
Lemma mapM_ext {A B} (f g : A -> M B) l : (forall a s, f a s = g a s) -> forall s, mapM_ f l s = mapM_ g l s.
Proof.
  intros Hfg. induction l as [|a l IH]; intros s; [done|]. cbn [mapM_]. unfold mbind, M_bind. rewrite Hfg.
  destruct (g a s) as [r ds|]; simpl; [|done]. by rewrite IH.
Qed.
Lemma clone_fields_ok fuel (fs : list (string * loc)) ts F s : clone_spec fuel -> store_ok s -> reprs (objects s) fs.*2 ts F -> (list_max (height <$> ts) <= fuel)%nat ->
  exists (fs' : list (string * loc)) s' G, mapM_ (fun f => l' ← clone_ fuel f.2; (mret (f.1, l') : M (string * loc))) fs s = oret (fs', s') /\ extends s s' /\
    reprs (objects s') fs'.*2 ts G /\ created s s' G /\ fs'.*1 = fs.*1.
Proof.
  intros Hspec Hs Hr Hh.
  destruct (clones_ok _ _ snd (fun (f : string * loc) x => (f.1, x)) snd (fun _ => mret tt) (fun _ => True) Hspec ltac:(done) ltac:(done) fs ts F s Hs Hr (heights_small _ _ Hh))
    as (fs' & s' & G & He & Hx & Hr' & Hc & Hf); [by apply Forall_true|]. exists fs', s', G. split.
  - rewrite <- He. apply mapM_ext. intros f s0. unfold mbind, M_bind. by destruct (clone_ fuel f.2 s0).
  - split; [done|]. split; [done|]. split; [done|]. clear -Hf. induction Hf as [|f y fs fs' [x ->] _ IH]; [done|]. by rewrite !fmap_cons, IH.
Qed.
Lemma clone_list_ok {post : loc -> M unit} {ok : tree -> Prop} fuel ls ts F s : clone_spec fuel ->
  (forall s l t F, repr (objects s) l t F -> ok t -> post l s = oret (tt, s)) -> Forall ok ts ->
  store_ok s -> reprs (objects s) ls ts F -> (list_max (height <$> ts) <= fuel)%nat ->
  exists ys s' G, mapM_ (fun x => x' ← clone_ fuel x; post x';; mret x') ls s = oret (ys, s') /\ extends s s' /\ reprs (objects s') ys ts G /\ created s s' G.
Proof.
  intros Hspec Hpost Hok Hs Hr Hh. rewrite <- (list_fmap_id ls) in Hr.
  destruct (clones_ok _ _ id (fun _ x => x) id post ok Hspec ltac:(done) Hpost ls ts F s Hs Hr (heights_small _ _ Hh) Hok) as (ys & s' & G & He & Hx & Hr' & Hc & _).
  rewrite list_fmap_id in Hr'. by exists ys, s', G.
Qed.

Lemma created_fresh s s' G x : created s s' G -> (crtid s' <= x)%Z -> x ∉ G.
Proof. intros Hc Hx Hin. apply Hc in Hin. lia. Qed.
Lemma created_old s s' G x : created s s' G -> x ∈ G -> (x < crtid s')%Z.
Proof. intros Hc Hx. apply Hc in Hx. lia. Qed.
(** The new object itself and its parts. *)
Lemma created_self s s1 s2 G : created s s1 G -> extends s s1 -> crtid s2 = (crtid s1 + 1)%Z -> created s s2 ({[crtid s1]} ∪ G).
Proof. intros Hc [Hx _] Heq x [->%elem_of_singleton|Hin]%elem_of_union; [lia|]. apply Hc in Hin. lia. Qed.

Lemma clone_spec_holds fuel : clone_spec fuel.
Proof.
  induction fuel as [|fuel IH]; intros t l F s Hs Hr Hh; [destruct t; simpl in Hh; lia|].
  destruct Hr as [l v lf Hl Hlf|l ty fs ts F0 Hl Hok Hrs Hnl|l ty fs valid st b ts F0 Hl Hv Hok Hrs Hnl Hnv Hlv|l ty n vs ts F0 Hl Hrs Hnl Hth|l ty vs ts F0 Hl Hrs Hnl];
    cbn [height] in *; unfold_clone; rewrite (M_bind_ok _ _ s _ s) by (by apply deref_ok).
  - destruct (alloc_ok v s Hs) as (s' & He & Hx & Hl' & Hc). exists (crtid s), s', {[crtid s]}.
    split; [by destruct v|]. split; [done|]. split; [by econstructor|]. intros x ->%elem_of_singleton. lia.
  - destruct (clone_fields_ok fuel fs ts F0 s) as (fs' & s1 & G & He & Hx & Hrs' & Hc & Hk); [done..|lia|].
    destruct (alloc_ok (SymbolicStruct ty fs') s1) as (s2 & He2 & Hx2 & Hl2 & Hc2); [apply Hx|].
    exists (crtid s1), s2, ({[crtid s1]} ∪ G). rewrite (M_bind_ok _ _ _ _ _ He). split; [done|]. split; [by eapply extends_trans|].
    split; [|by apply created_self with (s1 := s1)]. rewrite <- Hk. econstructor; [done|by rewrite Hk| |].
    + eapply extends_reprs; [done| |done]. intros x. by apply created_old with (s := s).
    + eapply created_fresh; [done|lia].
  - destruct (clone_fields_ok fuel fs ts F0 s) as (fs' & s1 & G & He & Hx & Hrs' & Hc & Hk); [done..|lia|].
    assert (Hv1 : objects s1 !! valid = Some (SymbolicBool st b)) by (rewrite (proj1 (proj2 Hx)); [done|]; apply Hs; by apply elem_of_dom_2 in Hv).
    destruct (alloc_ok (SymbolicBool st b) s1) as (s2 & He2 & Hx2 & Hl2 & Hc2); [apply Hx|].
    destruct (alloc_ok (SymbolicHeader ty fs' (crtid s1)) s2) as (s3 & He3 & Hx3 & Hl3 & Hc3); [apply Hx2|].
    exists (crtid s2), s3, ({[crtid s2]} ∪ (G ∪ {[crtid s1]})). rewrite (M_bind_ok _ _ _ _ _ He). destruct fuel as [|fuel]; [lia|]. unfold_clone.
    assert (Hcv : clone_ (S fuel) valid s1 = oret (crtid s1, s2)) by (unfold_clone; by rewrite (M_bind_ok _ _ s1 _ s1) by (by apply deref_ok)).
    cbn [clone_] in Hcv. rewrite (M_bind_ok _ _ _ _ _ Hcv), (M_bind_ok _ _ s2 _ s2) by (by apply deref_ok). split; [done|].
    split; [eapply extends_trans; [done|]; by eapply extends_trans|]. split; [|].
    + rewrite <- Hk. econstructor; [done|rewrite (proj1 (proj2 Hx3)); [done|lia]|by rewrite Hk| | | |lia].
      * eapply (extends_reprs s1); [by eapply extends_trans| |done]. intros x. by apply created_old with (s := s).
      * eapply created_fresh; [done|lia].
      * eapply created_fresh; [done|lia].
    + intros x Hin. rewrite !elem_of_union, !elem_of_singleton in Hin. destruct Hx as [Hx _].
      destruct Hin as [->|[Hin| ->]]; [lia|apply Hc in Hin; lia|lia].
  - destruct (clone_list_ok (post := fun x' => b ← deref x'; expect "null pointer" (is_header b)) (ok := fun t => is_theader t = true) fuel vs ts F0 s)
      as (ys & s1 & G & He & Hx & Hrs' & Hc); [done| |done..|lia|].
    { intros s0 l0 t0 F1 Hr0 Ht0. destruct (objects s0 !! l0) as [o|] eqn:Ho; [|by inversion Hr0; simplify_eq].
      rewrite (M_bind_ok _ _ s0 o s0) by (by apply deref_ok). erewrite repr_header_obj in Ht0 by done. by rewrite Ht0. }
    destruct (alloc_ok (SymbolicArray ty n ys) s1) as (s2 & He2 & Hx2 & Hl2 & Hc2); [apply Hx|].
    exists (crtid s1), s2, ({[crtid s1]} ∪ G). erewrite (M_bind_ok _ _ s); [|etrans; [|exact He]].
    + split; [done|]. split; [by eapply extends_trans|]. split; [|by apply created_self with (s1 := s1)]. econstructor; [done| | |done].
      * eapply extends_reprs; [done| |done]. intros x. by apply created_old with (s := s).
      * eapply created_fresh; [done|lia].
    + apply mapM_ext. intros x s0. unfold mbind, M_bind. destruct (clone_ fuel x s0) as [[x' s0'] ds|]; [|done]. simpl. unfold deref. destruct (objects s0' !! x') as [o|]; [|done]. simpl. by destruct (is_header o).
  - destruct (clone_list_ok (post := fun _ => mret tt) (ok := fun _ => True) fuel vs ts F0 s) as (ys & s1 & G & He & Hx & Hrs' & Hc); [done|done|by apply Forall_true|done|done|lia|].
    destruct (alloc_ok (SymbolicTuple ty ys) s1) as (s2 & He2 & Hx2 & Hl2 & Hc2); [apply Hx|].
    exists (crtid s1), s2, ({[crtid s1]} ∪ G). erewrite (M_bind_ok _ _ s); [|etrans; [|exact He]].
    + split; [done|]. split; [by eapply extends_trans|]. split; [|by apply created_self with (s1 := s1)]. econstructor; [done| |].
      * eapply extends_reprs; [done| |done]. intros x. by apply created_old with (s := s).
      * eapply created_fresh; [done|lia].
    + apply mapM_ext. intros x s0. unfold mbind, M_bind. destruct (clone_ fuel x s0) as [[x' s0'] ds|]; [|done]. simpl. by rewrite ?app_nil_r.
Qed.

(** ** [assign] *)
Definition assign_spec (fuel : nat) : Prop := forall t l u l2 F F2 s,
  repr (objects s) l t F -> repr (objects s) l2 u F2 -> F ## F2 -> (height t <= fuel)%nat -> assignable t u = true ->
  exists s', assign_ fuel l l2 s = oret (tt, s') /\ writes s F s' /\ repr (objects s') l u F.
Lemma assigns_ok fuel : assign_spec fuel -> forall ls ts F, forall ls2 us F2 s,
  reprs (objects s) ls ts F -> reprs (objects s) ls2 us F2 -> F ## F2 -> (list_max (height <$> ts) <= fuel)%nat -> assignables ts us = true ->
  exists s', iterM (fun p => assign_ fuel p.1 p.2) (zip ls ls2) s = oret (tt, s') /\ writes s F s' /\ reprs (objects s') ls us F.
Proof.
  intros Hspec ls. induction ls as [|l ls IH]; intros ts F ls2 us F2 s Hr Hr2 Hd Hh Hm.
  - inversion Hr; subst. inversion Hr2; subst; [|done]. exists s. split; [done|]. split; [apply writes_refl|done].
  - inversion Hr as [|? ? t ts0 F0 Fs Hrl Hrs Hd0]; subst. inversion Hr2 as [|l2 ls0 u us' F1 Fs1 Hrl2 Hrs2 Hd1]; subst; [done|].
    simpl in Hm. apply andb_true_iff in Hm as [Hm Hms]. rewrite fmap_cons in Hh. simpl list_max in Hh.
    rewrite ?disjoint_union_l, ?disjoint_union_r in Hd. destruct_and? Hd.
    destruct (Hspec t l u l2 F0 F1 s) as (s1 & He1 & Hw1 & Hu); [done..|lia|done|].
    destruct (IH ts0 Fs ls0 us' Fs1 s1) as (s2 & He2 & Hw2 & Hus); [by eapply writes_reprs|by eapply writes_reprs|done|lia|done|].
    exists s2. cbn [zip zip_with iterM]. cbn [fst snd]. rewrite (M_bind_ok _ _ _ _ _ He1), He2.
    split; [done|]. split; [eapply writes_trans; eapply writes_mono; [|done| |done]; sets|].
    constructor; [|done..]. eapply writes_repr; [done| |done]; sets.
Qed.
Lemma assignables_length ts us : assignables ts us = true -> length ts = length us.
Proof. revert us. induction ts as [|t ts IH]; intros [|u us] Hm; try done. simpl in *. apply andb_true_iff in Hm as [_ Hm]. f_equal. by apply IH. Qed.
Lemma assign_fields_ok fuel fs ofs ts us F F2 s : assign_spec fuel -> NoDup fs.*1 -> fs.*1 = ofs.*1 ->
  reprs (objects s) fs.*2 ts F -> reprs (objects s) ofs.*2 us F2 -> F ## F2 -> (list_max (height <$> ts) <= fuel)%nat -> assignables ts us = true ->
  exists s', iterM (fun f => x ← field_of fs f.1; assign_ fuel x f.2) ofs s = oret (tt, s') /\ writes s F s' /\ reprs (objects s') fs.*2 us F.
Proof.
  intros Hspec Hnd Hk Hr Hr2 Hd Hh Hm. rewrite (iterM_ext2 _ _ _ _ (fields_paired (assign_ fuel) fs ofs Hnd Hk)). by eapply assigns_ok.
Qed.

Lemma assign_leaf fuel s l l2 v v2 lf lf2 : objects s !! l = Some v -> objects s !! l2 = Some v2 ->
  leaf_of v = Some lf -> leaf_of v2 = Some lf2 -> leaf_assignable lf lf2 = true ->
  exists s' v', assign_ (S fuel) l l2 s = oret (tt, s') /\ writes s {[l]} s' /\ objects s' !! l = Some v' /\ leaf_of v' = Some lf2.
Proof.
  intros Hl Hl2 Hv Hv2 Ha. unfold_assign. rewrite (M_bind_ok _ _ s v s) by (by apply deref_ok). apply leaf_of_inv in Hv, Hv2.
  destruct lf as [a|ty a|a|a| |o c], lf2 as [a2|ty2 a2|a2|a2| |o2 c2]; try discriminate; simpl in Ha;
    repeat match goal with H : exists _, _ |- _ => destruct H | H : _ /\ _ |- _ => destruct H end; subst;
    rewrite (M_bind_ok _ _ s _ s) by (by apply deref_ok);
    (eexists _, _; split; [reflexivity|]; split; [apply update_writes, elem_of_singleton_2; done|]; split; [apply lookup_insert_eq|]); try done.
  apply same_type_eq in Ha as [-> _]. simpl.
  repeat match goal with H : _ \/ _ |- _ => destruct H end; destruct_and?; subst; try done.
  all: match goal with H : exists _, _ |- _ => destruct H as (k & -> & -> & Hk & ->) end; by rewrite Hk.
Qed.

Lemma assign_spec_holds fuel : assign_spec fuel.
Proof.
  induction fuel as [|fuel IH]; intros t l t2 l2 F F2 s Hr Hr2 Hd Hh Hm; [destruct t; simpl in Hh; lia|].
  inversion Hr as [l0 v lf Hl Hlf|l0 ty fs ts F0 Hl Hok Hrs Hnl|l0 ty fs valid st b ts F0 Hl Hv Hok Hrs Hnl Hnv Hlv|l0 ty n vs ts F0 Hl Hrs Hnl Hth|l0 ty vs ts F0 Hl Hrs Hnl];
    inversion Hr2 as [l0' v2 lf2 Hl2 Hlf2|l0' ty2 fs2 ts2 F1 Hl2 Hok2 Hrs2 Hnl2|l0' ty2 fs2 valid2 st2 b2 ts2 F1 Hl2 Hv2 Hok2 Hrs2 Hnl2 Hnv2 Hlv2|l0' ty2 n2 vs2 ts2 F1 Hl2 Hrs2 Hnl2 Hth2|l0' ty2 vs2 ts2 F1 Hl2 Hrs2 Hnl2]; subst; try discriminate;
    rewrite ?disjoint_union_l, ?disjoint_union_r in Hd; destruct_and? Hd; cbn [height] in Hh.
  - destruct (assign_leaf fuel s l l2 v v2 lf lf2) as (s' & v' & He & Hw & Hl' & Hlf'); [done..|]. exists s'. split; [done|]. split; [done|]. by econstructor.
  - change (bool_decide (fs.*1 = fs2.*1) && assignables ts ts2 = true) in Hm. apply andb_true_iff in Hm as [Hk%bool_decide_eq_true Hm].
    destruct (assign_fields_ok fuel fs fs2 ts ts2 F0 F1 s) as (s1 & He & Hw & Hus); [done|apply Hok|done..|lia|done|].
    exists s1. unfold_assign. rewrite (M_bind_ok _ _ s _ s) by (by apply deref_ok). cbn beta match. rewrite (M_bind_ok _ _ s _ s) by (by apply deref_ok).
    split; [done|]. split; [eapply writes_mono; [|done]; sets|]. rewrite <- Hk. econstructor; [by rewrite (proj2 Hw)|done..].
  - change (bool_decide (fs.*1 = fs2.*1) && assignables ts ts2 = true) in Hm. apply andb_true_iff in Hm as [Hk%bool_decide_eq_true Hm].
    destruct (assign_fields_ok fuel fs fs2 ts ts2 F0 F1 s) as (s1 & He & Hw & Hus); [done|apply Hok|done..|lia|done|].
    assert (Hv1 : objects s1 !! valid = Some (SymbolicBool st b)) by (by rewrite (proj2 Hw)).
    assert (Hv2' : objects s1 !! valid2 = Some (SymbolicBool st2 b2)) by (rewrite (proj2 Hw); [done|sets]).
    assert (exists fuel', fuel = S fuel') as [fuel' ->] by (exists (fuel - 1)%nat; lia).
    destruct (assign_leaf fuel' s1 valid valid2 _ _ (LBool (aval_of st b)) (LBool (aval_of st2 b2)) Hv1 Hv2' eq_refl eq_refl eq_refl) as (s2 & v' & He2 & Hw2 & Hl3 & Hlf2).
    exists s2. unfold_assign. rewrite (M_bind_ok _ _ s _ s) by (by apply deref_ok). cbn beta match. rewrite (M_bind_ok _ _ s _ s) by (by apply deref_ok).
    cbn [is_SymbolicError header_parts]. rewrite (M_bind_ok _ _ _ _ _ He). split; [exact He2|].
    split; [eapply writes_trans; eapply writes_mono; [|done| |done]; sets|].
    apply leaf_of_inv in Hlf2 as (st' & b' & -> & Hav). rewrite Hav, <- Hk.
    econstructor; [|done|done| |done..]; [rewrite (proj2 Hw2), (proj2 Hw); [done|sets..]|]. eapply writes_reprs; [done| |done]. sets.
  - change (assignables ts ts2 = true) in Hm. assert (Hlen : length vs = length vs2) by (rewrite (reprs_length _ _ _ _ Hrs), (reprs_length _ _ _ _ Hrs2); by apply assignables_length).
    edestruct (assigns_ok fuel IH vs ts F0 vs2 ts2 F1 s) as (s1 & He & Hw & Hus); [done..|lia|done|].
    exists s1. unfold_assign. rewrite (M_bind_ok _ _ s _ s) by (by apply deref_ok). cbn beta match. rewrite (M_bind_ok _ _ s _ s) by (by apply deref_ok).
    cbn [is_SymbolicError]. rewrite (iterM_ext2 _ _ _ _ (elements_paired (assign_ fuel) vs vs2 Hlen)).
    split; [done|]. split; [eapply writes_mono; [|done]; sets|]. econstructor; [by rewrite (proj2 Hw)|done..].
Qed.
