(* ===== verification/SymFacts.v ===== *)
(** * What the methods of symbolic values promise

    The lattice of the trees of abstract values, and the methods of
    [SymValue.v] on a well-formed store: each computes its operation on trees,
    changes nothing else, and has enough fuel. *)
From S2P Require Import Prelude Gmp Ir SymValue SymTree SymRefine.
Local Open Scope flexplan_scope.

(** ** The lattice *)
(** The scalars that are not yet unknown, and how far the packet can move. *)
Definition aval_rank {A} (a : aval A) : nat := match a with AUnknown => 0 | _ => 1 end.
Definition leaf_rank (l : leaf) : nat :=
  match l with
  | LBool a => aval_rank a
  | LInt _ a => aval_rank a
  | LVarbit a => aval_rank a
  | LEnum a => aval_rank a
  | LExtern => 0
  | LPacketIn o _ => Z.to_nat o
  end.
Fixpoint rank (t : tree) : nat :=
  match t with
  | TLeaf l => leaf_rank l
  | TStruct _ ts | TArray ts | TTuple ts => sum_list (rank <$> ts)
  | THeader _ ts v => (sum_list (rank <$> ts) + aval_rank v)%nat
  end.
(** The packet is never before its start. *)
Fixpoint packets_ok (t : tree) : bool :=
  match t with
  | TLeaf (LPacketIn o _) => (0 <=? o)%Z
  | TLeaf _ => true
  | TStruct _ ts | TArray ts | TTuple ts | THeader _ ts _ => forallb packets_ok ts
  end.

Section avals.
Context {A : Type} (eqb : A -> A -> bool).
Hypothesis (eqb_eq : forall x y, eqb x y = true -> x = y) (eqb_refl : forall x, eqb x x = true).
Implicit Types (a b : aval A).
Lemma aval_merge_flag a b : aval_changed (aval_merge eqb a b) a = false <-> aval_merge eqb a b = a.
Proof. destruct a, b; simpl; try done. case_match; simpl; done. Qed.
Lemma aval_merge_again a b : aval_merge eqb (aval_merge eqb a b) b = aval_merge eqb a b.
Proof. destruct a, b; simpl; try done. destruct (eqb a a0) eqn:E; simpl; by rewrite ?E. Qed.
Lemma aval_merge_rank a b : aval_changed (aval_merge eqb a b) a = true -> (aval_rank (aval_merge eqb a b) < aval_rank a)%nat.
Proof. destruct a, b; simpl; try done; try lia. case_match; simpl; [done|lia]. Qed.
Lemma aval_merge_self a : aval_merge eqb a a = a.
Proof. destruct a; simpl; by rewrite ?eqb_refl. Qed.
Lemma aval_merge_comm a b : aval_merge eqb a b = aval_merge eqb b a.
Proof.
  destruct a, b; simpl; try done. destruct (eqb a a0) eqn:E; [apply eqb_eq in E as ->; by rewrite eqb_refl|].
  destruct (eqb a0 a) eqn:E'; [apply eqb_eq in E' as ->; by rewrite eqb_refl in E|done].
Qed.
Lemma aval_merge_assoc a b c : aval_merge eqb a (aval_merge eqb b c) = aval_merge eqb (aval_merge eqb a b) c.
Proof.
  destruct a as [| |a], b as [| |b], c as [| |c]; simpl; try done; repeat (case_match; simpl); try done;
    repeat match goal with H : eqb _ _ = true |- _ => apply eqb_eq in H end; subst; congruence.
Qed.
Lemma aval_changed_self a : aval_changed a a = false.
Proof. by destruct a. Qed.
End avals.

Lemma leaf_merge_flag l l2 l' ch : leaf_merge l l2 = Some (l', ch) -> (ch = false <-> l' = l).
Proof.
  destruct l, l2; simpl; try done; try (intros [= <- <-]); try (by split);
    try (rewrite aval_merge_flag; split; [by intros ->|congruence]).
  destruct (Z.ltb_spec offset0 offset); intros [= <- <-]; split; [done| |done|done]. intros [= -> ?]. lia.
Qed.
Lemma leaf_merge_again l l2 l' ch : leaf_merge l l2 = Some (l', ch) -> leaf_merge l' l2 = Some (l', false).
Proof.
  destruct l, l2; simpl; try done; try (intros [= <- <-]; simpl; by rewrite aval_merge_again, aval_changed_self).
  all: try (by intros [= <- <-]).
  destruct (Z.ltb_spec offset0 offset); intros [= <- <-]; simpl; [by rewrite Z.ltb_irrefl|]. destruct (Z.ltb_spec offset0 offset); [lia|done].
Qed.
Lemma leaf_merge_rank l l2 l' ch : leaf_merge l l2 = Some (l', ch) -> packets_ok (TLeaf l) = true -> packets_ok (TLeaf l2) = true ->
  packets_ok (TLeaf l') = true /\ if ch then (leaf_rank l' < leaf_rank l)%nat else l' = l.
Proof.
  intros Hm Hp Hp2. pose proof (leaf_merge_flag _ _ _ _ Hm) as Hf.
  assert (Hgo : (ch = true -> (leaf_rank l' < leaf_rank l)%nat) /\ packets_ok (TLeaf l') = true); [|destruct ch; naive_solver].
  destruct l, l2; simpl in Hm; try done; try (injection Hm as <- <-; split; [|done]; apply aval_merge_rank).
  all: try (by injection Hm as <- <-).
  simpl in *. destruct (Z.ltb_spec offset0 offset); injection Hm as <- <-; simpl; [|done]. split; [lia|done].
Qed.

(** Induction on a merge. *)
Section tmerge_induction.
Context (P : tree -> tree -> tree -> bool -> Prop) (Q : list tree -> list tree -> list tree -> bool -> Prop).
Hypothesis (Hleaf : forall l l2 l' ch, leaf_merge l l2 = Some (l', ch) -> P (TLeaf l) (TLeaf l2) (TLeaf l') ch)
  (Hstruct : forall ks ts us ts' ch, Q ts us ts' ch -> P (TStruct ks ts) (TStruct ks us) (TStruct ks ts') ch)
  (Hheader : forall ks ts v us v2 ts' ch, Q ts us ts' ch ->
     P (THeader ks ts v) (THeader ks us v2) (THeader ks ts' (aval_merge Bool.eqb v v2)) (ch || aval_changed (aval_merge Bool.eqb v v2) v))
  (Harray : forall ts us ts' ch, Q ts us ts' ch -> P (TArray ts) (TArray us) (TArray ts') ch)
  (Htuple : forall ts us ts' ch, Q ts us ts' ch -> P (TTuple ts) (TTuple us) (TTuple ts') ch)
  (Hnil : Q [] [] [] false)
  (Hcons : forall t u t' c ts us ts' cs, P t u t' c -> Q ts us ts' cs -> Q (t :: ts) (u :: us) (t' :: ts') (c || cs)).
Lemma tmerge_induction t : forall u t' ch, tmerge t u = Some (t', ch) -> P t u t' ch.
Proof using Hleaf Hstruct Hheader Harray Htuple Hnil Hcons.
  assert (Hlist : forall ts, Forall (fun t => forall u t' ch, tmerge t u = Some (t', ch) -> P t u t' ch) ts ->
    forall us ts' ch, tmerges ts us = Some (ts', ch) -> Q ts us ts' ch).
  { induction 1 as [|t0 ts H0 _ IH]; intros [|u us] ts' ch Hm; simpl in Hm; try discriminate; [by simplify_eq|].
    destruct (tmerge t0 u) as [[t' c]|] eqn:E; [|done]. destruct (tmerges ts us) as [[ts'' cs]|] eqn:Es; [|done]. simplify_eq/=. auto. }
  induction t as [l|ks ts IH|ks ts v IH|ts IH|ts IH] using tree_induction; intros [l2|ks2 us|ks2 us v2|us|us] t' ch Hm; try discriminate;
    rewrite ?tmerge_struct, ?tmerge_header, ?tmerge_array, ?tmerge_tuple in Hm.
  1: simpl in Hm; destruct (leaf_merge l l2) as [[l' c]|] eqn:E; simplify_eq/=; by apply Hleaf.
  all: try (destruct (decide _) as [<-|]; [|done]); destruct (tmerges ts us) as [[ts' c]|] eqn:E; simplify_eq/=; auto.
Qed.
End tmerge_induction.

(** The answer is whether the tree has changed. *)
Lemma tmerge_flag_mut : (forall t u t' ch, tmerge t u = Some (t', ch) -> (ch = false <-> t' = t)) /\
  (forall ts us ts' ch, tmerges ts us = Some (ts', ch) -> (ch = false <-> ts' = ts)).
Proof.
  assert (Ht : forall t u t' ch, tmerge t u = Some (t', ch) -> (ch = false <-> t' = t)).
  { intros t u t' ch.
    apply (tmerge_induction (fun t u t' ch => ch = false <-> t' = t) (fun ts us ts' ch => ch = false <-> ts' = ts)); try done.
    1: intros l l2 l' c Hm; rewrite (leaf_merge_flag _ _ _ _ Hm); split; congruence.
    2: intros ks ts v us v2 ts' c Hq; rewrite orb_false_iff, aval_merge_flag, Hq; split; [by intros [-> ->]|by intros [= -> ->]].
    4: intros t0 u0 t0' c ts us ts' cs Hp Hq; rewrite orb_false_iff, Hp, Hq; split; [by intros [-> ->]|by intros [= -> ->]].
    all: intros; match goal with H : _ <-> _ |- _ => rewrite H end; split; congruence. }
  split; [done|]. induction ts as [|t0 ts IH]; intros [|u us] ts' ch Hm; simpl in Hm; try discriminate; [by simplify_eq|].
  destruct (tmerge t0 u) as [[t' c]|] eqn:E; [|done]. destruct (tmerges ts us) as [[ts'' cs]|] eqn:Es; [|done]. simplify_eq/=.
  apply Ht in E. apply IH in Es. rewrite orb_false_iff, E, Es. split; [by intros [-> ->]|by intros [= -> ->]].
Qed.
Lemma tmerges_flag ts us ts' ch : tmerges ts us = Some (ts', ch) -> (ch = false <-> ts' = ts).
Proof. apply tmerge_flag_mut. Qed.
Lemma tmerge_flag t u t' ch : tmerge t u = Some (t', ch) -> (ch = false <-> t' = t).
Proof. apply tmerge_flag_mut. Qed.
(** Merging the same value again changes nothing. *)
Lemma tmerge_again t u t' ch : tmerge t u = Some (t', ch) -> tmerge t' u = Some (t', false).
Proof.
  apply (tmerge_induction (fun t u t' ch => tmerge t' u = Some (t', false)) (fun ts us ts' ch => tmerges ts' us = Some (ts', false)));
    intros; rewrite ?tmerge_struct, ?tmerge_header, ?tmerge_array, ?tmerge_tuple, ?decide_True by done;
    try match goal with H : tmerges _ _ = _ |- _ => rewrite H end; try done.
  - simpl. by erewrite leaf_merge_again by done.
  - cbn. rewrite aval_merge_again. by destruct (aval_merge _ _ _).
  - simpl. by rewrite H, H0.
Qed.
(** A change takes something away from the rank. *)
Lemma tmerge_rank t u t' ch : tmerge t u = Some (t', ch) -> packets_ok t = true -> packets_ok u = true ->
  packets_ok t' = true /\ if ch then (rank t' < rank t)%nat else t' = t.
Proof.
  apply (tmerge_induction (fun t u t' ch => packets_ok t = true -> packets_ok u = true -> packets_ok t' = true /\ if ch then (rank t' < rank t)%nat else t' = t)
    (fun ts us ts' ch => forallb packets_ok ts = true -> forallb packets_ok us = true ->
       forallb packets_ok ts' = true /\ if ch then (sum_list (rank <$> ts') < sum_list (rank <$> ts))%nat else ts' = ts)); try done.
  - intros l l2 l' c Hm Hp Hp2. destruct (leaf_merge_rank _ _ _ _ Hm Hp Hp2) as [H1 H2]. split; [done|]. destruct c; [done|by subst].
  - intros ks ts us ts' c Hq Hp Hp2. destruct (Hq Hp Hp2) as [H1 H2]. split; [done|]. destruct c; [done|by subst].
  - intros ks ts v us v2 ts' c Hq Hp Hp2. destruct (Hq Hp Hp2) as [H1 H2]. split; [done|]. cbn [rank].
    destruct (aval_changed (aval_merge Bool.eqb v v2) v) eqn:E.
    + apply aval_merge_rank in E. destruct c; subst; simpl; lia.
    + apply aval_merge_flag in E. rewrite E. destruct c; subst; simpl; [lia|done].
  - intros ts us ts' c Hq Hp Hp2. destruct (Hq Hp Hp2) as [H1 H2]. split; [done|]. destruct c; [done|by subst].
  - intros ts us ts' c Hq Hp Hp2. destruct (Hq Hp Hp2) as [H1 H2]. split; [done|]. destruct c; [done|by subst].
  - intros t0 u0 t0' c ts us ts' cs Hp Hq. cbn [forallb]. intros [Hp0 Hps]%andb_true_iff [Hq0 Hqs]%andb_true_iff.
    destruct (Hp Hp0 Hq0) as [H1 H2], (Hq Hps Hqs) as [H3 H4]. rewrite H1, H3. split; [done|]. rewrite !fmap_cons.
    destruct c, cs; subst; cbn -[rank fmap]; lia || done.
Qed.

(** *** The order *)
Definition aval_le {A} (a b : aval A) : Prop := b = AUnknown \/ a = b.
(** The type of an integer belongs to its shape, and [conservative] to neither. *)
Definition leaf_le (l l' : leaf) : Prop :=
  match l, l' with
  | LBool a, LBool b => aval_le a b
  | LInt _ a, LInt _ b => aval_le a b
  | LVarbit a, LVarbit b => aval_le a b
  | LEnum a, LEnum b => aval_le a b
  | LExtern, LExtern => True
  | LPacketIn o _, LPacketIn o' _ => (o' <= o)%Z
  | _, _ => False
  end.
Fixpoint tle (t u : tree) : Prop :=
  let go := fix go ts us := match ts, us with [], [] => True | t :: ts, u :: us => tle t u /\ go ts us | _, _ => False end in
  match t, u with
  | TLeaf l, TLeaf l' => leaf_le l l'
  | TStruct ks ts, TStruct ks' us => ks = ks' /\ go ts us
  | THeader ks ts v, THeader ks' us v' => ks = ks' /\ go ts us /\ aval_le v v'
  | TArray ts, TArray us | TTuple ts, TTuple us => go ts us
  | _, _ => False
  end.
Definition tles : list tree -> list tree -> Prop :=
  fix go ts us := match ts, us with [], [] => True | t :: ts, u :: us => tle t u /\ go ts us | _, _ => False end.

Lemma aval_merge_lub {A} (eqb : A -> A -> bool) (a b : aval A) : (forall x y, eqb x y = true -> x = y) -> (forall x, eqb x x = true) ->
  aval_le a (aval_merge eqb a b) /\ aval_le b (aval_merge eqb a b) /\ forall c, aval_le a c -> aval_le b c -> aval_le (aval_merge eqb a b) c.
Proof.
  intros Heq Hrefl. unfold aval_le. destruct a as [| |x], b as [| |y]; simpl; try (destruct (eqb x y) eqn:E; [apply Heq in E as ->|]);
    (split; [auto|]; split; [auto|]; intros c Hc Hd; destruct Hc, Hd; subst; auto; try discriminate).
  simplify_eq. by rewrite Hrefl in E.
Qed.
Lemma leaf_merge_lub l l2 l' ch : leaf_merge l l2 = Some (l', ch) ->
  leaf_le l l' /\ leaf_le l2 l' /\ forall w, leaf_le l w -> leaf_le l2 w -> leaf_le l' w.
Proof.
  intros Hm. destruct l, l2; simpl in Hm; try discriminate;
    try (injection Hm as <- <-; simpl;
         match goal with |- context [aval_merge ?e ?x ?y] =>
           destruct (aval_merge_lub e x y) as (H1 & H2 & H3);
           [intros ??; rewrite ?Z.eqb_eq, ?String.eqb_eq; try done|intros; rewrite ?Z.eqb_refl, ?String.eqb_refl; try done|]
         end).
  all: try (split; [done|]; split; [done|]; intros [] ? ?; done || by apply H3).
  all: try (by destruct x, y); try (by destruct x).
  - injection Hm as <- <-. split; [done|]. split; [done|]. by intros [].
  - destruct (Z.ltb_spec offset0 offset); injection Hm as <- <-; simpl; (split; [lia|]; split; [lia|]; intros []; done).
Qed.

(** Merging is the least upper bound. *)
Lemma tmerge_least t u t' ch : tmerge t u = Some (t', ch) -> tle t t' /\ tle u t' /\ forall w, tle t w -> tle u w -> tle t' w.
Proof.
  apply (tmerge_induction (fun t u t' _ => tle t t' /\ tle u t' /\ forall w, tle t w -> tle u w -> tle t' w)
    (fun ts us ts' _ => tles ts ts' /\ tles us ts' /\ forall ws, tles ts ws -> tles us ws -> tles ts' ws)).
  - intros l l2 l' c Hm. destruct (leaf_merge_lub _ _ _ _ Hm) as (H1 & H2 & H3). split; [done|]. split; [done|]. intros []; try done. apply H3.
  - intros ks ts us ts' c (H1 & H2 & H3). split; [done|]. split; [done|]. intros []; try done. intros [-> Ht] [_ Hu]. split; [done|]. by apply H3.
  - intros ks ts v us v2 ts' c (H1 & H2 & H3).
    destruct (aval_merge_lub Bool.eqb v v2) as (H4 & H5 & H6); [by intros [] []|by intros []|]. split; [done|]. split; [done|].
    intros []; try done. intros (-> & Ht & Hv) (_ & Hu & Hv'). split; [done|]. split; [by apply H3|by apply H6].
  - intros ts us ts' c (H1 & H2 & H3). split; [done|]. split; [done|]. intros []; try done. apply H3.
  - intros ts us ts' c (H1 & H2 & H3). split; [done|]. split; [done|]. intros []; try done. apply H3.
  - split; [done|]. split; [done|]. done.
  - intros t0 u0 t0' c ts us ts' cs (H1 & H2 & H3) (H4 & H5 & H6). split; [done|]. split; [done|].
    intros [|w ws]; [done|]. intros [Ht Hts] [Hu Hus]. split; [by apply H3|by apply H6].
Qed.

Lemma tunknown_top t : forall u, tunknown t = Some u -> tle t u.
Proof.
  assert (Hlist : forall ts, Forall (fun t => forall u, tunknown t = Some u -> tle t u) ts -> forall us, tunknowns ts = Some us -> tles ts us).
  { induction 1 as [|t0 ts H0 _ IH]; intros us Hu; simpl in Hu; [by simplify_eq|]. destruct (tunknown t0) as [u0|]; [|done].
    destruct (tunknowns ts) as [us0|]; [|done]. simplify_eq/=. auto. }
  induction t as [l|ks ts IH|ks ts v IH|ts IH|ts IH] using tree_induction; intros u Hu.
  { destruct l; simplify_eq/=; by left. }
  all: cbn [tunknown] in Hu; rewrite tunknowns_fix in Hu; destruct (tunknowns ts) as [us|] eqn:E; simplify_eq/=; specialize (Hlist ts IH us E).
  - by split.
  - split; [done|]. split; [exact Hlist|by left].
  - exact Hlist.
  - exact Hlist.
Qed.

(** ** The methods *)
Lemma writes_good s l t F s' : store_ok s -> repr (objects s) l t F -> writes s F s' -> store_ok s'.
Proof. intros Hs Hr. apply writes_store_ok; [done|]. by eapply repr_dom. Qed.
Lemma merges_with_merge : merges_with merge store_ok (fun _ => True).
Proof.
  intros t l t2 l2 F F2 s t' ch Hs Hr Hr2 Hd _ Hm. unfold merge, fueled. eapply merge_spec_holds; [done|done|done|done| |done]. by eapply repr_fuel.
Qed.
Lemma equals_with_equals s : store_ok s -> equals_with equals s (fun _ => True).
Proof. intros Hs t l t2 l2 F F2 Hr Hr2 _ Hm. unfold equals, fueled. eapply equals_spec_holds; [done|done| |done]. by eapply repr_fuel. Qed.
Lemma clones_with_clone : clones_with clone (fun _ => True).
Proof. intros t l F s Hs Hr _. unfold clone, fueled. eapply clone_spec_holds; [done|done|]. by eapply repr_fuel. Qed.

(** After [l->assign(other)], [l] holds the value of [other], which keeps it;
    only the objects of [l] have changed. *)
Theorem assign_refines s l t F other u G : store_ok s -> repr (objects s) l t F -> repr (objects s) other u G -> F ## G -> assignable t u = true ->
  exists s', assign l other s = oret (tt, s') /\ writes s F s' /\ store_ok s' /\ repr (objects s') l u F /\ repr (objects s') other u G.
Proof.
  intros Hs Hr Hr2 Hd Ha. destruct (assign_spec_holds (Z.to_nat (crtid s)) t l u other F G s) as (s' & He & Hw & Hu); [done..|by eapply repr_fuel|done|].
  exists s'. split; [done|]. split; [done|]. split; [exact (writes_good _ _ _ _ _ Hs Hr Hw)|]. split; [done|]. by eapply writes_repr.
Qed.

(** [l->clone()] is a new value equal to [l]. *)
Theorem value_clone_refines s l t F : store_ok s -> repr (objects s) l t F ->
  exists l' s' G, clone l s = oret (l', s') /\ store_ok s' /\ repr (objects s') l' t G /\ repr (objects s') l t F /\ G ## dom (objects s) /\
    forall x, x ∈ dom (objects s) -> objects s' !! x = objects s !! x.
Proof.
  intros Hs Hr. destruct (clones_with_clone t l F s Hs Hr I) as (l' & s' & G & He & Hx & Hr' & Hc).
  exists l', s', G. split; [done|]. split; [apply Hx|]. split; [done|].
  assert (Hold : forall x, x ∈ dom (objects s) -> objects s' !! x = objects s !! x) by (intros x Hx'; apply Hx; by apply Hs).
  split; [eapply repr_frame; [done|]; intros x Hx'; apply Hold; by eapply repr_dom|]. split; [|done].
  intros x Hx1 Hx2. apply Hc in Hx1. apply Hs in Hx2. lia.
Qed.

(** C5. [l->merge(other)] leaves the least upper bound in [l] and answers whether
    it differs from what [l] was. *)
Theorem merge_refines s l t F other u G t' ch : store_ok s -> repr (objects s) l t F -> repr (objects s) other u G -> F ## G ->
  tmerge t u = Some (t', ch) ->
  exists s', merge l other s = oret (ch, s') /\ writes s F s' /\ store_ok s' /\ repr (objects s') l t' F /\ (ch = false <-> t' = t) /\
    tle t t' /\ tle u t' /\ forall w, tle t w -> tle u w -> tle t' w.
Proof.
  intros Hs Hr Hr2 Hd Hm. destruct (merges_with_merge t l u other F G s t' ch) as (s' & He & Hw & Ht); [done..|].
  exists s'. split; [done|]. split; [done|]. split; [exact (writes_good _ _ _ _ _ Hs Hr Hw)|]. split; [done|].
  split; [by eapply tmerge_flag|by eapply tmerge_least].
Qed.


(** [l->setAllUnknown()] forgets every scalar of [l]. *)
Theorem setAllUnknown_refines s l t F u : store_ok s -> repr (objects s) l t F -> tunknown t = Some u ->
  exists s', setAllUnknown l s = oret (tt, s') /\ writes s F s' /\ store_ok s' /\ repr (objects s') l u F /\ tle t u.
Proof.
  intros Hs Hr Hu. destruct (unknown_spec_holds (Z.to_nat (crtid s)) t l F s u) as (s' & He & Hw & Ht); [done|by eapply repr_fuel|done|].
  exists s'. split; [done|]. split; [done|]. split; [exact (writes_good _ _ _ _ _ Hs Hr Hw)|]. split; [done|]. by apply tunknown_top.
Qed.

(** ** Repeated merges *)
(** Merges several values into [l] and counts the answers [true]. *)
Fixpoint merge_all (l : loc) (others : list loc) : M nat :=
  match others with
  | [] => mret 0%nat
  | other :: others => ch ← merge l other; n ← merge_all l others; mret ((if ch : bool then 1 else 0) + n)%nat
  end.
Lemma leaf_merge_defined l l2 l' ch w : leaf_merge l l2 = Some (l', ch) -> is_Some (leaf_merge l w) -> is_Some (leaf_merge l' w).
Proof.
  intros Hm [r Hr]. destruct l, l2; simplify_eq/=; destruct w; simplify_eq/=; eauto; repeat case_match; simplify_eq/=; eauto; case_match; eauto.
Qed.
(** What can be merged into a value still can afterwards. *)
Lemma tmerge_defined t u t' ch : tmerge t u = Some (t', ch) -> forall w, is_Some (tmerge t w) -> is_Some (tmerge t' w).
Proof.
  apply (tmerge_induction (fun t u t' ch => forall w, is_Some (tmerge t w) -> is_Some (tmerge t' w))
    (fun ts us ts' ch => forall ws, is_Some (tmerges ts ws) -> is_Some (tmerges ts' ws))); try done.
  - intros l l2 l' c Hm [w| | | |] [r Hr]; try done. simpl in *. destruct (leaf_merge l w) as [[]|] eqn:E; [|done].
    destruct (leaf_merge_defined _ _ _ _ w Hm) as [[] ->]; by eauto.
  - intros ks ts us ts' c Hq [|ks2 ws| | |] [r Hr]; try done. rewrite tmerge_struct in *. destruct (decide _); [|done].
    destruct (tmerges ts ws) as [[]|] eqn:E; [|done]. destruct (Hq ws) as [[] ->]; by eauto.
  - intros ks ts v us v2 ts' c Hq [| |ks2 ws v3| |] [r Hr]; try done. rewrite tmerge_header in *. destruct (decide _); [|done].
    destruct (tmerges ts ws) as [[]|] eqn:E; [|done]. destruct (Hq ws) as [[] ->]; by eauto.
  - intros ts us ts' c Hq [| | |ws|] [r Hr]; try done. rewrite tmerge_array in *.
    destruct (tmerges ts ws) as [[]|] eqn:E; [|done]. destruct (Hq ws) as [[] ->]; by eauto.
  - intros ts us ts' c Hq [| | | |ws] [r Hr]; try done. rewrite tmerge_tuple in *.
    destruct (tmerges ts ws) as [[]|] eqn:E; [|done]. destruct (Hq ws) as [[] ->]; by eauto.
  - intros t0 u0 t0' c ts us ts' cs Hp Hq [|w ws] [r Hr]; [done|]. simpl in *. destruct (tmerge t0 w) as [[]|] eqn:E; [|done].
    destruct (tmerges ts ws) as [[]|] eqn:Es; [|done]. destruct (Hp w) as [[] ->]; [by eauto|]. destruct (Hq ws) as [[] ->]; by eauto.
Qed.

(** C26. A value changes at most as often as its rank, whatever is merged into it:
    an iteration that merges until nothing changes comes to an end. *)
Theorem merge_all_settles s l t F others us : store_ok s -> repr (objects s) l t F -> packets_ok t = true ->
  Forall2 (fun other u => exists G, repr (objects s) other u G /\ F ## G /\ packets_ok u = true /\ is_Some (tmerge t u)) others us ->
  exists n s' t', merge_all l others s = oret (n, s') /\ (n + rank t' <= rank t)%nat /\ store_ok s' /\ repr (objects s') l t' F.
Proof.
  intros Hs Hr Hp Ho. revert s t Hs Hr Hp Ho. revert us. induction others as [|other others IH]; intros us s t Hs Hr Hp Ho.
  - exists 0%nat, s, t. split; [done|]. split; [lia|done].
  - inversion Ho as [|? u ? us' (G & Hru & Hd & Hpu & [[t1 ch] Hm]) Hos]; subst.
    destruct (merges_with_merge t l u other F G s t1 ch) as (s1 & He & Hw & Hr1); [done..|]. pose proof (writes_good _ _ _ _ _ Hs Hr Hw) as Hs1.
    destruct (tmerge_rank t u t1 ch Hm Hp Hpu) as [Hp1 Hrank].
    destruct (IH us' s1 t1) as (n & s2 & t2 & He2 & Hn & Hs2 & Hr2); [done..| |].
    { eapply Forall2_impl; [exact Hos|]. intros x v (H & Hv & Hdv & Hpv & Hmv). exists H. split; [by eapply writes_repr|].
      split; [done|]. split; [done|]. by eapply tmerge_defined. }
    exists ((if ch then 1 else 0) + n)%nat, s2, t2. cbn [merge_all]. rewrite (M_bind_ok _ _ _ _ _ He), (M_bind_ok _ _ _ _ _ He2).
    split; [done|]. split; [|done]. destruct ch; [lia|subst; lia].
Qed.

(** ** Maps of values *)
(** Two maps over the same declarations, which both keep in the same order. *)
Lemma map_get_ok (m : ValueMap) k x : NoDup m.*1 -> (k, x) ∈ m -> map_get m k = Some x.
Proof.
  intros Hnd Hin. pose proof (field_of_ok m k x empty_store Hnd Hin) as Hf. unfold field_of in Hf. unfold map_get.
  destruct (List.find _ m) as [p|]; [|done]. by injection Hf as <-.
Qed.
Lemma maps_paired {B} (g : loc -> loc -> M B) (m other : ValueMap) : NoDup other.*1 -> m.*1 = other.*1 ->
  Forall2 (fun d p => forall s, (match map_get other d.1 with Some v => g d.2 v | None => fail_ "null pointer" end) s = g p.1 p.2 s) m (zip m.*2 other.*2).
Proof.
  intros Hnd. assert (Hgen : forall m1 o1 : ValueMap, (forall f, f ∈ o1 -> f ∈ other) -> m1.*1 = o1.*1 ->
    Forall2 (fun d p => forall s, (match map_get other d.1 with Some v => g d.2 v | None => fail_ "null pointer" end) s = g p.1 p.2 s) m1 (zip m1.*2 o1.*2)).
  { induction m1 as [|[k x] m1 IH]; intros [|[k' y] o1] Hsub Heq; try done. injection Heq as <- Heq. simpl. constructor.
    - intros s. simpl. rewrite (map_get_ok other k y); [done..|]. apply Hsub. by left.
    - apply IH; [|done]. intros f Hf. apply Hsub. by right. }
  by apply Hgen.
Qed.

Definition vmap_repr (h : gmap loc SymbolicValue) (m : ValueMap) (ts : list tree) (F : gset loc) : Prop := NoDup m.*1 /\ reprs h m.*2 ts F.

(** [ValueMap::merge] merges every variable. *)
Theorem ValueMap_merge_refines s m ts F other us G ts' ch : store_ok s -> vmap_repr (objects s) m ts F -> vmap_repr (objects s) other us G ->
  F ## G -> m.*1 = other.*1 -> tmerges ts us = Some (ts', ch) ->
  exists s', ValueMap_merge m other s = oret (ch, s') /\ writes s F s' /\ store_ok s' /\ vmap_repr (objects s') m ts' F /\
    vmap_repr (objects s') other us G /\ (ch = false <-> ts' = ts).
Proof.
  intros Hs [Hnd Hr] [Hnd2 Hr2] Hd Hk Hm.
  destruct (merges_ok merge store_ok (fun _ => True) merges_with_merge writes_store_ok m.*2 ts F other.*2 us G s ts' ch)
    as (s' & He & Hw & Ht); [done..|by apply Forall_true|done|].
  assert (Hlen : length m = length other) by (apply (f_equal length) in Hk; by rewrite !length_fmap in Hk).
  exists s'. unfold ValueMap_merge. rewrite Hlen, Nat.eqb_refl, (anyM_ext2 _ _ _ _ (maps_paired merge m other Hnd2 Hk)).
  split; [done|]. split; [done|]. split; [eapply writes_store_ok; [done| |done]; by eapply reprs_dom|]. split; [by split|].
  split; [split; [done|by eapply writes_reprs]|]. by eapply tmerges_flag.
Qed.
(** [ValueMap::equals] compares every variable. *)
Theorem ValueMap_equals_refines s m ts F other us G : store_ok s -> vmap_repr (objects s) m ts F -> vmap_repr (objects s) other us G ->
  m.*1 = other.*1 -> shapeds ts us = true -> ValueMap_equals m other s = oret (tequal_lists ts us, s).
Proof.
  intros Hs [Hnd Hr] [Hnd2 Hr2] Hk Hm. assert (Hlen : length m = length other) by (apply (f_equal length) in Hk; by rewrite !length_fmap in Hk).
  unfold ValueMap_equals. rewrite Hlen, Nat.eqb_refl, (allM_ext2 _ _ _ _ (maps_paired equals m other Hnd2 Hk)).
  eapply equals_ok; [by apply equals_with_equals|done|done|by apply Forall_true|done].
Qed.
(** [ValueMap::clone] copies every variable. *)
Theorem ValueMap_clone_refines s m ts F : store_ok s -> vmap_repr (objects s) m ts F ->
  exists m' s' G, ValueMap_clone m s = oret (m', s') /\ store_ok s' /\ m'.*1 = m.*1 /\ vmap_repr (objects s') m' ts G /\
    vmap_repr (objects s') m ts F /\ F ## G.
Proof.
  intros Hs [Hnd Hr].
  destruct (clones_ok clone (fun _ => True) snd (fun (f : string * loc) (x : loc) => (f.1, x)) snd (fun _ => mret tt) (fun _ => True)
    clones_with_clone ltac:(done) ltac:(done) m ts F s Hs Hr) as (m' & s' & G & He & Hx & Hr' & Hc & Hf); [by apply Forall_true..|].
  assert (Hk : m'.*1 = m.*1) by (clear -Hf; induction Hf as [|f y fs fs' [x ->] _ IH]; [done|]; by rewrite !fmap_cons, IH).
  exists m', s', G. split; [|split; [apply Hx|split; [done|split; [split; [by rewrite Hk|done]|split]]]].
  - etrans; [|exact He]. apply mapM_ext. intros f s0. unfold mbind, M_bind. by destruct (clone f.2 s0).
  - split; [done|]. eapply extends_reprs; [done|by eapply reprs_old|done].
  - intros x Hx1 Hx2. apply (reprs_old _ _ _ _ Hs Hr) in Hx1. apply Hc in Hx2. lia.
Qed.

(** ** A small store *)
Local Open Scope Z_scope.
(** Two headers with one field: a valid one with a known field, and an invalid
    one with an unknown field. *)
Definition byte_ : Type_ := Type_Bits 8 false.
Definition one_field : SymType := T_Header "h" [("x", T_Bits 8 false)].
Definition small_store : Store :=
  {| objects := {[1%Z := SymbolicInteger byte_ Constant_ (Some {| ctype := byte_; cvalue := 7; cbase := 10 |});
                  2%Z := SymbolicBool Constant_ true; 3%Z := SymbolicHeader one_field [("x", 1%Z)] 2;
                  4%Z := SymbolicInteger byte_ NotConstant None; 5%Z := SymbolicBool Constant_ false;
                  6%Z := SymbolicHeader one_field [("x", 4%Z)] 5]};
     crtid := 7 |}.
Definition header_7 : tree := THeader ["x"] [TLeaf (LInt byte_ (AKnown 7))] (AKnown true).
Definition header_none : tree := THeader ["x"] [TLeaf (LInt byte_ AUnknown)] (AKnown false).

Lemma small_store_ok : store_ok small_store.
Proof.
  split; [done|]. intros l Hl. apply elem_of_dom in Hl as [v Hv]. simpl in *.
  repeat (apply lookup_insert_Some in Hv as [[<- _]|[_ Hv]]; [lia|]). apply lookup_singleton_Some in Hv as [<- _]. lia.
Qed.
Lemma small_header h l x valid st b v lf :
  h !! l = Some (SymbolicHeader one_field [("x", x)] valid) -> h !! valid = Some (SymbolicBool st b) -> h !! x = Some v -> leaf_of v = Some lf ->
  l <> x -> l <> valid -> x <> valid -> repr h l (THeader ["x"] [TLeaf lf] (aval_of st b)) ({[l]} ∪ (({[x]} ∪ ∅) ∪ {[valid]})).
Proof.
  intros Hl Hv Hx Hlf H1 H2 H3. apply (repr_header h l one_field [("x", x)] valid st b); [done|done| | |set_solver|set_solver|done].
  - split; [apply NoDup_singleton|done].
  - simpl. constructor; [by econstructor|constructor|set_solver].
Qed.
Lemma small_store_3 : repr (objects small_store) 3 header_7 ({[3]} ∪ (({[1]} ∪ ∅) ∪ {[2]})).
Proof. eapply (small_header _ 3 1 2 Constant_ true); [reflexivity..|done|done|done]. Qed.
Lemma small_store_6 : repr (objects small_store) 6 header_none ({[6]} ∪ (({[4]} ∪ ∅) ∪ {[5]})).
Proof. eapply (small_header _ 6 4 5 Constant_ false); [reflexivity..|done|done|done]. Qed.

Lemma assign_refines_witness : exists s' F, assign 3 6 small_store = oret (tt, s') /\ repr (objects s') 3 header_none F.
Proof.
  destruct (assign_refines small_store 3 header_7 _ 6 header_none _ small_store_ok small_store_3 small_store_6) as (s' & He & _ & _ & Hr & _);
    [set_solver|reflexivity|]. eexists s', _. by split.
Defined.
Lemma value_clone_refines_witness : exists l' s' G, clone 3 small_store = oret (l', s') /\ repr (objects s') l' header_7 G.
Proof.
  destruct (value_clone_refines small_store 3 header_7 _ small_store_ok small_store_3) as (l' & s' & G & He & _ & Hr & _). by exists l', s', G.
Defined.
Lemma merge_refines_witness : exists s' F, merge 3 6 small_store = oret (true, s') /\ repr (objects s') 3 (THeader ["x"] [TLeaf (LInt byte_ AUnknown)] AUnknown) F.
Proof.
  destruct (merge_refines small_store 3 header_7 _ 6 header_none _ (THeader ["x"] [TLeaf (LInt byte_ AUnknown)] AUnknown) true
    small_store_ok small_store_3 small_store_6) as (s' & He & _ & _ & Hr & _); [set_solver|reflexivity|]. eexists s', _. by split.
Defined.
Lemma setAllUnknown_refines_witness : exists s' F, setAllUnknown 3 small_store = oret (tt, s') /\
  repr (objects s') 3 (THeader ["x"] [TLeaf (LInt byte_ AUnknown)] AUnknown) F.
Proof.
  destruct (setAllUnknown_refines small_store 3 header_7 _ (THeader ["x"] [TLeaf (LInt byte_ AUnknown)] AUnknown) small_store_ok small_store_3 eq_refl)
    as (s' & He & _ & _ & Hr & _). eexists s', _. by split.
Defined.
Lemma merge_all_settles_witness : exists n s' t', merge_all 3 [6%Z; 6%Z] small_store = oret (n, s') /\ (n + rank t' <= 2)%nat.
Proof.
  destruct (merge_all_settles small_store 3 header_7 _ [6%Z; 6%Z] [header_none; header_none] small_store_ok small_store_3 eq_refl) as (n & s' & t' & He & Hn & _).
  { repeat constructor; (eexists; split; [exact small_store_6|]); (split; [set_solver|]); (split; [reflexivity|]); by eexists. }
  by exists n, s', t'.
Defined.
(** Two maps with the variable [h]. *)
Definition map_3 : ValueMap := [("h", 3)].
Definition map_6 : ValueMap := [("h", 6)].
Lemma small_map k l t F : repr (objects small_store) l t F -> vmap_repr (objects small_store) [(k, l)] [t] (F ∪ ∅).
Proof. intros Hr. split; [apply NoDup_singleton|]. constructor; [done|constructor|set_solver]. Qed.
Lemma ValueMap_merge_refines_witness : exists s', ValueMap_merge map_3 map_6 small_store = oret (true, s').
Proof.
  destruct (ValueMap_merge_refines small_store map_3 [header_7] _ map_6 [header_none] _ [THeader ["x"] [TLeaf (LInt byte_ AUnknown)] AUnknown] true
    small_store_ok (small_map "h" 3 _ _ small_store_3) (small_map "h" 6 _ _ small_store_6)) as (s' & He & _); [set_solver|reflexivity|reflexivity|]. by exists s'.
Defined.
Lemma ValueMap_equals_refines_witness : ValueMap_equals map_3 map_3 small_store = oret (true, small_store).
Proof.
  exact (ValueMap_equals_refines small_store map_3 [header_7] _ map_3 [header_7] _
    small_store_ok (small_map "h" 3 _ _ small_store_3) (small_map "h" 3 _ _ small_store_3) eq_refl eq_refl).
Defined.
Lemma ValueMap_clone_refines_witness : exists m' s' G, ValueMap_clone map_3 small_store = oret (m', s') /\ vmap_repr (objects s') m' [header_7] G.
Proof.
  destruct (ValueMap_clone_refines small_store map_3 [header_7] _ small_store_ok (small_map "h" 3 _ _ small_store_3)) as (m' & s' & G & He & _ & _ & Hr & _).
  by exists m', s', G.
Defined.

(** ** Two values the code loses *)
(** The validities of the headers of a stack. *)
Definition validities (l : loc) : M (list SymbolicValue) :=
  values ← get_values l;
  mapM_ (fun x => o ← deref x; match header_parts o with Some (_, valid) => deref valid | None => fail_ "" end) values.
Definition stack_of (n : nat) : SymType := T_Stack (T_Header "h" [("x", T_Bits 8 false)]) n.
(** A stack of three valid headers, shifted by [amount]. *)
Definition shift_valid (amount : Z) : option (list SymbolicValue) :=
  match (l ← create_ id 5 (stack_of 3) false; values ← get_values l; iterM (fun x => setValid x true) values;; shift l amount;; validities l) empty_store with
  | Done r _ => Some r.1
  | Aborted _ => None
  end.
(** [shift] copies the pointer of an element, so that the invalidation of the
    first element also invalidates the one that has taken its value: after a
    [push_front(1)] the second header, which was valid, is not; after a
    [pop_front(1)] neither is the second, which took the value of the third. *)
Example shift_aliases : shift_valid 1 = Some [SymbolicBool Constant_ false; SymbolicBool Constant_ false; SymbolicBool Constant_ true] /\
  shift_valid (-1) = Some [SymbolicBool Constant_ true; SymbolicBool Constant_ false; SymbolicBool Constant_ false].
Proof. split; vm_compute; reflexivity. Qed.

(** Merging a conservative packet that is not behind drops [conservative]. *)
Definition two_packets : Store := {| objects := {[1 := SymbolicPacketIn 0 false; 2 := SymbolicPacketIn 0 true]}; crtid := 3 |}.
Example packet_merge_drops_conservative : merge 1 2 two_packets = oret (false, two_packets).
Proof. vm_compute; reflexivity. Qed.
