(* ===== verification/SymTyped.v ===== *)
(** * The types of symbolic values

    [SymbolicValueFactory::create] makes a value of a type; [typed] says which
    trees are values of a type, and [new_tree] which of them [create] makes.
    Merging, assigning and forgetting values keep their type. *)
From S2P Require Import Prelude Gmp Ir SymValue SymTree SymRefine SymFacts.
Local Open Scope flexplan_scope.

Section typing.
Context (getTypeType : SymType -> SymType).
Local Notation strip := (strip_type getTypeType).

(** ** Values of a type *)
Definition leaf_typed (ty : SymType) (l : leaf) : Prop :=
  match ty, l with
  | T_Bits w sg, LInt t _ => t = Type_Bits w sg
  | T_Boolean, LBool _ | T_Varbits _, LVarbit _ | (T_Enum _ _ | T_Error | T_MatchKind), LEnum _ => True
  | T_Extern n, LExtern => n <> "packet_in"
  | T_Extern n, LPacketIn _ _ => n = "packet_in"
  | _, _ => False
  end.
Inductive typed : SymType -> tree -> Prop :=
| typed_specialized ty u t : strip ty = T_SpecializedCanonical u -> typed u t -> typed ty t
| typed_leaf ty l : leaf_typed (strip ty) l -> typed ty (TLeaf l)
| typed_struct ty n fs ks ts : strip ty = T_Struct n fs -> fields_ok (T_Struct n fs) ks -> typed_fields fs ks ts -> typed ty (TStruct ks ts)
| typed_header ty n fs ks ts v : strip ty = T_Header n fs -> fields_ok (T_Header n fs) ks -> typed_fields fs ks ts -> typed ty (THeader ks ts v)
| typed_stack ty elem n ts : strip ty = T_Stack elem n -> typeds (replicate n elem) ts -> Forall (fun t => is_theader t = true) ts -> typed ty (TArray ts)
| typed_tuple ty comps ts : strip ty = T_Tuple comps -> typeds comps ts -> typed ty (TTuple ts)
with typed_fields : list (string * SymType) -> list string -> list tree -> Prop :=
| typed_fields_nil fs : typed_fields fs [] []
| typed_fields_cons fs k ty t ks ts : (k, ty) ∈ fs -> typed ty t -> typed_fields fs ks ts -> typed_fields fs (k :: ks) (t :: ts)
with typeds : list SymType -> list tree -> Prop :=
| typeds_nil : typeds [] []
| typeds_cons ty tys t ts : typed ty t -> typeds tys ts -> typeds (ty :: tys) (t :: ts).
Scheme typed_mut := Minimality for typed Sort Prop
  with typed_fields_mut := Minimality for typed_fields Sort Prop
  with typeds_mut := Minimality for typeds Sort Prop.
Combined Scheme typed_ind3 from typed_mut, typed_fields_mut, typeds_mut.
Create HintDb typed.
#[local] Hint Constructors typed typed_fields typeds : typed.

(** ** What [create] makes *)
Definition fresh_fields (kts : list (string * tree)) : list (string * tree) := fold_left (fun m p => oput (ord := String.ltb) p.1 p.2 m) kts [].
(** Headers are invalid, scalars unknown or uninitialised. *)
Fixpoint new_tree (fuel : nat) (type : SymType) (uninit : bool) : option tree :=
  match fuel with
  | O => None
  | S fuel =>
      let fields fs := ts ← mapM (fun f => new_tree fuel f.2 uninit) fs;
                       if bool_decide (NoDup fs.*1) then Some (fresh_fields (zip fs.*1 ts)) else None in
      match strip type with
      | T_Bits w sg => Some (TLeaf (LInt (Type_Bits w sg) (aval_of (init uninit) 0%Z)))
      | T_Boolean => Some (TLeaf (LBool (aval_of (init uninit) false)))
      | T_Struct n fs => m ← fields fs; Some (TStruct m.*1 m.*2)
      | T_Header n fs => m ← fields fs; Some (THeader m.*1 m.*2 (AKnown false))
      | T_Varbits _ => Some (TLeaf (LVarbit AUninit))
      | T_Stack elem size => ts ← mapM (fun t => new_tree fuel t uninit) (replicate size elem);
                             if bool_decide (Forall (fun t => is_theader t = true) ts) then Some (TArray ts) else None
      | T_Tuple comps => TTuple <$> mapM (fun t => new_tree fuel t uninit) comps
      | T_Extern name => Some (TLeaf (if String.eqb name "packet_in" then LPacketIn 0 false else LExtern))
      | T_Enum _ _ | T_Error | T_MatchKind => Some (TLeaf (LEnum (aval_of (init uninit) "")))
      | T_SpecializedCanonical t => new_tree fuel t uninit
      | _ => None
      end
  end.

(** *** Maps of fields *)
(** The two maps have the same fields in the same order. *)
Definition fields_repr (h : gmap loc SymbolicValue) (m : list (string * loc)) (mt : list (string * tree)) (F : gset loc) : Prop :=
  m.*1 = mt.*1 /\ reprs h m.*2 mt.*2 F.
Lemma oinsert_repr h k l t F m mt G : repr h l t F -> fields_repr h m mt G -> F ## G ->
  fields_repr h (oinsert (ord := String.ltb) k l m) (oinsert (ord := String.ltb) k t mt) (F ∪ G).
Proof.
  revert mt G. induction m as [|[k1 l1] m IH]; intros [|[k2 t2] mt] G Ht [Hk Hr] Hd; try discriminate; simpl in *.
  - split; [done|]. by constructor.
  - injection Hk as -> Hk. inversion Hr as [|? ? ? ? F1 F2 Hr1 Hr2 Hd2]; subst. destruct (@key_ltb _ String.ltb k k2).
    + split; [rewrite !fmap_cons; by do 2 f_equal|]. by constructor.
    + destruct (IH mt F2) as [Hk' Hr']; [done|done|set_solver|]. split; [by rewrite !fmap_cons, Hk'|]. rewrite !fmap_cons.
      replace (F ∪ (F1 ∪ F2)) with (F1 ∪ (F ∪ F2)) by set_solver. constructor; [done|done|set_solver].
Qed.
Lemma ofind_none {A} k (m : list (string * A)) : k ∉ m.*1 -> ofind k m = None.
Proof. intros Hk. by apply ofind_None_keys. Qed.
Lemma oinsert_keys {A} k (x : A) m : (oinsert (ord := String.ltb) k x m).*1 ≡ₚ k :: m.*1.
Proof. apply okeys_oinsert_perm. Qed.

(** Storing new fields one after the other. *)
Lemma fill_fields_ok h ls kts : ls.*1 = kts.*1 -> forall F m mt G, NoDup (ls.*1 ++ m.*1) -> reprs h ls.*2 kts.*2 F -> fields_repr h m mt G -> F ## G ->
  exists m' mt', fold_left (fun m p => oput (ord := String.ltb) p.1 p.2 m) ls m = m' /\
    fold_left (fun m p => oput (ord := String.ltb) p.1 p.2 m) kts mt = mt' /\ fields_repr h m' mt' (F ∪ G) /\ m'.*1 ≡ₚ ls.*1 ++ m.*1.
Proof.
  revert kts. induction ls as [|[k l] ls IH]; intros [|[k' t] kts] Hk F m mt G Hnd Hr Hm Hd; try discriminate; simpl in *.
  - inversion Hr; subst. exists m, mt. split; [done|]. split; [done|]. split; [|done]. by replace (∅ ∪ G) with G by set_solver.
  - injection Hk as -> Hk. inversion Hr as [|? ? ? ? F1 F2 Hr1 Hr2 Hd2]; subst. apply NoDup_cons in Hnd as [Hn Hnd].
    assert (Hkm : k' ∉ m.*1) by set_solver. assert (Hkt : k' ∉ mt.*1) by (destruct Hm as [<- _]; done).
    assert (Hput : forall A (x : A) m0, k' ∉ m0.*1 -> oput (ord := String.ltb) k' x m0 = oinsert (ord := String.ltb) k' x m0)
      by (intros A x m0 Hx; unfold oput; by rewrite ofind_none).
    rewrite !Hput by done.
    edestruct (IH kts ltac:(done) F2 (oinsert (ord := String.ltb) k' l m) (oinsert (ord := String.ltb) k' t mt) (F1 ∪ G)) as (m' & mt' & H1 & H2 & H3 & H4).
    + rewrite oinsert_keys, <- Permutation_middle. by apply NoDup_cons.
    + done.
    + apply oinsert_repr; [done|done|set_solver].
    + set_solver.
    + exists m', mt'. split; [done|]. split; [done|]. split; [replace (F1 ∪ F2 ∪ G) with (F2 ∪ (F1 ∪ G)) by set_solver; exact H3|].
      rewrite H4, oinsert_keys. by rewrite <- Permutation_middle.
Qed.

(** *** [create] *)
Definition creates (fuel : nat) : Prop := forall ty u t s, new_tree fuel ty u = Some t -> store_ok s ->
  exists l s' G, create_ getTypeType fuel ty u s = oret (l, s') /\ extends s s' /\ repr (objects s') l t G /\ created s s' G.
(** The parts of a value, made one after the other. *)
Lemma create_list_ok {A B} fuel u (f : A -> SymType) (g : A -> loc -> B) (k : B -> loc) (post : loc -> M unit) (ok : tree -> Prop) ls ts s :
  creates fuel -> (forall a x, k (g a x) = x) -> (forall s l t F, repr (objects s) l t F -> ok t -> post l s = oret (tt, s)) -> store_ok s ->
  mapM (fun a => new_tree fuel (f a) u) ls = Some ts -> Forall ok ts ->
  exists ys s' G, mapM_ (fun a => x ← create_ getTypeType fuel (f a) u; post x;; mret (g a x)) ls s = oret (ys, s') /\ extends s s' /\
    reprs (objects s') (k <$> ys) ts G /\ created s s' G /\ Forall2 (fun a y => exists x, y = g a x) ls ys.
Proof.
  intros Hc Hk Hpost Hs Hm Hok. apply (makes_ok (fun a => create_ getTypeType fuel (f a) u) g k post ok (fun _ a t => new_tree fuel (f a) u = Some t)); [|done..| |done].
  - intros a t s0 Hs0 Ha. by apply Hc.
  - by apply mapM_Some.
Qed.
Lemma create_fields_ok fuel u fs ts s : creates fuel -> store_ok s -> mapM (fun f => new_tree fuel f.2 u) fs = Some ts -> NoDup fs.*1 ->
  exists m s' G, create_fields (fun t => create_ getTypeType fuel t u) fs s = oret (m, s') /\ extends s s' /\
    fields_repr (objects s') m (fresh_fields (zip fs.*1 ts)) G /\ created s s' G /\ m.*1 ≡ₚ fs.*1.
Proof.
  intros Hc Hs Hm Hnd. assert (Hlen : length fs = length ts) by (apply mapM_Some in Hm; by eapply Forall2_length).
  destruct (create_list_ok (B := string * loc) fuel u snd (fun f x => (f.1, x)) snd (fun _ => mret tt) (fun _ => True) fs ts s Hc ltac:(done) ltac:(done) Hs Hm)
    as (ls & s' & G & He & Hx & Hr & Hcr & Hf); [by apply Forall_true|].
  assert (Hkeys : ls.*1 = fs.*1) by (clear -Hf; induction Hf as [|f y fs ls [x ->] _ IH]; [done|]; by rewrite !fmap_cons, IH).
  assert (Hzip : (zip fs.*1 ts).*1 = fs.*1 /\ (zip fs.*1 ts).*2 = ts) by (rewrite fst_zip, snd_zip; rewrite ?length_fmap; (done || lia)). destruct Hzip as [Hz1 Hz2].
  destruct (fill_fields_ok (objects s') ls (zip fs.*1 ts) ltac:(by rewrite Hz1) G [] [] ∅) as (m & mt & H1 & H2 & Hfr & Hp).
  - by rewrite app_nil_r, Hkeys.
  - by rewrite Hz2.
  - split; [done|constructor].
  - set_solver.
  - exists m, s', G. split; [|split; [done|split; [|split; [done|by rewrite Hp, app_nil_r, Hkeys]]]].
    + unfold create_fields. erewrite (M_bind_ok _ _ s); [by rewrite H1|]. etrans; [|exact He]. apply mapM_ext. intros f s0. unfold mbind, M_bind.
      by destruct (create_ getTypeType fuel f.2 u s0).
    + unfold fresh_fields. rewrite H2. by replace G with (G ∪ ∅) by set_solver.
Qed.
Lemma fields_ok_perm type keys : NoDup (type_fields type).*1 -> keys ≡ₚ (type_fields type).*1 -> fields_ok type keys.
Proof. intros Hnd Hp. split; [by rewrite Hp|]. intros f. by rewrite Hp. Qed.

Lemma creates_leaf v lf s : leaf_of v = Some lf -> store_ok s ->
  exists l s' G, alloc v s = oret (l, s') /\ extends s s' /\ repr (objects s') l (TLeaf lf) G /\ created s s' G.
Proof.
  intros Hlf Hs. destruct (alloc_ok v s Hs) as (s' & He & Hx & Hl & Hc). exists (crtid s), s', {[crtid s]}. split; [done|]. split; [done|].
  split; [by econstructor|]. intros x ->%elem_of_singleton. lia.
Qed.
Lemma creates_struct fuel u n fs ts s :
  creates fuel -> store_ok s -> mapM (fun f => new_tree fuel f.2 u) fs = Some ts -> NoDup fs.*1 ->
  exists l s' G, SymbolicStruct_new (fun t => create_ getTypeType fuel t u) (T_Struct n fs) s = oret (l, s') /\ extends s s' /\ repr (objects s') l (TStruct (fresh_fields (zip fs.*1 ts)).*1 (fresh_fields (zip fs.*1 ts)).*2) G /\ created s s' G.
Proof.
  intros IH Hs Hm Hnd.
  destruct (create_fields_ok fuel u fs ts s IH Hs Hm Hnd) as (m & s1 & G & He & Hx & [Hk Hr] & Hc & Hp).
  destruct (alloc_ok (SymbolicStruct (T_Struct n fs) m) s1) as (s2 & He2 & Hx2 & Hl2 & Hc2); [apply Hx|].
  unfold SymbolicStruct_new. cbn [type_fields]. rewrite (M_bind_ok _ _ _ _ _ He). exists (crtid s1), s2, ({[crtid s1]} ∪ G).
  split; [done|]. split; [by eapply extends_trans|]. split; [|by apply created_self with (s1 := s1)]. rewrite <- Hk.
  econstructor; [done|by apply fields_ok_perm| |by eapply created_fresh]. eapply extends_reprs; [done| |done]. intros x. by apply created_old with (s := s).
Qed.
Lemma creates_header fuel u n fs ts s :
  creates fuel -> store_ok s -> mapM (fun f => new_tree fuel f.2 u) fs = Some ts -> NoDup fs.*1 ->
  exists l s' G, SymbolicHeader_new (fun t => create_ getTypeType fuel t u) (T_Header n fs) s = oret (l, s') /\ extends s s' /\ repr (objects s') l (THeader (fresh_fields (zip fs.*1 ts)).*1 (fresh_fields (zip fs.*1 ts)).*2 (AKnown false)) G /\ created s s' G.
Proof.
  intros IH Hs Hm Hnd.
  destruct (create_fields_ok fuel u fs ts s IH Hs Hm Hnd) as (m & s1 & G & He & Hx & [Hk Hr] & Hc & Hp).
  destruct (alloc_ok (SymbolicBool Constant_ false) s1) as (s2 & He2 & Hx2 & Hl2 & Hc2); [apply Hx|].
  destruct (alloc_ok (SymbolicHeader (T_Header n fs) m (crtid s1)) s2) as (s3 & He3 & Hx3 & Hl3 & Hc3); [apply Hx2|].
  unfold SymbolicHeader_new. cbn [type_fields]. rewrite (M_bind_ok _ _ _ _ _ He), (M_bind_ok _ _ _ _ _ He2).
  exists (crtid s2), s3, ({[crtid s2]} ∪ (G ∪ {[crtid s1]})). split; [done|]. split; [eapply extends_trans; [done|]; by eapply extends_trans|]. split.
  - rewrite <- Hk. change (AKnown false) with (aval_of Constant_ false).
    econstructor; [done|rewrite (proj1 (proj2 Hx3)); [done|lia]|by apply fields_ok_perm| | | |lia].
    + eapply (extends_reprs s1); [by eapply extends_trans| |done]. intros x. by apply created_old with (s := s).
    + eapply created_fresh; [done|lia].
    + eapply created_fresh; [done|lia].
  - intros x Hin. rewrite !elem_of_union, !elem_of_singleton in Hin. destruct Hx as [Hx _].
    destruct Hin as [->|[Hin| ->]]; [lia|apply Hc in Hin; lia|lia].
Qed.
Lemma creates_stack fuel u elem size ts s :
  creates fuel -> store_ok s -> mapM (fun t => new_tree fuel t u) (replicate size elem) = Some ts -> Forall (fun t => is_theader t = true) ts ->
  exists l s' G, SymbolicArray_new (fun t => create_ getTypeType fuel t u) elem size s = oret (l, s') /\ extends s s' /\ repr (objects s') l (TArray ts) G /\ created s s' G.
Proof.
  intros IH Hs Hm Hth.
  destruct (create_list_ok fuel u id (fun _ x => x) id (fun x => o ← deref x; expect "expected a header" (is_header o)) (fun t => is_theader t = true)
    (replicate size elem) ts s IH) as (vs & s1 & G & He & Hx & Hr & Hc & _); [done| |done|done|done|].
  { intros s0 l0 t0 F1 Hr0 Ht0. destruct (objects s0 !! l0) as [o|] eqn:Ho; [|by inversion Hr0; simplify_eq].
    rewrite (M_bind_ok _ _ s0 o s0) by (by apply deref_ok). erewrite repr_header_obj in Ht0 by done. by rewrite Ht0. }
  destruct (alloc_ok (SymbolicArray elem size vs) s1) as (s2 & He2 & Hx2 & Hl2 & Hc2); [apply Hx|].
  unfold SymbolicArray_new. exists (crtid s1), s2, ({[crtid s1]} ∪ G). erewrite (M_bind_ok _ _ s); [|etrans; [|exact He]].
  - split; [done|]. split; [by eapply extends_trans|]. split; [|by apply created_self with (s1 := s1)]. rewrite list_fmap_id in Hr. econstructor; [done| | |done].
    + eapply extends_reprs; [done| |done]. intros x. by apply created_old with (s := s).
    + eapply created_fresh; [done|lia].
  - clear. revert s. change (seq 0 size) with (seq 0 size). generalize 0%nat. induction size as [|size IH]; intros i s; [done|]. cbn [seq replicate mapM_].
    unfold mbind, M_bind in *. cbn [id]. destruct (create_ getTypeType fuel elem u s) as [[x s0] ds|]; [|done]. simpl. unfold deref. destruct (objects s0 !! x) as [o|]; [|done].
    simpl. destruct (is_header o); [|done]. simpl. by rewrite IH.
Qed.
Lemma creates_tuple fuel u comps ts s :
  creates fuel -> store_ok s -> mapM (fun t => new_tree fuel t u) comps = Some ts ->
  exists l s' G, SymbolicTuple_new (fun t => create_ getTypeType fuel t u) comps s = oret (l, s') /\ extends s s' /\ repr (objects s') l (TTuple ts) G /\ created s s' G.
Proof.
  intros IH Hs Hm.
  destruct (create_list_ok fuel u id (fun _ x => x) id (fun _ => mret tt) (fun _ => True) comps ts s IH) as (vs & s1 & G & He & Hx & Hr & Hc & _);
    [done|done|done|done|by apply Forall_true|].
  destruct (alloc_ok (SymbolicTuple (T_Tuple comps) vs) s1) as (s2 & He2 & Hx2 & Hl2 & Hc2); [apply Hx|].
  unfold SymbolicTuple_new. exists (crtid s1), s2, ({[crtid s1]} ∪ G). erewrite (M_bind_ok _ _ s); [|etrans; [|exact He]].
  - split; [done|]. split; [by eapply extends_trans|]. split; [|by apply created_self with (s1 := s1)]. rewrite list_fmap_id in Hr. econstructor; [done| |].
    + eapply extends_reprs; [done| |done]. intros x. by apply created_old with (s := s).
    + eapply created_fresh; [done|lia].
  - apply mapM_ext. intros x s0. unfold mbind, M_bind. cbn [id]. destruct (create_ getTypeType fuel x u s0) as [[x' s0'] ds|]; [|done]. simpl. by rewrite ?app_nil_r.
Qed.
Lemma creates_holds fuel : creates fuel.
Proof.
  induction fuel as [|fuel IH]; intros ty u t s Hn Hs; [done|]. cbn [new_tree create_] in *.
  destruct (strip ty) as [| | |ty'|w sg| |w|n fs|n fs| |elem size|comps|n ms| | |n| | |] eqn:Hst; try done.
  - by apply IH.
  - injection Hn as <-. apply creates_leaf; [by destruct u|done].
  - injection Hn as <-. apply creates_leaf; [by destruct u|done].
  - injection Hn as <-. by apply creates_leaf.
  - destruct (mapM _ fs) as [ts|] eqn:Hm; [|done]. simpl in Hn. case_bool_decide as Hnd; [|done]. injection Hn as <-. by apply creates_struct.
  - destruct (mapM _ fs) as [ts|] eqn:Hm; [|done]. simpl in Hn. case_bool_decide as Hnd; [|done]. injection Hn as <-. by apply creates_header.
  - destruct (mapM _ (replicate size elem)) as [ts|] eqn:Hm; [|done]. simpl in Hn. case_bool_decide as Hth; [|done]. injection Hn as <-. by apply creates_stack.
  - destruct (mapM _ comps) as [ts|] eqn:Hm; [|done]. injection Hn as <-. by apply creates_tuple.
  - injection Hn as <-. apply creates_leaf; [by destruct u|done].
  - injection Hn as <-. apply creates_leaf; [by destruct u|done].
  - injection Hn as <-. apply creates_leaf; [by destruct u|done].
  - injection Hn as <-. destruct (String.eqb n "packet_in"); by apply creates_leaf.
Qed.
(** ** What is created has its type *)
Lemma fresh_fields_keys kts : NoDup kts.*1 -> (fresh_fields kts).*1 ≡ₚ kts.*1 /\ forall k t, (k, t) ∈ fresh_fields kts -> (k, t) ∈ kts.
Proof.
  intros Hnd. unfold fresh_fields. cut (forall m, NoDup (kts.*1 ++ m.*1) -> (fold_left (fun m p => oput (ord := String.ltb) p.1 p.2 m) kts m).*1 ≡ₚ kts.*1 ++ m.*1 /\
    forall k t, (k, t) ∈ fold_left (fun m p => oput (ord := String.ltb) p.1 p.2 m) kts m -> (k, t) ∈ kts ++ m).
  { intros Hgo. destruct (Hgo [] ltac:(by rewrite app_nil_r)) as [H1 H2]. rewrite app_nil_r in H1. split; [done|]. intros k t Hin. apply H2 in Hin. by rewrite app_nil_r in Hin. }
  clear Hnd. induction kts as [|[k t] kts IH]; intros m Hnd; [done|]. cbn [fold_left fst snd]. rewrite fmap_cons in *. apply NoDup_cons in Hnd as [Hn Hnd].
  assert (Hput : oput (ord := String.ltb) k t m = oinsert (ord := String.ltb) k t m) by (unfold oput; rewrite ofind_none; [done|set_solver]).
  rewrite Hput. destruct (IH (oinsert (ord := String.ltb) k t m)) as [H1 H2]; [rewrite oinsert_keys, <- Permutation_middle; by apply NoDup_cons|].
  split; [rewrite H1, oinsert_keys; by rewrite <- Permutation_middle|]. intros k' t' Hin. apply H2 in Hin. rewrite elem_of_app in *.
  destruct Hin as [Hin|Hin]; [set_solver|]. clear -Hin. induction m as [|[k1 t1] m IHm]; simpl in Hin; [set_solver|].
  destruct (@key_ltb _ String.ltb k k1); [set_solver|]. apply elem_of_cons in Hin as [Hin|Hin]; [set_solver|]. apply IHm in Hin. set_solver.
Qed.
Lemma typeds_of fuel u tys ts : (forall ty t, new_tree fuel ty u = Some t -> typed ty t) -> mapM (fun t => new_tree fuel t u) tys = Some ts -> typeds tys ts.
Proof. intros IH Hm%mapM_Some. induction Hm; eauto with typed. Qed.
Lemma fields_typed fuel u fs ts type : (forall ty t, new_tree fuel ty u = Some t -> typed ty t) -> mapM (fun f => new_tree fuel f.2 u) fs = Some ts ->
  type_fields type = fs -> NoDup fs.*1 ->
  fields_ok type (fresh_fields (zip fs.*1 ts)).*1 /\ typed_fields fs (fresh_fields (zip fs.*1 ts)).*1 (fresh_fields (zip fs.*1 ts)).*2.
Proof.
  intros IH Hm%mapM_Some <- Hnd. assert (Hlen : length (type_fields type) = length ts) by (by eapply Forall2_length).
  assert (Hz : (zip (type_fields type).*1 ts).*1 = (type_fields type).*1) by (apply fst_zip; rewrite length_fmap; lia).
  destruct (fresh_fields_keys (zip (type_fields type).*1 ts)) as [Hp Hin]; [by rewrite Hz|].
  split; [apply fields_ok_perm; [done|by rewrite Hp, Hz]|]. clear Hp Hz.
  assert (Hall : forall k t, (k, t) ∈ fresh_fields (zip (type_fields type).*1 ts) -> exists ty, (k, ty) ∈ type_fields type /\ typed ty t).
  { intros k t Hkt. apply Hin in Hkt. clear -Hkt Hm IH. induction Hm as [|[k1 ty] t1 fs ts Ht _ IHm]; simpl in Hkt; [set_solver|].
    apply elem_of_cons in Hkt as [[= -> ->]|Hkt]; [exists ty; split; [set_solver|by apply IH]|]. destruct (IHm Hkt) as (ty' & ? & ?). exists ty'. split; [set_solver|done]. }
  clear -Hall. induction (fresh_fields (zip (type_fields type).*1 ts)) as [|[k t] l IHl]; [constructor|]. rewrite !fmap_cons.
  destruct (Hall k t) as (ty & ? & ?); [set_solver|]. econstructor; [done|done|]. apply IHl. intros k' t' Hkt. apply Hall. set_solver.
Qed.
Lemma new_tree_typed fuel u : forall ty t, new_tree fuel ty u = Some t -> typed ty t.
Proof.
  induction fuel as [|fuel IH]; intros ty t Hn; [done|]. cbn [new_tree] in Hn.
  destruct (strip ty) as [| | |ty'|w sg| |w|n fs|n fs| |elem size|comps|n ms| | |n| | |] eqn:Hst; try done;
    try (injection Hn as <-; apply typed_leaf; rewrite Hst; by repeat constructor).
  - eauto with typed.
  - destruct (mapM _ fs) as [ts|] eqn:Hm; [|done]. simpl in Hn. case_bool_decide as Hnd; [|done]. injection Hn as <-.
    destruct (fields_typed fuel u fs ts (T_Struct n fs) IH Hm eq_refl Hnd). by eapply typed_struct.
  - destruct (mapM _ fs) as [ts|] eqn:Hm; [|done]. simpl in Hn. case_bool_decide as Hnd; [|done]. injection Hn as <-.
    destruct (fields_typed fuel u fs ts (T_Header n fs) IH Hm eq_refl Hnd). by eapply typed_header.
  - destruct (mapM _ (replicate size elem)) as [ts|] eqn:Hm; [|done]. simpl in Hn. case_bool_decide; [|done]. injection Hn as <-.
    eapply typed_stack; [done|by eapply typeds_of|done].
  - destruct (mapM _ comps) as [ts|] eqn:Hm; [|done]. injection Hn as <-. eapply typed_tuple; [done|by eapply typeds_of].
  - injection Hn as <-. apply typed_leaf. rewrite Hst. by destruct (String.eqb_spec n "packet_in").
Qed.

(** ** The operations keep types *)
Lemma leaf_merge_typed ty l l2 l' ch : leaf_merge l l2 = Some (l', ch) -> leaf_typed ty l -> leaf_typed ty l'.
Proof. intros Hm Ht. destruct l, l2; simpl in Hm; try case_match; simplify_eq; by destruct ty. Qed.
Lemma leaf_unknown_typed ty l l' : leaf_unknown l = Some l' -> leaf_typed ty l -> leaf_typed ty l'.
Proof. intros Hm Ht. destruct l; simplify_eq/=; by destruct ty. Qed.
Lemma leaf_assignable_typed ty l l' : leaf_assignable l l' = true -> leaf_typed ty l -> leaf_typed ty l'.
Proof. intros Hm Ht. destruct l, l'; simplify_eq/=; destruct ty; try done. by apply same_type_eq in Hm as [-> _]. Qed.

Lemma tmerge_typed_mut : (forall ty t, typed ty t -> forall t2 t' ch, tmerge t t2 = Some (t', ch) -> typed ty t') /\
  (forall fs ks ts, typed_fields fs ks ts -> forall ts2 ts' ch, tmerges ts ts2 = Some (ts', ch) -> typed_fields fs ks ts') /\
  (forall tys ts, typeds tys ts -> forall ts2 ts' ch, tmerges ts ts2 = Some (ts', ch) -> typeds tys ts').
Proof.
  apply typed_ind3.
  - intros ty u t Hst _ IH t2 t' ch Hm. eapply typed_specialized; [done|by eapply IH].
  - intros ty l Hl [l2|?|?|?|?] t' ch Hm; try discriminate. simpl in Hm. destruct (leaf_merge l l2) as [[l' b]|] eqn:E; simplify_eq/=.
    apply typed_leaf. by eapply leaf_merge_typed.
  - intros ty n fs ks ts Hst Hok _ IH [|ks2 ts2| | |] t' ch Hm; try discriminate. rewrite tmerge_struct in Hm. case_decide; [|done].
    destruct (tmerges ts ts2) as [[us b]|] eqn:E; simplify_eq/=. eapply typed_struct; [done|done|by eapply IH].
  - intros ty n fs ks ts v Hst Hok _ IH [| |ks2 ts2 v2| |] t' ch Hm; try discriminate. rewrite tmerge_header in Hm. case_decide; [|done].
    destruct (tmerges ts ts2) as [[us b]|] eqn:E; simplify_eq/=. eapply typed_header; [done|done|by eapply IH].
  - intros ty elem n ts Hst _ IH Hth [| | |ts2|] t' ch Hm; try discriminate. rewrite tmerge_array in Hm.
    destruct (tmerges ts ts2) as [[us b]|] eqn:E; simplify_eq/=. eapply typed_stack; [done|by eapply IH|by eapply tmerges_theader].
  - intros ty comps ts Hst _ IH [| | | |ts2] t' ch Hm; try discriminate. rewrite tmerge_tuple in Hm.
    destruct (tmerges ts ts2) as [[us b]|] eqn:E; simplify_eq/=. eapply typed_tuple; [done|by eapply IH].
  - intros fs [|] ts' ch Hm; simplify_eq/=. constructor.
  - intros fs k ty t ks ts Hin _ IH1 _ IH2 [|t2 ts2] ts' ch Hm; simplify_eq/=. destruct (tmerge t t2) as [[u b]|] eqn:E1; [|done].
    simpl in Hm. destruct (tmerges ts ts2) as [[us c]|] eqn:E2; simplify_eq/=. econstructor; [done|by eapply IH1|by eapply IH2].
  - intros [|] ts' ch Hm; simplify_eq/=. constructor.
  - intros ty tys t ts _ IH1 _ IH2 [|t2 ts2] ts' ch Hm; simplify_eq/=. destruct (tmerge t t2) as [[u b]|] eqn:E1; [|done].
    simpl in Hm. destruct (tmerges ts ts2) as [[us c]|] eqn:E2; simplify_eq/=. constructor; [by eapply IH1|by eapply IH2].
Qed.
Lemma tunknown_typed_mut : (forall ty t, typed ty t -> forall u, tunknown t = Some u -> typed ty u) /\
  (forall fs ks ts, typed_fields fs ks ts -> forall us, tunknowns ts = Some us -> typed_fields fs ks us) /\
  (forall tys ts, typeds tys ts -> forall us, tunknowns ts = Some us -> typeds tys us).
Proof.
  apply typed_ind3.
  - intros ty u t Hst _ IH t' Hm. eapply typed_specialized; [done|by eapply IH].
  - intros ty l Hl u Hm. simpl in Hm. destruct (leaf_unknown l) eqn:E; simplify_eq/=. apply typed_leaf. by eapply leaf_unknown_typed.
  - intros ty n fs ks ts Hst Hok _ IH u Hm. cbn [tunknown] in Hm. rewrite tunknowns_fix in Hm. destruct (tunknowns ts) as [us|]; simplify_eq/=.
    eapply typed_struct; [done|done|by apply IH].
  - intros ty n fs ks ts v Hst Hok _ IH u Hm. cbn [tunknown] in Hm. rewrite tunknowns_fix in Hm. destruct (tunknowns ts) as [us|]; simplify_eq/=.
    eapply typed_header; [done|done|by apply IH].
  - intros ty elem n ts Hst _ IH Hth u Hm. cbn [tunknown] in Hm. rewrite tunknowns_fix in Hm. destruct (tunknowns ts) as [us|] eqn:E; simplify_eq/=.
    eapply typed_stack; [done|by apply IH|by eapply tunknowns_theader].
  - intros ty comps ts Hst _ IH u Hm. cbn [tunknown] in Hm. rewrite tunknowns_fix in Hm. destruct (tunknowns ts) as [us|]; simplify_eq/=.
    eapply typed_tuple; [done|by apply IH].
  - intros fs us Hm; simplify_eq/=. constructor.
  - intros fs k ty t ks ts Hin _ IH1 _ IH2 us Hm. simpl in Hm. destruct (tunknown t) eqn:E1, (tunknowns ts) eqn:E2; simplify_eq/=.
    econstructor; [done|by apply IH1|by apply IH2].
  - intros us Hm; simplify_eq/=. constructor.
  - intros ty tys t ts _ IH1 _ IH2 us Hm. simpl in Hm. destruct (tunknown t) eqn:E1, (tunknowns ts) eqn:E2; simplify_eq/=.
    constructor; [by apply IH1|by apply IH2].
Qed.
Lemma assignable_theader t u : assignable t u = true -> is_theader t = true -> is_theader u = true.
Proof. by destruct t, u. Qed.
Lemma assignables_fix ts us : (fix go ts us := match ts, us with [], [] => true | t :: ts, u :: us => assignable t u && go ts us | _, _ => false end) ts us = assignables ts us.
Proof. revert us. induction ts as [|t ts IH]; intros [|u us]; simpl; [done..|]. by rewrite IH. Qed.
Lemma assignable_typed_mut : (forall ty t, typed ty t -> forall u, assignable t u = true -> typed ty u) /\
  (forall fs ks ts, typed_fields fs ks ts -> forall us, assignables ts us = true -> typed_fields fs ks us) /\
  (forall tys ts, typeds tys ts -> forall us, assignables ts us = true -> typeds tys us).
Proof.
  apply typed_ind3.
  - intros ty u t Hst _ IH t' Hm. eapply typed_specialized; [done|by eapply IH].
  - intros ty l Hl [l2| | | |] Hm; try discriminate. apply typed_leaf. by eapply leaf_assignable_typed.
  - intros ty n fs ks ts Hst Hok _ IH [|ks2 us| | |] Hm; try discriminate. cbn [assignable] in Hm. rewrite assignables_fix in Hm.
    apply andb_true_iff in Hm as [Hk%bool_decide_eq_true Hm]. subst. eapply typed_struct; [done|done|by apply IH].
  - intros ty n fs ks ts v Hst Hok _ IH [| |ks2 us v2| |] Hm; try discriminate. cbn [assignable] in Hm. rewrite assignables_fix in Hm.
    apply andb_true_iff in Hm as [Hk%bool_decide_eq_true Hm]. subst. eapply typed_header; [done|done|by apply IH].
  - intros ty elem n ts Hst _ IH Hth [| | |us|] Hm; try discriminate. cbn [assignable] in Hm. rewrite assignables_fix in Hm.
    eapply typed_stack; [done|by apply IH|]. clear -Hth Hm. revert us Hm. induction Hth as [|t ts Ht _ IH]; intros [|u us] Hm; simplify_eq/=; [constructor|].
    apply andb_true_iff in Hm as [H1 H2]. constructor; [by eapply assignable_theader|by apply IH].
  - intros ty comps ts Hst _ IH [| | | |us] Hm; discriminate.
  - intros fs [|] Hm; simplify_eq/=. constructor.
  - intros fs k ty t ks ts Hin _ IH1 _ IH2 [|u us] Hm; simplify_eq/=. apply andb_true_iff in Hm as [H1 H2]. econstructor; [done|by apply IH1|by apply IH2].
  - intros [|] Hm; simplify_eq/=. constructor.
  - intros ty tys t ts _ IH1 _ IH2 [|u us] Hm; simplify_eq/=. apply andb_true_iff in Hm as [H1 H2]. constructor; [by apply IH1|by apply IH2].
Qed.

(** C25. [create] makes a new object of the type it is given, with invalid headers
    and no known scalar. *)
Theorem create_typed fuel ty u t s : new_tree fuel ty u = Some t -> store_ok s ->
  exists l s' G, create_ getTypeType fuel ty u s = oret (l, s') /\ extends s s' /\ repr (objects s') l t G /\ created s s' G /\ typed ty t.
Proof.
  intros Hn Hs. destruct (creates_holds fuel ty u t s Hn Hs) as (l & s' & G & He & Hx & Hr & Hc). exists l, s', G. do 4 (split; [done|]).
  by eapply new_tree_typed.
Qed.
(** C30. Merging into a value of a type, assigning to it and forgetting it leave a
    value of the type. *)
Theorem operations_keep_types s l t F ty : store_ok s -> repr (objects s) l t F -> typed ty t ->
  (forall other u G t' ch, repr (objects s) other u G -> F ## G -> tmerge t u = Some (t', ch) ->
    exists s' v, merge l other s = oret (ch, s') /\ repr (objects s') l v F /\ typed ty v) /\
  (forall other u G, repr (objects s) other u G -> F ## G -> assignable t u = true ->
    exists s' v, assign l other s = oret (tt, s') /\ repr (objects s') l v F /\ typed ty v) /\
  (forall u, tunknown t = Some u -> exists s' v, setAllUnknown l s = oret (tt, s') /\ repr (objects s') l v F /\ typed ty v).
Proof.
  intros Hs Hr Ht. split; [|split].
  - intros other u G t' ch Hr2 Hd Hm. destruct (merges_with_merge t l u other F G s t' ch) as (s' & He & _ & Hr'); [done..|].
    exists s', t'. split; [done|]. split; [done|]. by eapply (proj1 tmerge_typed_mut).
  - intros other u G Hr2 Hd Ha. destruct (assign_spec_holds (Z.to_nat (crtid s)) t l u other F G s) as (s' & He & _ & Hr'); [done..|by eapply repr_fuel|done|].
    exists s', u. split; [done|]. split; [done|]. by eapply (proj1 assignable_typed_mut).
  - intros u Hu. destruct (unknown_spec_holds (Z.to_nat (crtid s)) t l F s u) as (s' & He & _ & Hr'); [done|by eapply repr_fuel|done|].
    exists s', u. split; [done|]. split; [done|]. by eapply (proj1 tunknown_typed_mut).
Qed.
End typing.

(** A stack of two headers is created. *)
Definition fresh_header : tree := THeader ["x"] [TLeaf (LInt byte_ AUninit)] (AKnown false).
Lemma create_typed_witness : exists l s' G, create_ id 3 (T_Stack one_field 2) true empty_store = oret (l, s') /\
  repr (objects s') l (TArray [fresh_header; fresh_header]) G /\ typed id (T_Stack one_field 2) (TArray [fresh_header; fresh_header]).
Proof.
  destruct (create_typed id 3 (T_Stack one_field 2) true (TArray [fresh_header; fresh_header]) empty_store) as (l & s' & G & He & _ & Hr & _ & Ht);
    [vm_compute; reflexivity|by split|]. exists l, s', G. split; [exact He|]. split; [exact Hr|exact Ht].
Defined.
Lemma operations_keep_types_witness : exists s' v F, merge 3%Z 6%Z small_store = oret (true, s') /\ repr (objects s') 3%Z v F /\ typed id one_field v.
Proof.
  assert (Ht : typed id one_field header_7).
  { eapply typed_header; [reflexivity| |].
    - split; [apply NoDup_singleton|done].
    - econstructor; [apply list_elem_of_here|by apply typed_leaf|constructor]. }
  destruct (operations_keep_types id small_store 3%Z header_7 _ one_field small_store_ok small_store_3 Ht) as (Hm & _ & _).
  destruct (Hm 6%Z header_none _ _ _ small_store_6 ltac:(set_solver) eq_refl) as (s' & v & He & Hr & Hv). by eexists s', v, _.
Defined.
