(* ===== verification/SymEval.v ===== *)
(** * Symbolic evaluation of expressions: [midend/interpreter.cpp]

    [ExpressionEvaluator] visits an expression from the leaves up and records
    the symbolic value of every node, by address; the first value recorded for
    a node stays.  Here a visit answers the value of the node: the null
    pointer where no method records one.  What [refMap] and
    [MethodInstance::resolve] find is part of the node, what [typeMap] answers
    is a parameter. *)
From S2P Require Import Prelude Gmp Ir ConstantFolding SymValue.
Local Open Scope Z_scope.
Local Open Scope flexplan_scope.

(** ** Expressions *)
(** The nodes with a method of their own.  The declaration of a path is a
    constant, with its initializer, an enum, or something else. *)
Inductive Node :=
| NConstant (c : IRConstant)
| NBoolLiteral (b : bool)
| NBinary (op : binop) (type : Type_) (left right : Node)
| NUnary (op : unop) (type : Type_) (expr : Node)
| NCast (destType : Type_) (expr : Node)
| NSlice (hi lo : Z) (e0 : Node)
| NMux (type : Type_) (e0 e1 e2 : Node)
| NListExpression (components : list Node)
| NPath (name : string) (decl : PathDecl)
| NTypeName (name : string) (enum : option SymType)
| NMember (expr : Node) (member : string)
| NArrayIndex (left right : Node)
| NMethodCall (mi : MethodInstance) (arguments : list Node)
| NOther (type : Type_)
with PathDecl :=
| PConstant (initializer : Node)
| PEnum (type : SymType)
| PVariable
with MethodInstance :=
| BuiltInMethod (name : string) (appliedTo : Node)
| ExternMethod (externType method object : string) (directions : list Direction) (returnType : option SymType)
| OtherMethod (directions : list Direction) (returnType : option SymType).

Section evaluator.
Context `{Mpz}.
(** The constant folder, made anew with the reference and the type map, the
    types of expressions, the types of types, and the variables. *)
Context (cf : DoConstantFolding) (nodeType : Node -> SymType) (getTypeType : SymType -> SymType) (valueMap : ValueMap).
(** Bounds the nesting of types. *)
Context (typeFuel : nat).

Definition create (type : SymType) (uninitialized : bool) : M loc := create_ getTypeType typeFuel type uninitialized.
Definition get_type {A} (o : option A) : M A := match o with Some a => mret a | None => fail_ "fuel" end.

(** ** The methods *)
(** [get]: [BUG_CHECK(r != nullptr)]; a null value is recorded as well. *)
Definition get (r : loc) : M SymbolicValue := if (r =? null) then fail_ "no evaluation" else deref r.
Definition static_error (msg : string) : M loc := alloc (SymbolicStaticError msg).
Definition known_int (c : IRConstant) : M loc := alloc (SymbolicInteger (ctype c) Constant_ (Some c)).
Definition known_bool (b : bool) : M loc := alloc (SymbolicBool Constant_ b).
Definition unknown_bool : M loc := alloc (SymbolicBool NotConstant false).
Definition const_expr (c : IRConstant) : Expression := Constant (ctype c) (cvalue c) (cbase c).
(** The constant of a [SymbolicInteger], dereferenced. *)
Definition constant_of (c : option IRConstant) : M IRConstant := match c with Some k => mret k | None => fail_ "null pointer" end.

(** [clone->apply(cf)] and the check of the class of the result. *)
Definition fold_to_constant (e : Expression) : M loc :=
  r ← lift (apply_ cf e);
  match r with Constant t v b => known_int {| ctype := t; cvalue := v; cbase := b |} | _ => fail_ "expected a constant" end.
Definition fold_to_bool (e : Expression) : M loc :=
  r ← lift (apply_ cf e);
  match r with BoolLiteral b => known_bool b | _ => fail_ "expected a boolean" end.
(** [type->to<IR::Type_Bits>()]: the null pointer is [Type_Unknown]. *)
Definition to_Type_Bits (t : SymType) : Type_ := match t with T_Bits w s => Type_Bits w s | _ => Type_Unknown end.

Definition postorder_Binary (node : Node) (op : binop) (type : Type_) (left right : loc) : M loc :=
  l ← get left;
  if is_SymbolicError l then mret left
  else
    r ← get right;
    if is_SymbolicError r then mret left
    else
      match l, r with
      | SymbolicBool st b, SymbolicBool st' b' =>
          if bool_decide (st = Uninitialized) then static_error "Uninitialized"
          else if bool_decide (st' = Uninitialized) then static_error "Uninitialized"
          else if bool_decide (st = Constant_) && bool_decide (st' = Constant_)
          then fold_to_bool (Operation_Binary op type (BoolLiteral b) (BoolLiteral b'))
          else unknown_bool
      | SymbolicInteger _ st c, SymbolicInteger _ st' c' =>
          if bool_decide (st = Uninitialized) then static_error "Uninitialized"
          else if bool_decide (st' = Uninitialized) then static_error "Uninitialized"
          else if bool_decide (st = Constant_) && bool_decide (st' = Constant_)
          then k ← constant_of c; k' ← constant_of c'; fold_to_constant (Operation_Binary op type (const_expr k) (const_expr k'))
          else alloc (SymbolicInteger (to_Type_Bits (nodeType node)) NotConstant None)
      | _, _ => fail_ "different types"
      end.

(** [e] is the node with [expr] replaced by a literal. *)
Definition postorder_Unary (e : Expression -> Expression) (expr : loc) : M loc :=
  l ← get expr;
  if is_SymbolicError l then mret expr
  else
    match scalar_state l with
    | None => fail_ "expected a scalar"
    | Some st =>
        if bool_decide (st = Uninitialized) then static_error "Uninitialized"
        else if bool_decide (st = NotConstant) then mret expr
        else
          match l with
          | SymbolicInteger _ _ c => k ← constant_of c; fold_to_constant (e (const_expr k))
          | SymbolicBool _ b => fold_to_bool (e (BoolLiteral b))
          | _ => fail_ "unexpected type"
          end
    end.

Definition postorder_Relation (op : binop) (type : Type_) (left right : loc) : M loc :=
  l ← get left;
  if is_SymbolicError l then mret left
  else
    r ← get right;
    if is_SymbolicError r then mret left
    else
      match scalar_state l, scalar_state r with
      | Some st, Some st' =>
          if bool_decide (st = Uninitialized) then static_error "Uninitialized"
          else if bool_decide (st' = Uninitialized) then static_error "Uninitialized"
          else if bool_decide (st = NotConstant) then unknown_bool
          else if bool_decide (st' = NotConstant) then unknown_bool
          else
            match l, r with
            | SymbolicInteger _ _ c, SymbolicInteger _ _ c' =>
                k ← constant_of c; k' ← constant_of c'; fold_to_bool (Operation_Binary op type (const_expr k) (const_expr k'))
            | SymbolicBool _ b, SymbolicBool _ b' => fold_to_bool (Operation_Binary op type (BoolLiteral b) (BoolLiteral b'))
            | SymbolicEnum _ _ _, SymbolicEnum _ _ _ =>
                match op with Equ => b ← equals left right; known_bool b | _ => fail_ "can't handle this relation" end
            | SymbolicInteger _ _ _, _ | SymbolicBool _ _, _ | SymbolicEnum _ _ _, _ => fail_ "null pointer"
            | _, _ => fail_ "unexpected type"
            end
      | _, _ => fail_ "expected a scalar"
      end.

(** [postorder(LOr* )], [postorder(LAnd* )]: the operators of [SymbolicBool]
    answer a copy of an operand or an unknown value. *)
Definition postorder_LOp (op : ValueState * bool -> ValueState * bool -> ValueState * bool) (left right : loc) : M loc :=
  l ← get left;
  r ← get right;
  match l, r with
  | SymbolicBool st b, SymbolicBool st' b' => let '(st, b) := op (st, b) (st', b') in alloc (SymbolicBool st b)
  | _, _ => fail_ "null pointer"
  end.

Definition postorder_Mux (type : SymType) (e0 e1 e2 : loc) : M loc :=
  c ← get e0;
  match c with
  | SymbolicBool st b =>
      get e1;; get e2;;
      if bool_decide (st = Constant_) then mret (if b : bool then e1 else e2) else create type false
  | _ => fail_ "null pointer"
  end.

(** What [preorder(Cast* )] records: a constant, or an unknown value of the
    type; [postorder(Operation_Unary* )] comes after it and records nothing,
    but checks and folds. *)
Definition visit_Cast (node : Node) (destType : Type_) (expr : loc) : M loc :=
  v ← get expr;
  first ← match v with
          | SymbolicBool Constant_ b =>
              match nodeType node with
              | T_Bits w s =>
                  v ← lift (handleOverflow (Type_Bits w s) (b2z b) false);
                  known_int {| ctype := Type_Bits w s; cvalue := v; cbase := 10 |}
              | _ => fail_ "expecting bit<1>"
              end
          | SymbolicInteger _ Constant_ c =>
              k ← constant_of c;
              match nodeType node with
              | T_Bits w s =>
                  v ← lift (handleOverflow (Type_Bits w s) (cvalue k) false);
                  known_int {| ctype := Type_Bits w s; cvalue := v; cbase := 10 |}
              | _ => fail_ "Unexpected type for constant"
              end
          | _ => mret null
          end;
  second ← create (nodeType node) false;
  postorder_Unary (Cast destType) expr;;
  mret (if first =? null then second else first).

Definition visit_Slice (hi lo : Z) (e0 : loc) : M loc :=
  res ← get e0;
  if is_SymbolicError res then mret e0
  else
    match res with
    | SymbolicInteger _ st _ =>
        val ← create (T_Bits (hi - lo + 1) false) (bool_decide (st = Uninitialized));
        setAllUnknown val;;
        mret val
    | _ => fail_ "it must be a scalar"
    end.

(** [SymbolicArray::get(node, size_t)] with an [int] index. *)
Definition array_get (l : loc) (index : Z) : M loc :=
  values ← get_values l;
  if (index <? 0) then static_error "Out of bounds" else get_element values (Z.to_nat index).
Definition new_AnyElement (array : loc) : M loc :=
  t ← get_elemType array; b ← alloc (SymbolicBool Uninitialized false); alloc (AnyElement t b array).

Definition visit_ArrayIndex (evaluatingLeftValue : bool) (left right : loc) : M loc :=
  l ← get left;
  r ← get right;
  match scalar_state r, l with
  | Some st, SymbolicArray _ _ _ =>
      if bool_decide (st = Uninitialized) then static_error "Uninitialized"
      else if bool_decide (st = NotConstant) then
        v0 ← new_AnyElement left;
        if evaluatingLeftValue then mret v0 else collapse left
      else
        match r with
        | SymbolicInteger _ _ c => k ← constant_of c; i ← lift (asInt (cvalue k)); array_get left i
        | _ => fail_ "null pointer"
        end
  | _, _ => fail_ "null pointer"
  end.

(** [SymbolicStruct::get], [SymbolicHeader::get] *)
Definition struct_get (v : SymbolicValue) (member : string) : M loc :=
  match struct_fields v with Some fs => field_of fs member | None => fail_ "expected a struct" end.

Definition postorder_Member (node expr : Node) (member : string) (base : loc) : M loc :=
  let type := nodeType node in
  let enum_of :=
    match type with
    | T_Enum _ _ => match expr with NPath _ (PEnum t) | NTypeName _ (Some t) => Some t | _ => None end
    | T_Error => match expr with NTypeName _ _ => Some T_Error | _ => None end
    | _ => None
    end in
  match type with
  | T_MethodBase => alloc SymbolicVoid
  | _ =>
      match enum_of with
      | Some (T_Enum n members) =>
          if existsb (String.eqb member) members then alloc (SymbolicEnum (T_Enum n members) Constant_ member) else fail_ "null pointer"
      | Some t => alloc (SymbolicEnum t Constant_ member)
      | None =>
          l ← get base;
          if is_SymbolicError l then mret base
          else
            match nodeType expr with
            | T_Stack _ _ =>
                match l with
                | SymbolicArray _ _ _ =>
                    if String.eqb member "next" then next base
                    else if String.eqb member "last" then last_ base
                    else fail_ "unexpected expression"
                | _ => fail_ "expected an array"
                end
            | T_Type inner =>
                match inner with
                | T_Enum _ _ | T_Error =>
                    symenum ← create inner false;
                    v ← alloc (SymbolicEnum inner Constant_ member);
                    assign symenum v;;
                    mret symenum
                | _ => mret null
                end
            | _ => struct_get l member
            end
      end
  end.
(** ** Method calls *)
Definition is_extract (externType method : string) : bool := String.eqb externType "packet_in" && String.eqb method "extract".

Definition call_BuiltIn (name : string) (base : loc) (arguments : list loc) : M loc :=
  b ← get base;
  if String.eqb name "setInvalid" || String.eqb name "setValid" then
    expect "expected a header" (is_header b);;
    setValid base (String.eqb name "setValid");;
    alloc SymbolicVoid
  else if String.eqb name "push_front" || String.eqb name "pop_front" then
    match b, arguments with
    | SymbolicArray _ _ _, [amount] =>
        a ← get amount;
        match a with
        | SymbolicInteger _ st c =>
            if bool_decide (st = NotConstant) then setAllUnknown base;; mret null
            else
              k ← constant_of c;
              amt ← lift (asInt (cvalue k));
              shift base (if String.eqb name "pop_front" then - amt else amt);;
              alloc SymbolicVoid
        | _ => fail_ "expected an integer"
        end
    | _, _ => fail_ "expected an array"
    end
  else if String.eqb name "isValid" then
    match header_parts b with Some (_, valid) => mret valid | None => fail_ "expected a header" end
  else fail_ "unexpected method".

(** [pkt->advance(width)], [setConservative] *)
Definition advance_packet (pkt : loc) (width : Z) (fixed : bool) : M unit :=
  o ← get pkt;
  match o with
  | SymbolicPacketIn offset conservative => update pkt (SymbolicPacketIn (wrapu 32 (offset + width)) (conservative || negb fixed))
  | _ => fail_ "expected a packetIn"
  end.

Definition is_T_Header (t : SymType) : bool := match t with T_Header _ _ => true | _ => false end.
(** [packet_in.extract] *)
Definition call_extract (object : string) (arguments : list (Node * loc)) : M loc :=
  match arguments with
  | [] => fail_ "null pointer"
  | (arg0, hdr) :: rest =>
      let argType := nodeType arg0 in
      get hdr;;
      fixed ← get_type (isFixedWidth_ getTypeType typeFuel argType);
      width ← get_type (getWidth_ getTypeType typeFuel argType);
      plan ← match rest with
             | [] => mret (if negb fixed || negb (is_T_Header argType) then inl "Expected a fixed-size header as argument" else inr width)
             | [(_, size)] =>
                 if fixed || negb (is_T_Header argType) then mret (inl "Expected a variable-size header as argument")
                 else
                   sz ← get size;
                   match sz with
                   | SymbolicInteger _ Constant_ c => k ← constant_of c; i ← lift (asInt (cvalue k)); mret (inr (wrapu 32 i))
                   | _ => mret (inr width)
                   end
             | _ => fail_ "expected 2 arguments"
             end;
      match plan with
      | inl msg => static_error msg
      | inr width =>
          match map_get valueMap object with
          | None => fail_ "null pointer"
          | Some pkt =>
              o ← deref pkt;
              if is_SymbolicError o then mret pkt
              else
                advance_packet pkt width fixed;;
                h ← get hdr;
                match header_parts h with
                | None => fail_ "Not a header?"
                | Some (_, valid) =>
                    v ← deref valid;
                    match v with
                    | SymbolicBool st value =>
                        if bool_decide (st = Constant_) && value then alloc (SymbolicException OverwritingHeader)
                        else setAllUnknown hdr;; setValid hdr true;; alloc SymbolicVoid
                    | _ => fail_ "null pointer"
                    end
                end
          end
      end
  end.

(** Any other method: what it can write becomes unknown. *)
Definition is_out (d : Direction) : bool := match d with DirOut | DirInOut => true | _ => false end.
Definition call_unknown (directions : list Direction) (returnType : option SymType) (arguments : list loc) : M loc :=
  iterM (fun p => if is_out p.1 then get p.2;; setAllUnknown p.2 else mret tt) (zip directions arguments);;
  match returnType with
  | None | Some T_Void => alloc SymbolicVoid
  | Some t => create t false
  end.

(** The first argument whose value is an error. *)
Fixpoint first_error (arguments : list loc) : M (option loc) :=
  match arguments with
  | [] => mret None
  | a :: rest => v ← get a; if is_SymbolicError v then mret (Some a) else first_error rest
  end.

(** ** The visit *)
Fixpoint visit (evaluatingLeftValue : bool) (node : Node) : M loc :=
  let visits := fix visits (nodes : list Node) : M (list loc) :=
    match nodes with
    | [] => mret []
    | n :: nodes => l ← visit evaluatingLeftValue n; ls ← visits nodes; mret (l :: ls)
    end in
  match node with
  | NConstant c => known_int c
  | NBoolLiteral b => known_bool b
  | NBinary op type lefte righte =>
      l ← visit evaluatingLeftValue lefte;
      r ← visit evaluatingLeftValue righte;
      match op with
      | LOr => postorder_LOp bool_or l r
      | LAnd => postorder_LOp bool_and l r
      | _ => if is_relation op then postorder_Relation op type l r else postorder_Binary node op type l r
      end
  | NUnary op type expr => l ← visit evaluatingLeftValue expr; postorder_Unary (Operation_Unary op type) l
  | NCast destType expr => l ← visit evaluatingLeftValue expr; visit_Cast node destType l
  | NSlice hi lo e0 => l ← visit evaluatingLeftValue e0; visit_Slice hi lo l
  | NMux _ e0 e1 e2 =>
      l0 ← visit evaluatingLeftValue e0;
      l1 ← visit evaluatingLeftValue e1;
      l2 ← visit evaluatingLeftValue e2;
      postorder_Mux (nodeType node) l0 l1 l2
  | NListExpression components =>
      ls ← visits components;
      iterM (fun l => get l;; mret tt) ls;;
      alloc (SymbolicTuple (nodeType node) ls)
  | NPath name decl =>
      match decl with
      | PConstant initializer =>
          match nodeType node, initializer with
          | T_Boolean, NBoolLiteral b => known_bool b
          | T_Boolean, _ => fail_ "null pointer"
          | _, _ => l ← visit evaluatingLeftValue initializer; get l;; mret l
          end
      | _ =>
          match nodeType node with
          | T_Type (T_Error | T_Enum _ _) | T_Error | T_Enum _ _ => alloc (SymbolicEnum (nodeType node) Constant_ name)
          | T_Type _ => fail_ "can't handle tt"
          | _ => mret (default null (map_get valueMap name))
          end
      end
  | NTypeName _ _ | NOther _ => mret null
  | NMember expr member => l ← visit evaluatingLeftValue expr; postorder_Member node expr member l
  | NArrayIndex lefte righte =>
      l ← visit false lefte;
      r ← visit evaluatingLeftValue righte;
      visit_ArrayIndex evaluatingLeftValue l r
  | NMethodCall mi arguments =>
      base ← match mi with BuiltInMethod _ appliedTo => visit evaluatingLeftValue appliedTo | _ => mret null end;
      ls ← visits arguments;
      err ← first_error ls;
      match err with
      | Some e => mret e
      | None =>
          match mi with
          | BuiltInMethod name _ => call_BuiltIn name base ls
          | ExternMethod externType method object directions returnType =>
              if is_extract externType method then call_extract object (zip arguments ls) else call_unknown directions returnType ls
          | OtherMethod directions returnType => call_unknown directions returnType ls
          end
      end
  end.
Definition evaluate (node : Node) (leftValue : bool) : M loc :=
  l ← visit leftValue node; get l;; mret l.
End evaluator.
