(* ===== verification/SymEvalFacts.v ===== *)
(** * Symbolic evaluation is sound

    On the expressions that have a meaning in [Ir.v] and whose variables have
    been initialised, [ExpressionEvaluator] answers a value that covers the
    meaning: unknown, or the very constant. *)
From S2P Require Import Prelude Gmp Ir Refinement ConstantFolding ConstantFoldingFacts SymValue SymTree SymRefine SymEval.
Local Open Scope Z_scope.
Local Open Scope flexplan_scope.

(** ** Running the monad backwards *)
Lemma bind_Done {A B} (m : M A) (k : A -> M B) s b s' ds : (m ≫= k) s = Done (b, s') ds ->
  exists a s1 ds1 ds2, m s = Done (a, s1) ds1 /\ k a s1 = Done (b, s') ds2 /\ ds = ds1 ++ ds2.
Proof.
  intros Hb. unfold mbind, M_bind in Hb. apply obind_Done in Hb as ([a s1] & ds1 & ds2 & H1 & H2 & ->). by exists a, s1, ds1, ds2.
Qed.
Ltac mdo H :=
  let a := fresh "a" in let s1 := fresh "s" in let ds1 := fresh "ds" in let ds2 := fresh "ds" in
  let H1 := fresh "Hm" in let Hds := fresh "Hds" in
  apply bind_Done in H as (a & s1 & ds1 & ds2 & H1 & H & Hds).
Lemma mret_Done {A} (a b : A) s s' ds : (mret a : M A) s = Done (b, s') ds -> a = b /\ s' = s /\ ds = [].
Proof. by intros [= -> -> <-]. Qed.
Lemma lift_Done {A} (o : outcome A) s a s' ds : lift o s = Done (a, s') ds -> o = Done a ds /\ s' = s.
Proof. unfold lift. intros Hl. odo Hl. apply oret_Done in Hl as [[= -> ->] ->]. by rewrite app_nil_r in Hds; subst. Qed.
Lemma get_Done r s v s' ds : get r s = Done (v, s') ds -> r <> null /\ objects s !! r = Some v /\ s' = s /\ ds = [].
Proof.
  unfold get. destruct (Z.eqb_spec r null) as [|Hr]; [done|]. unfold deref. destruct (objects s !! r) as [w|] eqn:E; [|done].
  intros Hg. apply oret_Done in Hg as [[= -> ->] ->]. done.
Qed.
Lemma get_ok r s v : r <> null -> objects s !! r = Some v -> get r s = oret (v, s).
Proof. intros Hr Hv. unfold get. rewrite (proj2 (Z.eqb_neq _ _) Hr). by apply deref_ok. Qed.
Lemma alloc_Done v s l s' ds : store_ok s -> alloc v s = Done (l, s') ds -> extends s s' /\ objects s' !! l = Some v /\ (0 < l)%Z /\ ds = [].
Proof.
  intros Hs Ha. destruct (alloc_ok v s Hs) as (s1 & He & Hx & Hl & _). rewrite He in Ha. apply oret_Done in Ha as [[= <- <-] <-].
  split; [done|]. split; [done|]. split; [exact (proj1 Hs)|done].
Qed.

(** ** The expressions with a meaning *)
Fixpoint expr_of (n : Node) : option Expression :=
  match n with
  | NConstant c => Some (const_expr c)
  | NBoolLiteral b => Some (BoolLiteral b)
  | NBinary op t l r => l ← expr_of l; r ← expr_of r; Some (Operation_Binary op t l r)
  | NUnary op t x => x ← expr_of x; Some (Operation_Unary op t x)
  | NCast t x => x ← expr_of x; Some (Cast t x)
  | NSlice hi lo x => x ← expr_of x; Some (Slice Type_Unknown x (intConstant hi) (intConstant lo))
  | NMux t x y z => x ← expr_of x; y ← expr_of y; z ← expr_of z; Some (Mux t x y z)
  | NPath name PVariable => Some (PathExpression Type_Unknown name)
  | NPath _ (PConstant initializer) => expr_of initializer
  | _ => None
  end.

(** Induction on these expressions. *)
Section fragment_induction.
Context (P : Node -> Prop).
Hypothesis (Hconst : forall c, P (NConstant c)) (Hlit : forall b, P (NBoolLiteral b))
  (Hbin : forall op t l r, P l -> P r -> P (NBinary op t l r)) (Hun : forall op t x, P x -> P (NUnary op t x))
  (Hcast : forall t x, P x -> P (NCast t x)) (Hslice : forall hi lo x, P x -> P (NSlice hi lo x))
  (Hmux : forall t x y z, P x -> P y -> P z -> P (NMux t x y z))
  (Hvar : forall name, P (NPath name PVariable)) (Hconstant : forall name i, P i -> P (NPath name (PConstant i))).
Lemma fragment_ind : forall n e, expr_of n = Some e -> P n.
Proof using All.
  fix IH 1. intros [c|b|op t l r|op t x|t x|hi lo x|t x y z|cs|name [i|ty|]|name ty|x m|l r|mi args|t] e He; try discriminate; cbn [expr_of] in He.
  - apply Hconst.
  - apply Hlit.
  - destruct (expr_of l) eqn:El; [|done]. destruct (expr_of r) eqn:Er; [|done]. apply Hbin; by eapply IH.
  - destruct (expr_of x) eqn:Ex; [|done]. apply Hun; by eapply IH.
  - destruct (expr_of x) eqn:Ex; [|done]. apply Hcast; by eapply IH.
  - destruct (expr_of x) eqn:Ex; [|done]. apply Hslice; by eapply IH.
  - destruct (expr_of x) eqn:Ex; [|done]. destruct (expr_of y) eqn:Ey; [|done]. destruct (expr_of z) eqn:Ez; [|done]. apply Hmux; by eapply IH.
  - apply Hconstant. by eapply IH.
  - apply Hvar.
Qed.
End fragment_induction.

(** ** Computations that only create objects *)
Definition grows {A} (m : M A) : Prop := forall s a s' ds, store_ok s -> m s = Done (a, s') ds -> extends s s'.
Lemma grows_ret {A} (a : A) : grows (mret a).
Proof. intros s b s' ds Hs Hm. apply mret_Done in Hm as (_ & -> & _). by apply extends_refl. Qed.
Lemma grows_fail {A} w : grows (@fail_ A w).
Proof. by intros s b s' ds Hs. Qed.
Lemma grows_lift {A} (o : outcome A) : grows (lift o).
Proof. intros s b s' ds Hs Hm. apply lift_Done in Hm as [_ ->]. by apply extends_refl. Qed.
Lemma grows_deref l : grows (deref l).
Proof. intros s b s' ds Hs Hm. unfold deref in Hm. destruct (objects s !! l); [|done]. apply oret_Done in Hm as [[= _ <-] _]. by apply extends_refl. Qed.
Lemma grows_get l : grows (get l).
Proof. intros s b s' ds Hs Hm. apply get_Done in Hm as (_ & _ & -> & _). by apply extends_refl. Qed.
Lemma grows_alloc v : grows (alloc v).
Proof. intros s b s' ds Hs Hm. by apply alloc_Done in Hm as [? _]. Qed.
Lemma grows_bind {A B} (m : M A) (k : A -> M B) : grows m -> (forall a, grows (k a)) -> grows (m ≫= k).
Proof.
  intros Hm Hk s b s' ds Hs Hb. mdo Hb. pose proof (Hm _ _ _ _ Hs Hm0) as Hx. eapply extends_trans; [exact Hx|]. eapply Hk; [apply Hx|done].
Qed.
Lemma grows_mapM {A B} (f : A -> M B) l : (forall a, grows (f a)) -> grows (mapM_ f l).
Proof. intros Hf. induction l as [|a l IH]; [apply grows_ret|]. apply grows_bind; [apply Hf|]. intros b. apply grows_bind; [done|]. intros bs. apply grows_ret. Qed.
#[export] Hint Resolve grows_ret grows_fail grows_lift grows_deref grows_get grows_alloc grows_bind grows_mapM : grows.
(** Follows the program. *)
Ltac grow := repeat (eauto with grows; match goal with
  | |- grows (_ ≫= _) => apply grows_bind; [|intros ?]
  | |- grows (mapM_ _ _) => apply grows_mapM; intros ?
  | |- grows (match ?x with _ => _ end) => destruct x
  end).

(** A symbolic value covers a value: it is unknown, or known to be that. *)
Definition covers (v : SymbolicValue) (x : value) : Prop :=
  match v, x with
  | SymbolicBool st b, VBool c => st = NotConstant \/ st = Constant_ /\ b = c
  | SymbolicInteger _ st c, VInt t z => st = NotConstant \/ st = Constant_ /\ exists k, c = Some k /\ ctype k = t /\ cvalue k = z
  | _, _ => False
  end.

Section soundness.
Context `{MpzLaws} (cf : DoConstantFolding) (nodeType : Node -> SymType) (getTypeType : SymType -> SymType) (valueMap : ValueMap) (typeFuel : nat).
Context (env : string -> option value).
(** The folder is sound, and sized types and [bool] stand for themselves. *)
Hypothesis (Htm : typeMap_sound cf env) (Hrm : refMap_sound cf env).
Hypothesis (Hbits : forall w s, getTypeType (T_Bits w s) = T_Bits w s) (Hbool : getTypeType T_Boolean = T_Boolean).
Notation visit := (visit cf nodeType getTypeType valueMap typeFuel).
Notation create := (create getTypeType typeFuel).

Definition type_covers (t : SymType) (x : value) : Prop :=
  match x with VBool _ => t = T_Boolean | VInt (Type_Bits w s) _ => t = T_Bits w s | _ => False end.
(** The type map answers the type of a value for the nodes whose type counts. *)
Fixpoint typed (n : Node) : Prop :=
  match n with
  | NBinary _ _ l r => typed l /\ typed r
  | NUnary _ _ x | NSlice _ _ x => typed x
  | NCast _ x => typed x /\ forall e v, expr_of n = Some e -> eval env e = Some v -> type_covers (nodeType n) v
  | NMux _ x y z => typed x /\ typed y /\ typed z /\ forall e v, expr_of n = Some e -> eval env e = Some v -> type_covers (nodeType n) v
  | NPath name PVariable => forall v, env name = Some v -> type_covers (nodeType n) v
  | NPath _ (PConstant i) => typed i
  | _ => True
  end.
(** Every variable has a value that covers its meaning. *)
Definition covered (s : Store) : Prop := forall name x, env name = Some x -> exists l v, map_get valueMap name = Some l /\ objects s !! l = Some v /\ covers v x.
Definition result_ok (s : Store) (l : loc) (x : value) : Prop := l <> null /\ exists v, objects s !! l = Some v /\ covers v x.

Lemma covered_extends s s' : store_ok s -> covered s -> extends s s' -> covered s'.
Proof.
  intros Hs Hc (_ & Hx & _) name x Hn. destruct (Hc name x Hn) as (l & v & Hl & Hv & Hcv). exists l, v. split; [done|]. split; [|done].
  rewrite Hx; [done|]. apply Hs. by apply elem_of_dom_2 in Hv.
Qed.
Lemma result_extends s s' l x : store_ok s -> result_ok s l x -> extends s s' -> result_ok s' l x.
Proof.
  intros Hs (Hn & v & Hv & Hc) (_ & Hx & _). split; [done|]. exists v. split; [|done]. rewrite Hx; [done|]. apply Hs. by apply elem_of_dom_2 in Hv.
Qed.
Lemma alloc_covers v x s l s' ds : store_ok s -> alloc v s = Done (l, s') ds -> covers v x -> extends s s' /\ result_ok s' l x.
Proof. intros Hs Ha Hc. apply alloc_Done in Ha as (Hx & Hl & Hp & _); [|done]. split; [done|]. split; [unfold null; lia|]. by exists v. Qed.

Lemma create_grows type uninit : grows (create type uninit).
Proof using.
  unfold SymEval.create. revert type. induction typeFuel as [|n IH]; intros type; cbn [create_]; [apply grows_fail|].
  destruct (strip_type getTypeType type); unfold SymbolicStruct_new, SymbolicHeader_new, SymbolicArray_new, SymbolicTuple_new, create_fields, expect; grow.
Qed.
Lemma postorder_Unary_grows e l : grows (postorder_Unary cf e l).
Proof using. unfold postorder_Unary, fold_to_constant, fold_to_bool, constant_of, known_int, known_bool, static_error. grow. Qed.
(** An unknown value of a scalar type. *)
Lemma create_bits w sg s l s' ds : store_ok s -> create (T_Bits w sg) false s = Done (l, s') ds ->
  extends s s' /\ l <> null /\ exists t, objects s' !! l = Some (SymbolicInteger t NotConstant None).
Proof.
  intros Hs Hc. unfold SymEval.create in Hc. destruct typeFuel as [|n]; [done|]. cbn [create_] in Hc. unfold strip_type in Hc. rewrite !Hbits in Hc.
  apply alloc_Done in Hc as (Hx & Hl & Hp & _); [|done]. split; [done|]. split; [unfold null; lia|]. by eexists.
Qed.
(** The value of a slice is unknown. *)
Lemma slice_value w sg u s l s' ds : store_ok s -> (val ← create (T_Bits w sg) u; setAllUnknown val;; mret val) s = Done (l, s') ds ->
  extends s s' /\ l <> null /\ exists t, objects s' !! l = Some (SymbolicInteger t NotConstant None).
Proof using Hbits.
  intros Hs Hc. pose proof Hs as [Hp Hd]. mdo Hc. unfold SymEval.create in Hm. destruct typeFuel as [|n]; [done|]. cbn [create_] in Hm. unfold strip_type in Hm. rewrite !Hbits in Hm.
  apply oret_Done in Hm as [[= <- <-] _]. mdo Hc. unfold setAllUnknown, fueled in Hm. cbn [crtid] in Hm.
  assert (exists k, Z.to_nat (crtid s + 1) = S k) as [k Hk] by (exists (Z.to_nat (crtid s)); lia). rewrite Hk in Hm. cbn [setAllUnknown_] in Hm.
  rewrite (M_bind_ok _ _ _ (SymbolicInteger (Type_Bits w sg) (init u) None) _) in Hm by (by apply deref_ok, lookup_insert_eq).
  apply oret_Done in Hm as [[= <- <-] _]. apply mret_Done in Hc as (<- & -> & _). cbn [objects crtid].
  split; [|split; [unfold null; lia|exists (Type_Bits w sg); apply lookup_insert_eq]].
  split; [simpl; lia|]. split; [intros x Hx; simpl; rewrite !lookup_insert_ne by lia; done|].
  split; [simpl; lia|]. intros x Hx. simpl in *. rewrite !dom_insert in Hx. rewrite !elem_of_union, !elem_of_singleton in Hx.
  destruct Hx as [->|[->|Hx]]; [lia|lia|]. apply Hd in Hx. lia.
Qed.
Lemma visit_Slice_grows hi lo l : grows (visit_Slice getTypeType typeFuel hi lo l).
Proof using Hbits.
  unfold visit_Slice. apply grows_bind; [apply grows_get|]. intros v. destruct (is_SymbolicError v); [apply grows_ret|]. destruct v; try apply grows_fail.
  intros s a s' ds Hs Hv. by apply slice_value in Hv as [? _].
Qed.
Lemma visit_Cast_grows n t l : grows (visit_Cast cf nodeType getTypeType typeFuel n t l).
Proof using.
  unfold visit_Cast, known_int, constant_of. apply grows_bind; [apply grows_get|]. intros v. apply grows_bind; [grow|]. intros first.
  apply grows_bind; [apply create_grows|]. intros second. apply grows_bind; [apply postorder_Unary_grows|]. intros _. apply grows_ret.
Qed.
Lemma postorder_Mux_grows t l0 l1 l2 : grows (postorder_Mux getTypeType typeFuel t l0 l1 l2).
Proof using.
  unfold postorder_Mux. apply grows_bind; [apply grows_get|]. intros v. destruct v; try apply grows_fail.
  apply grows_bind; [apply grows_get|]. intros _. apply grows_bind; [apply grows_get|]. intros _. destruct (bool_decide _); [apply grows_ret|apply create_grows].
Qed.
Lemma postorder_LOp_grows op l r : grows (postorder_LOp op l r).
Proof using. unfold postorder_LOp. grow. Qed.
Lemma postorder_Binary_grows n op t l r : grows (postorder_Binary cf nodeType n op t l r).
Proof using. unfold postorder_Binary, fold_to_constant, fold_to_bool, constant_of, known_int, known_bool, static_error, unknown_bool. grow. Qed.
Lemma grows_allM {A} (f : A -> M bool) l : (forall a, grows (f a)) -> grows (allM f l).
Proof using. intros Hf. induction l as [|a l IH]; [apply grows_ret|]. apply grows_bind; [apply Hf|]. intros []; [done|apply grows_ret]. Qed.
Lemma equals_grows l r : grows (equals l r).
Proof using.
  assert (Hn : forall n l r, grows (equals_ n l r)).
  { induction n as [|n IH]; intros x y; unfold_equals; [apply grows_fail|]. unfold field_of, get_element.
    apply grows_bind; [apply grows_deref|]. intros v. apply grows_bind; [apply grows_deref|]. intros o.
    destruct v; grow; apply grows_allM; intros; grow. }
  intros s a s' ds Hs He. by eapply Hn.
Qed.
Lemma postorder_Relation_grows op t l r : grows (postorder_Relation cf op t l r).
Proof using.
  pose proof equals_grows. unfold postorder_Relation, fold_to_bool, constant_of, known_bool, static_error, unknown_bool. grow.
Qed.

Lemma visit_grows lv n e : expr_of n = Some e -> grows (visit lv n).
Proof using Hbits.
  apply (fragment_ind (fun n => grows (visit lv n))); clear n e.
  - intros c. apply grows_alloc.
  - intros b. apply grows_alloc.
  - intros op t l r Hl Hr. cbn [SymEval.visit]. apply grows_bind; [done|]. intros vl. apply grows_bind; [done|]. intros vr.
    destruct op; cbn [is_relation]; try apply postorder_LOp_grows; try apply postorder_Binary_grows; apply postorder_Relation_grows.
  - intros op t x Hx. cbn [SymEval.visit]. apply grows_bind; [done|]. intros v. apply postorder_Unary_grows.
  - intros t x Hx. cbn [SymEval.visit]. apply grows_bind; [done|]. intros v. apply visit_Cast_grows.
  - intros hi lo x Hx. cbn [SymEval.visit]. apply grows_bind; [done|]. intros v. apply visit_Slice_grows.
  - intros t x y z Hx Hy Hz. cbn [SymEval.visit]. apply grows_bind; [done|]. intros v0. apply grows_bind; [done|]. intros v1. apply grows_bind; [done|]. intros v2.
    apply postorder_Mux_grows.
  - intros name. cbn [SymEval.visit]. grow.
  - intros name i Hi. cbn [SymEval.visit]. unfold known_bool. destruct (nodeType _); try (apply grows_bind; [done|]; intros v; grow). grow.
Qed.

(** *** Folding *)
Lemma no_errors_pair ds1 ds2 : no_errors (ds1 ++ ds2) = true -> no_errors ds1 = true /\ no_errors ds2 = true.
Proof using. rewrite no_errors_app. apply andb_true_iff. Qed.
Lemma fold_to_constant_covers e x s l s' ds : store_ok s -> concats_ok env e -> eval env e = Some x -> no_errors ds = true ->
  fold_to_constant cf e s = Done (l, s') ds -> result_ok s' l x.
Proof using All.
  intros Hs Hc He Hds Hf. unfold fold_to_constant in Hf. mdo Hf. apply lift_Done in Hm as [Ha ->]. subst ds. apply no_errors_pair in Hds as [Hd1 Hd2].
  pose proof (apply_refines cf env e Htm Hrm Hc _ _ Ha Hd1 x He) as Hv. destruct a; try done.
  apply eval_Constant_inv in Hv as (_ & _ & ->). eapply alloc_covers; [done|exact Hf|]. right. split; [done|]. by eexists.
Qed.
Lemma fold_to_bool_covers e x s l s' ds : store_ok s -> concats_ok env e -> eval env e = Some x -> no_errors ds = true ->
  fold_to_bool cf e s = Done (l, s') ds -> result_ok s' l x.
Proof using All.
  intros Hs Hc He Hds Hf. unfold fold_to_bool in Hf. mdo Hf. apply lift_Done in Hm as [Ha ->]. subst ds. apply no_errors_pair in Hds as [Hd1 Hd2].
  pose proof (apply_refines cf env e Htm Hrm Hc _ _ Ha Hd1 x He) as Hv. destruct a; try done.
  injection Hv as <-. eapply alloc_covers; [done|exact Hf|]. by right.
Qed.

(** The operands of a fold are literals for the values they cover. *)
Lemma known_literal ty c x : covers (SymbolicInteger ty Constant_ c) x -> value_ok x = true ->
  exists k, c = Some k /\ eval env (const_expr k) = Some x.
Proof using.
  destruct x as [|t z]; [done|]. intros [|(_ & k & -> & <- & <-)] Hok; [done|]. exists k. split; [done|]. simpl in *. by rewrite Hok.
Qed.
Lemma eval_binary op t l r x1 x2 : op <> LAnd -> op <> LOr -> eval env l = Some x1 -> eval env r = Some x2 ->
  eval env (Operation_Binary op t l r) = sem_binop op x1 x2.
Proof using. intros H1 H2 Hl Hr. destruct op; try done; simpl; by rewrite Hl, Hr. Qed.
Lemma covers_cases v x : covers v x ->
  (exists st b c, v = SymbolicBool st b /\ x = VBool c /\ (st = NotConstant \/ st = Constant_ /\ b = c)) \/
  (exists ty st c t z, v = SymbolicInteger ty st c /\ x = VInt t z /\ (st = NotConstant \/ st = Constant_)).
Proof using. destruct v, x; try done; intros Hc; [left; by repeat eexists|right]. repeat eexists. destruct Hc as [->|[-> _]]; auto. Qed.

Lemma sem_binop_int op t1 z1 t2 z2 x : is_relation op = false -> sem_binop op (VInt t1 z1) (VInt t2 z2) = Some x -> exists t z, x = VInt t z.
Proof using.
  intros Hrel Hx. destruct op; try done; simpl in Hx; repeat (case_match; simplify_eq/=); eauto;
    match goal with H : (_ <$> _) = Some _ |- _ => apply fmap_Some in H as (? & _ & ->) end; eauto.
Qed.
Lemma postorder_Binary_covers n op t l r x1 x2 x s lo s' ds : op <> LAnd -> op <> LOr -> is_relation op = false -> store_ok s ->
  result_ok s l x1 -> result_ok s r x2 -> value_ok x1 = true -> value_ok x2 = true -> sem_binop op x1 x2 = Some x ->
  (op = Concat -> forall t z, x2 = VInt t z -> 0 <= z /\ width_bits t < 2 ^ 31) ->
  no_errors ds = true -> postorder_Binary cf nodeType n op t l r s = Done (lo, s') ds -> result_ok s' lo x.
Proof using All.
  intros H1 H2 Hrel Hs (Hn1 & v1 & Hl & Hc1) (Hn2 & v2 & Hr & Hc2) Hk1 Hk2 Hx Hcc Hds Hp. unfold postorder_Binary in Hp.
  rewrite (M_bind_ok _ _ _ _ _ (get_ok _ _ _ Hn1 Hl)) in Hp.
  destruct (covers_cases _ _ Hc1) as [(st & b & c & -> & -> & Hst)|(ty & st & c & t1 & z1 & -> & -> & Hst)]; cbn [is_SymbolicError] in Hp;
    rewrite (M_bind_ok _ _ _ _ _ (get_ok _ _ _ Hn2 Hr)) in Hp;
    destruct (covers_cases _ _ Hc2) as [(st2 & b2 & c2 & -> & -> & Hst2)|(ty2 & st2 & c2 & t2 & z2 & -> & -> & Hst2)]; try (by destruct op);
    cbn [is_SymbolicError] in Hp.
  pose proof (sem_binop_int op _ _ _ _ x Hrel Hx) as (tx & zx & ->).
  assert (Hunk : forall ty, alloc (SymbolicInteger ty NotConstant None) s = Done (lo, s') ds -> result_ok s' lo (VInt tx zx)).
  { intros ty3 Ha. eapply (alloc_covers (SymbolicInteger ty3 NotConstant None)); [exact Hs|exact Ha|by left]. }
  destruct Hst as [-> | ->], Hst2 as [-> | ->]; simpl in Hp; try by eapply Hunk.
  destruct (known_literal _ _ _ Hc1 Hk1) as (k1 & -> & He1), (known_literal _ _ _ Hc2 Hk2) as (k2 & -> & He2).
  cbn [constant_of] in Hp. rewrite (M_bind_ok _ _ s k1 s), (M_bind_ok _ _ s k2 s) in Hp by done.
  eapply fold_to_constant_covers; [exact Hs| | |exact Hds|exact Hp].
  - split; [done|]. split; [done|]. intros -> t3 z3 Hz. rewrite He2 in Hz. injection Hz as <- <-. by eapply Hcc.
  - by rewrite (eval_binary _ _ _ _ _ _ H1 H2 He1 He2).
Qed.

Lemma literals_ok op t l r : op <> Concat -> concats_ok env l -> concats_ok env r -> concats_ok env (Operation_Binary op t l r).
Proof using. intros Ho Hl Hr. cbn [concats_ok]. split; [done|]. by split. Qed.
Lemma sem_relation_bool op x1 x2 x : is_relation op = true -> sem_binop op x1 x2 = Some x -> exists b, x = VBool b.
Proof using. intros Hrel Hx. destruct op; try done; destruct x1, x2; simpl in Hx; try destruct (same_type _ _); simplify_eq/=; eauto. Qed.
Lemma postorder_Relation_covers op t l r x1 x2 x s lo s' ds : is_relation op = true -> store_ok s ->
  result_ok s l x1 -> result_ok s r x2 -> value_ok x1 = true -> value_ok x2 = true -> sem_binop op x1 x2 = Some x ->
  no_errors ds = true -> postorder_Relation cf op t l r s = Done (lo, s') ds -> result_ok s' lo x.
Proof using All.
  intros Hrel Hs (Hn1 & v1 & Hl & Hc1) (Hn2 & v2 & Hr & Hc2) Hk1 Hk2 Hx Hds Hp. unfold postorder_Relation in Hp.
  assert (H1 : op <> LAnd /\ op <> LOr /\ op <> Concat) by (by destruct op). destruct H1 as (H1 & H2 & H3).
  destruct (sem_relation_bool _ _ _ _ Hrel Hx) as [bx ->].
  assert (Hunk : unknown_bool s = Done (lo, s') ds -> result_ok s' lo (VBool bx)).
  { intros Ha. eapply (alloc_covers (SymbolicBool NotConstant false)); [exact Hs|exact Ha|by left]. }
  rewrite (M_bind_ok _ _ _ _ _ (get_ok _ _ _ Hn1 Hl)) in Hp.
  destruct (covers_cases _ _ Hc1) as [(st & b & c & -> & -> & Hst)|(ty & st & c & t1 & z1 & -> & -> & Hst)]; cbn [is_SymbolicError] in Hp;
    rewrite (M_bind_ok _ _ _ _ _ (get_ok _ _ _ Hn2 Hr)) in Hp;
    destruct (covers_cases _ _ Hc2) as [(st2 & b2 & c2 & -> & -> & Hst2)|(ty2 & st2 & c2 & t2 & z2 & -> & -> & Hst2)]; try (by destruct op);
    cbn [is_SymbolicError scalar_state] in Hp.
  - destruct Hst as [-> |[-> ->]], Hst2 as [-> |[-> ->]]; simpl in Hp; try by eapply Hunk.
    eapply (fold_to_bool_covers (Operation_Binary op t (BoolLiteral c) (BoolLiteral c2))); [exact Hs|apply literals_ok; [done|exact I|exact I]| |exact Hds|exact Hp]. by rewrite (eval_binary _ _ _ _ (VBool c) (VBool c2) H1 H2).
  - destruct Hst as [-> | ->], Hst2 as [-> | ->]; simpl in Hp; try by eapply Hunk.
    destruct (known_literal _ _ _ Hc1 Hk1) as (k1 & -> & He1), (known_literal _ _ _ Hc2 Hk2) as (k2 & -> & He2).
    cbn [constant_of] in Hp. rewrite (M_bind_ok _ _ s k1 s), (M_bind_ok _ _ s k2 s) in Hp by done.
    eapply (fold_to_bool_covers (Operation_Binary op t (const_expr k1) (const_expr k2))); [exact Hs|apply literals_ok; [done|exact I|exact I]| |exact Hds|exact Hp]. by rewrite (eval_binary _ _ _ _ _ _ H1 H2 He1 He2).
Qed.

(** *** The other operators *)
(** [e] rebuilds the node around a literal. *)
Lemma postorder_Unary_covers e l s lo s' ds x1 x : store_ok s -> result_ok s l x1 -> value_ok x1 = true ->
  (forall lit, concats_ok env lit -> eval env lit = Some x1 -> concats_ok env (e lit) /\ eval env (e lit) = Some x) ->
  (forall v, covers v x1 -> scalar_state v = Some NotConstant -> covers v x) ->
  no_errors ds = true -> postorder_Unary cf e l s = Done (lo, s') ds -> result_ok s' lo x.
Proof using All.
  intros Hs (Hn & v & Hl & Hc) Hok He Hu Hds Hp. unfold postorder_Unary in Hp. rewrite (M_bind_ok _ _ _ _ _ (get_ok _ _ _ Hn Hl)) in Hp.
  destruct (covers_cases _ _ Hc) as [(st & b & c & -> & -> & Hst)|(ty & st & c & t1 & z1 & -> & -> & Hst)]; cbn [is_SymbolicError scalar_state] in Hp.
  - destruct Hst as [-> |[-> ->]]; simpl in Hp.
    + apply mret_Done in Hp as (<- & -> & _). split; [done|]. eexists. split; [exact Hl|]. by apply Hu.
    + destruct (He (BoolLiteral c) I eq_refl) as [H1 H2]. by eapply fold_to_bool_covers.
  - destruct Hst as [-> | ->]; simpl in Hp.
    + apply mret_Done in Hp as (<- & -> & _). split; [done|]. eexists. split; [exact Hl|]. by apply Hu.
    + destruct (known_literal _ _ _ Hc Hok) as (k & -> & Hk). cbn [constant_of] in Hp. rewrite (M_bind_ok _ _ s k s) in Hp by done.
      destruct (He (const_expr k) I Hk) as [H1 H2]. by eapply fold_to_constant_covers.
Qed.

Lemma bool_or_covers st b st2 b2 c c2 : covers (SymbolicBool st b) (VBool c) -> (c = false -> covers (SymbolicBool st2 b2) (VBool c2)) ->
  let '(st', b') := bool_or (st, b) (st2, b2) in covers (SymbolicBool st' b') (VBool (c || c2)).
Proof using.
  intros Hc Hc2. destruct c; [clear Hc2; destruct st2, b2|destruct (Hc2 eq_refl) as [-> |[-> ->]]; [destruct b2|destruct c2]];
    (destruct Hc as [-> |[-> ->]]; [destruct b|]); unfold bool_or, known; simpl; auto.
Qed.
Lemma bool_and_covers st b st2 b2 c c2 : covers (SymbolicBool st b) (VBool c) -> (c = true -> covers (SymbolicBool st2 b2) (VBool c2)) ->
  let '(st', b') := bool_and (st, b) (st2, b2) in covers (SymbolicBool st' b') (VBool (c && c2)).
Proof using.
  intros Hc Hc2. destruct c; [destruct (Hc2 eq_refl) as [-> |[-> ->]]; [destruct b2|destruct c2]|clear Hc2; destruct st2, b2];
    (destruct Hc as [-> |[-> ->]]; [destruct b|]); unfold bool_and, known; simpl; auto.
Qed.
(** The second operand counts only when the first does not decide. *)
Lemma postorder_LOp_covers op (f : bool -> bool -> bool) (needed : Prop) l r c c2 s lo s' ds : store_ok s ->
  (forall st b st2 b2, covers (SymbolicBool st b) (VBool c) -> (needed -> covers (SymbolicBool st2 b2) (VBool c2)) ->
     let '(st', b') := op (st, b) (st2, b2) in covers (SymbolicBool st' b') (VBool (f c c2))) ->
  result_ok s l (VBool c) -> (needed -> result_ok s r (VBool c2)) -> postorder_LOp op l r s = Done (lo, s') ds -> result_ok s' lo (VBool (f c c2)).
Proof using.
  intros Hs Hop (Hn & v & Hl & Hc) Hr Hp. unfold postorder_LOp in Hp. rewrite (M_bind_ok _ _ _ _ _ (get_ok _ _ _ Hn Hl)) in Hp.
  mdo Hp. apply get_Done in Hm as (Hnr & Hr' & -> & _). destruct v as [| | |st b| | | | | | | | | |]; try done. destruct a as [| | |st2 b2| | | | | | | | | |]; try done.
  assert (Hc2 : needed -> covers (SymbolicBool st2 b2) (VBool c2)).
  { intros Hd. destruct (Hr Hd) as (_ & w & Hw & Hcw). rewrite Hr' in Hw. by injection Hw as <-. }
  specialize (Hop st b st2 b2 Hc Hc2). destruct (op (st, b) (st2, b2)) as [st' b']. eapply alloc_covers; [exact Hs|exact Hp|exact Hop].
Qed.

Lemma create_covers t x s l s' ds : store_ok s -> type_covers t x -> create t false s = Done (l, s') ds -> extends s s' /\ result_ok s' l x.
Proof using Hbits Hbool.
  intros Hs Ht Hc. destruct x as [b|[| | |w sg| | | | | |] z]; simpl in Ht; try done; subst t.
  - unfold SymEval.create in Hc. destruct typeFuel as [|n]; [done|]. cbn [create_] in Hc. unfold strip_type in Hc. rewrite !Hbool in Hc.
    eapply alloc_covers; [exact Hs|exact Hc|by left].
  - destruct (create_bits _ _ _ _ _ _ Hs Hc) as (Hx & Hn & ty & Hl). split; [done|]. split; [done|]. eexists. split; [exact Hl|by left].
Qed.

Lemma postorder_Mux_covers t l0 l1 l2 c x s lo s' ds : store_ok s -> result_ok s l0 (VBool c) -> result_ok s (if c then l1 else l2) x -> type_covers t x ->
  postorder_Mux getTypeType typeFuel t l0 l1 l2 s = Done (lo, s') ds -> result_ok s' lo x.
Proof using Hbits Hbool.
  intros Hs (Hn & v & Hl & Hc) Hr Ht Hp. unfold postorder_Mux in Hp. rewrite (M_bind_ok _ _ _ _ _ (get_ok _ _ _ Hn Hl)) in Hp.
  destruct v as [| | |st b| | | | | | | | | |]; try done. mdo Hp. apply get_Done in Hm as (_ & _ & -> & _). mdo Hp. apply get_Done in Hm as (_ & _ & -> & _).
  destruct Hc as [-> |[-> ->]]; simpl in Hp; [by apply (create_covers _ x) in Hp as [_ ?]|]. by apply mret_Done in Hp as (<- & -> & _).
Qed.

Lemma visit_Slice_covers hi lo x1 h1 l1 x l s lr s' ds : store_ok s -> result_ok s l x1 -> sem_slice x1 h1 l1 = Some x ->
  visit_Slice getTypeType typeFuel hi lo l s = Done (lr, s') ds -> result_ok s' lr x.
Proof using Hbits.
  intros Hs (Hn & v & Hl & Hc) Hx Hp. unfold visit_Slice in Hp. rewrite (M_bind_ok _ _ _ _ _ (get_ok _ _ _ Hn Hl)) in Hp.
  destruct (covers_cases _ _ Hc) as [(st & b & c & -> & -> & Hst)|(ty & st & c & t1 & z1 & -> & -> & Hst)]; [done|].
  cbn [is_SymbolicError] in Hp. apply slice_value in Hp as (_ & Hnr & t & Hr); [|done]. split; [done|]. eexists. split; [exact Hr|].
  simpl in Hx. repeat (case_match; simplify_eq/=). by left.
Qed.

Lemma visit_Cast_covers n t l x1 x s lo s' ds : store_ok s -> result_ok s l x1 -> value_ok x1 = true -> sem_cast t x1 = Some x ->
  (match t with Type_Bits _ _ => wf_int t | _ => true end) = true -> type_covers (nodeType n) x ->
  visit_Cast cf nodeType getTypeType typeFuel n t l s = Done (lo, s') ds -> result_ok s' lo x.
Proof using All.
  intros Hs (Hn & v & Hl & Hc) Hok Hx Hw Ht Hp. unfold visit_Cast in Hp. rewrite (M_bind_ok _ _ _ _ _ (get_ok _ _ _ Hn Hl)) in Hp.
  mdo Hp. mdo Hp. mdo Hp. apply mret_Done in Hp as (<- & -> & _).
  assert (Hfirst : extends s s0 /\ (a = null \/ result_ok s0 a x)).
  { assert (Hnull : (mret null : M loc) s = Done (a, s0) ds0 -> extends s s0 /\ (a = null \/ result_ok s0 a x)).
    { intros Ha. apply mret_Done in Ha as (<- & -> & _). split; [by apply extends_refl|by left]. }
    assert (Hlit : forall w sg z z', handleOverflow (Type_Bits w sg) z false = Done z' [] \/ (exists d, handleOverflow (Type_Bits w sg) z false = Done z' d) ->
      x = VInt (Type_Bits w sg) z' ->
      (y ← lift (handleOverflow (Type_Bits w sg) z false); known_int {| ctype := Type_Bits w sg; cvalue := y; cbase := 10 |}) s = Done (a, s0) ds0 ->
      extends s s0 /\ (a = null \/ result_ok s0 a x)).
    { intros w sg z z' Hov -> Ha. mdo Ha. apply lift_Done in Hm2 as [Hov' ->].
      assert (a2 = z') as -> by (destruct Hov as [Hov|[d Hov]]; rewrite Hov in Hov'; congruence).
      destruct (alloc_covers _ (VInt (Type_Bits w sg) z') _ _ _ _ Hs Ha) as [Hx1 Hx2]; [|by split; [|right]]. right. split; [done|]. by eexists. }
    destruct (covers_cases _ _ Hc) as [(st & b & c & -> & -> & Hst)|(ty & st & c & t1 & z1 & -> & -> & Hst)].
    - destruct Hst as [-> |[-> ->]]; [by apply Hnull|]. destruct t as [| | |w sg| | | | | |]; simplify_eq/=; [by rewrite Ht in Hm|].
      destruct (_ && _) eqn:Ew; [|done]. injection Hx as <-. simpl in Ht. rewrite Ht in Hm. eapply (Hlit w sg (b2z c)); [left|reflexivity|exact Hm].
      apply andb_true_iff in Ew as [->%Z.eqb_eq Hsg]. destruct sg; [done|]. by destruct c.
    - destruct Hst as [-> | ->]; [by apply Hnull|]. destruct (known_literal _ _ _ Hc Hok) as (k & -> & _). cbn [constant_of] in Hm.
      rewrite (M_bind_ok _ _ s k s) in Hm by done. destruct t as [| |  |w sg| | | | | |]; simplify_eq/=.
      + repeat (case_match; simplify_eq/=).
      + rewrite Ht in Hm. destruct Hc as [|(_ & k' & [= <-] & <- & <-)]; [done|].
        destruct (handleOverflow_spec (Type_Bits w sg) (cvalue k) false Hw) as [d Hd]. eapply Hlit; [right; exists d; exact Hd|reflexivity|exact Hm]. }
  destruct Hfirst as [Hx1 Hf]. destruct (create_covers _ x _ _ _ _ (proj2 (proj2 Hx1)) Ht Hm0) as [Hx2 Hr2].
  pose proof (postorder_Unary_grows _ _ _ _ _ _ (proj2 (proj2 Hx2)) Hm1) as Hx3.
  destruct (Z.eqb_spec a null) as [->|Ha].
  - eapply result_extends; [apply Hx2|done|done].
  - destruct Hf as [|Hf]; [done|]. eapply result_extends; [apply Hx2| |exact Hx3]. eapply result_extends; [apply Hx1|done|done].
Qed.
(** *** All nodes *)
Definition visit_ok (lv : bool) (n : Node) : Prop := forall e s l s' ds x, expr_of n = Some e -> typed n -> concats_ok env e -> store_ok s -> covered s ->
  visit lv n s = Done (l, s') ds -> no_errors ds = true -> eval env e = Some x -> extends s s' /\ result_ok s' l x.
Lemma visit_binary_ok lv op t l r : visit_ok lv l -> visit_ok lv r -> visit_ok lv (NBinary op t l r).
Proof using All.
  intros IHl IHr e s lo s' ds x He [Htl Htr] Hc Hs Hcov Hv Hds Hx. pose proof (visit_grows lv _ _ He _ _ _ _ Hs Hv) as Hg. split; [done|].
  cbn [expr_of] in He. destruct (expr_of l) as [el|] eqn:El; [|done]. destruct (expr_of r) as [er|] eqn:Er; [|done]. injection He as <-.
  destruct Hc as (Hcl & Hcr & Hcc). cbn [SymEval.visit] in Hv. 
  apply bind_Done in Hv as (a & s0 & ds0 & dsr & Hm & Hv & ->). apply bind_Done in Hv as (a0 & s1 & ds1 & ds3 & Hm0 & Hv & ->).
  apply no_errors_pair in Hds as [Hd1 [Hd2 Hd3]%no_errors_pair].
  pose proof (visit_grows lv _ _ El _ _ _ _ Hs Hm) as Hx1. pose proof (proj2 (proj2 Hx1)) as Hs1.
  pose proof (visit_grows lv _ _ Er _ _ _ _ Hs1 Hm0) as Hx2. pose proof (proj2 (proj2 Hx2)) as Hs2.
  assert (Hleft : forall x1, eval env el = Some x1 -> result_ok s1 a x1).
  { intros x1 H1. eapply result_extends; [exact Hs1| |exact Hx2]. by destruct (IHl el s a s0 ds0 x1 El Htl Hcl Hs Hcov Hm Hd1 H1). }
  assert (Hright : forall x2, eval env er = Some x2 -> result_ok s1 a0 x2).
  { intros x2 H2. pose proof (covered_extends _ _ Hs Hcov Hx1) as Hcov1.
    by destruct (IHr er s0 a0 s1 ds1 x2 Er Htr Hcr Hs1 Hcov1 Hm0 Hd2 H2). }
  assert (Hor : op = LOr \/ op = LAnd \/ (op <> LAnd /\ op <> LOr)) by (destruct op; auto; right; right; split; congruence).
  destruct Hor as [-> |[-> |[Hna Hno]]].
  - simpl in Hx. destruct (eval env el) as [[c|]|]; try done. destruct c.
    + injection Hx as <-. change (VBool true) with (VBool (true || true)).
      eapply (postorder_LOp_covers bool_or orb (true = false)); [exact Hs2| |by apply Hleft| |exact Hv]; [intros; by apply bool_or_covers|done].
    + destruct (eval env er) as [[c2|]|]; try done. injection Hx as <-. change (VBool c2) with (VBool (false || c2)).
      eapply (postorder_LOp_covers bool_or orb (false = false)); [exact Hs2| |by apply Hleft| |exact Hv]; [intros; by apply bool_or_covers|intros _; by apply Hright].
  - simpl in Hx. destruct (eval env el) as [[c|]|]; try done. destruct c.
    + destruct (eval env er) as [[c2|]|]; try done. injection Hx as <-. change (VBool c2) with (VBool (true && c2)).
      eapply (postorder_LOp_covers bool_and andb (true = true)); [exact Hs2| |by apply Hleft| |exact Hv]; [intros; by apply bool_and_covers|intros _; by apply Hright].
    + injection Hx as <-. change (VBool false) with (VBool (false && true)).
      eapply (postorder_LOp_covers bool_and andb (false = true)); [exact Hs2| |by apply Hleft| |exact Hv]; [intros; by apply bool_and_covers|done].
  - assert (Hops : exists x1 x2, eval env el = Some x1 /\ eval env er = Some x2 /\ sem_binop op x1 x2 = Some x).
    { destruct op; try done; simpl in Hx; apply bind_Some in Hx as (x1 & H1 & (x2 & H2 & Hx)%bind_Some); eauto. }
    destruct Hops as (x1 & x2 & H1 & H2 & Hop). pose proof (eval_ok _ _ _ H1) as Hk1. pose proof (eval_ok _ _ _ H2) as Hk2.
    destruct (is_relation op) eqn:Hrel.
    + assert (Hvr : postorder_Relation cf op t a a0 s1 = Done (lo, s') ds3) by (destruct op; try done; exact Hv).
      by eapply (postorder_Relation_covers op t a a0 x1 x2); [done|done|apply Hleft|apply Hright|..].
    + assert (Hvr : postorder_Binary cf nodeType (NBinary op t l r) op t a a0 s1 = Done (lo, s') ds3) by (destruct op; try done; exact Hv).
      eapply (postorder_Binary_covers (NBinary op t l r) op t a a0 x1 x2); [done|done|done|done|by apply Hleft|by apply Hright|done|done|done| |done|done].
      intros Hop' t3 z3 ->. by apply (Hcc Hop' t3 z3).
Qed.
Lemma sem_unop_unknown op x1 x v : sem_unop op x1 = Some x -> covers v x1 -> scalar_state v = Some NotConstant -> covers v x.
Proof using.
  intros Hx Hc Hst. destruct op, x1 as [b|[] z], v; simplify_eq/=; done || by left.
Qed.
Lemma visit_unary_ok lv op t n : visit_ok lv n -> visit_ok lv (NUnary op t n).
Proof using All.
  intros IH e s lo s' ds x He Ht Hc Hs Hcov Hv Hds Hx. split; [exact (visit_grows lv _ _ He _ _ _ _ Hs Hv)|].
  cbn [expr_of] in He. destruct (expr_of n) as [en|] eqn:En; [|done]. injection He as <-. cbn [SymEval.visit] in Hv.
  apply bind_Done in Hv as (a & s1 & ds1 & ds2 & Hm & Hv & ->). apply no_errors_pair in Hds as [Hd1 Hd2].
  simpl in Hx. apply bind_Some in Hx as (x1 & H1 & Hx). destruct (IH en s a s1 ds1 x1 En Ht Hc Hs Hcov Hm Hd1 H1) as [Hx1 Hr].
  eapply (postorder_Unary_covers (Operation_Unary op t) a s1 lo s' ds2 x1 x); [apply Hx1|exact Hr|by eapply eval_ok| | |exact Hd2|exact Hv].
  - intros lit Hok Hlit. split; [exact Hok|]. simpl. by rewrite Hlit.
  - intros v Hcv Hst. by eapply sem_unop_unknown.
Qed.
Lemma visit_cast_ok lv t n : visit_ok lv n -> visit_ok lv (NCast t n).
Proof using All.
  intros IH e s lo s' ds x He [Ht Hty] Hc Hs Hcov Hv Hds Hx. split; [exact (visit_grows lv _ _ He _ _ _ _ Hs Hv)|].
  specialize (Hty e x He Hx). cbn [expr_of] in He. destruct (expr_of n) as [en|] eqn:En; [|done]. injection He as <-. cbn [SymEval.visit] in Hv.
  apply bind_Done in Hv as (a & s1 & ds1 & ds2 & Hm & Hv & ->). apply no_errors_pair in Hds as [Hd1 Hd2].
  simpl in Hx. destruct (match t with Type_Bits _ _ => wf_int t | _ => true end) eqn:Hw; [|done].
  apply bind_Some in Hx as (x1 & H1 & Hx). destruct (IH en s a s1 ds1 x1 En Ht Hc Hs Hcov Hm Hd1 H1) as [Hx1 Hr].
  by eapply (visit_Cast_covers (NCast t n) t a x1 x s1); [apply Hx1|exact Hr|eapply eval_ok|..].
Qed.
Lemma visit_slice_ok lv hi lo n : visit_ok lv n -> visit_ok lv (NSlice hi lo n).
Proof using All.
  intros IH e s lr s' ds x He Ht Hc Hs Hcov Hv Hds Hx. split; [exact (visit_grows lv _ _ He _ _ _ _ Hs Hv)|].
  cbn [expr_of] in He. destruct (expr_of n) as [en|] eqn:En; [|done]. injection He as <-. destruct Hc as [Hc _]. cbn [SymEval.visit] in Hv.
  apply bind_Done in Hv as (a & s1 & ds1 & ds2 & Hm & Hv & ->). apply no_errors_pair in Hds as [Hd1 Hd2].
  cbn [eval] in Hx. apply bind_Some in Hx as (x1 & H1 & (h & _ & (l & _ & Hx)%bind_Some)%bind_Some).
  destruct (IH en s a s1 ds1 x1 En Ht Hc Hs Hcov Hm Hd1 H1) as [Hx1 Hr]. eapply visit_Slice_covers; [apply Hx1|exact Hr|exact Hx|exact Hv].
Qed.
Lemma visit_mux_ok lv t n0 n1 n2 : visit_ok lv n0 -> visit_ok lv n1 -> visit_ok lv n2 -> visit_ok lv (NMux t n0 n1 n2).
Proof using All.
  intros IH0 IH1 IH2 e s lr s' ds x He (Ht0 & Ht1 & Ht2 & Hty) Hc Hs Hcov Hv Hds Hx. split; [exact (visit_grows lv _ _ He _ _ _ _ Hs Hv)|].
  specialize (Hty e x He Hx). cbn [expr_of] in He. destruct (expr_of n0) as [e0|] eqn:E0; [|done]. destruct (expr_of n1) as [e1|] eqn:E1; [|done].
  destruct (expr_of n2) as [e2|] eqn:E2; [|done]. injection He as <-. destruct Hc as (Hc0 & Hc1 & Hc2). cbn [SymEval.visit] in Hv.
  apply bind_Done in Hv as (l0 & s1 & ds1 & dsr & Hm0 & Hv & ->). apply bind_Done in Hv as (l1 & s2 & ds2 & dsr' & Hm1 & Hv & ->).
  apply bind_Done in Hv as (l2 & s3 & ds3 & ds4 & Hm2 & Hv & ->).
  apply no_errors_pair in Hds as [Hd1 [Hd2 [Hd3 Hd4]%no_errors_pair]%no_errors_pair].
  pose proof (visit_grows lv _ _ E0 _ _ _ _ Hs Hm0) as X1. pose proof (proj2 (proj2 X1)) as Hs1. pose proof (covered_extends _ _ Hs Hcov X1) as Hcov1.
  pose proof (visit_grows lv _ _ E1 _ _ _ _ Hs1 Hm1) as X2. pose proof (proj2 (proj2 X2)) as Hs2. pose proof (covered_extends _ _ Hs1 Hcov1 X2) as Hcov2.
  pose proof (visit_grows lv _ _ E2 _ _ _ _ Hs2 Hm2) as X3. pose proof (proj2 (proj2 X3)) as Hs3.
  cbn [eval] in Hx. destruct (eval env e0) as [[c|]|] eqn:H0'; try done.
  assert (Hr0 : result_ok s3 l0 (VBool c)).
  { destruct (IH0 e0 s l0 s1 ds1 _ E0 Ht0 Hc0 Hs Hcov Hm0 Hd1 H0') as [_ Hr]. by eapply result_extends, X3; [|eapply result_extends, X2]. }
  assert (Hr : result_ok s3 (if c then l1 else l2) x).
  { destruct c.
    - destruct (IH1 e1 s1 l1 s2 ds2 _ E1 Ht1 Hc1 Hs1 Hcov1 Hm1 Hd2 Hx) as [_ Hr]. by eapply result_extends, X3.
    - by destruct (IH2 e2 s2 l2 s3 ds3 _ E2 Ht2 Hc2 Hs2 Hcov2 Hm2 Hd3 Hx) as [_ Hr]. }
  by eapply postorder_Mux_covers.
Qed.
Lemma visit_variable_ok lv name : visit_ok lv (NPath name PVariable).
Proof using All.
  intros e s lr s' ds x He Ht Hc Hs Hcov Hv Hds Hx. split; [exact (visit_grows lv _ _ He _ _ _ _ Hs Hv)|]. injection He as <-. cbn [SymEval.visit] in Hv.
  assert (Hn : env name = Some x) by (simpl in Hx; destruct (env name) as [[|]|]; try done; by destruct (_ && _)).
  specialize (Ht x Hn). assert (Hp : (mret (default null (map_get valueMap name)) : M loc) s = Done (lr, s') ds).
  { destruct x as [b|[| | |w sg| | | | | |] z]; simpl in Ht; try done; by rewrite Ht in Hv. }
  apply mret_Done in Hp as (<- & -> & _). destruct (Hcov name x Hn) as (l & v & -> & Hl & Hcv). simpl. split; [|by exists v].
  pose proof (elem_of_dom_2 _ _ _ Hl) as Hd. apply Hs in Hd. unfold null. lia.
Qed.
Lemma visit_constant_ok lv name i : visit_ok lv i -> visit_ok lv (NPath name (PConstant i)).
Proof using All.
  intros IH e s lr s' ds x He Ht Hc Hs Hcov Hv Hds Hx. split; [exact (visit_grows lv _ _ He _ _ _ _ Hs Hv)|]. cbn [expr_of typed] in *. cbn [SymEval.visit] in Hv.
  assert (Hgo : (l ← visit lv i; get l;; mret l) s = Done (lr, s') ds -> result_ok s' lr x).
  { intros Hg. apply bind_Done in Hg as (a & s1 & ds1 & ds2 & Hm & Hg & ->). apply no_errors_pair in Hds as [Hd1 _].
    destruct (IH e s a s1 ds1 x He Ht Hc Hs Hcov Hm Hd1 Hx) as [_ Hr]. apply bind_Done in Hg as (v & s2 & ds3 & ds4 & Hm2 & Hg & ->).
    apply get_Done in Hm2 as (_ & _ & -> & _). by apply mret_Done in Hg as (<- & -> & _). }
  destruct (nodeType _); try (by apply Hgo). destruct i; try done. injection He as <-. injection Hx as <-.
  eapply alloc_covers; [exact Hs|exact Hv|]. by right.
Qed.
Lemma visit_all_ok lv n e : expr_of n = Some e -> visit_ok lv n.
Proof using All.
  apply (fragment_ind (visit_ok lv)); clear n e; eauto using visit_binary_ok, visit_unary_ok, visit_cast_ok, visit_slice_ok, visit_mux_ok, visit_variable_ok, visit_constant_ok.
  - intros c e s l s' ds x He Ht Hc Hs Hcov Hv Hds Hx. injection He as <-. apply eval_Constant_inv in Hx as (_ & _ & ->).
    eapply alloc_covers; [exact Hs|exact Hv|]. right. split; [done|]. by eexists.
  - intros b e s l s' ds x He Ht Hc Hs Hcov Hv Hds Hx. injection He as <-. injection Hx as <-. eapply alloc_covers; [exact Hs|exact Hv|]. by right.
Qed.

(** *** The expressions whose evaluation returns *)
Definition total_op (op : binop) : bool := match op with LAnd | LOr => true | Equ | Neq | Range | Mask => false | _ => is_arith op end.
Definition means (n : Node) (x : value) : Prop := exists e, expr_of n = Some e /\ eval env e = Some x.
(** Operations that are folded, on operands for which they have a value. *)
Fixpoint total (n : Node) : Prop :=
  match n with
  | NConstant c => value_ok (VInt (ctype c) (cvalue c)) = true
  | NBoolLiteral _ => True
  | NBinary op _ l r => total l /\ total r /\ total_op op = true /\ exists x1 x2, means l x1 /\ means r x2 /\ is_Some (sem_binop op x1 x2)
  | NUnary op _ x => total x /\ exists x1, means x x1 /\ is_Some (sem_unop op x1)
  | NMux _ x y z => total x /\ total y /\ total z /\ (exists b, means x (VBool b)) /\ forall v, means n v -> type_covers (nodeType n) v
  | NPath name PVariable => exists x, env name = Some x /\ value_ok x = true /\ type_covers (nodeType n) x
  | _ => False
  end.
Definition returns (lv : bool) (n : Node) : Prop := forall s, store_ok s -> covered s -> total n ->
  (exists l s', visit lv n s = oret (l, s')) /\ (exists x, means n x) /\ typed n /\ forall e, expr_of n = Some e -> concats_ok env e.

Lemma lit_applies k : apply_ cf (const_expr k) = oret (const_expr k).
Proof using. done. Qed.
Lemma fold_int_returns op t k1 k2 x : total_op op = true -> value_ok (VInt (ctype k1) (cvalue k1)) = true -> value_ok (VInt (ctype k2) (cvalue k2)) = true ->
  sem_binop op (VInt (ctype k1) (cvalue k1)) (VInt (ctype k2) (cvalue k2)) = Some x ->
  apply_ cf (Operation_Binary op t (const_expr k1) (const_expr k2)) = oret (literal_of (cbase k1) x).
Proof using.
  intros Ho H1 H2 Hx. assert (Ha : is_arith op = true) by (destruct op; done). rewrite sem_binop_arith in Hx by done.
  destruct (same_type _ _) eqn:E; [|done]. apply same_type_eq in E as [E _]. simpl in H1, H2. apply andb_true_iff in H1 as [Hw H1], H2 as [_ H2].
  rewrite <- E in H2. assert (Hr : op <> Range /\ op <> Mask) by (by destruct op). destruct Hr as [Hr Hm].
  pose proof (literals_fold cf op t (ctype k1) (cvalue k1) (cvalue k2) (cbase k1) (cbase k2) x Ha Hr Hm Hw H1 H2 Hx) as Hf. rewrite E in Hf at 2.
  unfold const_expr in *. destruct op; try done; cbn -[postorder_binary]; by rewrite Hf.
Qed.
Lemma alloc_returns v s : store_ok s -> exists l s', alloc v s = oret (l, s').
Proof using. intros Hs. destruct (alloc_ok v s Hs) as (s' & He & _). by eexists _, s'. Qed.
Lemma fold_to_constant_returns e t z b s : store_ok s -> apply_ cf e = oret (Constant t z b) -> exists l s', fold_to_constant cf e s = oret (l, s').
Proof using. intros Hs He. unfold fold_to_constant. erewrite M_bind_ok by (unfold lift; by rewrite He). by apply alloc_returns. Qed.
Lemma fold_to_bool_returns e b s : store_ok s -> apply_ cf e = oret (BoolLiteral b) -> exists l s', fold_to_bool cf e s = oret (l, s').
Proof using. intros Hs He. unfold fold_to_bool. erewrite M_bind_ok by (unfold lift; by rewrite He). by apply alloc_returns. Qed.
Lemma create_returns t x s : (0 < typeFuel)%nat -> store_ok s -> type_covers t x -> exists l s', create t false s = oret (l, s').
Proof using Hbits Hbool.
  intros Hf Hs Ht. unfold SymEval.create. destruct typeFuel as [|n]; [lia|]. cbn [create_]. unfold strip_type.
  destruct x as [b|[| | |w sg| | | | | |] z]; simpl in Ht; try done; subst t; rewrite ?Hbits, ?Hbool; by apply alloc_returns.
Qed.
Lemma covers_known ty k x : covers (SymbolicInteger ty Constant_ (Some k)) x -> x = VInt (ctype k) (cvalue k).
Proof using. destruct x as [|t z]; [done|]. intros [|(_ & k' & [= <-] & <- & <-)]; done. Qed.

(** The operation on two covered operands returns. *)
Lemma binary_returns n op t l r x1 x2 s : total_op op = true -> op <> LAnd -> op <> LOr -> store_ok s -> result_ok s l x1 -> result_ok s r x2 ->
  value_ok x1 = true -> value_ok x2 = true -> is_Some (sem_binop op x1 x2) ->
  exists lo s', (if is_relation op then postorder_Relation cf op t l r else postorder_Binary cf nodeType n op t l r) s = oret (lo, s').
Proof using env.
  intros Ho Ha Hor Hs (Hn1 & v1 & Hl & Hc1) (Hn2 & v2 & Hr & Hc2) Hk1 Hk2 [x Hx].
  destruct (covers_cases _ _ Hc1) as [(st & b & c & -> & -> & Hst)|(ty & st & c & t1 & z1 & -> & -> & Hst)]; [by destruct op|].
  destruct (covers_cases _ _ Hc2) as [(st2 & b2 & c2 & -> & -> & Hst2)|(ty2 & st2 & c2 & t2 & z2 & -> & -> & Hst2)]; [by destruct op|].
  destruct (is_relation op) eqn:Hrel; [unfold postorder_Relation|unfold postorder_Binary];
    rewrite (M_bind_ok _ _ _ _ _ (get_ok _ _ _ Hn1 Hl)); cbn [is_SymbolicError]; rewrite (M_bind_ok _ _ _ _ _ (get_ok _ _ _ Hn2 Hr)); cbn [is_SymbolicError scalar_state];
    (destruct Hst as [-> | ->]; [destruct Hst2 as [-> | ->]; by apply alloc_returns|]); (destruct Hst2 as [-> | ->]; [by apply alloc_returns|]);
    destruct (known_literal _ _ _ Hc1 Hk1) as (k1 & -> & _), (known_literal _ _ _ Hc2 Hk2) as (k2 & -> & _);
    apply covers_known in Hc1; apply covers_known in Hc2; rewrite Hc1 in *; rewrite Hc2 in *;
    change (constant_of (Some k1)) with (mret k1 : M IRConstant); change (constant_of (Some k2)) with (mret k2 : M IRConstant);
    cbn [bool_decide andb]; simpl;
    rewrite (M_bind_ok _ _ s k1 s), (M_bind_ok _ _ s k2 s) by done; pose proof (fold_int_returns op t k1 k2 x Ho Hk1 Hk2 Hx) as Hf.
  - destruct (sem_relation_bool _ _ _ _ Hrel Hx) as [bx ->]. by eapply fold_to_bool_returns.
  - destruct (sem_binop_int _ _ _ _ _ _ Hrel Hx) as (tx & zx & ->). by eapply fold_to_constant_returns.
Qed.
Lemma LOp_returns op l r c1 c2 s : store_ok s -> result_ok s l (VBool c1) -> result_ok s r (VBool c2) -> exists lo s', postorder_LOp op l r s = oret (lo, s').
Proof using.
  intros Hs (Hn1 & v1 & Hl & Hc1) (Hn2 & v2 & Hr & Hc2). unfold postorder_LOp.
  rewrite (M_bind_ok _ _ _ _ _ (get_ok _ _ _ Hn1 Hl)), (M_bind_ok _ _ _ _ _ (get_ok _ _ _ Hn2 Hr)).
  destruct v1 as [| | |st b| | | | | | | | | |]; try done. destruct v2 as [| | |st2 b2| | | | | | | | | |]; try done.
  destruct (op (st, b) (st2, b2)) as [st' b']. by apply alloc_returns.
Qed.
Lemma unary_returns op t l x1 s : store_ok s -> result_ok s l x1 -> value_ok x1 = true -> is_Some (sem_unop op x1) ->
  exists lo s', postorder_Unary cf (Operation_Unary op t) l s = oret (lo, s').
Proof using env.
  intros Hs (Hn1 & v1 & Hl & Hc1) Hok [x Hx]. unfold postorder_Unary. rewrite (M_bind_ok _ _ _ _ _ (get_ok _ _ _ Hn1 Hl)).
  destruct (covers_cases _ _ Hc1) as [(st & b & c & -> & -> & Hst)|(ty & st & c & t1 & z1 & -> & -> & Hst)]; cbn [is_SymbolicError scalar_state].
  - destruct Hst as [-> |[-> ->]]; simpl; [by do 2 eexists|]. destruct op; try done. by eapply fold_to_bool_returns.
  - destruct Hst as [-> | ->]; simpl; [by do 2 eexists|]. destruct (known_literal _ _ _ Hc1 Hok) as (k & -> & _). apply covers_known in Hc1.
    injection Hc1 as -> ->. change (constant_of (Some k)) with (mret k : M IRConstant). rewrite (M_bind_ok _ _ s k s) by done.
    simpl in Hok. apply andb_true_iff in Hok as [Hw _].
    assert (Hfold : exists b, apply_ cf (Operation_Unary op t (const_expr k)) = oret (Constant (ctype k) b (cbase k))).
    { destruct op; try done; cbn; destruct (ctype k) as [| | |w sg| | | | | |] eqn:Et; try done; try (by eexists);
        unfold mkConstant; rewrite handleOverflow_nowarning by done; by eexists. }
    destruct Hfold as [b Hf]. by eapply fold_to_constant_returns.
Qed.
Lemma mux_returns t l0 l1 l2 c x1 x s : (0 < typeFuel)%nat -> store_ok s -> result_ok s l0 (VBool c) -> result_ok s l1 x1 -> result_ok s l2 x -> 
  type_covers t (if c then x1 else x) -> exists lo s', postorder_Mux getTypeType typeFuel t l0 l1 l2 s = oret (lo, s').
Proof using Hbits Hbool.
  intros Hf Hs (Hn0 & v0 & Hl0 & Hc0) (Hn1 & v1 & Hl1 & _) (Hn2 & v2 & Hl2 & _) Ht. unfold postorder_Mux.
  rewrite (M_bind_ok _ _ _ _ _ (get_ok _ _ _ Hn0 Hl0)). destruct v0 as [| | |st b| | | | | | | | | |]; try done.
  rewrite (M_bind_ok _ _ _ _ _ (get_ok _ _ _ Hn1 Hl1)), (M_bind_ok _ _ _ _ _ (get_ok _ _ _ Hn2 Hl2)).
  destruct Hc0 as [-> |[-> ->]]; simpl; [by eapply create_returns|by do 2 eexists].
Qed.
Lemma means_fun n x y : means n x -> means n y -> x = y.
Proof using. intros (e & He & Hx) (e' & He' & Hy). congruence. Qed.

(** What a visit that returns has found. *)
Lemma returns_covers lv n s l s' x : visit lv n s = oret (l, s') -> typed n -> (forall e, expr_of n = Some e -> concats_ok env e) -> means n x ->
  store_ok s -> covered s -> extends s s' /\ result_ok s' l x /\ store_ok s' /\ covered s' /\ value_ok x = true.
Proof using All.
  intros Hv Ht Hc (e & He & Hx) Hs Hcov. destruct (visit_all_ok lv n e He e s l s' [] x He Ht (Hc e He) Hs Hcov Hv eq_refl Hx) as [Hxt Hr].
  split; [done|]. split; [done|]. split; [apply Hxt|]. split; [by eapply covered_extends|by eapply eval_ok].
Qed.
Lemma visit_returns lv n e : (0 < typeFuel)%nat -> expr_of n = Some e -> returns lv n.
Proof using All.
  intros Hf. apply (fragment_ind (returns lv)); clear n e.
  - intros c s Hs Hcov Ht. split; [by apply alloc_returns|]. split; [|split; [exact I|by intros e [= <-]]].
    exists (VInt (ctype c) (cvalue c)). exists (const_expr c). split; [done|]. simpl in *. by rewrite Ht.
  - intros b s Hs Hcov Ht. split; [by apply alloc_returns|]. split; [by exists (VBool b), (BoolLiteral b)|]. split; [exact I|by intros e [= <-]].
  - intros op t l r IHl IHr s Hs Hcov (Htl & Htr & Ho & x1 & x2 & Hm1 & Hm2 & Hx).
    destruct (IHl s Hs Hcov Htl) as ((vl & s1 & Hvl) & _ & Hyl & Hcl).
    destruct (returns_covers lv l s vl s1 x1 Hvl Hyl Hcl Hm1 Hs Hcov) as (X1 & Hrl & Hs1 & Hcov1 & Hk1).
    destruct (IHr s1 Hs1 Hcov1 Htr) as ((vr & s2 & Hvr) & _ & Hyr & Hcr).
    destruct (returns_covers lv r s1 vr s2 x2 Hvr Hyr Hcr Hm2 Hs1 Hcov1) as (X2 & Hrr & Hs2 & Hcov2 & Hk2).
    pose proof (result_extends _ _ _ _ Hs1 Hrl X2) as Hrl2. split; [|split; [|split; [by split|]]].
    + cbn [SymEval.visit]. rewrite (M_bind_ok _ _ _ _ _ Hvl), (M_bind_ok _ _ _ _ _ Hvr).
      assert (Hop : op = LOr \/ op = LAnd \/ (op <> LAnd /\ op <> LOr)) by (destruct op; auto; right; right; split; congruence).
      destruct Hop as [-> |[-> |[Hna Hno]]].
      * destruct Hx as [x Hx]. destruct x1, x2; try done. by eapply LOp_returns.
      * destruct Hx as [x Hx]. destruct x1, x2; try done. by eapply LOp_returns.
      * destruct (binary_returns (NBinary op t l r) op t vl vr x1 x2 s2 Ho Hna Hno Hs2 Hrl2 Hrr Hk1 Hk2 Hx) as (lo & s' & He).
        exists lo, s'. destruct op; try done; exact He.
    + destruct Hm1 as (e1 & He1 & Hv1), Hm2 as (e2 & He2 & Hv2), Hx as [x Hx]. exists x, (Operation_Binary op t e1 e2).
      split; [simpl; by rewrite He1, He2|]. destruct op; simpl; rewrite ?Hv1; simpl; rewrite ?Hv2; simpl; try exact Hx;
        destruct x1 as [[]|], x2 as [[]|]; try done; exact Hx.
    + intros e He. simpl in He. destruct (expr_of l) as [e1|]; [|done]. destruct (expr_of r) as [e2|]; [|done]. injection He as <-.
      split; [by apply Hcl|]. split; [by apply Hcr|]. by intros ->.
  - intros op t n IH s Hs Hcov (Htn & x1 & Hm & Hx). destruct (IH s Hs Hcov Htn) as ((vn & s1 & Hvn) & _ & Hyn & Hcn).
    destruct (returns_covers lv n s vn s1 x1 Hvn Hyn Hcn Hm Hs Hcov) as (X1 & Hrn & Hs1 & Hcov1 & Hk1). split; [|split; [|split; [done|]]].
    + cbn [SymEval.visit]. rewrite (M_bind_ok _ _ _ _ _ Hvn). by eapply unary_returns.
    + destruct Hm as (e1 & He1 & Hv1), Hx as [x Hx]. exists x, (Operation_Unary op t e1). split; [simpl; by rewrite He1|]. simpl. by rewrite Hv1.
    + intros e He. simpl in He. destruct (expr_of n) as [e1|]; [|done]. injection He as <-. exact (Hcn e1 eq_refl).
  - by intros t n _ s _ _ [].
  - by intros hi lo n _ s _ _ [].
  - intros t n0 n1 n2 IH0 IH1 IH2 s Hs Hcov (Ht0 & Ht1 & Ht2 & (c & Hm0) & Hty).
    destruct (IH0 s Hs Hcov Ht0) as ((v0 & s1 & Hv0) & _ & Hy0 & Hc0).
    destruct (returns_covers lv n0 s v0 s1 _ Hv0 Hy0 Hc0 Hm0 Hs Hcov) as (X1 & Hr0 & Hs1 & Hcov1 & _).
    destruct (IH1 s1 Hs1 Hcov1 Ht1) as ((v1 & s2 & Hv1) & (x1 & Hm1) & Hy1 & Hc1).
    destruct (returns_covers lv n1 s1 v1 s2 x1 Hv1 Hy1 Hc1 Hm1 Hs1 Hcov1) as (X2 & Hr1 & Hs2 & Hcov2 & _).
    destruct (IH2 s2 Hs2 Hcov2 Ht2) as ((v2 & s3 & Hv2) & (x2 & Hm2) & Hy2 & Hc2).
    destruct (returns_covers lv n2 s2 v2 s3 x2 Hv2 Hy2 Hc2 Hm2 Hs2 Hcov2) as (X3 & Hr2 & Hs3 & Hcov3 & _).
    pose proof (result_extends _ _ _ _ Hs1 Hr0 (extends_trans _ _ _ X2 X3)) as Hr0'. pose proof (result_extends _ _ _ _ Hs2 Hr1 X3) as Hr1'.
    assert (Hm : means (NMux t n0 n1 n2) (if c then x1 else x2)).
    { destruct Hm0 as (e0 & He0 & Hx0), Hm1 as (e1 & He1 & Hx1), Hm2 as (e2 & He2 & Hx2). exists (Mux t e0 e1 e2).
      split; [simpl; by rewrite He0, He1, He2|]. simpl. rewrite Hx0. by destruct c. }
    split; [|split; [by eexists|split]].
    + cbn [SymEval.visit]. rewrite (M_bind_ok _ _ _ _ _ Hv0), (M_bind_ok _ _ _ _ _ Hv1), (M_bind_ok _ _ _ _ _ Hv2). eapply mux_returns; [done|done|exact Hr0'|exact Hr1'|exact Hr2|].
      by apply Hty.
    + split; [done|]. split; [done|]. split; [done|]. intros e v He Hv. apply Hty. by exists e.
    + intros e He. simpl in He. destruct (expr_of n0) as [e0|]; [|done]. destruct (expr_of n1) as [e1|]; [|done]. destruct (expr_of n2) as [e2|]; [|done].
      injection He as <-. split; [by apply Hc0|]. split; [by apply Hc1|by apply Hc2].
  - intros name s Hs Hcov (x & Hn & Hok & Hty). split; [|split; [|split]].
    + cbn [SymEval.visit]. destruct x as [b|[| | |w sg| | | | | |] z]; simpl in Hty; try done; rewrite Hty; by do 2 eexists.
    + exists x, (PathExpression Type_Unknown name). split; [done|]. simpl. rewrite Hn. destruct x as [b|ty z]; [done|]. simpl in Hok. by rewrite Hok.
    + intros v Hv. rewrite Hn in Hv. by injection Hv as <-.
    + by intros e [= <-].
  - by intros name i _ s _ _ [].
Qed.
End soundness.

(** ** Properties *)




(** *** A small program *)
Definition b8 : Type_ := Type_Bits 8 false.
Definition small_cf : DoConstantFolding := {| refMap := None; typeMap := Some (fun _ => None); warnings := true; constants := ∅ |}.
Definition small_types (n : Node) : SymType := match n with NBinary Lss _ _ _ | NPath "c" _ => T_Boolean | _ => T_Bits 8 false end.
Definition lit8 (z : Z) : Node := NConstant {| ctype := b8; cvalue := z; cbase := 10 |}.
(** [c ? x + 3 : x], where [x] is known to be 7 and [c] is unknown. *)
Definition small_node : Node := NMux b8 (NPath "c" PVariable) (NBinary Add b8 (NPath "x" PVariable) (lit8 3)) (NPath "x" PVariable).
Definition small_sum : Node := NBinary Add b8 (NPath "x" PVariable) (lit8 3).
Definition small_variables : ValueMap := [("x", 1); ("c", 2); ("u", 3)].
Definition small_state : Store :=
  {| objects := {[1 := SymbolicInteger b8 Constant_ (Some {| ctype := b8; cvalue := 7; cbase := 10 |}); 2 := SymbolicBool NotConstant false;
                  3 := SymbolicInteger b8 Uninitialized None]}; crtid := 4 |}.
Definition small_env (name : string) : option value :=
  if String.eqb name "x" then Some (VInt b8 7) else if String.eqb name "c" then Some (VBool true) else None.
Definition small_eval (n : Node) := evaluate small_cf small_types id small_variables 2 n false small_state.

Lemma small_state_ok : store_ok small_state.
Proof.
  split; [done|]. intros l Hl. apply elem_of_dom in Hl as [v Hv]. simpl in *.
  repeat (apply lookup_insert_Some in Hv as [[<- _]|[_ Hv]]; [lia|]). apply lookup_singleton_Some in Hv as [<- _]. lia.
Qed.
Lemma small_covered : covered small_variables small_env small_state.
Proof.
  intros name x Hn. unfold small_env in Hn. destruct (String.eqb_spec name "x") as [->|_].
  { injection Hn as <-. do 2 eexists. split; [reflexivity|]. split; [reflexivity|]. right. split; [done|]. by eexists. }
  destruct (String.eqb_spec name "c") as [->|_]; [|done]. injection Hn as <-. do 2 eexists. split; [reflexivity|]. split; [reflexivity|]. by left.
Qed.
Lemma small_cf_sound : typeMap_sound small_cf small_env /\ refMap_sound small_cf small_env.
Proof. split; [by intros tm e t v [= <-]|by intros gd path t dc cst]. Qed.


(** What the evaluator answers for an expression: the object, if it returns. *)
Definition answer (n : Node) : option SymbolicValue :=
  match small_eval n with Done (l, s') _ => objects s' !! l | Aborted _ => None end.
(** An error in a right operand is lost: [x + (u + 1)], with [u]
    uninitialised, is the constant [x]. *)
Example right_error_lost : answer (NBinary Add b8 (NPath "u" PVariable) (lit8 1)) = Some (SymbolicStaticError "Uninitialized") /\
  answer (NBinary Add b8 (NPath "x" PVariable) (NBinary Add b8 (NPath "u" PVariable) (lit8 1))) =
    Some (SymbolicInteger b8 Constant_ (Some {| ctype := b8; cvalue := 7; cbase := 10 |})).
Proof. split; vm_compute; reflexivity. Qed.
(** A cast loses it as well: the answer is an unknown value. *)
Example cast_error_lost : answer (NCast b8 (NBinary Add b8 (NPath "u" PVariable) (lit8 1))) = Some (SymbolicInteger b8 NotConstant None).
Proof. vm_compute; reflexivity. Qed.
(** The cast of a known [bool] aborts: the method of the unary operations runs
    after that of the cast, and expects a [bool]. *)
Definition cast_cf : DoConstantFolding :=
  {| refMap := None; typeMap := Some (fun e => match e with Cast t _ => Some t | _ => None end); warnings := true; constants := ∅ |}.
Example cast_of_bool_aborts :
  evaluate cast_cf (fun _ => T_Bits 1 false) id [] 2 (NCast (Type_Bits 1 false) (NBoolLiteral true)) false empty_store = Aborted "expected a boolean".
Proof. vm_compute; reflexivity. Qed.
