(* ===== verification/ParserInterp.v ===== *)
(** * Symbolic execution of parsers: [midend/parserUnroll.h], [parserUnroll.cpp]

    [ParserSymbolicInterpreter] explores the states of a parser from [start]: a
    [ParserStateInfo] is a state together with the way it was reached and the
    values of the variables before it.  An entry is not explored when it closes
    a cycle that makes no progress.  The components of a state are evaluated by
    [SymEval.v]; the store is that of [SymValue.v]. *)
From S2P Require Import Prelude Gmp Ir ConstantFolding SymValue SymEval.
Local Open Scope Z_scope.
Local Open Scope flexplan_scope.

(** ** Parsers *)
Inductive StatOrDecl :=
| AssignmentStatement (left right : Node)
| MethodCallStatement (methodCall : Node)
| OtherStatement.
Inductive SelectExpression :=
| NoSelect
| SelectPath (next : string)
| SelectCases (states : list string)
| OtherSelect.
Record ParserState := { components : list StatOrDecl; selectExpression : SelectExpression }.
Inductive ParserLocal :=
| Declaration_Constant (initializer : Node)
| Declaration_Variable (initializer : option Node)
| OtherLocal.
Record Parser := {
  applyParameters : list (string * SymType * Direction);
  parserLocals : list (string * SymType * ParserLocal);
  stateMap : gmap string ParserState;
  start : string
}.

(** ** The states of the exploration *)
Inductive ParserStateInfo := StateInfo (name : string) (predecessor : option ParserStateInfo) (before : ValueMap).
Definition name_of (si : ParserStateInfo) : string := match si with StateInfo n _ _ => n end.
Definition predecessor (si : ParserStateInfo) : option ParserStateInfo := match si with StateInfo _ p _ => p end.
Definition before (si : ParserStateInfo) : ValueMap := match si with StateInfo _ _ b => b end.

(** [ParserInfo]: the infos produced for every state. *)
Definition ParserInfo : Type := gmap string (list ParserStateInfo).
Definition info_get (info : ParserInfo) (origState : string) : list ParserStateInfo := default [] (info !! origState).
Definition info_add (info : ParserInfo) (si : ParserStateInfo) : ParserInfo := <[name_of si := info_get info (name_of si) ++ [si]]> info.

Section interpreter.
Context `{Mpz} (cf : DoConstantFolding) (nodeType : Node -> SymType) (getTypeType : SymType -> SymType) (typeFuel : nat).
Context (parser : Parser) (unroll verbose : bool).

Definition error_ (msg : string) : M unit := fun s => report (DError msg) (tt, s).
Definition warning_ (msg : string) : M unit := fun s => report (DWarning msg) (tt, s).
Definition evaluate_in (valueMap : ValueMap) (n : Node) (leftValue : bool) : M loc :=
  evaluate cf nodeType getTypeType valueMap typeFuel n leftValue.

(** *** [initializeVariables]: the null pointer when an initializer fails *)
Definition init_parameter (result : ValueMap) (p : string * SymType * Direction) : M ValueMap :=
  let '(name, type, direction) := p in
  let initialized := match direction with DirIn | DirInOut => true | _ => false end in
  value ← create getTypeType typeFuel type (negb initialized);
  ValueMap_set result name value.
Definition init_local (result : ValueMap) (d : string * SymType * ParserLocal) : M (option ValueMap) :=
  let '(name, type, decl) := d in
  value ← match decl with
          | Declaration_Constant i | Declaration_Variable (Some i) => evaluate_in result i false
          | _ => mret null
          end;
  value ← (if value =? null then create getTypeType typeFuel type true else mret value);
  v ← deref value;
  if is_SymbolicError v then error_ "initializer";; mret None
  else m ← ValueMap_set result name value; mret (Some m).
Fixpoint init_all {A} (f : ValueMap -> A -> M (option ValueMap)) (result : ValueMap) (l : list A) : M (option ValueMap) :=
  match l with
  | [] => mret (Some result)
  | x :: l => r ← f result x; match r with Some result => init_all f result l | None => mret None end
  end.
Definition initializeVariables : M (option ValueMap) :=
  r ← init_all (fun m p => m ← init_parameter m p; mret (Some m)) [] (applyParameters parser);
  match r with Some m => init_all init_local m (parserLocals parser) | None => mret None end.

(** *** [newStateInfo]: the null pointer is [None] *)
Definition newStateInfo (predecessor : option ParserStateInfo) (stateName : string) (values : ValueMap) (info : ParserInfo)
    : M (option ParserStateInfo * ParserInfo) :=
  if String.eqb stateName "reject" then mret (None, info)
  else
    match stateMap parser !! stateName with
    | None => fail_ "null pointer"
    | Some _ =>
        let fresh := m ← ValueMap_clone values; mret (StateInfo stateName predecessor m) in
        if String.eqb stateName "accept" then
          match last (info_get info stateName) with
          | None => pi ← fresh; mret (None, info_add info pi)
          | Some lastPi => ValueMap_merge (before lastPi) values;; mret (None, info)
          end
        else pi ← fresh; mret (Some pi, if verbose then info_add info pi else info)
    end.

(** *** [reportIfError] *)
(** Whether the state occurs again on the way to this one. *)
Fixpoint occurs (orig : string) (crt : ParserStateInfo) : bool :=
  match crt with
  | StateInfo _ (Some p) _ => String.eqb (name_of p) orig || occurs orig p
  | StateInfo _ None _ => false
  end.
Definition reportIfError (state : ParserStateInfo) (value : loc) : M bool :=
  v ← deref value;
  match v with
  | SymbolicException _ => (if occurs (name_of state) state then mret tt else error_ "error will be triggered");; mret false
  | SymbolicStaticError msg => error_ msg;; mret false
  | _ => mret true
  end.

(** *** [executeStatement] *)
Definition executeStatement (state : ParserStateInfo) (sord : StatOrDecl) (valueMap : ValueMap) : M bool :=
  match sord with
  | AssignmentStatement lefte righte =>
      l ← evaluate_in valueMap lefte true;
      success ← reportIfError state l;
      if negb success then mret false
      else
        r ← evaluate_in valueMap righte false;
        success ← reportIfError state r;
        if negb success then mret false else assign l r;; mret true
  | MethodCallStatement methodCall => e ← evaluate_in valueMap methodCall false; reportIfError state e
  | OtherStatement => fail_ "unexpected declaration or statement"
  end.

(** *** [evaluateSelect] *)
Fixpoint newStateInfos (state : ParserStateInfo) (after : ValueMap) (names : list string) (info : ParserInfo) : M (list ParserStateInfo * ParserInfo) :=
  match names with
  | [] => mret ([], info)
  | n :: names =>
      r ← newStateInfo (Some state) n after info;
      rs ← newStateInfos state after names r.2;
      mret (match r.1 with Some pi => pi :: rs.1 | None => rs.1 end, rs.2)
  end.
Definition evaluateSelect (state : ParserStateInfo) (after : ValueMap) (select : SelectExpression) (info : ParserInfo)
    : M (option (list ParserStateInfo) * ParserInfo) :=
  match select with
  | NoSelect => mret (None, info)
  | SelectPath next => r ← newStateInfos state after [next] info; mret (Some r.1, r.2)
  | SelectCases states => r ← newStateInfos state after states info; mret (Some r.1, r.2)
  | OtherSelect => fail_ "unexpected expression"
  end.

(** *** [headerValidityChanged] *)
(** Stops at the first [x] for which the answer is [true]. *)
Fixpoint existsM {A} (f : A -> M bool) (l : list A) : M bool :=
  match l with
  | [] => mret false
  | x :: l => b ← f x; if b : bool then mret true else existsM f l
  end.
Fixpoint headerValidityChanged (fuel : nat) (first second : loc) : M bool :=
  match fuel with
  | O => fail_ "fuel"
  | S fuel =>
      f ← deref first;
      s ← deref second;
      match f with
      | SymbolicHeader _ _ fvalid | AnyElement _ fvalid _ =>
          match header_parts s with
          | Some (_, svalid) => b ← equals fvalid svalid; mret (negb b)
          | None => fail_ "null pointer"
          end
      | SymbolicArray _ size values =>
          match s with
          | SymbolicArray _ _ svalues =>
              existsM (fun i => x ← get_element values i; y ← get_element svalues i; headerValidityChanged fuel x y) (seq 0 size)
          | _ => fail_ "null pointer"
          end
      | SymbolicStruct _ fs =>
          match struct_fields s with
          | Some sfs => existsM (fun f => y ← field_of sfs f.1; headerValidityChanged fuel f.2 y) fs
          | None => fail_ "null pointer"
          end
      | _ => mret false
      end
  end.
Definition headerValidityChange (before after : ValueMap) : M bool :=
  existsM (fun v => match map_get after v.1 with
                    | Some y => fueled (fun n => headerValidityChanged n v.2 y)
                    | None => fail_ "null pointer"
                    end) before.

(** *** [checkLoops]: only the last entry of the same state counts *)
Definition is_packet (v : SymbolicValue) : bool := match v with SymbolicPacketIn _ _ => true | _ => false end.
Definition packets_of (m : ValueMap) : M ValueMap := ValueMap_filter m (fun _ v => is_packet v).
Fixpoint last_entry (name : string) (crt : ParserStateInfo) : option ParserStateInfo :=
  if String.eqb (name_of crt) name then Some crt
  else match crt with StateInfo _ (Some p) _ => last_entry name p | StateInfo _ None _ => None end.
Definition any_conservative (m : ValueMap) : M bool :=
  existsM (fun p => v ← deref p.2; mret (match v with SymbolicPacketIn _ c => c | _ => false end)) m.
Definition checkLoops (state : ParserStateInfo) : M bool :=
  match p ← predecessor state; last_entry (name_of state) p with
  | None => mret false
  | Some crt =>
      packets ← packets_of (before state);
      prevPackets ← packets_of (before crt);
      same ← ValueMap_equals packets prevPackets;
      if same : bool then
        conservative ← any_conservative packets;
        (if conservative : bool then warning_ "Potential parser cycle without extracting any bytes"
         else error_ "Parser cycle without extracting any bytes");;
        mret true
      else
        changed ← headerValidityChange (before crt) (before state);
        if negb changed then (if unroll then error_ "Parser cycle cannot be unrolled" else mret tt);; mret true
        else mret false
  end.

(** *** [evaluateState], [run] *)
Definition execute_all (state : ParserStateInfo) (valueMap : ValueMap) : list StatOrDecl -> M bool :=
  allM (fun s => executeStatement state s valueMap).
Definition evaluateState (state : ParserStateInfo) (info : ParserInfo) : M (option (list ParserStateInfo) * ParserInfo) :=
  valueMap ← ValueMap_clone (before state);
  match stateMap parser !! name_of state with
  | None => fail_ "null pointer"
  | Some st =>
      success ← execute_all state valueMap (components st);
      if negb success then mret (None, info) else evaluateSelect state valueMap (selectExpression st) info
  end.

(** One round of the loop: the last entry is taken off the worklist [toRun],
    whose head here is its back. *)
Definition run_step (toRun : list ParserStateInfo) (info : ParserInfo) : M (list ParserStateInfo * ParserInfo) :=
  match toRun with
  | [] => mret ([], info)
  | stateInfo :: toRun =>
      infLoop ← checkLoops stateInfo;
      if infLoop : bool then mret (toRun, info)
      else
        r ← evaluateState stateInfo info;
        mret (match r.1 with Some nextStates => rev nextStates ++ toRun | None => toRun end, r.2)
  end.
(** [None]: the loop has not ended after [fuel] rounds. *)
Fixpoint run_loop (fuel : nat) (toRun : list ParserStateInfo) (info : ParserInfo) : M (option ParserInfo) :=
  match toRun with
  | [] => mret (Some info)
  | _ =>
      match fuel with
      | O => mret None
      | S fuel => r ← run_step toRun info; run_loop fuel r.1 r.2
      end
  end.
Definition run (fuel : nat) : M (option ParserInfo) :=
  initMap ← initializeVariables;
  match initMap with
  | None => mret (Some ∅)
  | Some initMap =>
      r ← newStateInfo None (start parser) initMap ∅;
      match r.1 with
      | None => fail_ "null pointer"
      | Some startInfo => run_loop fuel [startInfo] r.2
      end
  end.
End interpreter.
