(* ===== verification/ParserInterpFacts.v ===== *)
(** * The exploration of parsers: what it promises

    Headers and packets under [setValid] and [extract], the entries of the
    [accept] state, and when the exploration ends. *)
From S2P Require Import Prelude Gmp Ir ConstantFolding SymValue SymTree SymRefine SymFacts SymEval SymEvalFacts ParserInterp.
Local Open Scope Z_scope.
Local Open Scope flexplan_scope.

(** ** Headers *)
(** Old objects change in [F] only. *)
Definition changes (s : Store) (F : gset loc) (s' : Store) : Prop :=
  crtid s <= crtid s' /\ (forall x, x < crtid s -> x ∉ F -> objects s' !! x = objects s !! x) /\ store_ok s'.
(** The objects of [G] are those of [F] or new. *)
Definition moved (s : Store) (F : gset loc) (s' : Store) (G : gset loc) : Prop := forall x, x ∈ G -> x ∈ F \/ crtid s <= x < crtid s'.
Lemma changes_refl s F : store_ok s -> changes s F s.
Proof. intros Hs. split; [lia|done]. Qed.
Lemma changes_trans s1 F s2 G s3 : changes s1 F s2 -> moved s1 F s2 G -> changes s2 G s3 -> changes s1 F s3.
Proof.
  intros (H1 & H2 & H3) Hm (H4 & H5 & H6). split; [lia|]. split; [|done]. intros x Hx HF. rewrite H5; [by apply H2|lia|].
  intros HG. apply Hm in HG. destruct HG; [done|lia].
Qed.
Lemma moved_trans s1 F s2 G s3 K : changes s1 F s2 -> changes s2 G s3 -> moved s1 F s2 G -> moved s2 G s3 K -> moved s1 F s3 K.
Proof. intros [H1 _] [H2 _] Hm Hk x Hx. apply Hk in Hx as [Hx|Hx]; [|right; lia]. apply Hm in Hx as [?|?]; [by left|right; lia]. Qed.
Lemma moved_refl s F s' : moved s F s' F.
Proof. intros x Hx. by left. Qed.
Lemma writes_changes s l t F s' : store_ok s -> repr (objects s) l t F -> writes s F s' -> changes s F s'.
Proof.
  intros Hs Hr Hw. split; [destruct Hw as [-> _]; lia|]. split; [|by eapply writes_good]. intros x _ Hx. by apply (proj2 Hw).
Qed.
Lemma changes_repr s F s' l t G : store_ok s -> changes s F s' -> F ## G -> repr (objects s) l t G -> repr (objects s') l t G.
Proof. intros Hs (_ & Hc & _) Hd Hr. eapply repr_frame; [done|]. intros x Hx. apply Hc; [by eapply repr_old|set_solver]. Qed.

(** [setValid] gives a header a new validity. *)
Lemma set_validity s l ty fs valid st b v ts F : store_ok s -> objects s !! l = Some (SymbolicHeader ty fs valid) -> objects s !! valid = Some (SymbolicBool st b) ->
  fields_ok ty fs.*1 -> reprs (objects s) fs.*2 ts F -> l ∉ F ->
  exists s', (b ← alloc (SymbolicBool Constant_ v); o ← deref l;
              match o with SymbolicHeader type fs _ => update l (SymbolicHeader type fs b) | _ => fail_ "not a header" end) s = oret (tt, s') /\
    changes s {[l]} s' /\ crtid s' = crtid s + 1 /\ repr (objects s') l (THeader fs.*1 ts (AKnown v)) ({[l]} ∪ (F ∪ {[crtid s]})).
Proof.
  intros Hs Hl Hv Hok Hr Hnl. pose proof (proj2 Hs _ (elem_of_dom_2 _ _ _ Hl)) as Hlt.
  destruct (alloc_ok (SymbolicBool Constant_ v) s Hs) as (s1 & He & Hx & Hb & Hc). rewrite (M_bind_ok _ _ _ _ _ He).
  assert (Hl1 : objects s1 !! l = Some (SymbolicHeader ty fs valid)) by (rewrite (proj1 (proj2 Hx)); [done|lia]).
  rewrite (M_bind_ok _ _ s1 _ s1) by (by apply deref_ok). eexists. split; [reflexivity|]. cbn [crtid objects].
  assert (Hok1 : store_ok {| objects := <[l := SymbolicHeader ty fs (crtid s)]> (objects s1); crtid := crtid s1 |}).
  { apply (writes_store_ok s1 {[l]}); [apply Hx|by intros x ->%elem_of_singleton; apply elem_of_dom_2 in Hl1|apply update_writes, elem_of_singleton_2; done]. }
  split; [split; [simpl; lia|split; [|done]]|split; [done|]].
  - intros x Hx' Hxl. simpl. rewrite lookup_insert_ne by (intros ->; by apply Hxl, elem_of_singleton_2). apply Hx. done.
  - change (AKnown v) with (aval_of Constant_ v). econstructor; [apply lookup_insert_eq|rewrite lookup_insert_ne by lia; exact Hb|done| |done| |lia].
    + eapply reprs_frame; [eapply extends_reprs; [exact Hx|by eapply reprs_old|exact Hr]|]. intros x Hx'. rewrite lookup_insert_ne; [done|]. intros ->. done.
    + intros Hin. pose proof (reprs_old _ _ _ _ Hs Hr _ Hin). lia.
Qed.

Lemma setAllUnknown_ok s l t F u : store_ok s -> repr (objects s) l t F -> tunknown t = Some u ->
  exists s', setAllUnknown l s = oret (tt, s') /\ writes s F s' /\ repr (objects s') l u F.
Proof. intros Hs Hr Hu. eapply unknown_spec_holds; [done|by eapply repr_fuel|done]. Qed.
(** The header has no known field afterwards when it becomes invalid. *)
Lemma setValid_ok s l ks ts a F v us : store_ok s -> repr (objects s) l (THeader ks ts a) F -> (v = false -> tunknowns ts = Some us) ->
  exists s' G, setValid l v s = oret (tt, s') /\ changes s F s' /\ moved s F s' G /\ repr (objects s') l (THeader ks (if v then ts else us) (AKnown v)) G.
Proof.
  intros Hs Hr Hu.
  assert (Hgo : forall s1 ts1 a1, writes s F s1 -> store_ok s1 -> repr (objects s1) l (THeader ks ts1 a1) F ->
    exists s' G, (b ← alloc (SymbolicBool Constant_ v); o ← deref l;
              match o with SymbolicHeader type fs _ => update l (SymbolicHeader type fs b) | _ => fail_ "not a header" end) s1 = oret (tt, s') /\
      changes s F s' /\ moved s F s' G /\ repr (objects s') l (THeader ks ts1 (AKnown v)) G).
  { intros s1 ts1 a1 Hw Hs1 Hr1. inversion Hr1 as [| |l0 ty fs valid st b ts0 F0 Hl Hv Hok Hrs Hnl Hnv Hlv| |]; subst.
    destruct (set_validity s1 l ty fs valid st b v ts1 F0 Hs1 Hl Hv Hok Hrs Hnl) as (s2 & He & Hch & Hc2 & Hr2).
    exists s2, ({[l]} ∪ (F0 ∪ {[crtid s1]})). split; [exact He|]. split; [|split; [|exact Hr2]].
    - eapply changes_trans; [by eapply writes_changes|apply moved_refl|]. destruct Hch as (H1 & H2 & H3). split; [done|]. split; [|done].
      intros x Hx Hxf. apply H2; [done|]. sets.
    - destruct Hw as [Hcr _]. intros x Hx. rewrite !elem_of_union, !elem_of_singleton in Hx.
      destruct Hx as [->|[Hx| ->]]; [left; set_solver|left; set_solver|right; lia]. }
  inversion Hr as [| |l0 ty fs valid st b ts0 F0 Hl Hv Hok Hrs Hnl Hnv Hlv| |]; subst. unfold setValid. rewrite (M_bind_ok _ _ s _ s) by (by apply deref_ok). cbn beta match.
  destruct v.
  - rewrite (M_bind_ok _ _ s tt s) by done. eapply Hgo; [apply writes_refl|done|exact Hr].
  - assert (Hun : tunknown (THeader fs.*1 ts (aval_of st b)) = Some (THeader fs.*1 us AUnknown)) by (cbn [tunknown]; by rewrite tunknowns_fix, (Hu eq_refl)).
    destruct (setAllUnknown_ok s l _ _ _ Hs Hr Hun) as (s1 & He & Hw & Hr1). rewrite (M_bind_ok _ _ _ _ _ He). eapply Hgo; [done|by eapply writes_good|exact Hr1].
Qed.

(** ** [packet_in.extract] *)
Lemma repr_get s l t F : store_ok s -> repr (objects s) l t F -> exists v, objects s !! l = Some v /\ get l s = oret (v, s).
Proof.
  intros Hs Hr. destruct (objects s !! l) as [v|] eqn:Hl; [|by inversion Hr; simplify_eq]. exists v. split; [done|]. apply get_ok; [|done].
  apply elem_of_dom_2 in Hl. apply Hs in Hl. unfold null. lia.
Qed.
Definition is_known_true (a : aval bool) : bool := match a with AKnown true => true | _ => false end.
Lemma alloc_changes v s F : store_ok s -> exists l s', alloc v s = oret (l, s') /\ objects s' !! l = Some v /\ changes s F s' /\ extends s s'.
Proof.
  intros Hs. destruct (alloc_ok v s Hs) as (s' & He & Hx & Hl & _). exists (crtid s), s'. split; [done|]. split; [done|]. split; [|done].
  split; [apply Hx|]. split; [|apply Hx]. intros x Hx' _. by apply Hx.
Qed.
Lemma moved_old s F s' G x : moved s F s' G -> x < crtid s -> x ∉ F -> x ∉ G.
Proof. intros Hm Hx HF HG. apply Hm in HG as [?|?]; [done|lia]. Qed.

Lemma extract_ok `{Mpz} nodeType getTypeType valueMap typeFuel object n hdr ks ts a F us pkt o c w s :
  store_ok s -> repr (objects s) hdr (THeader ks ts a) F -> tunknowns ts = Some us ->
  map_get valueMap object = Some pkt -> objects s !! pkt = Some (SymbolicPacketIn o c) -> pkt ∉ F ->
  isFixedWidth_ getTypeType typeFuel (nodeType n) = Some true -> getWidth_ getTypeType typeFuel (nodeType n) = Some w -> is_T_Header (nodeType n) = true ->
  exists l s' G, call_extract nodeType getTypeType valueMap typeFuel object [(n, hdr)] s = oret (l, s') /\
    changes s ({[pkt]} ∪ F) s' /\ moved s F s' G /\ objects s' !! pkt = Some (SymbolicPacketIn (wrapu 32 (o + w)) c) /\
    objects s' !! l = Some (if is_known_true a then SymbolicException OverwritingHeader else SymbolicVoid) /\
    repr (objects s') hdr (if is_known_true a then THeader ks ts a else THeader ks us (AKnown true)) G.
Proof.
  intros Hs Hr Hu Hm Hp Hnp Hfix Hwid Hth. destruct (repr_get _ _ _ _ Hs Hr) as (v & Hv & Hg).
  assert (Hpn : pkt <> null) by (apply elem_of_dom_2, (proj2 Hs) in Hp; unfold null; lia).
  pose proof (proj2 Hs _ (elem_of_dom_2 _ _ _ Hp)) as Hpl.
  unfold call_extract. rewrite (M_bind_ok _ _ _ _ _ Hg), Hfix, Hwid. cbn [get_type negb orb].
  rewrite (M_bind_ok _ _ s true s), (M_bind_ok _ _ s w s) by done. rewrite Hth. cbn [negb]. rewrite (M_bind_ok _ _ s (inr w) s) by done. cbn beta match.
  rewrite Hm, (M_bind_ok _ _ s _ s) by (by apply deref_ok). cbn [is_SymbolicError].
  set (s1 := {| objects := <[pkt := SymbolicPacketIn (wrapu 32 (o + w)) c]> (objects s); crtid := crtid s |}).
  assert (Hadv : advance_packet pkt w true s = oret (tt, s1)).
  { unfold advance_packet. rewrite (M_bind_ok _ _ _ _ _ (get_ok _ _ _ Hpn Hp)). cbn [negb]. by rewrite orb_false_r. }
  rewrite (M_bind_ok _ _ _ _ _ Hadv).
  assert (Hw1 : writes s {[pkt]} s1) by (apply update_writes; by apply elem_of_singleton_2).
  assert (Hs1 : store_ok s1) by (apply (writes_store_ok s {[pkt]}); [done|by intros x ->%elem_of_singleton; apply elem_of_dom_2 in Hp|done]).
  assert (Hr1 : repr (objects s1) hdr (THeader ks ts a) F) by (eapply writes_repr; [done| |done]; set_solver).
  assert (Hp1 : objects s1 !! pkt = Some (SymbolicPacketIn (wrapu 32 (o + w)) c)) by apply lookup_insert_eq.
  assert (Hc1 : changes s ({[pkt]} ∪ F) s1).
  { split; [simpl; lia|]. split; [|done]. intros x _ Hx. apply (proj2 Hw1). set_solver. }
  destruct (repr_get _ _ _ _ Hs1 Hr1) as (v1 & Hv1 & Hg1). rewrite (M_bind_ok _ _ _ _ _ Hg1).
  inversion Hr1 as [| |l0 ty fs valid st b ts0 F0 Hl Hva Hok Hrs Hnl Hnv Hlv| |]; subst. rewrite Hl in Hv1. injection Hv1 as <-. cbn [header_parts].
  rewrite (M_bind_ok _ _ s1 _ s1) by (by apply deref_ok). cbn beta match.
  replace (bool_decide (st = Constant_) && b) with (is_known_true (aval_of st b)) by (by destruct st, b). destruct (is_known_true (aval_of st b)).
  - destruct (alloc_changes (SymbolicException OverwritingHeader) s1 ({[pkt]} ∪ ({[hdr]} ∪ (F0 ∪ {[valid]}))) Hs1) as (l & s2 & He & Hl2 & Hc2 & Hx2).
    exists l, s2, ({[hdr]} ∪ (F0 ∪ {[valid]})). split; [done|]. split; [eapply changes_trans; [exact Hc1|apply moved_refl|exact Hc2]|].
    split; [apply moved_refl|]. split; [rewrite (proj1 (proj2 Hx2)); [done|simpl; lia]|]. split; [done|].
    eapply extends_repr; [done|by eapply repr_old|done].
  - assert (Hun : tunknown (THeader fs.*1 ts (aval_of st b)) = Some (THeader fs.*1 us AUnknown)) by (cbn [tunknown]; by rewrite tunknowns_fix, Hu).
    destruct (setAllUnknown_ok s1 hdr _ _ _ Hs1 Hr1 Hun) as (s2 & He2 & Hw2 & Hr2). rewrite (M_bind_ok _ _ _ _ _ He2).
    pose proof (writes_good _ _ _ _ _ Hs1 Hr1 Hw2) as Hs2.
    destruct (setValid_ok s2 hdr _ us AUnknown _ true us Hs2 Hr2 ltac:(done)) as (s3 & G & He3 & Hc3 & Hm3 & Hr3). rewrite (M_bind_ok _ _ _ _ _ He3).
    destruct (alloc_changes SymbolicVoid s3 G (proj2 (proj2 Hc3))) as (l & s4 & He4 & Hl4 & Hc4 & Hx4).
    assert (Hcr2 : crtid s2 = crtid s) by (destruct Hw2 as [-> _]; done).
    assert (Hp3 : objects s3 !! pkt = Some (SymbolicPacketIn (wrapu 32 (o + w)) c)).
    { rewrite (proj1 (proj2 Hc3)); [|lia|done]. by rewrite (proj2 Hw2). }
    exists l, s4, G. split; [done|]. split; [|split; [|split; [|split; [done|]]]].
    + assert (Hc2 : changes s1 ({[hdr]} ∪ (F0 ∪ {[valid]})) s3) by (eapply changes_trans; [by eapply writes_changes|apply moved_refl|exact Hc3]).
      destruct Hc1 as (A1 & A2 & A3), Hc2 as (B1 & B2 & B3), Hc4 as (C1 & C2 & C3). split; [lia|]. split; [|done].
      intros x Hx HxF. rewrite C2; [|destruct Hc3; lia|].
      * rewrite B2; [by apply A2|simpl; lia|set_solver].
      * eapply moved_old; [exact Hm3|lia|set_solver].
    + intros x Hx. apply Hm3 in Hx as [Hx|Hx]; [by left|right]. destruct Hx4 as [Hx4 _]. lia.
    + rewrite (proj1 (proj2 Hx4)); [done|]. destruct Hc3. lia.
    + eapply extends_repr; [done|eapply repr_old; [apply Hc3|exact Hr3]|done].
Qed.

(** ** Partial correctness of programs of the monad *)
(** Every result satisfies [P]. *)
Definition yields {A} (m : M A) (P : A -> Prop) : Prop := forall s a s' ds, m s = Done (a, s') ds -> P a.
Lemma yields_ret {A} (a : A) (P : A -> Prop) : P a -> yields (mret a) P.
Proof. intros Ha s b s' ds He. by injection He as <- _ _. Qed.
Lemma yields_fail {A} why (P : A -> Prop) : yields (fail_ why) P.
Proof. intros s a s' ds He. done. Qed.
Lemma yields_any {A} (m : M A) : yields m (fun _ => True).
Proof. by intros ?????. Qed.
Lemma yields_bind {A B} (m : M A) (k : A -> M B) P Q : yields m P -> (forall a, P a -> yields (k a) Q) -> yields (m ≫= k) Q.
Proof.
  intros Hm Hk s b s' ds He. unfold mbind, M_bind in He. destruct (m s) as [[a s1] ds1|why] eqn:Hms; [|done]. simpl in He.
  destruct (k a s1) as [[b' s2] ds2|why] eqn:Hks; [|done]. injection He as <- <- <-. eapply Hk; [by eapply Hm|done].
Qed.
Lemma yields_skip {A B} (m : M A) (k : A -> M B) Q : (forall a, yields (k a) Q) -> yields (m ≫= k) Q.
Proof. intros Hk. eapply yields_bind; [apply yields_any|]. intros a _. apply Hk. Qed.
Lemma yields_mono {A} (m : M A) (P Q : A -> Prop) : (forall a, P a -> Q a) -> yields m P -> yields m Q.
Proof. intros HPQ Hm s a s' ds He. by eapply HPQ, Hm. Qed.
Create HintDb yields.
#[export] Hint Resolve yields_fail yields_any : yields.

(** ** The exploration *)
Section exploration.
Context `{Mpz} (cf : DoConstantFolding) (nodeType : Node -> SymType) (getTypeType : SymType -> SymType) (typeFuel : nat).
Context (parser : Parser) (unroll verbose : bool).
Local Notation run_ := (run cf nodeType getTypeType typeFuel parser unroll verbose).
Local Notation run_loop_ := (run_loop cf nodeType getTypeType typeFuel parser unroll verbose).
Local Notation run_step_ := (run_step cf nodeType getTypeType typeFuel parser unroll verbose).
Local Notation evaluateState_ := (evaluateState cf nodeType getTypeType typeFuel parser verbose).
Local Notation newStateInfo_ := (newStateInfo parser verbose).

(** The transitions of the parser. *)
Definition select_names (select : SelectExpression) : list string :=
  match select with SelectPath n => [n] | SelectCases ns => ns | NoSelect | OtherSelect => [] end.
Definition successors (name : string) : list string :=
  match stateMap parser !! name with Some st => select_names (selectExpression st) | None => [] end.
(** An info whose chain of predecessors is a path from the start. *)
Inductive explored : ParserStateInfo -> Prop :=
| explored_start b : explored (StateInfo (start parser) None b)
| explored_step p n b : explored p -> n ∈ successors (name_of p) -> explored (StateInfo n (Some p) b).
(** What the infos collected so far satisfy. *)
Definition info_ok (info : ParserInfo) : Prop :=
  (length (info_get info "accept") <= 1)%nat /\
  forall n si, si ∈ info_get info n -> name_of si = n /\ explored si /\ n <> "reject" /\ (verbose = false -> n = "accept").

Lemma info_get_add info si n : info_get (info_add info si) n = if String.eqb n (name_of si) then info_get info n ++ [si] else info_get info n.
Proof.
  unfold info_get, info_add, ParserInfo in *. destruct (String.eqb_spec n (name_of si)) as [->|Hn]; [by rewrite lookup_insert_eq|by rewrite lookup_insert_ne].
Qed.
Lemma info_get_empty n : info_get ∅ n = [].
Proof. unfold info_get, ParserInfo. by rewrite lookup_empty. Qed.
Lemma info_ok_empty : info_ok ∅.
Proof. split; [rewrite info_get_empty; simpl; lia|]. intros n si. rewrite info_get_empty. set_solver. Qed.
Lemma info_ok_add info si : info_ok info -> explored si -> name_of si <> "reject" ->
  (name_of si = "accept" -> info_get info "accept" = []) -> (verbose = false -> name_of si = "accept") -> info_ok (info_add info si).
Proof.
  intros [Hone Hall] Hx Hrej Hacc Hv. split.
  - rewrite info_get_add. destruct (String.eqb_spec "accept" (name_of si)) as [Heq|_]; [|done]. by rewrite Hacc.
  - intros n si' Hin. rewrite info_get_add in Hin. destruct (String.eqb_spec n (name_of si)) as [->|_]; [|by apply Hall].
    apply elem_of_app in Hin as [Hin| ->%list_elem_of_singleton]; [by apply Hall|done].
Qed.

Lemma newStateInfo_yields p n values info : info_ok info -> (forall b, explored (StateInfo n p b)) ->
  yields (newStateInfo_ p n values info) (fun r => info_ok r.2 /\ forall si, r.1 = Some si -> explored si /\ name_of si = n).
Proof.
  intros Hi Hx. unfold newStateInfo. destruct (String.eqb_spec n "reject") as [->|Hrej]; [by apply yields_ret|].
  destruct (stateMap parser !! n) as [st|]; [|auto with yields].
  assert (Hfresh : yields (m ← ValueMap_clone values; mret (StateInfo n p m)) (fun pi => explored pi /\ name_of pi = n))
    by (apply yields_skip; intros m; by apply yields_ret).
  destruct (String.eqb_spec n "accept") as [->|Hacc].
  - destruct (last (info_get info "accept")) as [lastPi|] eqn:Hl; [apply yields_skip; intros _; by apply yields_ret|].
    eapply yields_bind; [exact Hfresh|]. intros pi [Hpi Hn]. apply yields_ret. split; [|done].
    apply info_ok_add; [done|done|by rewrite Hn| |done]. intros _. by apply last_None.
  - eapply yields_bind; [exact Hfresh|]. intros pi [Hpi Hn]. apply yields_ret. simpl. split; [|by intros si [= <-]].
    destruct verbose eqn:Hv; [|done]. apply info_ok_add; [done|done|by rewrite Hn| |by rewrite Hv]. by rewrite Hn.
Qed.
Lemma newStateInfos_yields state after names : explored state -> (forall n, n ∈ names -> n ∈ successors (name_of state)) -> forall info, info_ok info ->
  yields (newStateInfos parser verbose state after names info) (fun r => info_ok r.2 /\ Forall explored r.1 /\ name_of <$> r.1 `sublist_of` names).
Proof.
  intros Hst. induction names as [|n names IH]; intros Hn info Hi; [apply yields_ret; by split; [|split; [constructor|constructor]]|].
  cbn [newStateInfos]. eapply yields_bind; [apply newStateInfo_yields; [done|]|].
  - intros b. apply explored_step; [done|]. apply Hn. set_solver.
  - intros [o info1] [Hi1 Ho]. cbn [fst snd] in *. eapply yields_bind; [apply IH; [set_solver|done]|]. intros [rs info2] (Hi2 & Hf & Hs). apply yields_ret.
    split; [done|]. destruct o as [pi|]; cbn [fst snd] in *.
    + destruct (Ho pi eq_refl) as [Hx <-]. split; [by constructor|]. by apply sublist_skip.
    + split; [done|]. by apply sublist_cons.
Qed.
Lemma evaluateState_yields state info : explored state -> info_ok info ->
  yields (evaluateState_ state info) (fun r => info_ok r.2 /\ Forall explored (default [] r.1) /\ name_of <$> default [] r.1 `sublist_of` successors (name_of state)).
Proof.
  intros Hx Hi. unfold evaluateState. apply yields_skip. intros valueMap. destruct (stateMap parser !! name_of state) as [st|] eqn:Hst; [|auto with yields].
  assert (Hnone : info_ok info /\ Forall explored [] /\ name_of <$> [] `sublist_of` successors (name_of state)) by (split; [done|split; [constructor|apply sublist_nil_l]]).
  apply yields_skip. intros [|]; [|by apply yields_ret]. cbn [negb].
  assert (Hgo : forall names, select_names (selectExpression st) = names -> yields (r ← newStateInfos parser verbose state valueMap names info; mret (Some r.1, r.2))
      (fun r => info_ok r.2 /\ Forall explored (default [] r.1) /\ name_of <$> default [] r.1 `sublist_of` successors (name_of state))).
  { intros names Hn. assert (Hsu : successors (name_of state) = names) by (unfold successors; by rewrite Hst). rewrite Hsu.
    eapply yields_bind; [apply newStateInfos_yields; [done|by rewrite Hsu|done]|]. intros r Hr. by apply yields_ret. }
  unfold evaluateSelect. destruct (selectExpression st) as [|next|states|] eqn:Hse; [by apply yields_ret|by apply Hgo|by apply Hgo|auto with yields].
Qed.
Lemma run_step_yields si toRun info : Forall explored (si :: toRun) -> info_ok info ->
  yields (run_step_ (si :: toRun) info) (fun r => info_ok r.2 /\ Forall explored r.1 /\
    exists new, r.1 = new ++ toRun /\ exists names, names `sublist_of` successors (name_of si) /\ name_of <$> new ≡ₚ names).
Proof.
  intros [Hx Hf]%Forall_cons Hi. cbn [run_step]. apply yields_skip. intros [|].
  - apply yields_ret. split; [done|]. split; [done|]. exists []. split; [done|]. exists []. split; [apply sublist_nil_l|done].
  - eapply yields_bind; [by apply evaluateState_yields|]. intros [next info1] (Hi1 & Hn & Hs). apply yields_ret. cbn [fst snd] in *. split; [done|].
    destruct next as [ns|]; cbn [default] in *.
    + split; [apply Forall_app; split; [by apply Forall_rev|done]|]. exists (rev ns). split; [done|]. exists (name_of <$> ns). split; [done|]. by rewrite <- Permutation_rev.
    + split; [done|]. exists []. split; [done|]. by exists [].
Qed.

Lemma run_loop_yields fuel : forall toRun info, Forall explored toRun -> info_ok info ->
  yields (run_loop_ fuel toRun info) (fun r => forall info', r = Some info' -> info_ok info').
Proof.
  induction fuel as [|fuel IH]; intros [|si toRun] info Hf Hi; try (apply yields_ret; by intros info' [= <-]).
  cbn [run_loop]. eapply yields_bind; [by apply run_step_yields|]. intros r (Hi1 & Hf1 & _). by apply IH.
Qed.

(** How long the exploration of acyclic parsers takes. *)
Fixpoint paths (k : nat) (name : string) : nat :=
  match k with O => 1 | S k => S (sum_list (paths k <$> successors name)) end.
Lemma sum_list_mono {A} (f g : A -> nat) l : (forall x, x ∈ l -> (f x <= g x)%nat) -> (sum_list (f <$> l) <= sum_list (g <$> l))%nat.
Proof. intros Hfg. induction l as [|x l IH]; [done|]. rewrite !fmap_cons. simpl. pose proof (Hfg x ltac:(set_solver)). assert (sum_list (f <$> l) <= sum_list (g <$> l))%nat by (apply IH; set_solver). lia. Qed.
Lemma paths_mono k k' name : (k <= k')%nat -> (paths k name <= paths k' name)%nat.
Proof.
  revert k' name. induction k as [|k IH]; intros [|k'] name Hk; simpl; try lia. apply le_n_S, sum_list_mono. intros x _. apply IH. lia.
Qed.
Lemma sum_list_sublist {A} (f : A -> nat) l k : l `sublist_of` k -> (sum_list (f <$> l) <= sum_list (f <$> k))%nat.
Proof. induction 1; rewrite ?fmap_cons; simpl in *; lia. Qed.
Lemma sum_list_perm {A} (f : A -> nat) l k : l ≡ₚ k -> sum_list (f <$> l) = sum_list (f <$> k).
Proof. induction 1; rewrite ?fmap_cons; simpl in *; lia. Qed.

Section acyclic.
Context (rank : string -> nat) (Hrank : forall n m, m ∈ successors n -> (rank m < rank n)%nat).
(** The rounds left for an entry of the worklist: its paths. *)
Definition rounds (n : string) : nat := paths (rank n) n.
Lemma rounds_succ n names : names `sublist_of` successors n -> (sum_list (rounds <$> names) < rounds n)%nat.
Proof.
  intros Hs. unfold rounds at 2. destruct (rank n) as [|k] eqn:Hk.
  - destruct names as [|m names]; [simpl; lia|]. assert (Hm : m ∈ successors n) by (by eapply elem_of_sublist; [apply list_elem_of_here|]). apply Hrank in Hm. lia.
  - cbn [paths]. apply (sum_list_sublist rounds) in Hs. enough (sum_list (rounds <$> successors n) <= sum_list (paths k <$> successors n))%nat by lia.
    apply sum_list_mono. intros m Hm. apply paths_mono. apply Hrank in Hm. lia.
Qed.
Lemma run_loop_ends fuel : forall toRun info, Forall explored toRun -> info_ok info -> (sum_list (rounds <$> (name_of <$> toRun)) <= fuel)%nat ->
  yields (run_loop_ fuel toRun info) (fun r => exists info', r = Some info').
Proof.
  induction fuel as [|fuel IH]; intros [|si toRun] info Hf Hi Hw; try (apply yields_ret; by exists info).
  - exfalso. rewrite !fmap_cons in Hw. simpl in Hw. pose proof (rounds_succ (name_of si) [] (sublist_nil_l _)). simpl in *. lia.
  - cbn [run_loop]. eapply yields_bind; [by apply run_step_yields|]. intros r (Hi1 & Hf1 & new & Hr & names & Hs & Hp). apply IH; [done|done|]. rewrite Hr.
    apply rounds_succ in Hs. apply (sum_list_perm rounds) in Hp. rewrite !fmap_cons in Hw. rewrite !fmap_app, sum_list_with_app. simpl in Hw. lia.
Qed.
Lemma run_ends fuel : (rounds (start parser) <= fuel)%nat -> yields (run_ fuel) (fun r => exists info, r = Some info).
Proof.
  intros Hf. unfold run. apply yields_skip. intros [initMap|]; [|apply yields_ret; by eexists].
  eapply yields_bind; [apply newStateInfo_yields; [apply info_ok_empty|apply explored_start]|]. intros [[si|] info] [Hi Hsi]; [|apply yields_fail].
  destruct (Hsi si eq_refl) as [Hx Hn]. apply run_loop_ends; [by constructor|done|]. simpl. rewrite Hn. lia.
Qed.
End acyclic.

(** C24. Whatever the parser, the exploration collects at most one entry for
    [accept], and the entries it collects are reached by paths of the parser
    from its start state; unless it is verbose they are those of [accept]. *)
Theorem run_collects_paths fuel s info s' ds : run_ fuel s = Done (Some info, s') ds -> info_ok info.
Proof.
  intros He. cut (yields (run_ fuel) (fun r => forall info', r = Some info' -> info_ok info')); [intros Hy; by eapply Hy|]. unfold run.
  apply yields_skip. intros [initMap|]; [|apply yields_ret; intros info' [= <-]; apply info_ok_empty].
  eapply yields_bind; [apply newStateInfo_yields; [apply info_ok_empty|apply explored_start]|]. intros [[si|] info1] [Hi Hsi]; [|apply yields_fail].
  destruct (Hsi si eq_refl) as [Hx _]. apply run_loop_yields; [by constructor|done].
Qed.

(** C16. On a parser whose transitions have no cycle the exploration ends, after
    at most as many rounds as there are paths from the start state. *)
Theorem run_terminates rank fuel s r s' ds : (forall n m, m ∈ successors n -> (rank m < rank n)%nat) -> (paths (rank (start parser)) (start parser) <= fuel)%nat ->
  run_ fuel s = Done (r, s') ds -> exists info, r = Some info.
Proof. intros Hrank Hf He. by eapply (run_ends rank Hrank fuel). Qed.
End exploration.

(** ** Examples *)
Definition wire_header : SymType := T_Header "h" [("x", T_Bits 8 false)].
Definition variable (n : string) : Node := NPath n PVariable.
Definition extract_into (n : string) : StatOrDecl :=
  MethodCallStatement (NMethodCall (ExternMethod "packet_in" "extract" "pkt" [DirOut] None) [variable n]).
Definition no_folding : DoConstantFolding := {| refMap := None; typeMap := Some (fun _ => None); warnings := true; constants := ∅ |}.
Definition parser_of (locals : list string) (states : gmap string ParserState) : Parser :=
  {| applyParameters := [("pkt", T_Extern "packet_in", DirNone)];
     parserLocals := (fun n => (n, wire_header, OtherLocal)) <$> locals; stateMap := states; start := "start" |}.
Definition explore (p : Parser) (fuel : nat) : outcome (option ParserInfo * Store) :=
  run no_folding (fun _ => wire_header) id 3 p false false fuel empty_store.

(** Two ways to [accept], one of them over a second header. *)
Definition branching : Parser := parser_of ["h1"; "h2"]
  {["start" := {| components := [extract_into "h1"]; selectExpression := SelectCases ["more"; "accept"] |};
    "more" := {| components := [extract_into "h2"]; selectExpression := SelectPath "accept" |};
    "accept" := {| components := []; selectExpression := NoSelect |}]}.
Lemma branching_run : exists info s', explore branching 6 = Done (Some info, s') [] /\ name_of <$> info_get info "accept" = ["accept"].
Proof. vm_compute. by do 2 eexists. Qed.
Definition branching_rank (n : string) : nat := if String.eqb n "start" then 2 else if String.eqb n "more" then 1 else 0.
Lemma branching_acyclic n m : m ∈ successors branching n -> (branching_rank m < branching_rank n)%nat.
Proof.
  unfold successors. destruct (stateMap branching !! n) as [st|] eqn:Hn; [|set_solver]. unfold branching, parser_of in Hn. cbn [stateMap] in Hn.
  repeat (apply lookup_insert_Some in Hn as [[<- <-]|[_ Hn]]; [simpl; set_unfold; intuition (subst; vm_compute; lia)|]).
  apply lookup_singleton_Some in Hn as [<- <-]. set_solver.
Qed.

(** The store of [SymFacts.v] with a packet. *)
Definition packet_store : Store := {| objects := <[7 := SymbolicPacketIn 16 false]> (objects small_store); crtid := 8 |}.
Lemma packet_store_ok : store_ok packet_store.
Proof.
  split; [done|]. intros l Hl. unfold packet_store in *. cbn [objects crtid] in *. rewrite dom_insert in Hl.
  apply elem_of_union in Hl as [->%elem_of_singleton|Hl]; [lia|]. apply small_store_ok in Hl. simpl in Hl. lia.
Qed.
Lemma run_collects_paths_witness : exists info s', explore branching 6 = Done (Some info, s') [] /\ info_ok branching false info.
Proof.
  destruct branching_run as (info & s' & He & _). exists info, s'. split; [exact He|].
  unfold explore in He. by apply run_collects_paths in He.
Defined.
Lemma run_terminates_witness : exists info s', explore branching 4 = Done (Some info, s') [].
Proof.
  assert (Hr : exists r s', explore branching 4 = Done (r, s') []) by (vm_compute; by do 2 eexists). destruct Hr as (r & s' & Hr). unfold explore in *.
  destruct (run_terminates no_folding (fun _ => wire_header) id 3 branching false false branching_rank 4 empty_store r s' []
    branching_acyclic ltac:(vm_compute; lia) Hr) as [info ->]. by exists info, s'.
Defined.

(** An entry is compared with the last entry of the same state only, so a state
    that swaps the validity of two headers is explored on and on: the
    exploration has not ended after 12 rounds. *)
Definition swapping : Parser := parser_of ["h1"; "h2"; "h3"; "t"]
  {["start" := {| components := [extract_into "h1"]; selectExpression := SelectPath "again" |};
    "again" := {| components := [AssignmentStatement (variable "t") (variable "h1"); AssignmentStatement (variable "h1") (variable "h2");
                                 AssignmentStatement (variable "h2") (variable "t"); extract_into "h3";
                                 MethodCallStatement (NMethodCall (BuiltInMethod "setInvalid" (variable "h3")) [])];
                  selectExpression := SelectPath "again" |}]}.
Example swapping_goes_on : exists s', explore swapping 12 = Done (None, s') [].
Proof. vm_compute. by eexists. Qed.
