(* ===== verification/TypeSubst.v ===== *)
(** * Types with variables: [frontends/p4/typeChecking/typeSubstitution*],
    [frontends/p4/typeMap.cpp]

    The canonical types the type checker compares, the equivalence of
    types, and substitutions of type variables.  A type variable is one object
    per declaration, known by its name and its [declid].  The contents of externs
    (their methods) play no part in any comparison and are left out, and so is
    the type of tables. *)
From S2P Require Import Prelude Ir.
Local Open Scope flexplan_scope.

(** ** Types *)
(** [ITypeVar]: type variables, and the type of integer literals. *)
Inductive ITypeVar :=
| Type_Var (name : string) (declid : Z)
| Type_InfInt_ (declid : Z).
#[global] Instance ITypeVar_eq_dec : EqDecision ITypeVar.
Proof. solve_decision. Defined.
#[global] Instance ITypeVar_countable : Countable ITypeVar.
Proof.
  refine (inj_countable' (fun v => match v with Type_Var n i => inl (n, i) | Type_InfInt_ i => inr i end)
    (fun s => match s with inl (n, i) => Type_Var n i | inr i => Type_InfInt_ i end) _).
  by intros [].
Defined.
Definition is_InfInt (v : ITypeVar) : bool := match v with Type_InfInt_ _ => true | _ => false end.

(** [Type_Base] *)
Inductive BaseType := B_Boolean | B_State | B_Bits (size : Z) (isSigned : bool) | B_Varbits (size : Z) | B_Dontcare | B_Void | B_MatchKind | B_String | B_Unknown.
#[global] Instance BaseType_eq_dec : EqDecision BaseType.
Proof. solve_decision. Defined.
Inductive StructKind := K_Struct | K_Header | K_HeaderUnion | K_UnknownStruct.
#[global] Instance StructKind_eq_dec : EqDecision StructKind.
Proof. solve_decision. Defined.
Inductive BlockKind := K_Package | K_Parser | K_Control.
#[global] Instance BlockKind_eq_dec : EqDecision BlockKind.
Proof. solve_decision. Defined.
Inductive MethodKind := K_Method | K_Action.
#[global] Instance MethodKind_eq_dec : EqDecision MethodKind.
Proof. solve_decision. Defined.
(** A parameter without its type; an argument of a call without its type, whose
    name is empty when the argument is positional. *)
Record ParamInfo := { pname : string; direction : Direction; isOptional : bool; hasDefault : bool }.
Record ArgInfo := { aname : string; leftValue : bool; compileTimeConstant : bool }.

Inductive IRType :=
| Ty_Base (b : BaseType)
| Ty_Var (v : ITypeVar)
| Ty_Type (type : IRType)
| Ty_Newtype (name : string) (declid : Z) (type : IRType)
| Ty_Error
| Ty_Stack (elementType : IRType) (size : option Z)
| Ty_Enum (name : string)
| Ty_SerEnum (name : string)
| Ty_StructLike (kind : StructKind) (name : string) (fields : list (string * IRType))
| Ty_Tuple (components : list IRType)
| Ty_Set (elementType : IRType)
| Ty_ArchBlock (kind : BlockKind) (name : string) (typeParameters : list ITypeVar) (parameters : list (ParamInfo * IRType))
| Ty_SpecializedCanonical (baseType : IRType) (arguments : list IRType) (substituted : IRType)
| Ty_ActionEnum (actionList : Z)
| Ty_Method (kind : MethodKind) (typeParameters : list ITypeVar) (returnType : option IRType) (parameters : list (ParamInfo * IRType))
| Ty_MethodCall (typeArguments : list IRType) (returnType : ITypeVar) (arguments : list (ArgInfo * IRType))
| Ty_Extern (name : string)
| Ty_Name (path : string)
| Ty_Typedef (name : string) (type : IRType).

Section IRType_induction.
Context (P : IRType -> Prop).
Hypothesis (Hbase : forall b, P (Ty_Base b)) (Hvar : forall v, P (Ty_Var v)) (Htype : forall t, P t -> P (Ty_Type t))
  (Hnew : forall n i t, P t -> P (Ty_Newtype n i t)) (Herror : P Ty_Error) (Hstack : forall t n, P t -> P (Ty_Stack t n))
  (Henum : forall n, P (Ty_Enum n)) (Hserenum : forall n, P (Ty_SerEnum n))
  (Hstruct : forall k n fs, Forall (fun f => P f.2) fs -> P (Ty_StructLike k n fs)) (Htuple : forall ts, Forall P ts -> P (Ty_Tuple ts))
  (Hset : forall t, P t -> P (Ty_Set t)) (Hblock : forall k n tps ps, Forall (fun p => P p.2) ps -> P (Ty_ArchBlock k n tps ps))
  (Hspec : forall b args s, P b -> Forall P args -> P s -> P (Ty_SpecializedCanonical b args s)) (Haction : forall a, P (Ty_ActionEnum a))
  (Hmethod : forall k tps r ps, (forall t, r = Some t -> P t) -> Forall (fun p => P p.2) ps -> P (Ty_Method k tps r ps))
  (Hcall : forall targs r args, Forall P targs -> Forall (fun a => P a.2) args -> P (Ty_MethodCall targs r args))
  (Hextern : forall n, P (Ty_Extern n)) (Hname : forall n, P (Ty_Name n)) (Htypedef : forall n t, P t -> P (Ty_Typedef n t)).
Fixpoint IRType_induction (t : IRType) : P t :=
  let all := fix all ts : Forall P ts := match ts with [] => Forall_nil_2 P | t :: ts => Forall_cons_2 P t ts (IRType_induction t) (all ts) end in
  let alls {A} := fix alls (ts : list (A * IRType)) : Forall (fun p => P p.2) ts :=
    match ts with [] => Forall_nil_2 _ | t :: ts => Forall_cons_2 (fun p => P p.2) t ts (IRType_induction t.2) (alls ts) end in
  match t with
  | Ty_Base b => Hbase b
  | Ty_Var v => Hvar v
  | Ty_Type t => Htype t (IRType_induction t)
  | Ty_Newtype n i t => Hnew n i t (IRType_induction t)
  | Ty_Error => Herror
  | Ty_Stack t n => Hstack t n (IRType_induction t)
  | Ty_Enum n => Henum n
  | Ty_SerEnum n => Hserenum n
  | Ty_StructLike k n fs => Hstruct k n fs (alls fs)
  | Ty_Tuple ts => Htuple ts (all ts)
  | Ty_Set t => Hset t (IRType_induction t)
  | Ty_ArchBlock k n tps ps => Hblock k n tps ps (alls ps)
  | Ty_SpecializedCanonical b args s => Hspec b args s (IRType_induction b) (all args) (IRType_induction s)
  | Ty_ActionEnum a => Haction a
  | Ty_Method k tps r ps => Hmethod k tps r ps (match r with Some t => fun u (e : Some t = Some u) => match e with eq_refl => IRType_induction t end | None => fun u e => match e with eq_refl => I end end) (alls ps)
  | Ty_MethodCall targs r args => Hcall targs r args (all targs) (alls args)
  | Ty_Extern n => Hextern n
  | Ty_Name n => Hname n
  | Ty_Typedef n t => Htypedef n t (IRType_induction t)
  end.
End IRType_induction.

(** ** [TypeMap::equivalent] *)
(** [Type_Stack::getSize]; [None] is a size that is not a constant yet. *)
Definition getSize (size : option Z) : outcome Z :=
  match size with
  | None => Aborted "Size not yet known"
  | Some n =>
      if negb ((- 2 ^ 31 <=? n) && (n <? 2 ^ 31))%Z then report (DError "Index too large") 0%Z
      else if (n <=? 0)%Z then report (DError "Illegal array size") (wrapu 32 n) else oret n
  end.
Definition unknown_size : outcome bool := report (DError "Size of header stack type should be a constant") false.
(** [f] on corresponding elements of two lists of one length, up to the first
    pair on which it answers [false]. *)
Definition oall2 {A} (f : A -> A -> outcome bool) : list A -> list A -> outcome bool :=
  fix go xs ys := match xs, ys with
                  | x :: xs, y :: ys => do b <- f x y; if b : bool then go xs ys else oret false
                  | _, _ => oret true
                  end.
(** On types of different classes, and on types that are not expected, the
    match falls through. *)
Fixpoint equivalent (left right : IRType) {struct left} : outcome bool :=
  let same_length {A B} (xs : list A) (ys : list B) := (length xs =? length ys)%nat in
  match left, right with
  | Ty_Base b, Ty_Base b' => oret (bool_decide (b = b'))
  | Ty_Newtype _ i _, Ty_Newtype _ i' _ => oret (i =? i')%Z
  | Ty_Type t, Ty_Type t' => equivalent t t'
  | Ty_Error, Ty_Error => oret true
  | Ty_Var v, Ty_Var v' => oret (bool_decide (v = v'))
  | Ty_Stack t n, Ty_Stack t' n' =>
      match n, n' with
      | None, _ | _, None => unknown_size
      | Some _, Some _ => do b <- equivalent t t'; if b : bool then do s <- getSize n; do s' <- getSize n'; oret (s =? s')%Z else oret false
      end
  | Ty_Enum n, Ty_Enum n' => oret (String.eqb n n')
  | Ty_SerEnum n, Ty_SerEnum n' => oret (String.eqb n n')
  | Ty_StructLike k _ fs, Ty_StructLike k' _ fs' =>
      if negb (bool_decide (k = k')) then oret false
      else if same_length fs fs' then oall2 (fun f f' => if String.eqb f.1 f'.1 then equivalent f.2 f'.2 else oret false) fs fs' else oret false
  | Ty_Tuple ts, Ty_Tuple ts' => if same_length ts ts' then oall2 equivalent ts ts' else oret false
  | Ty_Set t, Ty_Set t' => equivalent t t'
  | Ty_ArchBlock k _ tps ps, Ty_ArchBlock k' _ tps' ps' =>
      if negb (bool_decide (k = k')) then oret false
      else if bool_decide (k = K_Package) && negb (bool_decide (tps = tps')) then oret false
      else if same_length ps ps'
           then oall2 (fun p p' => if bool_decide (direction p.1 = direction p'.1) then equivalent p.2 p'.2 else oret false) ps ps'
           else oret false
  | Ty_SpecializedCanonical _ _ s, Ty_SpecializedCanonical _ _ s' => equivalent s s'
  | Ty_ActionEnum a, Ty_ActionEnum a' => oret (a =? a')%Z
  | Ty_Method k tps r ps, Ty_Method k' tps' r' ps' =>
      if negb (bool_decide (k = k')) then oret false
      else if negb (bool_decide (tps = tps')) then oret false
      else do b <- match r, r' with None, None => oret true | Some t, Some t' => equivalent t t' | _, _ => oret false end;
           if negb b then oret false
           else if same_length ps ps'
                then oall2 (fun p p' => if bool_decide (direction p.1 = direction p'.1) then equivalent p.2 p'.2 else oret false) ps ps'
                else oret false
  | Ty_Extern n, Ty_Extern n' => oret (String.eqb n n')
  | Ty_MethodCall _ _ _, Ty_MethodCall _ _ _ | Ty_Name _, Ty_Name _ | Ty_Typedef _ _, Ty_Typedef _ _ => Aborted "Unexpected type check for equivalence"
  | _, _ => oret false
  end.

(** ** Substitutions: [TypeSubstitution], [TypeVariableSubstitution] *)
Definition TypeVariableSubstitution : Type := gmap ITypeVar IRType.
Implicit Types (binding : TypeVariableSubstitution).
Definition containsKey binding (v : ITypeVar) : bool := match binding !! v with Some _ => true | None => false end.

(** [TypeOccursVisitor] *)
Fixpoint occurs_in (v : ITypeVar) (t : IRType) : bool :=
  let any := existsb (occurs_in v) in
  let anys {A} (ts : list (A * IRType)) := existsb (fun p => occurs_in v p.2) ts in
  let bound tps := existsb (fun w => bool_decide (w = v)) tps in
  match t with
  | Ty_Var w => bool_decide (w = v)
  | Ty_Type t | Ty_Newtype _ _ t | Ty_Stack t _ | Ty_Set t | Ty_Typedef _ t => occurs_in v t
  | Ty_StructLike _ _ fs => anys fs
  | Ty_Tuple ts => any ts
  | Ty_ArchBlock _ _ tps ps => bound tps || anys ps
  | Ty_SpecializedCanonical b args s => occurs_in v b || any args || occurs_in v s
  | Ty_Method _ tps r ps => bound tps || match r with Some t => occurs_in v t | None => false end || anys ps
  | Ty_MethodCall targs r args => any targs || bool_decide (r = v) || anys args
  | Ty_Base _ | Ty_Error | Ty_Enum _ | Ty_SerEnum _ | Ty_ActionEnum _ | Ty_Extern _ | Ty_Name _ => false
  end.

(** [TypeVariableSubstitutionVisitor] with [replace] false: variables become
    what [f] says, and the type parameters that [f] replaces are removed.  The
    variable of a call's result is left alone; calls are not substituted in. *)
Fixpoint tsubst (f : ITypeVar -> option IRType) (t : IRType) : IRType :=
  let all := map (tsubst f) in
  let alls {A} (ts : list (A * IRType)) := map (fun p => (p.1, tsubst f p.2)) ts in
  let free (tps : list ITypeVar) := List.filter (fun v => match f v with None => true | Some _ => false end) tps in
  match t with
  | Ty_Var v => default t (f v)
  | Ty_Type t => Ty_Type (tsubst f t)
  | Ty_Newtype n i t => Ty_Newtype n i (tsubst f t)
  | Ty_Stack t n => Ty_Stack (tsubst f t) n
  | Ty_Set t => Ty_Set (tsubst f t)
  | Ty_Typedef n t => Ty_Typedef n (tsubst f t)
  | Ty_StructLike k n fs => Ty_StructLike k n (alls fs)
  | Ty_Tuple ts => Ty_Tuple (all ts)
  | Ty_ArchBlock k n tps ps => Ty_ArchBlock k n (free tps) (alls ps)
  | Ty_SpecializedCanonical b args s => Ty_SpecializedCanonical (tsubst f b) (all args) (tsubst f s)
  | Ty_Method k tps r ps => Ty_Method k (free tps) (match r with Some t => Some (tsubst f t) | None => None end) (alls ps)
  | Ty_MethodCall targs r args => Ty_MethodCall (all targs) r (alls args)
  | Ty_Base _ | Ty_Error | Ty_Enum _ | Ty_SerEnum _ | Ty_ActionEnum _ | Ty_Extern _ | Ty_Name _ => t
  end.
(** [replacement]: variables bound to variables are followed; [fuel] bounds the
    chain, which the source takes to have no cycle. *)
Fixpoint replacement (fuel : nat) binding (current : ITypeVar) : option IRType :=
  match binding !! current with
  | None => None
  | Some type =>
      match type, fuel with
      | Ty_Var w, S fuel => Some (default type (replacement fuel binding w))
      | _, _ => Some type
      end
  end.
(** The children of a replacement are visited as well. *)
Fixpoint apply_fuel (fuel : nat) binding : IRType -> IRType :=
  tsubst (fun v => match replacement (size binding) binding v, fuel with
                   | Some (Ty_Var w), _ => Some (Ty_Var w)
                   | Some t, S fuel => Some (apply_fuel fuel binding t)
                   | r, _ => r
                   end).
Definition apply_subst binding : IRType -> IRType := apply_fuel (size binding) binding.

(** [compose]: [None] for [false]. *)
Fixpoint strip_Newtype (t : IRType) : IRType := match t with Ty_Newtype _ _ t => strip_Newtype t | _ => t end.
Definition is_int_type (t : IRType) : bool := match t with Ty_Var (Type_InfInt_ _) | Ty_Base (B_Bits _ _) => true | _ => false end.
Definition compose binding (var : ITypeVar) (substitution : IRType) : outcome (option TypeVariableSubstitution) :=
  match substitution with
  | Ty_Base B_Dontcare => oret (Some binding)
  | _ =>
      let substitution := if is_InfInt var then strip_Newtype substitution else substitution in
      if is_InfInt var && negb (is_int_type substitution) then report (DError "Cannot unify type") None
      else if occurs_in var substitution then oret None
      else if containsKey binding var then Aborted "Two constraints on the same variable"
      else oret (Some (<[var := substitution]> (apply_subst {[var := substitution]} <$> binding)))
  end.
(** [simpleCompose]: the variables are disjoint. *)
Definition simpleCompose binding (other : TypeVariableSubstitution) : outcome TypeVariableSubstitution :=
  if existsb (containsKey binding) (map fst (map_to_list other)) then Aborted "Changing binding" else oret (other ∪ binding).
