(* ===== verification/TypeSubstFacts.v ===== *)
(** * Substitutions of type variables: what applying one does

    A substitution without cycles, applied, replaces all the variables it
    binds.  [compatible] is what unification promises of two types. *)
From S2P Require Import Prelude Ir TypeSubst.
Local Open Scope flexplan_scope.
Implicit Types (b : TypeVariableSubstitution) (t s : IRType) (v w : ITypeVar).

(** ** Variables and substitution *)
Definition free (f : ITypeVar -> option IRType) (tps : list ITypeVar) : list ITypeVar :=
  List.filter (fun v => match f v with None => true | Some _ => false end) tps.
Lemma free_spec f tps v : v ∈ free f tps <-> v ∈ tps /\ f v = None.
Proof. unfold free. rewrite list_elem_of_In, filter_In, <- list_elem_of_In. destruct (f v); naive_solver. Qed.
Lemma existsb_elem {A} (p : A -> bool) l : existsb p l = true <-> exists x, x ∈ l /\ p x = true.
Proof. rewrite existsb_exists. by setoid_rewrite <- list_elem_of_In. Qed.
Lemma existsb_bound v tps : existsb (fun w => bool_decide (w = v)) tps = true <-> v ∈ tps.
Proof. rewrite existsb_elem. setoid_rewrite bool_decide_eq_true. naive_solver. Qed.

(** The direct parts of a type and the variables it declares. *)
Definition parts (t : IRType) : list IRType :=
  match t with
  | Ty_Type t | Ty_Newtype _ _ t | Ty_Stack t _ | Ty_Set t | Ty_Typedef _ t => [t]
  | Ty_StructLike _ _ fs => fs.*2
  | Ty_Tuple ts => ts
  | Ty_ArchBlock _ _ _ ps => ps.*2
  | Ty_SpecializedCanonical b args s => b :: args ++ [s]
  | Ty_Method _ _ r ps => match r with Some t => [t] | None => [] end ++ ps.*2
  | Ty_MethodCall targs _ args => targs ++ args.*2
  | _ => []
  end.
Definition own_vars (t : IRType) : list ITypeVar :=
  match t with
  | Ty_Var v => [v]
  | Ty_ArchBlock _ _ tps _ | Ty_Method _ tps _ _ => tps
  | Ty_MethodCall _ r _ => [r]
  | _ => []
  end.
Definition occurs_any (v : ITypeVar) (l : list IRType) : Prop := exists s, s ∈ l /\ occurs_in v s = true.
Lemma occurs_any_nil v : occurs_any v [] <-> False.
Proof. split; [|done]. intros (s & Hs & _). by apply not_elem_of_nil in Hs. Qed.
Lemma occurs_any_cons v t l : occurs_any v (t :: l) <-> occurs_in v t = true \/ occurs_any v l.
Proof. unfold occurs_any. setoid_rewrite elem_of_cons. naive_solver. Qed.
Lemma occurs_any_app v l l' : occurs_any v (l ++ l') <-> occurs_any v l \/ occurs_any v l'.
Proof. unfold occurs_any. setoid_rewrite elem_of_app. naive_solver. Qed.
Lemma occurs_any_bool v l : existsb (occurs_in v) l = true <-> occurs_any v l.
Proof. apply existsb_elem. Qed.
Lemma occurs_any_snd {A} v (l : list (A * IRType)) : existsb (fun p => occurs_in v p.2) l = true <-> occurs_any v l.*2.
Proof. rewrite existsb_elem. unfold occurs_any. setoid_rewrite list_elem_of_fmap. naive_solver. Qed.
Lemma occurs_parts v t : occurs_in v t = true <-> v ∈ own_vars t \/ occurs_any v (parts t).
Proof.
  destruct t; cbn [occurs_in own_vars parts];
    rewrite ?orb_true_iff, ?existsb_bound, ?occurs_any_snd, ?occurs_any_bool, ?occurs_any_cons, ?occurs_any_app, ?occurs_any_cons, ?occurs_any_nil, ?elem_of_nil,
      ?list_elem_of_singleton, ?bool_decide_eq_true; try (intuition congruence; fail).
  destruct returnType as [t|]; rewrite ?occurs_any_cons, ?occurs_any_nil; intuition congruence.
Qed.
(** Induction on types through their parts. *)
Lemma parts_induction (P : IRType -> Prop) : (forall t, (forall s, s ∈ parts t -> P s) -> P t) -> forall t, P t.
Proof.
  intros HP. apply IRType_induction; intros; apply HP; cbn [parts]; intros u Hu.
  all: try (apply list_elem_of_singleton in Hu; by subst).
  all: try (by apply not_elem_of_nil in Hu).
  - apply list_elem_of_fmap in Hu as (f & -> & Hf). rewrite Forall_forall in H. by apply H.
  - rewrite Forall_forall in H. by apply H.
  - apply list_elem_of_fmap in Hu as (f & -> & Hf). rewrite Forall_forall in H. by apply H.
  - rewrite Forall_forall in H0. apply elem_of_cons in Hu as [->|[Hu|Hu]%elem_of_app]; [done|by apply H0|]. apply list_elem_of_singleton in Hu. by subst.
  - rewrite Forall_forall in H0. apply elem_of_app in Hu as [Hu|Hu].
    + destruct r as [t|]; [|by apply not_elem_of_nil in Hu]. apply list_elem_of_singleton in Hu. subst. by apply H.
    + apply list_elem_of_fmap in Hu as (f & -> & Hf). by apply H0.
  - rewrite Forall_forall in H. rewrite Forall_forall in H0. apply elem_of_app in Hu as [Hu|Hu]; [by apply H|]. apply list_elem_of_fmap in Hu as (f & -> & Hf). by apply H0.
Qed.

(** Rebuilding a type with its parts replaced by [g]. *)
Definition rebuild (f : ITypeVar -> option IRType) (g : IRType -> IRType) (t : IRType) : IRType :=
  let alls {A} (ts : list (A * IRType)) := map (fun p => (p.1, g p.2)) ts in
  match t with
  | Ty_Var v => default t (f v)
  | Ty_Type t => Ty_Type (g t)
  | Ty_Newtype n i t => Ty_Newtype n i (g t)
  | Ty_Stack t n => Ty_Stack (g t) n
  | Ty_Set t => Ty_Set (g t)
  | Ty_Typedef n t => Ty_Typedef n (g t)
  | Ty_StructLike k n fs => Ty_StructLike k n (alls fs)
  | Ty_Tuple ts => Ty_Tuple (map g ts)
  | Ty_ArchBlock k n tps ps => Ty_ArchBlock k n (free f tps) (alls ps)
  | Ty_SpecializedCanonical b args s => Ty_SpecializedCanonical (g b) (map g args) (g s)
  | Ty_Method k tps r ps => Ty_Method k (free f tps) (match r with Some t => Some (g t) | None => None end) (alls ps)
  | Ty_MethodCall targs r args => Ty_MethodCall (map g targs) r (alls args)
  | Ty_Base _ | Ty_Error | Ty_Enum _ | Ty_SerEnum _ | Ty_ActionEnum _ | Ty_Extern _ | Ty_Name _ => t
  end.
Lemma tsubst_rebuild f t : tsubst f t = rebuild f (tsubst f) t.
Proof. by destruct t. Qed.
Lemma map_ext_elem {A B} (f g : A -> B) l : (forall x, x ∈ l -> f x = g x) -> map f l = map g l.
Proof. intros Hfg. apply map_ext_in. intros x Hx. apply Hfg. by apply list_elem_of_In. Qed.
Lemma alls_ext {A} (g g' : IRType -> IRType) (l : list (A * IRType)) : (forall s, s ∈ l.*2 -> g s = g' s) -> map (fun p => (p.1, g p.2)) l = map (fun p => (p.1, g' p.2)) l.
Proof. intros Hg. apply map_ext_elem. intros p Hp. by rewrite Hg by (apply list_elem_of_fmap; by exists p). Qed.
Lemma free_ext f f' tps : (forall v, v ∈ tps -> f v = None <-> f' v = None) -> free f tps = free f' tps.
Proof.
  intros Hf. induction tps as [|v tps IH]; [done|]. unfold free in *. simpl. pose proof (Hf v ltac:(set_solver)) as Hv.
  rewrite IH by (intros w Hw; apply Hf; set_solver). destruct (f v), (f' v); try done; naive_solver.
Qed.
Lemma rebuild_ext f f' g g' t : (forall v, v ∈ own_vars t -> f v = f' v) -> (forall s, s ∈ parts t -> g s = g' s) -> rebuild f g t = rebuild f' g' t.
Proof.
  intros Hf Hg. destruct t; cbn [rebuild parts own_vars] in *; try done.
  - by rewrite Hf by set_solver.
  - by rewrite Hg by set_solver.
  - by rewrite Hg by set_solver.
  - by rewrite Hg by set_solver.
  - by rewrite (alls_ext g g').
  - by rewrite (map_ext_elem g g').
  - by rewrite Hg by set_solver.
  - rewrite (alls_ext g g') by done. by rewrite (free_ext f f') by (intros v Hv; by rewrite Hf).
  - rewrite (Hg t1), (Hg t2), (map_ext_elem g g'); [done|..]; intros; try apply Hg; set_solver.
  - rewrite (alls_ext g g') by set_solver. rewrite (free_ext f f') by (intros v Hv; by rewrite Hf). destruct returnType as [r|]; [|done]. by rewrite Hg by set_solver.
  - rewrite (alls_ext g g'), (map_ext_elem g g'); [done|..]; intros; apply Hg; set_solver.
  - by rewrite Hg by set_solver.
Qed.
Lemma tsubst_ext f f' t : (forall v, occurs_in v t = true -> f v = f' v) -> tsubst f t = tsubst f' t.
Proof.
  induction t as [t IH] using parts_induction. intros Hf. rewrite !tsubst_rebuild. apply rebuild_ext.
  - intros v Hv. apply Hf, occurs_parts. by left.
  - intros s Hs. apply IH; [done|]. intros v Hv. apply Hf, occurs_parts. right. by exists s.
Qed.
Lemma alls_id {A} (g : IRType -> IRType) (l : list (A * IRType)) : (forall s, s ∈ l.*2 -> g s = s) -> map (fun p => (p.1, g p.2)) l = l.
Proof. intros Hg. rewrite <- (map_id l) at 2. apply map_ext_elem. intros [a s] Hp. simpl. by rewrite Hg by (apply list_elem_of_fmap; by exists (a, s)). Qed.
Lemma map_id_elem {A} (g : A -> A) l : (forall x, x ∈ l -> g x = x) -> map g l = l.
Proof. intros Hg. rewrite <- (map_id l) at 2. by apply map_ext_elem. Qed.
Lemma free_none tps : free (fun _ => None) tps = tps.
Proof. induction tps as [|v tps IH]; [done|]. unfold free in *. simpl. by rewrite IH. Qed.
Lemma tsubst_none t : tsubst (fun _ => None) t = t.
Proof.
  induction t as [t IH] using parts_induction. rewrite tsubst_rebuild. destruct t; cbn [rebuild parts] in *; rewrite ?free_none; try done;
    rewrite ?alls_id, ?map_id_elem by (intros; apply IH; set_solver); rewrite ?IH by set_solver; try done.
  destruct returnType as [r|]; [|done]. by rewrite IH by set_solver.
Qed.
Lemma tsubst_id f t : (forall v, occurs_in v t = true -> f v = None) -> tsubst f t = t.
Proof. intros Hf. rewrite (tsubst_ext f (fun _ => None)) by done. apply tsubst_none. Qed.
Lemma alls_alls {A} (g g' : IRType -> IRType) (l : list (A * IRType)) : map (fun p => (p.1, g p.2)) (map (fun p => (p.1, g' p.2)) l) = map (fun p => (p.1, g (g' p.2))) l.
Proof. by rewrite map_map. Qed.
Lemma free_free f g h tps : (forall v, v ∈ tps -> h v = None <-> f v = None /\ g v = None) -> free f (free g tps) = free h tps.
Proof.
  intros Hh. induction tps as [|v tps IH]; [done|]. unfold free in *. simpl. pose proof (Hh v ltac:(set_solver)) as Hv.
  specialize (IH ltac:(intros w Hw; apply Hh; set_solver)). destruct (g v) eqn:Eg; simpl; [|destruct (f v) eqn:Ef]; destruct (h v) eqn:Eh; rewrite ?IH; try done; naive_solver.
Qed.
(** One substitution after the other. *)
Lemma tsubst_comp f g h t : (forall v, occurs_in v t = true -> h v = match g v with Some s => Some (tsubst f s) | None => f v end) ->
  tsubst f (tsubst g t) = tsubst h t.
Proof.
  induction t as [t IH] using parts_induction. intros Hh.
  assert (Hown : forall v, v ∈ own_vars t -> h v = match g v with Some s => Some (tsubst f s) | None => f v end) by (intros v Hv; apply Hh, occurs_parts; by left).
  assert (Hparts : forall s, s ∈ parts t -> tsubst f (tsubst g s) = tsubst h s).
  { intros s Hs. apply IH; [done|]. intros v Hv. apply Hh, occurs_parts. right. by exists s. }
  clear IH Hh. assert (Hfree : forall tps, (forall v, v ∈ tps -> v ∈ own_vars t) -> free f (free g tps) = free h tps).
  { intros tps Ht. apply free_free. intros v Hv. rewrite Hown by auto. destruct (g v); naive_solver. }
  rewrite (tsubst_rebuild h), (tsubst_rebuild g). destruct t; cbn [rebuild]; try (cbn [tsubst]; done).
  - rewrite Hown by set_solver. destruct (g v) as [s|]; simpl; [done|]. by destruct (f v).
  - cbn [tsubst]. by rewrite Hparts by set_solver.
  - cbn [tsubst]. by rewrite Hparts by set_solver.
  - cbn [tsubst]. by rewrite Hparts by set_solver.
  - cbn [tsubst]. rewrite alls_alls. f_equal. by apply (alls_ext (fun s => tsubst f (tsubst g s)) (tsubst h)).
  - cbn [tsubst]. rewrite map_map. f_equal. by apply map_ext_elem.
  - cbn [tsubst]. by rewrite Hparts by set_solver.
  - rewrite tsubst_rebuild. cbn [rebuild]. rewrite Hfree by done. rewrite alls_alls. f_equal. by apply (alls_ext (fun s => tsubst f (tsubst g s)) (tsubst h)).
  - cbn [tsubst parts] in *. rewrite map_map. rewrite (Hparts t1), (Hparts t2) by set_solver. f_equal. apply map_ext_elem. intros s Hs. apply Hparts. set_solver.
  - rewrite tsubst_rebuild. cbn [rebuild parts own_vars] in *. rewrite Hfree by done. rewrite alls_alls. f_equal.
    + destruct returnType as [r|]; [|done]. by rewrite Hparts by set_solver.
    + apply (alls_ext (fun s => tsubst f (tsubst g s)) (tsubst h)). intros s Hs. apply Hparts. set_solver.
  - cbn [tsubst parts] in *. rewrite map_map, alls_alls. f_equal.
    + apply map_ext_elem. intros s Hs. apply Hparts. set_solver.
    + apply (alls_ext (fun s => tsubst f (tsubst g s)) (tsubst h)). intros s Hs. apply Hparts. set_solver.
  - cbn [tsubst]. by rewrite Hparts by set_solver.
Qed.

(** ** Types that are not calls *)
Definition irregular (t : IRType) : bool := match t with Ty_MethodCall _ _ _ | Ty_SpecializedCanonical _ _ (Ty_Var _) => true | _ => false end.
Lemma irregular_rebuild f t : (forall v, t <> Ty_Var v) -> irregular t = false -> irregular (rebuild f (tsubst f) t) = false.
Proof. intros Hv Ht. destruct t; try done; [by edestruct Hv|]. by destruct t2. Qed.
Inductive plain : IRType -> Prop :=
| plain_intro t : irregular t = false -> (forall s, s ∈ parts t -> plain s) -> plain t.
Lemma plain_parts t s : plain t -> s ∈ parts t -> plain s.
Proof. destruct 1 as [t _ Hp]. apply Hp. Qed.
Lemma own_vars_rebuild f g t w : irregular t = false -> w ∈ own_vars (rebuild f g t) ->
  (w ∈ own_vars t /\ f w = None) \/ exists v, t = Ty_Var v.
Proof.
  intros Hc Hw. destruct t; cbn [rebuild own_vars] in *; try done; rewrite ?free_spec in Hw; try (by left); try (by apply not_elem_of_nil in Hw).
  right. by exists v.
Qed.
Lemma parts_rebuild f g t s : (forall v, t <> Ty_Var v) -> s ∈ parts (rebuild f g t) -> exists s0, s0 ∈ parts t /\ s = g s0.
Proof.
  assert (Hs : forall A (l : list (A * IRType)), s ∈ (map (fun p => (p.1, g p.2)) l).*2 -> exists s0, s0 ∈ l.*2 /\ s = g s0).
  { intros A l Hin. apply list_elem_of_fmap in Hin as (p & -> & Hp). apply list_elem_of_fmap in Hp as (q & -> & Hq). exists q.2. split; [|done]. apply list_elem_of_fmap. by exists q. }
  assert (Hm : forall l, s ∈ map g l -> exists s0, s0 ∈ l /\ s = g s0) by (intros l Hin; apply list_elem_of_fmap in Hin as (q & -> & Hq); by exists q).
  intros Hv Hin. destruct t; cbn [rebuild parts] in *; try (by apply not_elem_of_nil in Hin); try (apply list_elem_of_singleton in Hin as ->; eexists; split; [apply list_elem_of_singleton; reflexivity|done]);
    try (by apply Hs); try (by apply Hm).
  - by edestruct Hv.
  - apply elem_of_cons in Hin as [->|[Hin|Hin]%elem_of_app]; [exists t1; split; [set_solver|done]|apply Hm in Hin as (s0 & ? & ->); exists s0; split; [set_solver|done]|].
    apply list_elem_of_singleton in Hin as ->. exists t2. split; [set_solver|done].
  - apply elem_of_app in Hin as [Hin|Hin]; [|apply Hs in Hin as (s0 & ? & ->); exists s0; split; [set_solver|done]].
    destruct returnType as [r|]; [|by apply not_elem_of_nil in Hin]. apply list_elem_of_singleton in Hin as ->. exists r. split; [set_solver|done].
  - apply elem_of_app in Hin as [Hin|Hin]; [apply Hm in Hin|apply Hs in Hin]; destruct Hin as (s0 & ? & ->); exists s0; (split; [set_solver|done]).
Qed.
(** The variables of a type after a substitution. *)
Lemma occurs_tsubst f t w : plain t -> occurs_in w (tsubst f t) = true ->
  (occurs_in w t = true /\ f w = None) \/ exists v s, occurs_in v t = true /\ f v = Some s /\ occurs_in w s = true.
Proof.
  induction t as [t IH] using parts_induction. intros Hp Hw. destruct Hp as [t Hc Hp].
  destruct (match t with Ty_Var v => Some v | _ => None end) as [v|] eqn:E.
  - destruct t; simplify_eq. simpl in *. destruct (f v) as [s|] eqn:Ef; simpl in Hw; [right; exists v, s; by rewrite bool_decide_true|].
    left. split; [done|]. simpl in Hw. apply bool_decide_eq_true in Hw as <-. done.
  - assert (Hv : forall v, t <> Ty_Var v) by (intros v ->; done). rewrite tsubst_rebuild in Hw. apply occurs_parts in Hw as [Hw|(s & Hs & Hw)].
    + apply own_vars_rebuild in Hw as [[Hw Hf]|[v ->]]; [left; split; [apply occurs_parts; by left|done]|by edestruct Hv|done].
    + apply parts_rebuild in Hs as (s0 & Hs & ->); [|done]. apply IH in Hw as [[Hw Hf]|(v & u & Hv' & Hf & Hu)]; [| |done|by apply Hp].
      * left. split; [apply occurs_parts; right; by exists s0|done].
      * right. exists v, u. split; [apply occurs_parts; right; by exists s0|done].
Qed.
Lemma plain_tsubst f t : plain t -> (forall v s, occurs_in v t = true -> f v = Some s -> plain s) -> plain (tsubst f t).
Proof.
  induction t as [t IH] using parts_induction. intros Hp Hf. destruct Hp as [t Hc Hp].
  destruct (match t with Ty_Var v => Some v | _ => None end) as [v|] eqn:E.
  - destruct t; simplify_eq. simpl. destruct (f v) as [s|] eqn:Ef; simpl; [apply (Hf v); simpl; [by rewrite bool_decide_true|done]|by constructor].
  - assert (Hv : forall v, t <> Ty_Var v) by (intros v ->; done). rewrite tsubst_rebuild. constructor; [by apply irregular_rebuild|].
    intros s Hs. apply parts_rebuild in Hs as (s0 & Hs & ->); [|done]. apply IH; [done|by apply Hp|]. intros v u Hv' Hu. eapply Hf; [|exact Hu].
    apply occurs_parts. right. by exists s0.
Qed.

(** ** Substitutions without cycles *)
Definition ranked b (rank : ITypeVar -> nat) : Prop :=
  forall v t w, b !! v = Some t -> occurs_in w t = true -> is_Some (b !! w) -> (rank w < rank v)%nat.
Definition acyclic b : Prop := exists rank, ranked b rank.
Definition plain_range b : Prop := forall v t, b !! v = Some t -> plain t.
(** What [apply_fuel] puts for a variable. *)
Definition value_of (n : nat) b v : option IRType :=
  match replacement (size b) b v, n with
  | Some (Ty_Var w), _ => Some (Ty_Var w)
  | Some t, S n => Some (apply_fuel n b t)
  | r, _ => r
  end.
Lemma apply_fuel_eq n b t : apply_fuel n b t = tsubst (value_of n b) t.
Proof. by destruct n. Qed.
Lemma replacement_None n b v : replacement n b v = None <-> b !! v = None.
Proof. destruct n; simpl; destruct (b !! v) as [[]|]; naive_solver. Qed.
Lemma value_of_None n b v : value_of n b v = None <-> b !! v = None.
Proof.
  rewrite <- (replacement_None (size b)). unfold value_of. destruct (replacement (size b) b v) as [t|]; [|by destruct n]. split; [|done].
  destruct t, n; done.
Qed.

Section ranked.
Context (b : TypeVariableSubstitution) (rank : ITypeVar -> nat) (Hrank : ranked b rank).
(** The bound variables of a lower rank: the longest chain of replacements. *)
Definition lower (k : nat) : gset ITypeVar := filter (fun v => (rank v < k)%nat) (dom b).
Lemma lower_size k : (size (lower k) <= size b)%nat.
Proof. clear Hrank. unfold TypeVariableSubstitution in *. rewrite <- (size_dom b). apply subseteq_size. unfold lower. set_solver. Qed.
Lemma lower_lt v k : is_Some (b !! v) -> (rank v < k)%nat -> (size (lower (rank v)) < size (lower k))%nat.
Proof.
  intros Hv Hk. apply subset_size. split.
  - intros w. unfold lower. rewrite !elem_of_filter. intros [Hw Hd]. split; [lia|done].
  - intros Hsub. assert (Hin : v ∈ lower k) by (apply elem_of_filter; split; [done|by apply elem_of_dom]). apply Hsub, elem_of_filter in Hin as [Hlt _]. lia.
Qed.
Lemma replacement_stable n : forall m v, (size (lower (rank v)) <= n)%nat -> (size (lower (rank v)) <= m)%nat -> replacement n b v = replacement m b v.
Proof.
  assert (Hleaf : forall v w i, b !! v = Some (Ty_Var w) -> (size (lower (rank v)) <= 0)%nat -> replacement i b w = None).
  { intros v w i Hv Hs. apply replacement_None. destruct (b !! w) as [u|] eqn:Hw; [|done]. exfalso.
    assert (Hlt : (rank w < rank v)%nat) by (eapply Hrank; [done|simpl; by apply bool_decide_eq_true|by eexists]).
    pose proof (lower_lt w (rank v) ltac:(by eexists) Hlt). lia. }
  induction n as [|n IH]; intros [|m] v Hn Hm; cbn [replacement]; destruct (b !! v) as [t|] eqn:Hv; try done; destruct t; try done.
  - by erewrite Hleaf.
  - by erewrite Hleaf.
  - f_equal. destruct (b !! v0) as [u|] eqn:Hw; [|by rewrite !(proj2 (replacement_None _ _ _))].
    assert (Hlt : (rank v0 < rank v)%nat) by (eapply Hrank; [done|simpl; by apply bool_decide_eq_true|by eexists]).
    pose proof (lower_lt v0 (rank v) ltac:(by eexists) Hlt). f_equal. apply IH; lia.
Qed.
(** The end of a chain. *)
Lemma replacement_end n : forall v, (size (lower (rank v)) <= n)%nat -> is_Some (b !! v) -> exists u, replacement n b v = Some u /\
  (forall w, u = Ty_Var w -> b !! w = None) /\ (forall w, occurs_in w u = true -> is_Some (b !! w) -> (rank w < rank v)%nat) /\ (exists v', b !! v' = Some u).
Proof.
  induction n as [|n IH]; intros v Hn [t Hv]; cbn [replacement]; rewrite Hv.
  - exists t. split; [by destruct t|]. split; [|split; [|by exists v]; intros w Hw Hb; by eapply Hrank]. intros w ->.
    destruct (b !! w) as [u|] eqn:Hw; [|done]. exfalso.
    assert (Hlt : (rank w < rank v)%nat) by (eapply Hrank; [done|simpl; by apply bool_decide_eq_true|by eexists]).
    pose proof (lower_lt w (rank v) ltac:(by eexists) Hlt). lia.
  - destruct (match t with Ty_Var w => b !! w | _ => None end) as [u|] eqn:Hu.
    + destruct t; try done. assert (Hlt : (rank v0 < rank v)%nat) by (eapply Hrank; [done|simpl; by apply bool_decide_eq_true|by eexists]).
      pose proof (lower_lt v0 (rank v) ltac:(by eexists) Hlt). destruct (IH v0 ltac:(lia) ltac:(by eexists)) as (u' & -> & H1 & H2 & H3).
      exists u'. split; [done|]. split; [done|]. split; [|done]. intros w Hw Hb. specialize (H2 w Hw Hb). lia.
    + exists t. split; [destruct t; try done; by rewrite (proj2 (replacement_None _ _ _) Hu)|]. split; [by intros w ->|]. split; [|by exists v]. intros w Hw Hb. by eapply Hrank.
Qed.
Definition bounded (k : nat) t : Prop := forall w, occurs_in w t = true -> is_Some (b !! w) -> (rank w < k)%nat.
Lemma value_of_bound n k v : is_Some (b !! v) -> (rank v < k)%nat -> (size (lower k) <= n)%nat ->
  (exists w, value_of n b v = Some (Ty_Var w) /\ b !! w = None) \/
  exists u n', n = S n' /\ value_of n b v = Some (apply_fuel n' b u) /\ bounded (rank v) u /\ (size (lower (rank v)) <= n')%nat /\ exists v', b !! v' = Some u.
Proof.
  intros Hv Hk Hn. pose proof (lower_lt v k Hv Hk) as Hlt. destruct (replacement_end (size b) v (lower_size _) Hv) as (u & Hu & H1 & H2 & H3).
  unfold value_of. rewrite Hu. destruct n as [|n]; [lia|].
  destruct u; try (right; eexists _, n; split; [done|]; split; [done|]; split; [done|]; split; [lia|done]). left. eexists. split; [done|]. by apply H1.
Qed.
Lemma apply_stable n : forall m k t, bounded k t -> (size (lower k) <= n)%nat -> (size (lower k) <= m)%nat -> apply_fuel n b t = apply_fuel m b t.
Proof.
  induction n as [|n IH]; intros m k t Hb Hn Hm; rewrite !apply_fuel_eq; apply tsubst_ext; intros v Hv.
  - destruct (b !! v) as [s|] eqn:Hs; [|by rewrite !(proj2 (value_of_None _ _ _))].
    pose proof (lower_lt v k ltac:(by eexists) (Hb v Hv ltac:(by eexists))). lia.
  - destruct (b !! v) as [s|] eqn:Hs; [|by rewrite !(proj2 (value_of_None _ _ _))]. pose proof (Hb v Hv ltac:(by eexists)) as Hk.
    pose proof (lower_lt v k ltac:(by eexists) Hk). destruct (replacement_end (size b) v (lower_size _) ltac:(by eexists)) as (u & Hu & _ & H2 & _).
    unfold value_of. rewrite Hu. destruct m as [|m]; [lia|]. destruct u; try done; f_equal; (eapply IH; [exact H2|lia|lia]).
Qed.
Lemma apply_free n : forall k t w, plain_range b -> plain t -> bounded k t -> (size (lower k) <= n)%nat -> occurs_in w (apply_fuel n b t) = true -> b !! w = None.
Proof.
  induction n as [|n IH]; intros k t w Hr Hp Hb Hn Hw; rewrite apply_fuel_eq in Hw; apply occurs_tsubst in Hw as [[_ Hw]|(v & s & Hv & Hs & Hw)]; try done;
    try (by eapply value_of_None); (destruct (b !! v) as [s'|] eqn:Hbv; [|by rewrite (proj2 (value_of_None _ _ _)) in Hs]);
    destruct (value_of_bound _ k v ltac:(by eexists) (Hb v Hv ltac:(by eexists)) Hn) as [(x & Hx & Hxb)|(u & n' & Heq & Hx & Hbu & Hn' & v' & Hv')]; simplify_eq.
  - simpl in Hw. apply bool_decide_eq_true in Hw as <-. done.
  - simpl in Hw. apply bool_decide_eq_true in Hw as <-. done.
  - eapply IH; [done| |exact Hbu|done|exact Hw]. by eapply Hr.
Qed.
Lemma bounded_all t : exists k, bounded k t.
Proof.
  exists (S (list_max (rank <$> elements (dom b)))). intros w _ Hw. apply le_n_S. assert (Hin : rank w ∈ rank <$> elements (dom b)).
  { apply list_elem_of_fmap. exists w. split; [done|]. by apply elem_of_elements, elem_of_dom. }
  pose proof (proj1 (list_max_le (rank <$> elements (dom b)) _) (Nat.le_refl _)) as Hall. rewrite Forall_forall in Hall. by apply Hall.
Qed.
End ranked.

(** ** Applying a substitution without cycles *)
Lemma apply_subst_eq b t : apply_subst b t = tsubst (value_of (size b) b) t.
Proof. apply apply_fuel_eq. Qed.
Lemma apply_unbound b v : b !! v = None -> apply_subst b (Ty_Var v) = Ty_Var v.
Proof. intros Hv. rewrite apply_subst_eq. simpl. by rewrite (proj2 (value_of_None _ _ _) Hv). Qed.
Lemma apply_bound b v t : acyclic b -> b !! v = Some t -> apply_subst b (Ty_Var v) = apply_subst b t.
Proof.
  intros [rank Hrank] Hv. assert (Hb : is_Some (b !! v)) by by eexists.
  assert (Hbt : bounded b rank (rank v) t) by (intros w Hw Hbw; by eapply Hrank).
  assert (Hlt : (size (lower b rank (rank v)) < size b)%nat).
  { pose proof (lower_lt b rank v (S (rank v)) Hb ltac:(lia)). pose proof (lower_size b rank (S (rank v))). lia. }
  rewrite (apply_subst_eq b (Ty_Var v)). unfold apply_subst. simpl. unfold value_of. destruct (size b) as [|n] eqn:Hn; [lia|].
  cbn [replacement]. rewrite Hv. destruct t; try (refine (apply_stable b rank Hrank n (S n) (rank v) _ Hbt _ _); lia).
  rewrite (apply_fuel_eq (S n)). cbn [tsubst]. unfold value_of. rewrite Hn. destruct (b !! v0) as [u|] eqn:Hw.
  - assert (Hr : (rank v0 < rank v)%nat) by (apply Hbt; [simpl; by apply bool_decide_eq_true|by eexists]).
    pose proof (lower_lt b rank v0 (rank v) ltac:(by eexists) Hr). rewrite (replacement_stable b rank Hrank n (S n)) by lia.
    destruct (replacement_end b rank Hrank (S n) v0 ltac:(lia) ltac:(by eexists)) as (x & -> & _). by destruct x.
  - by rewrite !(proj2 (replacement_None _ _ _) Hw).
Qed.
Lemma apply_normal b t w : acyclic b -> plain_range b -> plain t -> occurs_in w (apply_subst b t) = true -> b !! w = None.
Proof.
  intros [rank Hrank] Hr Hp Hw. destruct (bounded_all b rank t) as [k Hk]. eapply (apply_free b rank Hrank (size b) k t); try done. apply lower_size.
Qed.
Lemma apply_idem b t : acyclic b -> plain_range b -> plain t -> apply_subst b (apply_subst b t) = apply_subst b t.
Proof.
  intros Ha Hr Hp. rewrite (apply_subst_eq b (apply_subst b t)). apply tsubst_id. intros v Hv. apply value_of_None. by eapply apply_normal.
Qed.
(** Substituting first does not matter for variables whose value is kept. *)
Lemma apply_after b g t : (forall v s, occurs_in v t = true -> g v = Some s -> is_Some (b !! v) /\ apply_subst b (Ty_Var v) = apply_subst b s) ->
  apply_subst b (tsubst g t) = apply_subst b t.
Proof.
  intros Hg. rewrite !apply_subst_eq. apply tsubst_comp. intros v Hv. destruct (g v) as [s|] eqn:Hs; [|done]. destruct (Hg v s Hv Hs) as [[t' Hb] Heq].
  rewrite !apply_subst_eq in Heq. simpl in Heq. destruct (value_of (size b) b v) as [u|] eqn:Hu; [by rewrite <- Heq|]. apply value_of_None in Hu. congruence.
Qed.
(** Without variables that are bound nothing changes. *)
Lemma apply_id b t : (forall v, occurs_in v t = true -> b !! v = None) -> apply_subst b t = t.
Proof. intros Hb. rewrite apply_subst_eq. apply tsubst_id. intros v Hv. apply value_of_None. by apply Hb. Qed.

(** ** Well-scoped types *)
(** No calls inside, and no specialized type that stands for a variable; a name belongs to one type variable, or to declared types. *)
Definition named (t : IRType) : option string :=
  match t with
  | Ty_Enum n | Ty_SerEnum n | Ty_Extern n | Ty_Newtype n _ _ | Ty_Typedef n _ | Ty_StructLike _ n _ | Ty_ArchBlock _ n _ _ => Some n
  | Ty_Error => Some "error"
  | _ => None
  end.
Inductive scoped (owner : string -> option Z) : IRType -> Prop :=
| scoped_intro t : irregular t = false -> (forall n i, Type_Var n i ∈ own_vars t -> owner n = Some i) -> (forall n, named t = Some n -> owner n = None) ->
    (forall s, s ∈ parts t -> scoped owner s) -> scoped owner t.
Lemma scoped_plain owner t : scoped owner t -> plain t.
Proof. induction 1 as [t Hc _ _ _ IH]. by constructor. Qed.
Lemma scoped_part owner t s : scoped owner t -> s ∈ parts t -> scoped owner s.
Proof. destruct 1 as [t _ _ _ Hp]. apply Hp. Qed.
Lemma named_rebuild f g t : (forall v, t <> Ty_Var v) -> named (rebuild f g t) = named t.
Proof. intros Hv. destruct t; try done. by edestruct Hv. Qed.
Lemma scoped_tsubst owner f t : scoped owner t -> (forall v s, occurs_in v t = true -> f v = Some s -> scoped owner s) -> scoped owner (tsubst f t).
Proof.
  induction t as [t IH] using parts_induction. intros Hp Hf. destruct Hp as [t Hc Ho Hn Hp].
  destruct (match t with Ty_Var v => Some v | _ => None end) as [v|] eqn:E.
  - destruct t; simplify_eq. simpl. destruct (f v) as [s|] eqn:Ef; simpl; [apply (Hf v); simpl; [by rewrite bool_decide_true|done]|exact (scoped_intro owner _ Hc Ho Hn Hp)].
  - assert (Hv : forall v, t <> Ty_Var v) by (intros v ->; done). rewrite tsubst_rebuild. constructor; [by apply irregular_rebuild| | |].
    + intros n i Hin. apply own_vars_rebuild in Hin as [[Hin _]|[v ->]]; [by apply Ho|by edestruct Hv|done].
    + intros n. rewrite named_rebuild by done. apply Hn.
    + intros s Hs. apply parts_rebuild in Hs as (s0 & Hs & ->); [|done]. apply IH; [done|by apply Hp|]. intros v u Hv' Hu. eapply Hf; [|exact Hu].
      apply occurs_parts. right. by exists s0.
Qed.
Definition scoped_range (owner : string -> option Z) b : Prop := forall v t, b !! v = Some t -> scoped owner t.
Lemma replacement_range b n : forall v t, replacement n b v = Some t -> exists v', b !! v' = Some t.
Proof.
  induction n as [|n IH]; intros v t Hr; cbn [replacement] in Hr; destruct (b !! v) as [s|] eqn:Hv; try done.
  - exists v. by destruct s; simplify_eq.
  - destruct s; try (exists v; congruence). destruct (replacement n b v0) as [u|] eqn:E; simplify_eq/=; [by eapply IH|by exists v].
Qed.
Lemma apply_fuel_scoped owner b n : scoped_range owner b -> forall t, scoped owner t -> scoped owner (apply_fuel n b t).
Proof.
  intros Hr. induction n as [|n IH]; intros t Ht; rewrite apply_fuel_eq; (apply scoped_tsubst; [assumption|]); intros v s _ Hs; unfold value_of in Hs;
    destruct (replacement (size b) b v) as [u|] eqn:E; try discriminate Hs; apply replacement_range in E as [v' Hv']; apply Hr in Hv'.
  - destruct u; injection Hs as <-; assumption.
  - destruct u; injection Hs as <-; first [assumption|by apply IH].
Qed.
Lemma apply_scoped owner b t : scoped_range owner b -> scoped owner t -> scoped owner (apply_subst b t).
Proof. intros. by apply apply_fuel_scoped. Qed.
Lemma scoped_range_plain owner b : scoped_range owner b -> plain_range b.
Proof. intros Hr v t Hv. eapply scoped_plain. by eapply Hr. Qed.
