(* ===== verification/TypeConstraints.v ===== *)
(** * Type unification: [frontends/p4/typeChecking/typeUnification.cpp],
    [typeConstraints.cpp]

    [TypeUnification] reduces a constraint between two types to constraints on
    their parts, and [TypeConstraints] solves constraints by binding variables.
    Both share the set of variables that can be bound and the stack of
    constraints. *)
From S2P Require Import Prelude Ir TypeSubst.
Local Open Scope flexplan_scope.

(** The constraints still to be solved, the last one first. *)
Record TypeConstraints := { unifiableTypeVariables : gset ITypeVar; constraints : list (IRType * IRType) }.
Definition U (A : Type) : Type := TypeConstraints -> outcome (A * TypeConstraints).
#[export] Instance U_ret : MRet U := fun A a s => oret (a, s).
#[export] Instance U_bind : MBind U := fun A B k m s => do r <- m s; k r.1 r.2.
Definition ulift {A} (o : outcome A) : U A := fun s => do a <- o; oret (a, s).
Definition bug {A} (why : string) : U A := fun _ => Aborted why.
Definition typeError (reportErrors : bool) (msg : string) : U bool :=
  fun s => if reportErrors then report (DError msg) (false, s) else oret (false, s).

Definition addUnifiableTypeVariable (v : ITypeVar) : U unit :=
  fun s => oret (tt, {| unifiableTypeVariables := {[v]} ∪ unifiableTypeVariables s; constraints := constraints s |}).
Definition is_Type_Name (t : IRType) : bool := match t with Ty_Name _ => true | _ => false end.
Definition addEqualityConstraint (left right : IRType) : U unit :=
  if is_Type_Name left || is_Type_Name right then bug "Unifying type names"
  else fun s => oret (tt, {| unifiableTypeVariables := unifiableTypeVariables s; constraints := (left, right) :: constraints s |}).
Fixpoint addUnifiables (tps : list ITypeVar) : U unit :=
  match tps with [] => mret tt | tv :: tps => addUnifiableTypeVariable tv;; addUnifiables tps end.

Definition is_Type_Extern (t : IRType) : bool := match t with Ty_Extern _ => true | _ => false end.
Definition is_Dontcare (t : IRType) : bool := match t with Ty_Base B_Dontcare => true | _ => false end.
Definition Void : IRType := Ty_Base B_Void.

Section unification.
(** The variables that have been bound for good, and whether [getopt]'s global
    variable [optarg] is set. *)
Context (definedVariables : TypeVariableSubstitution) (optarg : bool).
Definition replaceVariables : IRType -> IRType := apply_subst definedVariables.

(** ** [unifyCall] *)
(** The checks on one argument; [next] goes on with the others, and is told
    whether this one has been bound. *)
Definition bind_argument (param : ParamInfo * IRType) (arg : ArgInfo * IRType) (reportErrors : bool) (next : bool -> U bool) : U bool :=
  let dir := direction param.1 in
  if is_Dontcare arg.2 && negb (bool_decide (dir = DirOut)) then typeError reportErrors "don't care argument only allowed for out parameters"
  else if (bool_decide (dir = DirOut) || bool_decide (dir = DirInOut)) && negb (leftValue arg.1) then typeError reportErrors "Read-only value used for out/inout parameter"
  else if bool_decide (dir = DirNone) && negb (compileTimeConstant arg.1) then typeError reportErrors "not a compile-time constant when binding to"
  else if negb (bool_decide (dir = DirNone)) && is_Type_Extern param.2
       then if optarg then next false else typeError true "extern values cannot be passed in/out/inout"
  else addEqualityConstraint param.2 arg.2;; next true.
Definition getParameter (ps : list (ParamInfo * IRType)) (name : string) : option (ParamInfo * IRType) :=
  List.find (fun p => String.eqb (pname p.1) name) ps.
(** Parameters without an argument must be optional or have a default. *)
Definition check_left (left : list (string * (ParamInfo * IRType))) (reportErrors : bool) : U bool :=
  if forallb (fun p => isOptional p.2.1 || hasDefault p.2.1) left then mret true else typeError reportErrors "No argument for parameter".
(** [paramIt] is the rest of the parameters; it advances past a positional
    argument that has been bound. *)
Fixpoint unify_arguments (ps paramIt : list (ParamInfo * IRType)) (left : list (string * (ParamInfo * IRType))) (args : list (ArgInfo * IRType)) (reportErrors : bool) : U bool :=
  match args with
  | [] => check_left left reportErrors
  | arg :: args =>
      let named := negb (String.eqb (aname arg.1) "") in
      let go param :=
        match ofind (pname param.1) left with
        | None => bug "Duplicate argument name?"
        | Some _ =>
            bind_argument param arg reportErrors (fun advance =>
              unify_arguments ps (if advance && negb named then tail paramIt else paramIt) (oerase (pname param.1) left) args reportErrors)
        end in
      if named
      then match getParameter ps (aname arg.1) with None => typeError reportErrors "No parameter named" | Some param => go param end
      else match paramIt with [] => typeError reportErrors "Too many arguments for call" | param :: _ => go param end
  end.
Definition params_left (ps : list (ParamInfo * IRType)) : list (string * (ParamInfo * IRType)) :=
  fold_left (fun m p => oemplace (ord := String.ltb) (pname p.1) p m) ps [].
Fixpoint add_type_arguments (l : list (ITypeVar * IRType)) : U unit :=
  match l with [] => mret tt | (tv, type) :: l => addEqualityConstraint (Ty_Var tv) type;; add_type_arguments l end.
Definition unifyCall (tps : list ITypeVar) (ret : option IRType) (ps : list (ParamInfo * IRType)) (targs : list IRType) (sret : ITypeVar) (args : list (ArgInfo * IRType))
    (reportErrors : bool) : U bool :=
  addUnifiables tps;;
  addEqualityConstraint (default Void ret) (Ty_Var sret);;
  addUnifiableTypeVariable sret;;
  addUnifiables tps;;
  if negb (length targs =? 0)%nat && negb (length tps =? length targs)%nat then typeError true "type parameters"
  else
    (if (length targs =? 0)%nat then mret tt else add_type_arguments (zip tps targs));;
    if (length ps <? length args)%nat then typeError reportErrors "Passing arguments when expected"
    else unify_arguments ps ps (params_left ps) args reportErrors.

(** ** [unifyFunctions], [unifyBlocks] *)
Definition can_skip (p : ParamInfo * IRType) : bool := isOptional p.1 || hasDefault p.1.
Fixpoint unify_params (dest src : list (ParamInfo * IRType)) (reportErrors : bool) : U bool :=
  match dest, src with
  | [], src => if forallb can_skip src then mret true else typeError reportErrors "Cannot unify functions with different number of arguments"
  | d :: dest, [] => if can_skip d then unify_params dest [] reportErrors else typeError reportErrors "Cannot unify functions with different number of arguments"
  | d :: dest, s :: src =>
      if bool_decide (direction s.1 = direction d.1) then addEqualityConstraint d.2 s.2;; unify_params dest src reportErrors
      else typeError reportErrors "different directions"
  end.
Definition unifyFunctions (tps : list ITypeVar) (ret : option IRType) (ps : list (ParamInfo * IRType)) (tps' : list ITypeVar) (ret' : option IRType) (ps' : list (ParamInfo * IRType))
    (reportErrors skipReturnValues : bool) : U bool :=
  addUnifiables tps;;
  addUnifiables tps';;
  match ret, ret' with
  | None, Some _ | Some _, None => typeError reportErrors "Cannot unify functions with different return types"
  | None, None => unify_params ps ps' reportErrors
  | Some r, Some r' => (if skipReturnValues : bool then mret tt else addEqualityConstraint r r');; unify_params ps ps' reportErrors
  end.
Definition unifyBlocks (k : BlockKind) (n : string) (tps : list ITypeVar) (ps : list (ParamInfo * IRType)) (k' : BlockKind) (n' : string) (tps' : list ITypeVar) (ps' : list (ParamInfo * IRType))
    (reportErrors : bool) : U bool :=
  if negb (bool_decide (k = k')) then typeError reportErrors "Cannot unify"
  else
    addUnifiables tps;;
    addUnifiables tps';;
    match k with
    | K_Package =>
        if String.eqb n n'
        then unifyFunctions tps (Some (Ty_ArchBlock k n tps ps)) ps tps' (Some (Ty_ArchBlock k' n' tps' ps')) ps' reportErrors true
        else typeError reportErrors "Cannot unify"
    | K_Parser | K_Control => unifyFunctions [] None ps [] None ps' reportErrors false
    end.

(** ** [unify] *)
Definition replace_var (t : IRType) : IRType := match t with Ty_Var _ => replaceVariables t | _ => t end.
Definition substituted_of (t : IRType) : IRType := match t with Ty_SpecializedCanonical _ _ s => s | _ => t end.
(** [Type_Declaration]s that reach the test for them; type variables are
    declarations as well.  [typeid] compares the types of the pointers, which
    are the same. *)
Definition declaration_name (t : IRType) : option string :=
  match t with
  | Ty_Enum n | Ty_SerEnum n | Ty_Extern n | Ty_Newtype n _ _ | Ty_Typedef n _ | Ty_StructLike _ n _ | Ty_ArchBlock _ n _ _ | Ty_Var (Type_Var n _) => Some n
  | Ty_Error => Some "error"
  | _ => None
  end.
Fixpoint unify_each (f : IRType -> IRType -> U bool) (ts ts' : list IRType) : U bool :=
  match ts, ts' with
  | t :: ts, t' :: ts' => b ← f t t'; if b : bool then unify_each f ts ts' else mret false
  | _, _ => mret true
  end.
Fixpoint unify_fields (f : IRType -> IRType -> U bool) (fs fs' : list (string * IRType)) : U bool :=
  match fs with
  | [] => mret true
  | (n, t) :: fs =>
      match List.find (fun p => String.eqb p.1 n) fs' with
      | None => typeError true "No initializer for field"
      | Some p => b ← f t p.2; if b : bool then unify_fields f fs fs' else mret false
      end
  end.
Fixpoint unify (fuel : nat) (dest src : IRType) (reportErrors : bool) : U bool :=
  match fuel with
  | O => bug "out of fuel"
  | S fuel =>
      let again d s := unify fuel d s reportErrors in
      let src := replace_var src in
      let dest := replace_var dest in
      same ← ulift (equivalent dest src);
      if same : bool then mret true
      else
        let dest := substituted_of dest in
        let src := substituted_of src in
        if is_Dontcare src || is_Dontcare dest then mret true
        else
          let fails := typeError reportErrors "Cannot unify" in
          match dest, src with
          | Ty_ArchBlock k n tps ps, Ty_ArchBlock k' n' tps' ps' => unifyBlocks k n tps ps k' n' tps' ps' reportErrors
          | Ty_ArchBlock _ _ _ _, _ => fails
          | Ty_Method _ tps r ps, Ty_MethodCall targs sr args => unifyCall tps r ps targs sr args reportErrors
          | Ty_Method _ tps r ps, Ty_Method _ tps' r' ps' => unifyFunctions tps r ps tps' r' ps' reportErrors false
          | Ty_Method _ _ _ _, _ => fails
          | Ty_Tuple _, Ty_StructLike (K_Struct | K_Header) _ _ => again src dest
          | Ty_Tuple ts, Ty_Tuple ts' =>
              if (length ts =? length ts')%nat then unify_each again ts ts' else typeError true "Cannot match tuples with different sizes"
          | Ty_Tuple _, _ => fails
          | Ty_StructLike (K_Struct | K_Header) _ fs, Ty_Tuple ts =>
              if (length fs =? length ts)%nat then unify_each again (snd <$> fs) ts else fails
          | Ty_StructLike (K_Struct | K_Header) _ fs, Ty_StructLike _ _ fs' => if (length fs =? length fs')%nat then unify_fields again fs fs' else fails
          | Ty_StructLike (K_Struct | K_Header) _ _, _ => fails
          | Ty_Base (B_Bits _ _), Ty_Var (Type_InfInt_ i) => addUnifiableTypeVariable (Type_InfInt_ i);; addEqualityConstraint dest src;; mret true
          | Ty_Base b, Ty_Base b' => if bool_decide (b = b') then mret true else fails
          | Ty_Base _, _ => fails
          | Ty_Stack t n, Ty_Stack t' n' =>
              k ← ulift (getSize n);
              k' ← ulift (getSize n');
              if (k =? k')%Z then addEqualityConstraint t t';; mret true else fails
          | _, _ =>
              match declaration_name dest, declaration_name src with
              | Some n, Some n' => if String.eqb n n' then mret true else fails
              | _, _ => fails
              end
          end
  end.

(** ** [TypeConstraints::solve] *)
Fixpoint tsize (t : IRType) : nat :=
  let all ts := sum_list (map tsize ts) in
  let alls {A} (ts : list (A * IRType)) := sum_list (map (fun p => tsize p.2) ts) in
  match t with
  | Ty_Base _ | Ty_Var _ | Ty_Error | Ty_Enum _ | Ty_SerEnum _ | Ty_ActionEnum _ | Ty_Extern _ | Ty_Name _ => 1
  | Ty_Type t | Ty_Newtype _ _ t | Ty_Stack t _ | Ty_Set t | Ty_Typedef _ t => S (tsize t)
  | Ty_StructLike _ _ fs => S (alls fs)
  | Ty_Tuple ts => S (all ts)
  | Ty_ArchBlock _ _ _ ps => S (alls ps)
  | Ty_SpecializedCanonical b args s => S (tsize b + all args + tsize s)
  | Ty_Method _ _ r ps => S (S (match r with Some t => tsize t | None => 0 end + alls ps))
  | Ty_MethodCall targs _ args => S (S (all targs + alls args))
  end.
(** More than the nesting of both types. *)
Definition unify_fuel (dest src : IRType) : nat := S (2 * (tsize (replaceVariables dest) + tsize (replaceVariables src))).

Definition isUnifiableTypeVariable (type : IRType) : TypeConstraints -> option ITypeVar := fun s =>
  match type with
  | Ty_Var v =>
      if containsKey definedVariables v then None
      else if is_InfInt v || bool_decide (v ∈ unifiableTypeVariables s) then Some v else None
  | _ => None
  end.
(** [None] is [false]. *)
Definition solve_constraint (constraint : IRType * IRType) (subst : TypeVariableSubstitution) : U (option TypeVariableSubstitution) := fun s =>
  let '(l, r) := constraint in
  match isUnifiableTypeVariable l s with
  | Some v =>
      if match r with Ty_Var w => bool_decide (w = v) | _ => false end then oret (Some subst, s)
      else
        match subst !! v with
        | None => do result <- compose subst v (replaceVariables r); oret (result, s)
        | Some leftSubst => (addEqualityConstraint leftSubst r;; mret (Some subst)) s
        end
  | None =>
      match isUnifiableTypeVariable r s with
      | Some v =>
          match subst !! v with
          | None => do result <- compose subst v (replaceVariables l); oret (result, s)
          | Some rightSubst => (addEqualityConstraint l rightSubst;; mret (Some subst)) s
          end
      | None => (b ← unify (unify_fuel l r) l r true; mret (if b : bool then Some subst else None)) s
      end
  end.
Fixpoint solve_loop (fuel : nat) (tvs : TypeVariableSubstitution) (s : TypeConstraints) : outcome (option TypeVariableSubstitution) :=
  match constraints s with
  | [] => oret (Some tvs)
  | last :: rest =>
      match fuel with
      | O => Aborted "out of fuel"
      | S fuel =>
          do r <- solve_constraint last tvs {| unifiableTypeVariables := unifiableTypeVariables s; constraints := rest |};
          match r with (Some tvs, s) => solve_loop fuel tvs s | (None, _) => oret None end
      end
  end.
Definition solve (fuel : nat) (s : TypeConstraints) : outcome (option TypeVariableSubstitution) := solve_loop fuel ∅ s.
End unification.
