(* ===== verification/TypeConstraintsFacts.v ===== *)
(** * Type unification: what a solution of the constraints promises

    [compatible] relates the two sides of a constraint once the variables are
    replaced: equal types up to don't cares, tuples for structures, type names
    and the parameters a call may leave out.  [solve] finds a substitution under
    which the sides of every constraint are compatible. *)
From S2P Require Import Prelude Ir TypeSubst TypeSubstFacts TypeConstraints.
Local Open Scope flexplan_scope.
Implicit Types (t s d : IRType) (v w : ITypeVar).

(** ** Compatible types *)
Definition stack_size (n : option Z) : option Z := match getSize n with Done k _ => Some k | Aborted _ => None end.
Inductive compatible : IRType -> IRType -> Prop :=
| compatible_refl t : compatible t t
| compatible_dontcare_l t : compatible (Ty_Base B_Dontcare) t
| compatible_dontcare_r t : compatible t (Ty_Base B_Dontcare)
| compatible_newtype n i t n' t' : compatible (Ty_Newtype n i t) (Ty_Newtype n' i t')
| compatible_unwrap_l n i t s : compatible t s -> compatible (Ty_Newtype n i t) s
| compatible_unwrap_r t n i s : compatible t s -> compatible t (Ty_Newtype n i s)
| compatible_type t s : compatible t s -> compatible (Ty_Type t) (Ty_Type s)
| compatible_set t s : compatible t s -> compatible (Ty_Set t) (Ty_Set s)
| compatible_stack t s n n' k : compatible t s -> stack_size n = Some k -> stack_size n' = Some k -> compatible (Ty_Stack t n) (Ty_Stack s n')
| compatible_tuple ts ss : compatibles ts ss -> compatible (Ty_Tuple ts) (Ty_Tuple ss)
| compatible_struct k n fs n' fs' : fs.*1 = fs'.*1 -> compatibles fs.*2 fs'.*2 -> compatible (Ty_StructLike k n fs) (Ty_StructLike k n' fs')
| compatible_fields k n fs k' n' fs' : length fs = length fs' -> compatible_by_name fs fs' -> compatible (Ty_StructLike k n fs) (Ty_StructLike k' n' fs')
| compatible_struct_tuple k n fs ss : compatibles fs.*2 ss -> compatible (Ty_StructLike k n fs) (Ty_Tuple ss)
| compatible_tuple_struct ts k n fs : compatibles fs.*2 ts -> compatible (Ty_Tuple ts) (Ty_StructLike k n fs)
| compatible_spec_l base args t s : compatible t s -> compatible (Ty_SpecializedCanonical base args t) s
| compatible_spec_r t base args s : compatible t s -> compatible t (Ty_SpecializedCanonical base args s)
| compatible_block k n tps ps n' tps' ps' : compatible_params ps ps' -> compatible (Ty_ArchBlock k n tps ps) (Ty_ArchBlock k n' tps' ps')
| compatible_method k tps ps k' tps' ps' : compatible_params ps ps' -> compatible (Ty_Method k tps None ps) (Ty_Method k' tps' None ps')
| compatible_function k tps r ps k' tps' r' ps' : compatible r r' -> compatible_params ps ps' ->
    compatible (Ty_Method k tps (Some r) ps) (Ty_Method k' tps' (Some r') ps')
| compatible_declared t s n : named t = Some n -> named s = Some n -> compatible t s
with compatibles : list IRType -> list IRType -> Prop :=
| compatibles_nil : compatibles [] []
| compatibles_cons t ts s ss : compatible t s -> compatibles ts ss -> compatibles (t :: ts) (s :: ss)
with compatible_by_name : list (string * IRType) -> list (string * IRType) -> Prop :=
| by_name_nil fs : compatible_by_name [] fs
| by_name_cons n t s fs fs' : (n, s) ∈ fs' -> compatible t s -> compatible_by_name fs fs' -> compatible_by_name ((n, t) :: fs) fs'
with compatible_params : list (ParamInfo * IRType) -> list (ParamInfo * IRType) -> Prop :=
| params_nil : compatible_params [] []
| params_skip_l p ps : can_skip p = true -> compatible_params ps [] -> compatible_params (p :: ps) []
| params_skip_r q qs : can_skip q = true -> compatible_params [] qs -> compatible_params [] (q :: qs)
| params_cons p ps q qs : direction q.1 = direction p.1 -> compatible p.2 q.2 -> compatible_params ps qs -> compatible_params (p :: ps) (q :: qs).

(** *** Equivalent types are compatible, whatever is substituted *)
Definition on_snd {A} (f : IRType -> IRType) (ts : list (A * IRType)) : list (A * IRType) := map (fun p => (p.1, f p.2)) ts.
Lemma on_snd_cons {A} f (p : A * IRType) ts : on_snd f (p :: ts) = (p.1, f p.2) :: on_snd f ts.
Proof. done. Qed.
Lemma on_snd_fst {A} f (ts : list (A * IRType)) : (on_snd f ts).*1 = ts.*1.
Proof. induction ts as [|p ts IH]; [done|]. by rewrite on_snd_cons, !fmap_cons, IH. Qed.
Lemma on_snd_snd {A} f (ts : list (A * IRType)) : (on_snd f ts).*2 = map f ts.*2.
Proof. induction ts as [|p ts IH]; [done|]. by rewrite on_snd_cons, !fmap_cons, IH. Qed.
Lemma oall2_true {A} (f : A -> A -> outcome bool) xs : forall ys ds, length xs = length ys -> oall2 f xs ys = Done true ds -> Forall2 (fun x y => exists e, f x y = Done true e) xs ys.
Proof.
  induction xs as [|x xs IH]; intros [|y ys] ds Hl Hf; try discriminate Hl; [constructor|]. cbn [oall2] in Hf.
  destruct (f x y) as [[|] e|] eqn:E; try done. simpl in Hf. destruct (oall2 f xs ys) as [c e'|] eqn:E'; [|done]. injection Hf as -> _.
  constructor; [by exists e|]. eapply IH; [by injection Hl|]. exact E'.
Qed.
Lemma obind_true (m : outcome bool) (k : outcome bool) ds : (do x <- m; if x : bool then k else oret false) = Done true ds -> exists e e', m = Done true e /\ k = Done true e'.
Proof. intros Hm. destruct m as [[|] e|]; try done; simpl in Hm; destruct k as [c e'|]; try done. injection Hm as -> _. by exists e, e'. Qed.

Section substituted.
Context (h : ITypeVar -> option IRType).
Local Notation Θ := (tsubst h).
Definition good_equiv (t : IRType) : Prop := forall s ds, equivalent t s = Done true ds -> compatible (Θ t) (Θ s).
Lemma equivs_compatible ts ss : (forall t, t ∈ ts -> good_equiv t) -> Forall2 (fun x y => exists e, equivalent x y = Done true e) ts ss -> compatibles (map Θ ts) (map Θ ss).
Proof.
  intros Hg. induction 1 as [|t s ts ss [e He] _ IH]; simpl; [constructor|]. constructor; [eapply Hg; [apply list_elem_of_here|exact He]|].
  apply IH. intros u Hu. apply Hg. by right.
Qed.
Lemma equiv_params_compatible ps qs ds : (forall t, t ∈ ps.*2 -> good_equiv t) -> length ps = length qs ->
  oall2 (fun p q : ParamInfo * IRType => if bool_decide (direction p.1 = direction q.1) then equivalent p.2 q.2 else oret false) ps qs = Done true ds ->
  compatible_params (on_snd Θ ps) (on_snd Θ qs).
Proof.
  intros Hg Hl Ho. apply oall2_true in Ho; [|done]. clear Hl. induction Ho as [|p q ps qs [e He] _ IH]; [constructor|]. rewrite !on_snd_cons.
  case_bool_decide as Hd; [|done]. constructor; [done|eapply Hg; [apply list_elem_of_here|exact He]|]. apply IH. intros u Hu. apply Hg. by right.
Qed.
Lemma equiv_fields_compatible (fs gs : list (string * IRType)) ds : (forall t, t ∈ fs.*2 -> good_equiv t) -> length fs = length gs ->
  oall2 (fun p q : string * IRType => if String.eqb p.1 q.1 then equivalent p.2 q.2 else oret false) fs gs = Done true ds ->
  (on_snd Θ fs).*1 = (on_snd Θ gs).*1 /\ compatibles (on_snd Θ fs).*2 (on_snd Θ gs).*2.
Proof.
  intros Hg Hl Ho. apply oall2_true in Ho; [|done]. clear Hl. induction Ho as [|p q ps qs [e He] _ IH]; [split; [done|constructor]|]. rewrite !on_snd_cons, !fmap_cons.
  destruct (String.eqb_spec p.1 q.1) as [Heq|]; [|done]. destruct IH as [IH1 IH2]; [intros u Hu; apply Hg; by right|].
  split; [by rewrite Heq, IH1|]. constructor; [eapply Hg; [apply list_elem_of_here|exact He]|done].
Qed.
Lemma equivalent_compatible t : good_equiv t.
Proof.
  induction t as [t IH] using parts_induction. intros s ds He.
  destruct t, s; cbn [equivalent] in He; try discriminate He; cbn [parts] in IH;
    repeat match type of He with
    | (if negb (bool_decide ?P) then _ else _) = _ => destruct (bool_decide_reflect P) as [->|]; [cbn [negb] in He|discriminate He]
    | (if (?n =? ?m)%nat then _ else _) = _ => destruct (Nat.eqb_spec n m) as [Hlen|]; [|discriminate He]
    | oret (bool_decide ?P) = _ => destruct (bool_decide_reflect P) as [->|]; [|discriminate He]
    | oret (String.eqb ?n ?m) = _ => destruct (String.eqb_spec n m) as [->|]; [|discriminate He]
    | oret (?n =? ?m)%Z = _ => destruct (Z.eqb_spec n m) as [->|]; [|discriminate He]
    end; try apply compatible_refl.
  - apply compatible_type. eapply IH; [apply list_elem_of_here|exact He].
  - apply compatible_newtype.
  - destruct size as [n|], size0 as [n'|]; try discriminate He. apply obind_true in He as (e & e' & He & Hs).
    destruct (getSize (Some n)) as [k es|] eqn:E1; [|discriminate Hs]. cbn [obind] in Hs. destruct (getSize (Some n')) as [k' es'|] eqn:E2; [|discriminate Hs].
    simpl in Hs. injection Hs as Hk%Z.eqb_eq _. subst k'. cbn [tsubst]. apply compatible_stack with (k := k); [eapply IH; [apply list_elem_of_here|exact He]|..];
      unfold stack_size; [by rewrite E1|by rewrite E2].
  - cbn [tsubst]. destruct (equiv_fields_compatible fields fields0 ds) as [Hf Hs]; [by intros; apply IH|done|exact He|]. by apply compatible_struct.
  - cbn [tsubst]. apply compatible_tuple, equivs_compatible; [by intros; apply IH|by eapply oall2_true].
  - apply compatible_set. eapply IH; [apply list_elem_of_here|exact He].
  - cbn [tsubst]. match type of He with (if ?c then _ else _) = _ => destruct c; [discriminate He|] end.
    destruct (Nat.eqb_spec (length parameters) (length parameters0)) as [Hlen|]; [|discriminate He].
    apply compatible_block. eapply equiv_params_compatible; [by intros; apply IH|done|exact He].
  - cbn [tsubst]. apply compatible_spec_l, compatible_spec_r. eapply IH; [|exact He]. right. apply elem_of_app. right. apply list_elem_of_here.
  - destruct returnType as [r|], returnType0 as [r'|]; try (simpl in He; discriminate He); cbn [tsubst].
    + destruct (equivalent r r') as [[|] e|] eqn:Er; try (simpl in He; discriminate He). cbn [obind negb] in He.
      destruct (Nat.eqb_spec (length parameters) (length parameters0)) as [Hlen|]; [|discriminate He].
      match type of He with context [obind] => idtac | _ => idtac end.
      apply compatible_function; [eapply IH; [apply list_elem_of_here|exact Er]|].
      destruct (oall2 _ parameters parameters0) as [b e'|] eqn:Eo in He; [|discriminate He]. injection He as -> _.
      eapply equiv_params_compatible; [intros u Hu; apply IH; by right|done|exact Eo].
    + cbn [oret obind negb] in He. destruct (Nat.eqb_spec (length parameters) (length parameters0)) as [Hlen|]; [|discriminate He].
      apply compatible_method. destruct (oall2 _ parameters parameters0) as [b e'|] eqn:Eo in He; [|discriminate He]. injection He as -> _.
      eapply equiv_params_compatible; [intros u Hu; by apply IH|done|exact Eo].
Qed.
End substituted.

(** ** What a program of [U] adds to the constraints *)
Definition adds {A} (m : U A) (P : A -> list (IRType * IRType) -> Prop) : Prop := forall st a st' ds, m st = Done (a, st') ds ->
  exists new, constraints st' = new ++ constraints st /\ P a new.
Lemma adds_ret {A} (a : A) (P : A -> list (IRType * IRType) -> Prop) : P a [] -> adds (mret a) P.
Proof. intros Ha st b st' ds He. injection He as <- <- _. by exists []. Qed.
Lemma adds_bug {A} why (P : A -> list (IRType * IRType) -> Prop) : adds (bug why) P.
Proof. intros st b st' ds He. done. Qed.
Lemma adds_bind {A B} (m : U A) (k : A -> U B) P (Q : B -> list (IRType * IRType) -> Prop) : adds m P ->
  (forall a new, P a new -> adds (k a) (fun b new' => Q b (new' ++ new))) -> adds (m ≫= k) Q.
Proof.
  intros Hm Hk st b st' ds He. unfold mbind, U_bind in He. destruct (m st) as [[a s1] ds1|why] eqn:Hms; [|done]. simpl in He.
  destruct (k a s1) as [[b' s2] ds2|why] eqn:Hks; [|done]. injection He as <- <- _. destruct (Hm _ _ _ _ Hms) as (n1 & H1 & HP).
  destruct (Hk a n1 HP _ _ _ _ Hks) as (n2 & H2 & HQ). exists (n2 ++ n1). split; [by rewrite H2, H1, app_assoc|done].
Qed.
Lemma adds_mono {A} (m : U A) (P Q : A -> list (IRType * IRType) -> Prop) : (forall a new, P a new -> Q a new) -> adds m P -> adds m Q.
Proof. intros HPQ Hm st a st' ds He. destruct (Hm _ _ _ _ He) as (new & ? & ?). exists new. split; [done|]. by apply HPQ. Qed.
Lemma adds_lift {A} (o : outcome A) : adds (ulift o) (fun a new => new = [] /\ exists ds, o = Done a ds).
Proof. intros st a st' ds He. unfold ulift in He. destruct o as [b ds'|]; [|done]. injection He as <- <- _. exists []. split; [done|]. split; [done|]. by eexists. Qed.
Lemma adds_error rep msg (P : bool -> list (IRType * IRType) -> Prop) : P false [] -> adds (typeError rep msg) P.
Proof. intros HP st a st' ds He. unfold typeError in He. destruct rep; injection He as <- <- _; by exists []. Qed.
Lemma adds_unifiable v : adds (addUnifiableTypeVariable v) (fun _ new => new = []).
Proof. intros st a st' ds He. injection He as _ <- _. by exists []. Qed.
Lemma adds_unifiables tps : adds (addUnifiables tps) (fun _ new => new = []).
Proof.
  induction tps as [|v tps IH]; [by apply adds_ret|]. cbn [addUnifiables]. eapply adds_bind; [apply adds_unifiable|]. intros _ new ->. rewrite <- (app_nil_r []).
  eapply adds_mono; [|exact IH]. intros _ new ->. done.
Qed.
Lemma adds_constraint l r : adds (addEqualityConstraint l r) (fun _ new => new = [(l, r)]).
Proof.
  intros st a st' ds He. unfold addEqualityConstraint in He. destruct (is_Type_Name l || is_Type_Name r); [done|]. injection He as _ <- _. by exists [(l, r)].
Qed.
(** A step that adds nothing. *)
Lemma adds_skip {A B} (m : U A) (k : A -> U B) (Q : B -> list (IRType * IRType) -> Prop) : adds m (fun _ new => new = []) -> (forall a, adds (k a) Q) -> adds (m ≫= k) Q.
Proof. intros Hm Hk. eapply adds_bind; [exact Hm|]. intros a new ->. eapply adds_mono; [|exact (Hk a)]. intros b new HQ. by rewrite app_nil_r. Qed.

(** ** One step of unification *)
Section unify.
Context (definedVariables : TypeVariableSubstitution) (optarg : bool) (owner : string -> option Z).
Hypothesis (Hdefined : scoped_range owner definedVariables).
Local Notation rv := (replaceVariables definedVariables).
Local Notation unify_ := (unify definedVariables optarg).
(** Substitutions that replace the defined variables as well. *)
Definition respects (h : ITypeVar -> option IRType) : Prop := forall v, tsubst h (rv (Ty_Var v)) = tsubst h (Ty_Var v).
Definition ok_under (h : ITypeVar -> option IRType) (c : IRType * IRType) : Prop := compatible (tsubst h c.1) (tsubst h c.2).
Definition scoped_pair (c : IRType * IRType) : Prop := scoped owner c.1 /\ scoped owner c.2.
(** The constraints [new] are enough for [P]. *)
Definition enough (new : list (IRType * IRType)) (P : (ITypeVar -> option IRType) -> Prop) : Prop :=
  Forall scoped_pair new /\ forall h, respects h -> Forall (ok_under h) new -> P h.
Definition unified (d s : IRType) (b : bool) (new : list (IRType * IRType)) : Prop := b = true -> enough new (fun h => ok_under h (d, s)).

Lemma enough_nil P : (forall h, respects h -> P h) -> enough [] P.
Proof. intros HP. split; [constructor|]. intros h Hh _. by apply HP. Qed.
Lemma enough_app n1 n2 (P1 P2 P : (ITypeVar -> option IRType) -> Prop) : enough n1 P1 -> enough n2 P2 -> (forall h, P1 h -> P2 h -> P h) -> enough (n2 ++ n1) P.
Proof.
  intros [S1 H1] [S2 H2] HP. split; [by apply Forall_app|]. intros h Hh [F2 F1]%Forall_app. apply HP; [by apply H1|by apply H2].
Qed.
Lemma enough_mono new (P Q : (ITypeVar -> option IRType) -> Prop) : (forall h, respects h -> P h -> Q h) -> enough new P -> enough new Q.
Proof. intros HPQ [HS HP]. split; [done|]. intros h Hh HF. apply HPQ; [done|by apply HP]. Qed.
Lemma enough_one l r : scoped owner l -> scoped owner r -> enough [(l, r)] (fun h => ok_under h (l, r)).
Proof. intros Hl Hr. split; [constructor; [split; assumption|constructor]|]. intros h _ HF. by inversion_clear HF. Qed.

Lemma unify_each_adds f ts : (forall t, t ∈ ts -> scoped owner t) -> (forall d s, scoped owner d -> scoped owner s -> adds (f d s) (unified d s)) ->
  forall ss, (forall s, s ∈ ss -> scoped owner s) -> length ts = length ss ->
  adds (unify_each f ts ss) (fun b new => b = true -> enough new (fun h => compatibles (map (tsubst h) ts) (map (tsubst h) ss))).
Proof.
  intros Hts Hf. induction ts as [|t ts IH]; intros [|s ss] Hss Hl; try discriminate Hl.
  - apply adds_ret. intros _. apply enough_nil. intros h _. constructor.
  - cbn [unify_each]. eapply adds_bind; [apply Hf; [apply Hts, list_elem_of_here|apply Hss, list_elem_of_here]|]. intros [|] new Hu; [|by apply adds_ret].
    eapply adds_mono; [|apply (IH ltac:(intros u Hin; apply Hts; by right) ss); [intros u Hin; apply Hss; by right|by injection Hl]].
    intros b new' Hn Hb. eapply enough_app; [by apply Hu|by apply Hn|]. intros h H1 H2. by constructor.
Qed.
Lemma find_elem (n : string) (fs : list (string * IRType)) p : List.find (fun p => String.eqb p.1 n) fs = Some p -> p ∈ fs /\ p.1 = n.
Proof. intros Hf. apply find_some in Hf as [Hin Heq%String.eqb_eq]. by rewrite list_elem_of_In. Qed.
Lemma unify_fields_adds f (gs : list (string * IRType)) : (forall d s, scoped owner d -> scoped owner s -> adds (f d s) (unified d s)) ->
  (forall s, s ∈ gs.*2 -> scoped owner s) -> forall fs : list (string * IRType), (forall t, t ∈ fs.*2 -> scoped owner t) ->
  adds (unify_fields f fs gs) (fun b new => b = true -> enough new (fun h => compatible_by_name (on_snd (tsubst h) fs) (on_snd (tsubst h) gs))).
Proof.
  intros Hf Hgs fs. induction fs as [|[n t] fs IH]; intros Hfs; cbn [unify_fields].
  - apply adds_ret. intros _. apply enough_nil. intros h _. constructor.
  - destruct (List.find _ gs) as [p|] eqn:Hp; [|by apply adds_error]. apply find_elem in Hp as [Hin Hn].
    eapply adds_bind; [apply Hf; [apply Hfs, list_elem_of_here|apply Hgs, list_elem_of_fmap; by exists p]|]. intros [|] new Hu; [|by apply adds_ret].
    eapply adds_mono; [|apply IH; intros u Hu'; apply Hfs; by right]. intros b new' Hn' Hb. eapply enough_app; [by apply Hu|by apply Hn'|].
    intros h H1 H2. rewrite on_snd_cons. econstructor; [|exact H1|exact H2]. apply list_elem_of_fmap. exists p. by rewrite Hn.
Qed.
Lemma skip_all (ps : list (ParamInfo * IRType)) h : forallb can_skip ps = true -> compatible_params [] (on_snd (tsubst h) ps) /\ compatible_params (on_snd (tsubst h) ps) [].
Proof.
  intros Hs. induction ps as [|p ps IH]; [split; constructor|]. simpl in Hs. apply andb_true_iff in Hs as [H1 H2]. destruct (IH H2) as [I1 I2].
  rewrite on_snd_cons. split; by constructor.
Qed.
Lemma unify_params_adds rep ps : (forall t, t ∈ ps.*2 -> scoped owner t) -> forall qs : list (ParamInfo * IRType), (forall s, s ∈ qs.*2 -> scoped owner s) ->
  adds (unify_params ps qs rep) (fun b new => b = true -> enough new (fun h => compatible_params (on_snd (tsubst h) ps) (on_snd (tsubst h) qs))).
Proof.
  induction ps as [|p ps IH]; intros Hps qs Hqs; cbn [unify_params].
  - destruct (forallb can_skip qs) eqn:E; [|destruct qs; by apply adds_error]. destruct qs; apply adds_ret; intros _; apply enough_nil; intros h _; by apply skip_all.
  - destruct qs as [|q qs].
    + destruct (can_skip p) eqn:E; [|by apply adds_error]. eapply adds_mono; [|apply (IH ltac:(intros u Hu; apply Hps; by right) []); done].
      intros b new Hn Hb. eapply enough_mono; [|by apply Hn]. intros h _ Hc. rewrite on_snd_cons. by constructor.
    + case_bool_decide as Hd; [|by apply adds_error]. eapply adds_bind; [apply adds_constraint|]. intros _ new ->.
      eapply adds_mono; [|apply (IH ltac:(intros u Hu; apply Hps; by right) qs); intros u Hu; apply Hqs; by right].
      intros b new Hn Hb. eapply enough_app; [apply enough_one; [apply Hps, list_elem_of_here|apply Hqs, list_elem_of_here]|by apply Hn|].
      intros h H1 H2. rewrite !on_snd_cons. by constructor.
Qed.
(** Methods and blocks. *)
Definition ret_ok (h : ITypeVar -> option IRType) (r r' : option IRType) : Prop :=
  match r, r' with None, None => True | Some r, Some r' => compatible (tsubst h r) (tsubst h r') | _, _ => False end.
Lemma unifyFunctions_adds rep skip tps r ps tps' r' ps' : (forall t, t ∈ ps.*2 -> scoped owner t) -> (forall s, s ∈ ps'.*2 -> scoped owner s) ->
  (forall t, r = Some t -> scoped owner t) -> (forall t, r' = Some t -> scoped owner t) ->
  adds (unifyFunctions tps r ps tps' r' ps' rep skip) (fun b new => b = true ->
    enough new (fun h => compatible_params (on_snd (tsubst h) ps) (on_snd (tsubst h) ps') /\ (skip = false -> ret_ok h r r'))).
Proof.
  intros Hps Hps' Hr Hr'. unfold unifyFunctions. apply adds_skip; [apply adds_unifiables|]. intros _. apply adds_skip; [apply adds_unifiables|]. intros _.
  destruct r as [r|], r' as [r'|]; try (by apply adds_error).
  - destruct skip.
    + apply adds_skip; [by apply adds_ret|]. intros _. eapply adds_mono; [|by apply unify_params_adds]. intros c new Hn Hc. eapply enough_mono; [|by apply Hn]. done.
    + eapply adds_bind; [apply adds_constraint|]. intros _ new ->. eapply adds_mono; [|by apply unify_params_adds]. intros c new Hn Hc.
      eapply enough_app; [apply enough_one; [by apply Hr|by apply Hr']|by apply Hn|]. intros h H1 H2. by split.
  - eapply adds_mono; [|by apply unify_params_adds]. intros c new Hn Hc. eapply enough_mono; [|by apply Hn]. done.
Qed.
Lemma unifyBlocks_adds rep k n tps ps k' n' tps' ps' : scoped owner (Ty_ArchBlock k n tps ps) -> scoped owner (Ty_ArchBlock k' n' tps' ps') ->
  adds (unifyBlocks k n tps ps k' n' tps' ps' rep) (unified (Ty_ArchBlock k n tps ps) (Ty_ArchBlock k' n' tps' ps')).
Proof.
  intros Hd Hs. unfold unifyBlocks. case_bool_decide as Hk; [subst k'|by apply adds_error]. cbn [negb].
  assert (Hps : forall t, t ∈ ps.*2 -> scoped owner t) by (intros t; apply (scoped_part owner _ t Hd)).
  assert (Hps' : forall t, t ∈ ps'.*2 -> scoped owner t) by (intros t; apply (scoped_part owner _ t Hs)).
  apply adds_skip; [apply adds_unifiables|]. intros _. apply adds_skip; [apply adds_unifiables|]. intros _.
  assert (Hgo : forall skip r r' tps0 tps0', (forall t, r = Some t -> scoped owner t) -> (forall t, r' = Some t -> scoped owner t) ->
    adds (unifyFunctions tps0 r ps tps0' r' ps' rep skip) (unified (Ty_ArchBlock k n tps ps) (Ty_ArchBlock k n' tps' ps'))).
  { intros skip r r' tps0 tps0' Hr Hr'. eapply adds_mono; [|by apply unifyFunctions_adds]. intros c new Hn Hc.
    eapply enough_mono; [|by apply Hn]. intros h _ [Hp _]. by apply compatible_block. }
  destruct k.
  - destruct (String.eqb n n'); [|by apply adds_error]. apply Hgo; intros t [= <-]; assumption.
  - by apply Hgo.
  - by apply Hgo.
Qed.

(** *** The step itself *)
Lemma replaced_scoped t : scoped owner t -> scoped owner (replace_var definedVariables t).
Proof. intros Ht. destruct t; cbn [replace_var]; try assumption. by apply apply_scoped. Qed.
Lemma replaced_same h t : respects h -> tsubst h (replace_var definedVariables t) = tsubst h t.
Proof. intros Hh. destruct t; first [reflexivity|apply Hh]. Qed.
Lemma substituted_scoped t : scoped owner t -> scoped owner (substituted_of t).
Proof. intros Ht. destruct t; cbn [substituted_of]; try assumption. apply (scoped_part owner _ _ Ht). right. apply elem_of_app. right. apply list_elem_of_here. Qed.
Lemma substituted_compatible h d s : compatible (tsubst h (substituted_of d)) (tsubst h (substituted_of s)) -> compatible (tsubst h d) (tsubst h s).
Proof.
  assert (Hl : forall t u, compatible (tsubst h (substituted_of t)) u -> compatible (tsubst h t) u) by (intros [] u Hc; cbn [substituted_of tsubst] in *; try done; by apply compatible_spec_l).
  assert (Hr : forall t u, compatible u (tsubst h (substituted_of t)) -> compatible u (tsubst h t)) by (intros [] u Hc; cbn [substituted_of tsubst] in *; try done; by apply compatible_spec_r).
  intros Hc. by apply Hl, Hr.
Qed.
(** Two declarations of one name are no type variables, unless they are one. *)
Lemma declared_compatible h d s n : scoped owner d -> scoped owner s -> declaration_name d = Some n -> declaration_name s = Some n ->
  compatible (tsubst h d) (tsubst h s).
Proof.
  intros Hd Hs Hnd Hns. destruct Hd as [d _ Hod Hd _], Hs as [s _ Hos Hs _].
  assert (Hv : forall t n, declaration_name t = Some n -> named t = Some n \/ exists i, t = Ty_Var (Type_Var n i)).
  { intros [] m Hm; cbn in Hm; try discriminate Hm; try (left; exact Hm). destruct v; [|discriminate Hm]. injection Hm as ->. right. by eexists. }
  assert (Hsub : forall t, named t = Some n -> named (tsubst h t) = Some n) by (intros [] Hm; try discriminate Hm; exact Hm).
  destruct (Hv _ _ Hnd) as [H1|[i ->]], (Hv _ _ Hns) as [H2|[j ->]].
  - eapply compatible_declared; by apply Hsub.
  - apply Hd in H1. pose proof (Hos n j (list_elem_of_here _ _)). congruence.
  - apply Hs in H2. pose proof (Hod n i (list_elem_of_here _ _)). congruence.
  - pose proof (Hod n i (list_elem_of_here _ _)). pose proof (Hos n j (list_elem_of_here _ _)). simplify_eq. apply compatible_refl.
Qed.
Lemma dontcare_compatible h d s : is_Dontcare s || is_Dontcare d = true -> compatible (tsubst h d) (tsubst h s).
Proof.
  assert (Hd : forall t, is_Dontcare t = true -> t = Ty_Base B_Dontcare) by (intros [[]| | | | | | | | | | | | | | | | | |] Ht; done).
  intros [->%Hd| ->%Hd]%orb_true_iff; [apply compatible_dontcare_r|apply compatible_dontcare_l].
Qed.
(** The parts of the match of [unify]. *)
Lemma fails_adds rep msg d s : adds (typeError rep msg) (unified d s).
Proof. apply adds_error. intros Hf. discriminate Hf. Qed.
Lemma declared_adds rep msg d s n n' : scoped owner d -> scoped owner s -> declaration_name d = Some n -> declaration_name s = Some n' ->
  adds (if String.eqb n n' then mret true else typeError rep msg) (unified d s).
Proof.
  intros Hd Hs Hn Hn'. destruct (String.eqb_spec n n') as [->|]; [|apply fails_adds]. apply adds_ret. intros _. apply enough_nil. intros h _. by eapply declared_compatible.
Qed.
Lemma tuples_adds f ts ss : (forall d s, scoped owner d -> scoped owner s -> adds (f d s) (unified d s)) -> scoped owner (Ty_Tuple ts) -> scoped owner (Ty_Tuple ss) ->
  adds (if (length ts =? length ss)%nat then unify_each f ts ss else typeError true "Cannot match tuples with different sizes") (unified (Ty_Tuple ts) (Ty_Tuple ss)).
Proof.
  intros Hf Hd Hs. destruct (Nat.eqb_spec (length ts) (length ss)) as [Hl|]; [|apply fails_adds].
  eapply adds_mono; [|apply unify_each_adds; [intros t; apply (scoped_part owner _ t Hd)|exact Hf|intros t; apply (scoped_part owner _ t Hs)|exact Hl]].
  intros c new Hn Hc. eapply enough_mono; [|by apply Hn]. intros h _ Hts. by apply compatible_tuple.
Qed.
Lemma struct_tuple_adds f rep msg k n fs ss : (forall d s, scoped owner d -> scoped owner s -> adds (f d s) (unified d s)) -> scoped owner (Ty_StructLike k n fs) -> scoped owner (Ty_Tuple ss) ->
  adds (if (length fs =? length ss)%nat then unify_each f (snd <$> fs) ss else typeError rep msg) (unified (Ty_StructLike k n fs) (Ty_Tuple ss)).
Proof.
  intros Hf Hd Hs. destruct (Nat.eqb_spec (length fs) (length ss)) as [Hl|]; [|apply fails_adds].
  eapply adds_mono; [|apply unify_each_adds; [intros t; apply (scoped_part owner _ t Hd)|exact Hf|intros t; apply (scoped_part owner _ t Hs)|by rewrite length_fmap]].
  intros c new Hn Hc. eapply enough_mono; [|by apply Hn]. intros h _ Hts. apply compatible_struct_tuple. unfold ok_under. cbn [fst snd]. change (map _ fs) with (on_snd (tsubst h) fs).
  by rewrite on_snd_snd.
Qed.
Lemma structs_adds f rep msg k n fs k' n' gs : (forall d s, scoped owner d -> scoped owner s -> adds (f d s) (unified d s)) -> scoped owner (Ty_StructLike k n fs) -> scoped owner (Ty_StructLike k' n' gs) ->
  adds (if (length fs =? length gs)%nat then unify_fields f fs gs else typeError rep msg) (unified (Ty_StructLike k n fs) (Ty_StructLike k' n' gs)).
Proof.
  intros Hf Hd Hs. destruct (Nat.eqb_spec (length fs) (length gs)) as [Hl|]; [|apply fails_adds].
  eapply adds_mono; [|apply unify_fields_adds; [exact Hf|intros t; apply (scoped_part owner _ t Hs)|intros t; apply (scoped_part owner _ t Hd)]].
  intros c new Hn Hc. eapply enough_mono; [|by apply Hn]. intros h _ Hts. apply compatible_fields; [by rewrite !length_map|exact Hts].
Qed.
Lemma stacks_adds rep msg t n t' n' : scoped owner (Ty_Stack t n) -> scoped owner (Ty_Stack t' n') ->
  adds (k ← ulift (getSize n); k' ← ulift (getSize n'); if (k =? k')%Z then addEqualityConstraint t t';; mret true else typeError rep msg) (unified (Ty_Stack t n) (Ty_Stack t' n')).
Proof.
  intros Hd Hs. eapply adds_bind; [apply adds_lift|]. intros k new [-> [ds Hk]]. eapply adds_mono; [intros c new Hn; rewrite app_nil_r; exact Hn|].
  eapply adds_bind; [apply adds_lift|]. intros k' new [-> [ds' Hk']]. eapply adds_mono; [intros c new Hn; rewrite app_nil_r; exact Hn|].
  destruct (Z.eqb_spec k k') as [->|]; [|apply fails_adds]. eapply adds_bind; [apply adds_constraint|]. intros _ new ->. apply adds_ret. intros _.
  eapply enough_mono; [|apply enough_one; [apply (scoped_part owner _ _ Hd), list_elem_of_here|apply (scoped_part owner _ _ Hs), list_elem_of_here]].
  intros h _ Hc. eapply compatible_stack; [exact Hc|..]; unfold stack_size; [by rewrite Hk|by rewrite Hk'].
Qed.
Lemma methods_adds rep k tps r ps k' tps' r' ps' : scoped owner (Ty_Method k tps r ps) -> scoped owner (Ty_Method k' tps' r' ps') ->
  adds (unifyFunctions tps r ps tps' r' ps' rep false) (unified (Ty_Method k tps r ps) (Ty_Method k' tps' r' ps')).
Proof.
  intros Hd Hs. eapply adds_mono; [|apply unifyFunctions_adds].
  - intros c new Hn Hc. eapply enough_mono; [|by apply Hn]. intros h _ [Hp Hr]. specialize (Hr eq_refl).
    destruct r as [r|], r' as [r'|]; try done; unfold ok_under; cbn [fst snd tsubst]; [by apply compatible_function|by apply compatible_method].
  - intros t Ht. apply (scoped_part owner _ t Hd). apply elem_of_app. by right.
  - intros t Ht. apply (scoped_part owner _ t Hs). apply elem_of_app. by right.
  - intros t ->. apply (scoped_part owner _ t Hd). apply elem_of_app. left. apply list_elem_of_here.
  - intros t ->. apply (scoped_part owner _ t Hs). apply elem_of_app. left. apply list_elem_of_here.
Qed.
Lemma swap_adds m ts k n fs : adds m (unified (Ty_StructLike k n fs) (Ty_Tuple ts)) -> adds m (unified (Ty_Tuple ts) (Ty_StructLike k n fs)).
Proof.
  intros Hm. eapply adds_mono; [|exact Hm]. intros c new Hn Hc. eapply enough_mono; [|by apply Hn]. intros h _ Ho. unfold ok_under in *. cbn [fst snd tsubst] in *.
  inversion Ho; subst; [by apply compatible_tuple_struct|discriminate].
Qed.
Lemma int_literal_adds (w : Z) (sg : bool) (i : Z) : scoped owner (Ty_Var (Type_InfInt_ i)) -> scoped owner (Ty_Base (B_Bits w sg)) ->
  adds (addUnifiableTypeVariable (Type_InfInt_ i);; addEqualityConstraint (Ty_Base (B_Bits w sg)) (Ty_Var (Type_InfInt_ i));; mret true)
    (unified (Ty_Base (B_Bits w sg)) (Ty_Var (Type_InfInt_ i))).
Proof.
  intros Hs Hd. apply adds_skip; [apply adds_unifiable|]. intros _. eapply adds_bind; [apply adds_constraint|]. intros _ new ->. apply adds_ret. intros _. by apply enough_one.
Qed.
Lemma base_adds rep msg x y : adds (if bool_decide (x = y) then mret true else typeError rep msg) (unified (Ty_Base x) (Ty_Base y)).
Proof. case_bool_decide as E; [subst y|apply fails_adds]. apply adds_ret. intros _. apply enough_nil. intros h _. apply compatible_refl. Qed.

Lemma unify_adds fuel rep : forall d s, scoped owner d -> scoped owner s -> adds (unify_ fuel d s rep) (unified d s).
Proof.
  induction fuel as [|fuel IH]; intros d s Hd Hs; [apply adds_bug|]. cbn [unify].
  eapply adds_mono; [intros c new Hn Hc; eapply enough_mono; [|exact (Hn Hc)]; intros h Hh Ho; unfold ok_under in *; cbn [fst snd] in *;
    rewrite <- (replaced_same h d Hh), <- (replaced_same h s Hh); exact Ho|].
  apply replaced_scoped in Hd, Hs. generalize dependent (replace_var definedVariables d). generalize dependent (replace_var definedVariables s). clear s d. intros s Hs d Hd.
  eapply adds_bind; [apply adds_lift|]. intros same new [-> [ds He]]. eapply adds_mono; [intros c new Hn; rewrite app_nil_r; exact Hn|]. destruct same.
  - apply adds_ret. intros _. apply enough_nil. intros h _. by eapply equivalent_compatible.
  - clear ds He. eapply adds_mono; [intros c new Hn Hc; eapply enough_mono; [|exact (Hn Hc)]; intros h Hh; apply substituted_compatible|].
    apply substituted_scoped in Hd, Hs. generalize dependent (substituted_of d). generalize dependent (substituted_of s). clear s d. intros s Hs d Hd.
    destruct (is_Dontcare s || is_Dontcare d) eqn:Hdc; [apply adds_ret; intros _; apply enough_nil; intros h _; by apply dontcare_compatible|]. clear Hdc.
    destruct d as [b| | | | | | | |[]| | | | | | | | | |], s as [b'|[]| | | | | | |[]| | | | | | | | | |]; try apply fails_adds; cbn [declaration_name]; try (by apply declared_adds);
      try (destruct b; apply fails_adds); try (destruct v; [by apply declared_adds|apply fails_adds]); try (apply swap_adds, IH; assumption);
      try (apply tuples_adds; assumption); try (apply struct_tuple_adds; assumption); try (apply structs_adds; assumption); try (apply stacks_adds; assumption); try (apply methods_adds; assumption);
      try (apply unifyBlocks_adds; assumption).
    1: destruct b; apply base_adds.
    1: destruct b; first [by apply int_literal_adds|apply fails_adds].
    all: try (destruct v; first [by apply declared_adds|apply fails_adds]).
    inversion Hs; discriminate.
Qed.
(** *** Calls *)
(** What an argument must be to be bound to a parameter. *)
Definition passes (p : ParamInfo * IRType) (a : ArgInfo * IRType) : Prop :=
  (is_Dontcare a.2 = true -> direction p.1 = DirOut) /\ (direction p.1 = DirOut \/ direction p.1 = DirInOut -> leftValue a.1 = true) /\
  (direction p.1 = DirNone -> compileTimeConstant a.1 = true) /\ (direction p.1 <> DirNone -> is_Type_Extern p.2 = false).
Definition positional (q : (ParamInfo * IRType) * (ArgInfo * IRType)) : bool := String.eqb (aname q.2.1) "".
Definition pnames (pairs : list ((ParamInfo * IRType) * (ArgInfo * IRType))) : list string := (fun q => pname q.1.1) <$> pairs.
(** [pairs] binds the arguments: those with a name to the parameter of that
    name, the others to the first of the parameters [rest]. *)
Definition binds h (ps rest : list (ParamInfo * IRType)) (pairs : list ((ParamInfo * IRType) * (ArgInfo * IRType))) : Prop :=
  NoDup (pnames pairs) /\
  (forall q, q ∈ pairs -> q.1 ∈ ps /\ (positional q = false -> pname q.1.1 = aname q.2.1) /\ passes q.1 q.2 /\ compatible (tsubst h q.1.2) (tsubst h q.2.2)) /\
  exists k, (List.filter positional pairs).*1 = take k rest.
Lemma bind_argument_adds rep p a next (Q : bool -> list (IRType * IRType) -> Prop) : scoped owner p.2 -> scoped owner a.2 -> optarg = false -> Q false [] ->
  (passes p a -> adds (next true) (fun b new => Q b (new ++ [(p.2, a.2)]))) -> adds (bind_argument optarg p a rep next) Q.
Proof.
  intros Hp Ha -> Hf Hn. unfold bind_argument. destruct (is_Dontcare a.2 && negb (bool_decide (direction p.1 = DirOut))) eqn:E1; [by apply adds_error|].
  destruct ((bool_decide (direction p.1 = DirOut) || bool_decide (direction p.1 = DirInOut)) && negb (leftValue a.1)) eqn:E2; [by apply adds_error|].
  destruct (bool_decide (direction p.1 = DirNone) && negb (compileTimeConstant a.1)) eqn:E3; [by apply adds_error|].
  destruct (negb (bool_decide (direction p.1 = DirNone)) && is_Type_Extern p.2) eqn:E4; [by apply adds_error|].
  eapply adds_bind; [apply adds_constraint|]. intros _ new ->. apply Hn.
  clear -E1 E2 E3 E4. unfold passes. destruct (direction p.1), (is_Dontcare a.2), (leftValue a.1), (compileTimeConstant a.1), (is_Type_Extern p.2); vm_compute in E1, E2, E3, E4; try discriminate;
    (split; [|split; [|split]]); intros; try reflexivity; try discriminate; try (exfalso; congruence).
    all: intuition discriminate.
Qed.
Lemma binds_cons h ps rest rest' pairs p a : binds h ps rest' pairs -> p ∈ ps -> passes p a -> compatible (tsubst h p.2) (tsubst h a.2) -> pname p.1 ∉ pnames pairs ->
  (if String.eqb (aname a.1) "" then exists tl, rest = p :: tl /\ rest' = tl else pname p.1 = aname a.1 /\ rest' = rest) -> binds h ps rest ((p, a) :: pairs).
Proof.
  intros (Hnd & Hall & k & Hk) Hp Hpass Hc Hn Hr. split; [|split].
  - unfold pnames. rewrite fmap_cons. by apply NoDup_cons.
  - intros q [->|Hq]%elem_of_cons; [|by apply Hall]. cbn [fst snd]. split; [done|]. split; [|done]. unfold positional. cbn [snd]. destruct (String.eqb (aname a.1) ""); [discriminate|]. intros _. apply Hr.
  - cbn [List.filter]. unfold positional at 1. cbn [snd]. destruct (String.eqb (aname a.1) "").
    + destruct Hr as (tl & -> & ->). exists (S k). rewrite fmap_cons, Hk. done.
    + destruct Hr as [_ ->]. by exists k.
Qed.
Lemma getParameter_elem ps n p : getParameter ps n = Some p -> p ∈ ps /\ pname p.1 = n.
Proof. intros Hf. apply find_some in Hf as [Hin Heq%String.eqb_eq]. by rewrite list_elem_of_In. Qed.
Lemma unify_arguments_adds rep ps : optarg = false -> (forall t, t ∈ ps.*2 -> scoped owner t) -> forall args rest left, (forall p, p ∈ rest -> p ∈ ps) ->
  NoDup (okeys left) -> (forall t, t ∈ args.*2 -> scoped owner t) ->
  adds (unify_arguments optarg ps rest left args rep) (fun b new => b = true -> enough new (fun h => exists pairs, pairs.*2 = args /\ binds h ps rest pairs /\
    (forall n, n ∈ pnames pairs -> n ∈ okeys left) /\ forall n p, (n, p) ∈ left -> n ∉ pnames pairs -> can_skip p = true)).
Proof.
  intros Hopt Hps args. induction args as [|arg args IH]; intros rest left Hrest Hnd Hargs; cbn [unify_arguments].
  - unfold check_left. destruct (forallb _ left) eqn:E; [|by apply adds_error]. apply adds_ret. intros _. apply enough_nil. intros h _. exists []. split; [done|].
    split; [split; [constructor|split; [by intros q Hq%not_elem_of_nil|by exists 0%nat]]|]. split; [by intros n Hn%not_elem_of_nil|].
    intros n p Hin _. rewrite forallb_forall in E. exact (E (n, p) ltac:(by apply list_elem_of_In)).
  - assert (Hgo : forall param rest', param ∈ ps -> (forall p, p ∈ rest' -> p ∈ ps) ->
        (if String.eqb (aname arg.1) "" then exists tl, rest = param :: tl /\ rest' = tl else pname param.1 = aname arg.1 /\ rest' = rest) ->
        forall next, next true = unify_arguments optarg ps rest' (oerase (pname param.1) left) args rep ->
        adds (match ofind (pname param.1) left with None => bug "Duplicate argument name?" | Some _ => bind_argument optarg param arg rep next end)
          (fun b new => b = true -> enough new (fun h => exists pairs, pairs.*2 = arg :: args /\ binds h ps rest pairs /\
            (forall n, n ∈ pnames pairs -> n ∈ okeys left) /\ forall n p, (n, p) ∈ left -> n ∉ pnames pairs -> can_skip p = true))).
    { intros param rest' Hin Hr' Hshape next Hnext. destruct (ofind (pname param.1) left) as [x|] eqn:Hx; [|apply adds_bug].
      apply bind_argument_adds; [apply Hps, list_elem_of_fmap; by exists param|apply Hargs, list_elem_of_here|done|done|].
      intros Hpass. rewrite Hnext. eapply adds_mono; [|apply (IH rest' (oerase (pname param.1) left)); [done|by apply NoDup_oerase|intros t Ht; apply Hargs; by right]].
      intros c new Hn Hc. eapply enough_app; [apply enough_one; [apply Hps, list_elem_of_fmap; by exists param|apply Hargs, list_elem_of_here]|by apply Hn|].
      intros h Hok (pairs & Hp & Hb & Hk & Hl). exists ((param, arg) :: pairs).
      assert (Hfresh : pname param.1 ∉ pnames pairs).
      { intros Hc'. apply Hk, ofind_is_Some in Hc'. rewrite ofind_oerase, decide_True in Hc' by done. by destruct Hc'. }
      split; [by rewrite fmap_cons, Hp|]. split; [by eapply binds_cons|]. split.
      - intros n [->|Hn']%elem_of_cons; [apply ofind_is_Some; by exists x|]. apply Hk, ofind_is_Some in Hn'. rewrite ofind_oerase in Hn'. case_decide; [by destruct Hn'|]. by apply ofind_is_Some.
      - intros n p Hnp Hnot. assert (Hne : n <> pname param.1) by (intros ->; apply Hnot, list_elem_of_here). apply (Hl n p); [|intros Hin'; apply Hnot; by right].
        apply ofind_Some_elem. rewrite ofind_oerase, decide_False by done. by apply NoDup_ofind. }
    destruct (String.eqb (aname arg.1) "") eqn:En; cbn [negb].
    + destruct rest as [|param tl]; [by apply adds_error|]. apply (Hgo param tl); [apply Hrest, list_elem_of_here|intros p Hp; apply Hrest; by right|by exists tl|done].
    + destruct (getParameter ps (aname arg.1)) as [param|] eqn:Eg; [|by apply adds_error]. apply getParameter_elem in Eg as [Hin Hname]. by apply (Hgo param rest).
Qed.
Lemma NoDup_emplace n p (m : list (string * (ParamInfo * IRType))) : NoDup (okeys m) -> NoDup (okeys (oemplace (ord := String.ltb) n p m)).
Proof. intros Hm. unfold oemplace. destruct (ofind n m) eqn:E; [done|]. rewrite okeys_oinsert_perm. apply NoDup_cons. split; [by apply ofind_None_keys|done]. Qed.
Lemma params_left_spec (ps : list (ParamInfo * IRType)) : NoDup (okeys (params_left ps)) /\
  (NoDup ((fun p => pname p.1) <$> ps) -> forall p, p ∈ ps -> (pname p.1, p) ∈ params_left ps).
Proof.
  unfold params_left. assert (Hgen : forall m : list (string * (ParamInfo * IRType)), NoDup (okeys m) ->
    NoDup (okeys (fold_left (fun m p => oemplace (ord := String.ltb) (pname p.1) p m) ps m)) /\
    forall n p, ofind n m = Some p \/ (ofind n m = None /\ NoDup ((fun p => pname p.1) <$> ps) /\ p ∈ ps /\ pname p.1 = n) ->
      (n, p) ∈ fold_left (fun m p => oemplace (ord := String.ltb) (pname p.1) p m) ps m).
  { induction ps as [|q ps IH]; intros m Hm; cbn [fold_left].
    - split; [done|]. intros n p [Hp|(_ & _ & Hp%not_elem_of_nil & _)]; [by apply ofind_Some_elem|done].
    - destruct (IH (oemplace (ord := String.ltb) (pname q.1) q m)) as [I1 I2]; [by apply NoDup_emplace|]. split; [done|].
      intros n p Hp. apply I2. rewrite ofind_oemplace. rewrite fmap_cons, NoDup_cons, elem_of_cons in Hp.
      destruct (decide (n = pname q.1)) as [->|Hne].
      + left. destruct Hp as [->|(-> & (Hq & _) & [->|Hin] & Heq)]; [done|done|]. exfalso. apply Hq. rewrite <- Heq. by apply (list_elem_of_fmap_2 (fun p => pname p.1)).
      + destruct Hp as [->|(-> & (_ & Hnd) & [->|Hin] & Heq)]; [by left|congruence|by right]. }
  destruct (Hgen [] NoDup_nil_2) as [H1 H2]. split; [done|]. intros Hnd p Hp. apply H2. right. done.
Qed.
(** A call: its type and type arguments agree with those of the method, and its
    arguments are bound. *)
Definition call_ok h (tps : list ITypeVar) (ret : option IRType) (ps : list (ParamInfo * IRType)) (targs : list IRType) (sret : ITypeVar) (args : list (ArgInfo * IRType)) : Prop :=
  ok_under h (default Void ret, Ty_Var sret) /\ (targs = [] \/ Forall2 (fun v t => ok_under h (Ty_Var v, t)) tps targs) /\
  exists pairs, pairs.*2 = args /\ binds h ps ps pairs /\ forall p, p ∈ ps -> pname p.1 ∉ pnames pairs -> can_skip p = true.
Definition well_scoped_call (tps : list ITypeVar) (ret : option IRType) (ps : list (ParamInfo * IRType)) (targs : list IRType) (sret : ITypeVar) (args : list (ArgInfo * IRType)) : Prop :=
  (forall v, v ∈ tps -> scoped owner (Ty_Var v)) /\ scoped owner (default Void ret) /\ scoped owner (Ty_Var sret) /\ (forall t, t ∈ ps.*2 -> scoped owner t) /\
  (forall t, t ∈ targs -> scoped owner t) /\ (forall t, t ∈ args.*2 -> scoped owner t) /\ NoDup ((fun p => pname p.1) <$> ps).
Lemma type_arguments_adds tps : (forall v, v ∈ tps -> scoped owner (Ty_Var v)) -> forall targs, (forall t, t ∈ targs -> scoped owner t) -> length tps = length targs ->
  adds (add_type_arguments (zip tps targs)) (fun _ new => enough new (fun h => Forall2 (fun v t => ok_under h (Ty_Var v, t)) tps targs)).
Proof.
  induction tps as [|v tps IH]; intros Hv [|t targs] Ht Hl; try discriminate Hl; [apply adds_ret, enough_nil; constructor|]. cbn [zip zip_with add_type_arguments].
  eapply adds_bind; [apply adds_constraint|]. intros _ new ->.
  eapply adds_mono; [|apply (IH ltac:(intros u Hu; apply Hv; by right) targs); [intros u Hu; apply Ht; by right|by injection Hl]].
  intros a new Hn. eapply enough_app; [apply enough_one; [apply Hv, list_elem_of_here|apply Ht, list_elem_of_here]|exact Hn|]. intros h H1 H2. by constructor.
Qed.
Lemma unifyCall_adds rep tps ret ps targs sret args : optarg = false -> well_scoped_call tps ret ps targs sret args ->
  adds (unifyCall optarg tps ret ps targs sret args rep) (fun b new => b = true -> enough new (fun h => call_ok h tps ret ps targs sret args)).
Proof.
  intros Hopt (Htps & Hret & Hsret & Hps & Htargs & Hargs & Hnd). unfold unifyCall. apply adds_skip; [apply adds_unifiables|]. intros _.
  eapply adds_bind; [apply adds_constraint|]. intros _ n1 ->. apply adds_skip; [apply adds_unifiable|]. intros _. apply adds_skip; [apply adds_unifiables|]. intros _.
  destruct (negb (length targs =? 0)%nat && negb (length tps =? length targs)%nat) eqn:El; [by apply adds_error|].
  eapply (adds_bind _ _ (fun _ new => enough new (fun h => targs = [] \/ Forall2 (fun v t => ok_under h (Ty_Var v, t)) tps targs))).
  - destruct (Nat.eqb_spec (length targs) 0) as [Hz|]; [apply adds_ret, enough_nil; intros h _; left; by apply nil_length_inv|].
    destruct (Nat.eqb_spec (length tps) (length targs)) as [Hl|]; [|discriminate El].
    eapply adds_mono; [|by apply type_arguments_adds]. intros a new. apply enough_mono. intros h _ HF. by right.
  - intros _ n2 H2. destruct (length ps <? length args)%nat; [by apply adds_error|]. destruct (params_left_spec ps) as [Hl1 Hl2].
    eapply adds_mono; [|apply (unify_arguments_adds rep ps Hopt Hps args ps (params_left ps)); done]. intros b new Hn Hb.
    eapply enough_app; [|eapply (enough_app _ _ _ _ (fun h => _ /\ _)); [exact H2|by apply Hn|intros h Ha Hp; exact (conj Ha Hp)]|].
    + by apply enough_one.
    + intros h Hr (Ht & pairs & Hp & Hbi & _ & Hrest). split; [done|]. split; [done|]. exists pairs. split; [done|]. split; [done|].
      intros p Hin Hnot. eapply Hrest; [|done]. by apply Hl2.
Qed.
End unify.
