(* ===== verification/TypeSolving.v ===== *)
(** * Type unification: the constraints are solved

    [solve] works on the constraints one at a time; each step is justified
    backwards, from a substitution that satisfies what is left to one that
    satisfies the constraint as well. *)
From S2P Require Import Prelude Ir TypeSubst TypeSubstFacts TypeConstraints TypeConstraintsFacts.
Local Open Scope flexplan_scope.
Implicit Types (t s d : IRType) (v w : ITypeVar).

Lemma tsubst_bound h v t : h v = Some t -> tsubst h (Ty_Var v) = t.
Proof. intros Hv. simpl. by rewrite Hv. Qed.
(** A substitution that keeps what [g] says absorbs it. *)
Lemma tsubst_absorb h g t : (forall v s, occurs_in v t = true -> g v = Some s -> h v = Some (tsubst h s)) -> tsubst h (tsubst g t) = tsubst h t.
Proof. intros Hg. apply tsubst_comp. intros v Hv. destruct (g v) as [s|] eqn:Es; [|done]. by eapply Hg. Qed.
Lemma apply_single v u t : occurs_in v u = false -> apply_subst {[v := u]} t = tsubst (fun w => if decide (w = v) then Some u else None) t.
Proof.
  intros Hocc. rewrite apply_subst_eq. apply tsubst_ext. intros w _. unfold TypeVariableSubstitution in *. pose proof (value_of_None (size ({[v := u]} : gmap ITypeVar IRType)) {[v := u]} w) as Hn.
  unfold TypeVariableSubstitution in *.
  destruct (decide (w = v)) as [->|Hne]; [|apply Hn; by rewrite lookup_singleton_ne].
  assert (Ha : acyclic {[v := u]}).
  { exists (fun _ => 0%nat). intros x t' y Hx Hy [t'' Hb]. apply lookup_singleton_Some in Hx as [<- <-]. apply lookup_singleton_Some in Hb as [<- _]. congruence. }
  pose proof (apply_bound {[v := u]} v u Ha (lookup_singleton_eq (M:=gmap ITypeVar) v u)) as Hb. unfold TypeVariableSubstitution in *. rewrite (apply_id _ u) in Hb.
  - rewrite apply_subst_eq in Hb. simpl in Hb. destruct (value_of _ _ v) as [x|] eqn:E; [by simplify_eq/=|]. pose proof (proj1 Hn eq_refl) as E'. by rewrite lookup_singleton_eq in E'.
  - intros x Hx. apply lookup_singleton_ne. intros <-. congruence.
Qed.
Lemma strip_compatible h t s : compatible (tsubst h t) (tsubst h (strip_Newtype s)) -> compatible (tsubst h t) (tsubst h s).
Proof. induction s as [s IH] using parts_induction. intros Hc. destruct s; try exact Hc. cbn [tsubst]. apply compatible_unwrap_r, IH; [apply list_elem_of_here|exact Hc]. Qed.
Lemma strip_compatible_l h t s : compatible (tsubst h (strip_Newtype s)) (tsubst h t) -> compatible (tsubst h s) (tsubst h t).
Proof. induction s as [s IH] using parts_induction. intros Hc. destruct s; try exact Hc. cbn [tsubst]. apply compatible_unwrap_l, IH; [apply list_elem_of_here|exact Hc]. Qed.
Lemma strip_part (P : IRType -> Prop) s : (forall t u, P t -> u ∈ parts t -> P u) -> P s -> P (strip_Newtype s).
Proof. intros HP. induction s as [s IH] using parts_induction. intros Hs. destruct s; try exact Hs. cbn [strip_Newtype]. apply IH; [apply list_elem_of_here|]. eapply HP; [exact Hs|apply list_elem_of_here]. Qed.

Section solve.
Context (definedVariables : TypeVariableSubstitution) (owner : string -> option Z).
Hypothesis (Hdefined : scoped_range owner definedVariables) (Hacyclic : acyclic definedVariables).
Local Notation rv := (replaceVariables definedVariables).
Local Notation respects := (respects definedVariables).

(** ** Constraints *)
(** Two types, or a method and a call. *)
Definition well_scoped (c : IRType * IRType) : Prop :=
  match c with
  | (Ty_Method _ tps ret ps, Ty_MethodCall targs sret args) => well_scoped_call owner tps ret ps targs sret args
  | _ => scoped_pair owner c
  end.
Definition satisfied h (c : IRType * IRType) : Prop :=
  match c with
  | (Ty_Method _ tps ret ps, Ty_MethodCall targs sret args) => call_ok h tps ret ps targs sret args
  | _ => ok_under h c
  end.
Lemma call_not_scoped targs r args : ~ scoped owner (Ty_MethodCall targs r args).
Proof. intros Hs. inversion Hs. discriminate. Qed.
Lemma satisfied_scoped h c : scoped_pair owner c -> satisfied h c <-> ok_under h c.
Proof.
  destruct c as [l r]. intros [_ Hr]. destruct r; try (exact (False_ind _ (call_not_scoped _ _ _ Hr))); destruct l; exact (iff_refl _).
Qed.
Lemma well_scoped_pair c : scoped_pair owner c -> well_scoped c.
Proof. destruct c as [l r]. intros [Hl Hr]. destruct r; try (exact (False_ind _ (call_not_scoped _ _ _ Hr))); destruct l; exact (conj Hl Hr). Qed.
Lemma well_scoped_cases c : well_scoped c -> scoped_pair owner c \/ exists k tps ret ps targs sret args, c = (Ty_Method k tps ret ps, Ty_MethodCall targs sret args).
Proof. destruct c as [l r]. destruct l, r; try (intros Hc; left; exact Hc). intros _. right. by do 7 eexists. Qed.

(** ** Substitutions a solution extends *)
Definition closes h (b : TypeVariableSubstitution) : Prop := forall v t, b !! v = Some t -> h v = Some (tsubst h t).
(** The solutions considered replace what has been bound for good. *)
Definition extends h : Prop := respects h /\ forall v, is_Some (definedVariables !! v) -> is_Some (h v).
Lemma extends_rv h t : extends h -> tsubst h (rv t) = tsubst h t.
Proof.
  intros [Hr Hs]. unfold replaceVariables. rewrite apply_subst_eq. apply tsubst_absorb. intros v s _ Hv.
  assert (Hd : is_Some (definedVariables !! v)).
  { destruct (definedVariables !! v) eqn:E; [done|]. apply (value_of_None (size definedVariables)) in E. congruence. }
  destruct (Hs v Hd) as [t' Ht']. rewrite Ht'. f_equal. pose proof (Hr v) as Hrv. unfold replaceVariables in Hrv. rewrite apply_subst_eq, (tsubst_bound _ _ _ Hv), (tsubst_bound _ _ _ Ht') in Hrv. done.
Qed.
(** The range of a substitution under construction. *)
Definition fresh t : Prop := forall v, occurs_in v t = true -> definedVariables !! v = None.
Definition building (b : TypeVariableSubstitution) : Prop :=
  scoped_range owner b /\ (forall v t, b !! v = Some t -> definedVariables !! v = None /\ fresh t).
Lemma fresh_rv t : scoped owner t -> fresh (rv t).
Proof. intros Ht v Hv. eapply apply_normal; [exact Hacyclic|by eapply scoped_range_plain|by eapply scoped_plain|exact Hv]. Qed.
Lemma fresh_part t u : fresh t -> u ∈ parts t -> fresh u.
Proof. intros Ht Hu v Hv. apply Ht, occurs_parts. right. by exists u. Qed.

Lemma insert_step b v u : building b -> definedVariables !! v = None -> b !! v = None -> occurs_in v u = false -> scoped owner u -> fresh u ->
  building (<[v := u]> (apply_subst {[v := u]} <$> b)) /\
  forall h, closes h (<[v := u]> (apply_subst {[v := u]} <$> b)) -> closes h b /\ tsubst h (Ty_Var v) = tsubst h u.
Proof.
  unfold TypeVariableSubstitution in *. intros [Hs Hf] Hd Hb Hocc Hu Hfu. split; [split|].
  - intros w t Hw. apply lookup_insert_Some in Hw as [[-> ->]|[Hne Hw]]; [assumption|]. rewrite lookup_fmap in Hw. apply fmap_Some in Hw as (t' & Ht' & ->).
    apply apply_scoped; [|by eapply Hs]. intros x y Hx. apply lookup_singleton_Some in Hx as [_ <-]. assumption.
  - intros w t Hw. apply lookup_insert_Some in Hw as [[-> ->]|[Hne Hw]]; [by split|]. rewrite lookup_fmap in Hw. apply fmap_Some in Hw as (t' & Ht' & ->).
    destruct (Hf w t' Ht') as [Hdw Hft]. split; [exact Hdw|]. intros x Hx. rewrite apply_single in Hx by exact Hocc.
    apply occurs_tsubst in Hx as [[Hx _]|(y & s & Hy & Hys & Hx)]; [by apply Hft| |eapply scoped_plain, Hs, Ht']. case_decide; [|discriminate Hys]. injection Hys as <-. by apply Hfu.
  - unfold closes, TypeVariableSubstitution in *. intros h Hc. pose proof (Hc v u ltac:(by rewrite lookup_insert_eq)) as Hv. split; [|by apply tsubst_bound]. intros w t Hw.
    assert (Hne : w <> v) by (intros ->; congruence). pose proof (Hc w (apply_subst {[v := u]} t)) as Hcw. rewrite lookup_insert_ne, lookup_fmap, Hw in Hcw by done.
    rewrite (Hcw eq_refl). f_equal. rewrite apply_single by exact Hocc. apply tsubst_absorb. intros x s _ Hx. case_decide; [|discriminate Hx]. by simplify_eq.
Qed.
(** A variable is bound to the other side, or to what is left of it. *)
Lemma compose_inv b v u b' ds : compose b v u = Done (Some b') ds -> (is_Dontcare u = true /\ b' = b) \/
  exists u', (u' = u \/ u' = strip_Newtype u) /\ occurs_in v u' = false /\ b' = <[v := u']> (apply_subst {[v := u']} <$> b).
Proof.
  intros Hc. destruct (is_Dontcare u) eqn:Hdc.
  { left. split; [reflexivity|]. destruct u as [[]| | | | | | | | | | | | | | | | | |]; try discriminate Hdc. cbn [compose] in Hc. by injection Hc as <- _. }
  right. exists (if is_InfInt v then strip_Newtype u else u). split; [destruct (is_InfInt v); [by right|by left]|].
  assert (Heq : compose b v u = (let substitution := if is_InfInt v then strip_Newtype u else u in
    if is_InfInt v && negb (is_int_type substitution) then report (DError "Cannot unify type") None
    else if occurs_in v substitution then oret None else if containsKey b v then Aborted "Two constraints on the same variable"
    else oret (Some (<[v := substitution]> (apply_subst {[v := substitution]} <$> b))))).
  { unfold compose. destruct u as [[]| | | | | | | | | | | | | | | | | |]; first [reflexivity|discriminate Hdc]. }
  rewrite Heq in Hc. cbv zeta in Hc. destruct (is_InfInt v && _); [discriminate Hc|]. destruct (occurs_in v _) eqn:Eo in Hc; [discriminate Hc|].
  destruct (containsKey b v); [discriminate Hc|]. by injection Hc as <- _.
Qed.
Lemma compose_step b v t b' ds : building b -> definedVariables !! v = None -> b !! v = None -> scoped owner t -> compose b v (rv t) = Done (Some b') ds ->
  building b' /\ forall h, extends h -> closes h b' -> closes h b /\ compatible (tsubst h (Ty_Var v)) (tsubst h t) /\ compatible (tsubst h t) (tsubst h (Ty_Var v)).
Proof.
  intros Hb Hd Hv Ht Hc. pose proof (fresh_rv t Ht) as Hfr. assert (Hsc : scoped owner (rv t)) by by apply apply_scoped.
  assert (Hrv : forall h, extends h -> tsubst h (rv t) = tsubst h t) by (intros; by apply extends_rv).
  apply compose_inv in Hc as [[Hdc ->]|(u' & Hor & Hocc & ->)].
  { split; [exact Hb|]. intros h He Hcl. rewrite <- (Hrv h He). split; [exact Hcl|]. destruct (rv t) as [[]| | | | | | | | | | | | | | | | | |]; try discriminate Hdc. cbn [tsubst].
    split; [apply compatible_dontcare_r|apply compatible_dontcare_l]. }
  assert (Hpart : scoped owner u' /\ fresh u').
  { destruct Hor as [->| ->]; [by split|]. split; apply strip_part; try assumption; [apply scoped_part|apply fresh_part]. }
  destruct (insert_step b v u' Hb Hd Hv Hocc (proj1 Hpart) (proj2 Hpart)) as [H1 H2]. split; [exact H1|]. intros h He Hcl. destruct (H2 h Hcl) as [H3 H4].
  split; [exact H3|]. rewrite H4, <- (Hrv h He). destruct Hor as [->| ->]; [split; apply compatible_refl|]. split; [apply strip_compatible|apply strip_compatible_l]; apply compatible_refl.
Qed.

(** ** One constraint *)
Lemma isUnifiable_spec t st v : isUnifiableTypeVariable definedVariables t st = Some v -> t = Ty_Var v /\ definedVariables !! v = None.
Proof.
  unfold isUnifiableTypeVariable, containsKey. destruct t; try discriminate. destruct (definedVariables !! v0) eqn:E; [discriminate|]. destruct (is_InfInt v0 || _); [|discriminate].
  intros Hv. injection Hv as <-. split; [reflexivity|exact E].
Qed.
Definition justified (c : IRType * IRType) b (rest : list (IRType * IRType)) b' (left : list (IRType * IRType)) : Prop :=
  building b' /\ Forall well_scoped left /\
  forall h, extends h -> closes h b' -> Forall (satisfied h) left -> closes h b /\ satisfied h c /\ Forall (satisfied h) rest.
(** A variable against a type, from either side. *)
Lemma bind_step b v t c rest st b' st' ds : building b -> definedVariables !! v = None -> scoped owner t -> scoped owner (Ty_Var v) -> Forall well_scoped rest ->
  constraints st = rest -> c = (Ty_Var v, t) \/ c = (t, Ty_Var v) -> b !! v = None ->
  (do result <- compose b v (rv t); oret (result, st)) = Done (Some b', st') ds -> justified c b rest b' (constraints st').
Proof.
  intros Hb Hd Ht Hsv Hrest Hst Hc Hv He. destruct (compose b v (rv t)) as [r ds'|] eqn:Eq; [|discriminate He]. injection He as -> <- _. rewrite Hst.
  destruct (compose_step b v t b' ds' Hb Hd Hv Ht Eq) as [H1 H2]. split; [exact H1|]. split; [exact Hrest|]. intros h Hh Hcl Hf. destruct (H2 h Hh Hcl) as (H3 & H4 & H5).
  split; [exact H3|]. split; [|exact Hf]. destruct Hc as [->| ->]; apply satisfied_scoped; try (split; assumption); assumption.
Qed.
Lemma rebind_step b v u t c c' rest st b' st' ds : building b -> b !! v = Some u -> scoped owner t -> scoped owner (Ty_Var v) -> Forall well_scoped rest -> constraints st = rest ->
  (c = (Ty_Var v, t) /\ c' = (u, t)) \/ (c = (t, Ty_Var v) /\ c' = (t, u)) ->
  (addEqualityConstraint c'.1 c'.2;; mret (Some b)) st = Done (Some b', st') ds -> justified c b rest b' (constraints st').
Proof.
  intros Hb Hv Ht Hsv Hrest Hst Hc He.
  assert (Hadds : adds (addEqualityConstraint c'.1 c'.2;; mret (Some b)) (fun r new => r = Some b /\ new = [c'])).
  { eapply adds_bind; [apply adds_constraint|]. intros _ new ->. apply adds_ret. by destruct c'. }
  destruct (Hadds _ _ _ _ He) as (new & Hnew & [= ->] & ->). rewrite Hnew, Hst. pose proof (proj1 Hb _ _ Hv) as Hu.
  assert (Hsc : scoped_pair owner c' /\ scoped_pair owner c) by (destruct Hc as [[-> ->]|[-> ->]]; split; split; assumption).
  split; [exact Hb|]. split; [constructor; [apply well_scoped_pair, Hsc|exact Hrest]|]. intros h Hh Hcl Hf. apply Forall_cons in Hf as [Hf1 Hf2]. split; [exact Hcl|]. split; [|exact Hf2].
  apply satisfied_scoped; [apply Hsc|]. apply satisfied_scoped in Hf1; [|apply Hsc]. pose proof (tsubst_bound _ _ _ (Hcl v u Hv)) as Heq.
  destruct Hc as [[-> ->]|[-> ->]]; unfold ok_under in *; cbn [fst snd] in *; rewrite Heq; exact Hf1.
Qed.
Lemma unify_call_adds fuel k tps ret ps targs sret args rep : well_scoped_call owner tps ret ps targs sret args ->
  adds (unify definedVariables false fuel (Ty_Method k tps ret ps) (Ty_MethodCall targs sret args) rep)
    (fun b new => b = true -> enough definedVariables owner new (fun h => call_ok h tps ret ps targs sret args)).
Proof.
  intros Hc. destruct fuel as [|fuel]; [apply adds_bug|]. cbn [unify replace_var equivalent].
  eapply adds_bind; [apply adds_lift|]. intros same new [-> [ds He]]. injection He as <- _. cbn [substituted_of is_Dontcare orb].
  eapply adds_mono; [intros b new Hn; rewrite app_nil_r; exact Hn|]. by apply unifyCall_adds.
Qed.
Lemma unify_step c b st b' st' ds : building b -> well_scoped c -> Forall well_scoped (constraints st) ->
  (r ← unify definedVariables false (unify_fuel definedVariables c.1 c.2) c.1 c.2 true; mret (if r : bool then Some b else None)) st = Done (Some b', st') ds ->
  justified c b (constraints st) b' (constraints st').
Proof.
  intros Hb Hc Hrest He.
  assert (Hadds : adds (unify definedVariables false (unify_fuel definedVariables c.1 c.2) c.1 c.2 true)
    (fun r new => r = true -> enough definedVariables owner new (fun h => satisfied h c))).
  { destruct (well_scoped_cases c Hc) as [Hs|(k & tps & ret & ps & targs & sret & args & ->)]; [|by apply unify_call_adds].
    eapply adds_mono; [|apply unify_adds; [exact Hdefined|apply Hs|apply Hs]]. intros r new Hn Hr. eapply enough_mono; [|exact (Hn Hr)]. intros h _ Ho.
    apply satisfied_scoped; [exact Hs|]. by destruct c. }
  unfold mbind, U_bind in He. destruct (unify _ _ _ _ _ _ st) as [[r st1] ds1|] eqn:Eu; [|discriminate He]. simpl in He. injection He as Hr <- _.
  destruct (Hadds _ _ _ _ Eu) as (new & Hnew & Hen). destruct r; [|discriminate Hr]. injection Hr as <-. destruct (Hen eq_refl) as [Hsc Hok]. rewrite Hnew.
  split; [exact Hb|]. split; [apply Forall_app; split; [|exact Hrest]; eapply Forall_impl; [exact Hsc|]; apply well_scoped_pair|].
  intros h [Hh Hh'] Hcl Hf. apply Forall_app in Hf as [Hf1 Hf2]. split; [exact Hcl|]. split; [|exact Hf2]. apply Hok; [exact Hh|].
  apply Forall_forall. intros x Hx. rewrite Forall_forall in Hf1, Hsc. apply satisfied_scoped; [by apply Hsc|by apply Hf1].
Qed.
Lemma solve_step c b st b' st' ds : building b -> well_scoped c -> Forall well_scoped (constraints st) ->
  solve_constraint definedVariables false c b st = Done (Some b', st') ds -> justified c b (constraints st) b' (constraints st').
Proof.
  intros Hb Hc Hrest He. destruct c as [l r]. unfold solve_constraint in He.
  destruct (isUnifiableTypeVariable definedVariables l st) as [v|] eqn:El; [|destruct (isUnifiableTypeVariable definedVariables r st) as [v|] eqn:Er].
  - apply isUnifiable_spec in El as [-> Hd]. assert (Hs : scoped_pair owner (Ty_Var v, r)) by exact Hc. destruct Hs as [Hsv Hsr].
    destruct (match r with Ty_Var w => bool_decide (w = v) | _ => false end) eqn:Esame.
    + injection He as <- <- _. split; [exact Hb|]. split; [exact Hrest|]. intros h _ Hcl Hf. split; [exact Hcl|]. split; [|exact Hf]. destruct r; try discriminate Esame.
      apply bool_decide_eq_true in Esame as ->. apply satisfied_scoped; [split; assumption|]. apply compatible_refl.
    + destruct (b !! v) as [u|] eqn:Ev; [eapply (rebind_step b v u r _ (u, r))|eapply (bind_step b v r)]; try eassumption; try reflexivity; left; try split; reflexivity.
  - apply isUnifiable_spec in Er as [-> Hd]. assert (Hs : scoped_pair owner (l, Ty_Var v)) by (destruct l; exact Hc). destruct Hs as [Hsl Hsv].
    destruct (b !! v) as [u|] eqn:Ev; [eapply (rebind_step b v u l _ (l, u))|eapply (bind_step b v l)]; try eassumption; try reflexivity; right; try split; reflexivity.
  - by apply (unify_step (l, r) b st b' st' ds).
Qed.
Lemma solve_loop_justified fuel : forall b st b' ds, building b -> Forall well_scoped (constraints st) -> solve_loop definedVariables false fuel b st = Done (Some b') ds ->
  building b' /\ forall h, extends h -> closes h b' -> closes h b /\ Forall (satisfied h) (constraints st).
Proof.
  induction fuel as [|fuel IH]; intros b st b' ds Hb Hst He; cbn [solve_loop] in He; destruct (constraints st) as [|c rest] eqn:Ec.
  - injection He as <- _. split; [exact Hb|]. intros h _ Hcl. by split.
  - discriminate He.
  - injection He as <- _. split; [exact Hb|]. intros h _ Hcl. by split.
  - apply Forall_cons in Hst as [Hc Hrest]. destruct (solve_constraint _ _ c b _) as [[[b1|] st1] ds1|] eqn:Es; simpl in He; [|discriminate He|discriminate He].
    destruct (solve_loop definedVariables false fuel b1 st1) as [r ds2|] eqn:El; [|discriminate He]. injection He as -> _.
    assert (Hj : justified c b rest b1 (constraints st1)).
    { apply (solve_step c b {| unifiableTypeVariables := unifiableTypeVariables st; constraints := rest |} b1 st1 ds1); assumption. }
    destruct Hj as (H1 & H2 & H3). destruct (IH b1 st1 b' ds2 H1 H2 El) as [I1 I2].
    split; [exact I1|]. intros h Hh Hcl. destruct (I2 h Hh Hcl) as [J1 J2]. destruct (H3 h Hh J1 J2) as (K1 & K2 & K3). split; [exact K1|]. by constructor.
Qed.

(** ** The solution *)
(** What the variables become when the result is applied after what has been
    bound for good. *)
Definition solution (b : TypeVariableSubstitution) : ITypeVar -> option IRType := fun v =>
  match definedVariables !! v, b !! v with None, None => None | _, _ => Some (apply_subst b (rv (Ty_Var v))) end.
Lemma solution_eq b t : building b -> tsubst (solution b) t = apply_subst b (rv t).
Proof.
  intros Hb. unfold replaceVariables. rewrite (apply_subst_eq definedVariables), (apply_subst_eq b). symmetry. apply tsubst_comp. intros v _. unfold solution.
  pose proof (value_of_None (size definedVariables) definedVariables v) as H1. pose proof (value_of_None (size b) b v) as H2. unfold replaceVariables.
  rewrite (apply_subst_eq definedVariables), (apply_subst_eq b). cbn [tsubst].
  destruct (definedVariables !! v) eqn:Ed.
  - destruct (value_of _ definedVariables v) eqn:E; [reflexivity|]. discriminate (proj1 H1 eq_refl).
  - rewrite (proj2 H1 eq_refl). cbn [default tsubst]. destruct (b !! v) eqn:Eb; [|symmetry; by apply H2]. destruct (value_of _ b v) eqn:E; [reflexivity|]. discriminate (proj1 H2 eq_refl).
Qed.
Lemma solution_extends b : building b -> extends (solution b).
Proof.
  intros Hb. split.
  - intros v. rewrite !solution_eq by exact Hb. f_equal. apply apply_idem; [exact Hacyclic|by eapply scoped_range_plain|]. constructor; [reflexivity|]. intros s Hs. by apply not_elem_of_nil in Hs.
  - intros v [t Ht]. unfold solution. rewrite Ht. by eexists.
Qed.
Lemma solution_closes b : building b -> acyclic b -> closes (solution b) b.
Proof.
  intros Hb Ha v t Hv. destruct (proj2 Hb v t Hv) as [Hd Hf]. unfold solution at 1. rewrite Hd, Hv, solution_eq by exact Hb. f_equal. unfold replaceVariables.
  rewrite apply_unbound by exact Hd. rewrite (apply_id _ t) by exact Hf. by apply apply_bound.
Qed.
End solve.

(** A substitution that agrees with an acyclic one is what applying that one does. *)
Lemma closes_unique h b t : acyclic b -> closes h b -> (forall v, b !! v = None -> h v = None) -> tsubst h t = apply_subst b t.
Proof.
  intros Ha Hc Hn. rewrite apply_subst_eq. apply tsubst_ext. intros v _. pose proof Ha as [rank Hrank].
  remember (rank v) as n eqn:Hr. revert v Hr. induction n as [n IH] using lt_wf_ind. intros v ->.
  destruct (b !! v) as [t'|] eqn:Hv; [|rewrite (Hn v Hv); symmetry; by apply value_of_None].
  pose proof (apply_bound b v t' Ha Hv) as Hap. rewrite !apply_subst_eq in Hap. rewrite (Hc v t' Hv). simpl in Hap.
  destruct (value_of (size b) b v) as [u|] eqn:E; [|apply value_of_None in E; congruence]. simpl in Hap. rewrite Hap. f_equal.
  apply tsubst_ext. intros w Hw. destruct (b !! w) as [x|] eqn:Hbw; [|rewrite (Hn w Hbw); symmetry; by apply value_of_None].
  apply (IH (rank w)); [|reflexivity]. eapply Hrank; [exact Hv|exact Hw|by eexists].
Qed.
Section composed.
Context (definedVariables b : TypeVariableSubstitution) (owner : string -> option Z).
Hypothesis (Hdefined : scoped_range owner definedVariables) (Hacyclic : acyclic definedVariables) (Hb : building definedVariables owner b) (Hab : acyclic b).
Lemma composed_acyclic : acyclic (b ∪ definedVariables).
Proof.
  unfold TypeVariableSubstitution in *. destruct Hacyclic as [r1 H1], Hab as [r2 H2]. set (M := S (list_max (r2 <$> elements (dom b)))).
  assert (HM : forall v, is_Some (b !! v) -> (r2 v < M)%nat).
  { intros v Hv. apply le_n_S. pose proof (proj1 (list_max_le (r2 <$> elements (dom b)) _) (Nat.le_refl _)) as Hall. rewrite Forall_forall in Hall. apply Hall.
    apply list_elem_of_fmap. exists v. split; [done|]. by apply elem_of_elements, elem_of_dom. }
  exists (fun v => match b !! v with Some _ => r2 v | None => M + r1 v end)%nat. intros v t w Hv Hw [u Hu].
  apply lookup_union_Some_raw in Hv as [Hv|[Hnv Hv]], Hu as [Hu|[Hnu Hu]].
  - rewrite Hv, Hu. eapply H2; [exact Hv|exact Hw|by eexists].
  - destruct (proj2 Hb v t Hv) as [_ Hf]. unfold fresh, TypeVariableSubstitution in Hf. by rewrite (Hf w Hw) in Hu.
  - rewrite Hnv, Hu. pose proof (HM w ltac:(by eexists)). lia.
  - rewrite Hnv, Hnu. assert (Hlt : (r1 w < r1 v)%nat) by (eapply H1; [exact Hv|exact Hw|by eexists]). lia.
Qed.
Lemma composed_apply t : apply_subst (b ∪ definedVariables) t = apply_subst b (replaceVariables definedVariables t).
Proof.
  rewrite <- (solution_eq definedVariables owner b t Hb). symmetry. apply closes_unique; [exact composed_acyclic|..].
  - intros v u Hv. apply lookup_union_Some_raw in Hv as [Hv|[Hnv Hv]]; [by apply (solution_closes definedVariables owner b Hb Hab)|].
    assert (Hd : definedVariables !! v = Some u) by exact Hv. unfold solution at 1. rewrite Hd, (solution_eq definedVariables owner b u Hb). unfold replaceVariables. by rewrite (apply_bound definedVariables v u).
  - intros v Hv. apply lookup_union_None in Hv as [Hv1 Hv2]. assert (H1 : definedVariables !! v = None /\ b !! v = None) by exact (conj Hv2 Hv1). unfold solution. by rewrite (proj1 H1), (proj2 H1).
Qed.
Lemma composed_simple : simpleCompose definedVariables b = Done (b ∪ definedVariables) [].
Proof.
  unfold simpleCompose. destruct (existsb _ _) eqn:E; [|reflexivity]. exfalso. apply existsb_elem in E as (v & Hin & Hv). apply list_elem_of_fmap in Hin as ([v' t] & -> & Hin).
  apply elem_of_map_to_list in Hin. destruct (proj2 Hb v' t Hin) as [Hd _]. unfold containsKey in Hv. cbn [fst] in Hv. rewrite Hd in Hv. discriminate.
Qed.
End composed.

(** Proves that a concrete type is well scoped. *)
Ltac elements tac H := first [apply not_elem_of_nil in H; exact (False_ind _ H)|apply elem_of_cons in H as [H|H]; [tac H|elements tac H]].
Ltac prove_scoped := apply scoped_intro; cbn [own_vars parts named irregular fmap list_fmap app snd];
  [ reflexivity
  | let n := fresh in let i := fresh in let H := fresh in intros n i H; elements ltac:(fun H => first [discriminate H|injection H as -> ->; reflexivity]) H
  | let n := fresh in let H := fresh in intros n H; first [discriminate H|injection H as <-; reflexivity]
  | let s := fresh in let H := fresh in intros s H; elements ltac:(fun H => rewrite H; clear H; prove_scoped) H ].

(** *** Reading a result *)
Definition solved (o : outcome (option TypeVariableSubstitution)) : option (list (ITypeVar * IRType) * list diag) :=
  match o with Done (Some m) ds => Some (map_to_list m, ds) | _ => None end.
Lemma solved_inv o l ds : solved o = Some (l, ds) -> exists m, o = Done (Some m) ds /\ map_to_list m = l.
Proof. destruct o as [[m|] ds'|]; try discriminate. cbn. intros [= <- <-]. by exists m. Qed.
Lemma acyclic_listed (m : TypeVariableSubstitution) (rank : ITypeVar -> nat) :
  forallb (fun p => forallb (fun q => negb (occurs_in q.1 p.2) || (rank q.1 <? rank p.1)%nat) (map_to_list m)) (map_to_list m) = true -> acyclic m.
Proof.
  intros Hall. exists rank. intros v t w Hv Hw [u Hu]. apply elem_of_map_to_list, list_elem_of_In in Hv. apply elem_of_map_to_list, list_elem_of_In in Hu.
  rewrite forallb_forall in Hall. specialize (Hall _ Hv). rewrite forallb_forall in Hall. specialize (Hall _ Hu). cbn [fst snd] in Hall. rewrite Hw in Hall. by apply Nat.ltb_lt.
Qed.

(** ** What a solution is *)
Definition solves definedVariables tvs (cs : list (IRType * IRType)) : Prop :=
  simpleCompose definedVariables tvs = Done (tvs ∪ definedVariables) [] /\
  exists h, (forall t, tsubst h t = apply_subst (tvs ∪ definedVariables) t /\ tsubst h t = apply_subst tvs (replaceVariables definedVariables t)) /\ Forall (satisfied h) cs.
Lemma solve_solves owner definedVariables fuel st tvs ds : scoped_range owner definedVariables -> acyclic definedVariables -> Forall (well_scoped owner) (constraints st) ->
  solve definedVariables false fuel st = Done (Some tvs) ds -> acyclic tvs -> solves definedVariables tvs (constraints st).
Proof.
  intros Hd Ha Hst He Hac. destruct (solve_loop_justified _ owner Hd Ha fuel ∅ st tvs ds) as [Hb Hj]; [split; intros v t Hv; discriminate Hv|exact Hst|exact He|].
  split; [by eapply composed_simple|]. exists (solution definedVariables tvs). split.
  - intros t. rewrite (composed_apply definedVariables tvs owner) by assumption. by rewrite (solution_eq definedVariables owner).
  - apply Hj; [by apply (solution_extends definedVariables owner)|by apply (solution_closes definedVariables owner)].
Qed.
Module SolveExample.
Definition T := Type_Var "T" 1.
Definition U := Type_Var "U" 2.
Definition V := Type_Var "V" 3.
Definition R := Type_Var "R" 5.
Definition bit8 : IRType := Ty_Base (B_Bits 8 false).
Definition tuple1 (t : IRType) : IRType := Ty_Tuple [t].
Definition param (n : string) (optional : bool) (t : IRType) : ParamInfo * IRType := ({| pname := n; direction := DirIn; isOptional := optional; hasDefault := false |}, t).
Definition argument (n : string) (t : IRType) : ArgInfo * IRType := ({| aname := n; leftValue := false; compileTimeConstant := false |}, t).
(** [tuple<T, U> f<T, U>(in T x, @optional in bit<8> z, in tuple<U> y)] called as
    [f(y = v, x = 7)] where [v] has the type [V], bound to [tuple<bit<8>>]. *)
Definition method : IRType := Ty_Method K_Method [T; U] (Some (Ty_Tuple [Ty_Var T; Ty_Var U])) [param "x" false (Ty_Var T); param "z" true bit8; param "y" false (Ty_Var U)].
Definition call : IRType := Ty_MethodCall [] R [argument "y" (Ty_Var V); argument "x" (Ty_Var (Type_InfInt_ 7))].
Definition defined : TypeVariableSubstitution := {[V := tuple1 bit8]}.
Definition start : TypeConstraints := {| unifiableTypeVariables := ∅; constraints := [(method, call)] |}.
Definition result : list (ITypeVar * IRType) := [(U, tuple1 bit8); (R, Ty_Tuple [Ty_Var T; Ty_Var U]); (T, Ty_Var (Type_InfInt_ 7))].
Definition rank (v : ITypeVar) : nat := if bool_decide (v = R) then 1%nat else 0%nat.
Definition owner (n : string) : option Z := (
  if String.eqb n "T" then Some 1 else if String.eqb n "U" then Some 2 else if String.eqb n "V" then Some 3 else if String.eqb n "R" then Some 5 else None)%Z.
Lemma defined_scoped : scoped_range owner defined.
Proof. intros v t Hv. unfold defined, TypeVariableSubstitution in Hv. apply lookup_singleton_Some in Hv as [_ <-]. prove_scoped. Qed.
Lemma defined_acyclic : acyclic defined.
Proof. exists (fun _ => 0%nat). intros v t w Hv Hw _. unfold defined, TypeVariableSubstitution in Hv. apply lookup_singleton_Some in Hv as [_ <-]. discriminate Hw. Qed.
Lemma start_scoped : Forall (well_scoped owner) (constraints start).
Proof.
  constructor; [|constructor]. cbn. split; [|split; [|split; [|split; [|split; [|split]]]]].
  - intros v Hv. elements ltac:(fun H => rewrite H; clear H; prove_scoped) Hv.
  - prove_scoped.
  - prove_scoped.
  - intros v Hv. elements ltac:(fun H => rewrite H; clear H; prove_scoped) Hv.
  - intros v Hv. elements ltac:(fun H => rewrite H; clear H; prove_scoped) Hv.
  - intros v Hv. elements ltac:(fun H => rewrite H; clear H; prove_scoped) Hv.
  - eapply bool_decide_eq_true_1. vm_compute. reflexivity.
Qed.
End SolveExample.

(** ** Bindings in a circle *)
(** Two generic functions of one shape whose unification binds a variable to
    itself: from there on, replacing it does not end. *)
Lemma solve_cyclic : exists tvs, solve ∅ false 50 {| unifiableTypeVariables := ∅;
    constraints := [(Ty_Method K_Method [SolveExample.T; SolveExample.U] None
        [SolveExample.param "a" false (Ty_Var SolveExample.U); SolveExample.param "b" false (Ty_Var SolveExample.T);
         SolveExample.param "c" false (Ty_Var SolveExample.T); SolveExample.param "d" false (Ty_Var SolveExample.U)],
      Ty_Method K_Method [SolveExample.V; SolveExample.R] None
        [SolveExample.param "a" false (Ty_Var SolveExample.R); SolveExample.param "b" false (Ty_Var SolveExample.V);
         SolveExample.param "c" false (Ty_Var SolveExample.R); SolveExample.param "d" false (Ty_Var SolveExample.V)])] |} = Done (Some tvs) [] /\
  tvs !! SolveExample.R = Some (Ty_Var SolveExample.R).
Proof.
  match goal with |- exists tvs, ?o = _ /\ _ => destruct (solved_inv o [(SolveExample.U, Ty_Var SolveExample.R); (SolveExample.V, Ty_Var SolveExample.R); (SolveExample.R, Ty_Var SolveExample.R);
    (SolveExample.T, Ty_Var SolveExample.R)] []) as (tvs & He & Hl) end; [vm_compute; reflexivity|].
  exists tvs. split; [exact He|]. assert (Hin : (SolveExample.R, Ty_Var SolveExample.R) ∈ map_to_list tvs) by (rewrite Hl; right; right; apply list_elem_of_here).
  exact (proj1 (elem_of_map_to_list tvs _ _) Hin).
Qed.

(** ** Unification inside tuples *)
Definition answer (o : outcome (option TypeVariableSubstitution)) : option bool :=
  match o with Done (Some _) _ => Some true | Done None _ => Some false | Aborted _ => None end.
(** The components of tuples are compared where they stand, so a variable that
    can be bound is not; a header stack of the variable is fine. *)
Lemma tuple_component_not_bound :
  let solve_one c := answer (solve ∅ false 20 {| unifiableTypeVariables := {[SolveExample.T]}; constraints := [c] |}) in
  solve_one (SolveExample.tuple1 (Ty_Var SolveExample.T), SolveExample.tuple1 SolveExample.bit8) = Some false /\
  solve_one (Ty_Stack (Ty_Var SolveExample.T) (Some 4%Z), Ty_Stack SolveExample.bit8 (Some 4%Z)) = Some true.
Proof. vm_compute. split; reflexivity. Qed.
(** Two variables of one name unify without being bound to each other. *)
Lemma names_unify :
  solved (solve ∅ false 20 {| unifiableTypeVariables := {[Type_Var "T" 1; Type_Var "T" 2]};
    constraints := [(SolveExample.tuple1 (Ty_Var (Type_Var "T" 1)), SolveExample.tuple1 (Ty_Var (Type_Var "T" 2)))] |}) = Some ([], []).
Proof. vm_compute. reflexivity. Qed.
(** A literal is given the type [bit<8>] on the right, not on the left. *)
Lemma literal_one_way :
  let solve_one c := answer (solve ∅ false 20 {| unifiableTypeVariables := ∅; constraints := [c] |}) in
  solve_one (SolveExample.tuple1 SolveExample.bit8, SolveExample.tuple1 (Ty_Var (Type_InfInt_ 7))) = Some true /\
  solve_one (SolveExample.tuple1 (Ty_Var (Type_InfInt_ 7)), SolveExample.tuple1 SolveExample.bit8) = Some false.
Proof. vm_compute. split; reflexivity. Qed.
