(* ===== verification/TypeMatching.v ===== *)
(** * Type unification: matching ends

    Unifying two types of which one has no variables is matching: variables
    are bound to types without variables, and no circle of bindings can arise.
    Here, and for the call of a method with arguments of known types, [solve]
    ends, and a solution satisfies the constraints. *)
From S2P Require Import Prelude Ir TypeSubst TypeSubstFacts TypeConstraints TypeConstraintsFacts TypeSolving.
Local Open Scope flexplan_scope.
Implicit Types (t s d : IRType) (v w : ITypeVar).

(** ** Weights *)
(** More than the weights of the parts; of a structure, more than the weight of
    as many parts as it has, whichever these are. *)
Fixpoint weight (t : IRType) : nat :=
  let all ts := sum_list (map weight ts) in
  let alls {A} (ts : list (A * IRType)) := sum_list (map (fun p => weight p.2) ts) in
  match t with
  | Ty_Base _ | Ty_Var _ | Ty_Error | Ty_Enum _ | Ty_SerEnum _ | Ty_ActionEnum _ | Ty_Extern _ | Ty_Name _ => 1
  | Ty_Type t | Ty_Newtype _ _ t | Ty_Stack t _ | Ty_Set t | Ty_Typedef _ t => S (weight t)
  | Ty_StructLike _ _ fs => S (S (length fs) * alls fs)
  | Ty_Tuple ts => S (all ts)
  | Ty_ArchBlock _ _ _ ps => S (alls ps)
  | Ty_SpecializedCanonical b args s => S (weight b + all args + weight s)
  | Ty_Method _ _ r ps => S (match r with Some t => weight t | None => 0 end + alls ps)
  | Ty_MethodCall targs _ args => S (all targs + alls args)
  end.
Definition weights (ts : list IRType) : nat := sum_list (map weight ts).
Lemma weights_snd {A} (l : list (A * IRType)) : sum_list (map (fun p => weight p.2) l) = weights l.*2.
Proof. unfold weights. by rewrite <- list_fmap_compose. Qed.
Lemma weights_cons t l : weights (t :: l) = (weight t + weights l)%nat.
Proof. reflexivity. Qed.
Lemma type_weights_app l l' : weights (l ++ l') = (weights l + weights l')%nat.
Proof. induction l as [|t l IH]; [reflexivity|]. cbn [app]. rewrite !weights_cons, IH. lia. Qed.
Lemma weight_pos t : (1 <= weight t)%nat.
Proof. destruct t; simpl; lia. Qed.
Lemma weight_parts t : (weights (parts t) < weight t)%nat.
Proof.
  assert (Hnil : weights [] = 0%nat) by reflexivity. assert (Hall : forall ts, sum_list (map weight ts) = weights ts) by reflexivity.
  destruct t; cbn [weight parts]; rewrite ?Hall, ?weights_snd, ?type_weights_app, ?weights_cons, ?type_weights_app, ?weights_cons, ?Hnil; try lia.
  destruct returnType; rewrite ?weights_cons, ?Hnil; lia.
Qed.
Lemma weight_elem t ts : t ∈ ts -> (weight t <= weights ts)%nat.
Proof. unfold weights. induction 1; simpl; lia. Qed.
Definition closed t : Prop := forall v, occurs_in v t = false.
Lemma closed_part t s : closed t -> s ∈ parts t -> closed s.
Proof. intros Ht Hs v. specialize (Ht v). destruct (occurs_in v s) eqn:E; [|done]. rewrite <- Ht. symmetry. apply occurs_parts. right. by exists s. Qed.
Lemma closed_var v : ~ closed (Ty_Var v).
Proof. intros Hc. specialize (Hc v). simpl in Hc. by rewrite bool_decide_true in Hc. Qed.
Lemma parts_tsubst f t : (forall v, t <> Ty_Var v) -> parts (tsubst f t) = map (tsubst f) (parts t).
Proof.
  assert (Hs : forall A (l : list (A * IRType)), (map (fun p => (p.1, tsubst f p.2)) l).*2 = map (tsubst f) l.*2) by (intros A l; exact (on_snd_snd (tsubst f) l)).
  intros Hv. destruct t; cbn [tsubst parts]; rewrite ?Hs, ?map_app; try reflexivity; [by edestruct Hv|simpl; by rewrite map_app|]. destruct returnType; reflexivity.
Qed.
Lemma length_snd {A} (l : list (A * IRType)) : length l.*2 = length l.
Proof. apply length_fmap. Qed.

Section matching.
Context (definedVariables : TypeVariableSubstitution) (owner : string -> option Z).
Hypothesis (Hdefined : scoped_range owner definedVariables) (Hacyclic : acyclic definedVariables).
Local Notation rv := (replaceVariables definedVariables).
Local Notation replace := (replace_var definedVariables).

Lemma rv_parts t : (forall v, t <> Ty_Var v) -> parts (rv t) = map rv (parts t).
Proof. intros Hv. unfold replaceVariables. rewrite apply_subst_eq, parts_tsubst by exact Hv. apply map_ext. intros s. symmetry. apply apply_subst_eq. Qed.
Lemma rv_closed t : closed t -> rv t = t.
Proof. intros Ht. unfold replaceVariables. apply apply_id. intros v Hv. rewrite (Ht v) in Hv. discriminate. Qed.
Lemma rv_rv t : scoped owner t -> rv (rv t) = rv t.
Proof. intros Ht. unfold replaceVariables. apply apply_idem; [exact Hacyclic|by eapply scoped_range_plain|by eapply scoped_plain]. Qed.
Lemma rv_replace t : scoped owner t -> rv (replace t) = rv t.
Proof. intros Ht. destruct t; first [reflexivity|by apply rv_rv]. Qed.
Lemma replace_var_inv t w : replace t = Ty_Var w -> (exists v, t = Ty_Var v) /\ rv t = Ty_Var w.
Proof. intros Ht. destruct t; try discriminate Ht. split; [by eexists|exact Ht]. Qed.

(** ** What a constraint costs *)
(** One side has no variables, and weighs at most [k]. *)
Definition light t (k : nat) : Prop := closed (rv t) /\ (weight (rv t) <= k)%nat.
Definition costs (c : IRType * IRType) (k : nat) : Prop := light c.1 k \/ light c.2 k.
Definition cost (new : list (IRType * IRType)) (k : nat) : Prop := exists ks, Forall2 costs new ks /\ (sum_list ks <= k)%nat.
Definition lights ts (m : nat) : Prop := (forall t, t ∈ ts -> closed (rv t)) /\ (weights (map rv ts) <= m)%nat.
Definition lists_cost ts ss (m : nat) : Prop := lights ts m \/ lights ss m.
Lemma cost_nil k : cost [] k.
Proof. exists []. split; [constructor|simpl; lia]. Qed.
Lemma cost_one c k : costs c k -> cost [c] k.
Proof. intros Hc. exists [k]. split; [constructor; [exact Hc|constructor]|simpl; lia]. Qed.
Lemma cost_app n1 n2 k1 k2 k : cost n1 k1 -> cost n2 k2 -> (k1 + k2 <= k)%nat -> cost (n2 ++ n1) k.
Proof.
  intros (ks1 & F1 & S1) (ks2 & F2 & S2) Hk. exists (ks2 ++ ks1). split; [by apply Forall2_app|].
  assert (Hs : sum_list (ks2 ++ ks1) = (sum_list ks2 + sum_list ks1)%nat) by (clear; induction ks2 as [|k ks2 IH]; simpl; [reflexivity|unfold sum_list, sum_list_with in *; lia]).
  lia.
Qed.
Lemma cost_mono new k k' : cost new k -> (k <= k')%nat -> cost new k'.
Proof. intros (ks & F & S) Hk. exists ks. split; [exact F|lia]. Qed.
Lemma costs_mono c k k' : costs c k -> (k <= k')%nat -> costs c k'.
Proof. unfold costs, light. intros [[H1 H2]|[H1 H2]] Hk; [left|right]; split; try exact H1; lia. Qed.
Lemma costs_pos c k : costs c k -> (1 <= k)%nat.
Proof. intros [[_ Hk]|[_ Hk]]; [pose proof (weight_pos (rv c.1))|pose proof (weight_pos (rv c.2))]; lia. Qed.
Lemma costs_swap l r k : costs (l, r) k -> costs (r, l) k.
Proof. intros [Hl|Hr]; [by right|by left]. Qed.
Lemma lights_cons t ts m : lights (t :: ts) m -> exists k m', light t k /\ lights ts m' /\ (k + m' <= m)%nat.
Proof.
  intros [Hc Hm]. cbn [map] in Hm. rewrite weights_cons in Hm. exists (weight (rv t)), (weights (map rv ts)).
  split; [split; [apply Hc, list_elem_of_here|lia]|]. split; [split; [intros s Hs; apply Hc; by right|lia]|lia].
Qed.
Lemma lists_cost_cons t ts s ss m : lists_cost (t :: ts) (s :: ss) m -> exists k m', costs (t, s) k /\ lists_cost ts ss m' /\ (k + m' <= m)%nat.
Proof.
  intros [Hl|Hl]; apply lights_cons in Hl as (k & m' & Hk & Hm & Hle); exists k, m'; [split; [by left|split; [by left|exact Hle]]|split; [by right|split; [by right|exact Hle]]].
Qed.
Lemma lights_parts t k : (forall v, t <> Ty_Var v) -> light t k -> lights (parts t) (pred k) /\ (1 <= k)%nat.
Proof.
  intros Hv [Hc Hk]. pose proof (weight_parts (rv t)) as Hw. rewrite rv_parts in Hw by exact Hv. split; [|lia]. split; [|lia].
  intros s Hs. apply (closed_part (rv t)); [exact Hc|]. rewrite rv_parts by exact Hv. by apply list_elem_of_fmap_2.
Qed.
Lemma parts_cost d s k : (forall v, d <> Ty_Var v) -> (forall v, s <> Ty_Var v) -> costs (d, s) k -> lists_cost (parts d) (parts s) (pred k).
Proof. intros Hd Hs [Hl|Hl]; apply lights_parts in Hl as [Hl _]; try assumption; [by left|by right]. Qed.

(** *** What the helpers add *)
Definition costs_at_most (m : U bool) (k : nat) : Prop := adds m (fun _ new => cost new k).
Lemma costs_ret b k : costs_at_most (mret b) k.
Proof. apply adds_ret, cost_nil. Qed.
Lemma costs_error rep msg k : costs_at_most (typeError rep msg) k.
Proof. apply adds_error, cost_nil. Qed.
Lemma costs_add l r k m next K : costs (l, r) k -> costs_at_most next m -> (k + m <= K)%nat -> costs_at_most (addEqualityConstraint l r;; next) K.
Proof.
  intros Hc Hn Hk. eapply adds_bind; [apply adds_constraint|]. intros _ new ->. eapply adds_mono; [|exact Hn]. intros b new Hnew.
  eapply cost_app; [by apply cost_one|exact Hnew|exact Hk].
Qed.
Lemma costs_skip {A} (m : U A) k n : adds m (fun _ new => new = []) -> (forall a, costs_at_most (k a) n) -> costs_at_most (m ≫= k) n.
Proof. intros Hm Hk. by apply adds_skip. Qed.
Lemma costs_both m k n n' N : costs_at_most m n -> (forall b : bool, costs_at_most (k b) n') -> (n + n' <= N)%nat -> costs_at_most (m ≫= k) N.
Proof.
  intros Hm Hk HN. eapply adds_bind; [exact Hm|]. intros b new Hnew. eapply adds_mono; [|exact (Hk b)]. intros b' new' Hnew'. eapply cost_app; [exact Hnew|exact Hnew'|exact HN].
Qed.
Lemma unify_each_costs f (Hf : forall d s k, scoped owner d -> scoped owner s -> costs (d, s) k -> costs_at_most (f d s) k) ts : (forall t, t ∈ ts -> scoped owner t) ->
  forall ss m, (forall s, s ∈ ss -> scoped owner s) -> lists_cost ts ss m -> costs_at_most (unify_each f ts ss) m.
Proof.
  induction ts as [|t ts IH]; intros Hts [|s ss] m Hss Hm; try apply costs_ret. cbn [unify_each].
  apply lists_cost_cons in Hm as (k & m' & Hk & Hm & Hle). eapply costs_both; [apply Hf; [apply Hts, list_elem_of_here|apply Hss, list_elem_of_here|exact Hk]| |exact Hle].
  intros [|]; [|apply costs_ret]. apply IH; [intros u Hu; apply Hts; by right|intros u Hu; apply Hss; by right|exact Hm].
Qed.
(** The fields of one structure with those found in the other. *)
Definition fields_cost (fs gs : list (string * IRType)) (m : nat) : Prop :=
  lights fs.*2 m \/ ((forall t, t ∈ gs.*2 -> closed (rv t)) /\ (length fs * weights (map rv gs.*2) <= m)%nat).
Lemma unify_fields_costs f (gs : list (string * IRType)) (Hf : forall d s k, scoped owner d -> scoped owner s -> costs (d, s) k -> costs_at_most (f d s) k) :
  (forall s, s ∈ gs.*2 -> scoped owner s) -> forall fs m, (forall t, t ∈ fs.*2 -> scoped owner t) -> fields_cost fs gs m -> costs_at_most (unify_fields f fs gs) m.
Proof.
  intros Hgs fs. induction fs as [|[n t] fs IH]; intros m Hfs Hm; cbn [unify_fields]; [apply costs_ret|].
  destruct (List.find _ gs) as [p|] eqn:Hp; [|apply costs_error]. apply find_elem in Hp as [Hin _].
  assert (Hp2 : p.2 ∈ gs.*2) by (apply list_elem_of_fmap; by exists p).
  assert (Hex : exists k m', costs (t, p.2) k /\ fields_cost fs gs m' /\ (k + m' <= m)%nat).
  { destruct Hm as [Hl|[Hc Hl]].
    - apply lights_cons in Hl as (k & m' & Hk & Hl & Hle). exists k, m'. split; [by left|]. split; [by left|exact Hle].
    - exists (weights (map rv gs.*2)), (length fs * weights (map rv gs.*2))%nat. split; [|split; [right; split; [exact Hc|lia]|cbn [length] in Hl; lia]].
      right. split; [by apply Hc|]. apply weight_elem. by apply list_elem_of_fmap_2. }
  destruct Hex as (k & m' & Hk & Hm' & Hle). eapply costs_both; [apply Hf; [apply Hfs, list_elem_of_here|by apply Hgs|exact Hk]| |exact Hle].
  intros [|]; [|apply costs_ret]. apply IH; [intros u Hu; apply Hfs; by right|exact Hm'].
Qed.
Lemma unify_params_costs rep ps : forall qs m, lists_cost ps.*2 qs.*2 m -> costs_at_most (unify_params ps qs rep) m.
Proof.
  induction ps as [|p ps IH]; intros qs m Hm; cbn [unify_params].
  - destruct qs; destruct (forallb _ _); first [apply costs_ret|apply costs_error].
  - destruct qs as [|q qs].
    + destruct (can_skip p); [|apply costs_error]. apply IH. right. split; [intros t Ht; by apply not_elem_of_nil in Ht|]. exact (Nat.le_0_l m).
    + case_bool_decide; [|apply costs_error]. rewrite !fmap_cons in Hm. apply lists_cost_cons in Hm as (k & m' & Hk & Hm & Hle). eapply costs_add; [exact Hk|by apply IH|exact Hle].
Qed.
Lemma unifyFunctions_costs rep (skip : bool) tps r ps tps' r' ps' m :
  lists_cost (if skip then ps.*2 else match r with Some t => [t] | None => [] end ++ ps.*2) (if skip then ps'.*2 else match r' with Some t => [t] | None => [] end ++ ps'.*2) m ->
  costs_at_most (unifyFunctions tps r ps tps' r' ps' rep skip) m.
Proof.
  intros Hm. unfold unifyFunctions. apply costs_skip; [apply adds_unifiables|]. intros _. apply costs_skip; [apply adds_unifiables|]. intros _.
  destruct r as [r|], r' as [r'|]; try apply costs_error.
  - destruct skip.
    + apply costs_skip; [by apply adds_ret|]. intros _. by apply unify_params_costs.
    + cbn [app] in Hm. apply lists_cost_cons in Hm as (k & m' & Hk & Hm & Hle). eapply costs_add; [exact Hk|by apply unify_params_costs|exact Hle].
  - apply unify_params_costs. by destruct skip.
Qed.
Lemma unifyBlocks_costs rep k n tps ps k' n' tps' ps' m : lists_cost ps.*2 ps'.*2 m -> costs_at_most (unifyBlocks k n tps ps k' n' tps' ps' rep) m.
Proof.
  intros Hm. unfold unifyBlocks. case_bool_decide; [|apply costs_error]. cbn [negb]. apply costs_skip; [apply adds_unifiables|]. intros _. apply costs_skip; [apply adds_unifiables|]. intros _.
  destruct k; [destruct (String.eqb n n'); [|apply costs_error]; by apply unifyFunctions_costs|by apply unifyFunctions_costs|by apply unifyFunctions_costs].
Qed.
Lemma stacks_costs rep msg t n t' n' k : costs (t, t') k ->
  costs_at_most (k ← ulift (getSize n); k' ← ulift (getSize n'); if (k =? k')%Z then addEqualityConstraint t t';; mret true else typeError rep msg) k.
Proof.
  intros Hk. eapply (adds_bind _ _ (fun _ new => new = [])); [eapply adds_mono; [|apply adds_lift]; by intros a new [-> _]|]. intros a new ->.
  eapply adds_mono; [intros c new Hn; rewrite app_nil_r; exact Hn|]. eapply (adds_bind _ _ (fun _ new => new = [])); [eapply adds_mono; [|apply adds_lift]; by intros b new [-> _]|].
  intros b new ->. eapply adds_mono; [intros c new Hn; rewrite app_nil_r; exact Hn|]. destruct (a =? b)%Z; [|apply costs_error].
  eapply (costs_add _ _ _ 0); [exact Hk|apply costs_ret|lia].
Qed.
Lemma structs_cost k n fs k' n' gs m : length fs = length gs -> costs (Ty_StructLike k n fs, Ty_StructLike k' n' gs) m -> fields_cost fs gs (pred m).
Proof.
  intros Hl [Hc|Hc]; [left; apply (lights_parts (Ty_StructLike k n fs)); [discriminate|exact Hc]|right].
  destruct (lights_parts (Ty_StructLike k' n' gs) m ltac:(discriminate) Hc) as [[Hcl _] Hm]. split; [exact Hcl|]. destruct Hc as [_ Hw].
  assert (Hrv : weight (rv (Ty_StructLike k' n' gs)) = S (S (length gs) * weights (map rv gs.*2))).
  { unfold replaceVariables at 1. rewrite apply_subst_eq. cbn [tsubst weight]. rewrite weights_snd, length_map. change (map _ gs) with (on_snd (tsubst (value_of (size definedVariables) definedVariables)) gs).
    rewrite on_snd_snd. do 3 f_equal. apply map_ext. intros t. symmetry. apply apply_subst_eq. }
  cbn [snd] in Hw. rewrite Hrv in Hw. rewrite Hl. lia.
Qed.
(** The type of a literal, known by now, is unified with [bit<>]. *)
Definition literal s (new : list (IRType * IRType)) : Prop :=
  exists w i b, s = Ty_Var w /\ rv s = Ty_Var (Type_InfInt_ i) /\ new = [(Ty_Base b, Ty_Var (Type_InfInt_ i))].
Definition progress s (k : nat) (new : list (IRType * IRType)) : Prop := cost new (pred k) \/ (cost new k /\ literal s new).
Lemma light_substituted t k : scoped owner t -> light t k -> light (substituted_of t) k.
Proof.
  intros Hs Hl. destruct t; try exact Hl. destruct (lights_parts (Ty_SpecializedCanonical t1 arguments t2) k ltac:(discriminate) Hl) as [[Hc Hw] Hk].
  assert (Hin : t2 ∈ parts (Ty_SpecializedCanonical t1 arguments t2)) by (cbn [parts]; right; apply elem_of_app; right; apply list_elem_of_here).
  split; [exact (Hc t2 Hin)|]. cbn [substituted_of]. assert (Hle : (weight (rv t2) <= weights (map rv (parts (Ty_SpecializedCanonical t1 arguments t2))))%nat) by (apply weight_elem; by apply list_elem_of_fmap_2). lia.
Qed.
Lemma costs_substituted d s k : scoped owner d -> scoped owner s -> costs (d, s) k -> costs (substituted_of d, substituted_of s) k.
Proof. intros Hd Hs [Hc|Hc]; [left|right]; by apply light_substituted. Qed.
Lemma substituted_var t w : scoped owner t -> substituted_of t = Ty_Var w -> t = Ty_Var w.
Proof. intros Hs Hw. destruct t; try exact Hw. cbn [substituted_of] in Hw. subst. inversion Hs. discriminate. Qed.
Lemma settled m s k : costs_at_most m (pred k) -> adds m (fun _ new => progress s k new).
Proof. apply adds_mono. intros b new Hn. by left. Qed.
Lemma literal_costs s i b w k : (1 <= k)%nat -> s = Ty_Var w -> rv s = Ty_Var (Type_InfInt_ i) ->
  adds (addUnifiableTypeVariable (Type_InfInt_ i);; addEqualityConstraint (Ty_Base b) (Ty_Var (Type_InfInt_ i));; mret true) (fun _ new => progress s k new).
Proof.
  intros Hk Hs Hr. apply adds_skip; [apply adds_unifiable|]. intros _. eapply adds_bind; [apply adds_constraint|]. intros _ new ->. apply adds_ret. right. split.
  - eapply cost_mono; [apply (cost_one _ 1)|exact Hk]. left. unfold light. cbn [fst]. rewrite rv_closed by (intros v; reflexivity). split; [intros v; reflexivity|reflexivity].
  - by exists w, i, b.
Qed.
Lemma unify_costs fuel rep : forall d s k, scoped owner d -> scoped owner s -> costs (d, s) k -> adds (unify definedVariables false fuel d s rep) (fun _ new => progress s k new).
Proof.
  induction fuel as [|fuel IH]; intros d s k Hd Hs Hk; [apply adds_bug|]. cbn [unify]. pose proof (costs_pos _ _ Hk) as Hpos.
  assert (Hf : forall d s k, scoped owner d -> scoped owner s -> costs (d, s) k -> costs_at_most (unify definedVariables false fuel d s rep) k).
  { intros d' s' k' Hd' Hs' Hk'. eapply adds_mono; [|by apply IH]. intros b new [Hn|[Hn _]]; [eapply cost_mono; [exact Hn|lia]|exact Hn]. }
  assert (Hk' : costs (replace d, replace s) k) by (unfold costs, light in *; cbn [fst snd] in *; by rewrite !rv_replace).
  assert (Hlit : forall i b, replace s = Ty_Var (Type_InfInt_ i) ->
    adds (addUnifiableTypeVariable (Type_InfInt_ i);; addEqualityConstraint (Ty_Base b) (Ty_Var (Type_InfInt_ i));; mret true) (fun _ new => progress s k new)).
  { intros i b Hr. apply replace_var_inv in Hr as [[w Hw] Hr]. by eapply literal_costs. }
  apply (replaced_scoped _ _ Hdefined) in Hd. pose proof (replaced_scoped _ _ Hdefined s Hs) as Hs'. clear Hs Hk.
  revert Hd Hk' Hlit Hs'. generalize (replace d) (replace s). clear d. intros d s' Hd Hk Hlit Hs'.
  eapply adds_bind; [apply adds_lift|]. intros same new [-> _]. eapply adds_mono; [intros c new Hn; rewrite app_nil_r; exact Hn|].
  destruct same; [apply settled, costs_ret|]. apply (costs_substituted _ _ _ Hd Hs') in Hk. pose proof (fun w => substituted_var s' w Hs') as Hsv.
  apply substituted_scoped in Hd, Hs'. assert (Hlit' : forall i b, substituted_of s' = Ty_Var (Type_InfInt_ i) ->
    adds (addUnifiableTypeVariable (Type_InfInt_ i);; addEqualityConstraint (Ty_Base b) (Ty_Var (Type_InfInt_ i));; mret true) (fun _ new => progress s k new)) by (intros i b Hi; by apply Hlit, Hsv).
  clear Hlit Hsv. revert Hd Hk Hlit' Hs'. generalize (substituted_of d) (substituted_of s'). clear d s'. intros d s' Hd Hk Hlit Hs'.
  destruct (is_Dontcare s' || is_Dontcare d); [apply settled, costs_ret|].
  pose proof (fun H1 H2 => parts_cost d s' k H1 H2 Hk) as Hparts.
  assert (Hdecl : forall n n' msg, adds (if String.eqb n n' then mret true else typeError rep msg) (fun _ new => progress s k new))
    by (intros n n' msg; apply settled; destruct (String.eqb n n'); [apply costs_ret|apply costs_error]).
  destruct d as [b| | | | | | | |[]| | | | | | | | | |], s' as [b'|[]| | | | | | |[]| | | | | | | | | |]; try (apply settled, costs_error); cbn [declaration_name]; try apply Hdecl;
    try (specialize (Hparts ltac:(discriminate) ltac:(discriminate))).
  all: try (destruct v; first [apply Hdecl|apply settled, costs_error]).
  all: try (destruct b; first [apply settled, costs_error|by apply Hlit|apply settled; case_bool_decide; [apply costs_ret|apply costs_error]]).
  all: try (destruct (length _ =? length _)%nat eqn:Hl in |- *; [apply Nat.eqb_eq in Hl|apply settled, costs_error]).
  all: try (apply settled, unify_each_costs; [exact Hf|intros t; apply (scoped_part owner _ t Hd)|intros t; apply (scoped_part owner _ t Hs')|exact Hparts]).
  all: try (apply settled, unify_fields_costs; [exact Hf|intros t; apply (scoped_part owner _ t Hs')|intros t; apply (scoped_part owner _ t Hd)|by eapply structs_cost]).
  - apply settled, stacks_costs. apply lists_cost_cons in Hparts as (n & m & Hn & _ & Hle). eapply costs_mono; [exact Hn|lia].
  - eapply adds_mono; [|apply IH; [exact Hs'|exact Hd|by apply costs_swap]]. intros b new [Hn|[_ (w & i & b' & Hw & _)]]; [by left|discriminate Hw].
  - eapply adds_mono; [|apply IH; [exact Hs'|exact Hd|by apply costs_swap]]. intros b new [Hn|[_ (w & i & b' & Hw & _)]]; [by left|discriminate Hw].
  - by apply settled, unifyBlocks_costs.
  - by apply settled, unifyFunctions_costs.
  - inversion Hs'. discriminate.
Qed.

(** ** Enough fuel for one step *)
Definition sure {A} (o : outcome A) : Prop := o <> Aborted "out of fuel".
Definition ends {A} (m : U A) : Prop := forall st, sure (m st).
Lemma sure_bind {A B} (o : outcome A) (k : A -> outcome B) : sure o -> (forall a ds, o = Done a ds -> sure (k a)) -> sure (do a <- o; k a).
Proof. intros Ho Hk. destruct o as [a ds|why]; [|unfold sure in *; simpl; congruence]. simpl. specialize (Hk a ds eq_refl). by destruct (k a). Qed.
Lemma ends_ret {A} (a : A) : ends (mret a).
Proof. intros st. discriminate. Qed.
Lemma ends_bind {A B} (m : U A) (k : A -> U B) : ends m -> (forall a, ends (k a)) -> ends (m ≫= k).
Proof. intros Hm Hk st. apply sure_bind; [apply Hm|]. intros a ds _. apply Hk. Qed.
Lemma ends_error rep msg : ends (typeError rep msg).
Proof. intros st. by destruct rep. Qed.
Lemma ends_lift {A} (o : outcome A) : sure o -> ends (ulift o).
Proof. intros Ho st. apply sure_bind; [exact Ho|]. intros a ds _. discriminate. Qed.
Lemma ends_unifiable v : ends (addUnifiableTypeVariable v).
Proof. intros st. discriminate. Qed.
Lemma ends_unifiables tps : ends (addUnifiables tps).
Proof. induction tps as [|v tps IH]; [apply ends_ret|]. apply ends_bind; [apply ends_unifiable|]. intros _. exact IH. Qed.
Lemma ends_add l r : ends (addEqualityConstraint l r).
Proof. intros st. unfold addEqualityConstraint. by destruct (is_Type_Name l || is_Type_Name r). Qed.
Lemma sure_getSize n : sure (getSize n).
Proof. unfold getSize, sure. destruct n as [n|]; [|discriminate]. destruct (negb _); [discriminate|]. by destruct (n <=? 0)%Z. Qed.
Lemma sure_oall2 {A} (f : A -> A -> outcome bool) xs : (forall x y, x ∈ xs -> sure (f x y)) -> forall ys, sure (oall2 f xs ys).
Proof.
  induction xs as [|x xs IH]; intros Hf ys; [by destruct ys|]. destruct ys as [|y ys]; [discriminate|]. cbn [oall2]. apply sure_bind; [apply Hf, list_elem_of_here|].
  intros [|] ds _; [|discriminate]. apply IH. intros x' y' Hx. apply Hf. by right.
Qed.
Lemma sure_equivalent t : forall s, sure (equivalent t s).
Proof.
  induction t as [t IH] using parts_induction. intros s.
  assert (Hsnd : forall A (l : list (A * IRType)) p s, (forall u, u ∈ l.*2 -> u ∈ parts t) -> p ∈ l -> sure (equivalent p.2 s)) by (intros A l p s' Hl Hp; apply IH, Hl, list_elem_of_fmap; by exists p).
  destruct t, s; cbn [equivalent parts] in *; try discriminate;
    try (match goal with |- sure (if ?c then _ else _) => destruct c; try discriminate end); try (match goal with |- sure (if ?c then _ else _) => destruct c; try discriminate end);
    try (match goal with |- sure (if ?c then _ else _) => destruct c; try discriminate end); try (apply IH, list_elem_of_here);
    try (apply sure_oall2; intros x y Hx; try case_bool_decide; try destruct (String.eqb _ _); try discriminate; first [by eapply Hsnd|by apply IH]).
  - apply sure_bind; [apply IH, list_elem_of_here|]. intros [|] ds _; [|discriminate].
    apply sure_bind; [apply sure_getSize|]. intros k es _. apply sure_bind; [apply sure_getSize|]. discriminate.
  - apply IH. right. apply elem_of_app. right. apply list_elem_of_here.
  - apply sure_bind; [destruct returnType, returnType0; try discriminate; apply IH, list_elem_of_here|]. intros b ds _. destruct (negb b); [discriminate|].
    destruct (_ =? _)%nat; [|discriminate]. apply sure_oall2. intros x y Hx. case_bool_decide; [|discriminate]. eapply Hsnd; [|exact Hx]. intros u Hu. apply elem_of_app. by right.
Qed.
Lemma ends_params rep ps : forall qs, ends (unify_params ps qs rep).
Proof.
  induction ps as [|p ps IH]; intros qs; cbn [unify_params].
  - destruct qs; destruct (forallb _ _); first [apply ends_ret|apply ends_error].
  - destruct qs as [|q qs]; [destruct (can_skip p); [apply IH|apply ends_error]|]. case_bool_decide; [|apply ends_error]. apply ends_bind; [apply ends_add|]. intros _. apply IH.
Qed.
Lemma ends_functions rep skip tps r ps tps' r' ps' : ends (unifyFunctions tps r ps tps' r' ps' rep skip).
Proof.
  unfold unifyFunctions. apply ends_bind; [apply ends_unifiables|]. intros _. apply ends_bind; [apply ends_unifiables|]. intros _. destruct r, r'; try apply ends_error; [|apply ends_params].
  apply ends_bind; [destruct skip; [apply ends_ret|apply ends_add]|]. intros _. apply ends_params.
Qed.
Lemma ends_blocks rep k n tps ps k' n' tps' ps' : ends (unifyBlocks k n tps ps k' n' tps' ps' rep).
Proof.
  unfold unifyBlocks. destruct (negb _); [apply ends_error|]. apply ends_bind; [apply ends_unifiables|]. intros _. apply ends_bind; [apply ends_unifiables|]. intros _.
  destruct k; [destruct (String.eqb n n'); [|apply ends_error]|..]; apply ends_functions.
Qed.
Lemma ends_each (f : IRType -> IRType -> U bool) ts : forall ss, (forall t s, t ∈ ts -> s ∈ ss -> ends (f t s)) -> ends (unify_each f ts ss).
Proof.
  induction ts as [|t ts IH]; intros [|s ss] Hf; try apply ends_ret. cbn [unify_each]. apply ends_bind; [apply Hf; apply list_elem_of_here|]. intros [|]; [|apply ends_ret].
  apply IH. intros t' s' Ht Hs. apply Hf; by right.
Qed.
Lemma ends_fields (f : IRType -> IRType -> U bool) (gs : list (string * IRType)) fs : (forall t s, t ∈ fs.*2 -> s ∈ gs.*2 -> ends (f t s)) -> ends (unify_fields f fs gs).
Proof.
  induction fs as [|[n t] fs IH]; intros Hf; [apply ends_ret|]. cbn [unify_fields]. destruct (List.find _ gs) as [p|] eqn:Hp; [|apply ends_error]. apply find_elem in Hp as [Hin _].
  apply ends_bind; [apply Hf; [apply list_elem_of_here|apply list_elem_of_fmap; by exists p]|]. intros [|]; [|apply ends_ret]. apply IH. intros t' s' Ht Hs. apply Hf; [by right|exact Hs].
Qed.
Lemma tsize_pos t : (1 <= tsize t)%nat.
Proof. destruct t; simpl; lia. Qed.
Lemma sum_list_elem (l : list nat) n : n ∈ l -> (n <= sum_list l)%nat.
Proof. induction 1; simpl; unfold sum_list in *; simpl in *; lia. Qed.
Lemma tsize_part t s : s ∈ parts t -> (tsize s < tsize t)%nat.
Proof.
  assert (Hall : forall ts, s ∈ ts -> (tsize s <= sum_list (map tsize ts))%nat) by (intros ts Hs; apply sum_list_elem; by apply list_elem_of_fmap_2).
  assert (Halls : forall A (ts : list (A * IRType)), s ∈ ts.*2 -> (tsize s <= sum_list (map (fun p => tsize p.2) ts))%nat).
  { intros A ts Hs. apply sum_list_elem. apply list_elem_of_fmap in Hs as (p & -> & Hp). by apply (list_elem_of_fmap_2 (fun p : A * IRType => tsize p.2)). }
  intros Hs. destruct t; cbn [tsize parts] in *; try (by apply not_elem_of_nil in Hs);
    try (apply list_elem_of_singleton in Hs as ->; lia); try (apply Halls in Hs; lia); try (apply Hall in Hs; lia).
  - apply elem_of_cons in Hs as [->|[Hs|Hs]%elem_of_app]; [lia|apply Hall in Hs; lia|apply list_elem_of_singleton in Hs as ->; lia].
  - apply elem_of_app in Hs as [Hs|Hs]; [|apply Halls in Hs; lia]. destruct returnType; [|by apply not_elem_of_nil in Hs]. apply list_elem_of_singleton in Hs as ->. lia.
  - apply elem_of_app in Hs as [Hs|Hs]; [apply Hall in Hs; lia|apply Halls in Hs; lia].
Qed.
Definition is_StructLike t : bool := match t with Ty_StructLike _ _ _ => true | _ => false end.
Lemma rv_part_size t s : (forall v, t <> Ty_Var v) -> s ∈ parts t -> (tsize (rv s) < tsize (rv t))%nat.
Proof. intros Hv Hs. apply tsize_part. rewrite rv_parts by exact Hv. by apply list_elem_of_fmap_2. Qed.
Lemma substituted_size t : scoped owner t -> (tsize (rv (substituted_of t)) <= tsize (rv t))%nat.
Proof.
  intros Hs. destruct t; try reflexivity. cbn [substituted_of]. apply Nat.lt_le_incl, rv_part_size; [discriminate|]. cbn [parts]. right. apply elem_of_app. right. apply list_elem_of_here.
Qed.
(** A tuple against a structure takes one more call: the other way around. *)
Definition fuel_for (fuel : nat) d s : Prop :=
  (2 * (tsize (rv d) + tsize (rv s)) <= fuel \/ (is_StructLike d = true /\ 2 * (tsize (rv d) + tsize (rv s)) <= S fuel))%nat.
Lemma unify_ends fuel rep : forall d s, scoped owner d -> scoped owner s -> fuel_for fuel d s -> ends (unify definedVariables false fuel d s rep).
Proof.
  induction fuel as [|fuel IH]; intros d s Hd Hs Hfuel.
  { exfalso. unfold fuel_for in Hfuel. pose proof (tsize_pos (rv d)). pose proof (tsize_pos (rv s)). lia. }
  cbn [unify].
  assert (Hf : fuel_for (S fuel) (replace d) (replace s)) by (unfold fuel_for; rewrite !rv_replace by assumption; destruct Hfuel as [Hf|[Hf1 Hf2]]; [by left|right; split; [by destruct d|exact Hf2]]).
  apply (replaced_scoped _ _ Hdefined) in Hd, Hs. clear Hfuel. revert Hd Hs Hf. generalize (replace d) (replace s). clear d s. intros d s Hd Hs Hf.
  apply ends_bind; [apply ends_lift, sure_equivalent|]. intros [|]; [apply ends_ret|].
  assert (Hf' : fuel_for (S fuel) (substituted_of d) (substituted_of s)).
  { pose proof (substituted_size d Hd). pose proof (substituted_size s Hs). unfold fuel_for in *. destruct Hf as [Hf|[Hf1 Hf2]]; [left; lia|right; split; [by destruct d|lia]]. }
  apply substituted_scoped in Hd, Hs. clear Hf. revert Hd Hs Hf'. generalize (substituted_of d) (substituted_of s). clear d s. intros d s Hd Hs Hf.
  destruct (is_Dontcare s || is_Dontcare d); [apply ends_ret|].
  assert (Hagain : forall t u, (forall v, d <> Ty_Var v) -> (forall v, s <> Ty_Var v) -> t ∈ parts d -> u ∈ parts s -> ends (unify definedVariables false fuel t u rep)).
  { intros t u Hvd Hvs Ht Hu. apply IH; [by apply (scoped_part owner d)|by apply (scoped_part owner s)|]. left. pose proof (rv_part_size d t Hvd Ht). pose proof (rv_part_size s u Hvs Hu).
    destruct Hf as [Hf|[_ Hf]]; lia. }
  assert (Hdecl : forall n n' msg, ends (if String.eqb n n' then mret true else typeError rep msg)) by (intros n n' msg; destruct (String.eqb n n'); [apply ends_ret|apply ends_error]).
  destruct d as [b| | | | | | | |[]| | | | | | | | | |], s as [b'|[]| | | | | | |[]| | | | | | | | | |]; try apply ends_error; cbn [declaration_name]; try apply Hdecl;
    try (destruct v; first [apply Hdecl|apply ends_error]); try (destruct (length _ =? length _)%nat; [|apply ends_error]);
    try (apply ends_each; intros t u Ht Hu; apply Hagain; first [discriminate|assumption]);
    try (apply ends_fields; intros t u Ht Hu; apply Hagain; first [discriminate|assumption]); try apply ends_blocks; try apply ends_functions;
    try (destruct b; first [apply ends_error|case_bool_decide; [apply ends_ret|apply ends_error]]).
  - destruct b; try apply ends_error. apply ends_bind; [apply ends_unifiable|]. intros _. apply ends_bind; [apply ends_add|]. intros _. apply ends_ret.
  - apply ends_bind; [apply ends_lift, sure_getSize|]. intros n. apply ends_bind; [apply ends_lift, sure_getSize|]. intros n'.
    destruct (n =? n')%Z; [|apply ends_error]. apply ends_bind; [apply ends_add|]. intros _. apply ends_ret.
  - apply IH; [exact Hs|exact Hd|]. right. split; [reflexivity|]. destruct Hf as [Hf|[Hf _]]; [lia|discriminate Hf].
  - apply IH; [exact Hs|exact Hd|]. right. split; [reflexivity|]. destruct Hf as [Hf|[Hf _]]; [lia|discriminate Hf].
  - inversion Hs. discriminate.
Qed.
Lemma ends_argument p a rep next : (forall b, ends (next b)) -> ends (bind_argument false p a rep next).
Proof.
  intros Hn. unfold bind_argument. repeat match goal with |- ends (if ?c then typeError _ _ else _) => destruct c; [apply ends_error|] end.
  apply ends_bind; [apply ends_add|]. intros _. apply Hn.
Qed.
Lemma ends_arguments rep ps args : forall rest left, ends (unify_arguments false ps rest left args rep).
Proof.
  induction args as [|a args IH]; intros rest left; cbn [unify_arguments]; [unfold check_left; destruct (forallb _ _); [apply ends_ret|apply ends_error]|].
  destruct (negb (String.eqb (aname a.1) "")).
  - destruct (getParameter ps (aname a.1)) as [p|]; [|apply ends_error]. destruct (ofind _ left); [|discriminate]. apply ends_argument. intros b. apply IH.
  - destruct rest as [|p rest]; [apply ends_error|]. destruct (ofind _ left); [|discriminate]. apply ends_argument. intros b. apply IH.
Qed.
Lemma ends_type_arguments l : ends (add_type_arguments l).
Proof. induction l as [|[v t] l IH]; [apply ends_ret|]. apply ends_bind; [apply ends_add|]. intros _. exact IH. Qed.
Lemma ends_call rep tps ret ps targs sret args : ends (unifyCall false tps ret ps targs sret args rep).
Proof.
  unfold unifyCall. apply ends_bind; [apply ends_unifiables|]. intros _. apply ends_bind; [apply ends_add|]. intros _. apply ends_bind; [apply ends_unifiable|]. intros _.
  apply ends_bind; [apply ends_unifiables|]. intros _. destruct (_ && _); [apply ends_error|]. apply ends_bind; [destruct (_ =? _)%nat; [apply ends_ret|apply ends_type_arguments]|]. intros _.
  destruct (_ <? _)%nat; [apply ends_error|apply ends_arguments].
Qed.

(** ** What is left to pay *)
(** A variable that is not bound for good. *)
Definition open t : Prop := forall v, t = Ty_Var v -> definedVariables !! v = None.
Definition bill t u (n : nat) : Prop := exists k, light t k /\ (3 * k <= n \/ (open u /\ 3 * k <= S n) \/ (closed (rv u) /\ 3 * k <= S (S n)))%nat.
Definition billed (c : IRType * IRType) (n : nat) : Prop := bill c.1 c.2 n \/ bill c.2 c.1 n.
Lemma light_pos t k : light t k -> (1 <= k)%nat.
Proof. intros [_ Hk]. pose proof (weight_pos (rv t)). lia. Qed.
Lemma billed_costs c n : billed c n -> exists k, costs c k /\ (1 <= n)%nat /\ (3 * pred k < n)%nat.
Proof. intros [(k & Hl & Hk)|(k & Hl & Hk)]; exists k; pose proof (light_pos _ _ Hl); (split; [by (left + right)|]); destruct Hk as [Hk|[[_ Hk]|[_ Hk]]]; lia. Qed.
Lemma costs_billed c k : costs c k -> billed c (3 * k).
Proof. intros [Hl|Hl]; [left|right]; exists k; (split; [exact Hl|left; lia]). Qed.
Lemma cost_billed new k : cost new k -> exists ns, Forall2 billed new ns /\ (sum_list ns <= 3 * k)%nat.
Proof.
  intros (ks & HF & Hs). exists (map (Nat.mul 3) ks). split; [clear Hs; induction HF; constructor; [by apply costs_billed|assumption]|].
  assert (Hm : sum_list (map (Nat.mul 3) ks) = (3 * sum_list ks)%nat) by (clear; induction ks as [|k ks IH]; [reflexivity|]; unfold sum_list, sum_list_with in *; simpl in *; lia). lia.
Qed.
(** A variable that can be bound is not the side without variables. *)
Lemma open_light v k : definedVariables !! v = None -> ~ light (Ty_Var v) k.
Proof. intros Hd [Hc _]. unfold replaceVariables in Hc. rewrite apply_unbound in Hc by exact Hd. by apply closed_var in Hc. Qed.
Lemma bill_variable v t n : definedVariables !! v = None -> billed (Ty_Var v, t) n \/ billed (t, Ty_Var v) n -> exists k, light t k /\ (3 * k <= S n)%nat.
Proof.
  intros Hd Hb. assert (Ht : bill t (Ty_Var v) n).
  { destruct Hb as [[(k & Hl & _)|Hb]|[Hb|(k & Hl & _)]]; try exact Hb; exfalso; by eapply open_light. }
  destruct Ht as (k & Hl & Hk). exists k. split; [exact Hl|]. destruct Hk as [Hk|[[_ Hk]|[Hc _]]]; [lia|lia|]. exfalso. apply (open_light v (weight (rv (Ty_Var v))) Hd). by split.
Qed.
(** The bindings made so far. *)
Definition bindings (M : nat) (b : TypeVariableSubstitution) : Prop := forall v t, b !! v = Some t -> closed t /\ scoped owner t /\ (weight t <= M)%nat.
Lemma bindings_acyclic M b : bindings M b -> acyclic b.
Proof. intros Hb. exists (fun _ => 0%nat). intros v t w Hv Hw _. destruct (Hb v t Hv) as [Hc _]. rewrite (Hc w) in Hw. discriminate. Qed.
Lemma bindings_mono M M' b : bindings M b -> (M <= M')%nat -> bindings M' b.
Proof. intros Hb Hle v t Hv. destruct (Hb v t Hv) as (H1 & H2 & H3). split; [exact H1|]. split; [exact H2|lia]. Qed.
Lemma strip_weight t : (weight (strip_Newtype t) <= weight t)%nat.
Proof. induction t as [t IH] using parts_induction. destruct t; cbn [strip_Newtype]; try reflexivity. specialize (IH t (list_elem_of_here _ _)). simpl. lia. Qed.
Lemma compose_bindings M b v t b' ds : bindings M b -> scoped owner t -> light t M -> compose b v (rv t) = Done (Some b') ds -> bindings M b'.
Proof.
  intros Hb Hs [Hc Hw] He. assert (Hsc : scoped owner (rv t)) by by apply apply_scoped. apply compose_inv in He as [[_ ->]|(u & Hor & Hocc & ->)]; [exact Hb|].
  assert (Hu : closed u /\ scoped owner u /\ (weight u <= M)%nat).
  { destruct Hor as [->| ->]; [by split|]. pose proof (strip_weight (rv t)). split; [apply strip_part; [exact closed_part|exact Hc]|]. split; [apply strip_part; [apply scoped_part|exact Hsc]|lia]. }
  unfold bindings, TypeVariableSubstitution in *. intros w x Hx. apply lookup_insert_Some in Hx as [[_ <-]|[_ Hx]]; [exact Hu|]. rewrite lookup_fmap in Hx. apply fmap_Some in Hx as (y & Hy & ->).
  destruct (Hb w y Hy) as [Hcy Hy']. rewrite apply_id; [by split|]. intros z Hz. rewrite (Hcy z) in Hz. discriminate.
Qed.
Lemma sure_compose b v t : sure (compose b v t).
Proof.
  unfold compose, sure. destruct t as [[]| | | | | | | | | | | | | | | | | |]; try discriminate; cbv zeta; destruct (_ && _); try discriminate; destruct (occurs_in _ _); try discriminate; destruct (containsKey _ _); discriminate.
Qed.

(** *** One step of [solve] *)
Lemma adds_and {A} (m : U A) (P Q : A -> list (IRType * IRType) -> Prop) : adds m P -> adds m Q -> adds m (fun a new => P a new /\ Q a new).
Proof.
  intros HP HQ st a st' ds He. destruct (HP _ _ _ _ He) as (n1 & H1 & P1), (HQ _ _ _ _ He) as (n2 & H2 & Q2). rewrite H1 in H2. apply app_inv_tail in H2 as <-. by exists n1.
Qed.
Definition paid (M n : nat) (r : option TypeVariableSubstitution) (new : list (IRType * IRType)) : Prop := forall b', r = Some b' ->
  bindings M b' /\ Forall (scoped_pair owner) new /\ exists ns, Forall2 billed new ns /\ (sum_list ns < n)%nat.
Lemma paid_bind M n b v t : (1 <= n)%nat -> bindings M b -> scoped owner t -> light t M ->
  adds (fun st => do result <- compose b v (rv t); oret (result, st)) (paid M n).
Proof.
  intros Hn Hb Hs Hl st r st' ds He. destruct (compose b v (rv t)) as [r' ds'|] eqn:Eq; [|discriminate He]. injection He as <- <- _. exists []. split; [reflexivity|].
  intros b' ->. split; [by eapply compose_bindings|]. split; [constructor|]. exists []. split; [constructor|exact Hn].
Qed.
Lemma paid_rebind M n b v u t k : bindings M b -> b !! v = Some u -> scoped owner t -> light t k -> (3 * k <= S n)%nat -> forall c, c = (u, t) \/ c = (t, u) ->
  adds (addEqualityConstraint c.1 c.2;; mret (Some b)) (paid M n).
Proof.
  intros Hb Hv Hs Hl Hk c Hc. eapply adds_bind; [apply adds_constraint|]. intros _ new ->. apply adds_ret. intros b' [= <-]. destruct (Hb v u Hv) as (Hcu & Hsu & _).
  split; [exact Hb|]. split; [constructor; [destruct Hc as [->| ->]; split; assumption|constructor]|]. pose proof (light_pos _ _ Hl). exists [pred n]. split; [|simpl; lia].
  assert (Hbill : bill t u (pred n)) by (exists k; split; [exact Hl|]; right; right; split; [by rewrite rv_closed|lia]).
  constructor; [|constructor]. destruct Hc as [->| ->]; [by right|by left].
Qed.
Lemma paid_unify M n b l r st0 : bindings M b -> scoped owner l -> scoped owner r -> billed (l, r) n -> isUnifiableTypeVariable definedVariables r st0 = None ->
  adds (x ← unify definedVariables false (unify_fuel definedVariables l r) l r true; mret (if x : bool then Some b else None)) (paid M n).
Proof.
  intros Hb Hl Hr Hn Hnot. destruct (billed_costs _ _ Hn) as (k & Hk & Hpos & Hlt).
  eapply adds_bind; [apply adds_and; [by apply unify_costs|by apply (unify_adds _ _ _ Hdefined)]|]. intros x new [Hp Hu]. apply adds_ret. intros b' Hx. destruct x; [|discriminate Hx]. injection Hx as <-.
  split; [exact Hb|]. split; [apply (Hu eq_refl)|]. cbn [app]. destruct Hp as [Hc|[_ (w & i & bt & -> & Hrv & ->)]].
  - apply cost_billed in Hc as (ns & HF & Hs). exists ns. split; [exact HF|lia].
  - assert (Hi : definedVariables !! Type_InfInt_ i = None).
    { apply (fresh_rv definedVariables owner Hdefined Hacyclic (Ty_Var w) Hr). rewrite Hrv. simpl. by rewrite bool_decide_true. }
    assert (Hn3 : (3 <= n)%nat).
    { assert (Hnc : ~ closed (rv (Ty_Var w))) by (rewrite Hrv; apply closed_var). destruct Hn as [(k' & Hl' & Hk')|(k' & [Hcl _] & _)]; [|by destruct Hnc]. pose proof (light_pos _ _ Hl').
      destruct Hk' as [Hk'|[[Ho _]|[Hcl _]]]; [lia| |by destruct Hnc]. exfalso. pose proof (Ho w eq_refl) as Hw. unfold replaceVariables in Hrv. rewrite apply_unbound in Hrv by exact Hw. injection Hrv as ->.
      unfold isUnifiableTypeVariable, containsKey in Hnot. rewrite Hw in Hnot. discriminate Hnot. }
    exists [2%nat]. split; [|simpl; lia]. constructor; [|constructor]. left. exists 1%nat. split; [split; cbn [fst]; rewrite rv_closed by (intros v; reflexivity); [intros v; reflexivity|reflexivity]|].
    right. left. split; [|lia]. intros v [= <-]. exact Hi.
Qed.
Lemma constraint_paid M n b c : bindings M b -> scoped_pair owner c -> billed c n -> (n <= M)%nat -> adds (solve_constraint definedVariables false c b) (paid M n).
Proof.
  intros Hb Hs Hn HM st r st' ds He. destruct c as [l u]. destruct Hs as [Hsl Hsu]. cbn [fst snd] in Hsl, Hsu. unfold solve_constraint in He.
  destruct (billed_costs _ _ Hn) as (_ & _ & Hpos & _).
  assert (Hvar : forall v t, definedVariables !! v = None -> scoped owner t -> billed (Ty_Var v, t) n \/ billed (t, Ty_Var v) n ->
    match b !! v with None => adds (fun st => do result <- compose b v (rv t); oret (result, st)) (paid M n)
    | Some x => forall c, c = (x, t) \/ c = (t, x) -> adds (addEqualityConstraint c.1 c.2;; mret (Some b)) (paid M n) end).
  { intros v t Hd Ht Hv. destruct (bill_variable v t n Hd Hv) as (k & [Hc Hw] & Hk). destruct (b !! v) as [x|] eqn:Ex.
    - eapply paid_rebind; [exact Hb|exact Ex|exact Ht|split; [exact Hc|exact Hw]|exact Hk].
    - apply paid_bind; [exact Hpos|exact Hb|exact Ht|split; [exact Hc|lia]]. }
  destruct (isUnifiableTypeVariable definedVariables l st) as [v|] eqn:El; [|destruct (isUnifiableTypeVariable definedVariables u st) as [v|] eqn:Eu].
  - apply isUnifiable_spec in El as [-> Hd]. specialize (Hvar v u Hd Hsu (or_introl Hn)).
    destruct (match u with Ty_Var w => bool_decide (w = v) | _ => false end).
    + injection He as <- <- _. exists []. split; [reflexivity|]. intros b' [= <-]. split; [exact Hb|]. split; [constructor|]. exists []. split; [constructor|exact Hpos].
    + destruct (b !! v) as [x|] eqn:Ex; [|by eapply Hvar]. exact (Hvar (x, u) (or_introl eq_refl) _ _ _ _ He).
  - apply isUnifiable_spec in Eu as [-> Hd]. specialize (Hvar v l Hd Hsl (or_intror Hn)). destruct (b !! v) as [x|] eqn:Ex; [|by eapply Hvar].
    exact (Hvar (l, x) (or_intror eq_refl) _ _ _ _ He).
  - exact (paid_unify M n b l u st Hb Hsl Hsu Hn Eu _ _ _ _ He).
Qed.
Lemma constraint_ends b c : scoped_pair owner c -> ends (solve_constraint definedVariables false c b).
Proof.
  intros [Hl Hr] st. destruct c as [l r]. cbn [fst snd] in Hl, Hr. unfold solve_constraint. destruct (isUnifiableTypeVariable definedVariables l st) as [v|].
  - destruct (match r with Ty_Var w => bool_decide (w = v) | _ => false end); [discriminate|]. destruct (b !! v); [apply ends_bind; [apply ends_add|]; intros _; apply ends_ret|].
    apply sure_bind; [apply sure_compose|]. discriminate.
  - destruct (isUnifiableTypeVariable definedVariables r st) as [v|]; [destruct (b !! v); [apply ends_bind; [apply ends_add|]; intros _; apply ends_ret|]; apply sure_bind; [apply sure_compose|]; discriminate|].
    apply ends_bind; [|intros x; apply ends_ret]. apply unify_ends; [exact Hl|exact Hr|]. left. unfold unify_fuel. lia.
Qed.

(** ** The loop *)
(** It ends, and without a circle of bindings. *)
Definition fine (o : outcome (option TypeVariableSubstitution)) : Prop := sure o /\ forall tvs ds, o = Done (Some tvs) ds -> acyclic tvs.
Lemma fine_bind {A} (o : outcome A) k : sure o -> (forall a ds, o = Done a ds -> fine (k a)) -> fine (do a <- o; k a).
Proof.
  intros Ho Hk. split; [apply sure_bind; [exact Ho|intros a ds Ha; by apply (Hk a ds)]|]. intros tvs ds He. destruct o as [a ds'|]; [|discriminate He]. simpl in He.
  destruct (Hk a ds' eq_refl) as [_ Hf]. destruct (k a) as [r ds2|]; [|discriminate He]. injection He as -> _. by eapply Hf.
Qed.
Lemma loop_fine M tail F : (forall fuel b st, (F <= fuel)%nat -> bindings M b -> constraints st = tail -> fine (solve_loop definedVariables false fuel b st)) ->
  forall N cs ns fuel b st, Forall2 billed cs ns -> (sum_list ns <= N)%nat -> (N <= M)%nat -> (N + F <= fuel)%nat -> bindings M b -> Forall (scoped_pair owner) cs -> constraints st = cs ++ tail ->
  fine (solve_loop definedVariables false fuel b st).
Proof.
  intros Htail N. induction N as [N IH] using lt_wf_ind. intros cs ns fuel b st HF Hs HM Hfuel Hb Hsc Hst. destruct HF as [|c n cs ns Hn HF]; [apply Htail; [lia|exact Hb|exact Hst]|].
  apply Forall_cons in Hsc as [Hc Hsc]. destruct (billed_costs _ _ Hn) as (_ & _ & Hpos & _). assert (Hsum : (n + sum_list ns <= N)%nat) by exact Hs.
  destruct fuel as [|fuel]; [lia|]. cbn [solve_loop]. rewrite Hst. cbn [app]. apply fine_bind; [by apply constraint_ends|]. intros [r st1] ds He. destruct r as [b1|]; [|split; discriminate].
  destruct (constraint_paid M n b c Hb Hc Hn ltac:(lia) _ _ _ _ He) as (new & Hst1 & Hp). destruct (Hp b1 eq_refl) as (Hb1 & Hnew & ns' & HF' & Hlt). cbn [constraints] in Hst1.
  apply (IH (sum_list (ns' ++ ns))) with (cs := new ++ cs) (ns := ns' ++ ns); try assumption; try (by apply Forall2_app); try (by apply Forall_app); try reflexivity.
  all: assert (Happ : sum_list (ns' ++ ns) = (sum_list ns' + sum_list ns)%nat) by (clear; induction ns' as [|k ks IH]; [reflexivity|]; unfold sum_list, sum_list_with in *; simpl in *; lia).
  1-3: lia. by rewrite Hst1, app_assoc.
Qed.
Lemma empty_fine fuel M b st : bindings M b -> constraints st = [] -> fine (solve_loop definedVariables false fuel b st).
Proof. intros Hb Hst. assert (He : solve_loop definedVariables false fuel b st = oret (Some b)) by (destruct fuel; cbn [solve_loop]; by rewrite Hst). rewrite He. split; [discriminate|]. intros tvs ds [= <- _]. by eapply bindings_acyclic. Qed.

(** ** The call of a method *)
Definition nothing {A} (m : U A) : Prop := adds m (fun _ new => new = []).
Lemma nothing_error rep msg : nothing (typeError rep msg).
Proof. by apply adds_error. Qed.
Lemma nothing_lift {A} (o : outcome A) : nothing (ulift o).
Proof. eapply adds_mono; [|apply adds_lift]. by intros a new [-> _]. Qed.
(** The type of the result of a call unifies with nothing but itself. *)
Lemma unify_variable fuel rep d n i : definedVariables !! Type_Var n i = None -> nothing (unify definedVariables false fuel d (Ty_Var (Type_Var n i)) rep).
Proof.
  intros Hd. destruct fuel as [|fuel]; [apply adds_bug|]. cbn [unify]. assert (Hr : replace (Ty_Var (Type_Var n i)) = Ty_Var (Type_Var n i)) by (by apply apply_unbound). rewrite Hr. clear Hr.
  apply adds_skip; [apply nothing_lift|]. intros [|]; [by apply adds_ret|]. cbn [substituted_of]. generalize (substituted_of (replace d)). clear d. intros d.
  destruct (is_Dontcare _ || is_Dontcare d); [by apply adds_ret|].
  destruct d as [b|[]| | | | | | |[]| | | | | | | | | |]; cbn [declaration_name]; try apply nothing_error; try (destruct (String.eqb _ _); [by apply adds_ret|apply nothing_error]).
  destruct b; apply nothing_error.
Qed.
Lemma compose_acyclic M b v u b' ds : bindings M b -> compose b v u = Done (Some b') ds -> acyclic b'.
Proof.
  intros Hb He. apply compose_inv in He as [[_ ->]|(u' & _ & Hocc & ->)]; [by eapply bindings_acyclic|].
  exists (fun w => if decide (w = v) then 1%nat else 0%nat). unfold bindings, TypeVariableSubstitution in *. intros x t w Hx Hw _. apply lookup_insert_Some in Hx as [[<- <-]|[_ Hx]].
  - case_decide as Hw1; [subst; congruence|]. case_decide as Hw2; [lia|]. by edestruct Hw2.
  - rewrite lookup_fmap in Hx. apply fmap_Some in Hx as (y & Hy & ->). destruct (Hb x y Hy) as [Hcy _]. exfalso.
    rewrite apply_id in Hw; [rewrite (Hcy w) in Hw; discriminate|]. intros z Hz. rewrite (Hcy z) in Hz. discriminate.
Qed.
Lemma result_step M b d n i st b1 st1 ds : bindings M b -> definedVariables !! Type_Var n i = None -> scoped owner d -> scoped owner (Ty_Var (Type_Var n i)) -> constraints st = [] ->
  solve_constraint definedVariables false (d, Ty_Var (Type_Var n i)) b st = Done (Some b1, st1) ds ->
  (acyclic b1 /\ constraints st1 = []) \/ (bindings M b1 /\ exists c m, constraints st1 = [c] /\ scoped_pair owner c /\ billed c m /\ (m <= 3 * M)%nat).
Proof.
  intros Hb Hd Hs Hr Hst He. unfold solve_constraint in He.
  assert (Hbound : forall v x c, b !! v = Some x -> (c = (x, Ty_Var (Type_Var n i)) \/ c = (d, x)) -> (addEqualityConstraint c.1 c.2;; mret (Some b)) st = Done (Some b1, st1) ds ->
    bindings M b1 /\ exists c m, constraints st1 = [c] /\ scoped_pair owner c /\ billed c m /\ (m <= 3 * M)%nat).
  { intros v x c Hx Hc Ha. destruct (Hb v x Hx) as (Hcx & Hsx & Hwx).
    assert (Hadds : adds (addEqualityConstraint c.1 c.2;; mret (Some b)) (fun r new => r = Some b /\ new = [c])) by (eapply adds_bind; [apply adds_constraint|]; intros _ new ->; apply adds_ret; by destruct c).
    destruct (Hadds _ _ _ _ Ha) as (new & Hnew & [= ->] & ->). split; [exact Hb|]. exists c, (3 * weight x)%nat. rewrite Hnew, Hst. split; [reflexivity|].
    assert (Hl : light x (weight x)) by (split; rewrite rv_closed by exact Hcx; [exact Hcx|reflexivity]).
    split; [destruct Hc as [->| ->]; split; assumption|]. split; [|lia]. apply costs_billed. destruct Hc as [->| ->]; [by left|by right]. }
  destruct (isUnifiableTypeVariable definedVariables d st) as [v|] eqn:El; [|destruct (isUnifiableTypeVariable definedVariables (Ty_Var (Type_Var n i)) st) as [v|] eqn:Eu].
  - destruct (bool_decide (Type_Var n i = v)); [injection He as <- <- _; left; split; [exact (bindings_acyclic M b Hb)|exact Hst]|].
    destruct (b !! v) as [x|] eqn:Ex; [right; apply (Hbound v x (x, Ty_Var (Type_Var n i)) Ex); [by left|exact He]|].
    destruct (compose b v _) as [r ds'|] eqn:Ec; [|discriminate He]. injection He as -> <- _. left. split; [exact (compose_acyclic M _ _ _ _ _ Hb Ec)|exact Hst].
  - destruct (b !! v) as [x|] eqn:Ex; [right; apply (Hbound v x (d, x) Ex); [by right|exact He]|].
    destruct (compose b v _) as [r ds'|] eqn:Ec; [|discriminate He]. injection He as -> <- _. left. split; [exact (compose_acyclic M _ _ _ _ _ Hb Ec)|exact Hst].
  - left. assert (Hadds : adds (x ← unify definedVariables false (unify_fuel definedVariables d (Ty_Var (Type_Var n i))) d (Ty_Var (Type_Var n i)) true; mret (if x : bool then Some b else None))
      (fun r new => (forall b', r = Some b' -> b' = b) /\ new = [])).
    { apply adds_skip; [by apply unify_variable|]. intros x. apply adds_ret. split; [|reflexivity]. destruct x; [by intros b' [= <-]|discriminate]. }
    destruct (Hadds _ _ _ _ He) as (new & Hnew & Hb' & ->). rewrite (Hb' b1 eq_refl). split; [exact (bindings_acyclic M b Hb)|]. by rewrite Hnew, Hst.
Qed.
Lemma result_fine M d n i : definedVariables !! Type_Var n i = None -> scoped owner d -> scoped owner (Ty_Var (Type_Var n i)) ->
  forall fuel b st, (S (3 * M) <= fuel)%nat -> bindings M b -> constraints st = [(d, Ty_Var (Type_Var n i))] -> fine (solve_loop definedVariables false fuel b st).
Proof.
  intros Hd Hs Hr [|fuel] b st Hfuel Hb Hst; [lia|]. cbn [solve_loop]. rewrite Hst. apply fine_bind; [by apply constraint_ends|]. intros [[b1|] st1] ds He; [|split; discriminate].
  apply (result_step M) in He as [[Ha Hst1]|(Hb1 & c & m & Hst1 & Hc & Hm & Hle)]; try assumption; [| |reflexivity].
  - assert (Heq : solve_loop definedVariables false fuel b1 st1 = oret (Some b1)) by (destruct fuel; cbn [solve_loop]; by rewrite Hst1). rewrite Heq. split; [discriminate|]. by intros tvs ds' [= <- _].
  - apply (loop_fine (3 * M) [] 0) with (N := m) (cs := [c]) (ns := [m]); try assumption; [intros; by eapply empty_fine|constructor; [assumption|constructor]|simpl; lia|lia|eapply bindings_mono; [exact Hb1|lia]|constructor; [assumption|constructor]].
Qed.
Definition known (ts : list IRType) : Prop := forall t, t ∈ ts -> closed (rv t).
Lemma argument_costs rep p a next k m : light a.2 k -> (forall b, costs_at_most (next b) m) -> costs_at_most (bind_argument false p a rep next) (k + m).
Proof.
  intros Hl Hn. unfold bind_argument. repeat match goal with |- costs_at_most (if ?c then typeError _ _ else _) _ => destruct c; [apply costs_error|] end.
  eapply costs_add; [right; exact Hl|apply Hn|reflexivity].
Qed.
Lemma arguments_costs rep ps args : known args.*2 -> forall rest left, costs_at_most (unify_arguments false ps rest left args rep) (weights (map rv args.*2)).
Proof.
  induction args as [|a args IH]; intros Ha rest left; cbn [unify_arguments]; [unfold check_left; destruct (forallb _ _); [apply costs_ret|apply costs_error]|].
  rewrite fmap_cons. cbn [map]. rewrite weights_cons. assert (Hl : light a.2 (weight (rv a.2))) by (split; [apply Ha, list_elem_of_here|reflexivity]).
  assert (Hrest : known args.*2) by (intros t Ht; apply Ha; by right).
  destruct (negb (String.eqb (aname a.1) "")).
  - destruct (getParameter ps (aname a.1)) as [p|]; [|apply costs_error]. destruct (ofind _ left); [|apply adds_bug]. apply argument_costs; [exact Hl|]. intros b. by apply IH.
  - destruct rest as [|p rest]; [apply costs_error|]. destruct (ofind _ left); [|apply adds_bug]. apply argument_costs; [exact Hl|]. intros b. by apply IH.
Qed.
Lemma type_arguments_costs tps : forall targs, known targs -> adds (add_type_arguments (zip tps targs)) (fun _ new => cost new (weights (map rv targs))).
Proof.
  induction tps as [|v tps IH]; intros [|t targs] Ht; try (apply adds_ret, cost_nil). cbn [zip zip_with add_type_arguments map]. rewrite weights_cons.
  eapply adds_bind; [apply adds_constraint|]. intros _ new ->. eapply adds_mono; [|apply (IH targs); intros u Hu; apply Ht; by right]. intros a new Hn.
  eapply cost_app; [apply (cost_one _ (weight (rv t))); right; split; [apply Ht, list_elem_of_here|reflexivity]|exact Hn|reflexivity].
Qed.
Lemma call_costs rep tps ret ps targs sret args : known args.*2 -> known targs ->
  adds (unifyCall false tps ret ps targs sret args rep) (fun b new => b = true ->
    exists new', new = new' ++ [(default Void ret, Ty_Var sret)] /\ cost new' (weights (map rv args.*2) + weights (map rv targs))).
Proof.
  intros Ha Ht. unfold unifyCall. apply adds_skip; [apply adds_unifiables|]. intros _. eapply adds_bind; [apply adds_constraint|]. intros _ n1 ->.
  apply adds_skip; [apply adds_unifiable|]. intros _. apply adds_skip; [apply adds_unifiables|]. intros _. destruct (_ && _); [by apply adds_error|].
  eapply (adds_bind _ _ (fun _ new => cost new (weights (map rv targs)))).
  - destruct (_ =? _)%nat; [apply adds_ret, cost_nil|by apply type_arguments_costs].
  - intros _ n2 Hn2. destruct (_ <? _)%nat; [by apply adds_error|]. eapply adds_mono; [|by apply arguments_costs]. intros b n3 Hn3 _. exists (n3 ++ n2). split; [reflexivity|].
    eapply cost_app; [exact Hn2|exact Hn3|lia].
Qed.
Definition call_paid (r : IRType) (sret : ITypeVar) (K : nat) (new : list (IRType * IRType)) : Prop :=
  Forall (scoped_pair owner) new /\ exists new', new = new' ++ [(r, Ty_Var sret)] /\ cost new' K.
Lemma unify_call_costs fuel k rep tps ret ps targs sret args : well_scoped_call owner tps ret ps targs sret args -> known args.*2 -> known targs ->
  adds (unify definedVariables false fuel (Ty_Method k tps ret ps) (Ty_MethodCall targs sret args) rep)
    (fun b new => b = true -> call_paid (default Void ret) sret (weights (map rv args.*2) + weights (map rv targs)) new).
Proof.
  intros Hw Ha Ht. destruct fuel as [|fuel]; [apply adds_bug|]. cbn [unify replace_var equivalent].
  eapply adds_bind; [apply adds_lift|]. intros same new [-> [ds He]]. injection He as <- _. cbn [substituted_of is_Dontcare orb].
  eapply adds_mono; [intros b new Hn; rewrite app_nil_r; exact Hn|].
  eapply adds_mono; [|apply adds_and; [by apply (unifyCall_adds definedVariables false owner)|by apply call_costs]]. intros b new [H1 H2] Hb. split; [apply (H1 Hb)|exact (H2 Hb)].
Qed.
(** One step turns a call into matching and the constraint on its result. *)
Lemma call_fine k tps ret ps targs n i args fuel unifiables : well_scoped_call owner tps ret ps targs (Type_Var n i) args -> definedVariables !! Type_Var n i = None -> known args.*2 -> known targs ->
  (2 + 12 * (weights (map rv args.*2) + weights (map rv targs)) <= fuel)%nat ->
  fine (solve definedVariables false fuel {| unifiableTypeVariables := unifiables; constraints := [(Ty_Method k tps ret ps, Ty_MethodCall targs (Type_Var n i) args)] |}).
Proof.
  intros Hw Hd Ha Ht Hfuel. pose proof Hw as (_ & Hret & Hsret & _). destruct fuel as [|fuel]; [lia|]. unfold solve. cbn [solve_loop constraints].
  apply fine_bind.
  - unfold solve_constraint. cbn [isUnifiableTypeVariable]. apply ends_bind; [|intros x; apply ends_ret]. unfold unify_fuel. cbn [unify replace_var equivalent].
    apply ends_bind; [by apply ends_lift|]. intros [|]; [apply ends_ret|]. apply ends_call.
  - intros [[b1|] st1] ds He; [|split; discriminate]. unfold solve_constraint in He. cbn [isUnifiableTypeVariable] in He.
    match type of He with (?m _ = _) => assert (Hadds : adds m (fun r new => forall b, r = Some b -> b = ∅ /\ call_paid (default Void ret) (Type_Var n i) (weights (map rv args.*2) + weights (map rv targs)) new)) end.
    { eapply adds_bind; [by apply unify_call_costs|]. intros x new Hx. apply adds_ret. intros b Hb. destruct x; [|discriminate Hb]. injection Hb as <-. split; [reflexivity|exact (Hx eq_refl)]. }
    destruct (Hadds _ _ _ _ He) as (new & Hst1 & Hp). destruct (Hp b1 eq_refl) as (-> & Hsc & new' & -> & Hc). cbn [constraints] in Hst1. rewrite app_nil_r in Hst1.
    apply cost_billed in Hc as (ns & HF & Hs). apply Forall_app in Hsc as [Hsc _].
    eapply (loop_fine (3 * (weights (map rv args.*2) + weights (map rv targs)))) with (cs := new') (ns := ns); [|exact HF|exact Hs|reflexivity| |intros v t Hv; discriminate Hv|exact Hsc|exact Hst1].
    + by apply result_fine.
    + lia.
Qed.
End matching.

(** ** Totality *)
(** The answer with enough fuel: an error, no solution, or a solution. *)
Definition decided definedVariables fuel st : Prop :=
  match solve definedVariables false fuel st with
  | Aborted why => why <> "out of fuel"
  | Done None _ => True
  | Done (Some tvs) _ => acyclic tvs /\ solves definedVariables tvs (constraints st)
  end.
Lemma fine_decided owner definedVariables fuel st : scoped_range owner definedVariables -> acyclic definedVariables -> Forall (well_scoped owner) (constraints st) ->
  fine (solve definedVariables false fuel st) -> decided definedVariables fuel st.
Proof.
  intros Hd Ha Hs [Hsure Hf]. unfold decided. destruct (solve definedVariables false fuel st) as [[tvs|] ds|why] eqn:E; [|done|intros ->; by apply Hsure].
  specialize (Hf tvs ds eq_refl). split; [exact Hf|]. by eapply solve_solves.
Qed.
Definition matching_fuel definedVariables (cs : list (IRType * IRType)) : nat :=
  sum_list (map (fun c => 3 * (weight (replaceVariables definedVariables c.1) + weight (replaceVariables definedVariables c.2)))%nat cs).
(** C15. Constraints of which one side has no variables, once those bound for good are
    replaced, are decided: with fuel for three steps per unit of weight [solve]
    ends, and a substitution it answers has no circle and solves them. *)
Theorem matching_decided owner definedVariables fuel st : scoped_range owner definedVariables -> acyclic definedVariables ->
  Forall (fun c => scoped_pair owner c /\ (closed (replaceVariables definedVariables c.1) \/ closed (replaceVariables definedVariables c.2))) (constraints st) ->
  (matching_fuel definedVariables (constraints st) <= fuel)%nat -> decided definedVariables fuel st.
Proof.
  intros Hd Ha Hst Hfuel. assert (Hsc : Forall (scoped_pair owner) (constraints st)) by (eapply Forall_impl; [exact Hst|]; intros c Hc; apply Hc).
  apply (fine_decided owner); [exact Hd|exact Ha|eapply Forall_impl; [exact Hsc|]; apply well_scoped_pair|].
  set (f := fun c : IRType * IRType => (3 * (weight (replaceVariables definedVariables c.1) + weight (replaceVariables definedVariables c.2)))%nat).
  apply (loop_fine definedVariables owner Hd Ha (matching_fuel definedVariables (constraints st)) [] 0) with (N := matching_fuel definedVariables (constraints st)) (cs := constraints st) (ns := map f (constraints st)).
  - intros. by eapply empty_fine.
  - clear Hfuel Hsc. induction Hst as [|c cs [_ Hc] _ IH]; [constructor|]. constructor; [|exact IH]. unfold f. destruct Hc as [Hc|Hc]; [left|right];
      (eexists; split; [split; [exact Hc|reflexivity]|left; lia]).
  - reflexivity.
  - reflexivity.
  - lia.
  - intros v t Hv. discriminate Hv.
  - exact Hsc.
  - by rewrite app_nil_r.
Qed.
(** C4. The call of a method with arguments and type arguments of known types is
    decided: [solve] ends, and a substitution it answers has no circle, binds
    every argument to a parameter of a compatible type, leaves out only parameters
    that may be left out, and gives the call the type the method returns. *)
Theorem call_decided owner definedVariables k tps ret ps targs n i args unifiables fuel : scoped_range owner definedVariables -> acyclic definedVariables ->
  well_scoped_call owner tps ret ps targs (Type_Var n i) args -> definedVariables !! Type_Var n i = None ->
  (forall t, t ∈ args.*2 ++ targs -> closed (replaceVariables definedVariables t)) ->
  (2 + 12 * weights (map (replaceVariables definedVariables) (args.*2 ++ targs)) <= fuel)%nat ->
  decided definedVariables fuel {| unifiableTypeVariables := unifiables; constraints := [(Ty_Method k tps ret ps, Ty_MethodCall targs (Type_Var n i) args)] |}.
Proof.
  intros Hd Ha Hc Hn Hk Hfuel. rewrite map_app, type_weights_app in Hfuel. apply (fine_decided owner); [exact Hd|exact Ha|by constructor|].
  apply (call_fine definedVariables owner); try assumption; intros t Ht; apply Hk, elem_of_app; [by left|by right].
Qed.
Module MatchingExample.
Import SolveExample.
Definition known_call : IRType := Ty_MethodCall [] R [argument "y" (Ty_Var V); argument "x" bit8].
Definition known_start : TypeConstraints := {| unifiableTypeVariables := ∅; constraints := [(method, known_call)] |}.
(** [f<T, U>(T, U[4])] against a function of known types, and a structure
    against a tuple. *)
Definition known_method : IRType := Ty_Method K_Method [] None [param "x" false bit8; param "y" false (Ty_Stack (Ty_Var V) (Some 4%Z))].
Definition generic_method : IRType := Ty_Method K_Method [T; U] None [param "x" false (Ty_Var T); param "y" false (Ty_Stack (Ty_Var U) (Some 4%Z))].
Definition matching_start : TypeConstraints :=
  {| unifiableTypeVariables := ∅; constraints := [(generic_method, known_method); (Ty_Tuple [bit8; Ty_Var V], Ty_StructLike K_Struct "s" [("f", bit8); ("g", Ty_Var V)])] |}.
End MatchingExample.
Lemma matching_decided_witness : decided SolveExample.defined 200 MatchingExample.matching_start /\
  solved (solve SolveExample.defined false 200 MatchingExample.matching_start) = Some ([(SolveExample.U, SolveExample.tuple1 SolveExample.bit8); (SolveExample.T, SolveExample.bit8)], []).
Proof.
  split; [|vm_compute; reflexivity]. apply (matching_decided SolveExample.owner); [exact SolveExample.defined_scoped|exact SolveExample.defined_acyclic| |vm_compute; lia].
  constructor; [|constructor; [|constructor]]; (split; [split; prove_scoped|]); right; intros v; vm_compute; reflexivity.
Defined.
Lemma call_decided_witness : decided SolveExample.defined 200 MatchingExample.known_start /\
  solved (solve SolveExample.defined false 200 MatchingExample.known_start) = Some ([(SolveExample.U, SolveExample.tuple1 SolveExample.bit8); (SolveExample.R, Ty_Tuple [Ty_Var SolveExample.T; Ty_Var SolveExample.U]); (SolveExample.T, SolveExample.bit8)], []).
Proof.
  split; [|vm_compute; reflexivity].
  apply (call_decided SolveExample.owner); [exact SolveExample.defined_scoped|exact SolveExample.defined_acyclic| |vm_compute; reflexivity| |vm_compute; lia].
  - split; [|split; [|split; [|split; [|split; [|split]]]]]; try prove_scoped; try (intros t Ht; elements ltac:(fun H => rewrite H; clear H; prove_scoped) Ht).
    eapply bool_decide_eq_true_1. vm_compute. reflexivity.
  - intros t Ht. elements ltac:(fun H => rewrite H; clear H; intros v; vm_compute; reflexivity) Ht.
Defined.
