(* ===== verification/DefUse.v ===== *)
(** * Def-use analysis: [frontends/p4/def_use.h/.cpp], storage and definitions

    The storage of a variable is a tree of locations; a set of locations is what
    an expression may write; definitions map every base location to the program
    points that may have written it last.  Locations are compared as objects,
    which have an [id]. *)
From stdpp Require Import pretty.
From S2P Require Import Prelude Ir TypeSubst.
Local Open Scope flexplan_scope.
Local Open Scope Z_scope.

(** ** Storage locations *)
Inductive StorageLocation :=
| BaseLocation (id : Z) (type : IRType) (name : string)
| StructLocation (id : Z) (type : IRType) (name : string) (fieldLocations : list (string * StorageLocation))
| ArrayLocation (id : Z) (type : IRType) (name : string) (elements : list StorageLocation) (lastIndexField : StorageLocation).
Definition location_id (l : StorageLocation) : Z := match l with BaseLocation id _ _ | StructLocation id _ _ _ | ArrayLocation id _ _ _ _ => id end.
Definition location_type (l : StorageLocation) : IRType := match l with BaseLocation _ t _ | StructLocation _ t _ _ | ArrayLocation _ t _ _ _ => t end.
Definition is_Type_Header (t : IRType) : bool := match t with Ty_StructLike K_Header _ _ => true | _ => false end.
Definition is_Type_HeaderUnion (t : IRType) : bool := match t with Ty_StructLike K_HeaderUnion _ _ => true | _ => false end.
Definition is_Type_Struct (t : IRType) : bool := match t with Ty_StructLike K_Struct _ _ => true | _ => false end.
Definition validFieldName : string := "$valid".
Definition indexFieldName : string := "$lastIndex".

(** *** [StorageFactory::create] *)
(** New objects are numbered from the counter on. *)
Definition F (A : Type) : Type := Z -> outcome (A * Z).
#[export] Instance F_ret : MRet F := fun A a n => oret (a, n).
#[export] Instance F_bind : MBind F := fun A B k m n => do r <- m n; k r.1 r.2.
Definition fresh_id : F Z := fun n => oret (n, n + 1).
Definition fbug {A} (why : string) : F A := fun _ => Aborted why.
Definition flift {A} (o : outcome A) : F A := fun n => do a <- o; oret (a, n).
Definition is_base_type (t : IRType) : bool :=
  match t with
  | Ty_Base (B_Bits _ _ | B_Boolean | B_Varbits _) | Ty_Enum _ | Ty_SerEnum _ | Ty_Error | Ty_Var (Type_Var _ _) | Ty_Tuple _ | Ty_Newtype _ _ _ => true
  | _ => false
  end.
Definition addField (name : string) (field : option StorageLocation) (fields : list (string * StorageLocation)) : F (list (string * StorageLocation)) :=
  match field with None => fbug "null" | Some l => mret (oemplace (ord := String.ltb) name l fields) end.
Definition replaceField (location : option StorageLocation) (field : string) (replacement : StorageLocation) : F (option StorageLocation) :=
  match location with
  | Some (StructLocation id t n fields) => mret (Some (StructLocation id t n (oput (ord := String.ltb) field replacement fields)))
  | _ => fbug "null"
  end.
Fixpoint create_fields (create : IRType -> string -> F (option StorageLocation)) (globalValid : option StorageLocation) (name : string)
    (fs : list (string * IRType)) (fields : list (string * StorageLocation)) : F (list (string * StorageLocation)) :=
  match fs with
  | [] => mret fields
  | f :: fs =>
      let fieldName := (name ++ "." ++ f.1)%string in
      sl ← create f.2 fieldName;
      sl ← match globalValid with None => mret sl | Some v => replaceField sl (fieldName ++ "." ++ validFieldName)%string v end;
      fields ← addField f.1 sl fields;
      create_fields create globalValid name fs fields
  end.
Fixpoint create_elements (create : IRType -> string -> F (option StorageLocation)) (type : IRType) (name : string) (i n : nat) : F (list StorageLocation) :=
  match n with
  | O => mret []
  | S n =>
      sl ← create type (name ++ "[" ++ pretty (Z.of_nat i) ++ "]")%string;
      match sl with
      | None => fbug "null"
      | Some l => rest ← create_elements create type name (S i) n; mret (l :: rest)
      end
  end.
Section factory.
(** [typeMap->getTypeType] *)
Context (getTypeType : IRType -> IRType).
Definition new_base (type : IRType) (name : string) : F StorageLocation := id ← fresh_id; mret (BaseLocation id type name).
(** [fuel] bounds the nesting of the type. *)
Fixpoint create (fuel : nat) (type : IRType) (name : string) : F (option StorageLocation) :=
  match fuel with
  | O => fbug "out of fuel"
  | S fuel =>
      if is_base_type type then l ← new_base type name; mret (Some l)
      else match type with
      | Ty_StructLike _ _ _ =>
          let type := getTypeType type in
          match type with
          | Ty_StructLike kind _ fs =>
              id ← fresh_id;
              globalValid ← (if is_Type_HeaderUnion type then l ← new_base (Ty_Base B_Boolean) (name ++ "." ++ validFieldName)%string; mret (Some l) else mret None);
              fields ← create_fields (create fuel) globalValid name fs [];
              fields ← (if is_Type_Header type
                        then valid ← new_base (Ty_Base B_Boolean) (name ++ "." ++ validFieldName)%string; addField validFieldName (Some valid) fields
                        else mret fields);
              mret (Some (StructLocation id type name fields))
          | _ => fbug "unexpected type"
          end
      | Ty_Stack _ _ =>
          let type := getTypeType type in
          match type with
          | Ty_Stack elementType size =>
              id ← fresh_id;
              n ← flift (getSize size);
              elements ← create_elements (create fuel) elementType name 0 (Z.to_nat n);
              lastIndex ← new_base (Ty_Base (B_Bits 32 false)) (name ++ "." ++ indexFieldName)%string;
              mret (Some (ArrayLocation id type name elements lastIndex))
          | _ => fbug "unexpected type"
          end
      | _ => mret None
      end
  end.
End factory.

(** ** Sets of locations *)
Definition LocationSet : Type := gmap Z StorageLocation.
Implicit Types (s : LocationSet) (l : StorageLocation).
Definition add (l : StorageLocation) (s : LocationSet) : LocationSet := <[location_id l := l]> s.
(** A loop over the set, in the order of the map, that may run into a [BUG]. *)
Definition for_all_in {A} (f : StorageLocation -> A -> outcome A) (s : LocationSet) (a : A) : outcome A :=
  fold_left (fun o p => do a <- o; f p.2 a) (map_to_list s) (oret a).
Definition for_each {A} (f : StorageLocation -> A -> outcome A) (ls : list StorageLocation) (a : A) : outcome A :=
  fold_left (fun o l => do a <- o; f l a) ls (oret a).
Definition fields_of (l : StorageLocation) : list StorageLocation := match l with StructLocation _ _ _ fs => fs.*2 | _ => [] end.
(** [StructLocation::addField] into a set; [to] fails on other classes. *)
Definition struct_addField (field : string) (l : StorageLocation) (s : LocationSet) : outcome LocationSet :=
  match l with
  | StructLocation _ _ _ fs => match ofind field fs with Some f => oret (add f s) | None => Aborted "null" end
  | _ => Aborted "null"
  end.
Definition array_addElement (index : Z) (l : StorageLocation) (s : LocationSet) : outcome LocationSet :=
  match l with
  | ArrayLocation _ _ _ es _ => match es !! Z.to_nat index with Some e => if (0 <=? index) then oret (add e s) else Aborted "out of bounds index" | None => Aborted "out of bounds index" end
  | _ => Aborted "null"
  end.
Fixpoint addValidBits (l : StorageLocation) (s : LocationSet) : outcome LocationSet :=
  match l with
  | BaseLocation _ _ _ => oret s
  | StructLocation _ t _ fs =>
      if is_Type_Header t then struct_addField validFieldName l s else fold_left (fun o f => do s <- o; addValidBits f.2 s) fs (oret s)
  | ArrayLocation _ _ _ es _ => fold_left (fun o e => do s <- o; addValidBits e s) es (oret s)
  end.
Fixpoint addLastIndexField (l : StorageLocation) (s : LocationSet) : LocationSet :=
  match l with
  | BaseLocation _ _ _ => s
  | StructLocation _ _ _ fs => fold_left (fun s f => addLastIndexField f.2 s) fs s
  | ArrayLocation _ _ _ _ last => add last s
  end.
Fixpoint removeHeaders (l : StorageLocation) (s : LocationSet) : LocationSet :=
  match l with
  | BaseLocation _ _ _ => add l s
  | StructLocation _ t _ fs => if is_Type_Struct t then fold_left (fun s f => removeHeaders f.2 s) fs s else s
  | ArrayLocation _ _ _ _ _ => s
  end.
Definition getValidBits l : outcome LocationSet := addValidBits l ∅.
Definition getLastIndexField l : LocationSet := addLastIndexField l ∅.
(** [join]: the comparisons with the shared empty set only save a copy. *)
Definition join s (other : LocationSet) : LocationSet := s ∪ other.
Definition getArrayLastIndex s : LocationSet :=
  fold_left (fun r p => match p.2 with ArrayLocation _ _ _ _ last => add last r | _ => r end) (map_to_list s) ∅.
Definition getField (field : string) s : outcome LocationSet :=
  for_all_in (fun l r =>
    match l with
    | StructLocation _ t _ fs =>
        if String.eqb field validFieldName && is_Type_HeaderUnion t then for_each (struct_addField field) fs.*2 r else struct_addField field l r
    | ArrayLocation _ _ _ es _ => for_each (struct_addField field) es r
    | BaseLocation _ _ _ => Aborted "expected an ArrayLocation"
    end) s ∅.
Definition getValidField s : outcome LocationSet := getField validFieldName s.
Definition getIndex (index : Z) s : outcome LocationSet := for_all_in (array_addElement index) s ∅.
Definition allElements s : outcome LocationSet :=
  for_all_in (fun l r => match l with ArrayLocation _ _ _ es _ => oret (fold_left (fun r e => add e r) es r) | _ => Aborted "null" end) s ∅.
Fixpoint addCanonical (l : StorageLocation) (s : LocationSet) : LocationSet :=
  match l with
  | BaseLocation _ _ _ => add l s
  | StructLocation _ _ _ fs => fold_left (fun s f => addCanonical f.2 s) fs s
  | ArrayLocation _ _ _ es _ => fold_left (fun s e => addCanonical e s) es s
  end.
Definition canonicalize s : LocationSet := fold_left (fun r p => addCanonical p.2 r) (map_to_list s) ∅.
Definition overlaps s (other : LocationSet) : bool :=
  existsb (fun p => match other !! p.1 with Some _ => true | None => false end) (map_to_list s).
Definition isEmpty s : bool := bool_decide (size s = 0%nat).

(** ** Program points *)
(** The stack of nodes; empty before the start. *)
Definition ProgramPoint : Type := list Z.
Definition beforeStart : ProgramPoint := [].
Definition point_in (context : ProgramPoint) (node : Z) : ProgramPoint := context ++ [node].
(** [stack.back()], or [nullptr]. *)
Definition last_node (p : ProgramPoint) : Z := default 0 (last p).
Definition ProgramPoints : Type := gset ProgramPoint.
Definition merge_points (points with_ : ProgramPoints) : ProgramPoints := fold_left (fun r p => {[p]} ∪ r) (elements with_) points.
Definition points_eqb (points other : ProgramPoints) : bool :=
  (size points =? size other)%nat && forallb (fun p => bool_decide (p ∈ other)) (elements points).
Definition containsBeforeStart (points : ProgramPoints) : bool := bool_decide (beforeStart ∈ points).

(** ** [Definitions] *)
(** By the [id] of the base location. *)
Definition Definitions : Type := gmap Z ProgramPoints.
Implicit Types (d : Definitions).
Definition emplace (loc : Z) (points : ProgramPoints) d : Definitions := match d !! loc with Some _ => d | None => <[loc := points]> d end.
Definition joinDefinitions d (other : Definitions) : Definitions :=
  let result := fold_left (fun r p => emplace p.1 (match d !! p.1 with Some current => merge_points current p.2 | None => p.2 end) r) (map_to_list other) ∅ in
  fold_left (fun r p => match other !! p.1 with None => emplace p.1 p.2 r | Some _ => r end) (map_to_list d) result.
Definition set_all s (points : ProgramPoints) d : Definitions := fold_left (fun d p => <[p.1 := points]> d) (map_to_list s) d.
Definition setDefinition_location l (points : ProgramPoints) d : Definitions := set_all (addCanonical l ∅) points d.
Definition setDefinition s (points : ProgramPoints) d : Definitions := set_all (canonicalize s) points d.
Definition removeLocation l d : Definitions := fold_left (fun d p => delete p.1 d) (map_to_list (addCanonical l ∅)) d.
Definition writes (point : ProgramPoint) s d : Definitions := set_all (canonicalize s) {[point]} d.
Definition definitions_eqb d (other : Definitions) : bool :=
  (size d =? size other)%nat && forallb (fun p => match other !! p.1 with None => false | Some od => points_eqb p.2 od end) (map_to_list d).
Definition hasLocation (loc : Z) d : bool := match d !! loc with Some _ => true | None => false end.
(** [getPoints] of a base location; it enters what it answers when there is none. *)
Definition getPoints_base (loc : Z) (emptyIfNone : bool) d : outcome (ProgramPoints * Definitions) :=
  match d !! loc with
  | Some points => oret (points, d)
  | None => if emptyIfNone then let points := {[beforeStart]} in oret (points, <[loc := points]> d) else Aborted "no definitions"
  end.
Definition getPoints s (emptyIfNone : bool) d : outcome (ProgramPoints * Definitions) :=
  fold_left (fun o p => do r <- o; do q <- getPoints_base p.1 emptyIfNone r.2; oret (merge_points r.1 q.1, q.2)) (map_to_list (canonicalize s)) (oret (∅, d)).
Definition projected (points : ProgramPoints) : ProgramPoints := list_to_set ((fun p => [last_node p]) <$> elements points).
Definition diff d (other : Definitions) : Definitions :=
  fold_left (fun r p =>
    match other !! p.1 with
    | None => emplace p.1 p.2 r
    | Some current =>
        if points_eqb (projected current) (projected p.2) then r
        else emplace p.1 (filter (fun c => c ∉ p.2) (projected current)) r
    end) (map_to_list d) ∅.
