(* ===== verification/DefUseFacts.v ===== *)
(** * Def-use analysis: storage, sets of locations and definitions

    The storage [create] makes has disjoint parts, canonical sets are the base
    locations of their members, and definitions are maps whose [joinDefinitions]
    is the union at every location. *)
From S2P Require Import Prelude Ir TypeSubst DefUse.
Local Open Scope flexplan_scope.
Local Open Scope Z_scope.
Implicit Types (s : LocationSet) (l b : StorageLocation) (d e : Definitions) (P Q : ProgramPoints).

(** ** Locations as trees *)
Definition children l : list StorageLocation :=
  match l with BaseLocation _ _ _ => [] | StructLocation _ _ _ fs => fs.*2 | ArrayLocation _ _ _ es _ => es end.
Lemma location_induction (H : StorageLocation -> Prop) : (forall l, (forall c, c ∈ children l -> H c) -> H l) -> forall l, H l.
Proof.
  intros Hind. fix IH 1. intros l. apply Hind. destruct l as [id t n|id t n fs|id t n es last]; cbn [children].
  - intros c Hc. exact (False_ind _ (not_elem_of_nil c Hc)).
  - induction fs as [|f fs IHfs]; intros c Hc; [exact (False_ind _ (not_elem_of_nil c Hc))|]. rewrite fmap_cons in Hc. apply elem_of_cons in Hc as [->|Hc]; [apply IH|exact (IHfs c Hc)].
  - induction es as [|x es IHes]; intros c Hc; [exact (False_ind _ (not_elem_of_nil c Hc))|]. apply elem_of_cons in Hc as [->|Hc]; [apply IH|exact (IHes c Hc)].
Qed.
Inductive base_in (b : StorageLocation) : StorageLocation -> Prop :=
| base_self id t n : b = BaseLocation id t n -> base_in b b
| base_child c l : base_in b c -> c ∈ children l -> base_in b l.
Lemma base_in_inv b l : base_in b l -> (b = l /\ children l = [] /\ exists id t n, b = BaseLocation id t n) \/ exists c, c ∈ children l /\ base_in b c.
Proof. destruct 1 as [id t n Hb|c l Hb Hc]; [left; rewrite Hb; split; [done|split; [done|by eexists _, _, _]]|right; by exists c]. Qed.

(** ** Canonical sets *)
Lemma fold_left_snd {A B} (f : A -> B -> A) (g : StorageLocation -> B) (fs : list (string * StorageLocation)) a :
  fold_left (fun a p => f a (g p.2)) fs a = fold_left (fun a c => f a (g c)) fs.*2 a.
Proof. revert a. induction fs as [|p fs IH]; intros a; [done|]. exact (IH _). Qed.
Lemma addCanonical_children l s : children l <> [] -> addCanonical l s = fold_left (fun s c => addCanonical c s) (children l) s.
Proof.
  intros Hc. destruct l as [id t n|id t n fs|id t n es last]; [done| |reflexivity]. cbn [addCanonical children]. clear Hc. revert s.
  induction fs as [|p fs IH]; intros s; [reflexivity|]. exact (IH _).
Qed.
Lemma addCanonical_spec l : forall s i b, addCanonical l s !! i = Some b -> s !! i = Some b \/ (base_in b l /\ location_id b = i).
Proof.
  induction l as [l IH] using location_induction. intros s i b Hb. destruct (decide (children l = [])) as [Hn|Hn].
  - destruct l as [id t n|id t n fs|id t n es last]; cbn [children addCanonical] in *.
    + unfold add, LocationSet in Hb. apply lookup_insert_Some in Hb as [[<- <-]|[_ Hb]]; [right; split; [by eapply base_self|done]|by left].
    + destruct fs; [by left|discriminate Hn].
    + destruct es; [by left|discriminate Hn].
  - rewrite addCanonical_children in Hb by done. assert (Hgo : forall cs s, (forall c, c ∈ cs -> c ∈ children l) ->
      fold_left (fun s c => addCanonical c s) cs s !! i = Some b -> s !! i = Some b \/ (base_in b l /\ location_id b = i)).
    { clear Hb s. induction cs as [|c cs IHc]; intros s Hin Hb; [by left|]. cbn [fold_left] in Hb. apply IHc in Hb as [Hb|Hb]; [|by right|intros x Hx; apply Hin; by right].
      apply IH in Hb as [Hb|[Hb Hi]]; [by left| |apply Hin, list_elem_of_here]. right. split; [|done]. eapply base_child; [exact Hb|]. apply Hin, list_elem_of_here. }
    by apply (Hgo (children l)).
Qed.
Lemma addCanonical_mono l : forall s i, is_Some (s !! i) -> is_Some (addCanonical l s !! i).
Proof.
  induction l as [l IH] using location_induction. intros s i Hs. destruct (decide (children l = [])) as [Hn|Hn].
  - destruct l as [id t n|id t n fs|id t n es last]; cbn [children addCanonical] in *; [|destruct fs; [done|discriminate Hn]|destruct es; [done|discriminate Hn]].
    unfold add, LocationSet in *. destruct (decide (location_id (BaseLocation id t n) = i)) as [->|]; [rewrite lookup_insert_eq; by eexists|by rewrite lookup_insert_ne].
  - rewrite addCanonical_children by done. assert (Hgo : forall cs s, (forall c, c ∈ cs -> c ∈ children l) -> is_Some (s !! i) -> is_Some (fold_left (fun s c => addCanonical c s) cs s !! i)).
    { clear Hs s. induction cs as [|c cs IHc]; intros s Hin Hs; [done|]. cbn [fold_left]. apply IHc; [intros x Hx; apply Hin; by right|]. apply IH; [apply Hin, list_elem_of_here|done]. }
    by apply Hgo.
Qed.
Lemma addCanonical_complete l : forall s b, base_in b l -> is_Some (addCanonical l s !! location_id b).
Proof.
  induction l as [l IH] using location_induction. intros s b Hb. apply base_in_inv in Hb as [(-> & _ & id & t & n & ->)|(c & Hc & Hb)].
  - cbn [addCanonical]. unfold add, LocationSet. rewrite lookup_insert_eq. by eexists.
  - rewrite addCanonical_children by (intros Hn; rewrite Hn in Hc; by apply not_elem_of_nil in Hc).
    assert (Hgo : forall cs s, c ∈ cs -> (forall x, x ∈ cs -> x ∈ children l) -> is_Some (fold_left (fun s c => addCanonical c s) cs s !! location_id b)).
    { clear s. induction cs as [|x cs IHc]; intros s Hin Hsub; [by apply not_elem_of_nil in Hin|]. cbn [fold_left]. apply elem_of_cons in Hin as [<-|Hin].
      - clear IHc. assert (Hmono : forall cs s, is_Some (s !! location_id b) -> is_Some (fold_left (fun s c => addCanonical c s) cs s !! location_id b)).
        { induction cs0 as [|y cs0 IHy]; intros s' Hs'; [done|]. cbn [fold_left]. apply IHy. by apply addCanonical_mono. }
        apply Hmono, IH; [apply Hsub, list_elem_of_here|done].
      - apply IHc; [done|]. intros y Hy. apply Hsub. by right. }
    apply Hgo; [done|]. by intros.
Qed.
(** The objects of the storage, by their ids. *)
Definition in_bases (i : Z) l : Prop := exists b, base_in b l /\ location_id b = i.
Lemma addCanonical_dom l s i : is_Some (addCanonical l s !! i) <-> is_Some (s !! i) \/ in_bases i l.
Proof.
  split.
  - intros [b Hb]. apply addCanonical_spec in Hb as [Hb|[Hb Hi]]; [left; by eexists|right; by exists b].
  - intros [Hs|(b & Hb & <-)]; [by apply addCanonical_mono|by apply addCanonical_complete].
Qed.
Lemma canonicalize_dom s i : is_Some (canonicalize s !! i) <-> exists j l, s !! j = Some l /\ in_bases i l.
Proof.
  unfold canonicalize. assert (Hgo : forall (ls : list (Z * StorageLocation)) (r : LocationSet), is_Some (fold_left (fun r p => addCanonical p.2 r) ls r !! i) <-> is_Some (r !! i) \/ exists p : Z * StorageLocation, p ∈ ls /\ in_bases i p.2).
  { induction ls as [|p ls IH]; intros r; cbn [fold_left].
    - split; [by left|]. intros [Hr|(p & Hp & _)]; [done|by apply not_elem_of_nil in Hp].
    - rewrite IH, addCanonical_dom. setoid_rewrite elem_of_cons. naive_solver. }
  rewrite Hgo. split.
  - intros [[x Hx]|([j l] & Hp & Hi)]; [discriminate Hx|]. exists j, l. split; [|done]. by apply elem_of_map_to_list in Hp.
  - intros (j & l & Hj & Hi). right. exists (j, l). split; [by apply elem_of_map_to_list|done].
Qed.
Lemma canonicalize_base s i b : canonicalize s !! i = Some b -> exists t n, b = BaseLocation i t n.
Proof.
  unfold canonicalize. assert (Hgo : forall (ls : list (Z * StorageLocation)) (r : LocationSet), (forall b, r !! i = Some b -> exists t n, b = BaseLocation i t n) ->
    forall b, fold_left (fun r p => addCanonical p.2 r) ls r !! i = Some b -> exists t n, b = BaseLocation i t n).
  { induction ls as [|p ls IH]; intros r Hr b' Hb'; cbn [fold_left] in Hb'; [by apply Hr|]. apply IH in Hb'; [done|]. intros x Hx. apply addCanonical_spec in Hx as [Hx|[Hx <-]]; [by apply Hr|].
    clear -Hx. induction Hx as [id t n Hb|]; [|done]. rewrite Hb. by eexists _, _. }
  apply Hgo. intros x Hx. discriminate Hx.
Qed.
Lemma overlaps_spec s s' : overlaps s s' = true <-> exists i, is_Some (s !! i) /\ is_Some (s' !! i).
Proof.
  unfold overlaps. rewrite existsb_exists. split.
  - intros ([i l] & Hin & Hf). exists i. apply list_elem_of_In, elem_of_map_to_list in Hin. cbn [fst] in Hf. split; [by eexists|]. destruct (s' !! i); [by eexists|done].
  - intros (i & [l Hl] & [l' Hl']). exists (i, l). split; [by apply list_elem_of_In, elem_of_map_to_list|]. cbn [fst]. by rewrite Hl'.
Qed.

(** ** Program points and definitions *)
Lemma merge_points_union P Q : merge_points P Q = P ∪ Q.
Proof.
  unfold merge_points. assert (Hgo : forall (l : list ProgramPoint) (r : ProgramPoints), fold_left (fun r p => {[p]} ∪ r) l r = r ∪ list_to_set l).
  { induction l as [|p l IH]; intros r; cbn [fold_left]; [set_solver|]. rewrite IH. set_solver. }
  rewrite Hgo, list_to_set_elements_L. done.
Qed.
Lemma points_eqb_spec P Q : points_eqb P Q = true <-> P = Q.
Proof.
  unfold points_eqb. rewrite andb_true_iff, Nat.eqb_eq, forallb_forall. split.
  - intros [Hs Hall]. unfold ProgramPoints in *; apply set_subseteq_size_eq; [|unfold ProgramPoints in *; lia]. intros p Hp. specialize (Hall p). rewrite bool_decide_eq_true in Hall. by apply Hall, list_elem_of_In, elem_of_elements.
  - intros ->. split; [done|]. intros p Hp. apply bool_decide_eq_true. by apply elem_of_elements, list_elem_of_In.
Qed.
Lemma emplace_lookup i P d j : emplace i P d !! j = match d !! j with Some Q => Some Q | None => if decide (i = j) then Some P else None end.
Proof.
  unfold emplace, Definitions in *. destruct (d !! i) as [Q|] eqn:E.
  - case_decide as Hij; [subst j; by rewrite E|]. by destruct (d !! j).
  - destruct (decide (i = j)) as [->|Hne]; [by rewrite lookup_insert_eq, E|]. rewrite lookup_insert_ne by done. by destruct (d !! j).
Qed.
(** The first entry for a key in a list of entries put in one after the other. *)
Lemma emplace_all_lookup {A} (f : Z * A -> option ProgramPoints) (l : list (Z * A)) : NoDup l.*1 -> forall d j,
  fold_left (fun r p => match f p with Some P => emplace p.1 P r | None => r end) l d !! j =
  match d !! j with Some Q => Some Q | None => match list_find (fun p => p.1 = j) l with Some (_, p) => f p | None => None end end.
Proof.
  induction l as [|p l IH]; intros Hnd d j; cbn [fold_left list_find]; [by destruct (d !! j)|]. rewrite fmap_cons in Hnd. apply NoDup_cons in Hnd as [Hp Hnd]. rewrite IH by done.
  assert (Hnone : p.1 = j -> list_find (fun q => q.1 = j) l = None).
  { intros <-. apply list_find_None, Forall_forall. intros q Hq Heq. apply Hp. rewrite <- Heq. by apply list_elem_of_fmap_2. }
  destruct (decide (p.1 = j)) as [Hj|Hj].
  - rewrite Hnone by done. destruct (f p) as [P|]; [|done]. rewrite emplace_lookup, decide_True by done. by destruct (d !! j).
  - assert (Hd : match f p with Some P => emplace p.1 P d | None => d end !! j = d !! j).
    { destruct (f p); [|done]. rewrite emplace_lookup, decide_False by done. by destruct (d !! j). }
    rewrite Hd. destruct (d !! j); [done|]. destruct (list_find _ l) as [[n q]|]; done.
Qed.
Lemma map_find d j : match list_find (fun p => p.1 = j) (map_to_list d) with Some (_, p) => d !! j = Some p.2 | None => d !! j = None end.
Proof.
  destruct (list_find _ _) as [[n p]|] eqn:E.
  - apply list_find_Some in E as (Hp & Hj & _). apply list_elem_of_lookup_2 in Hp. destruct p as [i P]. cbn [fst snd] in *. subst i. by apply elem_of_map_to_list in Hp.
  - destruct (d !! j) as [P|] eqn:Hd; [|done]. apply list_find_None in E. rewrite Forall_forall in E. exfalso. apply (E (j, P)); [by apply elem_of_map_to_list|done].
Qed.
Lemma join_lookup d e i : joinDefinitions d e !! i = union_with (fun P Q => Some (P ∪ Q)) (d !! i) (e !! i).
Proof.
  unfold joinDefinitions. set (f := fun p : Z * ProgramPoints => Some (match d !! p.1 with Some current => merge_points current p.2 | None => p.2 end)).
  set (g := fun p : Z * ProgramPoints => match e !! p.1 with None => Some p.2 | Some _ => None end).
  assert (H1 : forall (ps : list (Z * ProgramPoints)) r, fold_left (fun r p => emplace p.1 (match d !! p.1 with Some current => merge_points current p.2 | None => p.2 end) r) ps r = fold_left (fun r p => match f p with Some P => emplace p.1 P r | None => r end) ps r) by reflexivity.
  assert (H2 : forall (ps : list (Z * ProgramPoints)) r, fold_left (fun r p => match e !! p.1 with None => emplace p.1 p.2 r | Some _ => r end) ps r = fold_left (fun r p => match g p with Some P => emplace p.1 P r | None => r end) ps r).
  { induction ps as [|p l IH]; intros r; [done|]. cbn [fold_left]. rewrite IH. f_equal. unfold g. by destruct (e !! p.1). }
  rewrite H1, H2. rewrite !emplace_all_lookup by apply NoDup_fst_map_to_list. assert (Hempty : (∅ : Definitions) !! i = None) by done. rewrite Hempty.
  pose proof (map_find e i) as He. pose proof (map_find d i) as Hd. unfold f, g.
  destruct (list_find _ (map_to_list e)) as [[n p]|] eqn:E1.
  - rewrite He. apply list_find_Some in E1 as (_ & <- & _). destruct (d !! p.1); cbn [union_with option_union_with]; [by rewrite merge_points_union|done].
  - rewrite He. destruct (list_find _ (map_to_list d)) as [[n p]|] eqn:E2; rewrite Hd; [|done]. apply list_find_Some in E2 as (_ & <- & _). by rewrite He.
Qed.
Lemma definitions_eqb_spec d e : definitions_eqb d e = true <-> d = e.
Proof.
  unfold definitions_eqb, Definitions in *. rewrite andb_true_iff, Nat.eqb_eq, forallb_forall. split.
  - intros [Hs Hall]. assert (Hsub : d ⊆ e).
    { apply map_subseteq_spec. intros i P Hi. specialize (Hall (i, P)). rewrite <- list_elem_of_In, elem_of_map_to_list in Hall. specialize (Hall Hi). cbn [fst snd] in Hall.
      destruct (e !! i); [|discriminate Hall]. by apply points_eqb_spec in Hall as ->. }
    by apply map_subseteq_size_eq; [|lia].
  - intros ->. split; [done|]. intros [i P] Hin. apply list_elem_of_In, elem_of_map_to_list in Hin. cbn [fst snd]. rewrite Hin. by apply points_eqb_spec.
Qed.
Lemma insert_all_lookup {A} s (x : A) (m : gmap Z A) i : fold_left (fun m p => <[p.1 := x]> m) (map_to_list s) m !! i = match s !! i with Some _ => Some x | None => m !! i end.
Proof.
  assert (Hgo : forall (l : list (Z * StorageLocation)) (m : gmap Z A), fold_left (fun m p => <[p.1 := x]> m) l m !! i = if decide (i ∈ l.*1) then Some x else m !! i).
  { clear. induction l as [|p l IH]; intros m; cbn [fold_left]; [by rewrite decide_False by apply not_elem_of_nil|]. rewrite IH, fmap_cons. destruct (decide (i ∈ l.*1)) as [Hin|Hin].
    - by rewrite decide_True by (by right).
    - destruct (decide (i = p.1)) as [->|Hne]; [by rewrite lookup_insert_eq, decide_True by apply list_elem_of_here|]. rewrite lookup_insert_ne, decide_False; [done|set_solver|done]. }
  rewrite Hgo. destruct (s !! i) as [l|] eqn:E.
  - rewrite decide_True; [done|]. apply list_elem_of_fmap. exists (i, l). split; [done|]. by apply elem_of_map_to_list.
  - rewrite decide_False; [done|]. intros ([j l] & -> & Hin)%list_elem_of_fmap. apply elem_of_map_to_list in Hin. cbn [fst] in E. unfold LocationSet in *. congruence.
Qed.
Lemma set_all_lookup s P d i : set_all s P d !! i = match s !! i with Some _ => Some P | None => d !! i end.
Proof. apply insert_all_lookup. Qed.
Lemma writes_lookup p s d i : writes p s d !! i = match canonicalize s !! i with Some _ => Some {[p]} | None => d !! i end.
Proof. apply set_all_lookup. Qed.

(** ** The storage of a variable *)
Fixpoint ids (l : StorageLocation) : list Z :=
  match l with
  | BaseLocation id _ _ => [id]
  | StructLocation id _ _ fs => id :: concat (map (fun f => ids f.2) fs)
  | ArrayLocation id _ _ es last => id :: concat (map ids es) ++ ids last
  end.
(** Header unions share one object, among their members. *)
Fixpoint has_union (l : StorageLocation) : bool :=
  match l with
  | BaseLocation _ _ _ => false
  | StructLocation _ t _ fs => is_Type_HeaderUnion t || existsb (fun f => has_union f.2) fs
  | ArrayLocation _ _ _ es _ => existsb has_union es
  end.
Definition field_ids (fs : list (string * StorageLocation)) : list Z := concat (map (fun f => ids f.2) fs).
Definition within (n n' : Z) (is_ : list Z) : Prop := forall i, i ∈ is_ -> n <= i < n'.
Lemma within_app n n' a c : within n n' a -> within n n' c -> within n n' (a ++ c).
Proof. intros Ha Hc i [Hi|Hi]%elem_of_app; [by apply Ha|by apply Hc]. Qed.
Lemma within_mono n n' m m' a : within n n' a -> m <= n -> n' <= m' -> within m m' a.
Proof. intros Ha Hm Hm' i Hi. specialize (Ha i Hi). lia. Qed.
Lemma within_cons n n' i a : n <= i < n' -> within n n' a -> within n n' (i :: a).
Proof. intros Hi Ha j [->|Hj]%elem_of_cons; [done|by apply Ha]. Qed.
Lemma within_disjoint n m n' a c : within n m a -> within m n' c -> forall i, i ∈ a -> i ∉ c.
Proof. intros Ha Hc i Hi Hi'. specialize (Ha i Hi). specialize (Hc i Hi'). lia. Qed.
Lemma base_in_ids b l : base_in b l -> location_id b ∈ ids l.
Proof.
  induction 1 as [id t n Hb|c l Hc IH Hin]; [rewrite Hb; apply list_elem_of_here|]. destruct l as [id t n|id t n fs|id t n es last]; cbn [children ids] in *.
  - by apply not_elem_of_nil in Hin.
  - right. apply list_elem_of_fmap in Hin as (f & -> & Hf). apply list_elem_of_In, in_concat. exists (ids f.2). split; [|by apply list_elem_of_In]. apply in_map_iff. exists f. split; [done|by apply list_elem_of_In].
  - right. apply elem_of_app. left. apply list_elem_of_In, in_concat. exists (ids c). split; [|by apply list_elem_of_In]. apply in_map_iff. exists c. split; [done|by apply list_elem_of_In].
Qed.
Lemma fbind_inv {A B} (m : F A) (k : A -> F B) n r ds : (m ≫= k) n = Done r ds -> exists a n1 ds1 ds2, m n = Done (a, n1) ds1 /\ k a n1 = Done r ds2.
Proof.
  unfold mbind, F_bind. intros Hm. destruct (m n) as [[a n1] ds1|] eqn:E; [|discriminate Hm]. simpl in Hm. destruct (k a n1) as [r' ds2|] eqn:E2; [|discriminate Hm]. injection Hm as -> _.
  by exists a, n1, ds1, ds2.
Qed.
(** Opens the first step of a program that has returned. *)
Ltac fstep H := apply fbind_inv in H as (? & ? & ? & ? & ? & H).
Lemma oinsert_perm k l (fs : list (string * StorageLocation)) : oinsert (ord := String.ltb) k l fs ≡ₚ (k, l) :: fs.
Proof. induction fs as [|[k' l'] fs IH]; [done|]. cbn [oinsert]. destruct (key_ltb k k'); [done|]. rewrite IH. apply Permutation_swap. Qed.
Lemma field_ids_perm (fs gs : list (string * StorageLocation)) : fs ≡ₚ gs -> field_ids fs ≡ₚ field_ids gs.
Proof. unfold field_ids. induction 1; simpl; [done|by apply Permutation_app_head| |by etrans]. rewrite !app_assoc. apply Permutation_app_tail, Permutation_app_comm. Qed.
Lemma addField_inv k sl fs n fs' n' ds : addField k sl fs n = Done (fs', n') ds -> n' = n /\ exists l, sl = Some l /\ (fs' = fs \/ fs' ≡ₚ (k, l) :: fs).
Proof.
  unfold addField. destruct sl as [l|]; [|discriminate]. intros [= <- <- _]. split; [done|]. exists l. split; [done|]. unfold oemplace. destruct (ofind k fs); [by left|right; apply oinsert_perm].
Qed.
Lemma oput_ids k l (fs : list (string * StorageLocation)) i : i ∈ field_ids (oput (ord := String.ltb) k l fs) -> i ∈ field_ids fs \/ i ∈ ids l.
Proof.
  unfold oput. destruct (ofind k fs).
  - clear s. induction fs as [|[k' l'] fs IH]; [by left|]. unfold field_ids in *. cbn [oreplace]. case_decide; cbn [map concat]; rewrite ?elem_of_app; cbn [snd]; rewrite ?elem_of_app; naive_solver.
  - intros Hi. assert (Hp : i ∈ field_ids ((k, l) :: fs)) by (by rewrite (field_ids_perm _ _ (oinsert_perm k l fs)) in Hi). unfold field_ids in Hp. cbn [map concat snd] in Hp. apply elem_of_app in Hp. tauto.
Qed.
Lemma existsb_perm {A} (f : A -> bool) (l l' : list A) : l ≡ₚ l' -> existsb f l = existsb f l'.
Proof. induction 1; simpl; [done|congruence| |congruence]. by rewrite !orb_assoc, (orb_comm (f y)). Qed.

(** The objects of a storage are new, and none is used twice. *)
Definition made (n : Z) (l : StorageLocation) (n' : Z) : Prop := within n n' (ids l) /\ (has_union l = false -> NoDup (ids l)).
Definition makes (create : IRType -> string -> F (option StorageLocation)) : Prop :=
  forall t name n r n' ds, create t name n = Done (r, n') ds -> n <= n' /\ forall l, r = Some l -> made n l n'.
Lemma create_fields_made create gv name (Hc : makes create) fs : forall fields n0 n fields' n' ds, create_fields create gv name fs fields n = Done (fields', n') ds ->
  n0 <= n -> within n0 n (field_ids fields) -> (forall v, gv = Some v -> within n0 n (ids v)) ->
  n <= n' /\ within n0 n' (field_ids fields') /\ (gv = None -> (existsb (fun f => has_union f.2) fields' = false -> existsb (fun f => has_union f.2) fields = false) /\
    (NoDup (field_ids fields) -> existsb (fun f => has_union f.2) fields' = false -> NoDup (field_ids fields'))).
Proof.
  induction fs as [|f fs IH]; intros fields n0 n fields' n' ds He Hn Hw Hv; cbn [create_fields] in He; [injection He as <- <- _; by split_and!|].
  apply fbind_inv in He as (sl & n1 & ? & ? & Hsl & He). apply fbind_inv in He as (sl' & n2 & ? & ? & Hsl' & He). apply fbind_inv in He as (fields1 & n3 & ? & ? & Hf & He).
  apply addField_inv in Hf as (-> & l & -> & Hf). destruct (Hc _ _ _ _ _ _ Hsl) as [Hn1 Hm].
  assert (Hl : n2 = n1 /\ within n0 n1 (ids l) /\ (gv = None -> sl = Some l)).
  { destruct gv as [v|]; [|injection Hsl' as -> <- _; split; [done|]; split; [|done]; eapply within_mono; [apply (Hm l eq_refl)|lia|lia]].
    destruct sl as [[|id t nm flds|]|]; try discriminate Hsl'. injection Hsl' as <- <- _. split; [done|]. split; [|done]. destruct (Hm _ eq_refl) as [Hw1 _].
    apply within_cons; [specialize (Hw1 id (list_elem_of_here _ _)); lia|]. intros i Hi. apply oput_ids in Hi as [Hi|Hi].
    - assert (Hin : i ∈ ids (StructLocation id t nm flds)) by (cbn [ids]; by right). specialize (Hw1 i Hin). lia.
    - specialize (Hv v eq_refl i Hi). lia. }
  destruct Hl as (-> & Hwl & Hgl). assert (Hw1 : within n0 n1 (field_ids fields1)).
  { destruct Hf as [->|Hp]; [eapply within_mono; [exact Hw|lia|lia]|]. intros i Hi. rewrite (field_ids_perm _ _ Hp) in Hi. unfold field_ids in Hi. cbn [map concat snd] in Hi.
    apply elem_of_app in Hi as [Hi|Hi]; [by apply Hwl|]. specialize (Hw i Hi). lia. }
  destruct (IH _ n0 _ _ _ _ He) as (I1 & I2 & I3); [lia|exact Hw1|intros v ->; eapply within_mono; [by apply Hv|lia|lia]|].
  split; [lia|]. split; [exact I2|]. intros Hg. destruct (I3 Hg) as [J1 J2]. specialize (Hgl Hg). subst sl. destruct (Hm l eq_refl) as [Hw2 Hnd].
  assert (Hun : existsb (fun f => has_union f.2) fields1 = false -> existsb (fun f => has_union f.2) fields = false /\ (fields1 = fields \/ has_union l = false)).
  { destruct Hf as [->|Hp]; [intros He'; by split; [|left]|]. rewrite (existsb_perm _ _ _ Hp). cbn [existsb snd]. intros [H1 H2]%orb_false_iff. by split; [|right]. }
  split; [intros He'; by apply Hun, J1|]. intros Hnd0 He'. apply J2; [|exact He']. destruct (Hun (J1 He')) as [_ Hor]. destruct Hf as [->|Hp]; [exact Hnd0|].
  destruct Hor as [->|Hu]; [exact Hnd0|]. rewrite (field_ids_perm _ _ Hp). unfold field_ids. cbn [map concat snd]. apply NoDup_app. split; [by apply Hnd|]. split; [|exact Hnd0].
  intros i Hi Hi'. specialize (Hw2 i Hi). specialize (Hw i Hi'). lia.
Qed.
Lemma create_elements_made create t name (Hc : makes create) k : forall i n es n' ds, create_elements create t name i k n = Done (es, n') ds ->
  n <= n' /\ within n n' (concat (map ids es)) /\ (existsb has_union es = false -> NoDup (concat (map ids es))).
Proof.
  induction k as [|k IH]; intros i n es n' ds He; cbn [create_elements] in He; [injection He as <- <- _; split; [lia|]; split; [intros j Hj; by apply not_elem_of_nil in Hj|intros _; constructor]|].
  apply fbind_inv in He as (sl & n1 & ? & ? & Hsl & He). destruct sl as [l|]; [|discriminate He]. apply fbind_inv in He as (rest & n2 & ? & ? & Hrest & He). injection He as <- <- _.
  destruct (Hc _ _ _ _ _ _ Hsl) as [Hn1 Hm]. destruct (Hm l eq_refl) as [Hw Hnd]. destruct (IH _ _ _ _ _ Hrest) as (Hn2 & Hw2 & Hnd2). cbn [map concat existsb].
  split; [lia|]. split; [apply within_app; [eapply within_mono; [exact Hw|lia|lia]|eapply within_mono; [exact Hw2|lia|lia]]|]. intros [H1 H2]%orb_false_iff.
  apply NoDup_app. split; [by apply Hnd|]. split; [by eapply within_disjoint|by apply Hnd2].
Qed.
Lemma new_base_made t name n l n' ds : new_base t name n = Done (l, n') ds -> n' = n + 1 /\ l = BaseLocation n t name.
Proof. unfold new_base, mbind, F_bind. cbn. by intros [= <- <- _]. Qed.
Lemma create_makes getTypeType fuel : makes (create getTypeType fuel).
Proof.
  induction fuel as [|fuel IH]; intros t name n r n' ds He; [discriminate He|]. cbn [create] in He. destruct (is_base_type t) eqn:Eb.
  { apply fbind_inv in He as (l & n1 & ? & ? & Hl & He). injection He as <- <- _. apply new_base_made in Hl as [-> ->]. split; [lia|]. intros l [= <-]. cbn [made]. split; cbn [ids].
    - apply within_cons; [lia|]. intros i Hi. by apply not_elem_of_nil in Hi.
    - intros _. apply NoDup_singleton. }
  destruct t as [| | | | |et sz| | |k0 nm0 fs0| | | | | | | | | |]; try (injection He as <- <- _; split; [lia|]; intros l Hl; discriminate Hl).
  - destruct (getTypeType (Ty_Stack et sz)) as [| | | | |et' sz'| | | | | | | | | | | | |]; try discriminate He. apply fbind_inv in He as (id & n1 & ? & ? & Hid & He). injection Hid as <- <- _.
    apply fbind_inv in He as (k & n2 & ? & ? & Hk & He). assert (n2 = n + 1) as ->.
    { unfold flift in Hk. destruct (getSize sz'); [|discriminate Hk]. by injection Hk as _ <- _. }
    apply fbind_inv in He as (es & n3 & ? & ? & Hes & He). apply fbind_inv in He as (last & n4 & ? & ? & Hlast & He). injection He as <- <- _. apply new_base_made in Hlast as [-> ->].
    destruct (create_elements_made _ _ _ IH _ _ _ _ _ _ Hes) as (Hn & Hw & Hnd). split; [lia|]. intros l [= <-]. split; cbn [ids has_union].
    + apply within_cons; [lia|]. apply within_app; [eapply within_mono; [exact Hw|lia|lia]|]. apply within_cons; [lia|]. intros i Hi. by apply not_elem_of_nil in Hi.
    + intros Hu. apply NoDup_cons. split.
      * intros [Hi|Hi]%elem_of_app; [specialize (Hw n Hi); lia|]. apply list_elem_of_singleton in Hi. lia.
      * apply NoDup_app. split; [by apply Hnd|]. split; [|apply NoDup_singleton]. intros i Hi Hi'. apply list_elem_of_singleton in Hi' as ->. specialize (Hw n3 Hi). lia.
  - remember (getTypeType (Ty_StructLike k0 nm0 fs0)) as ct eqn:Ect. clear Ect. destruct ct as [| | | | | | | |kind nm fs| | | | | | | | | |]; try discriminate He. apply fbind_inv in He as (id & n1 & ? & ? & Hid & He). injection Hid as <- <- _.
    apply fbind_inv in He as (gv & n2 & ? & ? & Hgv & He). apply fbind_inv in He as (fields & n3 & ? & ? & Hf & He).
    assert (Hg : n + 1 <= n2 /\ (forall v, gv = Some v -> within (n + 1) n2 (ids v)) /\ (is_Type_HeaderUnion (Ty_StructLike kind nm fs) = false -> gv = None)).
    { destruct (is_Type_HeaderUnion (Ty_StructLike kind nm fs)); [|injection Hgv as <- <- _; split; [lia|]; by split]. apply fbind_inv in Hgv as (v & n4 & ? & ? & Hv & Hgv). injection Hgv as <- <- _.
      apply new_base_made in Hv as [-> ->]. split; [lia|]. split; [|done]. intros v [= <-]. apply within_cons; [lia|]. intros i Hi. by apply not_elem_of_nil in Hi. }
    destruct Hg as (Hn2 & Hwv & Hgn). destruct (create_fields_made _ _ _ IH _ _ (n + 1) _ _ _ _ Hf) as (Hn3 & Hw & Hnd); [lia|intros i Hi; by apply not_elem_of_nil in Hi|exact Hwv|].
    apply fbind_inv in He as (fields' & n4 & ? & ? & Hf' & He). injection He as <- <- _.
    assert (Hlast : n3 <= n4 /\ within (n + 1) n4 (field_ids fields') /\ (is_Type_HeaderUnion (Ty_StructLike kind nm fs) = false -> existsb (fun f => has_union f.2) fields' = false -> NoDup (field_ids fields'))).
    { assert (Hfine : is_Type_HeaderUnion (Ty_StructLike kind nm fs) = false -> existsb (fun f => has_union f.2) fields = false -> NoDup (field_ids fields)).
      { intros Hu He'. destruct (Hnd (Hgn Hu)) as [_ Hnd']. apply Hnd'; [constructor|exact He']. }
      destruct (is_Type_Header (Ty_StructLike kind nm fs)); [|injection Hf' as <- <- _; split; [lia|]; by split]. apply fbind_inv in Hf' as (v & n5 & ? & ? & Hv & Hf'). apply new_base_made in Hv as [-> ->].
      apply addField_inv in Hf' as (-> & l & [= <-] & Hor). split; [lia|]. destruct Hor as [->|Hp]; [split; [eapply within_mono; [exact Hw|lia|lia]|exact Hfine]|].
      assert (Heq : field_ids fields' ≡ₚ n3 :: field_ids fields) by (rewrite (field_ids_perm _ _ Hp); reflexivity). split.
      - intros i Hi. rewrite Heq in Hi. apply elem_of_cons in Hi as [->|Hi]; [lia|]. specialize (Hw i Hi). lia.
      - intros Hu He'. rewrite Heq. apply NoDup_cons. split; [intros Hi; specialize (Hw n3 Hi); lia|]. apply Hfine; [exact Hu|]. rewrite (existsb_perm _ _ _ Hp) in He'. exact He'. }
    destruct Hlast as (Hn4 & Hw' & Hnd'). split; [lia|]. intros l [= <-]. split; cbn [ids has_union].
    + apply within_cons; [lia|]. eapply within_mono; [exact Hw'|lia|lia].
    + intros [Hu He']%orb_false_iff. apply NoDup_cons. split; [intros Hi; specialize (Hw' n Hi); lia|by apply Hnd'].
Qed.

(** ** Parts of a storage *)
Inductive part_of : StorageLocation -> StorageLocation -> Prop :=
| part_self l : part_of l l
| part_child p c l : part_of p c -> c ∈ children l -> part_of p l.
Lemma children_ids l : NoDup (ids l) -> NoDup (concat (map ids (children l))) /\ forall c, c ∈ children l -> NoDup (ids c).
Proof.
  assert (Hconcat : forall ls : list StorageLocation, NoDup (concat (map ids ls)) -> forall c, c ∈ ls -> NoDup (ids c)).
  { induction ls as [|x ls IH]; intros Hn c Hc; [by apply not_elem_of_nil in Hc|]. cbn [map concat] in Hn. apply NoDup_app in Hn as (Hx & _ & Hls). apply elem_of_cons in Hc as [->|Hc]; [done|by apply IH]. }
  destruct l as [id t n|id t n fs|id t n es last]; cbn [ids children]; intros Hn.
  - split; [constructor|intros c Hc; by apply not_elem_of_nil in Hc].
  - apply NoDup_cons in Hn as [_ Hn]. assert (E : map (fun f : string * StorageLocation => ids f.2) fs = map ids fs.*2) by (rewrite <- map_map; done). rewrite E in Hn. split; [done|by apply Hconcat].
  - apply NoDup_cons in Hn as [_ (Hn & _)%NoDup_app]. split; [done|by apply Hconcat].
Qed.
Lemma part_ids p l : part_of p l -> NoDup (ids l) -> NoDup (ids p).
Proof. induction 1 as [|p c l Hp IH Hc]; [done|]. intros Hn. apply IH. by apply (children_ids l). Qed.
Lemma canonicalize_single l i : is_Some (canonicalize (add l ∅) !! i) <-> in_bases i l.
Proof.
  rewrite canonicalize_dom. unfold add, LocationSet. split.
  - intros (j & l' & Hj & Hi). apply lookup_insert_Some in Hj as [[_ <-]|[_ Hj]]; [done|discriminate Hj].
  - intros Hi. exists (location_id l), l. by rewrite lookup_insert_eq.
Qed.
Lemma disjoint_overlaps l l' : (forall i, i ∈ ids l -> i ∉ ids l') -> overlaps (canonicalize (add l ∅)) (canonicalize (add l' ∅)) = false.
Proof.
  intros Hd. apply not_true_iff_false. rewrite overlaps_spec. intros (i & (b & Hb & <-)%canonicalize_single & (b' & Hb' & Heq)%canonicalize_single).
  apply (Hd (location_id b)); [by apply base_in_ids|]. rewrite <- Heq. by apply base_in_ids.
Qed.
Lemma concat_disjoint (ls : list StorageLocation) i j c c' : NoDup (concat (map ids ls)) -> ls !! i = Some c -> ls !! j = Some c' -> i <> j -> forall x, x ∈ ids c -> x ∉ ids c'.
Proof.
  intros Hn Hi Hj Hij x Hx Hx'. apply Hij. revert i j Hn Hi Hj Hij. induction ls as [|l ls IH]; intros i j Hn Hi Hj Hij; [done|]. cbn [map concat] in Hn. apply NoDup_app in Hn as (_ & Hd & Hn).
  assert (Hin : forall k y, ls !! k = Some y -> x ∈ ids y -> x ∈ concat (map ids ls)).
  { intros k y Hk Hy. apply list_elem_of_In, in_concat. exists (ids y). split; [|by apply list_elem_of_In]. apply in_map_iff. exists y. split; [done|]. apply list_elem_of_In. by eapply list_elem_of_lookup_2. }
  destruct i as [|i], j as [|j]; [done| | |f_equal; apply (IH i j Hn Hi Hj); congruence]; cbn in Hi, Hj; simplify_eq.
  - exfalso. apply (Hd x Hx). by eapply Hin.
  - exfalso. apply (Hd x Hx'). by eapply Hin.
Qed.

(** [d] is within [e]: every point of [d] is one of [e], at every location. *)
Definition below d e : Prop := forall i P, d !! i = Some P -> exists Q, e !! i = Some Q /\ P ⊆ Q.
(** C39. [joinDefinitions] is the least upper bound of its arguments, and the comparison
    that ends the loop over parser states holds of equal definitions only: two
    that are within each other. *)
Theorem joinDefinitions_least d e : below d (joinDefinitions d e) /\ below e (joinDefinitions d e) /\ (forall m, below d m -> below e m -> below (joinDefinitions d e) m) /\
  (definitions_eqb d e = true <-> below d e /\ below e d).
Proof.
  split_and!.
  - intros i P Hi. rewrite join_lookup, Hi. destruct (e !! i); cbn; eexists; (split; [done|]); set_solver.
  - intros i P Hi. rewrite join_lookup, Hi. destruct (d !! i); cbn; eexists; (split; [done|]); set_solver.
  - intros m Hd He i P. rewrite join_lookup. intros Hj. destruct (d !! i) as [D|] eqn:Ed, (e !! i) as [E|] eqn:Ee; cbn in Hj; try discriminate Hj; injection Hj as <-; [|by apply Hd|by apply He].
    destruct (Hd i D Ed) as (Q & HQ & HD). destruct (He i E Ee) as (Q' & HQ' & HE). rewrite HQ in HQ'. injection HQ' as <-. exists Q. split; [done|set_solver].
  - rewrite definitions_eqb_spec. split; [intros ->; split; intros i P Hi; by exists P|]. intros [Hde Hed]. unfold below, Definitions in *. apply map_eq. intros i.
    destruct (d !! i) as [D|] eqn:Ed; [|destruct (e !! i) as [E|] eqn:Ee; [destruct (Hed i E Ee) as (Q & HQ & _); congruence|done]].
    destruct (Hde i D Ed) as (E & HE & H1). destruct (Hed i E HE) as (D' & HD' & H2). rewrite HE. rewrite Ed in HD'. injection HD' as <-. f_equal. unfold ProgramPoints in *. set_solver.
Qed.

(** ** Header unions *)
(** Each member of a header union keeps a validity bit of its own: the shared one is
    put under another name, so that writing one member does not overlap the others. *)
Definition a_header : IRType := Ty_StructLike K_Header "h" [("f", Ty_Base (B_Bits 8 false))].
Definition a_union : IRType := Ty_StructLike K_HeaderUnion "u" [("a", a_header); ("b", a_header)].
Definition valid_bits_of (field : string) l : outcome LocationSet := do s <- getField field (add l ∅); getValidField s.
Theorem union_members_keep_valid_bits : exists l n ds (a c : LocationSet) ds1 ds2, create id 3 a_union "x" 0 = Done (Some l, n) ds /\
  valid_bits_of "a" l = Done a ds1 /\ valid_bits_of "b" l = Done c ds2 /\ size a = 1%nat /\ size c = 1%nat /\ overlaps a c = false.
Proof. do 7 eexists. split_and!; vm_compute; reflexivity. Qed.
(** A struct with a header in it. *)
Definition a_struct : IRType := Ty_StructLike K_Struct "s" [("h", a_header); ("n", Ty_Base (B_Bits 8 false))].
