(* ===== verification/WriteSet.v ===== *)
(** * Def-use analysis: [ComputeWriteSet] of [frontends/p4/def_use.h/.cpp]

    The visitor that computes, for every program point, which points may have
    written every location last.  [Definitions] are objects that are passed around
    by pointer, and [enterScope] changes one in place: they are kept in a
    store.  The visitors of callees share the store with their caller.

    Nodes are known by an id.  What the visitor asks the reference map, the type map
    and [MethodInstance::resolve] is part of the nodes. *)
From S2P Require Import Prelude Ir TypeSubst DefUse.
Local Open Scope flexplan_scope.
Local Open Scope Z_scope.

(** ** Nodes *)
(** A parameter or a variable; [packet_in] and the like have no storage. *)
Record Var := { decl : Z; var_name : string; var_type : IRType }.
(** What a [Member] stands for: a method, [t.apply().hit] or [.action_run], an
    attribute of a stack, or a field. *)
Inductive MemberKind := M_Method | M_TableResult | M_Stack | M_Field.
#[global] Instance MemberKind_eq_dec : EqDecision MemberKind.
Proof. solve_decision. Defined.
Inductive Expr :=
| X_Other (id : Z)
| X_Slice (id : Z) (e0 : Expr)
| X_Path (id : Z) (path : Z)
| X_Member (id : Z) (expr : Expr) (member : string) (kind : MemberKind)
| X_ArrayIndex (id : Z) (left right : Expr) (constant : option Z)
| X_Binary (id : Z) (left right : Expr)
| X_Mux (id : Z) (e0 e1 e2 : Expr)
| X_Select (id : Z) (select : Expr) (cases : list (Expr * Expr))
| X_List (id : Z) (components : list Expr)
| X_Unary (id : Z) (expr : Expr)
| X_BuiltIn (id : Z) (method appliedTo : Expr) (name : string)
| X_Call (id : Z) (method : Expr) (callees : list Callee) (arguments : list (Direction * Expr))
with Statement :=
| S_Assignment (id : Z) (left right : Expr)
| S_MethodCall (id : Z) (methodCall : Expr)
| S_If (id : Z) (condition : Expr) (ifTrue : Statement) (ifFalse : option Statement)
| S_Switch (id : Z) (expression : Expr) (cases : list (bool * option Statement)) (allCases : bool)
| S_Block (id : Z) (components : list Statement)
| S_Return (id : Z) (expression : option Expr)
| S_Exit (id : Z)
| S_Empty (id : Z)
| S_Declaration (id : Z)
with Callee :=
| C_Action (id : Z) (parameters : list (Direction * Var)) (locals : list Var) (body : Statement)
| C_Table (id : Z) (actions : list Expr)
| C_Function (id : Z) (parameters : list (Direction * Var)) (locals : list Var) (body : Statement).
Definition expr_id (e : Expr) : Z :=
  match e with
  | X_Other i | X_Slice i _ | X_Path i _ | X_Member i _ _ _ | X_ArrayIndex i _ _ _ | X_Binary i _ _ | X_Mux i _ _ _ | X_Select i _ _ | X_List i _ | X_Unary i _
  | X_BuiltIn i _ _ _ | X_Call i _ _ _ => i
  end.
Definition stmt_id (s : Statement) : Z :=
  match s with
  | S_Assignment i _ _ | S_MethodCall i _ | S_If i _ _ _ | S_Switch i _ _ _ | S_Block i _ | S_Return i _ | S_Exit i | S_Empty i | S_Declaration i => i
  end.

(** ** State *)
(** [AllDefinitions] with its [StorageMap], and the objects of class
    [Definitions]. *)
Record Shared := { heap : gmap Z Definitions; fresh : Z; atPoint : gmap ProgramPoint Z; storage : gmap Z StorageLocation; retVal : option StorageLocation; locations : Z }.
(** The fields of one visitor. *)
Record Visitor := { currentDefinitions : option Z; returnedDefinitions : option Z; exitDefinitions : option Z; callingContext : ProgramPoint; lhs : bool; written : gmap Z LocationSet }.
Definition W (A : Type) : Type := Visitor -> Shared -> outcome (A * Visitor * Shared).
#[export] Instance W_ret : MRet W := fun A a v h => oret (a, v, h).
#[export] Instance W_bind : MBind W := fun A B k m v h => do r <- m v h; k r.1.1 r.1.2 r.2.
Definition wbug {A} (why : string) : W A := fun _ _ => Aborted why.
Definition wlift {A} (o : outcome A) : W A := fun v h => do a <- o; oret (a, v, h).
Definition get_visitor : W Visitor := fun v h => oret (v, v, h).
Definition get_shared : W Shared := fun v h => oret (h, v, h).
Definition change (f : Visitor -> Visitor) : W unit := fun v h => oret (tt, f v, h).
Definition change_shared (f : Shared -> Shared) : W unit := fun v h => oret (tt, v, f h).
Definition not_null {A} (a : option A) : W A := match a with Some a => mret a | None => wbug "null" end.

Definition with_current (d : option Z) (v : Visitor) : Visitor :=
  {| currentDefinitions := d; returnedDefinitions := returnedDefinitions v; exitDefinitions := exitDefinitions v; callingContext := callingContext v; lhs := lhs v; written := written v |}.
Definition with_returned (d : option Z) (v : Visitor) : Visitor :=
  {| currentDefinitions := currentDefinitions v; returnedDefinitions := d; exitDefinitions := exitDefinitions v; callingContext := callingContext v; lhs := lhs v; written := written v |}.
Definition with_exit (d : option Z) (v : Visitor) : Visitor :=
  {| currentDefinitions := currentDefinitions v; returnedDefinitions := returnedDefinitions v; exitDefinitions := d; callingContext := callingContext v; lhs := lhs v; written := written v |}.
Definition with_lhs (b : bool) (v : Visitor) : Visitor :=
  {| currentDefinitions := currentDefinitions v; returnedDefinitions := returnedDefinitions v; exitDefinitions := exitDefinitions v; callingContext := callingContext v; lhs := b; written := written v |}.
Definition with_written (w : gmap Z LocationSet) (v : Visitor) : Visitor :=
  {| currentDefinitions := currentDefinitions v; returnedDefinitions := returnedDefinitions v; exitDefinitions := exitDefinitions v; callingContext := callingContext v; lhs := lhs v; written := w |}.
Definition with_heap (m : gmap Z Definitions) (h : Shared) : Shared :=
  {| heap := m; fresh := fresh h; atPoint := atPoint h; storage := storage h; retVal := retVal h; locations := locations h |}.

(** *** Objects of class [Definitions] *)
Definition deref (p : option Z) : W Definitions := p ← not_null p; h ← get_shared; not_null (heap h !! p).
Definition new_definitions (d : Definitions) : W Z := fun v h =>
  oret (fresh h, v, {| heap := <[fresh h := d]> (heap h); fresh := fresh h + 1; atPoint := atPoint h; storage := storage h; retVal := retVal h; locations := locations h |}).
Definition mutate (p : Z) (f : Definitions -> Definitions) : W unit := change_shared (fun h => with_heap (alter f p (heap h)) h).
Definition join_objects (p other : option Z) : W Z := d ← deref p; o ← deref other; new_definitions (joinDefinitions d o).
Definition setDefinitionsAt (point : ProgramPoint) (p : Z) : W unit := change_shared (fun h =>
  {| heap := heap h; fresh := fresh h; atPoint := <[point := p]> (atPoint h); storage := storage h; retVal := retVal h; locations := locations h |}).
Definition getDefinitions (point : ProgramPoint) (emptyIfNotFound : bool) : W Z :=
  h ← get_shared;
  match atPoint h !! point with
  | Some p => mret p
  | None => if emptyIfNotFound then p ← new_definitions ∅; setDefinitionsAt point p;; mret p else wbug "Unknown point for definitions"
  end.
(** Sets the current definitions after the node. *)
Definition setDefinitions (p : Z) (node : Z) : W unit :=
  change (with_current (Some p));;
  v ← get_visitor;
  setDefinitionsAt (point_in (callingContext v) node) p.

(** *** [StorageMap] *)
Section visitor.
Context (getTypeType : IRType -> IRType) (typeFuel : nat).
Definition with_storage (m : gmap Z StorageLocation) (n : Z) (h : Shared) : Shared :=
  {| heap := heap h; fresh := fresh h; atPoint := atPoint h; storage := m; retVal := retVal h; locations := n |}.
Definition create_location (type : IRType) (name : string) : W (option StorageLocation) := fun v h =>
  do r <- create getTypeType typeFuel type name (locations h); oret (r.1, v, with_storage (storage h) r.2 h).
(** The storage of a declaration that has one already is kept; the new location is
    returned all the same. *)
Definition storage_add (x : Var) : W (option StorageLocation) :=
  loc ← create_location (var_type x) (var_name x);
  match loc with
  | None => mret None
  | Some l => change_shared (fun h => with_storage (match storage h !! decl x with Some _ => storage h | None => <[decl x := l]> (storage h) end) (locations h) h);; mret (Some l)
  end.
Definition getOrAdd (x : Var) : W (option StorageLocation) :=
  h ← get_shared;
  match storage h !! decl x with Some l => mret (Some l) | None => storage_add x end.
Definition addRetVal : W StorageLocation :=
  loc ← create_location (Ty_Base B_Boolean) "$retval";
  change_shared (fun h => {| heap := heap h; fresh := fresh h; atPoint := atPoint h; storage := storage h; retVal := loc; locations := locations h |});;
  not_null loc.

(** ** Scopes *)
Definition define (p : Z) (l : StorageLocation) (points : ProgramPoints) : W unit := mutate p (setDefinition_location l points).
Definition define_hidden (p : Z) (l : StorageLocation) (points : ProgramPoints) : W unit :=
  valid ← wlift (getValidBits l);
  mutate p (setDefinition valid points);;
  mutate p (setDefinition (getLastIndexField l) points).
Definition enter_parameter (p : Z) (startPoints uninit : ProgramPoints) (x : Direction * Var) : W unit :=
  loc ← getOrAdd x.2;
  match loc with
  | None => mret tt
  | Some l =>
      match x.1 with DirIn | DirInOut | DirNone => define p l startPoints | DirOut => define p l uninit end;;
      define_hidden p l startPoints
  end.
Definition enter_local (p : Z) (startPoints uninit : ProgramPoints) (x : Var) : W unit :=
  loc ← storage_add x;
  match loc with None => mret tt | Some l => define p l uninit;; define_hidden p l startPoints end.
Fixpoint for_all {A} (f : A -> W unit) (xs : list A) : W unit := match xs with [] => mret tt | x :: xs => f x;; for_all f xs end.
Definition enterScope (parameters : list (Direction * Var)) (locals : list Var) (entryPoint : ProgramPoint) (clear : bool) : W unit :=
  v ← get_visitor;
  p ← match (if clear then None else currentDefinitions v) with Some p => mret p | None => new_definitions ∅ end;
  for_all (enter_parameter p {[entryPoint]} {[beforeStart]}) parameters;;
  for_all (enter_local p {[entryPoint]} {[beforeStart]}) locals;;
  setDefinitionsAt entryPoint p;;
  change (with_current (Some p)).
Definition exit_parameter (p : Z) (x : Direction * Var) : W unit :=
  h ← get_shared;
  match storage h !! decl x.2 with None => mret tt | Some l => mutate p (removeLocation l) end.
(** A local variable is removed when it has no storage. *)
Definition exit_local (x : Var) : W unit := h ← get_shared; match storage h !! decl x with None => wbug "null" | Some _ => mret tt end.
Definition exitScope (parameters : list (Direction * Var)) (locals : list Var) : W unit :=
  v ← get_visitor;
  d ← deref (currentDefinitions v);
  p ← new_definitions d;
  change (with_current (Some p));;
  for_all (exit_parameter p) parameters;;
  for_all exit_local locals.

(** ** Expressions *)
Definition getWrites (e : Expr) : W LocationSet := v ← get_visitor; match written v !! expr_id e with Some s => mret s | None => wbug "No location set known" end.
Definition expressionWrites (id : Z) (s : LocationSet) : W unit :=
  change (fun v => with_written (match written v !! id with Some _ => written v | None => <[id := s]> (written v) end) v).
Definition in_lhs (b : bool) (m : W unit) : W unit := v ← get_visitor; change (with_lhs b);; m;; change (with_lhs (lhs v)).
Definition is_lhs : W bool := v ← get_visitor; mret (lhs v).
Definition getProgramPoint (node : Z) : W ProgramPoint := v ← get_visitor; mret (point_in (callingContext v) node).
Definition write_at (point node : Z) (s : LocationSet) : W unit :=
  v ← get_visitor;
  d ← deref (currentDefinitions v);
  pt ← getProgramPoint point;
  p ← new_definitions (writes pt s d);
  setDefinitions p node.
(** The visitor of a callee; its own fields are answered with those of the
    caller left as they are. *)
Definition clone_visitor (pt : ProgramPoint) (v : Visitor) : Visitor :=
  {| currentDefinitions := currentDefinitions v; returnedDefinitions := None; exitDefinitions := exitDefinitions v; callingContext := pt; lhs := false; written := ∅ |}.
Definition run_in {A} (cw : Visitor) (m : W A) : W Visitor := fun v h => do r <- m cw h; oret (r.1.2, v, r.2).
Fixpoint join_written (es : list Expr) (s : LocationSet) : W LocationSet :=
  match es with [] => mret s | e :: es => w ← getWrites e; join_written es (join s w) end.
Fixpoint join_out (args : list (Direction * Expr)) (visit_argument : Expr -> W unit) (s : LocationSet) : W LocationSet :=
  match args with
  | [] => mret s
  | (dir, e) :: args =>
      in_lhs true (visit_argument e);;
      match dir with
      | DirOut | DirInOut => w ← getWrites e; join_out args visit_argument (join s w)
      | _ => join_out args visit_argument s
      end
  end.
Definition current_as_new (p : option Z) : W unit := d ← deref p; n ← new_definitions d; change (with_current (Some n)).
(** The callees run one after the other in one visitor. *)
Fixpoint run_callees (visit_callee : Callee -> W unit) (cs : list Callee) (cw : Visitor) : W Visitor :=
  match cs with
  | [] => mret cw
  | c :: cs => cw ← run_in cw (visit_callee c); current_as_new (currentDefinitions cw);; run_callees visit_callee cs cw
  end.
Definition join_exit (other : option Z) : W unit := v ← get_visitor; p ← join_objects (exitDefinitions v) other; change (with_exit (Some p)).
Fixpoint visit_branches (visit_case : option Statement -> W unit) (save : option Z) (cases : list (bool * option Statement)) (result : Z) : W Z :=
  match cases with
  | [] => mret result
  | (_, body) :: cases =>
      change (with_current save);;
      visit_case body;;
      v ← get_visitor;
      result ← join_objects (Some result) (currentDefinitions v);
      visit_branches visit_case save cases result
  end.
Fixpoint visit_actions (visit_action : Expr -> W unit) (before : option Z) (actions : list Expr) (after : Z) : W Z :=
  match actions with
  | [] => mret after
  | a :: actions =>
      change (with_current before);;
      visit_action a;;
      v ← get_visitor;
      after ← join_objects (Some after) (currentDefinitions v);
      visit_actions visit_action before actions after
  end.
Fixpoint visit (fuel : nat) (e : Expr) : W unit :=
  match fuel with
  | O => wbug "out of fuel"
  | S fuel =>
      match e with
      | X_Other id => expressionWrites id ∅
      | X_Slice id e0 =>
          visit fuel e0;;
          base ← getWrites e0;
          b ← is_lhs;
          expressionWrites id (if b : bool then base else ∅)
      | X_Path id path =>
          b ← is_lhs;
          h ← get_shared;
          expressionWrites id (if negb b then ∅ else match storage h !! path with Some l => add l ∅ | None => ∅ end)
      | X_Member id expr member kind =>
          visit fuel expr;;
          b ← is_lhs;
          if negb b then expressionWrites id ∅
          else match kind with
          | M_Method | M_TableResult => mret tt
          | M_Stack | M_Field =>
              storage ← getWrites expr;
              if bool_decide (kind = M_Stack) && (String.eqb member "next" || String.eqb member "last") then expressionWrites id storage
              else if bool_decide (kind = M_Stack) && String.eqb member "lastIndex" then expressionWrites id ∅
              else fields ← wlift (getField member storage); expressionWrites id fields
          end
      | X_ArrayIndex id e_left e_right constant =>
          visit fuel e_left;;
          in_lhs false (visit fuel e_right);;
          storage ← getWrites e_left;
          b ← is_lhs;
          match constant with
          | Some index => if negb b then expressionWrites id ∅ else result ← wlift (getIndex index storage); expressionWrites id result
          | None => all ← wlift (allElements storage); expressionWrites id all
          end
      | X_Binary id e_left e_right =>
          visit fuel e_left;;
          visit fuel e_right;;
          s ← join_written [e_left; e_right] ∅;
          expressionWrites id s
      | X_Mux id e0 e1 e2 =>
          visit fuel e0;;
          visit fuel e1;;
          visit fuel e2;;
          s ← join_written [e0; e1; e2] ∅;
          expressionWrites id s
      | X_Select id select cases =>
          b ← is_lhs;
          if b : bool then wbug "unexpected in lhs"
          else
            visit fuel select;;
            for_all (fun c => visit fuel c.1;; visit fuel c.2) cases;;
            s ← join_written (select :: cases.*1) ∅;
            expressionWrites id s
      | X_List id components =>
          for_all (visit fuel) components;;
          s ← join_written components ∅;
          expressionWrites id s
      | X_Unary id expr =>
          visit fuel expr;;
          s ← getWrites expr;
          expressionWrites id s
      | X_BuiltIn id method appliedTo name =>
          in_lhs true (visit fuel method);;
          base ← getWrites appliedTo;
          if String.eqb name "setInvalid" then expressionWrites id base
          else if String.eqb name "setValid" then v ← wlift (getField validFieldName base); expressionWrites id v
          else if String.eqb name "push_front" || String.eqb name "pop_front" then expressionWrites id base
          else if String.eqb name "isValid" then expressionWrites id ∅
          else wbug "unexpected method"
      | X_Call id method callees arguments =>
          in_lhs true (visit fuel method);;
          (match callees with
           | [] => mret tt
           | _ :: _ =>
               v ← get_visitor;
               cw ← run_callees (visit_callee fuel) callees (clone_visitor (point_in (callingContext v) id) v);
               join_exit (exitDefinitions cw)
           end);;
          s ← join_out arguments (visit fuel) ∅;
          expressionWrites id s
      end
  end
with visit_statement (fuel : nat) (s : Statement) : W unit :=
  match fuel with
  | O => wbug "out of fuel"
  | S fuel =>
      match s with
      | S_Assignment id e_left e_right =>
          change (with_lhs true);;
          visit fuel e_left;;
          change (with_lhs false);;
          visit fuel e_right;;
          locs ← join_written [e_left; e_right] ∅;
          write_at id id locs
      | S_MethodCall id methodCall =>
          change (with_lhs false);;
          visit fuel methodCall;;
          locs ← getWrites methodCall;
          write_at id id locs
      | S_If id condition ifTrue ifFalse =>
          visit fuel condition;;
          cond ← getWrites condition;
          write_at id (expr_id condition) cond;;
          v ← get_visitor;
          let defs := currentDefinitions v in
          visit_statement fuel ifTrue;;
          v ← get_visitor;
          let result := currentDefinitions v in
          change (with_current defs);;
          match ifFalse with Some s => visit_statement fuel s | None => mret tt end;;
          v ← get_visitor;
          result ← join_objects result (currentDefinitions v);
          setDefinitions result id
      | S_Switch id expression cases allCases =>
          visit fuel expression;;
          locs ← getWrites expression;
          write_at (expr_id expression) (expr_id expression) locs;;
          v ← get_visitor;
          let save := currentDefinitions v in
          result ← new_definitions ∅;
          result ← visit_branches (fun body => match body with Some s => visit_statement fuel s | None => mret tt end) save cases result;
          result ← (if existsb fst cases || allCases then mret result else join_objects (Some result) save);
          setDefinitions result id
      | S_Block id components =>
          for_all (visit_statement fuel) components;;
          v ← get_visitor;
          p ← not_null (currentDefinitions v);
          setDefinitions p id
      | S_Return id expression =>
          match expression with Some e => visit fuel e | None => mret tt end;;
          v ← get_visitor;
          p ← join_objects (returnedDefinitions v) (currentDefinitions v);
          change (with_returned (Some p));;
          n ← new_definitions ∅;
          setDefinitions n id
      | S_Exit id =>
          v ← get_visitor;
          p ← join_objects (exitDefinitions v) (currentDefinitions v);
          change (with_exit (Some p));;
          n ← new_definitions ∅;
          setDefinitions n id
      | S_Empty id =>
          v ← get_visitor;
          p ← not_null (currentDefinitions v);
          setDefinitions p id
      | S_Declaration _ => mret tt
      end
  end
with visit_callee (fuel : nat) (c : Callee) : W unit :=
  match fuel with
  | O => wbug "out of fuel"
  | S fuel =>
      v ← get_visitor;
      let saveReturned := returnedDefinitions v in
      match c with
      | C_Action id parameters locals body =>
          r ← new_definitions ∅;
          change (with_returned (Some r));;
          enterScope parameters locals (point_in (callingContext v) id) false;;
          visit_statement fuel body;;
          w ← get_visitor;
          p ← join_objects (currentDefinitions w) (returnedDefinitions w);
          setDefinitions p (stmt_id body);;
          exitScope parameters locals;;
          change (with_returned saveReturned)
      | C_Table id actions =>
          enterScope [] [] (point_in (callingContext v) id) false;;
          after ← new_definitions ∅;
          w ← get_visitor;
          after ← visit_actions (visit fuel) (currentDefinitions w) actions after;
          exitScope [] [];;
          change (with_current (Some after))
      | C_Function id parameters locals body =>
          enterScope parameters locals [id] false;;
          l ← addRetVal;
          w ← get_visitor;
          p ← not_null (currentDefinitions w);
          mutate p (setDefinition_location l {[beforeStart]});;
          r ← new_definitions ∅;
          change (with_returned (Some r));;
          visit_statement fuel body;;
          w ← get_visitor;
          p ← join_objects (currentDefinitions w) (returnedDefinitions w);
          change (with_current (Some p));;
          setDefinitionsAt (callingContext v) p;;
          exitScope parameters locals;;
          change (with_returned saveReturned)
      end
  end.

(** ** Controls and parsers *)
Definition visit_control (fuel : nat) (id : Z) (parameters : list (Direction * Var)) (locals : list Var) (body : Statement) : W unit :=
  enterScope parameters locals [id] true;;
  e ← new_definitions ∅;
  change (with_exit (Some e));;
  r ← new_definitions ∅;
  change (with_returned (Some r));;
  visit_statement fuel body;;
  v ← get_visitor;
  returned ← join_objects (currentDefinitions v) (returnedDefinitions v);
  exited ← join_objects (Some returned) (exitDefinitions v);
  setDefinitions exited (stmt_id body).
Record State := { components : list Statement; selectExpression : option Expr }.
(** The states, and where each goes: [ParserCallGraph]. *)
Context (states : Z -> option State) (transitions : Z -> list Z).
Definition getDefinitionsAfter (state : Z) (s : State) : W Z :=
  getDefinitions (match last (components s) with None => [state] | Some c => point_in [state] (stmt_id c) end) false.
Definition visit_state (fuel : nat) (s : State) : W unit :=
  for_all (visit_statement fuel) (components s);;
  match selectExpression s with Some e => visit fuel e | None => mret tt end.
Fixpoint propagate (after : Z) (next : list Z) (toRun : list Z) : W (list Z) :=
  match next with
  | [] => mret toRun
  | n :: next =>
      p ← getDefinitions [n] true;
      newdefs ← join_objects (Some p) (Some after);
      d ← deref (Some p);
      d' ← deref (Some newdefs);
      if definitions_eqb d d' then propagate after next toRun
      else setDefinitions newdefs n;; propagate after next (if existsb (Z.eqb n) toRun then toRun else toRun ++ [n])
  end.
Definition run_state (fuel : nat) (state : Z) (toRun : list Z) : W (list Z) :=
  p ← getDefinitions [state] false;
  change (with_current (Some p));;
  s ← not_null (states state);
  v ← get_visitor;
  cws ← run_in (clone_visitor [state] v) (visit_state fuel s);
  after ← getDefinitionsAfter state s;
  propagate after (transitions state) toRun.
(** The fuel [rounds] bounds the states taken from the worklist. *)
Fixpoint run_states (fuel rounds : nat) (toRun : list Z) : W unit :=
  match toRun with
  | [] => mret tt
  | state :: toRun => match rounds with O => wbug "out of fuel" | S rounds => toRun ← run_state fuel state toRun; run_states fuel rounds toRun end
  end.
Definition visit_parser (fuel rounds : nat) (start : Z) (parameters : list (Direction * Var)) (locals : list Var) : W unit :=
  enterScope parameters locals [start] true;;
  run_states fuel rounds [start].
End visitor.
Definition no_shared : Shared := {| heap := {[0 := ∅]}; fresh := 1; atPoint := ∅; storage := ∅; retVal := None; locations := 0 |}.
(** A new visitor; [exitDefinitions] is a new object. *)
Definition new_visitor : Visitor := {| currentDefinitions := None; returnedDefinitions := None; exitDefinitions := Some 0; callingContext := []; lhs := false; written := ∅ |}.
