(* ===== verification/WriteSetFacts.v ===== *)
(** * Def-use analysis: the definitions computed cover every path

    The body of a control is run along paths, remembering for every location the
    program point that wrote it last.  Whatever path is taken, the definitions
    the visitor leaves at a program point contain the last writer of every
    location there, as long as no action or table is called. *)
From S2P Require Import Prelude Ir TypeSubst DefUse DefUseFacts WriteSet.
Local Open Scope flexplan_scope.
Local Open Scope Z_scope.

(** ** Paths *)
(** For every base location, by its id, the point that wrote it last. *)
Definition writers : Type := gmap Z ProgramPoint.
Implicit Types (ρ : writers) (d : Definitions) (v : Visitor) (h : Shared).
Definition overwrite (s : LocationSet) (p : ProgramPoint) ρ : writers := fold_left (fun r q => <[q.1 := p]> r) (map_to_list (canonicalize s)) ρ.
(** How a statement is left. *)
Inductive leaves := Next | Returned | Exited.
#[global] Instance leaves_eq_dec : EqDecision leaves.
Proof. solve_decision. Defined.
Section paths.
(** What the expressions write, and where the statements are. *)
Context (w : gmap Z LocationSet) (context : ProgramPoint).
Definition writes_of (e : Expr) : LocationSet := default ∅ (w !! expr_id e).
Definition at_end (k : leaves) (id : Z) ρ : list (Z * writers) := match k with Next => [(id, ρ)] | _ => [] end.
(** [path s ρ k ρ' trace]: a path through [s] that starts with the writers [ρ] and
    is left as [k] with [ρ']; [trace] lists the writers after the nodes on it. *)
Inductive path : Statement -> writers -> leaves -> writers -> list (Z * writers) -> Prop :=
| path_assignment id l r ρ ρ' : ρ' = overwrite (join (writes_of l) (writes_of r)) (point_in context id) ρ -> path (S_Assignment id l r) ρ Next ρ' [(id, ρ')]
| path_call id e ρ ρ' : ρ' = overwrite (writes_of e) (point_in context id) ρ -> path (S_MethodCall id e) ρ Next ρ' [(id, ρ')]
| path_true id c t f ρ ρ1 k ρ' trace : ρ1 = overwrite (writes_of c) (point_in context id) ρ -> path t ρ1 k ρ' trace ->
    path (S_If id c t f) ρ k ρ' ((expr_id c, ρ1) :: trace ++ at_end k id ρ')
| path_false id c t f ρ ρ1 k ρ' trace : ρ1 = overwrite (writes_of c) (point_in context id) ρ -> path f ρ1 k ρ' trace ->
    path (S_If id c t (Some f)) ρ k ρ' ((expr_id c, ρ1) :: trace ++ at_end k id ρ')
| path_no_else id c t ρ ρ1 : ρ1 = overwrite (writes_of c) (point_in context id) ρ -> path (S_If id c t None) ρ Next ρ1 [(expr_id c, ρ1); (id, ρ1)]
| path_case id e cases all dflt s ρ ρ1 k ρ' trace : ρ1 = overwrite (writes_of e) (point_in context (expr_id e)) ρ -> (dflt, Some s) ∈ cases -> path s ρ1 k ρ' trace ->
    path (S_Switch id e cases all) ρ k ρ' ((expr_id e, ρ1) :: trace ++ at_end k id ρ')
| path_no_case id e cases ρ ρ1 : ρ1 = overwrite (writes_of e) (point_in context (expr_id e)) ρ -> existsb fst cases = false ->
    path (S_Switch id e cases false) ρ Next ρ1 [(expr_id e, ρ1); (id, ρ1)]
| path_block id ss ρ k ρ' trace : path_all ss ρ k ρ' trace -> path (S_Block id ss) ρ k ρ' (trace ++ at_end k id ρ')
| path_return id e ρ ρ' : ρ' = match e with Some e => overwrite (writes_of e) (point_in context id) ρ | None => ρ end -> path (S_Return id e) ρ Returned ρ' []
| path_exit id ρ : path (S_Exit id) ρ Exited ρ []
| path_empty id ρ : path (S_Empty id) ρ Next ρ [(id, ρ)]
| path_declaration id ρ : path (S_Declaration id) ρ Next ρ []
with path_all : list Statement -> writers -> leaves -> writers -> list (Z * writers) -> Prop :=
| path_nil ρ : path_all [] ρ Next ρ []
| path_cons s ss ρ ρ1 k ρ' trace trace' : path s ρ Next ρ1 trace -> path_all ss ρ1 k ρ' trace' -> path_all (s :: ss) ρ k ρ' (trace ++ trace')
| path_left s ss ρ k ρ' trace : path s ρ k ρ' trace -> k <> Next -> path_all (s :: ss) ρ k ρ' trace.
End paths.


(** ** Bodies without callees *)
Fixpoint call_free (e : Expr) : bool :=
  match e with
  | X_Other _ | X_Path _ _ => true
  | X_Slice _ e | X_Member _ e _ _ | X_Unary _ e => call_free e
  | X_ArrayIndex _ l r _ | X_Binary _ l r => call_free l && call_free r
  | X_Mux _ e0 e1 e2 => call_free e0 && call_free e1 && call_free e2
  | X_Select _ e cases => call_free e && forallb (fun c => call_free c.1 && call_free c.2) cases
  | X_List _ es => forallb call_free es
  | X_BuiltIn _ m a _ => call_free m
  | X_Call _ m cs args => bool_decide (length cs = 0%nat) && call_free m && forallb (fun a => call_free a.2) args
  end.
(** No callee is entered, and what is returned writes nothing. *)
Fixpoint plain (w : gmap Z LocationSet) (s : Statement) : bool :=
  match s with
  | S_Assignment _ l r => call_free l && call_free r
  | S_MethodCall _ e => call_free e
  | S_If _ c t f => call_free c && plain w t && match f with Some f => plain w f | None => true end
  | S_Switch _ e cases _ => call_free e && forallb (fun c => match c.2 with Some s => plain w s | None => true end) cases
  | S_Block _ ss => forallb (plain w) ss
  | S_Return _ e => match e with Some e => call_free e && isEmpty (writes_of w e) | None => true end
  | S_Exit _ | S_Empty _ | S_Declaration _ => true
  end.
(** The nodes that get definitions. *)
Fixpoint points_of (s : Statement) : list Z :=
  match s with
  | S_Assignment i _ _ | S_MethodCall i _ | S_Return i _ | S_Exit i | S_Empty i => [i]
  | S_If i c t f => expr_id c :: points_of t ++ match f with Some f => points_of f | None => [] end ++ [i]
  | S_Switch i e cases _ => expr_id e :: concat (map (fun c => match c.2 with Some s => points_of s | None => [] end) cases) ++ [i]
  | S_Block i ss => concat (map points_of ss) ++ [i]
  | S_Declaration _ => []
  end.

(** ** The visitor, inverted *)
Lemma wbind_inv {A B} (m : W A) (k : A -> W B) v h r ds : (m ≫= k) v h = Done r ds -> exists a v1 h1 ds1 ds2, m v h = Done (a, v1, h1) ds1 /\ k a v1 h1 = Done r ds2.
Proof.
  unfold mbind, W_bind. destruct (m v h) as [[[a v1] h1] ds1|]; [|discriminate]. cbn. intros He. destruct (k a v1 h1) as [r' ds'|] eqn:Ek; [|discriminate He]. injection He as -> _. by exists a, v1, h1, ds1, ds'.
Qed.
(** [keeps m]: [m] only adds to what expressions write. *)
Definition keeps {A} (m : W A) : Prop := forall v h a v' h' ds, m v h = Done (a, v', h') ds -> h' = h /\ v' = with_written (written v') v /\ written v ⊆ written v'.
Create HintDb keeps.
Lemma keeps_ret {A} (a : A) : keeps (mret a).
Proof. intros v h a' v' h' ds [= -> <- <- <-]. split_and!; [done| |done]. by destruct v. Qed.
Lemma keeps_bind {A B} (m : W A) (k : A -> W B) : keeps m -> (forall a, keeps (k a)) -> keeps (m ≫= k).
Proof.
  intros Hm Hk v h b v' h' ds (a & v1 & h1 & ds1 & ds2 & H1 & H2)%wbind_inv. apply Hm in H1 as (-> & E1 & I1). apply Hk in H2 as (-> & E2 & I2).
  split_and!; [done| |by etrans]. rewrite E2, E1. done.
Qed.
Lemma keeps_bug {A} why : keeps (@wbug A why).
Proof. intros v h a v' h' ds [=]. Qed.
Lemma keeps_lift {A} (o : outcome A) : keeps (wlift o).
Proof. intros v h a v' h' ds. unfold wlift. destruct o; [|discriminate]. intros [= -> <- <- <-]. split_and!; [done| |done]. by destruct v. Qed.
Lemma keeps_visitor : keeps get_visitor.
Proof. intros v h a v' h' ds [= -> <- <- <-]. split_and!; [done| |done]. by destruct a. Qed.
Lemma keeps_shared : keeps get_shared.
Proof. intros v h a v' h' ds [= <- <- <- <-]. split_and!; [done| |done]. by destruct v. Qed.
#[export] Hint Resolve keeps_ret keeps_bug keeps_lift keeps_visitor keeps_shared : keeps.
Lemma keeps_getWrites e : keeps (getWrites e).
Proof. unfold getWrites. apply keeps_bind; [auto with keeps|]. intros v. destruct (written v !! expr_id e); auto with keeps. Qed.
Lemma keeps_expressionWrites id s : keeps (expressionWrites id s).
Proof.
  unfold expressionWrites. intros v h a v' h' ds [= <- <- <- <-]. split_and!; [done|done|]. cbn. destruct (written v !! id) eqn:E; [done|]. by apply insert_subseteq.
Qed.
Lemma keeps_in_lhs b m : keeps m -> keeps (in_lhs b m).
Proof.
  intros Hm v h a v' h' ds (a1 & v1 & h1 & ds1 & ds2 & H1 & H2)%wbind_inv. injection H1 as <- <- <- _. apply wbind_inv in H2 as ([] & v1 & h1 & ? & ? & H1 & H2). injection H1 as <- <- _.
  apply wbind_inv in H2 as ([] & v2 & h2 & ? & ? & H1 & H2). apply Hm in H1 as (-> & E & I). injection H2 as _ <- <- _. split_and!; [done| |exact I]. rewrite E. done.
Qed.
#[export] Hint Resolve keeps_getWrites keeps_expressionWrites keeps_in_lhs : keeps.
Lemma keeps_for_all {A} (f : A -> W unit) xs : (forall x, x ∈ xs -> keeps (f x)) -> keeps (for_all f xs).
Proof. induction xs as [|x xs IH]; intros Hf; cbn [for_all]; [apply keeps_ret|]. apply keeps_bind; [apply Hf; left|]. intros _. apply IH. intros y Hy. apply Hf. by right. Qed.
Lemma keeps_join_written es : forall s, keeps (join_written es s).
Proof. induction es as [|e es IH]; intros s; cbn [join_written]; [apply keeps_ret|]. apply keeps_bind; [apply keeps_getWrites|]. intros w. apply IH. Qed.
Lemma keeps_join_out (f : Expr -> W unit) args : (forall a, a ∈ args -> keeps (f a.2)) -> forall s, keeps (join_out args f s).
Proof.
  induction args as [|[dir e] args IH]; intros Hf s; cbn [join_out]; [apply keeps_ret|]. assert (He : keeps (f e)) by apply (Hf (dir, e)), list_elem_of_here.
  assert (Hr : forall s, keeps (join_out args f s)) by (apply IH; intros a Ha; apply Hf; by right).
  apply keeps_bind; [auto with keeps|]. intros _. destruct dir; [apply Hr..| |]; (apply keeps_bind; [auto with keeps|]; intros w; apply Hr) || apply Hr.
Qed.
#[export] Hint Resolve keeps_join_written : keeps.
Ltac keeps_step :=
  first [progress auto 1 with keeps | apply keeps_in_lhs | apply keeps_bind; [|intros ?] | apply keeps_for_all; intros ? ? | apply keeps_join_out; intros ? ?
        | match goal with |- keeps (match ?x with _ => _ end) => destruct x end].
Section visitor.
Context (getTypeType : IRType -> IRType) (typeFuel : nat).
Notation visit := (visit getTypeType typeFuel).
Lemma forallb_in {A} (f : A -> bool) (l : list A) x : forallb f l = true -> x ∈ l -> f x = true.
Proof. rewrite forallb_forall. intros H Hx. apply H. by apply list_elem_of_In. Qed.
Lemma visit_keeps fuel : forall e, call_free e = true -> keeps (visit fuel e).
Proof.
  induction fuel as [|fuel IH]; intros e He; [apply keeps_bug|]. cbn [WriteSet.visit].
  destruct e; cbn [call_free] in He; repeat (apply andb_true_iff in He as [He ?]); repeat (keeps_step || (apply IH; assumption)).
  all: try (apply bool_decide_eq_true in He; discriminate He).
  - pose proof (forallb_in _ _ _ H H0) as [? _]%andb_true_iff. by apply IH.
  - pose proof (forallb_in _ _ _ H H0) as [_ ?]%andb_true_iff. by apply IH.
  - pose proof (forallb_in _ _ _ He H). by apply IH.
  - pose proof (forallb_in _ _ _ H H1). by apply IH.
Qed.
End visitor.

(** ** Covering *)
Definition covers d ρ : Prop := forall i p, ρ !! i = Some p -> exists P, d !! i = Some P /\ p ∈ P.
Definition covered h (o : option Z) ρ : Prop := exists n d, o = Some n /\ heap h !! n = Some d /\ covers d ρ.
Definition bounded h : Prop := forall i, is_Some (heap h !! i) -> i < fresh h.
Lemma overwrite_lookup s p ρ i : overwrite s p ρ !! i = match canonicalize s !! i with Some _ => Some p | None => ρ !! i end.
Proof. apply insert_all_lookup. Qed.
Lemma covers_writes d ρ p s : covers d ρ -> covers (writes p s d) (overwrite s p ρ).
Proof.
  intros Hc i q. rewrite overwrite_lookup, writes_lookup. destruct (canonicalize s !! i); [|apply Hc]. intros [= <-]. eexists. split; [done|]. set_solver.
Qed.
Lemma covers_join_l d e ρ : covers d ρ -> covers (joinDefinitions d e) ρ.
Proof. intros Hc i p Hi. destruct (Hc i p Hi) as (P & HP & Hp). rewrite join_lookup, HP. destruct (e !! i); cbn; eexists; (split; [done|]); set_solver. Qed.
Lemma covers_join_r d e ρ : covers e ρ -> covers (joinDefinitions d e) ρ.
Proof. intros Hc i p Hi. destruct (Hc i p Hi) as (P & HP & Hp). rewrite join_lookup, HP. destruct (d !! i); cbn; eexists; (split; [done|]); set_solver. Qed.
Lemma covered_mono h h' o ρ : heap h ⊆ heap h' -> covered h o ρ -> covered h' o ρ.
Proof. intros Hs (n & d & -> & Hn & Hc). exists n, d. split_and!; [done| |done]. by eapply lookup_weaken. Qed.

(** *** Objects *)
Lemma new_inv d v h p v' h' ds : new_definitions d v h = Done (p, v', h') ds -> p = fresh h /\ v' = v /\ heap h' = <[fresh h := d]> (heap h) /\ fresh h' = fresh h + 1 /\ atPoint h' = atPoint h /\ storage h' = storage h.
Proof. by intros [= <- <- <- _]. Qed.
Lemma deref_inv p v h d v' h' ds : deref p v h = Done (d, v', h') ds -> v' = v /\ h' = h /\ exists n, p = Some n /\ heap h !! n = Some d.
Proof.
  intros (n & v1 & h1 & ? & ? & H1 & (h2 & v2 & h3 & ? & ? & H2 & H3)%wbind_inv)%wbind_inv. injection H2 as <- <- <- _. destruct p as [n'|]; [|discriminate H1]. injection H1 as -> <- <- _.
  destruct (heap h !! n) as [d'|] eqn:E; [|discriminate H3]. injection H3 as -> <- <- _. by eauto.
Qed.
Lemma join_objects_inv p q v h r v' h' ds : join_objects p q v h = Done (r, v', h') ds ->
  exists d e n m, p = Some n /\ heap h !! n = Some d /\ q = Some m /\ heap h !! m = Some e /\ r = fresh h /\ v' = v /\ heap h' = <[fresh h := joinDefinitions d e]> (heap h) /\ fresh h' = fresh h + 1 /\ atPoint h' = atPoint h /\ storage h' = storage h.
Proof.
  intros (d & v1 & h1 & ? & ? & H1 & (e & v2 & h2 & ? & ? & H2 & H3)%wbind_inv)%wbind_inv. apply deref_inv in H1 as (-> & -> & n & -> & Hn). apply deref_inv in H2 as (-> & -> & m & -> & Hm). apply new_inv in H3. naive_solver.
Qed.
Lemma setDefinitions_inv p node v h a v' h' ds : setDefinitions p node v h = Done (a, v', h') ds ->
  v' = with_current (Some p) v /\ heap h' = heap h /\ fresh h' = fresh h /\ atPoint h' = <[point_in (callingContext v) node := p]> (atPoint h) /\ storage h' = storage h.
Proof. by intros [= _ <- <- _]. Qed.
Lemma bounded_new h h' d : bounded h -> heap h' = <[fresh h := d]> (heap h) -> fresh h' = fresh h + 1 -> bounded h' /\ heap h ⊆ heap h'.
Proof.
  intros Hb Eh Ef. split.
  - intros i. rewrite Eh, Ef, lookup_insert_is_Some. intros [<-|[_ Hi]]; [lia|]. specialize (Hb i Hi). lia.
  - rewrite Eh. apply insert_subseteq. destruct (heap h !! fresh h) eqn:E; [|done]. specialize (Hb (fresh h) (mk_is_Some _ _ E)). lia.
Qed.
(** What a new join covers. *)
Lemma join_covered p q v h r v' h' ds ρ : join_objects p q v h = Done (r, v', h') ds -> covered h p ρ \/ covered h q ρ -> covered h' (Some r) ρ.
Proof.
  intros (d & e & n & m & -> & Hn & -> & Hm & -> & -> & Eh & _ & _)%join_objects_inv Hc. exists (fresh h), (joinDefinitions d e). rewrite Eh, lookup_insert_eq. split_and!; [done..|].
  destruct Hc as [(n' & d' & [= <-] & Hn' & Hc)|(n' & d' & [= <-] & Hn' & Hc)]; simplify_eq; [by apply covers_join_l|by apply covers_join_r].
Qed.

(** ** Simulation *)
(** What a computation that gives definitions to the nodes [pts] leaves alone. *)
Record frames (pts : list Z) v h v' h' : Prop := {
  frames_context : callingContext v' = callingContext v;
  frames_written : written v ⊆ written v';
  frames_heap : heap h ⊆ heap h';
  frames_bounded : bounded h';
  frames_points : forall pt, (forall i, i ∈ pts -> pt <> point_in (callingContext v) i) -> atPoint h' !! pt = atPoint h !! pt;
  frames_storage : storage h' = storage h;
  frames_returned : forall ρ, covered h (returnedDefinitions v) ρ -> covered h' (returnedDefinitions v') ρ;
  frames_exit : forall ρ, covered h (exitDefinitions v) ρ -> covered h' (exitDefinitions v') ρ }.
Lemma frames_trans p q v h v1 h1 v' h' : frames p v h v1 h1 -> frames q v1 h1 v' h' -> frames (p ++ q) v h v' h'.
Proof.
  intros [] []. split; [congruence|by etrans|by etrans|done| |congruence|naive_solver|naive_solver]. intros pt Hpt.
  rewrite frames_points1; [apply frames_points0; intros i Hi; apply Hpt, elem_of_app; by left|]. intros i Hi. rewrite frames_context0. apply Hpt, elem_of_app. by right.
Qed.
Lemma point_in_inj c i j : point_in c i = point_in c j -> i = j.
Proof. unfold point_in. intros [= ->]%app_inv_head. done. Qed.
(** A path, from the writers at its start to how it is left, the writers there and
    the trace. *)
Definition paths : Type := writers -> leaves -> writers -> list (Z * writers) -> Prop.
Definition stays : paths := fun ρ k ρ' trace => k = Next /\ ρ' = ρ /\ trace = [].
Definition then_ (T U : paths) : paths := fun ρ k ρ' trace =>
  (k <> Next /\ T ρ k ρ' trace) \/ exists ρ1 t1 t2, T ρ Next ρ1 t1 /\ U ρ1 k ρ' t2 /\ trace = t1 ++ t2.
Definition definitions_at (k : leaves) v : option Z := match k with Next => currentDefinitions v | Returned => returnedDefinitions v | Exited => exitDefinitions v end.
Section simulation.
Context (w : gmap Z LocationSet) (context : ProgramPoint).
Definition traced (pts : list Z) h (trace : list (Z * writers)) : Prop :=
  forall i ρ, (i, ρ) ∈ trace -> i ∈ pts /\ covered h (atPoint h !! point_in context i) ρ.
Definition sim {A} (pts : list Z) (T : paths) (m : W A) : Prop :=
  forall v h a v' h' ds, m v h = Done (a, v', h') ds -> bounded h -> callingContext v = context ->
  frames pts v h v' h' /\
  (NoDup pts -> written v' ⊆ w -> forall ρ k ρ' trace, T ρ k ρ' trace -> covered h (currentDefinitions v) ρ -> covered h' (definitions_at k v') ρ' /\ traced pts h' trace).
Lemma traced_frames p q v h v' h' trace : traced p h trace -> NoDup (p ++ q) -> callingContext v = context -> frames q v h v' h' -> traced (p ++ q) h' trace.
Proof.
  intros Ht (_ & Hd & _)%NoDup_app Hc Hf i ρ Hi. destruct (Ht i ρ Hi) as [Hp Hcov]. split; [apply elem_of_app; by left|].
  rewrite (frames_points _ _ _ _ _ Hf); [eapply covered_mono; [apply (frames_heap _ _ _ _ _ Hf)|done]|]. intros j Hj Heq. rewrite Hc in Heq. apply point_in_inj in Heq as ->. by apply (Hd j).
Qed.
Lemma traced_app p q h t u : traced (p ++ q) h t -> traced q h u -> traced (p ++ q) h (t ++ u).
Proof. intros Ht Hu i ρ [Hi|Hi]%elem_of_app; [by apply Ht|]. destruct (Hu i ρ Hi) as [Hq Hc]. split; [apply elem_of_app; by right|done]. Qed.
Lemma sim_mono {A} pts (T U : paths) (m : W A) : (forall ρ k ρ' trace, U ρ k ρ' trace -> T ρ k ρ' trace) -> sim pts T m -> sim pts U m.
Proof. intros HU Hm v h a v' h' ds Hr Hb Hc. destruct (Hm v h a v' h' ds Hr Hb Hc) as [Hf Hs]. split; [done|]. eauto. Qed.
Lemma definitions_frames pts v h v' h' k ρ : k <> Next -> frames pts v h v' h' -> covered h (definitions_at k v) ρ -> covered h' (definitions_at k v') ρ.
Proof. intros Hk [] Hc. destruct k; [done|by apply frames_returned0|by apply frames_exit0]. Qed.
Lemma sim_bind {A B} p q (T U : paths) (m : W A) (f : A -> W B) : sim p T m -> (forall a, sim q U (f a)) -> sim (p ++ q) (then_ T U) (m ≫= f).
Proof.
  intros Hm Hf v h b v' h' ds (a & v1 & h1 & ? & ? & H1 & H2)%wbind_inv Hb Hc. destruct (Hm _ _ _ _ _ _ H1 Hb Hc) as [F1 S1]. pose proof (frames_context _ _ _ _ _ F1) as Hc1. rewrite Hc in Hc1.
  destruct (Hf a _ _ _ _ _ _ H2 (frames_bounded _ _ _ _ _ F1) Hc1) as [F2 S2]. split; [by eapply frames_trans|]. intros Hnd Hw ρ k ρ' trace Ht Hcov. pose proof Hnd as (Hnp & _ & Hnq)%NoDup_app.
  assert (Hw1 : written v1 ⊆ w) by (etrans; [apply (frames_written _ _ _ _ _ F2)|done]). destruct Ht as [[Hk Ht]|(ρ1 & t1 & t2 & Ht & Hu & ->)].
  - destruct (S1 Hnp Hw1 _ _ _ _ Ht Hcov) as [Hr Htr]. split; [by eapply definitions_frames|by eapply traced_frames].
  - destruct (S1 Hnp Hw1 _ _ _ _ Ht Hcov) as [Hr Htr]. destruct (S2 Hnq Hw _ _ _ _ Hu Hr) as [Hr2 Htr2]. split; [done|]. apply traced_app; [by eapply traced_frames|done].
Qed.
(** *** Expressions *)
(** [quiet m]: [m] only adds to what expressions write, and sets [lhs]. *)
Definition quiet {A} (m : W A) : Prop :=
  forall v h a v' h' ds, m v h = Done (a, v', h') ds -> h' = h /\ v' = with_lhs (lhs v') (with_written (written v') v) /\ written v ⊆ written v'.
Lemma keeps_quiet {A} (m : W A) : keeps m -> quiet m.
Proof. intros Hm v h a v' h' ds (-> & E & I)%Hm. split_and!; [done| |done]. rewrite E. by destruct v. Qed.
Lemma quiet_lhs b : quiet (change (with_lhs b)).
Proof. intros v h a v' h' ds [= _ <- <- _]. split_and!; [done| |done]. by destruct v. Qed.
Lemma quiet_frames {A} (m : W A) v h a v' h' ds : quiet m -> m v h = Done (a, v', h') ds -> bounded h -> frames [] v h v' h' /\ currentDefinitions v' = currentDefinitions v /\ h' = h.
Proof. intros Hq (-> & E & I)%Hq Hb. rewrite E in *. split; [by split|done]. Qed.
Lemma sim_quiet {A B} pts T (m : W A) (f : A -> W B) : quiet m -> (forall a, sim pts T (f a)) -> sim pts T (m ≫= f).
Proof.
  intros Hm Hf v h b v' h' ds (a & v1 & h1 & ? & ? & H1 & H2)%wbind_inv Hb Hc. destruct (quiet_frames _ _ _ _ _ _ _ Hm H1 Hb) as (F1 & Ecur & ->).
  pose proof (frames_context _ _ _ _ _ F1) as Hc1. rewrite Hc in Hc1. destruct (Hf a _ _ _ _ _ _ H2 Hb Hc1) as [F2 S2]. split; [by apply (frames_trans _ _ _ _ _ _ _ _ F1)|].
  intros Hnd Hw ρ k ρ' trace Ht Hcov. apply (S2 Hnd Hw _ _ _ _ Ht). by rewrite Ecur.
Qed.
(** [m] answers [x] where what expressions write is within [w]. *)
Definition answers {A} (m : W A) (x : A) : Prop := forall v h a v' h' ds, m v h = Done (a, v', h') ds -> written v' ⊆ w -> a = x.
Lemma sim_read {A B} pts (T : A -> paths) (m : W A) (x : A) (f : A -> W B) : keeps m -> answers m x -> (forall a, sim pts (T a) (f a)) -> sim pts (T x) (m ≫= f).
Proof.
  intros Hm Hx Hf v h b v' h' ds (a & v1 & h1 & ? & ? & H1 & H2)%wbind_inv Hb Hc. destruct (quiet_frames _ _ _ _ _ _ _ (keeps_quiet _ Hm) H1 Hb) as (F1 & Ecur & ->).
  pose proof (frames_context _ _ _ _ _ F1) as Hc1. rewrite Hc in Hc1. destruct (Hf a _ _ _ _ _ _ H2 Hb Hc1) as [F2 S2]. split; [by apply (frames_trans _ _ _ _ _ _ _ _ F1)|].
  intros Hnd Hw ρ k ρ' trace Ht Hcov. rewrite (Hx _ _ _ _ _ _ H1) in S2; [apply (S2 Hnd Hw _ _ _ _ Ht); by rewrite Ecur|]. etrans; [apply (frames_written _ _ _ _ _ F2)|done].
Qed.
Lemma answers_getWrites e : answers (getWrites e) (writes_of w e).
Proof.
  intros v h a v' h' ds (v1 & v2 & h1 & ? & ? & H1 & H2)%wbind_inv Hw. injection H1 as <- <- <- _. unfold writes_of. destruct (written v !! expr_id e) eqn:E; [|discriminate H2].
  injection H2 as -> <- <- _. unfold LocationSet in *. by rewrite (lookup_weaken _ _ _ _ E Hw).
Qed.
Lemma answers_join_written es : forall s, answers (join_written es s) (fold_left (fun s e => join s (writes_of w e)) es s).
Proof.
  induction es as [|e es IH]; intros s v h a v' h' ds; cbn [join_written fold_left]; [by intros [= -> _ _ _]|]. intros (x & v1 & h1 & ? & ? & H1 & H2)%wbind_inv Hw.
  pose proof (keeps_join_written es (join s x) _ _ _ _ _ _ H2) as (_ & _ & Hsub). rewrite (answers_getWrites _ _ _ _ _ _ _ H1) in H2 by (by etrans). by eapply IH.
Qed.
(** *** What sets definitions *)
Lemma setDefinitions_frames p node v h v' h' a ds : setDefinitions p node v h = Done (a, v', h') ds -> bounded h -> frames [node] v h v' h'.
Proof.
  intros (-> & Eh & Ef & Ea & Es)%setDefinitions_inv Hb. split; [done|done|by rewrite Eh| | |done| |].
  - intros i Hi. rewrite Eh in Hi. rewrite Ef. by apply Hb.
  - intros pt Hpt. rewrite Ea, lookup_insert_ne; [done|]. intros <-. apply (Hpt node); [left|done].
  - intros ρ Hc. apply (covered_mono h); [by rewrite Eh|done].
  - intros ρ Hc. apply (covered_mono h); [by rewrite Eh|done].
Qed.
Lemma set_covered p node v h v' h' a ds ρ : setDefinitions p node v h = Done (a, v', h') ds -> callingContext v = context -> covered h (Some p) ρ ->
  covered h' (currentDefinitions v') ρ /\ traced [node] h' [(node, ρ)].
Proof.
  intros (-> & Eh & Ef & Ea & Es)%setDefinitions_inv Hc Hcov. rewrite Hc in Ea. assert (Hcov' : covered h' (Some p) ρ) by (apply (covered_mono h); [by rewrite Eh|done]). split; [done|].
  intros i ρ' [= -> ->]%list_elem_of_singleton. split; [left|]. by rewrite Ea, lookup_insert_eq.
Qed.
Lemma new_frames d v h p v' h' ds : new_definitions d v h = Done (p, v', h') ds -> bounded h -> frames [] v h v' h'.
Proof.
  intros (-> & -> & Eh & Ef & Ea & Es)%new_inv Hb. destruct (bounded_new _ _ _ Hb Eh Ef) as [Hb' Hs]. split; [done|done|done|done| |done| |].
  - intros pt _. by rewrite Ea.
  - intros ρ. by apply covered_mono.
  - intros ρ. by apply covered_mono.
Qed.
Lemma join_frames p q v h r v' h' ds : join_objects p q v h = Done (r, v', h') ds -> bounded h -> frames [] v h v' h' /\ v' = v.
Proof.
  intros (d & e & n & m & -> & Hn & -> & Hm & -> & -> & Eh & Ef & Ea & Es)%join_objects_inv Hb. destruct (bounded_new _ _ _ Hb Eh Ef) as [Hb' Hs]. split; [|done]. split; [done|done|done|done| |done| |].
  - intros pt _. by rewrite Ea.
  - intros ρ. by apply covered_mono.
  - intros ρ. by apply covered_mono.
Qed.
Definition writing (point node : Z) s : paths := fun ρ k ρ' trace => k = Next /\ ρ' = overwrite s (point_in context point) ρ /\ trace = [(node, ρ')].
Lemma sim_write_at point node s : sim [node] (writing point node s) (write_at point node s).
Proof.
  intros v h a v' h' ds (v1 & v2 & h1 & ? & ? & H1 & (d & v3 & h2 & ? & ? & H2 & (pt & v4 & h3 & ? & ? & H3 & (p & v5 & h4 & ? & ? & H4 & H5)%wbind_inv)%wbind_inv)%wbind_inv)%wbind_inv Hb Hc.
  injection H1 as <- <- <- _. apply deref_inv in H2 as (-> & -> & n & Hn & Hd). injection H3 as <- <- <- _. pose proof (new_frames _ _ _ _ _ _ _ H4 Hb) as F4. apply new_inv in H4 as (-> & -> & Eh & Ef & Ea & Es).
  split; [apply (frames_trans _ _ _ _ _ _ _ _ F4); eapply setDefinitions_frames; [exact H5|apply F4]|]. intros _ _ ρ k ρ' trace (-> & -> & ->) (n' & d' & Hn' & Hd' & Hcov). rewrite Hn in Hn'. simplify_eq.
  apply (set_covered _ _ _ _ _ _ _ _ _ H5 Hc). exists (fresh h), (writes (point_in (callingContext v) point) s d). rewrite Eh, lookup_insert_eq. split_and!; [done..|]. rewrite Hc. by apply covers_writes.
Qed.
Lemma sim_ret : sim [] stays (mret tt : W unit).
Proof.
  intros v h a v' h' ds [= <- <- <- _] Hb Hc. split; [by split|]. intros _ _ ρ k ρ' trace (-> & -> & ->) Hcov. split; [done|]. intros i ρ' Hi. by apply not_elem_of_nil in Hi.
Qed.
(** [this->setDefinitions(currentDefinitions)] *)
Definition set_current (id : Z) : W unit := v ← get_visitor; p ← not_null (currentDefinitions v); setDefinitions p id.
Lemma set_current_run id v h a v' h' ds : set_current id v h = Done (a, v', h') ds -> exists p, currentDefinitions v = Some p /\ setDefinitions p id v h = Done (a, v', h') [].
Proof.
  intros (v1 & v2 & h1 & ? & ? & H1 & (p & v3 & h3 & ? & ? & H2 & H3)%wbind_inv)%wbind_inv. injection H1 as <- <- <- _. destruct (currentDefinitions v) as [q|]; [|discriminate H2].
  injection H2 as -> <- <- _. exists p. split; [done|]. injection H3 as <- <- <- _. done.
Qed.
Lemma sim_current id : sim [id] (fun ρ k ρ' trace => k = Next /\ ρ' = ρ /\ trace = [(id, ρ)]) (set_current id).
Proof.
  intros v h a v' h' ds (p & Hp & Hr)%set_current_run Hb Hc. split; [by eapply setDefinitions_frames|]. intros _ _ ρ k ρ' trace (-> & -> & ->) Hcov. rewrite Hp in Hcov. by eapply set_covered.
Qed.
(** A statement that leaves: what is defined joins [returnedDefinitions] or
    [exitDefinitions]. *)
Definition leave (k : leaves) (id : Z) : W unit :=
  v ← get_visitor;
  p ← join_objects (match k with Exited => exitDefinitions v | _ => returnedDefinitions v end) (currentDefinitions v);
  change (match k with Exited => with_exit (Some p) | _ => with_returned (Some p) end);;
  n ← new_definitions ∅;
  setDefinitions n id.
Lemma sim_leave k id : k <> Next -> sim [id] (fun ρ k' ρ' trace => k' = k /\ ρ' = ρ /\ trace = []) (leave k id).
Proof.
  intros Hk v h a v' h' ds (v1 & v2 & h1 & ? & ? & H1 & (p & v3 & h3 & ? & ? & H2 & ([] & v4 & h4 & ? & ? & H3 & (n & v5 & h5 & ? & ? & H4 & H5)%wbind_inv)%wbind_inv)%wbind_inv)%wbind_inv Hb Hc.
  injection H1 as <- <- <- _. destruct (join_frames _ _ _ _ _ _ _ _ H2 Hb) as [F2 ->]. injection H3 as <- <- _.
  assert (F : frames [] v h (match k with Exited => with_exit (Some p) | _ => with_returned (Some p) end v) h3).
  { destruct F2. destruct k; [done|split; cbn; try done|split; cbn; try done]; intros ρ Hρ; (eapply join_covered; [exact H2|by left]). }
  pose proof (new_frames _ _ _ _ _ _ _ H4 (frames_bounded _ _ _ _ _ F)) as F4. pose proof (setDefinitions_frames _ _ _ _ _ _ _ _ H5 (frames_bounded _ _ _ _ _ F4)) as F5.
  split; [apply (frames_trans _ _ _ _ _ _ _ _ F), (frames_trans _ _ _ _ _ _ _ _ F4), F5|]. intros _ _ ρ k' ρ' trace (-> & -> & ->) Hcov. split; [|intros i ρ' Hi; by apply not_elem_of_nil in Hi].
  apply (definitions_frames _ _ _ _ _ _ _ Hk (frames_trans _ _ _ _ _ _ _ _ F4 F5)). assert (Hj : covered h3 (Some p) ρ) by (eapply join_covered; [exact H2|by right]). by destruct k.
Qed.
(** Two branches that are joined. *)
Definition branch (id : Z) (m1 m2 : W unit) : W unit :=
  v ← get_visitor;
  let defs := currentDefinitions v in
  m1;;
  v ← get_visitor;
  let result := currentDefinitions v in
  change (with_current defs);;
  m2;;
  v ← get_visitor;
  result ← join_objects result (currentDefinitions v);
  setDefinitions result id.
Definition ending (id : Z) (T : paths) : paths := fun ρ k ρ' trace => exists t, T ρ k ρ' t /\ trace = t ++ at_end k id ρ'.
Definition either (T U : paths) : paths := fun ρ k ρ' trace => T ρ k ρ' trace \/ U ρ k ρ' trace.
Lemma with_current_frames p v h : bounded h -> frames [] v h (with_current p v) h.
Proof. by split. Qed.
Lemma set_ends p id pts k v h v' h' a ds ρ trace : setDefinitions p id v h = Done (a, v', h') ds -> callingContext v = context -> bounded h -> NoDup (pts ++ [id]) ->
  (k = Next -> covered h (Some p) ρ) -> (k <> Next -> covered h (definitions_at k v) ρ) -> traced pts h trace ->
  covered h' (definitions_at k v') ρ /\ traced (pts ++ [id]) h' (trace ++ at_end k id ρ).
Proof.
  intros Hs Hc Hb Hnd Hn Hl Ht. pose proof (setDefinitions_frames _ _ _ _ _ _ _ _ Hs Hb) as F. pose proof (traced_frames _ _ _ _ _ _ _ Ht Hnd Hc F) as Ht'. destruct (decide (k = Next)) as [->|Hk].
  - destruct (set_covered _ _ _ _ _ _ _ _ _ Hs Hc (Hn eq_refl)) as [Hcur Htr]. split; [exact Hcur|]. by apply traced_app.
  - split; [by eapply definitions_frames; [| |apply Hl]|]. destruct k; [done| |]; cbn [at_end]; by rewrite app_nil_r.
Qed.
Lemma branch_run id m1 m2 v h a v' h' ds : branch id m1 m2 v h = Done (a, v', h') ds ->
  exists v1 h1 v2 h2 r h3 ds1 ds2 ds3, m1 v h = Done (tt, v1, h1) ds1 /\ m2 (with_current (currentDefinitions v) v1) h1 = Done (tt, v2, h2) ds2 /\
  join_objects (currentDefinitions v1) (currentDefinitions v2) v2 h2 = Done (r, v2, h3) ds3 /\ setDefinitions r id v2 h3 = Done (a, v', h') [].
Proof.
  intros (x1 & y1 & z1 & ? & ? & H1 & ([] & v1 & h1 & ? & ? & H2 & (x2 & y2 & z2 & ? & ? & H3 & H4)%wbind_inv)%wbind_inv)%wbind_inv. injection H1 as <- <- <- _. injection H3 as <- <- <- _.
  apply wbind_inv in H4 as ([] & qa & qb & ? & ? & H4 & ([] & v2 & h2 & ? & ? & H5 & (qc & qd & qe & ? & ? & H6 & (r & y5 & h3 & ? & ? & H7 & H8)%wbind_inv)%wbind_inv)%wbind_inv).
  injection H4 as <- <- _. injection H6 as <- <- <- _. pose proof H7 as (? & ? & ? & ? & _ & _ & _ & _ & _ & -> & _)%join_objects_inv.
  exists v1, h1, v2, h2, r, h3. do 3 eexists. split_and!; [exact H2|exact H5|exact H7|]. injection H8 as <- <- <- _. done.
Qed.
Lemma sim_branch p q id (T U : paths) m1 m2 : sim p T m1 -> sim q U m2 -> sim (p ++ q ++ [id]) (ending id (either T U)) (branch id m1 m2).
Proof.
  intros Hm1 Hm2 v h a v' h' ds (v1 & h1 & v2 & h2 & r & h3 & ? & ? & ? & H1 & H2 & H3 & H4)%branch_run Hb Hc. destruct (Hm1 _ _ _ _ _ _ H1 Hb Hc) as [F1 S1]. pose proof (frames_context _ _ _ _ _ F1) as Hc1. rewrite Hc in Hc1.
  pose proof (frames_bounded _ _ _ _ _ F1) as Hb1. destruct (Hm2 _ _ _ _ _ _ H2 Hb1 Hc1) as [F2 S2]. pose proof (frames_context _ _ _ _ _ F2) as Hc2. cbn in Hc2. rewrite Hc1 in Hc2.
  pose proof (frames_bounded _ _ _ _ _ F2) as Hb2. destruct (join_frames _ _ _ _ _ _ _ _ H3 Hb2) as [F3 _]. pose proof (frames_bounded _ _ _ _ _ F3) as Hb3. pose proof (setDefinitions_frames _ _ _ _ _ _ _ _ H4 Hb3) as F4.
  pose proof (frames_trans _ _ _ _ _ _ _ _ (with_current_frames (currentDefinitions v) _ _ Hb1) F2) as F2'. cbn [app] in F2'. pose proof (frames_trans _ _ _ _ _ _ _ _ F2' F3) as F23. rewrite app_nil_r in F23.
  split; [exact (frames_trans _ _ _ _ _ _ _ _ F1 (frames_trans _ _ _ _ _ _ _ _ F23 F4))|]. rewrite app_assoc. intros Hnd Hw ρ k ρ' trace (t & Ht & ->) Hcov. pose proof Hnd as (Hnpq & _ & _)%NoDup_app. pose proof Hnpq as (Hnp & _ & Hnq)%NoDup_app.
  assert (Hw2 : written v2 ⊆ w) by (etrans; [apply (frames_written _ _ _ _ _ F4)|done]). assert (Hw1 : written v1 ⊆ w) by (etrans; [apply (frames_written _ _ _ _ _ F2')|done]).
  destruct Ht as [Ht|Ht].
  - destruct (S1 Hnp Hw1 _ _ _ _ Ht Hcov) as [Hr Htr]. apply (set_ends r id _ _ v2 h3 _ _ _ _ _ _ H4 Hc2 Hb3 Hnd).
    + intros ->. eapply join_covered; [exact H3|left]. eapply covered_mono; [apply (frames_heap _ _ _ _ _ F2)|exact Hr].
    + intros Hk. by apply (definitions_frames _ _ _ _ _ _ _ Hk F23).
    + by apply (traced_frames _ _ _ _ _ _ _ Htr Hnpq Hc1 F23).
  - assert (Hcov1 : covered h1 (currentDefinitions v) ρ) by (eapply covered_mono; [apply (frames_heap _ _ _ _ _ F1)|done]). destruct (S2 Hnq Hw2 _ _ _ _ Ht Hcov1) as [Hr Htr].
    apply (set_ends r id _ _ v2 h3 _ _ _ _ _ _ H4 Hc2 Hb3 Hnd).
    + intros ->. eapply join_covered; [exact H3|by right].
    + intros Hk. by apply (definitions_frames _ _ _ _ _ _ _ Hk F3).
    + intros i ρi Hi. destruct (Htr i ρi Hi) as [Hq Hci]. split; [apply elem_of_app; by right|]. rewrite (frames_points _ _ _ _ _ F3) by (intros j Hj; by apply not_elem_of_nil in Hj).
      eapply covered_mono; [apply (frames_heap _ _ _ _ _ F3)|done].
Qed.
(** One of several cases is taken; where some value has no case, none may be. *)
Definition choose (id : Z) (f : option Statement -> W unit) (cases : list (bool * option Statement)) (total : bool) : W unit :=
  v ← get_visitor;
  let save := currentDefinitions v in
  result ← new_definitions ∅;
  result ← visit_branches f save cases result;
  result ← (if total then mret result else join_objects (Some result) save);
  setDefinitions result id.
Section cases.
Context (f : option Statement -> W unit) (pts : option Statement -> list Z) (T : option Statement -> paths).
Notation all_points cases := (concat (map (fun c => pts c.2) cases)).
Lemma branches_frames save cases : (forall c, c ∈ cases -> sim (pts c.2) (T c.2) (f c.2)) -> forall result v h r v' h' ds, visit_branches f save cases result v h = Done (r, v', h') ds ->
  bounded h -> callingContext v = context ->
  frames (all_points cases) v h v' h' /\ (forall ρ, covered h (Some result) ρ -> covered h' (Some r) ρ) /\
  (NoDup (all_points cases) -> written v' ⊆ w -> forall c ρ k ρ' t, c ∈ cases -> T c.2 ρ k ρ' t -> covered h save ρ ->
    (k = Next -> covered h' (Some r) ρ') /\ (k <> Next -> covered h' (definitions_at k v') ρ') /\ traced (all_points cases) h' t).
Proof.
  induction cases as [|[dflt body] cases IH]; intros Hf result v h r v' h' ds He Hb Hc; cbn [visit_branches] in He.
  { injection He as -> <- <- _. split; [by split|]. split; [done|]. intros _ _ c ρ k ρ' t Hin. by apply not_elem_of_nil in Hin. }
  apply wbind_inv in He as ([] & va & ha & ? & ? & H1 & ([] & v1 & h1 & ? & ? & H2 & (vb & vc & hb & ? & ? & H3 & (r1 & v3 & h3 & ? & ? & H4 & H5)%wbind_inv)%wbind_inv)%wbind_inv).
  injection H1 as <- <- _. injection H3 as <- <- <- _. pose proof (with_current_frames save v h Hb) as F0. destruct (Hf (dflt, body) (list_elem_of_here _ _) _ _ _ _ _ _ H2 Hb Hc) as [F1 S1]. cbn [snd] in *.
  pose proof (frames_trans _ _ _ _ _ _ _ _ F0 F1) as F01. cbn [app] in F01. pose proof (frames_context _ _ _ _ _ F01) as Hc1. rewrite Hc in Hc1. pose proof (frames_bounded _ _ _ _ _ F1) as Hb1.
  destruct (join_frames _ _ _ _ _ _ _ _ H4 Hb1) as [F4 ->]. pose proof (frames_bounded _ _ _ _ _ F4) as Hb4.
  destruct (IH (fun c Hin => Hf c (list_elem_of_further _ _ _ Hin)) _ _ _ _ _ _ _ H5 Hb4 Hc1) as (F5 & K5 & S5). pose proof (frames_trans _ _ _ _ _ _ _ _ F4 F5) as F45. cbn [app] in F45.
  cbn [map concat snd]. split; [by eapply frames_trans|]. split.
  - intros ρ Hρ. apply K5. eapply join_covered; [exact H4|left]. eapply covered_mono; [apply (frames_heap _ _ _ _ _ F01)|done].
  - intros Hnd Hw c ρ k ρ' t Hin Ht Hcov. pose proof Hnd as (Hnp & _ & Hnq)%NoDup_app. assert (Hw1 : written v1 ⊆ w) by (etrans; [apply (frames_written _ _ _ _ _ F5)|done]).
    apply elem_of_cons in Hin as [->|Hin].
    + cbn [snd] in Ht. destruct (S1 Hnp Hw1 _ _ _ _ Ht Hcov) as [Hr Htr]. split_and!.
      * intros ->. apply K5. eapply join_covered; [exact H4|by right].
      * intros Hk. by apply (definitions_frames _ _ _ _ _ _ _ Hk F45).
      * by apply (traced_frames _ _ _ _ _ _ _ Htr Hnd Hc1 F45).
    + assert (Hcov' : covered h3 save ρ) by (eapply covered_mono; [etrans; [apply (frames_heap _ _ _ _ _ F01)|apply (frames_heap _ _ _ _ _ F4)]|done]).
      destruct (S5 Hnq Hw c ρ k ρ' t Hin Ht Hcov') as (A1 & A2 & A3). split_and!; [done..|]. intros i ρi Hi. destruct (A3 i ρi Hi). split; [apply elem_of_app; by right|done].
Qed.
Definition chosen (cases : list (bool * option Statement)) (total : bool) : paths := fun ρ k ρ' t => (exists c, c ∈ cases /\ T c.2 ρ k ρ' t) \/ (total = false /\ stays ρ k ρ' t).
Lemma sim_choose id cases total : (forall c, c ∈ cases -> sim (pts c.2) (T c.2) (f c.2)) -> sim (all_points cases ++ [id]) (ending id (chosen cases total)) (choose id f cases total).
Proof.
  intros Hf v h a v' h' ds (va & vb & ha & ? & ? & H1 & (r & v0 & h0 & ? & ? & H2 & (r1 & v1 & h1 & ? & ? & H3 & (r2 & v2 & h2 & ? & ? & H4 & H5)%wbind_inv)%wbind_inv)%wbind_inv)%wbind_inv Hb Hc.
  injection H1 as <- <- <- _. pose proof (new_frames _ _ _ _ _ _ _ H2 Hb) as F2. pose proof H2 as (_ & -> & _)%new_inv. destruct (branches_frames _ _ Hf _ _ _ _ _ _ _ H3 (frames_bounded _ _ _ _ _ F2) Hc) as (F3 & _ & S3).
  pose proof (frames_context _ _ _ _ _ F3) as Hc1. rewrite Hc in Hc1. pose proof (frames_bounded _ _ _ _ _ F3) as Hb1.
  assert (F4 : frames [] v1 h1 v2 h2 /\ v2 = v1 /\ (forall ρ, covered h1 (Some r1) ρ -> covered h2 (Some r2) ρ) /\ (total = false -> forall ρ, covered h1 (currentDefinitions v) ρ -> covered h2 (Some r2) ρ)).
  { destruct total; [injection H4 as -> <- <- _; by split_and!|]. destruct (join_frames _ _ _ _ _ _ _ _ H4 Hb1) as [F4 ->]. split_and!; [done|done| |]; [intros ρ Hρ|intros _ ρ Hρ]; (eapply join_covered; [exact H4|]); auto. }
  destruct F4 as (F4 & -> & K4 & N4). pose proof (frames_bounded _ _ _ _ _ F4) as Hb2. pose proof (setDefinitions_frames _ _ _ _ _ _ _ _ H5 Hb2) as F5. pose proof (frames_trans _ _ _ _ _ _ _ _ F2 F3) as F23. cbn [app] in F23.
  pose proof (frames_trans _ _ _ _ _ _ _ _ F4 F5) as F45. cbn [app] in F45. split; [exact (frames_trans _ _ _ _ _ _ _ _ F23 F45)|]. intros Hnd Hw ρ k ρ' trace (t & Ht & ->) Hcov. pose proof Hnd as (Hnp & _ & _)%NoDup_app.
  assert (Hw1 : written v1 ⊆ w) by (etrans; [apply (frames_written _ _ _ _ _ F45)|done]). apply (set_ends r2 id _ _ v1 h2 _ _ _ _ _ _ H5 Hc1 Hb2 Hnd).
  - intros ->. destruct Ht as [(c & Hin & Ht)|(Hz & _ & -> & ->)].
    + apply K4. apply (S3 Hnp Hw1 c ρ Next ρ' t Hin Ht); [|done]. eapply covered_mono; [apply (frames_heap _ _ _ _ _ F2)|done].
    + apply N4; [done|]. eapply covered_mono; [apply (frames_heap _ _ _ _ _ F23)|done].
  - intros Hk. destruct Ht as [(c & Hin & Ht)|(_ & -> & _)]; [|done]. apply (definitions_frames _ _ _ _ _ _ _ Hk F4). apply (S3 Hnp Hw1 c ρ k ρ' t Hin Ht); [|done]. eapply covered_mono; [apply (frames_heap _ _ _ _ _ F2)|done].
  - destruct Ht as [(c & Hin & Ht)|(_ & _ & _ & ->)]; [|intros i ρi Hi; by apply not_elem_of_nil in Hi]. intros i ρi Hi.
    assert (Hcov' : covered h0 (currentDefinitions v) ρ) by (eapply covered_mono; [apply (frames_heap _ _ _ _ _ F2)|done]). destruct (S3 Hnp Hw1 c ρ k ρ' t Hin Ht Hcov') as (_ & _ & A3). destruct (A3 i ρi Hi) as [Hp Hci]. split; [done|].
    rewrite (frames_points _ _ _ _ _ F4) by (intros j Hj; by apply not_elem_of_nil in Hj). eapply covered_mono; [apply (frames_heap _ _ _ _ _ F4)|done].
Qed.
End cases.

(** *** Statements *)
Section statements.
Context (getTypeType : IRType -> IRType) (typeFuel : nat).
Notation visit := (visit getTypeType typeFuel).
Notation visit_statement := (visit_statement getTypeType typeFuel).
Notation path := (path w context).
Notation path_all := (path_all w context).
Lemma quiet_visit fuel e : call_free e = true -> quiet (visit fuel e).
Proof. intros He. by apply keeps_quiet, visit_keeps. Qed.
Lemma sim_all f ss : (forall s, s ∈ ss -> sim (points_of s) (path s) (f s)) -> sim (concat (map points_of ss)) (path_all ss) (for_all f ss).
Proof.
  induction ss as [|s ss IH]; intros Hf; cbn [for_all map concat]; [eapply sim_mono; [|apply sim_ret]; by inversion 1|].
  eapply sim_mono; [|apply sim_bind; [apply Hf; left|intros _; apply IH; intros t Ht; apply Hf; by right]].
  intros ρ k ρ' trace. inversion 1; subst; [right; eauto 10|left; eauto].
Qed.
Lemma overwrite_nothing s p ρ : isEmpty s = true -> overwrite s p ρ = ρ.
Proof. unfold isEmpty, LocationSet in *. intros ->%bool_decide_eq_true%map_size_empty_iff. done. Qed.
Lemma statement_sim fuel : forall s, plain w s = true -> sim (points_of s) (path s) (visit_statement fuel s).
Proof.
  induction fuel as [|fuel IH]; intros s Hs; [by intros v h a v' h' ds|]. cbn [WriteSet.visit_statement].
  destruct s as [id l r|id e|id c t f|id e cases total|id ss|id e|id|id|id]; cbn [plain points_of] in *; repeat (apply andb_true_iff in Hs as [Hs ?]).
  - apply (sim_quiet [id]); [apply quiet_lhs|intros _]. apply (sim_quiet [id]); [by apply quiet_visit|intros _]. apply (sim_quiet [id]); [apply quiet_lhs|intros _]. apply (sim_quiet [id]); [by apply quiet_visit|intros _].
    eapply sim_mono; [|apply (sim_read [id] (fun s => writing id id s) _ _ _ (keeps_join_written _ _) (answers_join_written _ _)); intros a; apply sim_write_at].
    intros ρ k ρ' trace. inversion 1; subst. cbn [fold_left]. unfold writing, join. by rewrite (left_id_L ∅ (∪)).
  - apply (sim_quiet [id]); [apply quiet_lhs|intros _]. apply (sim_quiet [id]); [by apply quiet_visit|intros _].
    eapply sim_mono; [|apply (sim_read [id] (fun s => writing id id s) _ _ _ (keeps_getWrites _) (answers_getWrites _)); intros a; apply sim_write_at]. inversion 1; by subst.
  - apply (sim_quiet (expr_id c :: _)); [by apply quiet_visit|intros _].
    eapply sim_mono; [|apply (sim_read (expr_id c :: _) (fun s => then_ (writing id (expr_id c) s) (ending id (either (path t) (match f with Some f => path f | None => stays end)))) _ _ _ (keeps_getWrites _) (answers_getWrites _)); intros a;
      apply (sim_bind [expr_id c] _ _ _ _ _ (sim_write_at id (expr_id c) a)); intros _; apply (sim_branch _ _ id _ _ (visit_statement fuel t) (match f with Some f => visit_statement fuel f | None => mret tt end))].
    + intros ρ k ρ' trace. inversion 1; subst; right; (exists (overwrite (writes_of w c) (point_in context id) ρ), [(expr_id c, overwrite (writes_of w c) (point_in context id) ρ)]); eexists; (split; [done|]); (split; [|reflexivity]).
      * by eexists; split; [left|].
      * by eexists; split; [right|].
      * exists []. split; [|done]. by right.
    + by apply IH.
    + destruct f; [by apply IH|apply sim_ret].
  - set (pts := fun o : option Statement => match o with Some s => points_of s | None => [] end). set (T := fun o : option Statement => match o with Some s => path s | None => fun _ _ _ _ => False end).
    apply (sim_quiet (expr_id e :: _)); [by apply quiet_visit|intros _].
    eapply sim_mono; [|apply (sim_read (expr_id e :: _) (fun s => then_ (writing (expr_id e) (expr_id e) s) (ending id (chosen T cases (existsb fst cases || total)))) _ _ _ (keeps_getWrites _) (answers_getWrites _)); intros a;
      apply (sim_bind [expr_id e] _ _ _ _ _ (sim_write_at (expr_id e) (expr_id e) a)); intros _;
      apply (sim_choose (fun body => match body with Some s => visit_statement fuel s | None => mret tt end) pts T id cases (existsb fst cases || total))].
    + intros ρ k ρ' trace. inversion 1; subst; right; (exists (overwrite (writes_of w e) (point_in context (expr_id e)) ρ), [(expr_id e, overwrite (writes_of w e) (point_in context (expr_id e)) ρ)]); eexists; (split; [done|]); (split; [|reflexivity]).
      * eexists. split; [left; eexists; split; [eassumption|eassumption]|done].
      * exists []. split; [|done]. right. split; [|done]. by match goal with E : existsb fst cases = false |- _ => rewrite E end.
    + intros [dflt [s|]] Hin; pose proof (forallb_in _ _ _ H Hin) as Hc; cbn [snd] in *; [by apply IH|]. eapply sim_mono; [|apply sim_ret]. done.
  - eapply sim_mono; [|apply sim_bind; [apply (sim_all (visit_statement fuel)); intros s Hin; apply IH; by apply (forallb_in _ _ _ Hs)|intros _; apply sim_current]].
    intros ρ k ρ' trace. inversion 1; subst. destruct k; [right; by eauto 10|left..]; cbn [at_end]; by rewrite app_nil_r.
  - destruct e as [e|].
    + apply andb_true_iff in Hs as [He Hw]. apply (sim_quiet [id]); [by apply quiet_visit|intros _]. eapply sim_mono; [|apply (sim_leave Returned id); discriminate].
      intros ρ k ρ' trace. inversion 1; subst. by rewrite overwrite_nothing.
    + apply (sim_quiet [id]); [apply keeps_quiet, keeps_ret|intros _]. eapply sim_mono; [|apply (sim_leave Returned id); discriminate]. inversion 1; by subst.
  - eapply sim_mono; [|apply (sim_leave Exited id); discriminate]. inversion 1; by subst.
  - eapply sim_mono; [|apply sim_current]. inversion 1; by subst.
  - eapply sim_mono; [|apply sim_ret]. inversion 1; by subst.
Qed.
End statements.
End simulation.
