(* ===== verification/WriteSetSound.v ===== *)
(** * Def-use analysis: controls, soundness and fuel

    The definitions the visitor leaves in a control cover every path through its
    body; the visitor of a body without callees never runs out of fuel; and the
    cases in which definitions are lost. *)
From S2P Require Import Prelude Ir TypeSubst DefUse DefUseFacts WriteSet WriteSetFacts.
Local Open Scope flexplan_scope.
Local Open Scope Z_scope.
Implicit Types (ρ : writers) (d : Definitions) (v : Visitor) (h : Shared).

(** ** Controls *)
(** [still m]: [m] leaves the visitor and the points alone; objects may change. *)
Definition still {A} (m : W A) : Prop := forall v h a v' h' ds, m v h = Done (a, v', h') ds -> v' = v /\ atPoint h' = atPoint h /\ (bounded h -> bounded h') /\ (forall i, is_Some (heap h !! i) -> is_Some (heap h' !! i)).
Create HintDb still.
Lemma still_ret {A} (a : A) : still (mret a).
Proof. by intros v h a' v' h' ds [= -> <- <- <-]. Qed.
Lemma still_bug {A} why : still (@wbug A why).
Proof. by intros v h a v' h' ds [=]. Qed.
Lemma still_bind {A B} (m : W A) (k : A -> W B) : still m -> (forall a, still (k a)) -> still (m ≫= k).
Proof. intros Hm Hk v h b v' h' ds (a & v1 & h1 & ds1 & ds2 & H1 & H2)%wbind_inv. apply Hm in H1 as (-> & E1 & B1 & D1). apply Hk in H2 as (-> & E2 & B2 & D2). split_and!; [done|congruence|auto..]. Qed.
Lemma still_lift {A} (o : outcome A) : still (wlift o).
Proof. intros v h a v' h' ds. unfold wlift. destruct o; [|discriminate]. by intros [= -> <- <- <-]. Qed.
Lemma still_shared : still get_shared.
Proof. by intros v h a v' h' ds [= -> <- <- <-]. Qed.
Lemma still_mutate p f : still (mutate p f).
Proof.
  intros v h a v' h' ds [= _ <- <- _]. assert (Hdom : forall i, is_Some (alter f p (heap h) !! i) <-> is_Some (heap h !! i)).
  { intros i. destruct (decide (p = i)) as [->|Hne]; [|by rewrite lookup_alter_ne]. rewrite lookup_alter_eq. apply fmap_is_Some. }
  split_and!; [done|done| |intros i; apply Hdom]. intros Hb i Hi%Hdom. by apply Hb.
Qed.
Lemma still_storage f : still (change_shared (fun h => with_storage (f h) (locations h) h)).
Proof. by intros v h a v' h' ds [= _ <- <- _]. Qed.
Lemma still_new d : still (new_definitions d).
Proof. intros v h a v' h' ds (-> & -> & Eh & Ef & Ea & Es)%new_inv. split_and!; [done|done| |].
  - intros Hb. by destruct (bounded_new _ _ _ Hb Eh Ef).
  - intros i Hi. rewrite Eh. apply lookup_insert_is_Some'. by right.
 Qed.
Lemma still_for_all {A} (f : A -> W unit) xs : (forall x, still (f x)) -> still (for_all f xs).
Proof. intros Hf. induction xs as [|x xs IH]; cbn [for_all]; [apply still_ret|]. apply still_bind; [apply Hf|]. intros _. apply IH. Qed.
#[export] Hint Resolve still_ret still_bug still_lift still_shared still_mutate still_storage still_new : still.
Section control.
Context (getTypeType : IRType -> IRType) (typeFuel : nat).
Notation enterScope := (enterScope getTypeType typeFuel).
Lemma still_create type name : still (create_location getTypeType typeFuel type name).
Proof. intros v h a v' h' ds. unfold create_location. destruct (create _ _ _ _ _) as [r ?|]; [|discriminate]. by intros [= <- <- <- _]. Qed.
Lemma still_add x : still (storage_add getTypeType typeFuel x).
Proof. unfold storage_add. apply still_bind; [apply still_create|]. intros [l|]; [|auto with still]. apply still_bind; [apply still_storage|auto with still]. Qed.
Lemma still_hidden p l P : still (define_hidden p l P).
Proof. unfold define_hidden. apply still_bind; [auto with still|]. intros valid. apply still_bind; auto with still. Qed.
Lemma still_parameter p P Q x : still (enter_parameter getTypeType typeFuel p P Q x).
Proof.
  unfold enter_parameter. apply still_bind.
  - unfold getOrAdd. apply still_bind; [auto with still|]. intros h. destruct (storage h !! decl x.2); [auto with still|apply still_add].
  - intros [l|]; [|auto with still]. apply still_bind; [|intros _; apply still_hidden]. unfold define. destruct x.1; auto with still.
Qed.
Lemma still_local p P Q x : still (enter_local getTypeType typeFuel p P Q x).
Proof. unfold enter_local. apply still_bind; [apply still_add|]. intros [l|]; [|auto with still]. apply still_bind; [unfold define; auto with still|intros _; apply still_hidden]. Qed.
Lemma enterScope_run parameters locals entryPoint clear v h a v' h' ds : enterScope parameters locals entryPoint clear v h = Done (a, v', h') ds -> bounded h ->
  bounded h' /\ exists p, v' = with_current (Some p) v /\ atPoint h' = <[entryPoint := p]> (atPoint h) /\ (clear = true -> is_Some (heap h' !! p)).
Proof.
  intros (va & vb & ha & ? & ? & H1 & (p & v1 & h1 & ? & ? & H2 & ([] & v2 & h2 & ? & ? & H3 & ([] & v3 & h3 & ? & ? & H4 & ([] & v4 & h4 & ? & ? & H5 & H6)%wbind_inv)%wbind_inv)%wbind_inv)%wbind_inv)%wbind_inv Hb.
  injection H1 as <- <- <- _. assert (Hs : still (match (if clear then None else currentDefinitions v) with Some p => mret p | None => new_definitions ∅ end)) by (destruct clear; [|destruct (currentDefinitions v)]; auto with still).
  pose proof (Hs _ _ _ _ _ _ H2) as (-> & E2 & B2 & D2). apply (still_for_all _ _ (still_parameter _ _ _)) in H3 as (-> & E3 & B3 & D3). apply (still_for_all _ _ (still_local _ _ _)) in H4 as (-> & E4 & B4 & D4).
  injection H5 as <- <- _. injection H6 as _ <- <- _. split; [exact (B4 (B3 (B2 Hb)))|]. exists p. split; [done|]. split; [cbn; congruence|]. intros ->. apply D4, D3. apply new_inv in H2 as (-> & _ & -> & _). rewrite lookup_insert_eq. by eexists.
Qed.
End control.
(** The current definitions, those returned and those exited with, joined. *)
Definition close (id : Z) : W unit :=
  v ← get_visitor;
  returned ← join_objects (currentDefinitions v) (returnedDefinitions v);
  exited ← join_objects (Some returned) (exitDefinitions v);
  setDefinitions exited id.
Lemma close_frames id v h v' h' a ds : close id v h = Done (a, v', h') ds -> bounded h -> frames [id] v h v' h' /\ written v' = written v.
Proof.
  intros (va & vb & ha & ? & ? & H1 & (r & v1 & h1 & ? & ? & H2 & (x & v2 & h2 & ? & ? & H3 & H4)%wbind_inv)%wbind_inv)%wbind_inv Hb. injection H1 as <- <- <- _.
  destruct (join_frames _ _ _ _ _ _ _ _ H2 Hb) as [F2 ->]. destruct (join_frames _ _ _ _ _ _ _ _ H3 (frames_bounded _ _ _ _ _ F2)) as [F3 ->].
  pose proof (setDefinitions_frames _ _ _ _ _ _ _ _ H4 (frames_bounded _ _ _ _ _ F3)) as F4. split; [exact (frames_trans _ _ _ _ _ _ _ _ F2 (frames_trans _ _ _ _ _ _ _ _ F3 F4))|]. by apply setDefinitions_inv in H4 as (-> & _).
Qed.
Lemma close_covers id context v h v' h' a ds pts k ρ trace : close id v h = Done (a, v', h') ds -> callingContext v = context -> bounded h -> id ∈ pts ->
  covered h (definitions_at k v) ρ -> traced context pts h trace -> atPoint h !! point_in context id = currentDefinitions v ->
  covered h' (atPoint h' !! point_in context id) ρ /\ traced context pts h' trace.
Proof.
  intros (va & vb & ha & ? & ? & H1 & (r & v1 & h1 & ? & ? & H2 & (x & v2 & h2 & ? & ? & H3 & H4)%wbind_inv)%wbind_inv)%wbind_inv Hc Hb Hid Hcov Ht Hlast. injection H1 as <- <- <- _.
  destruct (join_frames _ _ _ _ _ _ _ _ H2 Hb) as [F2 ->]. destruct (join_frames _ _ _ _ _ _ _ _ H3 (frames_bounded _ _ _ _ _ F2)) as [F3 ->].
  assert (Hx : forall k ρ, covered h (definitions_at k v) ρ -> covered h2 (Some x) ρ).
  { clear k ρ Hcov Ht. intros k ρ Hcov. eapply join_covered; [exact H3|]. destruct k; [left; eapply join_covered; [exact H2|by left]|left; eapply join_covered; [exact H2|by right]|right]. eapply covered_mono; [apply (frames_heap _ _ _ _ _ F2)|exact Hcov]. }
  assert (Hat : forall ρ, covered h2 (Some x) ρ -> covered h' (atPoint h' !! point_in context id) ρ).
  { intros ρ' Hρ'. destruct (set_covered context _ _ _ _ _ _ _ _ _ H4 Hc Hρ') as [_ Hset]. by destruct (Hset id ρ' (list_elem_of_here _ _)). }
  split; [by eapply Hat, Hx|]. intros i ρi Hi. destruct (Ht i ρi Hi) as [Hp Hci]. split; [done|]. destruct (decide (i = id)) as [->|Hne]; [rewrite Hlast in Hci; by apply Hat, (Hx Next)|].
  pose proof (setDefinitions_frames _ _ _ _ _ _ _ _ H4 (frames_bounded _ _ _ _ _ F3)) as F4. pose proof (frames_trans _ _ _ _ _ _ _ _ F2 (frames_trans _ _ _ _ _ _ _ _ F3 F4)) as F. cbn [app] in F.
  rewrite (frames_points _ _ _ _ _ F); [eapply covered_mono; [apply (frames_heap _ _ _ _ _ F)|done]|]. intros j ->%list_elem_of_singleton. rewrite Hc. by intros ?%point_in_inj.
Qed.
Lemma block_at getTypeType typeFuel fuel id ss v h v' h' ds : visit_statement getTypeType typeFuel fuel (S_Block id ss) v h = Done (tt, v', h') ds ->
  callingContext v' = callingContext v -> atPoint h' !! point_in (callingContext v) id = currentDefinitions v'.
Proof.
  destruct fuel as [|fuel]; [discriminate|]. cbn [visit_statement]. intros ([] & v1 & h1 & ? & ? & _ & (p & Hp & Hs)%set_current_run)%wbind_inv Hc.
  apply setDefinitions_inv in Hs as (-> & _ & _ & -> & _). cbn in Hc. by rewrite Hc, lookup_insert_eq.
Qed.

(** ** Fuel *)
(** [sated m]: [m] does not run out of fuel; it may still end in a [BUG]. *)
Definition sated_outcome {A} (o : outcome A) : Prop := o <> Aborted "out of fuel".
Definition sated {A} (m : W A) : Prop := forall v h, sated_outcome (m v h).
Create HintDb sated.
Lemma sated_ret {A} (a : A) : sated (mret a).
Proof. intros v h. discriminate. Qed.
Lemma sated_bug {A} why : why <> "out of fuel"%string -> sated (@wbug A why).
Proof. intros Hw v h [= ->]. done. Qed.
Lemma sated_bind {A B} (m : W A) (k : A -> W B) : sated m -> (forall a, sated (k a)) -> sated (m ≫= k).
Proof.
  intros Hm Hk v h. specialize (Hm v h). unfold mbind, W_bind, sated_outcome in *. destruct (m v h) as [[[a v1] h1] ds|why]; cbn; [|congruence]. specialize (Hk a v1 h1). unfold sated_outcome in Hk. destruct (k a v1 h1); [discriminate|congruence].
Qed.
Lemma sated_lift {A} (o : outcome A) : sated_outcome o -> sated (wlift o).
Proof. intros Ho v h. unfold wlift, sated_outcome in *. destruct o; [discriminate|]. cbn. congruence. Qed.
Lemma sated_visitor : sated get_visitor.
Proof. intros v h. discriminate. Qed.
Lemma sated_shared : sated get_shared.
Proof. intros v h. discriminate. Qed.
Lemma sated_change f : sated (change f).
Proof. intros v h. discriminate. Qed.
Lemma sated_change_shared f : sated (change_shared f).
Proof. intros v h. discriminate. Qed.
Lemma sated_new d : sated (new_definitions d).
Proof. intros v h. discriminate. Qed.
#[export] Hint Resolve sated_ret sated_visitor sated_shared sated_change sated_change_shared sated_new : sated.
#[export] Hint Extern 1 (sated (wbug _)) => (apply sated_bug; discriminate) : sated.
Lemma sated_not_null {A} (o : option A) : sated (not_null o).
Proof. destruct o; cbn [not_null]; auto with sated. Qed.
#[export] Hint Resolve sated_not_null : sated.
Lemma sated_for_all {A} (f : A -> W unit) xs : (forall x, x ∈ xs -> sated (f x)) -> sated (for_all f xs).
Proof. induction xs as [|x xs IH]; intros Hf; cbn [for_all]; [auto with sated|]. apply sated_bind; [apply Hf; left|]. intros _. apply IH. intros y Hy. apply Hf. by right. Qed.
Ltac sated_step :=
  first [progress auto 2 with sated | apply sated_bind; [|intros ?] | apply sated_for_all; intros ? ? | match goal with |- sated (match ?x with _ => _ end) => destruct x eqn:? end].
Lemma sated_deref p : sated (deref p).
Proof. unfold deref. repeat sated_step. Qed.
#[export] Hint Resolve sated_deref : sated.
Lemma sated_join p q : sated (join_objects p q).
Proof. unfold join_objects. repeat sated_step. Qed.
Lemma sated_setDefinitions p node : sated (setDefinitions p node).
Proof. unfold setDefinitions, setDefinitionsAt. repeat sated_step. Qed.
Lemma sated_getWrites e : sated (getWrites e).
Proof. unfold getWrites. repeat sated_step. Qed.
Lemma sated_expressionWrites id s : sated (expressionWrites id s).
Proof. unfold expressionWrites. repeat sated_step. Qed.
#[export] Hint Resolve sated_join sated_setDefinitions sated_getWrites sated_expressionWrites : sated.
Lemma sated_in_lhs b m : sated m -> sated (in_lhs b m).
Proof. intros Hm. unfold in_lhs. repeat (sated_step || exact Hm). Qed.
Lemma sated_is_lhs : sated is_lhs.
Proof. unfold is_lhs. repeat sated_step. Qed.
Lemma sated_join_written es : forall s, sated (join_written es s).
Proof. induction es as [|e es IH]; intros s; cbn [join_written]; repeat (sated_step || apply IH). Qed.
Lemma sated_write_at point node s : sated (write_at point node s).
Proof. unfold write_at, getProgramPoint. repeat sated_step. Qed.
#[export] Hint Resolve sated_is_lhs sated_join_written sated_write_at : sated.
Lemma sated_join_out f args : (forall a, a ∈ args -> sated (f a.2)) -> forall s, sated (join_out args f s).
Proof.
  induction args as [|[dir e] args IH]; intros Hf s; cbn [join_out]; [auto with sated|]. assert (He : sated (f e)) by apply (Hf (dir, e)), list_elem_of_here.
  assert (Hr : forall s, sated (join_out args f s)) by (apply IH; intros a Ha; apply Hf; by right). apply sated_bind; [by apply sated_in_lhs|intros _]. destruct dir; repeat (sated_step || apply Hr).
Qed.
Lemma sated_branches f save cases : (forall c, c ∈ cases -> sated (f c.2)) -> forall result, sated (visit_branches f save cases result).
Proof.
  induction cases as [|[b c] cases IH]; intros Hf result; cbn [visit_branches]; [auto with sated|]. assert (Hc : sated (f c)) by apply (Hf (b, c)), list_elem_of_here.
  assert (Hr : forall r, sated (visit_branches f save cases r)) by (apply IH; intros a Ha; apply Hf; by right). repeat (sated_step || apply Hr || exact Hc).
Qed.
(** The loops over sets. *)
Lemma sated_fold {A B} (f : A -> B -> outcome A) (bs : list B) : (forall a b, sated_outcome (f a b)) -> forall o, sated_outcome o -> sated_outcome (fold_left (fun o b => do a <- o; f a b) bs o).
Proof.
  intros Hf. induction bs as [|b bs IH]; intros o Ho; cbn [fold_left]; [done|]. apply IH. unfold sated_outcome in *. destruct o as [a ds|why]; cbn; [|congruence]. specialize (Hf a b). destruct (f a b); [discriminate|congruence].
Qed.
Lemma sated_for_all_in {A} (f : StorageLocation -> A -> outcome A) s a : (forall l a, sated_outcome (f l a)) -> sated_outcome (for_all_in f s a).
Proof. intros Hf. apply (sated_fold (fun a p => f p.2 a)); [intros; apply Hf|discriminate]. Qed.
Lemma sated_for_each {A} (f : StorageLocation -> A -> outcome A) ls a : (forall l a, sated_outcome (f l a)) -> sated_outcome (for_each f ls a).
Proof. intros Hf. apply (sated_fold (fun a l => f l a)); [intros; apply Hf|discriminate]. Qed.
Lemma sated_addField field l s : sated_outcome (struct_addField field l s).
Proof. unfold struct_addField. destruct l as [| ? ? ? fs |]; try discriminate. destruct (ofind field fs); discriminate. Qed.
Lemma sated_getField field s : sated (wlift (getField field s)).
Proof.
  apply sated_lift, sated_for_all_in. intros l a. destruct l; [discriminate| |apply sated_for_each, sated_addField]. destruct (_ && _); [apply sated_for_each, sated_addField|apply sated_addField].
Qed.
Lemma sated_getIndex index s : sated (wlift (getIndex index s)).
Proof. apply sated_lift, sated_for_all_in. intros l a. destruct l as [| |? ? ? es ?]; try discriminate. cbn. destruct (es !! Z.to_nat index); [|discriminate]. by destruct (0 <=? index). Qed.
Lemma sated_allElements s : sated (wlift (allElements s)).
Proof. apply sated_lift, sated_for_all_in. intros l a. by destruct l. Qed.
#[export] Hint Resolve sated_getField sated_getIndex sated_allElements : sated.
(** The nesting of a body in which no callee is entered. *)
Fixpoint depth (e : Expr) : nat :=
  match e with
  | X_Other _ | X_Path _ _ => 1
  | X_Slice _ e | X_Member _ e _ _ | X_Unary _ e | X_BuiltIn _ e _ _ => S (depth e)
  | X_ArrayIndex _ l r _ | X_Binary _ l r => S (depth l + depth r)
  | X_Mux _ e0 e1 e2 => S (depth e0 + depth e1 + depth e2)
  | X_Select _ e cases => S (depth e + list_sum (map (fun c => depth c.1 + depth c.2) cases))
  | X_List _ es => S (list_sum (map depth es))
  | X_Call _ m _ args => S (depth m + list_sum (map (fun a => depth a.2) args))
  end%nat.
Fixpoint statement_depth (s : Statement) : nat :=
  match s with
  | S_Assignment _ l r => S (depth l + depth r)
  | S_MethodCall _ e => S (depth e)
  | S_If _ c t f => S (depth c + statement_depth t + match f with Some f => statement_depth f | None => 0 end)
  | S_Switch _ e cases _ => S (depth e + list_sum (map (fun c => match c.2 with Some s => statement_depth s | None => 0 end) cases))
  | S_Block _ ss => S (list_sum (map statement_depth ss))
  | S_Return _ e => S (match e with Some e => depth e | None => 0 end)
  | S_Exit _ | S_Empty _ | S_Declaration _ => 1
  end%nat.
Lemma list_sum_in {A} (f : A -> nat) (xs : list A) x : x ∈ xs -> (f x <= list_sum (map f xs))%nat.
Proof. unfold list_sum. induction 1; cbn [map fold_right] in *; lia. Qed.
Section fuel.
Context (getTypeType : IRType -> IRType) (typeFuel : nat) (w : gmap Z LocationSet).
Lemma visit_sated fuel : forall e, call_free e = true -> (depth e <= fuel)%nat -> sated (visit getTypeType typeFuel fuel e).
Proof.
  induction fuel as [|fuel IH]; intros e He Hd; [destruct e; cbn in Hd; lia|]. cbn [visit].
  destruct e; cbn [call_free depth] in *; repeat (apply andb_true_iff in He as [He ?]); repeat (sated_step || (apply IH; [assumption|lia]) || apply sated_in_lhs || (apply sated_join_out; intros ? ?)).
  all: try (apply bool_decide_eq_true in He; discriminate He).
  - pose proof (forallb_in _ _ _ H H0) as [? _]%andb_true_iff. pose proof (list_sum_in (fun c => (depth c.1 + depth c.2)%nat) _ _ H0). cbn in *. apply IH; [done|lia].
  - pose proof (forallb_in _ _ _ H H0) as [_ ?]%andb_true_iff. pose proof (list_sum_in (fun c => (depth c.1 + depth c.2)%nat) _ _ H0). cbn in *. apply IH; [done|lia].
  - pose proof (forallb_in _ _ _ He H). pose proof (list_sum_in depth _ _ H). apply IH; [done|lia].
  - pose proof (forallb_in _ _ _ H H1). pose proof (list_sum_in (fun a => depth a.2) _ _ H1). cbn in *. apply IH; [done|lia].
Qed.
Lemma statement_sated fuel : forall s, plain w s = true -> (statement_depth s <= fuel)%nat -> sated (visit_statement getTypeType typeFuel fuel s).
Proof.
  induction fuel as [|fuel IH]; intros s Hs Hd; [destruct s; cbn in Hd; lia|]. cbn [visit_statement].
  destruct s; cbn [plain statement_depth] in *; repeat (apply andb_true_iff in Hs as [Hs ?]);
    repeat (sated_step || (apply IH; [assumption|lia]) || (apply visit_sated; [assumption|lia]) || (apply sated_branches; intros ? ?)).
  - pose proof (forallb_in _ _ _ H H0) as Hc. pose proof (list_sum_in (fun c => match c.2 with Some s => statement_depth s | None => 0%nat end) _ _ H0) as Hl. cbv beta in Hc, Hl. rewrite Heqo in Hc, Hl. apply IH; [done|lia].
  - pose proof (forallb_in _ _ _ Hs H). pose proof (list_sum_in statement_depth _ _ H). apply IH; [done|lia].
  - apply andb_true_iff in Hs as [Hs _]. apply visit_sated; [done|lia].
Qed.
End fuel.


(** ** Examples *)
Definition bit8 : IRType := Ty_Base (B_Bits 8 false).
Definition variable (i : Z) (name : string) (t : IRType) : Var := {| decl := i; var_name := name; var_type := t |}.
(** The points of the location [loc] at a point, after a control with the local
    variables [locals] and the components [ss]. *)
Definition points_after (locals : list Var) (ss : list Statement) (pt : ProgramPoint) (loc : Z) : option (list ProgramPoint) :=
  match visit_control id 5 20 50 [] locals (S_Block 1 ss) new_visitor no_shared with
  | Done (_, _, h) _ => match atPoint h !! pt ≫= (fun p => heap h !! p) with Some d => (fun P : ProgramPoints => elements P) <$> (d !! loc) | None => None end
  | Aborted _ => None
  end.
(** [x = ..; if (..) { x = ..; }] *)
Definition conditional : list Statement :=
  [S_Assignment 2 (X_Path 3 100) (X_Other 4); S_If 5 (X_Other 6) (S_Block 7 [S_Assignment 8 (X_Path 9 100) (X_Other 10)]) None].
Definition call (i : Z) (callees : list Callee) : Statement := S_MethodCall i (X_Call (i + 1) (X_Other (i + 2)) callees []).
(** An action with a local variable that is written on one path only, called twice:
    the definitions of the second call's variable have the writer of the first. *)
Theorem action_local_keeps_definitions :
  let action := C_Action 20 [] [variable 101 "y" bit8] (S_Block 21 [S_If 22 (X_Other 23) (S_Block 24 [S_Assignment 25 (X_Path 26 101) (X_Other 27)]) None]) in
  points_after [] [call 30 [action]; call 40 [action]] [41; 20] 0 = Some [[31; 25]; []].
Proof. vm_compute. reflexivity. Qed.
(** [a[0].f = ..; a[i].f = ..]: the second statement is taken to write every element, and
    the first is no longer a writer of [a[0].f]. *)
Theorem unknown_index_overwrites :
  let stack := Ty_Stack a_header (Some 2) in
  let element e := X_Member 3 e "f" M_Field in
  points_after [variable 100 "a" stack] [S_Assignment 2 (X_Member 3 (X_ArrayIndex 4 (X_Path 5 100) (X_Other 6) (Some 0)) "f" M_Field) (X_Other 7);
    S_Assignment 12 (X_Member 13 (X_ArrayIndex 14 (X_Path 15 100) (X_Other 16) None) "f" M_Field) (X_Other 17)] [12] 2 = Some [[12]].
Proof. vm_compute. reflexivity. Qed.
(** A method that may call either of two actions, which both write [x]: only the second
    is a writer of [x] afterwards. *)
Theorem may_call_runs_in_sequence :
  let action i := C_Action (20 + i) [] [] (S_Block (30 + i) [S_Assignment (40 + i) (X_Path (50 + i) 100) (X_Other (60 + i))]) in
  points_after [variable 100 "x" bit8] [call 3 [action 0; action 1]] [3] 0 = Some [[4; 41]].
Proof. vm_compute. reflexivity. Qed.
(** [return g(y)], where [g] writes [y]: [y] is not written afterwards. *)
Theorem returned_expression_writes_lost :
  let function := C_Function 20 [(DirOut, variable 101 "y" bit8)] [] (S_Block 30 [S_Return 31 (Some (X_Call 32 (X_Other 33) [] [(DirOut, X_Path 34 101)]))]) in
  points_after [] [S_MethodCall 3 (X_Call 4 (X_Other 5) [function] [])] [4] 0 = Some [[]].
Proof. vm_compute. reflexivity. Qed.
Definition after_conditional : Visitor * Shared := match visit_control id 5 20 50 [] [variable 100 "x" bit8] (S_Block 1 conditional) new_visitor no_shared with Done (_, v, h) _ => (v, h) | Aborted _ => (new_visitor, no_shared) end.
(** The writers after its first and after its third assignment. *)
Definition by_2 : writers := {[0 := [2]]}.
Definition by_8 : writers := {[0 := [8]]}.
Lemma example_run : visit_control id 5 20 50 [] [variable 100 "x" bit8] (S_Block 1 conditional) new_visitor no_shared = Done (tt, after_conditional.1, after_conditional.2) [].
Proof. vm_compute. reflexivity. Qed.
Lemma example_bounded : bounded no_shared.
Proof. intros i [d Hd]. change (({[0 := ∅]} : gmap Z Definitions) !! i = Some d) in Hd. apply lookup_singleton_Some in Hd as [<- _]. reflexivity. Qed.
Lemma example_nodes : NoDup (50 :: points_of (S_Block 1 conditional)).
Proof. apply (bool_decide_eq_true_1 (NoDup _)). vm_compute. reflexivity. Qed.
Lemma example_plain : plain (written after_conditional.1) (S_Block 1 conditional) = true.
Proof. vm_compute. reflexivity. Qed.
Definition trace_conditional : list (Z * writers) := [(2, by_2); (6, by_2); (8, by_8); (7, by_8); (5, by_8); (1, by_8)].
Lemma example_path : path (written after_conditional.1) [] (S_Block 1 conditional) ∅ Next by_8 trace_conditional.
Proof.
  apply (path_block _ _ 1 _ _ Next _ [(2, by_2); (6, by_2); (8, by_8); (7, by_8); (5, by_8)]).
  apply (path_cons _ _ _ _ _ by_2 Next _ [(2, by_2)] [(6, by_2); (8, by_8); (7, by_8); (5, by_8)]); [apply path_assignment; vm_compute; reflexivity|].
  apply (path_cons _ _ _ _ _ by_8 Next _ [(6, by_2); (8, by_8); (7, by_8); (5, by_8)] []); [|apply path_nil].
  apply (path_true _ _ 5 (X_Other 6) _ None _ by_2 Next by_8 [(8, by_8); (7, by_8)]); [vm_compute; reflexivity|].
  apply (path_block _ _ 7 _ _ Next _ [(8, by_8)]).
  apply (path_cons _ _ _ _ _ by_8 Next _ [(8, by_8)] []); [|apply path_nil]. apply path_assignment. vm_compute. reflexivity.
Qed.
Lemma example_entry : covered after_conditional.2 (atPoint after_conditional.2 !! [50]) ∅.
Proof. exists 1, {[0 := {[[]]}]}. split; [vm_compute; reflexivity|]. split; [vm_compute; reflexivity|]. done. Qed.
