(* ===== verification/WriteSetParser.v ===== *)
(** * Def-use analysis: parsers

    What expressions write is the same in every run of a parser state, so that the
    paths through the states can be told in advance.  When the loop over
    the states ends, the definitions at every state contain the last writers on
    every path of the parser to it. *)
From S2P Require Import Prelude Ir TypeSubst DefUse DefUseFacts WriteSet WriteSetFacts WriteSetSound.
Local Open Scope flexplan_scope.
Local Open Scope Z_scope.
Implicit Types (ρ : writers) (d : Definitions) (v : Visitor) (h : Shared).

(** ** What is written does not depend on the definitions *)
Definition same v1 h1 v2 h2 : Prop := lhs v1 = lhs v2 /\ written v1 = written v2 /\ storage h1 = storage h2.
Definition agree {A B} (R : A -> B -> Prop) (m1 : W A) (m2 : W B) : Prop :=
  forall v1 h1 v2 h2 a1 v1' h1' ds1 a2 v2' h2' ds2, m1 v1 h1 = Done (a1, v1', h1') ds1 -> m2 v2 h2 = Done (a2, v2', h2') ds2 -> same v1 h1 v2 h2 -> R a1 a2 /\ same v1' h1' v2' h2'.
Definition any {A B} (a : A) (b : B) : Prop := True.
Create HintDb agree.
Lemma agree_bind {A B C D} (R : A -> B -> Prop) (S : C -> D -> Prop) m1 m2 k1 k2 : agree R m1 m2 -> (forall a b, R a b -> agree S (k1 a) (k2 b)) -> agree S (m1 ≫= k1) (m2 ≫= k2).
Proof.
  intros Hm Hk v1 h1 v2 h2 c1 v1' h1' ds1 c2 v2' h2' ds2 (a1 & w1 & g1 & ? & ? & A1 & B1)%wbind_inv (a2 & w2 & g2 & ? & ? & A2 & B2)%wbind_inv Hs.
  destruct (Hm _ _ _ _ _ _ _ _ _ _ _ _ A1 A2 Hs) as [Hr Hs']. by apply (Hk _ _ Hr _ _ _ _ _ _ _ _ _ _ _ _ B1 B2).
Qed.
Lemma agree_any {A B} (R : A -> B -> Prop) m1 m2 : agree R m1 m2 -> agree any m1 m2.
Proof. intros Hm v1 h1 v2 h2 a1 v1' h1' ds1 a2 v2' h2' ds2 A1 A2 Hs. split; [done|]. by apply (Hm _ _ _ _ _ _ _ _ _ _ _ _ A1 A2 Hs). Qed.
Lemma agree_ret {A B} (R : A -> B -> Prop) a b : R a b -> agree R (mret a) (mret b).
Proof. by intros Hr v1 h1 v2 h2 a1 v1' h1' ds1 a2 v2' h2' ds2 [= <- <- <- <-] [= <- <- <- <-] Hs. Qed.
Lemma agree_bug {A B} (R : A -> B -> Prop) why m : agree R (@wbug A why) m.
Proof. by intros v1 h1 v2 h2 a1 v1' h1' ds1 a2 v2' h2' ds2 [=]. Qed.
Lemma agree_bug_r {A B} (R : A -> B -> Prop) why m : agree R m (@wbug B why).
Proof. by intros v1 h1 v2 h2 a1 v1' h1' ds1 a2 v2' h2' ds2 ? [=]. Qed.
Lemma agree_lift {A} (o : outcome A) : agree eq (wlift o) (wlift o).
Proof. intros v1 h1 v2 h2 a1 v1' h1' ds1 a2 v2' h2' ds2. unfold wlift. destruct o; [|discriminate]. by intros [= <- <- <- <-] [= <- <- <- <-]. Qed.
Lemma agree_visitor : agree (fun v1 v2 => lhs v1 = lhs v2 /\ written v1 = written v2) get_visitor get_visitor.
Proof. intros v1 h1 v2 h2 a1 v1' h1' ds1 a2 v2' h2' ds2 [= <- <- <- <-] [= <- <- <- <-] Hs. split; [|done]. by destruct Hs as (? & ? & ?). Qed.
Lemma agree_shared : agree (fun h1 h2 => storage h1 = storage h2) get_shared get_shared.
Proof. intros v1 h1 v2 h2 a1 v1' h1' ds1 a2 v2' h2' ds2 [= <- <- <- <-] [= <- <- <- <-] Hs. split; [|done]. by destruct Hs as (? & ? & ?). Qed.
(** A change of the visitor that keeps its two fields equal. *)
Lemma agree_change f g : (forall v1 v2, lhs v1 = lhs v2 -> written v1 = written v2 -> lhs (f v1) = lhs (g v2) /\ written (f v1) = written (g v2)) -> agree any (change f) (change g).
Proof.
  intros Hf v1 h1 v2 h2 a1 v1' h1' ds1 a2 v2' h2' ds2 [= <- <- <- <-] [= <- <- <- <-] (Hl & Hw & Hs). split; [done|]. destruct (Hf v1 v2 Hl Hw). by split_and!.
Qed.
Lemma agree_new d1 d2 : agree any (new_definitions d1) (new_definitions d2).
Proof. intros v1 h1 v2 h2 a1 v1' h1' ds1 a2 v2' h2' ds2 (_ & -> & _ & _ & _ & E1)%new_inv (_ & -> & _ & _ & _ & E2)%new_inv (Hl & Hw & Hs). split; [done|]. split_and!; [done|done|congruence]. Qed.
Lemma agree_join p1 q1 p2 q2 : agree any (join_objects p1 q1) (join_objects p2 q2).
Proof.
  intros v1 h1 v2 h2 a1 v1' h1' ds1 a2 v2' h2' ds2 (? & ? & ? & ? & _ & _ & _ & _ & _ & -> & _ & _ & _ & E1)%join_objects_inv (? & ? & ? & ? & _ & _ & _ & _ & _ & -> & _ & _ & _ & E2)%join_objects_inv (Hl & Hw & Hs).
  split; [done|]. split_and!; [done|done|congruence].
Qed.
Lemma agree_set p1 p2 node : agree any (setDefinitions p1 node) (setDefinitions p2 node).
Proof. intros v1 h1 v2 h2 a1 v1' h1' ds1 a2 v2' h2' ds2 (-> & _ & _ & _ & E1)%setDefinitions_inv (-> & _ & _ & _ & E2)%setDefinitions_inv (Hl & Hw & Hs). split; [done|]. split_and!; [done|done|congruence]. Qed.
Lemma agree_deref p1 p2 : agree any (deref p1) (deref p2).
Proof. by intros v1 h1 v2 h2 a1 v1' h1' ds1 a2 v2' h2' ds2 (-> & -> & _)%deref_inv (-> & -> & _)%deref_inv Hs. Qed.
Lemma agree_not_null {A B} (o1 : option A) (o2 : option B) : agree any (not_null o1) (not_null o2).
Proof. destruct o1, o2; cbn [not_null]; [by apply agree_ret|apply agree_bug_r|apply agree_bug..]. Qed.
#[export] Hint Resolve agree_bug agree_lift agree_visitor agree_shared agree_new agree_join agree_set agree_deref agree_not_null : agree.
Lemma agree_getWrites e : agree eq (getWrites e) (getWrites e).
Proof.
  unfold getWrites. eapply agree_bind; [apply agree_visitor|]. intros v1 v2 [_ Hw]. cbv beta. rewrite Hw. destruct (written v2 !! expr_id e); [by apply agree_ret|apply agree_bug].
Qed.
Lemma agree_expressionWrites id s : agree any (expressionWrites id s) (expressionWrites id s).
Proof. unfold expressionWrites. apply agree_change. intros v1 v2 Hl Hw. cbn. rewrite Hw. by split. Qed.
Lemma agree_is_lhs : agree eq is_lhs is_lhs.
Proof. unfold is_lhs. eapply agree_bind; [apply agree_visitor|]. intros v1 v2 [Hl _]. by apply agree_ret. Qed.
Lemma agree_with_lhs b : agree any (change (with_lhs b)) (change (with_lhs b)).
Proof. by apply agree_change. Qed.
Lemma agree_current p q : agree any (change (with_current p)) (change (with_current q)).
Proof. by apply agree_change. Qed.
Lemma agree_in_lhs b m : agree any m m -> agree any (in_lhs b m) (in_lhs b m).
Proof.
  intros Hm. unfold in_lhs. eapply agree_bind; [apply agree_visitor|]. intros v1 v2 [Hl _]. eapply agree_bind; [apply agree_with_lhs|intros _ _ _]. eapply agree_bind; [exact Hm|intros _ _ _]. rewrite Hl. apply agree_with_lhs.
Qed.
#[export] Hint Resolve agree_getWrites agree_expressionWrites agree_is_lhs agree_with_lhs agree_current agree_in_lhs : agree.
Lemma agree_for_all {A} (f : A -> W unit) xs : (forall x, x ∈ xs -> agree any (f x) (f x)) -> agree any (for_all f xs) (for_all f xs).
Proof.
  induction xs as [|x xs IH]; intros Hf; cbn [for_all]; [by apply agree_ret|]. eapply agree_bind; [apply Hf; left|intros _ _ _]. apply IH. intros y Hy. apply Hf. by right.
Qed.
Lemma agree_join_written es : forall s, agree eq (join_written es s) (join_written es s).
Proof. induction es as [|e es IH]; intros s; cbn [join_written]; [by apply agree_ret|]. eapply agree_bind; [apply agree_getWrites|]. intros w1 w2 ->. apply IH. Qed.
Lemma agree_join_out f args : (forall a, a ∈ args -> agree any (f a.2) (f a.2)) -> forall s, agree eq (join_out args f s) (join_out args f s).
Proof.
  induction args as [|[dir e] args IH]; intros Hf s; cbn [join_out]; [by apply agree_ret|]. eapply agree_bind; [apply agree_in_lhs, (Hf (dir, e)), list_elem_of_here|intros _ _ _].
  assert (Hr : forall s, agree eq (join_out args f s) (join_out args f s)) by (apply IH; intros a Ha; apply Hf; by right).
  destruct dir; try apply Hr; (eapply agree_bind; [apply agree_getWrites|]; intros w1 w2 ->; apply Hr).
Qed.
#[export] Hint Resolve agree_join_written : agree.
Ltac agree_step :=
  match goal with
  | |- agree any (wlift _) (wlift _) => eapply agree_any, agree_lift
  | |- agree _ (mbind (A := unit) _ _) _ => eapply (agree_bind any); [|intros _ _ _]
  | |- agree _ (_ ≫= _) (_ ≫= _) => eapply agree_bind; [|intros ? ? ?]
  | |- agree _ (for_all _ _) (for_all _ _) => apply agree_for_all; intros ? ?
  | |- agree _ (in_lhs _ _) (in_lhs _ _) => apply agree_in_lhs
  | |- agree _ (join_out _ _ _) _ => apply agree_join_out; intros ? ?
  | H : ?a = ?b |- agree _ _ _ => is_var a; subst a
  | |- agree _ (match ?x with _ => _ end) (match ?x with _ => _ end) => destruct x eqn:?
  | _ => first [apply agree_ret; exact I | solve [eauto with agree]]
  end.
Section visitor.
Context (getTypeType : IRType -> IRType) (typeFuel : nat) (w : gmap Z LocationSet).
Notation visit := (visit getTypeType typeFuel).
Notation visit_statement := (visit_statement getTypeType typeFuel).
Lemma visit_agree fuel : forall e, call_free e = true -> agree any (visit fuel e) (visit fuel e).
Proof.
  induction fuel as [|fuel IH]; intros e He; [apply agree_bug|]. cbn [WriteSet.visit].
  destruct e; cbn [call_free] in He; repeat (apply andb_true_iff in He as [He ?]); repeat (agree_step || (apply IH; assumption)).
  all: try (apply bool_decide_eq_true in He; discriminate He).
  - cbv beta in *. match goal with E : storage _ = storage _ |- _ => rewrite E end. auto with agree.
  - pose proof (forallb_in _ _ _ H H0) as [? _]%andb_true_iff. by apply IH.
  - pose proof (forallb_in _ _ _ H H0) as [_ ?]%andb_true_iff. by apply IH.
  - pose proof (forallb_in _ _ _ He H). by apply IH.
  - pose proof (forallb_in _ _ _ H H1). by apply IH.
  Unshelve. all: exact any.
Qed.
Lemma write_at_agree point node s : agree any (write_at point node s) (write_at point node s).
Proof.
  unfold write_at, getProgramPoint. eapply agree_bind; [apply agree_visitor|intros v1 v2 _]. eapply agree_bind; [apply agree_deref|intros d1 d2 _]. eapply (agree_bind any).
  - eapply agree_bind; [apply agree_visitor|intros u1 u2 _]. by apply agree_ret.
  - intros p1 p2 _. eapply agree_bind; [apply agree_new|intros q1 q2 _]. apply agree_set.
Qed.
Lemma branches_agree f cases : (forall c, c ∈ cases -> agree any (f c.2) (f c.2)) -> forall save1 save2 r1 r2, agree any (visit_branches f save1 cases r1) (visit_branches f save2 cases r2).
Proof.
  induction cases as [|[b c] cases IH]; intros Hf save1 save2 r1 r2; cbn [visit_branches]; [by apply agree_ret|]. eapply agree_bind; [apply agree_current|intros _ _ _]. eapply agree_bind; [apply (Hf (b, c)), list_elem_of_here|intros _ _ _].
  eapply agree_bind; [apply agree_visitor|intros v1 v2 _]. eapply agree_bind; [apply agree_join|intros p1 p2 _]. apply IH. intros x Hx. apply Hf. by right.
Qed.
Lemma statement_agree fuel : forall s, plain w s = true -> agree any (visit_statement fuel s) (visit_statement fuel s).
Proof.
  induction fuel as [|fuel IH]; intros s Hs; [apply agree_bug|]. cbn [WriteSet.visit_statement].
  destruct s; cbn [plain] in Hs; repeat (apply andb_true_iff in Hs as [Hs ?]); repeat (agree_step || (apply IH; assumption) || (apply visit_agree; assumption) || apply write_at_agree || (apply branches_agree; intros ? ?)).
  - pose proof (forallb_in _ _ _ H H0) as Hc. cbv beta in Hc. match goal with E : _.2 = Some _ |- _ => rewrite E in Hc end. by apply IH.
  - pose proof (forallb_in _ _ _ Hs H) as Hc. by apply IH.
  - apply andb_true_iff in Hs as [Hs _]. by apply visit_agree.
  - by apply agree_change.
  - by apply agree_change.
Qed.
(** The definitions at a statement are those after it. *)
Definition settles (id : Z) (m : W unit) : Prop := forall v h a v' h' ds, m v h = Done (a, v', h') ds -> atPoint h' !! point_in (callingContext v') id = currentDefinitions v'.
Lemma settles_bind {A} id (m : W A) k : (forall a, settles id (k a)) -> settles id (m ≫= k).
Proof. intros Hk v h b v' h' ds (a & v1 & h1 & ? & ? & _ & H2)%wbind_inv. by apply (Hk _ _ _ _ _ _ _ H2). Qed.
Lemma settles_set id p : settles id (setDefinitions p id).
Proof. intros v h a v' h' ds (-> & _ & _ & Ea & _)%setDefinitions_inv. rewrite Ea. cbn. by rewrite lookup_insert_eq. Qed.
Definition is_declaration (s : Statement) : bool := match s with S_Declaration _ => true | _ => false end.
Lemma statement_settles fuel s : is_declaration s = false -> settles (stmt_id s) (visit_statement fuel s).
Proof.
  intros Hs. destruct fuel as [|fuel]; [by intros v h a v' h' ds [=]|]. cbn [WriteSet.visit_statement]. unfold write_at.
  destruct s; try discriminate Hs; cbn [stmt_id]; repeat first [apply settles_set | apply settles_bind; intros ? | match goal with |- settles _ (match ?x with _ => _ end) => destruct x end].
Qed.

(** ** Runs of a state *)
Context (states : Z -> option State) (transitions : Z -> list Z).
Notation visit_state := (visit_state getTypeType typeFuel).
(** No callee is entered, nothing is returned, and declarations have been moved out. *)
Definition plain_state (s : State) : bool :=
  forallb (fun c => plain w c && negb (is_declaration c)) (components s) && match selectExpression s with Some e => call_free e | None => true end.
Definition state_points (s : State) : list Z := concat (map points_of (components s)).
Lemma state_agree fuel s : plain_state s = true -> agree any (visit_state fuel s) (visit_state fuel s).
Proof.
  intros [Hc He]%andb_true_iff. unfold WriteSet.visit_state. eapply (agree_bind any).
  - apply agree_for_all. intros c Hin. apply statement_agree. by apply (forallb_in _ _ _ Hc) in Hin as [? _]%andb_true_iff.
  - intros _ _ _. destruct (selectExpression s); [by apply visit_agree|by apply agree_ret].
Qed.
End visitor.

Section runs.
Context (getTypeType : IRType -> IRType) (typeFuel : nat).
Notation visit_statement := (visit_statement getTypeType typeFuel).
Notation visit_state := (visit_state getTypeType typeFuel).
Lemma settles_last (f : Statement -> W unit) ss c : last ss = Some c -> settles (stmt_id c) (f c) -> settles (stmt_id c) (for_all f ss).
Proof.
  intros Hl Hf. induction ss as [|s ss IH]; [discriminate Hl|]. cbn [for_all]. destruct ss as [|s' ss].
  - injection Hl as ->. intros v h a v' h' ds ([] & v1 & h1 & ? & ? & H1 & H2)%wbind_inv. injection H2 as _ <- <- _. by apply (Hf _ _ _ _ _ _ H1).
  - apply settles_bind. intros _. by apply IH.
Qed.
Section state.
Context (w : gmap Z LocationSet) (fuel : nat) (n : Z) (s : State).
Context (Hplain : plain_state w s = true).
Lemma plain_component c : c ∈ components s -> plain w c = true /\ is_declaration c = false.
Proof. intros Hin. apply andb_true_iff in Hplain as [Hcs _]. apply (forallb_in _ _ _ Hcs) in Hin as [Hp Hd]%andb_true_iff. split; [done|by destruct (is_declaration c)]. Qed.
Lemma select_quiet : quiet (match selectExpression s with Some e => visit getTypeType typeFuel fuel e | None => mret tt end).
Proof. apply andb_true_iff in Hplain as [_ He]. apply keeps_quiet. destruct (selectExpression s); [by apply visit_keeps|apply keeps_ret]. Qed.
Lemma components_sim : sim w [n] (state_points s) (path_all w [n] (components s)) (for_all (visit_statement fuel) (components s)).
Proof. apply sim_all. intros c Hin. apply statement_sim. by apply plain_component. Qed.
Lemma state_frames v h a v' h' ds : visit_state fuel s v h = Done (a, v', h') ds -> bounded h -> callingContext v = [n] -> frames (state_points s) v h v' h'.
Proof.
  intros ([] & v1 & h1 & ? & ? & H1 & H2)%wbind_inv Hb Hc. destruct (components_sim _ _ _ _ _ _ H1 Hb Hc) as [F1 _]. destruct (quiet_frames _ _ _ _ _ _ _ select_quiet H2 (frames_bounded _ _ _ _ _ F1)) as (F2 & _ & ->).
  apply (frames_trans _ _ _ _ _ _ _ _ F1) in F2. by rewrite app_nil_r in F2.
Qed.
Lemma state_run v h a v' h' ds : visit_state fuel s v h = Done (a, v', h') ds -> NoDup (state_points s) -> bounded h -> callingContext v = [n] -> written v' ⊆ w ->
  (forall c, last (components s) = Some c -> atPoint h' !! [n; stmt_id c] = currentDefinitions v') /\
  (forall ρ ρ' trace, path_all w [n] (components s) ρ Next ρ' trace -> covered h (currentDefinitions v) ρ -> covered h' (currentDefinitions v') ρ' /\ traced [n] (state_points s) h' trace).
Proof.
  intros ([] & v1 & h1 & ? & ? & H1 & H2)%wbind_inv Hnd Hb Hc Hw. destruct (components_sim _ _ _ _ _ _ H1 Hb Hc) as [F1 S1].
  destruct (quiet_frames _ _ _ _ _ _ _ select_quiet H2 (frames_bounded _ _ _ _ _ F1)) as (F2 & Ecur & ->). split.
  - intros c Hl. rewrite Ecur. assert (Hin : c ∈ components s) by (by apply last_Some_elem_of). destruct (plain_component c Hin) as [_ Hd].
    pose proof (settles_last _ _ _ Hl (statement_settles getTypeType typeFuel fuel c Hd) _ _ _ _ _ _ H1) as Hs. by rewrite (frames_context _ _ _ _ _ F1), Hc in Hs.
  - intros ρ ρ' trace Hp Hcov. rewrite Ecur. apply (S1 Hnd) in Hp; [done| |done]. etrans; [apply (frames_written _ _ _ _ _ F2)|done].
Qed.
End state.
End runs.

(** ** The loop over the states *)
Definition defined_at h (n : Z) ρ : Prop := covered h (atPoint h !! [n]) ρ.
(** The definitions at states are objects of the store. *)
Definition valid h : Prop := forall n p, atPoint h !! [n] = Some p -> is_Some (heap h !! p).
(** What a step of the loop does to the definitions at states: they grow, and only
    those of states that are to be run. *)
Record spread h (toRun : list Z) h' (toRun' : list Z) : Prop := {
  spread_heap : heap h ⊆ heap h';
  spread_bounded : bounded h';
  spread_valid : valid h';
  spread_storage : storage h' = storage h;
  spread_points : forall pt, length pt <> 1%nat -> atPoint h' !! pt = atPoint h !! pt;
  spread_grows : forall n ρ, defined_at h n ρ -> defined_at h' n ρ;
  spread_same : forall n, n ∉ toRun' -> forall ρ, ρ <> ∅ -> defined_at h' n ρ -> defined_at h n ρ;
  spread_toRun : forall n, n ∈ toRun -> n ∈ toRun' }.
Lemma spread_refl h toRun : bounded h -> valid h -> spread h toRun h toRun.
Proof. by split. Qed.
Lemma spread_trans h t h1 t1 h2 t2 : spread h t h1 t1 -> spread h1 t1 h2 t2 -> spread h t h2 t2.
Proof.
  intros [] []. split; [by etrans|done|done|congruence| |auto| |auto].
  - intros pt Hpt. rewrite spread_points1, spread_points0; done.
  - intros n Hn ρ Hρ Hd. apply spread_same0; [|done|]; [|by apply spread_same1]. intros Hin. by apply Hn, spread_toRun1.
Qed.
Lemma covers_nonempty d ρ : covers d ρ -> ρ <> ∅ -> d <> ∅.
Proof. intros Hc Hρ ->. apply Hρ. unfold writers in *. apply map_eq. intros i. rewrite lookup_empty. destruct (ρ !! i) as [p|] eqn:E; [|done]. by destruct (Hc i p E) as (P & HP & _). Qed.
Lemma defined_back h h' n ρ : heap h ⊆ heap h' -> valid h -> atPoint h' !! [n] = atPoint h !! [n] -> defined_at h' n ρ -> defined_at h n ρ.
Proof.
  unfold defined_at. intros Hs Hv -> (p & d & Hp & Hd & Hc). destruct (Hv n p Hp) as [d' Hd']. pose proof (lookup_weaken _ _ _ _ Hd' Hs). exists p, d'. split; [done|]. split; [done|]. by simplify_eq.
Qed.
Lemma spread_set h toRun h' toRun' m q : valid h -> heap h ⊆ heap h' -> bounded h' -> storage h' = storage h -> atPoint h' = <[[m] := q]> (atPoint h) -> is_Some (heap h' !! q) ->
  (forall ρ, defined_at h m ρ -> covered h' (Some q) ρ) -> (m ∉ toRun' -> forall ρ, ρ <> ∅ -> covered h' (Some q) ρ -> defined_at h m ρ) -> (forall n, n ∈ toRun -> n ∈ toRun') -> spread h toRun h' toRun'.
Proof.
  intros Hv Hs Hb Hst Ha Hq Hup Hdown Ht. assert (Hm : atPoint h' !! [m] = Some q) by (by rewrite Ha, lookup_insert_eq). assert (Hne : forall n, n <> m -> atPoint h' !! [n] = atPoint h !! [n]).
  { intros n Hn. rewrite Ha, lookup_insert_ne; [done|]. by intros [= ->]. }
  split; [done|done| |done| | | |done].
  - intros n p Hp. destruct (decide (n = m)) as [->|Hn]; [by simplify_eq|]. rewrite Hne in Hp by done. destruct (Hv n p Hp) as [d Hd]. exists d. by eapply lookup_weaken.
  - intros pt Hpt. rewrite Ha, lookup_insert_ne; [done|]. by intros <-.
  - intros n ρ Hd. destruct (decide (n = m)) as [->|Hn]; [unfold defined_at; rewrite Hm; by apply Hup|]. unfold defined_at. rewrite Hne by done. by eapply covered_mono.
  - intros n Hn ρ Hρ Hd. destruct (decide (n = m)) as [->|Hnm]; [|by apply (defined_back h h'); [| |apply Hne|]]. apply Hdown; [done|done|]. unfold defined_at in Hd. by rewrite Hm in Hd.
Qed.
Lemma spread_object h toRun h' : valid h -> heap h ⊆ heap h' -> bounded h' -> storage h' = storage h -> atPoint h' = atPoint h -> spread h toRun h' toRun.
Proof.
  intros Hv Hs Hb Hst Ha. split; [done|done| |done|by rewrite Ha| | |done].
  - intros n p Hp. rewrite Ha in Hp. destruct (Hv n p Hp) as [d Hd]. exists d. by eapply lookup_weaken.
  - intros n ρ Hd. unfold defined_at. rewrite Ha. by eapply covered_mono.
  - intros n _ ρ _ Hd. apply (defined_back h h'); [done|done|by rewrite Ha|done].
Qed.
Lemma getDefinitions_run m toRun v h p v' h' ds : getDefinitions [m] true v h = Done (p, v', h') ds -> bounded h -> valid h -> v' = v /\ atPoint h' !! [m] = Some p /\ spread h toRun h' toRun.
Proof.
  unfold getDefinitions. intros (x & v1 & h1 & ? & ? & H1 & H2)%wbind_inv Hb Hv. injection H1 as <- <- <- _. match type of H2 with context [match ?t with _ => _ end] => destruct t as [q|] eqn:E end.
  - change (atPoint h !! [m] = Some q) in E. injection H2 as -> <- <- _. split; [done|]. split; [done|by apply spread_refl].
  - change (atPoint h !! [m] = None) in E. apply wbind_inv in H2 as (q & v2 & h2 & ? & ? & H2 & ([] & v3 & h3 & ? & ? & H3 & H4)%wbind_inv). apply new_inv in H2 as (-> & -> & Eh & Ef & Ea & Es). injection H4 as <- <- <- _. injection H3 as <- <- _.
    destruct (bounded_new _ _ _ Hb Eh Ef) as [Hb2 Hs]. cbn. rewrite lookup_insert_eq. split; [done|]. split; [done|].
    apply (spread_set h toRun _ toRun m (fresh h)); cbn; [done|done|done|done|by rewrite Ea|rewrite Eh, lookup_insert_eq; by eexists| | |done].
    + intros ρ (p & d & Hp & _). rewrite E in Hp. discriminate Hp.
    + intros _ ρ Hρ (p & d & [= <-] & Hd & Hc). cbn in Hd. rewrite Eh, lookup_insert_eq in Hd. injection Hd as <-. exfalso. by apply (covers_nonempty _ _ Hc Hρ).
Qed.
Lemma propagate_spread after next : forall toRun v h toRun' v' h' ds, propagate after next toRun v h = Done (toRun', v', h') ds -> bounded h -> valid h -> callingContext v = [] ->
  spread h toRun h' toRun' /\ callingContext v' = [] /\ forall m ρ, m ∈ next -> covered h (Some after) ρ -> defined_at h' m ρ.
Proof.
  induction next as [|n next IH]; intros toRun v h toRun' v' h' ds He Hb Hv Hc; cbn [propagate] in He.
  { injection He as -> <- <- _. split; [by apply spread_refl|]. split; [done|]. intros m ρ Hm. by apply not_elem_of_nil in Hm. }
  apply wbind_inv in He as (p & v1 & h1 & ? & ? & H1 & (q & v2 & h2 & ? & ? & H2 & (d & v3 & h3 & ? & ? & H3 & (d' & v4 & h4 & ? & ? & H4 & H5)%wbind_inv)%wbind_inv)%wbind_inv).
  destruct (getDefinitions_run n toRun _ _ _ _ _ _ H1 Hb Hv) as (-> & Hp & S1). pose proof H2 as (e & a & na & nb & [= <-] & He & [= <-] & Ha & Hq & -> & Eh & Ef & Ea & Es)%join_objects_inv.
  destruct (bounded_new _ _ _ (spread_bounded _ _ _ _ S1) Eh Ef) as [Hb2 Hs2]. pose proof (spread_object h1 toRun h2 (spread_valid _ _ _ _ S1) Hs2 Hb2 Es Ea) as S2. pose proof (spread_trans _ _ _ _ _ _ S1 S2) as S12.
  apply deref_inv in H3 as (-> & -> & nc & [= <-] & Hd). apply deref_inv in H4 as (-> & -> & nd & [= <-] & Hd'). assert (d = e) as -> by (pose proof (lookup_weaken _ _ _ _ He Hs2); by simplify_eq).
  rewrite Hq, Eh, lookup_insert_eq in Hd'. injection Hd' as <-. assert (Hafter : forall ρ, covered h (Some after) ρ -> covered h1 (Some after) ρ) by (intros ρ; apply covered_mono, (spread_heap _ _ _ _ S1)).
  destruct (definitions_eqb e (joinDefinitions e a)) eqn:Eq.
  - apply definitions_eqb_spec in Eq. destruct (IH _ _ _ _ _ _ _ H5 Hb2 (spread_valid _ _ _ _ S2) Hc) as (S5 & Hc' & P5). split; [by eapply spread_trans|]. split; [done|]. intros m ρ [->|Hm]%elem_of_cons Hcov.
    + apply (spread_grows _ _ _ _ S5). unfold defined_at. rewrite Ea, Hp. exists p, e. split; [done|]. split; [done|]. rewrite Eq. apply Hafter in Hcov as (z & a' & [= <-] & Ha' & Hcov). simplify_eq. by apply covers_join_r.
    + apply P5; [done|]. eapply covered_mono; [exact Hs2|by apply Hafter].
  - apply wbind_inv in H5 as ([] & v5 & h5 & ? & ? & H5 & H6). apply setDefinitions_inv in H5 as (-> & Eh5 & Ef5 & Ea5 & Es5). rewrite Hc in Ea5.
    assert (Hjoin : forall ρ, covered h1 (Some p) ρ \/ covered h1 (Some after) ρ -> covered h5 (Some q) ρ).
    { intros ρ Hor. apply (covered_mono h2); [by rewrite Eh5|]. by apply (join_covered _ _ _ _ _ _ _ _ _ H2). }
    assert (S5 : spread h2 toRun h5 (if existsb (Z.eqb n) toRun then toRun else toRun ++ [n])).
    { apply (spread_set h2 toRun h5 _ n q); [by apply (spread_valid _ _ _ _ S2)|by rewrite Eh5| |done|done|rewrite Eh5, Hq, Eh, lookup_insert_eq; by eexists| | |].
      - intros i Hi. rewrite Eh5 in Hi. rewrite Ef5. by apply Hb2.
      - intros ρ Hd0. apply Hjoin. left. apply (defined_back h1 h2) in Hd0; [|exact Hs2|apply (spread_valid _ _ _ _ S1)|by rewrite Ea]. unfold defined_at in Hd0. by rewrite Hp in Hd0.
      - intros Hn. exfalso. apply Hn. destruct (existsb (Z.eqb n) toRun) eqn:Ex; [|apply elem_of_app; right; left]. apply existsb_exists in Ex as (z & Hz & ->%Z.eqb_eq). by apply list_elem_of_In.
      - intros z Hz. destruct (existsb _ _); [done|]. apply elem_of_app. by left. }
    destruct (IH _ _ _ _ _ _ _ H6 (spread_bounded _ _ _ _ S5) (spread_valid _ _ _ _ S5) Hc) as (S6 & Hc' & P6). split; [by eapply spread_trans, spread_trans|]. split; [done|]. intros m ρ [->|Hm]%elem_of_cons Hcov.
    + apply (spread_grows _ _ _ _ S6). unfold defined_at. rewrite Ea5. change (point_in [] n) with [n]. rewrite lookup_insert_eq. apply Hjoin. right. by apply Hafter.
    + apply P6; [done|]. eapply covered_mono; [etrans; [exact Hs2|by rewrite Eh5]|by apply Hafter].
Qed.

(** ** Paths of a parser *)
Scheme path_mut := Minimality for path Sort Prop with path_all_mut := Minimality for path_all Sort Prop.
Lemma overwrite_keeps s p ρ i : is_Some (ρ !! i) -> is_Some (overwrite s p ρ !! i).
Proof. rewrite overwrite_lookup. destruct (canonicalize s !! i); [by eexists|done]. Qed.
Lemma path_all_keeps w context ss ρ k ρ' trace : path_all w context ss ρ k ρ' trace -> forall i, is_Some (ρ !! i) -> is_Some (ρ' !! i).
Proof.
  revert ss ρ k ρ' trace. apply (path_all_mut w context (fun _ ρ _ ρ' _ => forall i, is_Some (ρ !! i) -> is_Some (ρ' !! i)) (fun _ ρ _ ρ' _ => forall i, is_Some (ρ !! i) -> is_Some (ρ' !! i)));
    intros; subst; auto using overwrite_keeps. destruct e; auto using overwrite_keeps.
Qed.
Lemma path_all_nonempty w context ss ρ k ρ' trace : path_all w context ss ρ k ρ' trace -> ρ <> ∅ -> ρ' <> ∅.
Proof.
  intros Hp Hρ ->. apply Hρ. unfold writers in *. apply map_eq. intros i. rewrite lookup_empty. destruct (ρ !! i) as [p|] eqn:E; [|done]. by destruct (path_all_keeps _ _ _ _ _ _ _ Hp i (mk_is_Some _ _ E)).
Qed.
Section parser.
Context (getTypeType : IRType -> IRType) (typeFuel fuel : nat) (states : Z -> option State) (transitions : Z -> list Z) (w : Z -> gmap Z LocationSet).
Notation visit_state := (visit_state getTypeType typeFuel).
(** [arrives start ρ0 n ρ]: a path of the parser from [start] with the writers [ρ0]
    comes to the state [n] with [ρ]. *)
Inductive arrives (start : Z) (ρ0 : writers) : Z -> writers -> Prop :=
| arrives_start : arrives start ρ0 start ρ0
| arrives_next n ρ s ρ' trace m : arrives start ρ0 n ρ -> states n = Some s -> path_all (w n) [n] (components s) ρ Next ρ' trace -> m ∈ transitions n -> arrives start ρ0 m ρ'.
(** [w n] is what the expressions of [n] write, in a store with the given storage. *)
Definition writes_of_states (storage_ : gmap Z StorageLocation) : Prop := forall n s, states n = Some s -> plain_state (w n) s = true /\ NoDup (state_points s) /\
  exists v0 h0 v1 h1 ds, lhs v0 = false /\ written v0 = ∅ /\ storage h0 = storage_ /\ visit_state fuel s v0 h0 = Done (tt, v1, h1) ds /\ w n = written v1.
(** Where the loop need not go any more. *)
Definition closed h (toRun : list Z) : Prop := forall n s, n ∉ toRun -> states n = Some s -> forall ρ ρ' trace, ρ <> ∅ -> defined_at h n ρ -> path_all (w n) [n] (components s) ρ Next ρ' trace ->
  (forall m, m ∈ transitions n -> defined_at h m ρ') /\ traced [n] (state_points s) h trace.
Record looping (storage_ : gmap Z StorageLocation) v h (toRun : list Z) : Prop := {
  looping_bounded : bounded h; looping_valid : valid h; looping_context : callingContext v = []; looping_storage : storage h = storage_; looping_closed : closed h toRun }.
Definition state_end n (s : State) : ProgramPoint := match last (components s) with None => [n] | Some c => [n; stmt_id c] end.
Lemma getDefinitions_known pt v h p v' h' ds : getDefinitions pt false v h = Done (p, v', h') ds -> v' = v /\ h' = h /\ atPoint h !! pt = Some p.
Proof.
  unfold getDefinitions. intros (x & v1 & h1 & ? & ? & H1 & H2)%wbind_inv. injection H1 as <- <- <- _. match type of H2 with context [match ?t with _ => _ end] => destruct t as [q|] eqn:E end; [|discriminate H2].
  injection H2 as -> <- <- _. done.
Qed.
Lemma run_state_run n toRun v h toRun' v' h' ds : run_state getTypeType typeFuel states transitions fuel n toRun v h = Done (toRun', v', h') ds ->
  exists p s cw h1 after ds1 ds2, atPoint h !! [n] = Some p /\ states n = Some s /\ visit_state fuel s (clone_visitor [n] (with_current (Some p) v)) h = Done (tt, cw, h1) ds1 /\
    atPoint h1 !! state_end n s = Some after /\ propagate after (transitions n) toRun (with_current (Some p) v) h1 = Done (toRun', v', h') ds2.
Proof.
  unfold run_state. intros (p & v1 & h1 & ? & ? & H1 & ([] & v2 & h2 & ? & ? & H2 & (s & v3 & h3 & ? & ? & H3 & (vis & v4 & h4 & ? & ? & H4 & (cw & v5 & h5 & ? & ? & H5 & (after & v6 & h6 & ? & ? & H6 & H7)%wbind_inv)%wbind_inv)%wbind_inv)%wbind_inv)%wbind_inv)%wbind_inv.
  apply getDefinitions_known in H1 as (-> & -> & Hp). injection H2 as <- <- _. destruct (states n) as [s'|]; [|discriminate H3]. injection H3 as -> <- <- _. injection H4 as <- <- <- _.
  unfold run_in in H5. destruct (visit_state fuel s _ h) as [[[[] cw'] h5'] ds5|] eqn:E; [|discriminate H5]. injection H5 as <- <- <- _. apply getDefinitions_known in H6 as (-> & -> & Ha).
  exists p, s, cw', h5', after. do 2 eexists. split_and!; [done|done|exact E| |exact H7]. unfold state_end. unfold point_in in Ha. by destruct (last (components s)).
Qed.
Lemma state_written storage_ n s v h cw h1 ds : writes_of_states storage_ -> states n = Some s -> storage h = storage_ -> lhs v = false -> written v = ∅ -> visit_state fuel s v h = Done (tt, cw, h1) ds -> written cw = w n.
Proof.
  intros Hw Hs Hst Hl Hwr Hrun. destruct (Hw n s Hs) as (Hpl & _ & v0 & h0 & v1 & g1 & ? & Hl0 & Hw0 & Hst0 & Hrun0 & ->).
  apply (state_agree getTypeType typeFuel (w n) fuel s Hpl _ _ _ _ _ _ _ _ _ _ _ _ Hrun Hrun0). split_and!; [by rewrite Hl0|by rewrite Hw0|congruence].
Qed.
Lemma run_state_loops storage_ n toRun v h toRun' v' h' ds : run_state getTypeType typeFuel states transitions fuel n toRun v h = Done (toRun', v', h') ds -> writes_of_states storage_ -> looping storage_ v h (n :: toRun) ->
  looping storage_ v' h' toRun' /\ forall m ρ, defined_at h m ρ -> defined_at h' m ρ.
Proof.
  intros (p & s & cw & h1 & after & ? & ? & Hp & Hs & Hrun & Hafter & Hprop)%run_state_run Hw [Hb Hv Hc Hst Hcl]. destruct (Hw n s Hs) as (Hpl & Hnd & _). pose proof (state_written storage_ n s (clone_visitor [n] (with_current (Some p) v)) _ _ _ _ Hw Hs Hst eq_refl eq_refl Hrun) as Hwritten.
  pose proof (state_frames getTypeType typeFuel (w n) fuel n s Hpl _ _ _ _ _ _ Hrun Hb eq_refl) as F1. destruct (state_run getTypeType typeFuel (w n) fuel n s Hpl _ _ _ _ _ _ Hrun Hnd Hb eq_refl ltac:(by rewrite Hwritten)) as (Hlast & Hpaths).
  assert (Hother : forall m, atPoint h1 !! [m] = atPoint h !! [m]) by (intros m; apply (frames_points _ _ _ _ _ F1); intros i _ [=]).
  assert (Hv1 : valid h1). { intros m q Hq. rewrite Hother in Hq. destruct (Hv m q Hq) as [d Hd]. exists d. eapply lookup_weaken; [exact Hd|apply (frames_heap _ _ _ _ _ F1)]. }
  destruct (propagate_spread _ _ _ _ _ _ _ _ _ Hprop (frames_bounded _ _ _ _ _ F1) Hv1 Hc) as (S2 & Hc' & Hnext).
  assert (Hgrow : forall m ρ, defined_at h m ρ -> defined_at h' m ρ).
  { intros m ρ Hd. apply (spread_grows _ _ _ _ S2). unfold defined_at. rewrite Hother. eapply covered_mono; [apply (frames_heap _ _ _ _ _ F1)|done]. }
  assert (Htrace : forall pts m t, traced [m] pts h1 t -> traced [m] pts h' t).
  { intros pts m t Ht i ρ Hi. destruct (Ht i ρ Hi) as [Hpt Hci]. split; [done|]. rewrite (spread_points _ _ _ _ S2) by done. eapply covered_mono; [apply (spread_heap _ _ _ _ S2)|done]. }
  split; [|exact Hgrow]. split; [apply (spread_bounded _ _ _ _ S2)|apply (spread_valid _ _ _ _ S2)|done|by rewrite (spread_storage _ _ _ _ S2), (frames_storage _ _ _ _ _ F1)|].
  intros m sm Hm Hsm ρ ρ' trace Hρ Hd Hpath. apply (spread_same _ _ _ _ S2 m Hm ρ Hρ) in Hd. apply (defined_back h h1) in Hd; [|apply (frames_heap _ _ _ _ _ F1)|done|by apply Hother]. destruct (decide (m = n)) as [->|Hne].
  - rewrite Hs in Hsm. injection Hsm as <-. unfold defined_at in Hd. rewrite Hp in Hd. destruct (Hpaths ρ ρ' trace Hpath Hd) as [Hcur Htr]. split; [|by apply Htrace]. intros k Hk. apply (Hnext k ρ' Hk). unfold state_end in Hafter.
    destruct (last (components s)) as [c|] eqn:El; [by rewrite <- (Hlast c eq_refl : _ = currentDefinitions cw), (Hafter : atPoint h1 !! [n; stmt_id c] = Some after) in Hcur|]. apply last_None in El. rewrite El in Hpath. inversion Hpath; subst. rewrite Hother, Hp in Hafter. injection Hafter as <-.
    eapply covered_mono; [apply (frames_heap _ _ _ _ _ F1)|done].
  - assert (Hm' : m ∉ n :: toRun) by (intros [->|Hin]%elem_of_cons; [done|by apply Hm, (spread_toRun _ _ _ _ S2)]). destruct (Hcl m sm Hm' Hsm ρ ρ' trace Hρ Hd Hpath) as [Hk Ht]. split; [intros k Hin; by apply Hgrow, Hk|].
    apply Htrace. intros i ρi Hi. destruct (Ht i ρi Hi) as [Hpt Hci]. split; [done|]. rewrite (frames_points _ _ _ _ _ F1); [eapply covered_mono; [apply (frames_heap _ _ _ _ _ F1)|done]|]. intros j _ [= -> _]. done.
Qed.
Lemma run_states_loops storage_ rounds : forall toRun v h v' h' ds, run_states getTypeType typeFuel states transitions fuel rounds toRun v h = Done (tt, v', h') ds -> writes_of_states storage_ -> looping storage_ v h toRun ->
  looping storage_ v' h' [] /\ forall m ρ, defined_at h m ρ -> defined_at h' m ρ.
Proof.
  induction rounds as [|rounds IH]; intros [|n toRun] v h v' h' ds He Hw Hl; cbn [run_states] in He; try discriminate He; [by injection He as <- <- _..|].
  apply wbind_inv in He as (toRun1 & v1 & h1 & ? & ? & H1 & H2). destruct (run_state_loops storage_ _ _ _ _ _ _ _ _ H1 Hw Hl) as [L1 G1]. destruct (IH _ _ _ _ _ _ H2 Hw L1) as [L2 G2]. split; [done|]. auto.
Qed.
(** The storage is that made for the parameters and the local variables. *)
Lemma run_states_storage rounds : (forall n s, states n = Some s -> plain_state (w n) s = true) -> forall toRun v h v' h' ds,
  run_states getTypeType typeFuel states transitions fuel rounds toRun v h = Done (tt, v', h') ds -> bounded h -> valid h -> callingContext v = [] -> storage h' = storage h.
Proof.
  intros Hpl. induction rounds as [|rounds IH]; intros [|n toRun] v h v' h' ds He Hb Hv Hc; cbn [run_states] in He; try discriminate He; [by injection He as <- <- _..|].
  apply wbind_inv in He as (toRun1 & v1 & h1 & ? & ? & H1 & H2). apply run_state_run in H1 as (p & s & cw & h2 & after & ? & ? & Hp & Hs & Hrun & Hafter & Hprop).
  pose proof (state_frames getTypeType typeFuel (w n) fuel n s (Hpl n s Hs) _ _ _ _ _ _ Hrun Hb eq_refl) as F1. assert (Hv2 : valid h2).
  { intros m q Hq. rewrite (frames_points _ _ _ _ _ F1) in Hq by (intros i _ [=]). destruct (Hv m q Hq) as [d Hd]. exists d. eapply lookup_weaken; [exact Hd|apply (frames_heap _ _ _ _ _ F1)]. }
  destruct (propagate_spread _ _ _ _ _ _ _ _ _ Hprop (frames_bounded _ _ _ _ _ F1) Hv2 Hc) as (S2 & Hc1 & _).
  rewrite (IH _ _ _ _ _ _ H2 (spread_bounded _ _ _ _ S2) (spread_valid _ _ _ _ S2) Hc1), (spread_storage _ _ _ _ S2). apply (frames_storage _ _ _ _ _ F1).
Qed.
Lemma arrives_defined h start ρ0 n ρ : closed h [] -> ρ0 <> ∅ -> defined_at h start ρ0 -> arrives start ρ0 n ρ -> ρ <> ∅ /\ defined_at h n ρ.
Proof.
  intros Hcl Hρ Hd. induction 1 as [|n ρ s ρ' trace m Ha IH Hs Hp Hm]; [done|]. destruct IH as [Hn Hat]. split; [by eapply path_all_nonempty|].
  destruct (Hcl n s (not_elem_of_nil n) Hs ρ ρ' trace Hn Hat Hp) as [Hk _]. by apply Hk.
Qed.
End parser.

(** ** Example *)
(** [state start { x = ..; transition loop; } state loop { x = ..; transition loop; }] *)
Definition two_states (n : Z) : option State :=
  if n =? 1 then Some {| components := [S_Assignment 2 (X_Path 3 100) (X_Other 4)]; selectExpression := None |}
  else if n =? 5 then Some {| components := [S_Assignment 6 (X_Path 7 100) (X_Other 8)]; selectExpression := None |}
  else None.
Definition to_loop (n : Z) : list Z := [5].
Definition after_parser : Visitor * Shared :=
  match visit_parser id 5 two_states to_loop 20 20 1 [] [variable 100 "x" bit8] new_visitor no_shared with Done (_, v, h) _ => (v, h) | Aborted _ => (new_visitor, no_shared) end.
Definition in_state (n : Z) : Visitor := clone_visitor [n] (with_current (atPoint after_parser.2 !! [n]) new_visitor).
Definition writes_in (n : Z) : gmap Z LocationSet :=
  match two_states n with
  | Some s => match visit_state id 5 20 s (in_state n) after_parser.2 with Done (_, v, _) _ => written v | Aborted _ => ∅ end
  | None => ∅
  end.
Definition by_start : writers := {[0 := beforeStart]}.
Definition by_first : writers := {[0 := [1; 2]]}.
Lemma parser_run : visit_parser id 5 two_states to_loop 20 20 1 [] [variable 100 "x" bit8] new_visitor no_shared = Done (tt, after_parser.1, after_parser.2) [].
Proof. vm_compute. reflexivity. Qed.
Lemma parser_writes : writes_of_states id 5 20 two_states writes_in (storage after_parser.2).
Proof.
  intros n s Hs. unfold two_states in Hs. destruct (Z.eqb_spec n 1) as [->|Hn]; [injection Hs as <-|destruct (Z.eqb_spec n 5) as [->|Hn']; [injection Hs as <-|discriminate Hs]];
    (split; [vm_compute; reflexivity|]); (split; [apply NoDup_singleton|]).
  - exists (in_state 1), after_parser.2. do 3 eexists. split; [reflexivity|]. split; [reflexivity|]. split; [reflexivity|]. split; [vm_compute; reflexivity|]. vm_compute. reflexivity.
  - exists (in_state 5), after_parser.2. do 3 eexists. split; [reflexivity|]. split; [reflexivity|]. split; [reflexivity|]. split; [vm_compute; reflexivity|]. vm_compute. reflexivity.
Qed.
Lemma parser_entry : covered after_parser.2 (atPoint after_parser.2 !! [1]) by_start.
Proof.
  exists 1, {[0 := {[[]]}]}. split; [vm_compute; reflexivity|]. split; [vm_compute; reflexivity|]. intros i p Hi. unfold by_start, writers in Hi. apply lookup_singleton_Some in Hi as [<- <-]. eexists. split; [reflexivity|]. vm_compute. reflexivity.
Qed.
Lemma parser_arrives : arrives two_states to_loop writes_in 1 by_start 5 by_first.
Proof.
  eapply (arrives_next _ _ _ _ _ 1); [apply arrives_start|reflexivity| |left]. cbn [components]. apply (path_cons _ _ _ _ _ by_first Next _ [(2, by_first)] []); [|apply path_nil]. apply path_assignment. vm_compute. reflexivity.
Qed.
Lemma by_start_nonempty : by_start <> ∅.
Proof. unfold by_start, writers. apply map_non_empty_singleton. Qed.
