(* ===== verification/WriteSetTerm.v ===== *)
(** * Def-use analysis: the loop over the states of a parser ends

    Definitions are graphs: pairs of a location and a point that may have written it.
    Nothing the loop makes leaves a finite graph, the graphs at states only grow, and
    a state is run again only when its graph has grown. *)
From S2P Require Import Prelude Ir TypeSubst DefUse DefUseFacts WriteSet WriteSetFacts WriteSetSound WriteSetParser.
Local Open Scope flexplan_scope.
Local Open Scope Z_scope.
Implicit Types (ρ : writers) (d : Definitions) (v : Visitor) (h : Shared).

(** ** Graphs *)
(** [None] stands for the location itself. *)
Definition Graph : Type := gset (Z * option ProgramPoint).
Definition graph_entry (p : Z * ProgramPoints) : list (Z * option ProgramPoint) := (p.1, None) :: map (fun q => (p.1, Some q)) (elements p.2).
Definition graph d : Graph := list_to_set (concat (map graph_entry (map_to_list d))).
Lemma elem_of_graph d x : x ∈ graph d <-> exists P, d !! x.1 = Some P /\ match x.2 with None => True | Some q => q ∈ P end.
Proof.
  unfold graph. rewrite elem_of_list_to_set, list_elem_of_In, in_concat. split.
  - intros (l & Hl & Hx). apply in_map_iff in Hl as ([i P] & <- & Hp). apply list_elem_of_In, elem_of_map_to_list in Hp. destruct Hx as [<-|Hx]; [by exists P|]. apply in_map_iff in Hx as (q & <- & Hq). exists P. split; [done|]. by apply elem_of_elements, list_elem_of_In.
  - intros (P & HP & Hx). exists (graph_entry (x.1, P)). split; [apply in_map, list_elem_of_In; by apply elem_of_map_to_list|]. destruct x as [i [q|]]; [right|by left]. apply in_map_iff. exists q. split; [done|]. by apply list_elem_of_In, elem_of_elements.
Qed.
Lemma graph_inj d e : graph d = graph e -> d = e.
Proof.
  intros Hg. assert (Hx : forall x, x ∈ graph d <-> x ∈ graph e) by (by rewrite Hg). assert (Hone : forall i P, d !! i = Some P -> exists Q, e !! i = Some Q /\ P = Q).
  { intros i P HP. assert (Hin : (i, None) ∈ graph e) by (apply Hx, elem_of_graph; by exists P). apply elem_of_graph in Hin as (Q & HQ & _). exists Q. split; [done|]. unfold ProgramPoints in *. apply set_eq. intros q. split; intros Hq.
    - assert (Hin : (i, Some q) ∈ graph e) by (apply Hx, elem_of_graph; by exists P). apply elem_of_graph in Hin as (Q' & HQ' & Hq'). pose proof (eq_trans (eq_sym HQ) HQ') as Heq. by injection Heq as ->.
    - assert (Hin : (i, Some q) ∈ graph d) by (apply Hx, elem_of_graph; by exists Q). apply elem_of_graph in Hin as (P' & HP' & Hq'). pose proof (eq_trans (eq_sym HP) HP') as Heq. by injection Heq as ->. }
  assert (Hnone : forall i, d !! i = None -> e !! i = None).
  { intros i Hi. destruct (e !! i) as [Q|] eqn:E; [|done]. assert (Hin : (i, None) ∈ graph d) by (apply Hx, elem_of_graph; by exists Q). apply elem_of_graph in Hin as (P & HP & _). discriminate (eq_trans (eq_sym Hi) HP). }
  unfold Definitions in *. apply map_eq. intros i. destruct (d !! i) as [P|] eqn:E; [|by rewrite (Hnone i E)]. destruct (Hone i P E) as (Q & HQ & ->). by rewrite HQ.
Qed.
Lemma graph_empty : graph ∅ = ∅.
Proof. done. Qed.
Lemma graph_join d e : graph (joinDefinitions d e) = graph d ∪ graph e.
Proof.
  apply set_eq. intros [i x]. rewrite elem_of_union, !elem_of_graph. cbn [fst snd]. rewrite join_lookup. generalize (d !! i) (e !! i). intros [P|] [Q|]; cbn; destruct x as [q|]; split; intros Hx.
  - destruct Hx as (R & [= <-] & Hq). apply elem_of_union in Hq as [Hq|Hq]; [left; by exists P|right; by exists Q].
  - destruct Hx as [(R & [= <-] & Hq)|(R & [= <-] & Hq)]; eexists; (split; [done|]); apply elem_of_union; auto.
  - left. by exists P.
  - by eexists.
  - destruct Hx as (R & [= <-] & Hq). left. by exists P.
  - destruct Hx as [(R & [= <-] & Hq)|(R & [=] & Hq)]. by exists P.
  - left. by exists P.
  - by exists P.
  - destruct Hx as (R & [= <-] & Hq). right. by exists Q.
  - destruct Hx as [(R & [=] & Hq)|(R & [= <-] & Hq)]. by exists Q.
  - right. by exists Q.
  - by exists Q.
  - by destruct Hx as (R & [=] & _).
  - by destruct Hx as [(R & [=] & _)|(R & [=] & _)].
  - by destruct Hx as (R & [=] & _).
  - by destruct Hx as [(R & [=] & _)|(R & [=] & _)].
Qed.

(** ** What statements make stays in a graph *)
Section confined.
Context (U : Graph) (w : gmap Z LocationSet) (context : ProgramPoint) (pts : list Z).
Definition contained h : Prop := forall p d, heap h !! p = Some d -> graph d ⊆ U.
Definition fits (s : LocationSet) : Prop := forall i, is_Some (canonicalize s !! i) -> (i, None) ∈ U /\ forall j, j ∈ pts -> (i, Some (point_in context j)) ∈ U.
Context (Hw : forall e s, w !! e = Some s -> fits s).
(** [confined C m]: under [C], [m] makes no definitions outside [U]. *)
Definition confined {A} (C : Prop) (m : W A) : Prop := forall v h a v' h' ds, m v h = Done (a, v', h') ds ->
  (callingContext v' = callingContext v /\ written v ⊆ written v') /\ (C -> written v' ⊆ w -> callingContext v = context -> contained h -> contained h').
Create HintDb confined.
Lemma confined_bind {A B} C (m : W A) (k : A -> W B) : confined C m -> (forall a, confined C (k a)) -> confined C (m ≫= k).
Proof.
  intros Hm Hk v h b v' h' ds (a & v1 & h1 & ? & ? & H1 & H2)%wbind_inv. destruct (Hm _ _ _ _ _ _ H1) as [[C1 W1] P1]. destruct (Hk _ _ _ _ _ _ _ H2) as [[C2 W2] P2]. split; [split; [congruence|by etrans]|].
  intros HC Hsub Hc Hin. apply P2; [done|done|congruence|]. apply P1; [done|by etrans|done|done].
Qed.
Lemma confined_quiet {A} C (m : W A) : quiet m -> confined C m.
Proof. intros Hm v h a v' h' ds (-> & E & I)%Hm. split; [split; [by rewrite E|done]|done]. Qed.
Lemma confined_keeps {A} C (m : W A) : keeps m -> confined C m.
Proof. intros Hm. by apply confined_quiet, keeps_quiet. Qed.
Lemma confined_read {A B} C (m : W A) x (k : A -> W B) : keeps m -> answers w m x -> (forall a, confined (C /\ a = x) (k a)) -> confined C (m ≫= k).
Proof.
  intros Hm Hx Hk v h b v' h' ds (a & v1 & h1 & ? & ? & H1 & H2)%wbind_inv. destruct (Hk _ _ _ _ _ _ _ H2) as [[C2 W2] P2]. pose proof (Hx _ _ _ _ _ _ H1) as Ha. apply Hm in H1 as (-> & E & I). split; [split; [by rewrite C2, E|by etrans]|].
  intros HC Hsub Hc Hin. apply P2; [split; [done|apply Ha; by etrans]|done|by rewrite E|done].
Qed.
Lemma confined_change C f : (forall v, callingContext (f v) = callingContext v /\ written (f v) = written v) -> confined C (change f).
Proof. intros Hf v h a v' h' ds [= _ <- <- _]. destruct (Hf v) as [Hc Hwr]. split; [by rewrite Hc, Hwr|done]. Qed.
Lemma contained_new h h' d : contained h -> heap h' = <[fresh h := d]> (heap h) -> graph d ⊆ U -> contained h'.
Proof. intros Hin Eh Hd p e. rewrite Eh. intros [[_ <-]|[_ Hp]]%lookup_insert_Some; [done|by apply (Hin p)]. Qed.
Lemma confined_new C : confined C (new_definitions ∅).
Proof. intros v h a v' h' ds (-> & -> & Eh & _)%new_inv. split; [done|]. intros _ _ _ Hin. apply (contained_new h h' ∅ Hin Eh). rewrite graph_empty. set_solver. Qed.
Lemma confined_join C p q : confined C (join_objects p q).
Proof.
  intros v h a v' h' ds (d & e & n & m & -> & Hn & -> & Hm & -> & -> & Eh & _)%join_objects_inv. split; [done|]. intros _ _ _ Hin. apply (contained_new h h' _ Hin Eh). rewrite graph_join. pose proof (Hin _ _ Hn). pose proof (Hin _ _ Hm). set_solver.
Qed.
Lemma confined_set C p node : confined C (setDefinitions p node).
Proof. intros v h a v' h' ds (-> & Eh & _)%setDefinitions_inv. split; [done|]. intros _ _ _ Hin q d. rewrite Eh. apply Hin. Qed.
Lemma confined_not_null {A} C (o : option A) : confined C (not_null o).
Proof. apply confined_keeps. destruct o; [apply keeps_ret|apply keeps_bug]. Qed.
Lemma confined_visitor C : confined C get_visitor.
Proof. apply confined_keeps, keeps_visitor. Qed.
Lemma confined_current C p : confined C (change (with_current p)).
Proof. by apply confined_change. Qed.
Lemma confined_returned C p : confined C (change (with_returned p)).
Proof. by apply confined_change. Qed.
Lemma confined_exit C p : confined C (change (with_exit p)).
Proof. by apply confined_change. Qed.
Lemma confined_lhs C b : confined C (change (with_lhs b)).
Proof. apply confined_quiet, quiet_lhs. Qed.
Lemma confined_ret {A} C (a : A) : confined C (mret a).
Proof. apply confined_keeps, keeps_ret. Qed.
Hint Resolve confined_new confined_join confined_set confined_not_null confined_visitor confined_current confined_returned confined_exit confined_lhs confined_ret : confined.
Lemma confined_for_all {A} C (f : A -> W unit) xs : (forall x, x ∈ xs -> confined C (f x)) -> confined C (for_all f xs).
Proof. induction xs as [|x xs IH]; intros Hf; cbn [for_all]; [apply confined_ret|]. apply confined_bind; [apply Hf; left|]. intros _. apply IH. intros y Hy. apply Hf. by right. Qed.
Lemma confined_branches C f save cases : (forall c, c ∈ cases -> confined C (f c.2)) -> forall r, confined C (visit_branches f save cases r).
Proof.
  induction cases as [|[b c] cases IH]; intros Hf r; cbn [visit_branches]; [apply confined_ret|]. apply confined_bind; [auto with confined|intros _]. apply confined_bind; [apply (Hf (b, c)), list_elem_of_here|intros _].
  apply confined_bind; [auto with confined|intros v]. apply confined_bind; [auto with confined|intros r']. apply IH. intros x Hx. apply Hf. by right.
Qed.
Lemma graph_writes point s d : fits s -> (exists j, j ∈ pts /\ point = point_in context j) -> graph d ⊆ U -> graph (writes point s d) ⊆ U.
Proof.
  intros Hs (j & Hj & ->) Hd [i x] Hx. apply elem_of_graph in Hx as (P & HP & Hx). cbn [fst snd] in *. rewrite writes_lookup in HP. destruct (canonicalize s !! i) eqn:E.
  - injection HP as <-. destruct (Hs i (mk_is_Some _ _ E)) as [Hn Hp]. destruct x as [q|]; [|done]. apply elem_of_singleton in Hx as ->. by apply Hp.
  - apply Hd, elem_of_graph. by exists P.
Qed.
Lemma confined_write_at point node s : confined (fits s /\ point ∈ pts) (write_at point node s).
Proof.
  intros v h a v' h' ds (v1 & v2 & h1 & ? & ? & H1 & (d & v3 & h2 & ? & ? & H2 & (pt & v4 & h3 & ? & ? & H3 & (p & v5 & h4 & ? & ? & H4 & H5)%wbind_inv)%wbind_inv)%wbind_inv)%wbind_inv.
  injection H1 as <- <- <- _. apply deref_inv in H2 as (-> & -> & m & Hm & Hd). injection H3 as <- <- <- _. apply new_inv in H4 as (-> & -> & Eh & _). apply setDefinitions_inv in H5 as (-> & Eh5 & _). split; [done|].
  intros [Hs Hp] _ Hc Hin q e. rewrite Eh5. revert q e. apply (contained_new h _ _ Hin Eh). apply graph_writes; [done|exists point; by rewrite Hc|by apply (Hin m)].
Qed.
Lemma fits_writes_of e : fits (writes_of w e).
Proof. unfold writes_of. destruct (w !! expr_id e) as [s|] eqn:E; [by apply (Hw _ _ E)|]. intros i Hi. exfalso. rewrite canonicalize_dom in Hi. destruct Hi as (j & l & Hj & _). discriminate Hj. Qed.
Lemma fits_join s t : fits s -> fits t -> fits (join s t).
Proof.
  intros Hs Ht i Hi. rewrite canonicalize_dom in Hi. destruct Hi as (j & l & Hj & Hb). unfold join, LocationSet in *. apply lookup_union_Some_raw in Hj as [Hj|[_ Hj]]; [apply Hs|apply Ht]; apply canonicalize_dom; by exists j, l.
Qed.
Lemma fits_empty : fits ∅.
Proof. intros i Hi. rewrite canonicalize_dom in Hi. destruct Hi as (j & l & Hj & _). discriminate Hj. Qed.
Lemma confined_weaken {A} (C C' : Prop) (m : W A) : (C' -> C) -> confined C m -> confined C' m.
Proof. intros HC Hm v h a v' h' ds Hr. destruct (Hm _ _ _ _ _ _ Hr) as [H1 H2]. split; [exact H1|]. auto. Qed.
Section statements.
Context (getTypeType : IRType -> IRType) (typeFuel : nat).
Notation visit := (visit getTypeType typeFuel).
Notation visit_statement := (visit_statement getTypeType typeFuel).
Lemma confined_visit C fuel e : call_free e = true -> confined C (visit fuel e).
Proof. intros He. by apply confined_keeps, visit_keeps. Qed.
Ltac confined_step := first [solve [auto with confined] | apply confined_visit; assumption | apply confined_bind; [|intros ?] | apply confined_for_all; intros ? ? | apply confined_branches; intros ? ?].
Lemma confined_written C es point node : point ∈ pts -> confined C (locs ← join_written es ∅; write_at point node locs).
Proof.
  intros Hp. eapply confined_read; [apply keeps_join_written|apply answers_join_written|]. intros a. eapply confined_weaken; [|apply confined_write_at]. intros [_ ->]. split; [|done].
  assert (Hgo : forall s, fits s -> fits (fold_left (fun s e => join s (writes_of w e)) es s)) by (induction es as [|e es IH]; intros s Hs; cbn [fold_left]; [done|]; apply IH, fits_join; [done|apply fits_writes_of]). apply Hgo, fits_empty.
Qed.
Lemma confined_wrote {A} C e point node (k : W A) : point ∈ pts -> confined C k -> confined C (locs ← getWrites e; write_at point node locs;; k).
Proof.
  intros Hp Hk. eapply confined_read; [apply keeps_getWrites|apply answers_getWrites|]. intros a. apply confined_bind; [|intros _; apply (confined_weaken C); [by intros [HC _]|done]].
  eapply confined_weaken; [|apply confined_write_at]. intros [_ ->]. split; [apply fits_writes_of|done].
Qed.
Lemma confined_wrote_last C e point node : point ∈ pts -> confined C (locs ← getWrites e; write_at point node locs).
Proof. intros Hp. eapply confined_read; [apply keeps_getWrites|apply answers_getWrites|]. intros a. eapply confined_weaken; [|apply confined_write_at]. intros [_ ->]. split; [apply fits_writes_of|done]. Qed.
Lemma statement_confined fuel : forall s C, plain w s = true -> points_of s ⊆ pts -> confined C (visit_statement fuel s).
Proof.
  induction fuel as [|fuel IH]; intros s C Hs Hp; [by intros v h a v' h' ds [=]|]. cbn [WriteSet.visit_statement].
  destruct s as [id l r|id e|id c t f|id e cases total|id ss|id e|id|id|id]; cbn [plain points_of] in *; repeat (apply andb_true_iff in Hs as [Hs ?]).
  - do 4 (apply confined_bind; [confined_step|intros _]). apply confined_written. apply Hp. left.
  - do 2 (apply confined_bind; [confined_step|intros _]). apply confined_wrote_last. apply Hp. left.
  - apply confined_bind; [confined_step|intros _]. apply confined_wrote; [apply Hp; right; apply elem_of_app; right; apply elem_of_app; right; left|].
    assert (Ht : confined C (visit_statement fuel t)) by (apply IH; [done|]; intros i Hi; apply Hp; right; apply elem_of_app; by left).
    assert (Hf : confined C (match f with Some f => visit_statement fuel f | None => mret tt end)).
    { destruct f as [f|]; [|apply confined_ret]. apply IH; [done|]. intros i Hi. apply Hp. right. apply elem_of_app. right. apply elem_of_app. by left. }
    repeat (confined_step || exact Ht || exact Hf).
  - apply confined_bind; [confined_step|intros _]. apply confined_wrote; [apply Hp; left|].
    assert (Hc : forall c, c ∈ cases -> confined C (match c.2 with Some s => visit_statement fuel s | None => mret tt end)).
    { intros c Hin. pose proof (forallb_in _ _ _ H Hin) as Hpl. destruct c as [b [s|]]; cbn [snd] in *; [|apply confined_ret]. apply IH; [done|]. intros i Hi. apply Hp. right. apply elem_of_app. left.
      apply list_elem_of_In, in_concat. exists (points_of s). split; [|by apply list_elem_of_In]. apply in_map_iff. exists (b, Some s). split; [done|by apply list_elem_of_In]. }
    repeat (confined_step || (apply (confined_branches C (fun body => match body with Some s => visit_statement fuel s | None => mret tt end)); exact Hc) || match goal with |- confined _ (if ?b then _ else _) => destruct b end).
  - apply confined_bind; [apply confined_for_all; intros s Hin; apply IH; [by apply (forallb_in _ _ _ Hs)|]|intros _; repeat confined_step]. intros i Hi. apply Hp, elem_of_app. left.
    apply list_elem_of_In, in_concat. exists (points_of s). split; [|by apply list_elem_of_In]. apply in_map. by apply list_elem_of_In.
  - apply confined_bind; [|intros _; repeat confined_step]. destruct e as [e|]; [|apply confined_ret]. apply andb_true_iff in Hs as [Hs _]. by apply confined_visit.
  - repeat confined_step.
  - repeat confined_step.
  - repeat confined_step.
Qed.
End statements.
End confined.

(** ** The graph of a parser *)
Definition written_graph (context : ProgramPoint) (pts : list Z) (written_ : gmap Z LocationSet) : Graph :=
  list_to_set (concat (map (fun p => concat (map (fun q => (q.1, None) :: map (fun j => (q.1, Some (point_in context j))) pts) (map_to_list (canonicalize p.2)))) (map_to_list written_))).
Lemma written_graph_fits U context pts (written_ : gmap Z LocationSet) e s : written_graph context pts written_ ⊆ U -> written_ !! e = Some s -> fits U context pts s.
Proof.
  intros HU He i [b Hb]. assert (Hin : forall x, x ∈ (i, None) :: map (fun j => (i, Some (point_in context j))) pts -> x ∈ U).
  { intros x Hx. apply HU. unfold written_graph. apply elem_of_list_to_set, list_elem_of_In, in_concat. eexists. split; [apply in_map_iff; exists (e, s); split; [reflexivity|]; apply list_elem_of_In; by apply elem_of_map_to_list|].
    cbn [snd]. apply in_concat. eexists. split; [apply in_map_iff; exists (i, b); split; [reflexivity|]; apply list_elem_of_In; by apply elem_of_map_to_list|]. by apply list_elem_of_In. }
  split; [apply Hin; left|]. intros j Hj. apply Hin. right. apply list_elem_of_In, in_map_iff. exists j. split; [done|by apply list_elem_of_In].
Qed.
(** The graph of the definitions at a state. *)
Definition state_graph h (n : Z) : Graph := match atPoint h !! [n] with Some p => match heap h !! p with Some d => graph d | None => ∅ end | None => ∅ end.
Lemma state_graph_same h h' n : heap h ⊆ heap h' -> valid h -> atPoint h' !! [n] = atPoint h !! [n] -> state_graph h' n = state_graph h n.
Proof.
  unfold state_graph. intros Hs Hv ->. destruct (atPoint h !! [n]) as [p|] eqn:Ep; [|done]. destruct (Hv n p Ep) as [d Hd]. by rewrite Hd, (lookup_weaken _ _ _ _ Hd Hs).
Qed.
Lemma state_graph_contained U h n : contained U h -> state_graph h n ⊆ U.
Proof. unfold state_graph. intros Hc. destruct (atPoint h !! [n]) as [p|]; [|set_solver]. destruct (heap h !! p) as [d|] eqn:E; [by apply (Hc p)|set_solver]. Qed.
(** What the graphs at the states [N] still miss of [U]. *)
Definition missing (U : Graph) (N : list Z) h : nat := list_sum (map (fun n => size U - size (state_graph h n))%nat N).
Lemma sum_le {A} (f g : A -> nat) xs : (forall x, x ∈ xs -> (f x <= g x)%nat) -> (list_sum (map f xs) <= list_sum (map g xs))%nat.
Proof.
  unfold list_sum. induction xs as [|x xs IH]; intros Hf; cbn [map fold_right]; [done|]. pose proof (Hf x (list_elem_of_here _ _)). specialize (IH (fun y Hy => Hf y (list_elem_of_further _ _ _ Hy))). lia.
Qed.
Lemma sum_lt {A} (f g : A -> nat) xs x : (forall x, x ∈ xs -> (f x <= g x)%nat) -> x ∈ xs -> (f x < g x)%nat -> (list_sum (map f xs) < list_sum (map g xs))%nat.
Proof.
  intros Hf Hx Hlt. unfold list_sum. induction xs as [|y xs IH]; [by apply not_elem_of_nil in Hx|]. cbn [map fold_right]. pose proof (Hf y (list_elem_of_here _ _)). pose proof (fun z Hz => Hf z (list_elem_of_further _ y _ Hz)) as Hrest.
  pose proof (sum_le f g xs Hrest) as Hle. unfold list_sum in Hle. apply elem_of_cons in Hx as [->|Hx]; [lia|]. specialize (IH Hrest Hx). lia.
Qed.
Lemma missing_same U N h h' : (forall n, state_graph h' n = state_graph h n) -> missing U N h' = missing U N h.
Proof. intros Hs. unfold missing. f_equal. apply map_ext. intros n. by rewrite Hs. Qed.
Lemma missing_less U N h h' n : (forall m, m <> n -> state_graph h' m = state_graph h m) -> state_graph h n ⊂ state_graph h' n -> state_graph h' n ⊆ U -> n ∈ N -> (missing U N h' < missing U N h)%nat.
Proof.
  intros Hs Hn HU Hin. pose proof (subset_size _ _ Hn). pose proof (subseteq_size _ _ HU). unfold missing. apply (sum_lt _ _ _ n); [|done|lia]. intros m _. destruct (decide (m = n)) as [->|Hm]; [lia|]. rewrite Hs by done. lia.
Qed.
Lemma getDefinitions_graph U m v h p v' h' ds : getDefinitions [m] true v h = Done (p, v', h') ds -> bounded h -> valid h -> contained U h -> contained U h' /\ forall n, state_graph h' n = state_graph h n.
Proof.
  unfold getDefinitions. intros (x & v1 & h1 & ? & ? & H1 & H2)%wbind_inv Hb Hv Hin. injection H1 as <- <- <- _. match type of H2 with context [match ?t with _ => _ end] => destruct t as [q|] eqn:E end.
  - injection H2 as _ <- <- _. done.
  - change (atPoint h !! [m] = None) in E. apply wbind_inv in H2 as (q & v2 & h2 & ? & ? & H2 & ([] & v3 & h3 & ? & ? & H3 & H4)%wbind_inv). apply new_inv in H2 as (-> & -> & Eh & Ef & Ea & Es). injection H4 as <- <- <- _. injection H3 as <- <- _.
    destruct (bounded_new _ _ _ Hb Eh Ef) as [Hb2 Hs]. split; [intros r d; cbn; revert r d; apply (contained_new U h h2 ∅ Hin Eh); rewrite graph_empty; set_solver|]. intros n. destruct (decide (n = m)) as [->|Hne].
    + unfold state_graph. cbn. rewrite lookup_insert_eq, Eh, lookup_insert_eq, E. apply graph_empty.
    + apply state_graph_same; [exact Hs|exact Hv|]. cbn. rewrite lookup_insert_ne, Ea; [done|]. by intros [= ->].
Qed.
Lemma propagate_missing U N after next : forall toRun v h toRun' v' h' ds, propagate after next toRun v h = Done (toRun', v', h') ds -> bounded h -> valid h -> callingContext v = [] -> contained U h ->
  (forall n, n ∈ next -> n ∈ N) -> (forall n, n ∈ toRun -> n ∈ N) ->
  contained U h' /\ (length toRun' + missing U N h' <= length toRun + missing U N h)%nat /\ forall n, n ∈ toRun' -> n ∈ N.
Proof.
  induction next as [|n next IH]; intros toRun v h toRun' v' h' ds He Hb Hv Hc Hin Hnext Hrun; cbn [propagate] in He; [by injection He as -> <- <- _|].
  apply wbind_inv in He as (p & v1 & h1 & ? & ? & H1 & (q & v2 & h2 & ? & ? & H2 & (d & v3 & h3 & ? & ? & H3 & (d' & v4 & h4 & ? & ? & H4 & H5)%wbind_inv)%wbind_inv)%wbind_inv).
  destruct (getDefinitions_run n toRun _ _ _ _ _ _ H1 Hb Hv) as (-> & Hp & S1). destruct (getDefinitions_graph U n _ _ _ _ _ _ H1 Hb Hv Hin) as [Hin1 Hg1]. pose proof H2 as (e & a & na & nb & [= <-] & He & [= <-] & Ha & Hq & -> & Eh & Ef & Ea & Es)%join_objects_inv.
  destruct (bounded_new _ _ _ (spread_bounded _ _ _ _ S1) Eh Ef) as [Hb2 Hs2]. pose proof (spread_object h1 toRun h2 (spread_valid _ _ _ _ S1) Hs2 Hb2 Es Ea) as S2. pose proof (spread_valid _ _ _ _ S2) as Hv2.
  assert (Hin2 : contained U h2) by (apply (contained_new U h1 h2 _ Hin1 Eh); rewrite graph_join; pose proof (Hin1 _ _ He); pose proof (Hin1 _ _ Ha); set_solver).
  assert (Hg2 : forall m, state_graph h2 m = state_graph h m) by (intros m; rewrite (state_graph_same h1 h2); [apply Hg1|done|apply (spread_valid _ _ _ _ S1)|by rewrite Ea]).
  apply deref_inv in H3 as (-> & -> & nc & [= <-] & Hd). apply deref_inv in H4 as (-> & -> & nd & [= <-] & Hd'). assert (d = e) as -> by (pose proof (lookup_weaken _ _ _ _ He Hs2); by simplify_eq).
  rewrite Hq, Eh, lookup_insert_eq in Hd'. injection Hd' as <-. assert (Hnext' : forall m, m ∈ next -> m ∈ N) by (intros m Hm; apply Hnext; by right). destruct (definitions_eqb e (joinDefinitions e a)) eqn:Eq.
  - rewrite <- (missing_same U N h h2 Hg2). by apply (IH _ _ _ _ _ _ _ H5).
  - apply wbind_inv in H5 as ([] & v5 & h5 & ? & ? & H5 & H6). pose proof (setDefinitions_frames _ _ _ _ _ _ _ _ H5 Hb2) as F5. apply setDefinitions_inv in H5 as (-> & Eh5 & Ef5 & Ea5 & Es5). rewrite Hc in Ea5. change (point_in [] n) with [n] in Ea5.
    assert (Hq5 : heap h5 !! q = Some (joinDefinitions e a)) by (by rewrite Eh5, Hq, Eh, lookup_insert_eq). assert (Hin5 : contained U h5) by (intros r d; rewrite Eh5; apply Hin2).
    assert (Hgn : state_graph h5 n = graph (joinDefinitions e a)) by (unfold state_graph; rewrite Ea5, lookup_insert_eq; by rewrite Hq5).
    assert (Hgo : forall m, m <> n -> state_graph h5 m = state_graph h2 m) by (intros m Hm; apply state_graph_same; [by rewrite Eh5|done|]; rewrite Ea5, lookup_insert_ne; [done|]; by intros [= ->]).
    assert (Hold : state_graph h2 n = graph e) by (unfold state_graph; by rewrite Ea, Hp, Hd).
    assert (Hlt : (missing U N h5 < missing U N h2)%nat).
    { apply (missing_less U N h2 h5 n Hgo); [|by apply state_graph_contained|by apply Hnext; left]. rewrite Hgn, Hold. split; [rewrite graph_join; set_solver|]. intros Hsub. assert (Hj : e = joinDefinitions e a).
      { apply graph_inj. apply set_eq. intros z. split; [|apply Hsub]. rewrite graph_join. set_solver. }
      apply definitions_eqb_spec in Hj. congruence. }
    assert (Hv5 : valid h5).
    { intros m r Hr. destruct (decide (m = n)) as [->|Hm]; [rewrite Ea5, lookup_insert_eq in Hr; injection Hr as <-; by eexists|]. rewrite Ea5, lookup_insert_ne in Hr by (by intros [= ->]). rewrite Eh5. by apply (Hv2 m). }
    destruct (IH _ _ _ _ _ _ _ H6 (frames_bounded _ _ _ _ _ F5) Hv5 Hc Hin5 Hnext') as (C6 & L6 & R6).
    { intros m Hm. destruct (existsb _ _); [by apply Hrun|]. apply elem_of_app in Hm as [Hm| ->%list_elem_of_singleton]; [by apply Hrun|by apply Hnext; left]. }
    split; [done|]. split; [|done]. rewrite <- (missing_same U N h h2 Hg2). destruct (existsb _ _); [lia|]. rewrite length_app in L6. cbn [length] in L6. lia.
Qed.

(** ** The loop *)
Lemma missing_bound U N h : (missing U N h <= length N * size U)%nat.
Proof. unfold missing, list_sum. induction N as [|n N IH]; cbn [map fold_right length]; lia. Qed.
Section parser.
Context (getTypeType : IRType -> IRType) (typeFuel fuel : nat) (states : Z -> option State) (transitions : Z -> list Z) (w : Z -> gmap Z LocationSet).
Notation visit_state := (visit_state getTypeType typeFuel).
Notation run_state := (run_state getTypeType typeFuel states transitions).
Notation run_states := (run_states getTypeType typeFuel states transitions).
Notation writes_of_states := (writes_of_states getTypeType typeFuel fuel states w).
(** The nesting of a state. *)
Definition state_depth (s : State) : nat := (list_sum (map statement_depth (components s)) + match selectExpression s with Some e => depth e | None => 0 end)%nat.
Definition states_graph (N : list Z) : Graph := union_list (map (fun n => match states n with Some s => written_graph [n] (state_points s) (w n) | None => ∅ end) N).
Definition heap_graph h : Graph := union_list (map (fun p => graph p.2) (map_to_list (heap h))).
(** All that may be defined in the states [N] of a parser, starting from [h]. *)
Definition universe (N : list Z) h : Graph := heap_graph h ∪ states_graph N.
Lemma heap_contained N h : contained (universe N h) h.
Proof.
  intros p d Hp. unfold universe. apply union_subseteq_l', elem_of_subseteq. intros x Hx. apply elem_of_union_list. exists (graph d). split; [|done]. apply list_elem_of_In, in_map_iff. exists (p, d). split; [done|]. apply list_elem_of_In. by apply elem_of_map_to_list.
Qed.
Lemma states_fit N h n s : n ∈ N -> states n = Some s -> forall e t, w n !! e = Some t -> fits (universe N h) [n] (state_points s) t.
Proof.
  intros Hn Hs e t. apply written_graph_fits. unfold universe. apply union_subseteq_r', elem_of_subseteq. intros x Hx. apply elem_of_union_list. exists (written_graph [n] (state_points s) (w n)). split; [|done].
  apply list_elem_of_In, in_map_iff. exists n. rewrite Hs. split; [done|by apply list_elem_of_In].
Qed.
Lemma state_sated s wn : plain_state wn s = true -> (state_depth s <= fuel)%nat -> sated (visit_state fuel s).
Proof.
  intros Hp Hd. unfold WriteSet.visit_state, state_depth in *. apply sated_bind.
  - apply sated_for_all. intros c Hc. destruct (plain_component wn s Hp c Hc) as [Hpl _]. apply (statement_sated getTypeType typeFuel wn); [done|]. pose proof (list_sum_in statement_depth _ _ Hc). lia.
  - intros _. apply andb_true_iff in Hp as [_ He]. destruct (selectExpression s); [|auto with sated]. apply visit_sated; [done|lia].
Qed.
Lemma getDefinitions_sated pt b : sated (getDefinitions pt b).
Proof. unfold getDefinitions, setDefinitionsAt. repeat sated_step. Qed.
Lemma propagate_sated after next : forall toRun, sated (propagate after next toRun).
Proof. induction next as [|n next IH]; intros toRun; cbn [propagate]; repeat (apply IH || apply getDefinitions_sated || sated_step). Qed.
Lemma run_in_sated {A} cw (m : W A) : sated m -> sated (run_in cw m).
Proof. intros Hm v h. specialize (Hm cw h). unfold run_in, sated_outcome in *. destruct (m cw h); [discriminate|]. cbn. congruence. Qed.
Lemma sated_bind_of {A B} (m : W A) (k : A -> W B) : sated m -> (forall v h a v1 h1 ds, m v h = Done (a, v1, h1) ds -> sated (k a)) -> sated (m ≫= k).
Proof.
  intros Hm Hk v h. specialize (Hm v h). specialize (Hk v h). unfold mbind, W_bind, sated_outcome in *. destruct (m v h) as [[[a v1] h1] ds|why]; cbn; [|congruence]. specialize (Hk a v1 h1 ds eq_refl v1 h1). unfold sated_outcome in Hk. destruct (k a v1 h1); [discriminate|congruence].
Qed.
Lemma run_state_sated n toRun : (forall s, states n = Some s -> sated (visit_state fuel s)) -> sated (run_state fuel n toRun).
Proof.
  intros Hs. unfold WriteSet.run_state, getDefinitionsAfter. apply sated_bind; [apply getDefinitions_sated|intros p]. apply sated_bind; [auto with sated|intros _]. apply sated_bind_of; [auto with sated|]. intros v h s v1 h1 ds Hrun.
  assert (Hn : states n = Some s) by (destruct (states n); [by injection Hrun as -> _ _ _|discriminate Hrun]). apply sated_bind; [auto with sated|intros v2]. apply sated_bind; [by apply run_in_sated, Hs|intros cw]. apply sated_bind; [apply getDefinitions_sated|intros after]. apply propagate_sated.
Qed.
Section states.
Context (storage_ : gmap Z StorageLocation) (N : list Z) (U : Graph).
Context (Hw : writes_of_states storage_) (Hdepth : forall n s, states n = Some s -> (state_depth s <= fuel)%nat) (HN : forall n m, n ∈ N -> m ∈ transitions n -> m ∈ N).
Context (HU : forall n s, n ∈ N -> states n = Some s -> forall e t, w n !! e = Some t -> fits U [n] (state_points s) t).
Record running v h (toRun : list Z) : Prop := {
  running_bounded : bounded h; running_valid : valid h; running_context : callingContext v = []; running_storage : storage h = storage_; running_contained : contained U h; running_toRun : forall n, n ∈ toRun -> n ∈ N }.
Lemma visit_state_contained n s v h v' h' ds : n ∈ N -> states n = Some s -> visit_state fuel s v h = Done (tt, v', h') ds -> callingContext v = [n] -> written v' ⊆ w n -> contained U h -> contained U h'.
Proof.
  intros Hn Hs ([] & v1 & h1 & ? & ? & H1 & H2)%wbind_inv Hc Hwr Hin. destruct (Hw n s Hs) as (Hp & _). apply (select_quiet getTypeType typeFuel (w n) fuel s Hp) in H2 as (-> & _ & Hsub).
  assert (Hconf : confined U (w n) [n] True (for_all (visit_statement getTypeType typeFuel fuel) (components s))).
  { apply confined_for_all. intros c Hcin. destruct (plain_component (w n) s Hp c Hcin) as [Hpl _]. apply (statement_confined U (w n) [n] (state_points s) (HU n s Hn Hs)); [done|].
    intros i Hi. apply list_elem_of_In, in_concat. exists (points_of c). split; [|by apply list_elem_of_In]. apply in_map. by apply list_elem_of_In. }
  destruct (Hconf _ _ _ _ _ _ H1) as [_ Hcc]. apply Hcc; [done|by etrans|done|done].
Qed.
Lemma run_state_running n toRun v h toRun' v' h' ds : run_state fuel n toRun v h = Done (toRun', v', h') ds -> running v h (n :: toRun) ->
  running v' h' toRun' /\ (length toRun' + missing U N h' <= length toRun + missing U N h)%nat.
Proof.
  intros (p & s & cw & h1 & after & ? & ? & Hp & Hs & Hrun & Hafter & Hprop)%run_state_run [Hb Hv Hc Hst Hin HT]. assert (Hn : n ∈ N) by (apply HT; left). destruct (Hw n s Hs) as (Hpl & _).
  pose proof (state_written getTypeType typeFuel fuel states w storage_ n s (clone_visitor [n] (with_current (Some p) v)) _ _ _ _ Hw Hs Hst eq_refl eq_refl Hrun) as Hwritten.
  pose proof (state_frames getTypeType typeFuel (w n) fuel n s Hpl _ _ _ _ _ _ Hrun Hb eq_refl) as F1. assert (Hother : forall m, atPoint h1 !! [m] = atPoint h !! [m]) by (intros m; apply (frames_points _ _ _ _ _ F1); intros i _ [=]).
  assert (Hv1 : valid h1). { intros m q Hq. rewrite Hother in Hq. destruct (Hv m q Hq) as [d Hd]. exists d. eapply lookup_weaken; [exact Hd|apply (frames_heap _ _ _ _ _ F1)]. }
  assert (Hin1 : contained U h1) by (apply (visit_state_contained n s _ _ _ _ _ Hn Hs Hrun eq_refl); [by rewrite Hwritten|done]). pose proof (frames_bounded _ _ _ _ _ F1) as Hb1.
  destruct (propagate_spread _ _ _ _ _ _ _ _ _ Hprop Hb1 Hv1 Hc) as (S2 & Hc' & _).
  destruct (propagate_missing U N _ _ _ _ _ _ _ _ _ Hprop Hb1 Hv1 Hc Hin1 (fun m Hm => HN n m Hn Hm) (fun m Hm => HT m (list_elem_of_further _ _ _ Hm))) as (Hin' & Hle & HT').
  split; [split; [apply (spread_bounded _ _ _ _ S2)|apply (spread_valid _ _ _ _ S2)|done|by rewrite (spread_storage _ _ _ _ S2), (frames_storage _ _ _ _ _ F1)|done|done]|].
  rewrite <- (missing_same U N h h1); [done|]. intros m. apply state_graph_same; [apply (frames_heap _ _ _ _ _ F1)|done|apply Hother].
Qed.
Lemma run_states_ends rounds : forall toRun v h, running v h toRun -> (length toRun + missing U N h <= rounds)%nat -> sated_outcome (run_states fuel rounds toRun v h).
Proof.
  induction rounds as [|rounds IH]; intros [|n toRun] v h Hr Hle; cbn [WriteSet.run_states]; try discriminate; [cbn [length] in Hle; lia|].
  pose proof (run_state_sated n toRun (fun s Hs => state_sated s (w n) (proj1 (Hw n s Hs)) (Hdepth n s Hs)) v h) as Hsat. unfold mbind, W_bind, sated_outcome in *.
  destruct (run_state fuel n toRun v h) as [[[toRun1 v1] h1] ds|why] eqn:E; cbn; [|congruence]. destruct (run_state_running n toRun _ _ _ _ _ _ E Hr) as [Hr1 Hle1]. cbn [length] in Hle.
  specialize (IH toRun1 v1 h1 Hr1 ltac:(lia)). unfold sated_outcome in IH. destruct (run_states fuel rounds toRun1 v1 h1); [discriminate|congruence].
Qed.
End states.
(** C9. The loop over the states of a parser runs out of neither its rounds nor its fuel:
    the rounds are at most one more than the pairs of a location and a point, for
    every state, and the fuel is the nesting of the states. *)
Theorem parser_loop_ends N rounds start parameters locals v h v1 h1 ds : enterScope getTypeType typeFuel parameters locals [start] true v h = Done (tt, v1, h1) ds ->
  bounded h -> atPoint h = ∅ -> callingContext v = [] -> writes_of_states (storage h1) ->
  start ∈ N -> (forall n m, n ∈ N -> m ∈ transitions n -> m ∈ N) -> (forall n s, states n = Some s -> (state_depth s <= fuel)%nat) -> (length N * size (universe N h1) < rounds)%nat ->
  visit_parser getTypeType typeFuel states transitions fuel rounds start parameters locals v h <> Aborted "out of fuel".
Proof.
  intros He Hb Hnone Hc Hw Hstart HN Hdepth Hr. unfold visit_parser, mbind, W_bind. rewrite He. destruct (enterScope_run _ _ _ _ _ _ _ _ _ _ _ _ He Hb) as (Hb1 & p & -> & Ea & Hp). specialize (Hp eq_refl). rewrite Hnone in Ea.
  assert (Hv1 : valid h1). { intros m q Hq. rewrite Ea in Hq. apply lookup_insert_Some in Hq as [[[= ->] ->]|[_ Hq]]; [done|discriminate Hq]. }
  pose proof (missing_bound (universe N h1) N h1) as Hmissing.
  pose proof (run_states_ends (storage h1) N (universe N h1) Hw Hdepth HN (states_fit N h1) rounds [start] (with_current (Some p) v) h1) as Hends.
  cbn. specialize (Hends ltac:(split; [done|done|done|done|apply heap_contained|by intros n ->%list_elem_of_singleton]) ltac:(cbn [length]; lia)). unfold sated_outcome in Hends.
  destruct (run_states fuel rounds [start] _ h1); [discriminate|congruence].
Qed.
End parser.

(** ** Example *)
Definition entered : Visitor * Shared := match enterScope id 5 [] [variable 100 "x" bit8] [1] true new_visitor no_shared with Done (_, v, h) _ => (v, h) | Aborted _ => (new_visitor, no_shared) end.
Lemma parser_entered : enterScope id 5 [] [variable 100 "x" bit8] [1] true new_visitor no_shared = Done (tt, entered.1, entered.2) [].
Proof. vm_compute. reflexivity. Qed.
Lemma entered_writes : writes_of_states id 5 20 two_states writes_in (storage entered.2).
Proof. assert (Hs : storage entered.2 = storage after_parser.2) by (vm_compute; reflexivity). rewrite Hs. exact parser_writes. Qed.
Lemma two_states_closed n m : n ∈ [1; 5] -> m ∈ to_loop n -> m ∈ [1; 5].
Proof. intros _ ->%list_elem_of_singleton. right. left. Qed.
Lemma two_states_depth n s : two_states n = Some s -> (state_depth s <= 20)%nat.
Proof. unfold two_states. destruct (n =? 1), (n =? 5); intros Hs; try discriminate Hs; injection Hs as <-; vm_compute; lia. Qed.
Lemma two_states_rounds : (length [1%Z; 5%Z] * size (universe two_states writes_in [1%Z; 5%Z] entered.2) < 20)%nat.
Proof. apply Nat.ltb_lt. vm_compute. reflexivity. Qed.
Lemma parser_loop_ends_witness : (length [1%Z; 5%Z] * size (universe two_states writes_in [1%Z; 5%Z] entered.2) < 20)%nat /\
  visit_parser id 5 two_states to_loop 20 20 1 [] [variable 100 "x" bit8] new_visitor no_shared <> Aborted "out of fuel".
Proof.
  split; [exact two_states_rounds|].
  exact (parser_loop_ends id 5 20 two_states to_loop writes_in [1; 5] 20 1 [] [variable 100 "x" bit8] new_visitor no_shared _ _ _ parser_entered example_bounded eq_refl eq_refl entered_writes
    (list_elem_of_here 1 [5]) two_states_closed two_states_depth two_states_rounds).
Defined.
